(* ===== verification/_CoqProject ===== *)
-Q . S2P
Prelude.v
HandlerId.v
HandlerList.v
HandlerStore.v
PanicInfo.v
Hazard.v
HazardSpec.v
SnapCell.v
SnapMachine.v
SnapTraces.v
SnapHazardInv.v
SnapArcInv.v
SnapLockInv.v
SnapProtect.v
SnapSafety.v
SnapSpec.v
SnapProgress.v
SnapWait.v
SnapRetry.v
SnapWaitLive.v
SnapReclaim.v
SnapFindings.v
SnapTests.v
WeakMemory.v
WeakHandshake.v
WeakFallback.v
SyncRegistry.v
SyncProofs.v
SyncPanics.v
SyncRefine.v
SyncWf.v
SyncOnce.v
SyncFuel.v
SyncTheorems.v
SyncThreads.v
SyncThreadsExec.v
SyncThreadsInv.v
SyncThreadsSnap.v
SyncThreadsQuiet.v
SyncThreadsIds.v
SyncThreadsWait.v
SyncThreadsTheorems.v
Clients.v
FuzzChurn.v
FuzzPayload.v
TransactionHooks.v
MetricEvent.v
HotReload.v
AuditFanout.v
Examples.v
ConcurrentExample.v
RegistryConc.v
RegistryWait.v
CellCalls.v
CellRegistry.v
CellSim.v
CellSteps.v
CellAccess.v
CellCode.v
CellTheorems.v
CellProgress.v
StressTest.v
CellExamples.v
Unwind.v
FutureExt.v
AsyncRegistry.v
AsyncHistory.v
AsyncPanics.v
AsyncTerm.v
AsyncRefine.v
AsyncFuel.v
AsyncTiming.v
AsyncTheorems.v
DebugText.v
UnitTests.v
DocTests.v
