(* ===== verification/Prelude.v ===== *)
(** * Verification of registry-io

    registry-io (src/src/) is a crate of two callback registries.  [SyncRegistry]
    calls its handlers one after the other on the caller's thread; [AsyncRegistry]
    polls their futures, concurrently or in sequence.  Both keep their handlers in a
    copy-on-write list inside a [SnapCell], a read-mostly cell whose readers neither
    lock nor allocate: they announce the pointer they use in a slot of a process-wide
    hazard-pointer domain, and writers free replaced values only when no slot
    announces them.  A panic of a handler is caught, counted (synchronous side), and
    reported to an optional callback.

    ** Parts and files

    - Prelude: machine integers, counting, list lemmas, tactics, the hint database.
    - HandlerId (handler_id.rs): ids, their texts, the 64-bit wrapping generator.
    - HandlerList (the closures of [insert], [remove_id], [remove_all] in sync/mod.rs
      and async_registry/mod.rs): the list of entries, [partition_point] by binary
      search, slices.  [insert_ref] and [dispatch_order] say what it should be.
    - HandlerStore: the class [HandlerStore] of what a registry needs from its list,
      with two instances: the [Vec] of the source, and the log of live registrations.
      The class [StoreRefines] relates implementations; [vec_refines_log] discharges
      it for those two.
    - PanicInfo (panic.rs): payloads, whose destructors may panic, and [message].
    - Hazard, HazardSpec (hazard.rs): records, slots, [HEAD]; every atomic access as a
      function on the domain; the functions of the file run alone, with their specs.
    - SnapCell (pure parts of snapshot.rs): the collection loop and the backoff.
    - SnapMachine (snapshot.rs over hazard.rs): any number of threads and cells,
      interleaved at every access to shared memory.  A thread has a stack of frames;
      its top frame is the function it executes, stopped before its next access.
      [step_protect] is [protect] with [hazard::pin] and [acquire_record];
      [step_release] is [load_arc_if], [release] and [try_reclaim] up to the lock;
      [step_fallback] is [read_fallback], the lock and [drop(freed)]; [step_crit] is
      what runs under the lock ([update], [load_arc_locked], [collect_unprotected]);
      [step_wait] is [wait_for_retired_readers] with [others_protect].  [read] is
      [step_protect] followed by user code and [step_release]; [load_arc] is
      [load_arc_if] with a [keep] that is always true and [replace] is [update] with
      a constant closure.  Allocations have an address, which the allocator may
      reuse, and a number, which is never reused.
    - SnapTraces: concrete schedules.  SnapFindings: what a wait inside a fallback read
      misses, and the pointer [protect] returns.
    - SnapHazardInv, SnapArcInv, SnapLockInv, SnapProtect: the invariants, by
      induction over reachable states: who owns which slot; strong counts; who holds
      the lock; what a validated announcement protects during a scan.
    - SnapSafety, SnapSpec, SnapProgress, SnapWait, SnapRetry, SnapWaitLive, SnapReclaim: the
      theorems on the cell.
    - SnapTests: the unit tests of snapshot.rs and hazard.rs, run on the model.
      StressTest: the stress test of snapshot.rs, for every interleaving of its threads.
    - WeakMemory: executions of the C++20 memory model as graphs of events, with
      happens-before and the order of the [SeqCst] operations, and a checker for concrete
      graphs.  WeakHandshake: what readers, writers, and owners of records do (hazard.rs,
      [protect] and [update] of snapshot.rs), as events with the orderings of the source.
      WeakFallback: the same for the counter of fallback readers.
    - SyncRegistry (sync/mod.rs, sync/guard.rs): the registry on one thread.  Handlers,
      callbacks and callers are programs ([prog]) that call any method, dispatch
      again, panic, and observe the effects of user code so far.  SyncProofs,
      SyncPanics, SyncRefine, SyncWf (the invariant of the state), SyncOnce, SyncFuel:
      its lemmas; SyncTheorems: its theorems.
    - SyncThreads (sync/mod.rs): the registry used by any number of threads, whose
      programs interleave between any two accesses to its fields: an id is issued in one
      step and its entry inserted in another ([step_prog], [local_step]), a dispatch reads
      the list and calls each handler in separate steps ([step_dispatch]), a panic is
      counted, the callback read, and the payload dropped ([resume]).  SyncThreadsExec: it
      does what SyncRegistry does when one thread runs alone.  SyncThreadsInv, SyncThreadsSnap,
      SyncThreadsQuiet, SyncThreadsIds, SyncThreadsWait: its invariants (stacks, counters,
      snapshots, panics, ids, waits); SyncThreadsTheorems: its theorems.
    - Clients: a reference evaluator for programs whose handlers do not dispatch
      ([run_client]), to which [exec] is shown equal ([exec_client]), and lemmas on
      loops that register and notify.  On it: FuzzChurn and FuzzPayload (the targets of
      src/fuzz/), TransactionHooks, MetricEvent, HotReload, AuditFanout (the pattern
      examples of src/examples/) and Examples (the short ones).  ConcurrentExample:
      concurrent.rs, on SyncThreads.  State that handlers
      share (atomics, locked vectors) is a function of the effects so far.
    - RegistryConc: the list of a registry under concurrent updates and dispatches,
      proved against an interface ([AtomicCells]) that SnapSpec discharges.
      RegistryWait: what [unregister_and_wait] waits for.
    - CellRegistry (sync/mod.rs over snapshot.rs and hazard.rs): the synchronous registry
      with its list in the cell of SnapMachine.  A thread alternates between registry code
      ([registry_step], with [cstep_prog], [cstep_dispatch], [cresume], [cstep_return]) and
      the accesses of the call of the cell it is in; a dispatch walks the list through the
      pointer it borrowed ([fstep]).  CellCalls: how far a call of the cell is, and what
      each of its accesses does for the caller.  CellSim, CellSteps, CellAccess, CellCode:
      the simulation by SyncThreads; CellTheorems, CellProgress: the theorems;
      CellExamples: two threads, access by access.
    - Unwind: the monad of code that changes state, unwinds or aborts.
    - FutureExt (future_ext.rs): [start], [poll_caught], [CatchUnwind], [Slot].
    - AsyncRegistry (async_registry/mod.rs, async_registry/guard.rs): the registry, its
      dispatches as futures that are polled, user code that suspends and awaits
      dispatches, an executor; before every access to shared state other threads may have
      changed the registry ([interfere]).  AsyncHistory, AsyncPanics, AsyncTerm, AsyncRefine,
      AsyncFuel: its lemmas; AsyncTheorems: its theorems.  AsyncTiming: how many polls a
      dispatch takes, and the asynchronous examples.
    - DebugText: the [Debug] texts of all types, with UTF-8 and the escapes of [core] (the
      tables of unprintable characters outside ASCII are a parameter), and how to read one
      back.
    - UnitTests: the unit tests of the other files, run on the model.  DocTests: the examples
      in the documentation, the quick start of lib.rs among them.

    ** What the theorems show

    The cell (SnapSafety, SnapSpec, SnapProgress, SnapWait, SnapRetry): no
    interleaving accesses freed memory; strong counts are exact and nothing leaks;
    what a reader borrows does not change; every step is an event of an atomic cell
    ([spec_step]) or invisible; the lock is always released within a bounded number
    of the holder's steps; readers are never blocked, retry only when an update went
    through, and terminate when undisturbed; after a wait no other thread reads a
    value older than the call, and each round of the wait decides exactly whether that
    is so and ends the wait if it is (SnapWaitLive); an undisturbed release frees exactly
    the retired values that are no longer announced (SnapReclaim).

    The memory orderings (WeakHandshake, WeakFallback): the interleaving model has one order
    of all accesses; on executions of the C++20 model, with the orderings of the source, a
    scan after a replacement finds the announcement of every reader of the replaced value
    that is not done with it, also if its record is new or reused, and a wait that loads 0
    from the counter has waited for the fallback readers.  With [Acquire] on the load of
    [HEAD], as a comment of the source says, this fails ([acquire_head_unsafe]).

    The registries (SyncTheorems, RegistryConc, AsyncTheorems): each behaves as the log
    of its live registrations sorted by descending priority, ties in registration
    order; a dispatch calls every handler of its snapshot exactly once, in order,
    also when handlers panic; panics are counted and reported; [register_once]
    handlers run at most once; guards unregister their handler only; every program
    keeps the state well-formed, its ids unique and issued; when [unregister_and_wait] returns, no other thread
    walks a list with the removed handler (RegistryWait); a concurrent
    asynchronous dispatch starts all handlers before polling any, polls each running
    one once per round, and reports panics in order at the end; a sequential one
    finishes each handler before it starts the next; the former takes as many polls
    as its slowest handler, the latter as all together (AsyncTiming); an asynchronous
    dispatch is done after finitely many polls if the futures of its handlers are.

    The registry on several threads (SyncThreadsTheorems): each dispatch calls the handlers of
    one list that was installed, all of them once, in order, whatever the other threads do;
    a removed handler is called only by dispatches that had started before, and, once
    [unregister_and_wait] has returned to a caller outside fallback reads, by no other
    thread; the panic counter is the number of handlers that have panicked, and once-handlers
    run at most once; only waits block, and a deadlock needs a wait inside a dispatch.

    The crate as a whole (CellTheorems, CellProgress): the registry over the cell, with
    threads interleaved at every access to memory, refines SyncThreads, so that what is
    proved there of the list, the effects and the handlers that run holds of the code put
    together; when [unregister_and_wait] returns to a caller outside fallback reads, no other
    thread is inside the handler or will be; only the writer lock can block a thread, and its holder can go on.

    The clients: the fuzz targets never find anything, whatever their input; hooks run
    by priority in whatever order they were registered; subscribers of a configuration
    follow it; the metrics and the audit trail are complete; the threads of concurrent.rs
    end under every schedule and their total is exact; the stress test of the cell passes in
    every interleaving and never hangs.

    The parts (HandlerId, HandlerList, HazardSpec, SnapCell, DebugText): ids are unique, their
    texts injective; the text of a [PanicInfo] can be read back; binary-search insertion is stable insertion; pins, scans and record
    acquisition are exact; collection frees exactly what is not announced; the
    backoff follows its schedule.

    Some theorems state behaviours the documentation does not mention: a panic
    payload whose destructor panics escapes from the dispatch, which skips the handlers
    that follow ([payload_drop_escapes]); a wait inside a fallback read does not wait for
    other fallback readers ([wait_misses_fallback_reader]); the pointer [protect] returns may
    stem from an earlier allocation at the same address; a handler removed with
    [unregister_and_wait] by an earlier handler of a dispatch still runs in that dispatch
    ([waited_handler_runs_again]); threads that wait for each other's dispatches are blocked
    for ever ([waits_deadlock]); a retired value may outlive its last reader until the next
    operation on the cell.

    ** Bounds and fuel

    [binary_search_loop], [collect_loop] and [visit] get the length of their list as
    fuel, which is enough ([binary_search_loop_spec], [collect_loop_spec],
    [for_each_record_all]).  [exec] and [poll_fut] take the depth to which dispatches
    nest: a program may recurse without bound, as in the source.  A result does not
    change when more depth is allowed ([exec_mono], [poll_fut_mono]), and handlers that
    do not dispatch need depth one ([flat_depth_one], [flat_finishes]).  [hex_text] writes at
    most six digits, which every character fits ([read_unicode]).
    Ids and the panic counter wrap at 2^64; theorems that need unique ids assume that
    fewer have been issued.

    ** What is not modelled

    User code is given by finite syntax: [prog] (handlers, callbacks and callers of the
    synchronous registry) and [code] (of the asynchronous one) are inductive types, so a
    handler, a closure or a callback that runs for ever without returning is not
    represented; in the source the dispatch that calls it would not return either.
    Statements on what may happen up to some moment lose nothing by this, since up to that
    moment such code has done finitely many steps.  No theorem concludes from it that
    arbitrary handlers end: of synchronous dispatch nothing is claimed beyond each step being
    possible, and the theorem on the termination of asynchronous dispatch holds for any
    function that polls futures and states as its hypothesis that the handlers return and
    their futures end (panic callbacks return, as all code of the model does).
    A future that is never ready is the code [Never].

    In SnapMachine atomic accesses are interleaved in one total order; what the weaker
    orderings of the source allow is the subject of WeakMemory, where the code is given by
    the events of its readers, owners, writers and waits, not by a program.  Poisoning of
    the writer lock cannot occur in the model, since closures that run under it are total
    functions; destructors run by a cell do not panic; destructors of handlers and futures
    are silent.  In SyncThreads an access to the list is one step, and when a wait may return
    is given by a specification ([may_return]: no other thread dispatches over an older list),
    not by the loop of the source, which also waits for newer retired lists;
    [crate_refines] shows that the code, access by access, does nothing else.
    In SnapMachine an update's load of the current pointer and its closure are one step
    under the lock ([CLoad]), the stores of [Drop for Local] are one step ([Local_drop]), the
    part of the walk of [acquire_record] after it has claimed a record, which does nothing
    more, is left out, and [fallback_readers], [retired_len] and the strong counts are
    natural numbers: the number of calls and handles alive bounds them.  The lock of the
    panic callback and the mutex of a once-handler are held for one step.  Wakers are not modelled: an executor may poll
    at any time.  In AsyncRegistry an access to the list is one step, as in SyncThreads.
    Clocks and timers are not modelled (a timer is a number of polls), nor the decoding
    of fuzz input by the [arbitrary] crate; threads exist from the start of a run.  The
    integration tests and benches are left out. *)
From stdpp Require Export base gmap list sorting strings pretty.
From Stdlib Require Export ZArith Lia.

(** ** Machine integers *)

(** [u64::MAX + 1]; [fetch_add] on an [AtomicU64] wraps modulo this number. *)
Definition u64_modulus : Z := 2 ^ 64.

(** Reduction of an integer to the range of [u64]. *)
Definition u64 (x : Z) : Z := x `mod` u64_modulus.

(** [u32::MAX]; [saturating_add] on a [u32] stops there. *)
Definition u32_max : Z := 2 ^ 32 - 1.

(** The range of [i32], the type of handler priorities. *)
Definition is_i32 (x : Z) : Prop := (- 2 ^ 31 <= x < 2 ^ 31)%Z.

Lemma u64_small x : (0 <= x < u64_modulus)%Z -> u64 x = x.
Proof. apply Z.mod_small. Qed.

Lemma u64_range x : (0 <= u64 x < u64_modulus)%Z.
Proof. apply Z.mod_pos_bound. reflexivity. Qed.

Lemma u64_add_l x y : u64 (u64 x + y) = u64 (x + y).
Proof. apply Zplus_mod_idemp_l. Qed.

(** ** The development's tactics *)

(** Case analysis on every [match] and [decide] of the hypotheses and the goal,
    with the resulting equations simplified. *)
Ltac split_matches :=
  repeat (case_match; simplify_eq/=).

(** Looks up a map after an update by comparing the two keys. *)
Ltac map_cases k k' :=
  destruct (decide (k = k')) as [->|?];
  simplify_map_eq.

(** Resolution hints and rewrite rules shared by the components. *)
Create HintDb registry.
Create Rewrite HintDb registry.

(** ** Sums over finite maps *)

Section MapSum.
Context {K A : Type} `{Countable K}.

(** The sum of [f] over the values of a map. *)
Definition msum (f : A -> nat) (m : gmap K A) : nat :=
  map_fold (fun _ x n => f x + n) 0 m.

Lemma msum_empty (f : A -> nat) : msum f (∅ : gmap K A) = 0.
Proof. apply map_fold_empty. Qed.

Lemma msum_insert_fresh (f : A -> nat) (m : gmap K A) k x :
  m !! k = None -> msum f (<[k := x]> m) = f x + msum f m.
Proof.
  intros Hk. unfold msum. rewrite map_fold_insert_L; [done| |done].
  intros. lia.
Qed.

Lemma msum_delete (f : A -> nat) (m : gmap K A) k x :
  m !! k = Some x -> msum f m = f x + msum f (delete k m).
Proof.
  intros Hk. rewrite <- (insert_delete_id m k x) at 1 by done.
  apply msum_insert_fresh, lookup_delete_eq.
Qed.

Lemma msum_insert (f : A -> nat) (m : gmap K A) k x y :
  m !! k = Some x -> msum f (<[k := y]> m) + f x = msum f m + f y.
Proof.
  intros Hk. rewrite (msum_delete f m k x) by done.
  rewrite <- insert_delete_eq, msum_insert_fresh by apply lookup_delete_eq.
  lia.
Qed.

Lemma msum_lookup_le (f : A -> nat) (m : gmap K A) k x :
  m !! k = Some x -> f x <= msum f m.
Proof. intros Hk. rewrite (msum_delete f m k x) by done. lia. Qed.

Lemma msum_ext (f g : A -> nat) (m : gmap K A) :
  (forall k x, m !! k = Some x -> f x = g x) -> msum f m = msum g m.
Proof.
  revert f g. induction m as [|k x m Hk IH] using map_ind; intros f g Hfg.
  - by rewrite !msum_empty.
  - rewrite !msum_insert_fresh by done. f_equal.
    + apply (Hfg k). apply lookup_insert_eq.
    + apply IH. intros k' x' Hx'. apply (Hfg k').
      rewrite lookup_insert_ne; [done|]. intros <-. congruence.
Qed.

Lemma msum_zero (f : A -> nat) (m : gmap K A) :
  (forall k x, m !! k = Some x -> f x = 0) -> msum f m = 0.
Proof.
  intros Hf. rewrite (msum_ext f (fun _ => 0)) by done. clear Hf.
  induction m as [|k x m Hk IH] using map_ind; [by rewrite msum_empty|].
  by rewrite msum_insert_fresh.
Qed.

(** Two keys contribute at least their two terms. *)
Lemma msum_lookup_two_le (f : A -> nat) (m : gmap K A) k1 k2 x1 x2 :
  k1 <> k2 -> m !! k1 = Some x1 -> m !! k2 = Some x2 ->
  f x1 + f x2 <= msum f m.
Proof.
  intros Hne H1 H2. rewrite (msum_delete f m k1 x1) by done.
  assert (delete k1 m !! k2 = Some x2) as H3 by (by rewrite lookup_delete_ne).
  apply (msum_lookup_le f) in H3. lia.
Qed.
End MapSum.

(** ** Counting and list lemmas *)

Section Count.
Context {A : Type}.

(** How many elements of a list satisfy a boolean predicate. *)
Fixpoint cnt (P : A -> bool) (l : list A) : nat :=
  match l with
  | [] => 0
  | x :: l => (if P x then 1 else 0) + cnt P l
  end.

Lemma cnt_app (P : A -> bool) l1 l2 : cnt P (l1 ++ l2) = cnt P l1 + cnt P l2.
Proof. induction l1; simpl; lia. Qed.

Lemma cnt_snoc P l x : cnt P (l ++ [x]) = cnt P l + if P x then 1 else 0.
Proof. rewrite cnt_app. simpl. lia. Qed.

Lemma cnt_perm P l1 l2 : l1 ≡ₚ l2 -> cnt P l1 = cnt P l2.
Proof. induction 1; simpl; lia. Qed.

Lemma cnt_elem_of P l x : x ∈ l -> P x = true -> 0 < cnt P l.
Proof.
  induction l as [|y l IH]; intros Hx HP; simpl; [by apply elem_of_nil in Hx|].
  apply elem_of_cons in Hx as [->|Hx]; [rewrite HP; lia|].
  specialize (IH Hx HP). lia.
Qed.

Lemma cnt_zero P l : (forall x, x ∈ l -> P x = false) -> cnt P l = 0.
Proof.
  induction l as [|x l IH]; intros HP; simpl; [done|].
  rewrite (HP x) by left. apply IH. intros y Hy. apply HP. by right.
Qed.

Lemma cnt_0 P l : cnt P l = 0 -> forall x, x ∈ l -> P x = false.
Proof.
  intros H0 x Hx. destruct (P x) eqn:HP; [|done].
  pose proof (cnt_elem_of P l x Hx HP). lia.
Qed.

Lemma elem_of_take_drop_middle (l : list A) n x y :
  l !! n = Some y -> x ∈ l <-> x = y \/ x ∈ take n l ++ drop (S n) l.
Proof.
  intros Hn. rewrite <- (take_drop_middle l n y Hn) at 1.
  rewrite !elem_of_app, elem_of_cons. tauto.
Qed.
End Count.

#[export] Hint Rewrite @cnt_app : registry.

Lemma filter_all_false {A} (P : A -> Prop) `{forall x, Decision (P x)} (l : list A) :
  Forall (fun x => ~ P x) l -> filter P l = [].
Proof.
  induction 1 as [|x l Hx Hl IH]; [done|]. by rewrite filter_cons_False.
Qed.

Lemma filter_all_true {A} (P : A -> Prop) `{forall x, Decision (P x)} (l : list A) :
  Forall P l -> filter P l = l.
Proof.
  induction 1 as [|x l Hx Hl IH]; [done|]. by rewrite filter_cons_True, IH.
Qed.

(** Images of a filtered list are still distinct. *)
Lemma NoDup_fmap_filter {A B} (f : A -> B) (P : A -> Prop) `{forall x, Decision (P x)} l :
  NoDup (f <$> l) -> NoDup (f <$> filter P l).
Proof.
  induction l as [|x l IH]; [done|]. rewrite fmap_cons, NoDup_cons. intros [Hx Hnd].
  rewrite filter_cons. case_decide; [|by apply IH]. rewrite fmap_cons, NoDup_cons.
  split; [|by apply IH]. intros (y & Hy & Hin)%list_elem_of_fmap. apply Hx. rewrite Hy.
  apply list_elem_of_fmap. exists y. split; [done|]. by apply list_elem_of_filter in Hin as [_ ?].
Qed.

(** A list without the first occurrence of [x], if there is one. *)
Fixpoint remove_one {A} `{EqDecision A} (x : A) (l : list A) : option (list A) :=
  match l with
  | [] => None
  | y :: l => if decide (x = y) then Some l else cons y <$> remove_one x l
  end.

Lemma remove_one_perm {A} `{EqDecision A} (x : A) l l' :
  remove_one x l = Some l' -> l ≡ₚ x :: l'.
Proof.
  revert l'. induction l as [|y l IH]; intros l' Hr; simpl in Hr; [done|].
  case_decide; simplify_eq; [done|].
  apply fmap_Some in Hr as (l0 & Hr & ->). rewrite (IH _ Hr). constructor.
Qed.

(** ** Strings *)

Lemma string_app_length s t : String.length (s +:+ t) = String.length s + String.length t.
Proof. induction s as [|c s IH]; [done|]. simpl. by rewrite IH. Qed.

Lemma string_app_assoc s t u : (s +:+ t) +:+ u = s +:+ t +:+ u.
Proof. induction s as [|c s IH]; [done|]. apply (f_equal (String c)), IH. Qed.

Lemma string_app_inj_r s1 s2 t : s1 +:+ t = s2 +:+ t -> s1 = s2.
Proof.
  revert s2. induction s1 as [|a s1 IH]; intros [|b s2] E.
  1: done.
  1-2: apply (f_equal String.length) in E; rewrite !string_app_length in E; simpl in E; lia.
  injection E as -> E. f_equal. by apply IH.
Qed.
