(* ===== verification/HandlerId.v ===== *)
(** Handler identifiers: src/src/handler_id.rs.

    [HandlerId] is a newtype over [u64]; [HandlerIdGenerator] is an atomic
    counter whose [next] is one [fetch_add].  A concurrent use of the generator
    is a sequence of such atomic operations in some order, so the sequential
    model [issue] below covers every interleaving of callers. *)
From S2P Require Import Prelude.

(** [pub struct HandlerId(u64)] with [from_raw] and [as_u64]. *)
Record HandlerId := from_raw { as_u64 : Z }.

#[export] Instance HandlerId_eq_dec : EqDecision HandlerId.
Proof. solve_decision. Defined.

#[export] Instance HandlerId_countable : Countable HandlerId.
Proof. by refine (inj_countable' as_u64 from_raw _); intros []. Defined.

(** [impl fmt::Display for HandlerId]: the bare decimal number. *)
Definition HandlerId_display (id : HandlerId) : string :=
  pretty (Z.to_N (as_u64 id)).

(** [impl fmt::Debug for HandlerId]: [write!(f, "HandlerId({})", self.0)]. *)
Definition HandlerId_debug (id : HandlerId) : string :=
  "HandlerId(" +:+ pretty (Z.to_N (as_u64 id)) +:+ ")".

(** The value stored in a [HandlerId] is a [u64]. *)
Definition valid_id (id : HandlerId) : Prop := (0 <= as_u64 id < u64_modulus)%Z.

(** [HandlerIdGenerator { next: AtomicU64 }]. *)
Record HandlerIdGenerator := Generator { gen_next : Z }.

(** [HandlerIdGenerator::new]: the first id issued is [1]. *)
Definition HandlerIdGenerator_new : HandlerIdGenerator := Generator 1.

(** [HandlerIdGenerator::next]: [fetch_add(1)] returns the old value and stores
    the incremented one, wrapping at [2^64]. *)
Definition next_id (g : HandlerIdGenerator) : HandlerId * HandlerIdGenerator :=
  let raw := gen_next g in
  (from_raw raw, Generator (u64 (raw + 1))).

(** The ids issued by [n] successive calls of [next], and the generator left. *)
Fixpoint issue (n : nat) (g : HandlerIdGenerator) : list HandlerId * HandlerIdGenerator :=
  match n with
  | O => ([], g)
  | S n => let '(id, g1) := next_id g in
           let '(ids, g2) := issue n g1 in
           (id :: ids, g2)
  end.

(** A generator whose counter holds a [u64]. *)
Definition valid_gen (g : HandlerIdGenerator) : Prop := (0 <= gen_next g < u64_modulus)%Z.

Lemma next_id_valid g : valid_gen g -> valid_id (next_id g).1 /\ valid_gen (next_id g).2.
Proof. intros Hg. split; [done|apply u64_range]. Qed.

(** The [i]-th id issued is the start value plus [i], modulo [2^64]. *)
Lemma issue_lookup n g i :
  valid_gen g -> i < n ->
  (issue n g).1 !! i = Some (from_raw (u64 (gen_next g + Z.of_nat i))).
Proof.
  revert g i. induction n as [|n IH]; intros g i Hg Hi; [lia|].
  simpl. destruct (issue n (Generator (u64 (gen_next g + 1)))) as [ids g2] eqn:E.
  simpl. destruct i as [|i].
  - simpl. rewrite Z.add_0_r, u64_small by done. done.
  - simpl. specialize (IH (Generator (u64 (gen_next g + 1))) i).
    rewrite E in IH. simpl in IH. rewrite IH by (try apply u64_range; lia).
    rewrite u64_add_l. do 3 f_equal. lia.
Qed.

Lemma issue_length n g : length (issue n g).1 = n.
Proof.
  revert g. induction n as [|n IH]; intros g; [done|].
  simpl. specialize (IH (Generator (u64 (gen_next g + 1)))).
  destruct (issue n _) as [ids g2]. simpl in *. by rewrite IH.
Qed.

Lemma issue_NoDup n : (Z.of_nat n <= u64_modulus)%Z -> NoDup (issue n HandlerIdGenerator_new).1.
Proof.
  intros Hn. assert (Hg : valid_gen HandlerIdGenerator_new) by done.
  apply NoDup_alt. intros i j id Hi Hj.
  pose proof (lookup_lt_Some _ _ _ Hi) as Li. pose proof (lookup_lt_Some _ _ _ Hj) as Lj.
  rewrite issue_length in Li, Lj.
  rewrite issue_lookup in Hi by done. rewrite issue_lookup in Hj by done.
  assert (u64 (1 + Z.of_nat i) = u64 (1 + Z.of_nat j)) as Hm by (simpl in *; congruence).
  unfold u64, u64_modulus in *.
  rewrite (Z.mod_eq (1 + Z.of_nat i)), (Z.mod_eq (1 + Z.of_nat j)) in Hm by done. nia.
Qed.

(** (C35) ids are unique for the lifetime of a registry, as long as it issues at
    most [2^64] of them: the ids of any [n <= 2^64] successive calls of [next]
    (by any threads, in any order) are pairwise distinct, and the [i]-th is
    [1 + i] reduced to 64 bits. *)
Theorem issued_ids_unique n :
  (Z.of_nat n <= u64_modulus)%Z ->
  NoDup (issue n HandlerIdGenerator_new).1 /\
  forall i, i < n ->
    (issue n HandlerIdGenerator_new).1 !! i = Some (from_raw (u64 (1 + Z.of_nat i))).
Proof. intros Hn. split; [by apply issue_NoDup|]. intros i Hi. by apply issue_lookup. Qed.

Lemma issued_ids_unique_witness :
  (Z.of_nat 3 <= u64_modulus)%Z /\
  (issue 3 HandlerIdGenerator_new).1 = [from_raw 1; from_raw 2; from_raw 3] /\
  NoDup (issue 3 HandlerIdGenerator_new).1.
Proof.
  split; [by vm_compute|]. split; [reflexivity|].
  apply (issued_ids_unique 3). by vm_compute.
Defined.

(** the text of an id determines it: neither [Display] nor [Debug] ever
    prints two different ids alike. *)
Theorem id_text_injective id1 id2 :
  valid_id id1 -> valid_id id2 ->
  (HandlerId_display id1 = HandlerId_display id2 -> id1 = id2) /\
  (HandlerId_debug id1 = HandlerId_debug id2 -> id1 = id2).
Proof.
  destruct id1 as [x], id2 as [y]. unfold valid_id, HandlerId_display, HandlerId_debug. simpl.
  intros Hx Hy.
  assert (pretty (Z.to_N x) = pretty (Z.to_N y) -> from_raw x = from_raw y) as Hinj.
  { intros E%(inj pretty). f_equal. lia. }
  split; [done|]. intros E. apply Hinj.
  eapply string_app_inj_r. by eapply (inj (String.app "HandlerId(")).
Qed.

Lemma id_text_injective_witness :
  HandlerId_debug (from_raw 42) = "HandlerId(42)" /\ HandlerId_display (from_raw 42) = "42" /\
  (HandlerId_display (from_raw 42) = HandlerId_display (from_raw 42) ->
   from_raw 42 = from_raw 42).
Proof.
  split; [reflexivity|]. split; [reflexivity|].
  apply (id_text_injective (from_raw 42) (from_raw 42)); by vm_compute.
Defined.
