(* ===== verification/HandlerList.v ===== *)
(** The handler list and its copy-on-write updates.

    Both registries keep a [Vec] of entries (id, priority, handler) and change it
    through three closures passed to [SnapCell::update]: [insert] (sync/mod.rs
    234-243, and inlined in [register_with_priority] of async_registry/mod.rs
    216-223), [remove_id] (sync 376-386, async 310-320) and [remove_all] (sync
    390-394, async 324-328).  The closures are the same code on the two sides, so
    they are modelled once, over an arbitrary handler type [HT]. *)
From S2P Require Import Prelude HandlerId.

Section HandlerList.
Context {HT : Type}.

(** [struct HandlerEntry<E> { id, priority: i32, handler }]. *)
Record HandlerEntry := Entry {
  entry_id : HandlerId;
  priority : Z;
  handler : HT;
}.

(** ** [<\[T\]>::partition_point] of the standard library *)

(** The loop of [binary_search_by]: [base] and [size] delimit the window, each
    round halves it; [pred] plays the role of [cmp != Greater]. *)
Fixpoint binary_search_loop (fuel : nat) (pred : HandlerEntry -> bool)
    (l : list HandlerEntry) (base size : nat) : nat :=
  match fuel with
  | O => base
  | S fuel =>
      if decide (1 < size) then
        let half := size / 2 in
        let mid := base + half in
        let base' := if from_option pred false (l !! mid) then mid else base in
        binary_search_loop fuel pred l base' (size - half)
      else base
  end.

(** [partition_point]: the number of leading elements satisfying [pred], found by
    binary search.  The window shrinks at every round, so the length of the list
    is enough fuel (lemma [binary_search_loop_spec]). *)
Definition partition_point (pred : HandlerEntry -> bool) (l : list HandlerEntry) : nat :=
  match l with
  | [] => 0
  | _ => let base := binary_search_loop (length l) pred l 0 (length l) in
         if from_option pred false (l !! base) then base + 1 else base
  end.

(** ** The update closures *)

(** [insert]: the entry goes after every entry of equal or higher priority. *)
Definition insert_entry (entry : HandlerEntry) (current : list HandlerEntry)
    : list HandlerEntry :=
  let pos := partition_point (fun e => bool_decide (priority entry <= priority e)%Z) current in
  take pos current ++ [entry] ++ drop pos current.

(** [iter().position(|e| e.id == id)]. *)
Fixpoint position (id : HandlerId) (l : list HandlerEntry) : option nat :=
  match l with
  | [] => None
  | e :: l => if decide (entry_id e = id) then Some 0 else S <$> position id l
  end.

(** The closure of [remove_id]: [None] (no swap) when the id is absent, otherwise
    the two slices around its first occurrence. *)
Definition remove_id_list (id : HandlerId) (current : list HandlerEntry)
    : option (list HandlerEntry) :=
  pos ← position id current;
  Some (take pos current ++ drop (pos + 1) current).

(** The closure of [remove_all]: [None] when the list is already empty. *)
Definition remove_all_list (current : list HandlerEntry) : option (list HandlerEntry) :=
  match current with
  | [] => None
  | _ => Some []
  end.

(** ** The order the registries promise *)

(** Descending priority along the list. *)
Definition desc (e1 e2 : HandlerEntry) : Prop := (priority e2 <= priority e1)%Z.

(** [l] is what dispatch must walk when [log] is the list of live registrations
    in the order they were made: the same entries, by descending priority, and in
    registration order within each priority. *)
Definition dispatch_order (log l : list HandlerEntry) : Prop :=
  StronglySorted desc l /\
  forall p, filter (fun e => priority e = p) l = filter (fun e => priority e = p) log.

(** Reference definition of insertion: walk past every entry of equal or higher
    priority. *)
Fixpoint insert_ref (entry : HandlerEntry) (l : list HandlerEntry) : list HandlerEntry :=
  match l with
  | [] => [entry]
  | e :: l' => if decide (priority entry <= priority e)%Z
               then e :: insert_ref entry l' else entry :: l
  end.

(** ** Binary search *)

(** [k] splits [l] into the entries satisfying [pred] and the others. *)
Definition partitioned (pred : HandlerEntry -> bool) (l : list HandlerEntry) (k : nat) : Prop :=
  k <= length l /\ forall i e, l !! i = Some e -> pred e = bool_decide (i < k).

Lemma binary_search_loop_spec pred l k fuel base size :
  partitioned pred l k ->
  size <= fuel -> 1 <= size -> base + size <= length l ->
  base = 0 \/ base < k -> k <= base + size ->
  let r := binary_search_loop fuel pred l base size in
  r < length l /\ (r = 0 \/ r < k) /\ k <= r + 1.
Proof.
  intros [Hk Hpart]. revert base size.
  induction fuel as [|fuel IH]; intros base size Hf H1 Hlen Hb Hks; [lia|].
  cbn [binary_search_loop].
  destruct (decide (1 < size)) as [Hs|Hs]; [|lia].
  pose proof (Nat.div_lt size 2 ltac:(lia) ltac:(lia)) as Hhalf.
  pose proof (Nat.div_le_lower_bound size 2 1 ltac:(lia) ltac:(lia)) as Hhalf1.
  pose proof (Nat.Div0.mul_div_le size 2) as Hhalf2.
  destruct (lookup_lt_is_Some_2 l (base + size / 2)) as [e He]; [lia|].
  rewrite He. cbn [from_option]. rewrite (Hpart _ _ He).
  case_bool_decide; apply IH; lia.
Qed.

(** On a list that [pred] partitions, [partition_point] is the split point. *)
Lemma partition_point_spec pred l k :
  partitioned pred l k -> partition_point pred l = k.
Proof.
  intros Hp. pose proof Hp as [Hk Hpart]. unfold partition_point.
  destruct l as [|e0 l0] eqn:El; [simpl in Hk; lia|]. rewrite <- El in *.
  assert (1 <= length l) by (subst l; simpl; lia).
  destruct (binary_search_loop_spec pred l k (length l) 0 (length l)) as (Hr & Hr0 & Hrk);
    try done; try lia.
  set (r := binary_search_loop _ _ _ _ _) in *.
  destruct (lookup_lt_is_Some_2 l r Hr) as [e He]. rewrite He. simpl.
  rewrite (Hpart _ _ He). case_bool_decide; lia.
Qed.

Lemma sorted_partitioned p l :
  StronglySorted desc l ->
  exists k, partitioned (fun e => bool_decide (p <= priority e)%Z) l k.
Proof.
  induction 1 as [|e l Hs [k [Hk IH]] Hall].
  - exists 0. split; [done|]. intros i e He. by rewrite lookup_nil in He.
  - destruct (decide (p <= priority e)%Z) as [Hp|Hp].
    + exists (S k). split; [simpl; lia|]. intros [|i] e' He; simplify_eq/=.
      * rewrite !bool_decide_eq_true_2 by (done || lia). done.
      * rewrite (IH _ _ He). apply bool_decide_ext. lia.
    + exists 0. split; [lia|]. intros i e' He.
      rewrite !bool_decide_eq_false_2; [done|lia|].
      destruct i as [|i]; simplify_eq/=; [done|].
      assert (desc e e') as Hd by (eapply Forall_lookup_1; eauto). unfold desc in Hd. lia.
Qed.

(** The position found never lies past the end, so the slices
    [current\[..pos\]] and [current\[pos..\]] do not panic. *)
Lemma partition_point_le p l :
  StronglySorted desc l ->
  partition_point (fun e => bool_decide (p <= priority e)%Z) l <= length l.
Proof.
  intros [k Hk]%(sorted_partitioned p). rewrite (partition_point_spec _ _ k Hk). apply Hk.
Qed.

(** ** Insertion *)

Lemma insert_ref_split entry l k :
  partitioned (fun e => bool_decide (priority entry <= priority e)%Z) l k ->
  insert_ref entry l = take k l ++ [entry] ++ drop k l.
Proof.
  revert k. induction l as [|e l IH]; intros k [Hk Hp].
  - simpl in Hk. by destruct k; [|lia].
  - pose proof (Hp 0 e eq_refl) as H0. simpl.
    destruct k as [|k].
    + rewrite (bool_decide_eq_false_2 (0 < 0)) in H0 by lia. apply bool_decide_eq_false in H0.
      by rewrite decide_False by lia.
    + rewrite (bool_decide_eq_true_2 (0 < S k)) in H0 by lia. apply bool_decide_eq_true in H0.
      rewrite decide_True by done. simpl. f_equal. apply IH. split; [simpl in Hk; lia|].
      intros i e' He. specialize (Hp (S i) e' He). rewrite Hp. apply bool_decide_ext. lia.
Qed.

(** The binary-search insertion equals the reference insertion on every list in
    dispatch order. *)
Lemma insert_entry_ref entry l :
  StronglySorted desc l -> insert_entry entry l = insert_ref entry l.
Proof.
  intros Hs. destruct (sorted_partitioned (priority entry) l Hs) as [k Hk].
  unfold insert_entry. rewrite (partition_point_spec _ _ k Hk).
  symmetry. by apply insert_ref_split.
Qed.

Lemma insert_ref_perm entry l : insert_ref entry l ≡ₚ entry :: l.
Proof.
  induction l as [|e l IH]; simpl; [done|]. case_decide; [|done].
  rewrite IH. constructor.
Qed.

Lemma insert_ref_sorted entry l :
  StronglySorted desc l -> StronglySorted desc (insert_ref entry l).
Proof.
  induction 1 as [|e l Hs IH Hall]; simpl; [by repeat constructor|].
  case_decide as Hp.
  - constructor; [done|]. rewrite insert_ref_perm. by constructor.
  - constructor; [by constructor|]. constructor; [unfold desc; lia|].
    eapply Forall_impl; [exact Hall|]. unfold desc. intros; lia.
Qed.

Lemma insert_ref_filter entry l p :
  StronglySorted desc l ->
  filter (fun e => priority e = p) (insert_ref entry l) =
  filter (fun e => priority e = p) l ++ filter (fun e => priority e = p) [entry].
Proof.
  induction 1 as [|e l Hs IH Hall]; simpl; [done|].
  case_decide as Hp.
  - rewrite !filter_cons, IH. by case_decide.
  - rewrite (filter_cons _ entry (e :: l)), (filter_cons _ entry []), filter_nil.
    case_decide as He; [|by rewrite app_nil_r].
    rewrite (filter_all_false _ (e :: l)); [done|]. constructor; [lia|].
    eapply Forall_impl; [exact Hall|]. unfold desc. intros; lia.
Qed.

(** ** Dispatch order *)

Lemma dispatch_order_nil : dispatch_order [] [].
Proof. split; [constructor|done]. Qed.

Lemma dispatch_order_insert log l e :
  dispatch_order log l -> dispatch_order (log ++ [e]) (insert_entry e l).
Proof.
  intros [Hs Hf]. rewrite insert_entry_ref by done. split.
  - by apply insert_ref_sorted.
  - intros p. by rewrite insert_ref_filter, filter_app, Hf.
Qed.

Lemma StronglySorted_filter (P : HandlerEntry -> Prop) `{forall x, Decision (P x)} l :
  StronglySorted desc l -> StronglySorted desc (filter P l).
Proof.
  induction 1 as [|e l Hs IH Hall]; [constructor|]. rewrite filter_cons.
  case_decide; [|done]. constructor; [done|]. apply Forall_forall. intros x Hx.
  apply list_elem_of_filter in Hx as [_ Hx]. by eapply Forall_forall in Hall.
Qed.

Lemma dispatch_order_filter log l (P : HandlerEntry -> Prop) `{forall x, Decision (P x)} :
  dispatch_order log l -> dispatch_order (filter P log) (filter P l).
Proof.
  intros [Hs Hf]. split; [by apply StronglySorted_filter|]. intros p.
  rewrite !list_filter_filter.
  rewrite (list_filter_iff _ (fun e => P e /\ priority e = p)) by tauto.
  rewrite (list_filter_iff (fun e => priority e = p /\ P e) (fun e => P e /\ priority e = p) log)
    by tauto.
  by rewrite <- !list_filter_filter, Hf.
Qed.

(** The registration log determines the dispatch list. *)
Lemma dispatch_order_unique log l1 l2 :
  dispatch_order log l1 -> dispatch_order log l2 -> l1 = l2.
Proof.
  intros [Hs1 Hf1] [Hs2 Hf2].
  assert (forall p, filter (fun e => priority e = p) l1 = filter (fun e => priority e = p) l2)
    as Hf by (intros p; by rewrite Hf1, Hf2).
  clear Hf1 Hf2 log. revert l2 Hs2 Hf.
  induction Hs1 as [|x l1 Hs1 IH Hx]; intros l2 Hs2 Hf.
  - destruct l2 as [|y l2]; [done|]. specialize (Hf (priority y)).
    by rewrite filter_nil, filter_cons_True in Hf.
  - destruct Hs2 as [|y l2 Hs2 Hy].
    { specialize (Hf (priority x)). by rewrite filter_nil, filter_cons_True in Hf. }
    assert (priority x = priority y) as Hp.
    { assert (y ∈ x :: l1) as Hyin.
      { apply (list_elem_of_filter (fun e => priority e = priority y)).
        rewrite Hf, filter_cons_True by done. left. }
      assert (x ∈ y :: l2) as Hxin.
      { apply (list_elem_of_filter (fun e => priority e = priority x)).
        rewrite <- Hf, filter_cons_True by done. left. }
      rewrite Forall_forall in Hx, Hy. unfold desc in *.
      apply elem_of_cons in Hyin as [->|Hyin]; [done|].
      apply elem_of_cons in Hxin as [->|Hxin]; [done|].
      specialize (Hx _ Hyin). specialize (Hy _ Hxin). lia. }
    assert (x = y) as ->.
    { specialize (Hf (priority y)).
      rewrite !filter_cons_True in Hf by (done || lia). by injection Hf. }
    f_equal. apply IH; [done|]. intros p. specialize (Hf p).
    rewrite !filter_cons in Hf. case_decide; [by injection Hf|done].
Qed.

(** Every log has a dispatch list with the same entries. *)
Lemma dispatch_order_exists log :
  exists l, dispatch_order log l /\ l ≡ₚ log.
Proof.
  induction log as [|e log [l [Hd Hp]]] using rev_ind.
  - exists []. split; [apply dispatch_order_nil|done].
  - exists (insert_entry e l). split; [by apply dispatch_order_insert|].
    rewrite insert_entry_ref by apply Hd. rewrite insert_ref_perm, Hp. solve_Permutation.
Qed.

Lemma dispatch_order_perm log l : dispatch_order log l -> l ≡ₚ log.
Proof.
  intros Hd. destruct (dispatch_order_exists log) as [l' [Hd' Hp]].
  by rewrite (dispatch_order_unique _ _ _ Hd Hd').
Qed.

(** ** Removal *)

Lemma position_Some id l pos :
  position id l = Some pos ->
  exists e, l !! pos = Some e /\ entry_id e = id /\
            Forall (fun e' => entry_id e' <> id) (take pos l).
Proof.
  revert pos. induction l as [|e l IH]; intros pos Hp; simplify_eq/=. case_decide.
  - simplify_eq. exists e. by repeat split.
  - apply fmap_Some in Hp as [pos' [Hp ->]]. destruct (IH _ Hp) as (e' & He' & Hid & Hall).
    exists e'. simpl. repeat split; [done..|by constructor].
Qed.

Lemma position_None id l :
  position id l = None <-> Forall (fun e => entry_id e <> id) l.
Proof.
  induction l as [|e l IH]; simpl; [by split; [constructor|]|].
  rewrite Forall_cons, <- IH. case_decide; [by split; [|intros []]|].
  rewrite fmap_None. tauto.
Qed.

(** With unique ids, removing the first occurrence is filtering the id out. *)
Lemma remove_id_list_filter id l l' :
  NoDup (entry_id <$> l) ->
  remove_id_list id l = Some l' -> l' = filter (fun e => entry_id e <> id) l.
Proof.
  intros Hnd. unfold remove_id_list. intros (pos & Hp & [= <-])%bind_Some.
  destruct (position_Some _ _ _ Hp) as (e & He & Hid & Hall).
  assert (Forall (fun e' => entry_id e' <> id) (drop (S pos) l)) as Hdrop.
  { rewrite <- (take_drop_middle l pos e He) in Hnd.
    rewrite fmap_app, fmap_cons in Hnd. apply NoDup_app in Hnd as (_ & _ & Hnd).
    apply NoDup_cons in Hnd as [Hnin _]. apply Forall_forall. intros e' He' Heq.
    apply Hnin. rewrite Hid, <- Heq. apply list_elem_of_fmap. by exists e'. }
  rewrite Nat.add_1_r. rewrite <- (take_drop_middle l pos e He) at 3.
  rewrite filter_app, filter_cons_False by (intros Hn; by apply Hn).
  by rewrite !filter_all_true.
Qed.

Lemma remove_id_list_None id l :
  remove_id_list id l = None <-> id ∉ entry_id <$> l.
Proof.
  unfold remove_id_list. rewrite bind_None, list_elem_of_fmap. split.
  - intros [Hp|(pos & _ & ?)]; [|done]. apply position_None in Hp.
    intros (e & -> & He). rewrite Forall_forall in Hp. by apply (Hp _ He).
  - intros Hn. left. apply position_None, Forall_forall. intros e He Heq.
    apply Hn. by exists e.
Qed.

(** An entry of the lowest priority so far goes to the end. *)
Lemma insert_entry_last e l :
  Forall (fun x => (priority e <= priority x)%Z) l -> insert_entry e l = l ++ [e].
Proof.
  intros Hl. unfold insert_entry. rewrite (partition_point_spec _ _ (length l)).
  - by rewrite take_ge, drop_ge.
  - split; [done|]. intros i x Hx. pose proof (lookup_lt_Some _ _ _ Hx).
    rewrite !bool_decide_eq_true_2; [done|lia|by eapply Forall_lookup_1 in Hl].
Qed.

Lemma insert_entry_perm e l :
  StronglySorted desc l -> insert_entry e l ≡ₚ e :: l.
Proof. intros Hs. rewrite insert_entry_ref by done. apply insert_ref_perm. Qed.

(** (C34) Insertion by binary search is the stable insertion by priority.  On a list in
    dispatch order, the copy built from the two slices around [partition_point] is
    what a linear walk past every entry of equal or higher priority gives; the
    position lies within the list, so that slicing never panics; and the result is
    the one and only dispatch order of the log extended by the new entry. *)
Theorem insert_entry_correct log l e :
  dispatch_order log l ->
  partition_point (fun x => bool_decide (priority e <= priority x)%Z) l <= length l /\
  insert_entry e l = insert_ref e l /\
  forall l', dispatch_order (log ++ [e]) l' <-> l' = insert_entry e l.
Proof.
  intros Hd. pose proof Hd as [Hs _].
  split; [by apply partition_point_le|]. split; [by apply insert_entry_ref|].
  intros l'. split; [|intros ->; by apply dispatch_order_insert].
  intros Hd'. by eapply dispatch_order_unique; [|apply dispatch_order_insert].
Qed.

(** Removal by id: when ids are unique, the two slices around the position found
    are the list without that id, in the same order, and still the dispatch order of
    the log without it; an unknown id leaves no new list to publish. *)
Theorem remove_id_correct log l id :
  dispatch_order log l -> NoDup (entry_id <$> l) ->
  (remove_id_list id l = None <-> id ∉ entry_id <$> log) /\
  forall l', remove_id_list id l = Some l' ->
    l' = filter (fun e => entry_id e <> id) l /\
    length l = S (length l') /\
    dispatch_order (filter (fun e => entry_id e <> id) log) l'.
Proof.
  intros Hd Hnd. rewrite remove_id_list_None, (dispatch_order_perm _ _ Hd). split; [done|].
  intros l' Hr. pose proof (remove_id_list_filter _ _ _ Hnd Hr) as Hl'.
  split; [done|]. split; [|rewrite Hl'; by apply dispatch_order_filter].
  unfold remove_id_list in Hr. apply bind_Some in Hr as (pos & Hp & Hr).
  apply position_Some in Hp as (e & He%lookup_lt_Some & _). injection Hr as Hr.
  rewrite <- Hr. rewrite length_app, length_take, length_drop. lia.
Qed.
End HandlerList.
Arguments HandlerEntry : clear implicits.

(** ** Examples *)

(** Priorities 5, 5, 0 registered in the order of their ids 2, 3, 1. *)
Definition three : list (HandlerEntry unit) :=
  [Entry (from_raw 2) 5 tt; Entry (from_raw 3) 5 tt; Entry (from_raw 1) 0 tt].

Lemma three_order :
  dispatch_order [Entry (from_raw 1) 0 tt; Entry (from_raw 2) 5 tt; Entry (from_raw 3) 5 tt] three.
Proof.
  apply (dispatch_order_insert [Entry (from_raw 1) 0 tt; Entry (from_raw 2) 5 tt]
           [Entry (from_raw 2) 5 tt; Entry (from_raw 1) 0 tt]).
  apply (dispatch_order_insert [Entry (from_raw 1) 0 tt] [Entry (from_raw 1) 0 tt]).
  apply (dispatch_order_insert [] []). apply dispatch_order_nil.
Qed.

Lemma insert_entry_correct_witness :
  insert_entry (Entry (from_raw 4) 5 tt) three =
    [Entry (from_raw 2) 5 tt; Entry (from_raw 3) 5 tt; Entry (from_raw 4) 5 tt;
     Entry (from_raw 1) 0 tt] /\
  insert_entry (Entry (from_raw 4) 5 tt) three = insert_ref (Entry (from_raw 4) 5 tt) three.
Proof.
  split; [reflexivity|].
  destruct (insert_entry_correct _ _ (Entry (from_raw 4) 5 tt) three_order) as (_ & He & _).
  exact He.
Defined.

Lemma remove_id_correct_witness :
  remove_id_list (from_raw 3) three =
    Some [Entry (from_raw 2) 5 tt; Entry (from_raw 1) 0 tt] /\
  (remove_id_list (from_raw 9) three = None <->
   from_raw 9 ∉ entry_id <$> [Entry (from_raw 1) 0 tt; Entry (from_raw 2) 5 tt; Entry (from_raw 3) 5 tt]).
Proof.
  split; [reflexivity|].
  assert (NoDup (entry_id <$> three)) as Hnd by (apply (bool_decide_unpack _); by vm_compute).
  destruct (remove_id_correct _ _ (from_raw 9) three_order Hnd) as [Hn _]. exact Hn.
Defined.
