(* ===== verification/HandlerStore.v ===== *)
(** What a registry needs from its handler list, and two implementations of it.

    [Vec]s updated by the closures of src/src/sync/mod.rs and
    src/src/async_registry/mod.rs are the implementation; the log of the live
    registrations in the order they were made is the specification. *)
From S2P Require Import Prelude HandlerId HandlerList.

(** The operations of the list behind [SnapCell]: what a dispatch walks, [insert],
    [remove_id] and [remove_all] (with [None] when there is nothing to remove). *)
Class HandlerStore (HT St : Type) := {
  store_new : St;
  store_list : St -> list (HandlerEntry HT);
  store_insert : HandlerEntry HT -> St -> St;
  store_remove : HandlerId -> St -> option St;
  store_clear : St -> option St;
}.

(** [SnapCell<Vec<HandlerEntry>>], at one thread. *)
#[export] Instance vec_store (HT : Type) : HandlerStore HT (list (HandlerEntry HT)) := {
  store_new := [];
  store_list l := l;
  store_insert := insert_entry;
  store_remove := remove_id_list;
  store_clear := remove_all_list;
}.

(** The live registrations, oldest first. *)
Record log (HT : Type) := Log { registrations : list (HandlerEntry HT) }.
Arguments Log {HT}.
Arguments registrations {HT}.

(** The order dispatch promises, computed: stable insertion by priority. *)
Definition in_order {HT} (l : list (HandlerEntry HT)) : list (HandlerEntry HT) :=
  foldl (fun acc e => insert_ref e acc) [] l.

#[export] Instance log_store (HT : Type) : HandlerStore HT (log HT) := {
  store_new := Log [];
  store_list lg := in_order (registrations lg);
  store_insert e lg := Log (registrations lg ++ [e]);
  store_remove id lg :=
    if decide (id ∈ entry_id <$> registrations lg)
    then Some (Log (filter (fun e => entry_id e <> id) (registrations lg))) else None;
  store_clear lg := match registrations lg with [] => None | _ => Some (Log []) end;
}.

(** The ids in a store. *)
Definition store_ids {HT St} `{HandlerStore HT St} (s : St) : list HandlerId :=
  entry_id <$> store_list s.

(** One store implements another; ids come only from insertions. *)
Class StoreRefines (HT S1 S2 : Type) `{HandlerStore HT S1, HandlerStore HT S2}
    (R : S1 -> S2 -> Prop) := {
  sr_new : R store_new store_new;
  sr_list s1 s2 : R s1 s2 -> store_list s1 = store_list s2;
  sr_insert s1 s2 e : R s1 s2 -> entry_id e ∉ store_ids s1 ->
    R (store_insert e s1) (store_insert e s2);
  sr_remove s1 s2 id : R s1 s2 -> option_Forall2 R (store_remove id s1) (store_remove id s2);
  sr_clear s1 s2 : R s1 s2 -> option_Forall2 R (store_clear s1) (store_clear s2);
  sr_new_ids : store_ids (store_new : S1) = [];
  sr_insert_ids e (s1 : S1) id : id ∈ store_ids (store_insert e s1) ->
    id = entry_id e \/ id ∈ store_ids s1;
  sr_remove_ids (s1 s1' : S1) id x : store_remove id s1 = Some s1' ->
    x ∈ store_ids s1' -> x ∈ store_ids s1;
  sr_clear_ids (s1 s1' : S1) : store_clear s1 = Some s1' -> store_ids s1' = [];
}.

Section VecLog.
Context {HT : Type}.
Implicit Types (l : list (HandlerEntry HT)) (e : HandlerEntry HT).

Lemma in_order_dispatch l : dispatch_order l (in_order l).
Proof.
  induction l as [|e l IH] using rev_ind; [apply dispatch_order_nil|].
  unfold in_order in *. rewrite foldl_app. simpl.
  rewrite <- insert_entry_ref by apply IH. by apply dispatch_order_insert.
Qed.

Lemma in_order_unique lg l : dispatch_order lg l -> l = in_order lg.
Proof. intros Hd. eapply dispatch_order_unique; [done|]. apply in_order_dispatch. Qed.

Lemma insert_entry_elem x e l : x ∈ insert_entry e l -> x = e \/ x ∈ l.
Proof.
  unfold insert_entry. set (pos := partition_point _ _). intros Hx.
  rewrite <- (take_drop pos l). set_solver.
Qed.

Lemma remove_id_list_elem x id l l' : remove_id_list id l = Some l' -> x ∈ l' -> x ∈ l.
Proof.
  unfold remove_id_list. intros (pos & _ & [= <-])%bind_Some [Hx|Hx]%elem_of_app.
  - by eapply (sublist_subseteq _ _ (sublist_take l pos)).
  - by eapply (sublist_subseteq _ _ (sublist_drop l (pos + 1))).
Qed.

(** The list is the log in dispatch order, and ids are unique. *)
Definition vec_is_log l (lg : log HT) : Prop :=
  dispatch_order (registrations lg) l /\ NoDup (entry_id <$> l).

#[export] Instance vec_refines_log : StoreRefines HT (list (HandlerEntry HT)) (log HT) vec_is_log.
Proof.
  split; simpl.
  - split; [apply dispatch_order_nil|constructor].
  - intros l lg [Hd _]. by apply in_order_unique.
  - intros l lg e [Hd Hnd] Hfresh. split; [by apply dispatch_order_insert|].
    rewrite insert_entry_perm by apply Hd. simpl. by constructor.
  - intros l lg id [Hd Hnd]. pose proof (dispatch_order_perm _ _ Hd) as Hp.
    destruct (remove_id_list id l) as [l'|] eqn:Hr.
    + rewrite decide_True.
      * constructor. rewrite (remove_id_list_filter _ _ _ Hnd Hr). split.
        -- simpl. by apply dispatch_order_filter.
        -- by apply NoDup_fmap_filter.
      * rewrite <- Hp. destruct (decide (id ∈ entry_id <$> l)) as [|Hn]; [done|].
        apply remove_id_list_None in Hn. congruence.
    + apply remove_id_list_None in Hr. rewrite Hp in Hr. rewrite decide_False by done. constructor.
  - intros l lg [Hd Hnd]. pose proof (dispatch_order_perm _ _ Hd) as Hp.
    destruct l as [|e l], (registrations lg) as [|e' lg'] eqn:El; simpl.
    + constructor.
    + by apply Permutation_nil_cons in Hp.
    + symmetry in Hp. by apply Permutation_nil_cons in Hp.
    + constructor. split; [apply dispatch_order_nil|constructor].
  - done.
  - unfold store_ids. simpl. intros e l id. rewrite !list_elem_of_fmap.
    intros (x & -> & [->|Hx]%insert_entry_elem); [by left|right; by exists x].
  - unfold store_ids. simpl. intros l l' id x Hr. rewrite !list_elem_of_fmap.
    intros (y & -> & Hy). exists y. split; [done|]. by eapply remove_id_list_elem.
  - unfold store_ids. simpl. intros [|e l] l' [= <-]. done.
Qed.
End VecLog.
