(* ===== verification/PanicInfo.v ===== *)
(** Panic payloads and [PanicInfo]: src/src/panic.rs. *)
From S2P Require Import Prelude HandlerId.

(** [Box<dyn Any + Send>] as [catch_unwind] returns it: a [&'static str], a
    [String], or a value of some other type.  Dropping the box runs the value's
    destructor, which may itself panic, with a payload of its own. *)
Inductive payload :=
  | PStr (s : string)
  | PString (s : string)
  | POther (type_id : nat) (drop_panics : option payload).

(** [payload.downcast_ref::<&'static str>()]. *)
Definition downcast_str (p : payload) : option string :=
  match p with PStr s => Some s | _ => None end.

(** [payload.downcast_ref::<String>()]. *)
Definition downcast_string (p : payload) : option string :=
  match p with PString s => Some s | _ => None end.

(** [drop(payload)]: the panic of the destructor, if it panics. *)
Definition drop_payload (p : payload) : option payload :=
  match p with POther _ d => d | _ => None end.

(** Dropping the payload does not panic. *)
Definition quiet (p : payload) : Prop := drop_payload p = None.

(** [struct PanicInfo<'a> { handler_id, payload }] with [new] and its accessors. *)
Record PanicInfo := PanicInfo_new { handler_id : HandlerId; info_payload : payload }.

(** [PanicInfo::message]. *)
Definition message (i : PanicInfo) : option string :=
  match downcast_str (info_payload i) with
  | Some s => Some s
  | None => match downcast_string (info_payload i) with
            | Some s => Some s
            | None => None
            end
  end.

(** [type PanicCallback = dyn Fn(&PanicInfo)]; [A] is what the callback does. *)
Abbreviation PanicCallback A := (PanicInfo -> A).
(** [struct PanicCallbackHolder { inner: Arc<PanicCallback> }] with [new] and [invoke]. *)
Abbreviation PanicCallbackHolder A := (PanicCallback A).
Definition PanicCallbackHolder_new {A} (callback : PanicCallback A) : PanicCallbackHolder A := callback.
Definition invoke {A} (holder : PanicCallbackHolder A) (info : PanicInfo) : A := holder info.
Arguments PanicCallbackHolder_new {A} callback /.
Arguments invoke {A} holder info /.

(** A textual payload is recovered verbatim; no other payload has a message. *)
Lemma message_text i s :
  message i = Some s <-> info_payload i = PStr s \/ info_payload i = PString s.
Proof.
  destruct i as [id p]. unfold message. simpl. destruct p; simpl; intuition congruence.
Qed.
