(* ===== verification/Hazard.v ===== *)
(** The hazard-pointer domain: src/src/hazard.rs.

    One process-wide list of records, each holding [SLOTS] announcement slots.
    The data and every atomic access to it are defined here; the functions of
    hazard.rs are given as the composition of those accesses by one thread that
    is not interrupted.  [SnapMachine] runs the same accesses one at a time, for
    any number of threads in any order.

    Records are leaked and never freed, so a record pointer is modelled as the
    record's position in the order of publication; null is [None].  The list is
    kept as the code keeps it, with a [HEAD] pointer and a [next] field. *)
From S2P Require Import Prelude.

(** [pub(crate) const SLOTS: usize = 8]. *)
Definition SLOTS : nat := 8.

(** The address part of a [*const ()]; the null pointer is [None]. *)
Abbreviation addr := nat.

(** [struct Record { slots, in_use, next }]. *)
Record HRecord := mkHRecord {
  slots : list (option addr);
  in_use : bool;
  next : option nat;
}.

(** The global state: [static HEAD] and the records reachable from it. *)
Record hazard := mkHazard {
  HEAD : option nat;
  records : list HRecord;
}.

(** The state of the process before any thread dispatched. *)
Definition hazard_init : hazard := mkHazard None [].

(** ** Atomic accesses *)

(** [slot.load(..)] on slot [i] of record [r]. *)
Definition slot_load (hz : hazard) (r i : nat) : option addr :=
  rec ← records hz !! r; x ← slots rec !! i; x.

Definition set_slots (rec : HRecord) (s : list (option addr)) : HRecord :=
  mkHRecord s (in_use rec) (next rec).

Definition set_in_use (rec : HRecord) (b : bool) : HRecord :=
  mkHRecord (slots rec) b (next rec).

(** [slot.store(x, ..)] on slot [i] of record [r]: [Pin::protect] stores an
    address, [Pin]'s [Drop] stores null. *)
Definition slot_store (hz : hazard) (r i : nat) (x : option addr) : hazard :=
  mkHazard (HEAD hz)
    (alter (fun rec => set_slots rec (<[i := x]> (slots rec))) r (records hz)).

(** [Pin::protect]. *)
Definition Pin_protect (hz : hazard) (r i : nat) (p : addr) : hazard :=
  slot_store hz r i (Some p).

(** [impl Drop for Pin]. *)
Definition Pin_drop (hz : hazard) (r i : nat) : hazard := slot_store hz r i None.

(** [.iter().find(|slot| slot.load(Relaxed).is_null())]: the first free slot. *)
Fixpoint find_free (s : list (option addr)) : option nat :=
  match s with
  | [] => None
  | None :: _ => Some 0
  | Some _ :: s => S <$> find_free s
  end.

(** [record.in_use.compare_exchange(false, true, ..)]: [None] when it fails. *)
Definition try_claim (hz : hazard) (r : nat) : option hazard :=
  rec ← records hz !! r;
  if in_use rec then None
  else Some (mkHazard (HEAD hz) (<[r := set_in_use rec true]> (records hz))).

(** The record [acquire_record] allocates: empty slots, in use. *)
Definition fresh_record (head : option nat) : HRecord :=
  mkHRecord (replicate SLOTS None) true head.

(** [HEAD.compare_exchange_weak(head, raw, ..)] of the freshly leaked record,
    after [record.next.store(head)]: [None] when [HEAD] is no longer [head]. *)
Definition try_publish (hz : hazard) (head : option nat) : option (nat * hazard) :=
  if decide (HEAD hz = head) then
    let raw := length (records hz) in
    Some (raw, mkHazard (Some raw) (records hz ++ [fresh_record head]))
  else None.

(** ** The functions of hazard.rs, run without interruption *)

(** [for_each_record]: the records in the order the loop visits them, following
    [next] from [cursor].  The number of records is enough fuel
    ([for_each_record_all]). *)
Fixpoint visit (fuel : nat) (hz : hazard) (cursor : option nat) : list nat :=
  match fuel, cursor with
  | S fuel, Some r =>
      match records hz !! r with
      | Some rec => r :: visit fuel hz (next rec)
      | None => []
      end
  | _, _ => []
  end.

Definition for_each_record (hz : hazard) : list nat :=
  visit (length (records hz)) hz (HEAD hz).

(** The non-null announcements of one record. *)
Definition record_announcements (hz : hazard) (r : nat) : list addr :=
  match records hz !! r with
  | Some rec => omap id (slots rec)
  | None => []
  end.

(** [announced]: every non-null announcement, in the order of the scan. *)
Definition announced (hz : hazard) : list addr :=
  for_each_record hz ≫= record_announcements hz.

(** [others_protect]: does a record other than the caller's announce [p]? *)
Definition others_protect (hz : hazard) (own : option nat) (p : addr) : bool :=
  existsb (fun r => if decide (Some r = own) then false
                    else bool_decide (p ∈ record_announcements hz r))
          (for_each_record hz).

(** [this_thread_protects] (built for the tests only). *)
Definition this_thread_protects (hz : hazard) (own : option nat) (p : addr) : bool :=
  match own with
  | None => false
  | Some r => bool_decide (p ∈ record_announcements hz r)
  end.

(** [acquire_record]: reuse the first released record the scan meets, otherwise
    publish a new one. *)
Definition acquire_record (hz : hazard) : nat * hazard :=
  match List.find (fun r => bool_decide (is_Some (try_claim hz r))) (for_each_record hz) with
  | Some r => (r, default hz (try_claim hz r))
  | None => default (0, hz) (try_publish hz (HEAD hz))
  end.

(** [pin]: [tls] tells whether the thread-local storage is still alive, [local]
    is the thread's record pointer.  On success the result is the claimed slot. *)
Definition pin (hz : hazard) (tls : bool) (local : option nat) (p : addr)
    : option nat * (option nat * hazard) :=
  if tls then
    let '(r, hz) := match local with Some r => (r, hz) | None => acquire_record hz end in
    match records hz !! r with
    | Some rec =>
        match find_free (slots rec) with
        | Some i => (Some i, (Some r, Pin_protect hz r i p))
        | None => (None, (Some r, hz))
        end
    | None => (None, (Some r, hz))
    end
  else (None, (local, hz)).

(** [impl Drop for Local]: clear every slot, then mark the record free. *)
Definition Local_drop (hz : hazard) (local : option nat) : hazard :=
  match local with
  | None => hz
  | Some r =>
      mkHazard (HEAD hz)
        (alter (fun rec => mkHRecord (replicate (length (slots rec)) None) false (next rec)) r
           (records hz))
  end.

(** ** Well-formedness *)

(** The pointer to the record published just before the [n]-th. *)
Definition pred_opt (n : nat) : option nat :=
  match n with O => None | S k => Some k end.

Lemma pred_opt_Some k n : pred_opt k = Some n -> k = S n.
Proof. destruct k; simpl; congruence. Qed.

(** The shape of the domain: [HEAD] points to the newest record and [next] to the
    one published before; every record has [SLOTS] slots; a record that is not in
    use announces nothing. *)
Record hz_wf (hz : hazard) : Prop := {
  hz_head : HEAD hz = pred_opt (length (records hz));
  hz_next k rec : records hz !! k = Some rec -> next rec = pred_opt k;
  hz_len k rec : records hz !! k = Some rec -> length (slots rec) = SLOTS;
  hz_free k rec : records hz !! k = Some rec -> in_use rec = false ->
                  slots rec = replicate SLOTS None;
}.

Definition record_in_use (hz : hazard) (r : nat) : Prop :=
  exists rec, records hz !! r = Some rec /\ in_use rec = true.

Lemma find_free_Some s i : find_free s = Some i -> s !! i = Some None.
Proof.
  revert i. induction s as [|[x|] s IH]; intros i Hf; simplify_eq/=; [|done].
  apply fmap_Some in Hf as (j & Hj & ->). by apply IH.
Qed.

Lemma hazard_init_wf : hz_wf hazard_init.
Proof. split; intros; simplify_eq/=; done. Qed.

Lemma records_slot_store hz r i x k :
  records (slot_store hz r i x) !! k =
  if decide (r = k) then (fun rec => set_slots rec (<[i := x]> (slots rec))) <$> records hz !! k
  else records hz !! k.
Proof.
  unfold slot_store; simpl. case_decide; subst.
  - by rewrite list_lookup_alter_eq.
  - by rewrite list_lookup_alter_ne.
Qed.

Lemma length_slot_store hz r i x : length (records (slot_store hz r i x)) = length (records hz).
Proof. apply length_alter. Qed.

Lemma slot_load_store hz r i x r' i' :
  hz_wf hz -> record_in_use hz r -> i < SLOTS ->
  slot_load (slot_store hz r i x) r' i' =
  if decide (r = r' /\ i = i') then x else slot_load hz r' i'.
Proof.
  intros Hwf (rec & Hr & _) Hi. unfold slot_load. rewrite records_slot_store.
  destruct (decide (r = r')) as [<-|Hne].
  - rewrite Hr. simpl. destruct (decide (i = i')) as [<-|Hne].
    + rewrite decide_True, list_lookup_insert_eq; [done| |done].
      by rewrite (hz_len _ Hwf _ _ Hr).
    + by rewrite decide_False, list_lookup_insert_ne by tauto.
  - by rewrite decide_False by tauto.
Qed.

Lemma record_in_use_slot_store hz r i x k :
  record_in_use (slot_store hz r i x) k <-> record_in_use hz k.
Proof.
  unfold record_in_use. rewrite records_slot_store. case_decide; [|done].
  split; [intros (rec & Hr & Hu)|intros (rec & Hr & Hu)].
  - apply fmap_Some in Hr as (rec' & Hr & ->). by exists rec'.
  - rewrite Hr. eexists. by split.
Qed.

Lemma slot_store_wf hz r i x :
  hz_wf hz -> record_in_use hz r -> hz_wf (slot_store hz r i x).
Proof.
  intros Hwf (rec0 & Hr0 & Hu0). split.
  - rewrite length_slot_store. apply Hwf.
  - intros k rec. rewrite records_slot_store. case_decide; [|apply Hwf].
    intros (rec' & Hr & ->)%fmap_Some. simpl. by eapply (hz_next _ Hwf).
  - intros k rec. rewrite records_slot_store. case_decide; [|apply Hwf].
    intros (rec' & Hr & ->)%fmap_Some. simpl. rewrite length_insert. by eapply (hz_len _ Hwf).
  - intros k rec. rewrite records_slot_store. case_decide; [|apply Hwf].
    intros (rec' & Hr & ->)%fmap_Some Hu. simplify_eq/=. congruence.
Qed.

Lemma try_claim_Some hz r hz' :
  try_claim hz r = Some hz' ->
  exists rec, records hz !! r = Some rec /\ in_use rec = false /\
    hz' = mkHazard (HEAD hz) (<[r := set_in_use rec true]> (records hz)).
Proof.
  unfold try_claim. intros (rec & Hr & Hc)%bind_Some. exists rec.
  destruct (in_use rec); simplify_eq. done.
Qed.

Lemma records_claim hz r hz' k :
  try_claim hz r = Some hz' ->
  records hz' !! k = if decide (r = k) then (fun rec => set_in_use rec true) <$> records hz !! k
                     else records hz !! k.
Proof.
  intros (rec & Hr & _ & ->)%try_claim_Some. simpl. case_decide; subst.
  - rewrite Hr. rewrite list_lookup_insert_eq; [done|]. by eapply lookup_lt_Some.
  - by rewrite list_lookup_insert_ne.
Qed.

Lemma slot_load_claim hz r hz' k i :
  try_claim hz r = Some hz' -> slot_load hz' k i = slot_load hz k i.
Proof.
  intros Hc. unfold slot_load. rewrite (records_claim _ _ _ _ Hc). case_decide; [|done].
  by destruct (records hz !! k).
Qed.

Lemma try_claim_wf hz r hz' : hz_wf hz -> try_claim hz r = Some hz' -> hz_wf hz'.
Proof.
  intros Hwf Hc. pose proof (try_claim_Some _ _ _ Hc) as (rec0 & Hr0 & Hu0 & ->).
  assert (forall k rec, <[r := set_in_use rec0 true]> (records hz) !! k = Some rec ->
    (k = r /\ rec = set_in_use rec0 true) \/ records hz !! k = Some rec) as Hcases.
  { intros k rec. rewrite list_lookup_insert_Some.
    intros [(-> & -> & _)|[_ ?]]; [by left|by right]. }
  split; simpl.
  - rewrite length_insert. apply Hwf.
  - intros k rec [[-> ->]|Hr]%Hcases; simpl; by eapply (hz_next _ Hwf).
  - intros k rec [[-> ->]|Hr]%Hcases; simpl; by eapply (hz_len _ Hwf).
  - intros k rec [[-> ->]|Hr]%Hcases; [done|]. by eapply (hz_free _ Hwf).
Qed.

Lemma try_publish_Some hz head raw hz' :
  try_publish hz head = Some (raw, hz') ->
  HEAD hz = head /\ raw = length (records hz) /\
  hz' = mkHazard (Some raw) (records hz ++ [fresh_record head]).
Proof. unfold try_publish. intros. case_decide; by simplify_eq. Qed.

Lemma try_publish_wf hz head raw hz' :
  hz_wf hz -> try_publish hz head = Some (raw, hz') -> hz_wf hz'.
Proof.
  intros Hwf (Hh & -> & ->)%try_publish_Some.
  assert (forall k rec, (records hz ++ [fresh_record head]) !! k = Some rec ->
    (k = length (records hz) /\ rec = fresh_record head) \/ records hz !! k = Some rec) as Hc.
  { intros k rec. rewrite lookup_app_Some, list_lookup_singleton_Some.
    intros [?|(? & ? & <-)]; [by right|left; split; [lia|done]]. }
  split; simpl.
  - rewrite length_app. simpl. by rewrite Nat.add_1_r.
  - intros k rec [[-> ->]|Hr]%Hc; [by rewrite <- (hz_head _ Hwf)|by eapply (hz_next _ Hwf)].
  - intros k rec [[-> ->]|Hr]%Hc; [done|by eapply (hz_len _ Hwf)].
  - intros k rec [[-> ->]|Hr]%Hc; [done|by eapply (hz_free _ Hwf)].
Qed.

Lemma slot_load_publish hz head raw hz' r i :
  try_publish hz head = Some (raw, hz') -> slot_load hz' r i = slot_load hz r i.
Proof.
  intros (_ & -> & ->)%try_publish_Some. unfold slot_load. simpl.
  destruct (decide (r < length (records hz))).
  - by rewrite lookup_app_l.
  - rewrite (lookup_ge_None_2 (records hz) r) by lia. rewrite lookup_app_r by lia.
    destruct (r - length (records hz)) as [|k]; [|done]. simpl.
    do 9 (destruct i as [|i]; [done|]). done.
Qed.

Lemma records_local_drop hz r k :
  records (Local_drop hz (Some r)) !! k =
  if decide (r = k) then
    (fun rec => mkHRecord (replicate (length (slots rec)) None) false (next rec)) <$> records hz !! k
  else records hz !! k.
Proof.
  simpl. case_decide; subst.
  - by rewrite list_lookup_alter_eq.
  - by rewrite list_lookup_alter_ne.
Qed.

Lemma Local_drop_wf hz local : hz_wf hz -> hz_wf (Local_drop hz local).
Proof.
  intros Hwf. destruct local as [r|]; [|done]. split.
  - simpl. rewrite length_alter. apply Hwf.
  - intros k rec. rewrite records_local_drop. case_decide; [|apply Hwf].
    intros (rec' & Hr & ->)%fmap_Some. simpl. by eapply (hz_next _ Hwf).
  - intros k rec. rewrite records_local_drop. case_decide; [|apply Hwf].
    intros (rec' & Hr & ->)%fmap_Some. simpl. rewrite length_replicate. by eapply (hz_len _ Hwf).
  - intros k rec. rewrite records_local_drop. case_decide; [|apply Hwf].
    intros (rec' & Hr & ->)%fmap_Some _. simpl. by rewrite (hz_len _ Hwf _ _ Hr).
Qed.

#[export] Hint Resolve hazard_init_wf slot_store_wf try_claim_wf try_publish_wf Local_drop_wf
  : registry.

(** ** The scan *)

Lemma visit_down hz k fuel :
  hz_wf hz -> k <= length (records hz) -> k <= fuel ->
  visit fuel hz (pred_opt k) = reverse (seq 0 k).
Proof.
  intros Hwf. revert k. induction fuel as [|fuel IH]; intros k Hk Hf.
  - by destruct k; [|lia].
  - destruct k as [|k]; [done|]. simpl.
    destruct (lookup_lt_is_Some_2 (records hz) k) as [rec Hr]; [lia|]. rewrite Hr.
    rewrite (hz_next _ Hwf _ _ Hr), IH by lia.
    change (0 :: seq 1 k) with (seq 0 (S k)). by rewrite seq_S, reverse_snoc.
Qed.

(** The scan visits every published record exactly once, newest first. *)
Lemma for_each_record_all hz :
  hz_wf hz -> for_each_record hz = reverse (seq 0 (length (records hz))).
Proof. intros Hwf. unfold for_each_record. rewrite (hz_head _ Hwf). by apply visit_down. Qed.

Lemma elem_of_record_announcements hz r p :
  p ∈ record_announcements hz r <-> exists i, slot_load hz r i = Some p.
Proof.
  unfold record_announcements, slot_load. destruct (records hz !! r) as [rec|]; simpl.
  - rewrite list_elem_of_omap. split.
    + intros (x & [i Hi]%list_elem_of_lookup & Hx). exists i. by rewrite Hi.
    + intros (i & Hi). destruct (slots rec !! i) as [x|] eqn:E; [|done].
      exists x. split; [|done]. by eapply list_elem_of_lookup_2.
  - split; [by intros ?%elem_of_nil|intros (i & ?); done].
Qed.

Lemma slot_load_lt hz r i p : slot_load hz r i = Some p -> r < length (records hz).
Proof. unfold slot_load. intros (rec & Hr & _)%bind_Some. by eapply lookup_lt_Some. Qed.

(** The scan finds exactly the announced pointers. *)
Lemma elem_of_announced hz p :
  hz_wf hz -> p ∈ announced hz <-> exists r i, slot_load hz r i = Some p.
Proof.
  intros Hwf. unfold announced. rewrite list_elem_of_bind, for_each_record_all by done.
  setoid_rewrite elem_of_record_announcements. split.
  - intros (r & (i & Hi) & _). eauto.
  - intros (r & i & Hi). exists r. split; [eauto|].
    apply elem_of_reverse, elem_of_seq. apply slot_load_lt in Hi. lia.
Qed.
