(* ===== verification/HazardSpec.v ===== *)
(** What the functions of src/src/hazard.rs promise to src/src/snapshot.rs, each
    run by one thread without interruption: which announcements the scans see,
    which record a thread gets, which slot a pin takes. *)
From S2P Require Import Prelude Hazard.

Section Scans.
Implicit Types (hz : hazard) (own local : option nat) (p : addr).

Lemma others_protect_true hz own p :
  hz_wf hz ->
  others_protect hz own p = true <-> exists r i, Some r <> own /\ slot_load hz r i = Some p.
Proof.
  intros Hwf. unfold others_protect. rewrite existsb_exists, for_each_record_all by done.
  setoid_rewrite <- list_elem_of_In. split.
  - intros (r & _ & Hr). case_decide; [done|].
    apply bool_decide_eq_true, elem_of_record_announcements in Hr as [i Hi]. by exists r, i.
  - intros (r & i & Hne & Hi). exists r. split.
    + apply elem_of_reverse, elem_of_seq. apply slot_load_lt in Hi. lia.
    + rewrite decide_False by done. apply bool_decide_eq_true, elem_of_record_announcements. eauto.
Qed.

Lemma this_thread_protects_true hz own p :
  this_thread_protects hz own p = true <-> exists r i, own = Some r /\ slot_load hz r i = Some p.
Proof.
  unfold this_thread_protects. destruct own as [r|].
  - rewrite bool_decide_eq_true, elem_of_record_announcements. split.
    + intros [i Hi]. by exists r, i.
    + intros (r' & i & [= <-] & Hi). eauto.
  - split; [done|]. by intros (r & i & ? & _).
Qed.

(** The scans of the hazard domain are exact.  The walk from [HEAD] visits every
    published record exactly once; [announced] lists exactly the non-null slots;
    [others_protect] answers whether a record other than the caller's announces the
    address and [this_thread_protects] whether the caller's does, so that together
    they decide membership in [announced]. *)
Theorem scans_exact hz own p :
  hz_wf hz ->
  (for_each_record hz ≡ₚ seq 0 (length (records hz))) /\
  (p ∈ announced hz <-> exists r i, slot_load hz r i = Some p) /\
  (others_protect hz own p = true <-> exists r i, Some r <> own /\ slot_load hz r i = Some p) /\
  (this_thread_protects hz own p = true <-> exists r i, own = Some r /\ slot_load hz r i = Some p) /\
  (p ∈ announced hz <-> others_protect hz own p || this_thread_protects hz own p = true).
Proof.
  intros Hwf. split; [rewrite for_each_record_all by done; apply reverse_Permutation|].
  split; [by apply elem_of_announced|]. split; [by apply others_protect_true|].
  split; [apply this_thread_protects_true|].
  rewrite elem_of_announced, orb_true_iff, others_protect_true, this_thread_protects_true by done.
  split; [|intros [(r & i & _ & Hi)|(r & i & _ & Hi)]; eauto].
  intros (r & i & Hi). destruct (decide (Some r = own)); [right|left]; eauto.
Qed.

(** ** Records *)

Lemma find_claimable hz r :
  List.find (fun r => bool_decide (is_Some (try_claim hz r))) (for_each_record hz) = Some r ->
  exists hz', try_claim hz r = Some hz'.
Proof. by intros [_ Hc%bool_decide_eq_true]%find_some. Qed.

Lemma no_claimable hz k rec :
  hz_wf hz ->
  List.find (fun r => bool_decide (is_Some (try_claim hz r))) (for_each_record hz) = None ->
  records hz !! k = Some rec -> in_use rec = true.
Proof.
  intros Hwf Hn Hk. destruct (in_use rec) eqn:Hu; [done|].
  assert (In k (for_each_record hz)) as Hin.
  { rewrite for_each_record_all by done. apply list_elem_of_In, elem_of_reverse, elem_of_seq.
    apply lookup_lt_Some in Hk. lia. }
  apply (find_none _ _ Hn) in Hin. apply bool_decide_eq_false in Hin. destruct Hin.
  unfold try_claim. rewrite Hk. simpl. rewrite Hu. eauto.
Qed.

Lemma record_in_use_claim hz r hz' k :
  try_claim hz r = Some hz' -> record_in_use hz' k <-> record_in_use hz k \/ k = r.
Proof.
  intros Hc. unfold record_in_use. rewrite (records_claim _ _ _ _ Hc).
  apply try_claim_Some in Hc as (rec & Hr & Hu & _). case_decide as Hd; subst.
  - rewrite Hr. simpl. split; [by right|]. intros _. eexists. by split.
  - split; [by left|]. intros [?|?]; [done|congruence].
Qed.

Lemma record_in_use_publish hz head raw hz' k :
  try_publish hz head = Some (raw, hz') -> record_in_use hz' k <-> record_in_use hz k \/ k = raw.
Proof.
  intros (_ & -> & ->)%try_publish_Some. unfold record_in_use. simpl. split.
  - intros (rec & Hr & Hu). apply lookup_app_Some in Hr as [Hr|[Hk Hr]]; [left; eauto|].
    right. apply list_lookup_singleton_Some in Hr as [? _]. lia.
  - intros [(rec & Hr & Hu)| ->].
    + exists rec. split; [|done]. by apply lookup_app_l_Some.
    + eexists. split; [by rewrite lookup_app_r, Nat.sub_diag by lia|done].
Qed.

(** The record [acquire_record] returns was not in use, and announces nothing. *)
Lemma acquire_record_cases hz r hz' :
  hz_wf hz -> acquire_record hz = (r, hz') ->
  try_claim hz r = Some hz' \/
  (try_publish hz (HEAD hz) = Some (r, hz') /\ forall k rec, records hz !! k = Some rec ->
     in_use rec = true).
Proof.
  intros Hwf Hacq. unfold acquire_record in Hacq.
  destruct (List.find _ _) as [r0|] eqn:Hf.
  - destruct (find_claimable _ _ Hf) as [hz0 Hc]. rewrite Hc in Hacq. simplify_eq/=. by left.
  - right. destruct (try_publish hz (HEAD hz)) as [[r0 hz0]|] eqn:Hp; simplify_eq/=.
    + split; [done|]. intros k rec Hk. by eapply no_claimable.
    + unfold try_publish in Hp. by rewrite decide_True in Hp.
Qed.

Lemma free_record_empty hz r i :
  hz_wf hz -> ~ record_in_use hz r -> slot_load hz r i = None.
Proof.
  intros Hwf Hn. unfold slot_load. destruct (records hz !! r) as [rec|] eqn:Hr; [|done]. simpl.
  destruct (in_use rec) eqn:Hu; [destruct Hn; by exists rec|].
  rewrite (hz_free _ Hwf _ _ Hr Hu). destruct (replicate _ _ !! i) as [x|] eqn:Hx; [|done].
  by apply lookup_replicate in Hx as [-> _].
Qed.

Lemma acquire_record_ok hz r hz' :
  hz_wf hz -> acquire_record hz = (r, hz') ->
  hz_wf hz' /\ ~ record_in_use hz r /\
  (forall k, record_in_use hz' k <-> record_in_use hz k \/ k = r) /\
  (forall k i, slot_load hz' k i = slot_load hz k i).
Proof.
  intros Hwf Hacq. destruct (acquire_record_cases _ _ _ Hwf Hacq) as [Hc|[Hp _]].
  - split_and!; eauto using try_claim_wf, record_in_use_claim, slot_load_claim.
    intros (rec & Hr & Hu). apply try_claim_Some in Hc as (rec' & Hr' & ? & _). congruence.
  - split_and!; eauto using try_publish_wf, record_in_use_publish, slot_load_publish.
    intros (rec & Hr & Hu). apply try_publish_Some in Hp as (_ & -> & _).
    apply lookup_lt_Some in Hr. lia.
Qed.

(** [acquire_record] hands out a record no thread uses, with all slots empty,
    marks exactly that record as used and changes no announcement.  It publishes a
    new record only if every existing one is in use, and then exactly one. *)
Theorem acquire_record_spec hz r hz' :
  hz_wf hz -> acquire_record hz = (r, hz') ->
  hz_wf hz' /\ ~ record_in_use hz r /\
  (forall k, record_in_use hz' k <-> record_in_use hz k \/ k = r) /\
  (forall i, slot_load hz' r i = None) /\
  (forall k i, slot_load hz' k i = slot_load hz k i) /\
  length (records hz') =
    length (records hz) + (if forallb in_use (records hz) then 1 else 0).
Proof.
  intros Hwf Hacq. destruct (acquire_record_ok _ _ _ Hwf Hacq) as (Hwf' & Hn & Hu & Hl).
  split_and!; [done..| |done|]; [intros i; rewrite Hl; by apply free_record_empty|].
  destruct (acquire_record_cases _ _ _ Hwf Hacq) as [Hc|[Hp Hall]].
  - apply try_claim_Some in Hc as (rec & Hr & Hru & ->). simpl. rewrite length_insert.
    assert (forallb in_use (records hz) = false) as ->; [|lia].
    apply not_true_iff_false. rewrite forallb_forall. intros Hf.
    apply list_elem_of_lookup_2, list_elem_of_In, Hf in Hr. congruence.
  - apply try_publish_Some in Hp as (_ & _ & ->). simpl. rewrite length_app. simpl.
    assert (forallb in_use (records hz) = true) as ->; [|done].
    apply forallb_forall. intros rec [k Hk]%list_elem_of_In%list_elem_of_lookup. eauto.
Qed.

(** ** Pins *)

Lemma find_free_None s : find_free s = None <-> forall i x, s !! i = Some x -> is_Some x.
Proof.
  induction s as [|[x|] s IH]; simpl.
  - split; [|done]. intros _ i x Hi. by rewrite lookup_nil in Hi.
  - rewrite fmap_None, IH. split.
    + intros Hs [|i] y Hi; simplify_eq/=; eauto.
    + intros Hs i y Hi. by apply (Hs (S i)).
  - split; [done|]. intros Hs. by destruct (Hs 0 None eq_refl).
Qed.

Lemma find_free_slots hz r rec :
  hz_wf hz -> records hz !! r = Some rec ->
  (find_free (slots rec) = None <-> forall i, i < SLOTS -> is_Some (slot_load hz r i)) /\
  (forall i, find_free (slots rec) = Some i -> i < SLOTS /\ slot_load hz r i = None).
Proof.
  intros Hwf Hr. unfold slot_load. rewrite Hr. simpl.
  pose proof (hz_len _ Hwf _ _ Hr) as Hlen. split.
  - rewrite find_free_None. split.
    + intros Hs i Hi. destruct (lookup_lt_is_Some_2 (slots rec) i) as [x Hx]; [lia|].
      rewrite Hx. simpl. by eapply Hs.
    + intros Hs i x Hi. specialize (Hs i). rewrite Hi in Hs. apply Hs.
      apply lookup_lt_Some in Hi. lia.
  - intros i Hi%find_free_Some. rewrite Hi. apply lookup_lt_Some in Hi. split; [lia|done].
Qed.

(** The record a pin works on: the thread's own, acquired on first use. *)
Definition local_ok hz local : Prop := forall r, local = Some r -> record_in_use hz r.

Lemma pin_record hz local r hz' :
  hz_wf hz -> local_ok hz local ->
  match local with Some r => (r, hz) | None => acquire_record hz end = (r, hz') ->
  hz_wf hz' /\ record_in_use hz' r /\ (forall k i, slot_load hz' k i = slot_load hz k i) /\
  (local = None -> ~ record_in_use hz r) /\ (forall r', local = Some r' -> r' = r).
Proof.
  intros Hwf Hl Hm. destruct local as [r0|]; simplify_eq.
  - split_and!; try done; [by apply Hl|]. by intros ? [= <-].
  - destruct (acquire_record_ok _ _ _ Hwf Hm) as (? & ? & Hu & ?).
    split_and!; try done. apply Hu. by right.
Qed.

(** [pin] announces [p] in a slot of the caller's own record that was free, and
    changes no other announcement; dropping the pin undoes exactly that.  It fails,
    announcing nothing, if and only if the thread-local storage is gone or the
    thread's record has all [SLOTS] slots taken: a fresh record never fails. *)
Theorem pin_spec hz tls local p oi local' hz' :
  hz_wf hz -> local_ok hz local -> pin hz tls local p = (oi, (local', hz')) ->
  hz_wf hz' /\ local_ok hz' local' /\
  (oi = None <-> tls = false \/
     exists r, local = Some r /\ forall i, i < SLOTS -> is_Some (slot_load hz r i)) /\
  match oi with
  | None => forall k j, slot_load hz' k j = slot_load hz k j
  | Some i => exists r, local' = Some r /\ (forall r', local = Some r' -> r' = r) /\
      i < SLOTS /\ slot_load hz r i = None /\
      (forall k j, slot_load hz' k j = if decide (r = k /\ i = j) then Some p else slot_load hz k j) /\
      (forall k j, slot_load (Pin_drop hz' r i) k j = slot_load hz k j)
  end.
Proof.
  intros Hwf Hl Hpin. unfold pin in Hpin. destruct tls; simplify_eq/=.
  2:{ split_and!; try done. by split; [left|]. }
  destruct (match local with Some r => (r, hz) | None => acquire_record hz end) as [r hz1] eqn:Hm.
  destruct (pin_record _ _ _ _ Hwf Hl Hm) as (Hwf1 & Huse & Hsl & Hnew & Hown).
  destruct Huse as (rec & Hr & Hu) eqn:Heq. clear Heq. rewrite Hr in Hpin.
  destruct (find_free_slots _ _ _ Hwf1 Hr) as [Hfull Hfree].
  destruct (find_free (slots rec)) as [i|] eqn:Hf; simplify_eq.
  - destruct (Hfree i eq_refl) as [Hi Hnone].
    assert (record_in_use hz1 r) as Hru by (by exists rec).
    assert (record_in_use (Pin_protect hz1 r i p) r) as Hru'
      by (by apply record_in_use_slot_store).
    split; [by apply slot_store_wf|]. split; [by intros ? [= <-]|]. split.
    { split; [done|]. intros [?|(r' & Hr' & Hall)]; [done|].
      apply Hown in Hr' as ->. destruct (Hall i Hi) as [x Hx]. rewrite Hsl in Hnone. congruence. }
    exists r. rewrite <- Hsl. split_and!; try done.
    + intros k j. unfold Pin_protect. rewrite slot_load_store by done. by rewrite Hsl.
    + intros k j. unfold Pin_drop. rewrite slot_load_store by (done || by apply slot_store_wf).
      unfold Pin_protect. rewrite slot_load_store by done. rewrite <- (Hsl k j).
      case_decide as Hd; [|done]. by destruct Hd as [<- <-].
  - split; [done|]. split; [intros ? [= <-]; by exists rec|]. split; [|done].
    split; [|done]. intros _. right. destruct local as [r0|].
    + exists r0. split; [done|]. rewrite (Hown r0 eq_refl). intros i Hi.
      rewrite <- Hsl. by apply Hfull.
    + destruct (proj1 Hfull eq_refl 0) as [x Hx]; [unfold SLOTS; lia|].
      rewrite Hsl, free_record_empty in Hx; [done|done|by apply Hnew].
Qed.
End Scans.

(** ** Examples *)

(** Two records: the first released, the second announcing address 5. *)
Definition two_records : hazard :=
  mkHazard (Some 1)
    [mkHRecord (replicate SLOTS None) false None;
     mkHRecord (Some 5 :: replicate 7 None) true (Some 0)].

Lemma two_records_wf : hz_wf two_records.
Proof. by split; [|intros [|[|k]] rec Hk; simplify_eq/=..]. Qed.

Lemma scans_exact_witness :
  announced two_records = [5] /\ others_protect two_records (Some 1) 5 = false /\
  (5 ∈ announced two_records <-> exists r i, slot_load two_records r i = Some 5).
Proof.
  split; [reflexivity|]. split; [reflexivity|].
  destruct (scans_exact two_records (Some 1) 5 two_records_wf) as (_ & Ha & _). exact Ha.
Defined.

Lemma acquire_record_spec_witness :
  (acquire_record two_records).1 = 0 /\ length (records (acquire_record two_records).2) = 2 /\
  ~ record_in_use two_records 0.
Proof.
  split; [reflexivity|].
  destruct (acquire_record_spec two_records 0 (acquire_record two_records).2 two_records_wf eq_refl)
    as (_ & Hn & _ & _ & _ & Hlen).
  split; [exact Hlen|exact Hn].
Defined.

Lemma pin_spec_witness :
  exists i r hz', pin two_records true None 9 = (Some i, (Some r, hz')) /\
    (i = 0 /\ r = 0) /\ slot_load two_records r i = None /\ slot_load hz' 1 0 = Some 5.
Proof.
  exists 0, 0, (pin two_records true None 9).2.2. split; [reflexivity|]. split; [done|].
  assert (local_ok two_records None) as Hl by (intros r Hr; discriminate Hr).
  destruct (pin_spec two_records true None 9 (Some 0) (Some 0) (pin two_records true None 9).2.2
    two_records_wf Hl eq_refl) as (_ & _ & _ & r & Hr & _ & _ & Hfree & Hload & _).
  injection Hr as <-. split; [exact Hfree|]. exact (Hload 1 0).
Defined.
