(* ===== verification/SnapCell.v ===== *)
(** Pure parts of src/src/snapshot.rs: pointers, the scan-and-collect loop of
    [collect_unprotected], and the backoff schedule of the waiting loop.

    The cell itself, its operations and their interleavings are in [SnapMachine]. *)
From S2P Require Import Prelude Hazard.

(** A raw pointer as [Arc::into_raw] produced it: its address, and the allocation
    it points into.  The code only ever compares addresses ([==] on raw pointers);
    the allocation number tells two allocations at one address apart. *)
Record ptr := Ptr { p_addr : addr; p_gen : nat }.

#[export] Instance ptr_eq_dec : EqDecision ptr.
Proof. solve_decision. Defined.

Section Collect.
Context {A : Type}.

(** [Vec::swap_remove]: take element [i] out, put the last one in its place. *)
Definition swap_remove (i : nat) (l : list A) : option (A * list A) :=
  x ← l !! i;
  y ← last l;
  Some (x, take (length l - 1) (<[i := y]> l)).

(** The [while i < retired.len()] loop: an announced value stays, any other is
    moved to [freed].  The distance of [i] to the end shrinks at every round. *)
Fixpoint collect_loop (fuel : nat) (keep : A -> bool) (i : nat) (retired freed : list A)
    : list A * list A :=
  match fuel with
  | O => (retired, freed)
  | S fuel =>
      match retired !! i with
      | None => (retired, freed)
      | Some x =>
          if keep x then collect_loop fuel keep (i + 1) retired freed
          else match swap_remove i retired with
               | Some (y, retired') => collect_loop fuel keep i retired' (freed ++ [y])
               | None => (retired, freed)
               end
      end
  end.
End Collect.

(** [collect_unprotected], given the addresses the scan found: the values that
    stay retired, and the ones to free. *)
Definition collect_unprotected (ann : list addr) (retired : list ptr)
    : list ptr * list ptr :=
  collect_loop (length retired) (fun p => bool_decide (p_addr p ∈ ann)) 0 retired [].

(** ** Backoff *)

(** What one round of waiting does. *)
Inductive pause :=
  | SpinLoop
  | YieldNow
  | SleepMicros (us : Z).

(** [backoff(round: &mut u32)]: the new round counter and the pause. *)
Definition backoff (round : Z) : Z * pause :=
  let round := Z.min (round + 1) u32_max in
  (round,
   if decide (round < 64)%Z then SpinLoop
   else if decide (round < 128)%Z then YieldNow
   else SleepMicros (Z.min (round - 127) 1000)).

(** The pauses of the first [n] rounds of a waiting loop that starts at [round]. *)
Fixpoint backoff_run (n : nat) (round : Z) : list pause :=
  match n with
  | O => []
  | S n => let '(round, p) := backoff round in p :: backoff_run n round
  end.

(** ** Properties of the collection loop *)

Section CollectSpec.
Context {A : Type} (keep : A -> bool).

Lemma swap_remove_spec i (l : list A) x :
  l !! i = Some x ->
  exists l', swap_remove i l = Some (x, l') /\ l ≡ₚ x :: l' /\
             length l' = length l - 1 /\ take i l' = take i l.
Proof.
  intros Hi. unfold swap_remove. rewrite Hi. simpl.
  pose proof (lookup_lt_Some _ _ _ Hi) as Hlt.
  destruct (last l) as [y|] eqn:Hl; [|apply last_None in Hl; subst; by simpl in *].
  simpl. apply last_Some in Hl as [l0 ->]. rewrite length_app in *. simpl in *.
  replace (length l0 + 1 - 1) with (length l0) by lia.
  destruct (decide (i < length l0)) as [Hi0|Hi0].
  - rewrite lookup_app_l in Hi by done. rewrite insert_app_l by done.
    rewrite take_app_le by (rewrite length_insert; lia).
    rewrite take_ge by (rewrite length_insert; lia).
    eexists. split; [done|]. split; [|split].
    + rewrite <- (take_drop_middle l0 i x Hi) at 1.
      rewrite insert_take_drop by done. solve_Permutation.
    + by rewrite length_insert.
    + rewrite take_insert_ge by lia. by rewrite take_app_le by lia.
  - assert (i = length l0) as -> by lia.
    rewrite lookup_app_r, Nat.sub_diag in Hi by lia. simplify_eq/=.
    exists l0. rewrite list_insert_id by (by rewrite lookup_app_r, Nat.sub_diag by lia).
    rewrite take_app_length. split; [done|]. split; [solve_Permutation|].
    split; [lia|]. by rewrite take_ge by lia.
Qed.

Lemma collect_loop_spec fuel i (retired freed : list A) :
  length retired - i <= fuel ->
  Forall (fun x => keep x = true) (take i retired) ->
  let '(kept, freed') := collect_loop fuel keep i retired freed in
  Forall (fun x => keep x = true) kept /\
  exists out, freed' = freed ++ out /\ Forall (fun x => keep x = false) out /\
              retired ≡ₚ kept ++ out.
Proof.
  revert i retired freed. induction fuel as [|fuel IH]; intros i retired freed Hf Hall; simpl.
  - split; [by rewrite take_ge in Hall by lia|]. exists []. by rewrite !app_nil_r.
  - destruct (retired !! i) as [x|] eqn:Hi.
    + pose proof (lookup_lt_Some _ _ _ Hi) as Hlt. destruct (keep x) eqn:Hk.
      * apply IH; [lia|]. rewrite Nat.add_1_r, (take_S_r _ _ x Hi).
        apply Forall_app. by repeat constructor.
      * destruct (swap_remove_spec i retired x Hi) as (l' & -> & Hperm & Hlen & Htake).
        specialize (IH i l' (freed ++ [x])). rewrite Htake in IH.
        destruct (collect_loop fuel keep i l' (freed ++ [x])) as [kept freed'].
        destruct IH as (Hkept & out & -> & Hout & Hp); [lia|done|].
        split; [done|]. exists (x :: out). rewrite <- app_assoc.
        split; [done|]. split; [by constructor|]. rewrite Hperm, Hp. solve_Permutation.
    + apply lookup_ge_None in Hi. split; [by rewrite take_ge in Hall by lia|].
      exists []. by rewrite !app_nil_r.
Qed.
End CollectSpec.

(** The loop splits the retired values: nothing announced is freed, nothing
    unannounced stays, and no value is lost or duplicated. *)
Lemma collect_unprotected_spec ann retired kept freed :
  collect_unprotected ann retired = (kept, freed) ->
  retired ≡ₚ kept ++ freed /\
  (forall p, p ∈ kept -> p_addr p ∈ ann) /\
  (forall p, p ∈ freed -> p_addr p ∉ ann).
Proof.
  intros Hc. unfold collect_unprotected in Hc.
  pose proof (collect_loop_spec (fun p => bool_decide (p_addr p ∈ ann)) (length retired) 0
    retired []) as Hs.
  rewrite Hc in Hs. destruct Hs as (Hk & out & -> & Ho & Hp); [lia|constructor|].
  simpl. rewrite !Forall_forall in *. split; [done|]. split.
  - intros p Hin. by apply (bool_decide_eq_true_1 (p_addr p ∈ ann)), Hk.
  - intros p Hin. by apply (bool_decide_eq_false_1 (p_addr p ∈ ann)), Ho.
Qed.

Lemma collect_unprotected_perm ann retired kept freed :
  collect_unprotected ann retired = (kept, freed) -> retired ≡ₚ kept ++ freed.
Proof. intros Hc. by apply collect_unprotected_spec in Hc as [? _]. Qed.

(** A retired value that is announced survives the collection. *)
Lemma collect_unprotected_keeps ann retired kept freed p :
  collect_unprotected ann retired = (kept, freed) ->
  p ∈ retired -> p_addr p ∈ ann -> p ∈ kept.
Proof.
  intros (Hp & _ & Hf)%collect_unprotected_spec Hin Ha.
  rewrite Hp, elem_of_app in Hin. destruct Hin as [?|?]; [done|]. by destruct (Hf p).
Qed.

(** [collect_unprotected] splits the retired values by the announcements: what
    it frees are exactly the values whose address is not announced, what stays are
    exactly the others, and no value is lost or duplicated. *)
Theorem collect_unprotected_exact ann retired :
  (collect_unprotected ann retired).1 ≡ₚ filter (fun p => p_addr p ∈ ann) retired /\
  (collect_unprotected ann retired).2 ≡ₚ filter (fun p => p_addr p ∉ ann) retired.
Proof.
  destruct (collect_unprotected ann retired) as [kept freed] eqn:Hc. simpl.
  apply collect_unprotected_spec in Hc as (Hp & Hk & Hf).
  split; rewrite Hp, filter_app.
  - rewrite filter_all_true, filter_all_false, app_nil_r by (by apply Forall_forall). done.
  - rewrite filter_all_false, filter_all_true; [done|by apply Forall_forall|].
    apply Forall_forall. intros p Hin Hn. by apply Hn, Hk.
Qed.

(** ** The backoff schedule *)

Lemma backoff_run_lookup n k round :
  (0 <= round <= u32_max)%Z -> k < n ->
  backoff_run n round !! k = Some (backoff (Z.min (round + Z.of_nat k) u32_max)).2.
Proof.
  revert k round. induction n as [|n IH]; intros k round Hr Hk; [lia|].
  cbn [backoff_run]. destruct (backoff round) as [round' p] eqn:Hb.
  assert (round' = Z.min (round + 1) u32_max) as -> by (by injection Hb).
  destruct k as [|k]; cbn [lookup list_lookup].
  - replace (Z.min (round + Z.of_nat 0) u32_max) with round by lia. by rewrite Hb.
  - rewrite IH by lia. do 3 f_equal. lia.
Qed.

(** The waiting loop backs off as designed: its first 63 rounds spin, the next
    64 yield, and from then on it sleeps 1, 2, 3, ... microseconds, never more than
    1000; the round counter saturates instead of wrapping, so a wait of any length
    never falls back to spinning. *)
Theorem backoff_schedule n k :
  k < n ->
  backoff_run n 0 !! k =
    Some (if decide (k < 63) then SpinLoop
          else if decide (k < 127) then YieldNow
          else SleepMicros (Z.min (Z.of_nat k - 126) 1000)).
Proof.
  intros Hk. rewrite backoff_run_lookup by (unfold u32_max; lia). unfold backoff, u32_max. simpl.
  f_equal. repeat case_decide; try lia; try done. f_equal. lia.
Qed.

Lemma backoff_schedule_witness :
  backoff_run 130 0 !! 129 = Some (SleepMicros 3) /\ backoff_run 130 0 !! 62 = Some SpinLoop.
Proof.
  split; [exact (backoff_schedule 130 129 ltac:(lia))|exact (backoff_schedule 130 62 ltac:(lia))].
Defined.
