(* ===== verification/SnapMachine.v ===== *)
(** [SnapCell] under concurrency: src/src/snapshot.rs on top of src/src/hazard.rs.

    A machine of any number of threads and cells over one hazard domain and one
    heap.  Each thread has a stack of frames; the top frame is the function of
    snapshot.rs or hazard.rs it is executing, stopped before its next access to
    shared memory.  One step performs that access.  Code that touches only local
    variables, or data guarded by the writer lock the thread holds, runs together
    with the access before it.

    The closures passed to [read] are arbitrary user code: while one runs, its
    thread may look at the borrowed value, call any operation of any cell, return
    or panic.  The same holds for the destructors run by [drop(freed)].  What
    runs inside the lock ([f] of [update], [keep] of [load_arc_if]) is a function
    of the value.

    All atomic accesses are interleaved in one total order.  This is what the code
    asks for with [SeqCst] on the announcement, the validation, the swap and the
    scan; the [Relaxed] reads of [retired_len] only decide whether a reader tries
    to reclaim, and the model's reader may find the lock taken at any time. *)
From S2P Require Import Prelude Hazard SnapCell.

Abbreviation tid := nat.
Abbreviation cid := nat.

Section Machine.
Context {V : Type}.

(** An [Arc] allocation: its number, its value, its strong count. *)
Record block := Block { b_gen : nat; b_val : V; b_strong : nat }.

(** The local variables of the thread that holds a cell's writer lock, by the
    next shared access: [update] (load, allocate, store), [collect_unprotected]
    (head, slots, the final [retired_len] store), [load_arc_locked] (load,
    increment), the copy of [wait_for_retired_readers], and the unlocks. *)
Inductive crit :=
  | CLoad (f : V -> option V)
  | CNew (raw : ptr) (v : V)
  | CStore (raw new : ptr)
  | CHead
  | CScan (r j : nat) (acc : list addr)
  | CFinish (acc : list addr)
  | CUnlock (freed : list ptr)
  | LLoad
  | LIncr (raw : ptr)
  | LUnlock (arc : ptr)
  | WCopy
  | WUnlock (ps : list addr).

(** [struct SnapCell<T> { current, retired_len, fallback_readers, writer }]; the
    mutex is its holder with the holder's locals, next to the data it guards. *)
Record cell := Cell {
  current : ptr;
  retired_len : nat;
  fallback_readers : nat;
  writer : option (tid * crit);
  retired : list ptr;
}.

(** Who called [protect]: [read], or [load_arc_if] with its [keep] closure. *)
Inductive rkind := KRead | KArc (keep : V -> bool).

(** Why a thread takes the writer lock. *)
Inductive lkind :=
  | LkUpdate (f : V -> option V)
  | LkReclaim (ret : option ptr)
  | LkFallback
  | LkArc (keep : V -> bool)
  | LkWait (cof : bool) (round : Z) (since : nat).

(** What follows the dropping of a list of [Arc]s. *)
Inductive dkind := DOp (c : cid) (ret : option ptr) | DFallback (c : cid) | DHandle.

(** The frames.  [p] is the pointer announced in slot [i]; [g] is the allocation
    the successful validation found there; [ret] the [Arc] a [load_arc_if] is
    about to return.  [since] is auxiliary: the allocation that was current when
    [wait_for_retired_readers] was entered (no step depends on it). *)
Inductive frame :=
  | FLoad (c : cid) (k : rkind)
  | FPin (c : cid) (k : rkind) (p : ptr)
  | FAcqHead (c : cid) (k : rkind) (p : ptr)
  | FAcqTry (c : cid) (k : rkind) (p : ptr) (cursor : option nat)
  | FAcqLoad (c : cid) (k : rkind) (p : ptr)
  | FAcqCas (c : cid) (k : rkind) (p : ptr) (head : option nat)
  | FValidate (c : cid) (k : rkind) (p : ptr) (i : nat)
  | FProtect (c : cid) (k : rkind) (p q : ptr) (i : nat)
  | FReading (c : cid) (p : ptr) (g i : nat)
  | FKeep (c : cid) (keep : V -> bool) (p : ptr) (g i : nat)
  | FIncr (c : cid) (p : ptr) (g i : nat)
  | FUnpin (c : cid) (p : ptr) (i : nat) (ret : option ptr) (unwinding : bool)
  | FCheck (c : cid) (ret : option ptr)
  | FTryLock (c : cid) (ret : option ptr)
  | FFbInc (c : cid)
  | FLock (c : cid) (k : lkind)
  | FCrit (c : cid) (k : lkind)
  | FFbReading (c : cid) (arc : ptr)
  | FDrop (d : dkind) (l : list ptr)
  | FWaitFb (c : cid) (cof : bool) (round : Z) (since : nat)
  | FWaitHead (c : cid) (cof : bool) (round : Z) (since : nat) (ps : list addr)
  | FWaitScan (c : cid) (cof : bool) (round : Z) (since : nat) (p : addr) (ps : list addr)
      (r j : nat) (found : bool).

(** A thread: its [LOCAL] record pointer, whether its thread-local storage is
    alive, its [FALLBACK_DEPTH], and its stack, top first. *)
Record thread := Thread {
  th_local : option nat;
  th_tls : bool;
  th_depth : nat;
  th_stack : list frame;
}.

(** A thread that has not run yet. *)
Definition thread_new : thread := Thread None true 0 [].

(** The whole state; [handles] are the [Arc]s clients got from [load_arc_if]. *)
Record state := State {
  hz : hazard;
  heap : gmap addr block;
  next_gen : nat;
  cells : gmap cid cell;
  threads : gmap tid thread;
  handles : list ptr;
}.

Definition init : state := State hazard_init ∅ 0 ∅ ∅ [].

Definition thread_of (s : state) (t : tid) : thread := default thread_new (threads s !! t).

(** ** Field updates *)

Definition set_hz (h : hazard) (s : state) : state :=
  State h (heap s) (next_gen s) (cells s) (threads s) (handles s).
Definition set_heap (h : gmap addr block) (s : state) : state :=
  State (hz s) h (next_gen s) (cells s) (threads s) (handles s).
Definition set_cell (c : cid) (cl : cell) (s : state) : state :=
  State (hz s) (heap s) (next_gen s) (<[c := cl]> (cells s)) (threads s) (handles s).
Definition set_thread (t : tid) (th : thread) (s : state) : state :=
  State (hz s) (heap s) (next_gen s) (cells s) (<[t := th]> (threads s)) (handles s).
Definition set_handles (l : list ptr) (s : state) : state :=
  State (hz s) (heap s) (next_gen s) (cells s) (threads s) l.
Definition del_cell (c : cid) (s : state) : state :=
  State (hz s) (heap s) (next_gen s) (delete c (cells s)) (threads s) (handles s).

Definition set_stack (st : list frame) (th : thread) : thread :=
  Thread (th_local th) (th_tls th) (th_depth th) st.
Definition set_local (r : option nat) (th : thread) : thread :=
  Thread r (th_tls th) (th_depth th) (th_stack th).
Definition set_depth (d : nat) (th : thread) : thread :=
  Thread (th_local th) (th_tls th) d (th_stack th).

Definition set_current (p : ptr) (cl : cell) : cell :=
  Cell p (retired_len cl) (fallback_readers cl) (writer cl) (retired cl).
Definition set_fallback (n : nat) (cl : cell) : cell :=
  Cell (current cl) (retired_len cl) n (writer cl) (retired cl).
Definition set_writer (w : option (tid * crit)) (cl : cell) : cell :=
  Cell (current cl) (retired_len cl) (fallback_readers cl) w (retired cl).
Definition set_retired (l : list ptr) (cl : cell) : cell :=
  Cell (current cl) (retired_len cl) (fallback_readers cl) (writer cl) l.
Definition set_retired_len (n : nat) (cl : cell) : cell :=
  Cell (current cl) n (fallback_readers cl) (writer cl) (retired cl).

(** ** Outcomes *)

(** A step succeeds, is not enabled, or is undefined behaviour: an access through
    a pointer to memory that is not allocated. *)
Inductive outcome := Ok (s : state) | Blocked | UB.

Definition set_block_strong (n : nat) (b : block) : block := Block (b_gen b) (b_val b) n.

(** [Arc::new] at a free address [a]. *)
Definition alloc (a : addr) (v : V) (s : state) : state :=
  State (hz s) (<[a := Block (next_gen s) v 1]> (heap s)) (S (next_gen s))
    (cells s) (threads s) (handles s).

(** [Arc::increment_strong_count]. *)
Definition arc_clone (a : addr) (s : state) : option state :=
  b ← heap s !! a;
  Some (set_heap (<[a := set_block_strong (S (b_strong b)) b]> (heap s)) s).

(** Dropping one [Arc]: decrement the count, free the allocation at zero. *)
Definition arc_drop (a : addr) (s : state) : option state :=
  b ← heap s !! a;
  match b_strong b with
  | S (S n) => Some (set_heap (<[a := set_block_strong (S n) b]> (heap s)) s)
  | _ => Some (set_heap (delete a (heap s)) s)
  end.

(** ** Steps *)

(** The fields of a thread replaced, its top frame rewritten or popped. *)
Definition goto (t : tid) (th : thread) (st : list frame) (s : state) : state :=
  set_thread t (set_stack st th) s.

(** A function returns; the [Arc] it returns, if any, goes to the client. *)
Definition return_ (t : tid) (th : thread) (rest : list frame) (ret : option ptr) (s : state)
    : state :=
  goto t th rest (set_handles (handles s ++ option_list ret) s).

(** The [&*p] of [read] and [load_arc_if]: the value at the address, if any. *)
Definition deref (p : ptr) (s : state) : option V := b_val <$> heap s !! p_addr p.

(** Entry of the two fallback paths taken when [pin] returns [None]. *)
Definition fallback_entry (c : cid) (k : rkind) : frame :=
  match k with
  | KRead => FFbInc c
  | KArc keep => FLock c (LkArc keep)
  end.

(** What a reader does once [protect] returned. *)
Definition protected_entry (c : cid) (k : rkind) (p : ptr) (g i : nat) : frame :=
  match k with
  | KRead => FReading c p g i
  | KArc keep => FKeep c keep p g i
  end.

(** First access after the lock is taken. *)
Definition crit_entry (k : lkind) : crit :=
  match k with
  | LkUpdate f => CLoad f
  | LkReclaim _ => CHead
  | LkFallback | LkArc _ => LLoad
  | LkWait _ _ _ => WCopy
  end.

(** [SnapCell::protect] with [hazard::pin] and [hazard::acquire_record]: one
    access of the thread [th], whose stack below the top frame is [rest].
    [spurious] lets the [compare_exchange_weak] fail for no reason.  Once
    [acquire_record] has claimed a record, the rest of its walk only follows [next]
    pointers and is left out. *)
Definition step_protect (spurious : bool) (t : tid) (th : thread) (rest : list frame)
    (f : frame) (s : state) : outcome :=
  match f with
  | FLoad c k =>
      match cells s !! c with
      | None => Blocked
      | Some cl => Ok (goto t th (FPin c k (current cl) :: rest) s)
      end
  | FPin c k p =>
      if th_tls th then
        match th_local th with
        | None => Ok (goto t th (FAcqHead c k p :: rest) s)
        | Some r =>
            match records (hz s) !! r with
            | None => UB
            | Some rec =>
                match find_free (slots rec) with
                | None => Ok (goto t th (fallback_entry c k :: rest) s)
                | Some i =>
                    Ok (goto t th (FValidate c k p i :: rest)
                          (set_hz (Pin_protect (hz s) r i (p_addr p)) s))
                end
            end
        end
      else Ok (goto t th (fallback_entry c k :: rest) s)
  | FAcqHead c k p => Ok (goto t th (FAcqTry c k p (HEAD (hz s)) :: rest) s)
  | FAcqTry c k p None => Ok (goto t th (FAcqLoad c k p :: rest) s)
  | FAcqTry c k p (Some r) =>
      match records (hz s) !! r with
      | None => UB
      | Some rec =>
          match try_claim (hz s) r with
          | Some h => Ok (goto t (set_local (Some r) th) (FPin c k p :: rest) (set_hz h s))
          | None => Ok (goto t th (FAcqTry c k p (next rec) :: rest) s)
          end
      end
  | FAcqLoad c k p => Ok (goto t th (FAcqCas c k p (HEAD (hz s)) :: rest) s)
  | FAcqCas c k p head =>
      if spurious then Ok (goto t th (FAcqCas c k p (HEAD (hz s)) :: rest) s)
      else match try_publish (hz s) head with
           | Some (r, h) => Ok (goto t (set_local (Some r) th) (FPin c k p :: rest) (set_hz h s))
           | None => Ok (goto t th (FAcqCas c k p (HEAD (hz s)) :: rest) s)
           end
  | FValidate c k p i =>
      match cells s !! c with
      | None => Blocked
      | Some cl =>
          let q := current cl in
          if decide (p_addr q = p_addr p)
          then Ok (goto t th (protected_entry c k p (p_gen q) i :: rest) s)
          else Ok (goto t th (FProtect c k p q i :: rest) s)
      end
  | FProtect c k p q i =>
      match th_local th with
      | None => UB
      | Some r => Ok (goto t th (FValidate c k q i :: rest)
                        (set_hz (Pin_protect (hz s) r i (p_addr q)) s))
      end
  | _ => Blocked
  end.

(** The rest of [load_arc_if], [release] and [try_reclaim] up to the lock. *)
Definition step_release (t : tid) (th : thread) (rest : list frame) (f : frame) (s : state)
    : outcome :=
  match f with
  | FKeep c keep p g i =>
      match deref p s with
      | None => UB
      | Some v => if keep v then Ok (goto t th (FIncr c p g i :: rest) s)
                  else Ok (goto t th (FUnpin c p i None false :: rest) s)
      end
  | FIncr c p g i =>
      match arc_clone (p_addr p) s with
      | None => UB
      | Some s => Ok (goto t th (FUnpin c p i (Some (Ptr (p_addr p) g)) false :: rest) s)
      end
  | FUnpin c p i ret unwinding =>
      match th_local th with
      | None => UB
      | Some r =>
          let s := set_hz (Pin_drop (hz s) r i) s in
          if unwinding then Ok (return_ t th rest ret s)
          else Ok (goto t th (FCheck c ret :: rest) s)
      end
  | FCheck c ret =>
      match cells s !! c with
      | None => Blocked
      | Some cl => if decide (retired_len cl = 0) then Ok (return_ t th rest ret s)
                   else Ok (goto t th (FTryLock c ret :: rest) s)
      end
  | FTryLock c ret =>
      match cells s !! c with
      | None => Blocked
      | Some cl =>
          match writer cl with
          | Some _ => Ok (return_ t th rest ret s)
          | None => Ok (goto t th (FCrit c (LkReclaim ret) :: rest)
                          (set_cell c (set_writer (Some (t, CHead)) cl) s))
          end
      end
  | _ => Blocked
  end.

(** Entering and leaving [read_fallback], taking the lock, and [drop(freed)]. *)
Definition step_fallback (t : tid) (th : thread) (rest : list frame) (f : frame) (s : state)
    : outcome :=
  match f with
  | FFbInc c =>
      match cells s !! c with
      | None => Blocked
      | Some cl =>
          Ok (goto t (set_depth (S (th_depth th)) th) (FLock c LkFallback :: rest)
                (set_cell c (set_fallback (S (fallback_readers cl)) cl) s))
      end
  | FLock c k =>
      match cells s !! c with
      | None => Blocked
      | Some cl =>
          match writer cl with
          | Some _ => Blocked
          | None => Ok (goto t th (FCrit c k :: rest)
                          (set_cell c (set_writer (Some (t, crit_entry k)) cl) s))
          end
      end
  | FDrop d (p :: l) =>
      match arc_drop (p_addr p) s with
      | None => UB
      | Some s => Ok (goto t th (FDrop d l :: rest) s)
      end
  | FDrop (DOp c ret) [] => Ok (return_ t th rest ret s)
  | FDrop DHandle [] => Ok (return_ t th rest None s)
  | FDrop (DFallback c) [] =>
      match cells s !! c with
      | None => Blocked
      | Some cl =>
          Ok (goto t (set_depth (th_depth th - 1) th) rest
                (set_cell c (set_fallback (fallback_readers cl - 1) cl) s))
      end
  | _ => Blocked
  end.

(** After the unlock: where the function that held the lock continues. *)
Definition after_unlock (c : cid) (k : lkind) (cr : crit) (t : tid) (th : thread)
    (rest : list frame) (s : state) : outcome :=
  match k, cr with
  | LkUpdate _, CUnlock freed => Ok (goto t th (FDrop (DOp c None) freed :: rest) s)
  | LkReclaim ret, CUnlock freed => Ok (goto t th (FDrop (DOp c ret) freed :: rest) s)
  | LkFallback, LUnlock arc => Ok (goto t th (FFbReading c arc :: rest) s)
  | LkArc keep, LUnlock arc =>
      match deref arc s with
      | None => UB
      | Some v => if keep v then Ok (return_ t th rest (Some arc) s)
                  else Ok (goto t th (FDrop (DOp c None) [arc] :: rest) s)
      end
  | LkWait cof round since, WUnlock ps =>
      Ok (goto t th (FWaitHead c cof round since ps :: rest) s)
  | _, _ => Blocked
  end.

(** The critical sections: the holder's locals [cr] are rewritten in the cell. *)
Definition step_crit (oa : option addr) (c : cid) (k : lkind) (t : tid) (th : thread)
    (rest : list frame) (cl : cell) (cr : crit) (s : state) : outcome :=
  let continue cr cl s := Ok (set_cell c (set_writer (Some (t, cr)) cl) s) in
  match cr with
  | CLoad f =>
      match deref (current cl) s with
      | None => UB
      | Some v => match f v with
                  | None => continue (CUnlock []) cl s
                  | Some v' => continue (CNew (current cl) v') cl s
                  end
      end
  | CNew raw v =>
      match oa with
      | None => Blocked
      | Some a =>
          match heap s !! a with
          | Some _ => Blocked
          | None => continue (CStore raw (Ptr a (next_gen s))) cl (alloc a v s)
          end
      end
  | CStore raw new =>
      continue CHead (set_retired (retired cl ++ [raw]) (set_current new cl)) s
  | CHead =>
      match retired cl, HEAD (hz s) with
      | [], _ => continue (CFinish []) cl s
      | _, None => continue (CFinish []) cl s
      | _, Some r => continue (CScan r 0 []) cl s
      end
  | CScan r j acc =>
      match records (hz s) !! r with
      | None => UB
      | Some rec =>
          let acc := acc ++ option_list (slot_load (hz s) r j) in
          if decide (S j < SLOTS) then continue (CScan r (S j) acc) cl s
          else match next rec with
               | Some r' => continue (CScan r' 0 acc) cl s
               | None => continue (CFinish acc) cl s
               end
      end
  | CFinish acc =>
      let '(kept, freed) := collect_unprotected acc (retired cl) in
      continue (CUnlock freed) (set_retired_len (length kept) (set_retired kept cl)) s
  | LLoad => continue (LIncr (current cl)) cl s
  | LIncr raw =>
      match arc_clone (p_addr raw) s with
      | None => UB
      | Some s => continue (LUnlock raw) cl s
      end
  | WCopy => continue (WUnlock (p_addr <$> retired cl)) cl s
  | CUnlock _ | LUnlock _ | WUnlock _ =>
      after_unlock c k cr t th rest (set_cell c (set_writer None cl) s)
  end.

(** The next record of an [others_protect] scan, or its verdict: found means
    another round after [backoff], otherwise the next retired pointer. *)
Definition wait_next (c : cid) (cof : bool) (round : Z) (since : nat) (p : addr)
    (ps : list addr) (cursor : option nat) (found : bool) : frame :=
  match cursor with
  | Some r => FWaitScan c cof round since p ps r 0 found
  | None => if found then FWaitFb c cof (backoff round).1 since
            else FWaitHead c cof round since ps
  end.

(** [wait_for_retired_readers] and [hazard::others_protect]. *)
Definition step_wait (t : tid) (th : thread) (rest : list frame) (f : frame) (s : state)
    : outcome :=
  match f with
  | FWaitFb c cof round since =>
      match cells s !! c with
      | None => Blocked
      | Some cl =>
          if cof || bool_decide (fallback_readers cl = 0)
          then Ok (goto t th (FLock c (LkWait cof round since) :: rest) s)
          else Ok (goto t th (FWaitFb c cof (backoff round).1 since :: rest) s)
      end
  | FWaitHead c cof round since [] => Ok (return_ t th rest None s)
  | FWaitHead c cof round since (p :: ps) =>
      Ok (goto t th (wait_next c cof round since p ps (HEAD (hz s)) false :: rest) s)
  | FWaitScan c cof round since p ps r j found =>
      match records (hz s) !! r with
      | None => UB
      | Some rec =>
          let on_to := wait_next c cof round since p ps (next rec) in
          if decide (th_local th = Some r) then Ok (goto t th (on_to found :: rest) s)
          else if decide (slot_load (hz s) r j = Some p) then Ok (goto t th (on_to true :: rest) s)
          else if decide (S j < SLOTS)
               then Ok (goto t th (FWaitScan c cof round since p ps r (S j) found :: rest) s)
               else Ok (goto t th (on_to found :: rest) s)
      end
  | _ => Blocked
  end.

(** One access by the top frame of a thread. *)
Definition step_frame (spurious : bool) (oa : option addr) (t : tid) (th : thread)
    (rest : list frame) (f : frame) (s : state) : outcome :=
  match f with
  | FLoad _ _ | FPin _ _ _ | FAcqHead _ _ _ | FAcqTry _ _ _ _ | FAcqLoad _ _ _
  | FAcqCas _ _ _ _ | FValidate _ _ _ _ | FProtect _ _ _ _ _ =>
      step_protect spurious t th rest f s
  | FKeep _ _ _ _ _ | FIncr _ _ _ _ | FUnpin _ _ _ _ _ | FCheck _ _ | FTryLock _ _ =>
      step_release t th rest f s
  | FFbInc _ | FLock _ _ | FDrop _ _ => step_fallback t th rest f s
  | FCrit c k =>
      match cells s !! c with
      | Some cl =>
          match writer cl with
          | Some (t', cr) => if decide (t' = t) then step_crit oa c k t th rest cl cr s else Blocked
          | None => Blocked
          end
      | None => Blocked
      end
  | FWaitFb _ _ _ _ | FWaitHead _ _ _ _ _ | FWaitScan _ _ _ _ _ _ _ _ _ =>
      step_wait t th rest f s
  | FReading _ _ _ _ | FFbReading _ _ => Blocked
  end.

(** ** What clients do *)

(** The operations a client may call: [read], [load_arc_if], [update],
    [wait_for_retired_readers]. *)
Inductive op :=
  | ORead (c : cid)
  | OLoadArc (c : cid) (keep : V -> bool)
  | OUpdate (c : cid) (f : V -> option V)
  | OWait (c : cid).

(** Entry of an operation; [wait_for_retired_readers] first reads the caller's
    own [FALLBACK_DEPTH]. *)
Definition op_entry (o : op) (th : thread) (s : state) : option frame :=
  match o with
  | ORead c => cl ← cells s !! c; Some (FLoad c KRead)
  | OLoadArc c keep => cl ← cells s !! c; Some (FLoad c (KArc keep))
  | OUpdate c f => cl ← cells s !! c; Some (FLock c (LkUpdate f))
  | OWait c => cl ← cells s !! c;
               Some (FWaitFb c (bool_decide (0 < th_depth th)) 0 (p_gen (current cl)))
  end.

(** Frames in which user code runs: the closure of a [read], and the destructors
    of the values being dropped. *)
Definition user_frame (f : frame) : bool :=
  match f with
  | FReading _ _ _ _ | FFbReading _ _ | FDrop _ _ => true
  | _ => false
  end.

(** User code runs when the stack is empty or its top is such a frame. *)
Definition in_user_code (st : list frame) : bool :=
  match st with
  | [] => true
  | f :: _ => user_frame f
  end.

(** The cell a frame borrows. *)
Definition frame_cell (f : frame) : option cid :=
  match f with
  | FLoad c _ | FPin c _ _ | FAcqHead c _ _ | FAcqTry c _ _ _ | FAcqLoad c _ _
  | FAcqCas c _ _ _ | FValidate c _ _ _ | FProtect c _ _ _ _ | FReading c _ _ _
  | FKeep c _ _ _ _ | FIncr c _ _ _ | FUnpin c _ _ _ _ | FCheck c _ | FTryLock c _
  | FFbInc c | FLock c _ | FCrit c _ | FFbReading c _ | FWaitFb c _ _ _
  | FWaitHead c _ _ _ _ | FWaitScan c _ _ _ _ _ _ _ _ => Some c
  | FDrop (DOp c _) _ | FDrop (DFallback c) _ => Some c
  | FDrop DHandle _ => None
  end.

(** The actions of a thread: the next access of its top frame ([AAlloc] when that
    access is an allocation, at the address the allocator picked); calls, looks at
    the borrowed value, returns and panics of user code; [SnapCell::new]; dropping
    a cell, an [Arc], or the thread's own [Local] at exit. *)
Inductive action :=
  | ANext
  | ASpurious
  | AAlloc (a : addr)
  | ACall (o : op)
  | ALook
  | AReturn
  | AUnwind
  | ANew (c : cid) (v : V) (a : addr)
  | ADropCell (c : cid)
  | ADropHandle (p : ptr)
  | AExit.

(** User code running in the top frame: the look, the return, the panic. *)
Definition step_user (a : action) (t : tid) (th : thread) (f : frame) (rest : list frame)
    (s : state) : outcome :=
  match f, a with
  | FReading c p _ _, ALook | FFbReading c p, ALook =>
      match deref p s with Some _ => Ok s | None => UB end
  | FReading c p g i, AReturn => Ok (goto t th (FUnpin c p i None false :: rest) s)
  | FReading c p g i, AUnwind => Ok (goto t th (FUnpin c p i None true :: rest) s)
  | FFbReading c arc, (AReturn | AUnwind) =>
      Ok (goto t th (FDrop (DFallback c) [arc] :: rest) s)
  | _, _ => Blocked
  end.

(** [SnapCell::new] with the [Arc] allocated at [a]. *)
Definition step_new (c : cid) (v : V) (a : addr) (s : state) : outcome :=
  match cells s !! c, heap s !! a with
  | None, None =>
      Ok (set_cell c (Cell (Ptr a (next_gen s)) 0 0 None []) (alloc a v s))
  | _, _ => Blocked
  end.

(** [impl Drop for SnapCell]: [&mut self] means that no frame borrows the cell. *)
Definition step_drop_cell (c : cid) (t : tid) (th : thread) (s : state) : outcome :=
  match cells s !! c with
  | None => Blocked
  | Some cl =>
      if decide (map_Forall (fun _ th => Forall (fun f => frame_cell f <> Some c) (th_stack th))
                   (threads s))
      then Ok (goto t th (FDrop DHandle (current cl :: retired cl) :: th_stack th)
                 (del_cell c s))
      else Blocked
  end.

(** One step of thread [t]. *)
Definition step (t : tid) (a : action) (s : state) : outcome :=
  let th := thread_of s t in
  match a with
  | ANext | ASpurious | AAlloc _ =>
      match th_stack th with
      | [] => Blocked
      | f :: rest =>
          let spurious := match a with ASpurious => true | _ => false end in
          let oa := match a with AAlloc x => Some x | _ => None end in
          step_frame spurious oa t th rest f s
      end
  | ACall o =>
      if in_user_code (th_stack th) then
        match op_entry o th s with
        | Some f => Ok (goto t th (f :: th_stack th) s)
        | None => Blocked
        end
      else Blocked
  | ALook | AReturn | AUnwind =>
      match th_stack th with
      | [] => Blocked
      | f :: rest => step_user a t th f rest s
      end
  | ANew c v x => if in_user_code (th_stack th) then step_new c v x s else Blocked
  | ADropCell c =>
      if in_user_code (th_stack th) then step_drop_cell c t th s else Blocked
  | ADropHandle p =>
      if in_user_code (th_stack th) then
        match remove_one p (handles s) with
        | Some l => Ok (goto t th (FDrop DHandle [p] :: th_stack th) (set_handles l s))
        | None => Blocked
        end
      else Blocked
  | AExit =>
      match th_stack th with
      | [] => if th_tls th
              then Ok (set_thread t (Thread None false (th_depth th) [])
                         (set_hz (Local_drop (hz s) (th_local th)) s))
              else Blocked
      | _ => Blocked
      end
  end.

(** A schedule: who acts, and how. *)
Fixpoint run (sched : list (tid * action)) (s : state) : outcome :=
  match sched with
  | [] => Ok s
  | (t, a) :: sched => match step t a s with
                       | Ok s => run sched s
                       | o => o
                       end
  end.

(** The states some schedule leads to. *)
Inductive reachable : state -> Prop :=
  | reach_init : reachable init
  | reach_step s t a s' : reachable s -> step t a s = Ok s' -> reachable s'.

Lemma reachable_run sched s s' : reachable s -> run sched s = Ok s' -> reachable s'.
Proof.
  revert s. induction sched as [|[t a] sched IH]; intros s Hs Hr; simpl in Hr; [by simplify_eq|].
  destruct (step t a s) as [s1| |] eqn:Hst; [|done..]. eapply IH; [|done]. by econstructor.
Qed.

(** ** Inversion *)

Lemma arc_clone_Some a s s' :
  arc_clone a s = Some s' ->
  exists b, heap s !! a = Some b /\
    s' = set_heap (<[a := set_block_strong (S (b_strong b)) b]> (heap s)) s.
Proof. unfold arc_clone. intros (b & Hb & [= <-])%bind_Some. by exists b. Qed.

Lemma arc_drop_Some a s s' :
  arc_drop a s = Some s' ->
  exists b, heap s !! a = Some b /\
    s' = set_heap (if decide (b_strong b <= 1) then delete a (heap s)
                   else <[a := set_block_strong (b_strong b - 1) b]> (heap s)) s.
Proof.
  unfold arc_drop. intros (b & Hb & Hd)%bind_Some. exists b. split; [done|].
  destruct (b_strong b) as [|[|n]]; simplify_eq/=; by repeat case_decide; try lia.
Qed.

(** The kinds of steps, for proofs by cases. *)
Inductive step_case (t : tid) (a : action) (s s' : state) : Prop :=
  | sc_protect sp f rest (Hst : th_stack (thread_of s t) = f :: rest)
      (Hs : step_protect sp t (thread_of s t) rest f s = Ok s')
  | sc_release f rest (Hst : th_stack (thread_of s t) = f :: rest)
      (Hs : step_release t (thread_of s t) rest f s = Ok s')
  | sc_fallback f rest (Hst : th_stack (thread_of s t) = f :: rest)
      (Hs : step_fallback t (thread_of s t) rest f s = Ok s')
  | sc_crit oa c k rest cl cr (Hst : th_stack (thread_of s t) = FCrit c k :: rest)
      (Hc : cells s !! c = Some cl) (Hw : writer cl = Some (t, cr))
      (Hs : step_crit oa c k t (thread_of s t) rest cl cr s = Ok s')
  | sc_wait f rest (Hst : th_stack (thread_of s t) = f :: rest)
      (Hs : step_wait t (thread_of s t) rest f s = Ok s')
  | sc_user a0 f rest (Hst : th_stack (thread_of s t) = f :: rest)
      (Hs : step_user a0 t (thread_of s t) f rest s = Ok s')
  | sc_call o f (Hu : in_user_code (th_stack (thread_of s t)) = true)
      (Ho : op_entry o (thread_of s t) s = Some f)
      (Hs : s' = goto t (thread_of s t) (f :: th_stack (thread_of s t)) s)
  | sc_new c v x (Ha : a = ANew c v x) (Hu : in_user_code (th_stack (thread_of s t)) = true)
      (Hs : step_new c v x s = Ok s')
  | sc_drop_cell c (Ha : a = ADropCell c) (Hu : in_user_code (th_stack (thread_of s t)) = true)
      (Hs : step_drop_cell c t (thread_of s t) s = Ok s')
  | sc_drop_handle p l (Hu : in_user_code (th_stack (thread_of s t)) = true)
      (Hl : remove_one p (handles s) = Some l)
      (Hs : s' = goto t (thread_of s t) (FDrop DHandle [p] :: th_stack (thread_of s t))
                   (set_handles l s))
  | sc_exit (Hst : th_stack (thread_of s t) = []) (Htls : th_tls (thread_of s t) = true)
      (Hs : s' = set_thread t (Thread None false (th_depth (thread_of s t)) [])
                   (set_hz (Local_drop (hz s) (th_local (thread_of s t))) s)).

Lemma step_cases_of t a s s' : step t a s = Ok s' -> step_case t a s s'.
Proof.
  unfold step. intros Hs.
  destruct a; try (destruct (th_stack (thread_of s t)) as [|f rest] eqn:Hst; [done|];
                   by eapply sc_user).
  1-3: destruct (th_stack (thread_of s t)) as [|f rest] eqn:Hst; [done|];
    unfold step_frame in Hs; destruct f; try done;
    first [ by eapply sc_protect | by eapply sc_release | by eapply sc_fallback
          | by eapply sc_wait | idtac ].
  1-3: destruct (cells s !! c) as [cl|] eqn:Hc; [|done];
    destruct (writer cl) as [[t' cr]|] eqn:Hw; [|done]; case_decide; [|done]; subst t';
    by eapply sc_crit.
  1-4: destruct (in_user_code _) eqn:Hu; [|done].
  - destruct (op_entry o _ s) as [f|] eqn:Ho; [|done]. injection Hs as <-. by eapply sc_call.
  - by eapply sc_new.
  - by eapply sc_drop_cell.
  - destruct (remove_one p (handles s)) as [l|] eqn:Hl; [|done]. injection Hs as <-.
    by eapply sc_drop_handle.
  - destruct (th_stack (thread_of s t)) as [|] eqn:Hst; [|done].
    destruct (th_tls (thread_of s t)) eqn:Htls; [|done]. injection Hs as <-. by eapply sc_exit.
Qed.

(** The frame an operation starts with. *)
Lemma op_entry_cases o th s f :
  op_entry o th s = Some f ->
  exists c cl, cells s !! c = Some cl /\ frame_cell f = Some c /\
    ((exists k, f = FLoad c k) \/ (exists g, f = FLock c (LkUpdate g)) \/
     f = FWaitFb c (bool_decide (0 < th_depth th)) 0 (p_gen (current cl))).
Proof.
  destruct o; simpl; intros (cl & Hc & [= <-])%bind_Some; exists c, cl; eauto 6.
Qed.
End Machine.
Arguments block : clear implicits.
Arguments crit : clear implicits.
Arguments cell : clear implicits.
Arguments frame : clear implicits.
Arguments rkind : clear implicits.
Arguments lkind : clear implicits.
Arguments thread : clear implicits.
Arguments state : clear implicits.
Arguments outcome : clear implicits.
Arguments op : clear implicits.
Arguments action : clear implicits.
#[export] Hint Constructors reachable : registry.

(** Turns [Hstep : step t a s = Ok s'] into its cases, with [s'] replaced by the
    explicit next state. *)
Ltac step_cases Hstep :=
  repeat (match type of Hstep with
          | context [match ?x with _ => _ end] => destruct x eqn:?
          end; simplify_eq/=);
  simplify_eq/=;
  repeat match goal with
  | H : arc_clone _ _ = Some _ |- _ =>
      let b := fresh "b" in let Hb := fresh "Hb" in
      apply arc_clone_Some in H as (b & Hb & ->)
  | H : arc_drop _ _ = Some _ |- _ =>
      let b := fresh "b" in let Hb := fresh "Hb" in
      apply arc_drop_Some in H as (b & Hb & ->)
  end.
