(* ===== verification/SnapTraces.v ===== *)
(** Concrete schedules of the machine over cells of numbers, for examples.

    Cell 0 starts with the value 10 at address 100, cell 1 with 20 at 101. *)
From S2P Require Import Prelude Hazard SnapCell SnapMachine.

Abbreviation sched := (list (tid * action nat)).

(** [n] accesses of thread [t]. *)
Definition nexts (t : tid) (n : nat) : sched := replicate n (t, ANext).

Definition new_cells : sched := [(0, ANew 0 10 100); (0, ANew 1 20 101)].

(** The first [read] of a thread, up to its closure: it walks past [n] records in
    use and publishes a new one. *)
Definition first_read (t : tid) (c : cid) (n : nat) : sched :=
  (t, ACall (ORead c)) :: nexts t (8 + n).

(** A nested [read], up to its closure. *)
Definition nested_read (t : tid) (c : cid) : sched := (t, ACall (ORead c)) :: nexts t 3.

(** Eight nested reads of cell [c]: all slots of the thread's record are in use. *)
Definition eight_reads (t : tid) (c : cid) (n : nat) : sched :=
  first_read t c n ++ concat (replicate 7 (nested_read t c)).

(** A [read] without a free slot: load, no slot, count, lock, load, increment,
    unlock. *)
Definition fallback_read (t : tid) (c : cid) : sched := (t, ACall (ORead c)) :: nexts t 7.

(** [update] of cell [c] by [f], with the new value at [a], up to its store. *)
Definition update_to_store (t : tid) (c : cid) (f : nat -> option nat) (a : addr) : sched :=
  [(t, ACall (OUpdate c f)); (t, ANext); (t, ANext); (t, AAlloc a)].

(** The whole [update], with [n] published records to scan. *)
Definition whole_update (t : tid) (c : cid) (f : nat -> option nat) (a : addr) (n : nat) : sched :=
  update_to_store t c f a ++ nexts t (1 + 1 + SLOTS * n + 1 + 1).

Definition add1 (v : nat) : option nat := Some (v + 1).

(** The state after a schedule. *)
Definition state_after (l : sched) : state nat :=
  match run l init with Ok s => s | _ => init end.

Definition runs (l : sched) : bool := match run l init with Ok _ => true | _ => false end.

Lemma runs_ok l : runs l = true -> run l init = Ok (state_after l).
Proof. unfold runs, state_after. by destruct (run l init). Qed.

Lemma runs_reachable l : runs l = true -> reachable (state_after l).
Proof. intros Hl. eapply reachable_run; [constructor|by apply runs_ok]. Qed.

(** No thread is inside an operation. *)
Definition idle (s : state nat) : bool :=
  forallb (fun x => match th_stack x.2 with [] => true | _ => false end) (map_to_list (threads s)).

Lemma idle_ok s : idle s = true -> forall t, th_stack (thread_of s t) = [].
Proof.
  unfold idle, thread_of. rewrite forallb_forall. intros Hall t.
  destruct (threads s !! t) as [th|] eqn:Ht; simpl; [|done].
  assert (In (t, th) (map_to_list (threads s))) as Hin
    by (by apply list_elem_of_In, elem_of_map_to_list).
  specialize (Hall _ Hin). simpl in Hall. by destruct (th_stack th).
Qed.

(** A reader in its closure while a writer replaces the value, twice. *)
Definition reading : sched := new_cells ++ first_read 1 0 0.
Definition replaced : sched := reading ++ whole_update 2 0 add1 102 1.
