(* ===== verification/SnapHazardInv.v ===== *)
(** First invariant of the machine: the hazard domain and the threads agree.

    Every slot of a thread's record announces exactly what a frame of its stack
    has pinned there, records are owned by one thread each, and the scan cursors
    held by threads point to published records. *)
From S2P Require Import Prelude Hazard SnapCell SnapMachine.

Section HazardInv.
Context {V : Type}.
Implicit Types (s : state V) (th : thread V) (f : frame V) (st : list (frame V)).

(** The slot a frame has pinned and the address announced there. *)
Definition frame_pin f : option (nat * addr) :=
  match f with
  | FValidate _ _ p i | FProtect _ _ p _ i | FReading _ p _ i | FKeep _ _ p _ i
  | FIncr _ p _ i | FUnpin _ p i _ _ => Some (i, p_addr p)
  | _ => None
  end.

Definition stack_pins st : list (nat * addr) := omap frame_pin st.

(** The frames below the top are closures and destructors that called the frame
    above them. *)
Definition stack_shape st : Prop :=
  match st with
  | [] => True
  | _ :: rest => Forall (fun f => user_frame f = true) rest
  end.

(** What the top frame's locals mean: a thread inside [acquire_record] has no
    record yet, and cursors point to published records. *)
Definition top_wf (h : hazard) th : Prop :=
  match th_stack th with
  | (FAcqHead _ _ _ | FAcqLoad _ _ _ | FAcqCas _ _ _ _) :: _ =>
      th_local th = None /\ th_tls th = true
  | FAcqTry _ _ _ cursor :: _ =>
      th_local th = None /\ th_tls th = true /\
      match cursor with Some r => r < length (records h) | None => True end
  | FWaitScan _ _ _ _ _ _ r _ _ :: _ => r < length (records h)
  | _ => True
  end.

(** The announcements of the thread's record are the pins of its stack. *)
Definition pins_ok (h : hazard) th : Prop :=
  match th_local th with
  | None => stack_pins (th_stack th) = []
  | Some r =>
      record_in_use h r /\ NoDup (stack_pins (th_stack th)).*1 /\
      forall i a, slot_load h r i = Some a <-> (i, a) ∈ stack_pins (th_stack th)
  end.

Record thread_ok (h : hazard) th : Prop := {
  ok_pins : pins_ok h th;
  ok_shape : stack_shape (th_stack th);
  ok_top : top_wf h th;
  ok_tls : th_tls th = false -> th_local th = None;
}.

(** The invariant. *)
Record hazard_inv s : Prop := {
  hi_wf : hz_wf (hz s);
  hi_thread t : thread_ok (hz s) (thread_of s t);
  hi_owner t u r : th_local (thread_of s t) = Some r -> th_local (thread_of s u) = Some r -> t = u;
}.

(** ** Threads after an update *)

Lemma thread_of_set_thread t th s u :
  thread_of (set_thread t th s) u = if decide (t = u) then th else thread_of s u.
Proof.
  unfold thread_of, set_thread. simpl. rewrite lookup_insert. by case_decide.
Qed.

Lemma thread_of_goto t th st s u :
  thread_of (goto t th st s) u = if decide (t = u) then set_stack st th else thread_of s u.
Proof. apply thread_of_set_thread. Qed.

Lemma thread_of_return t th st ret s u :
  thread_of (return_ t th st ret s) u = if decide (t = u) then set_stack st th else thread_of s u.
Proof. unfold return_. by rewrite thread_of_goto. Qed.

(** The threads of [s'] are those of [s], except that [t] is now [th]. *)
Definition threads_upd s s' t th : Prop :=
  forall u, thread_of s' u = if decide (t = u) then th else thread_of s u.

Lemma threads_upd_same s s' t th :
  (forall u, thread_of s' u = thread_of s u) -> th = thread_of s t -> threads_upd s s' t th.
Proof. intros Hu -> u. rewrite Hu. by case_decide; subst. Qed.

(** ** Stability *)

(** A change of the domain that leaves a record alone and only adds records. *)
Definition record_same (h h' : hazard) (r : nat) : Prop :=
  (record_in_use h r -> record_in_use h' r) /\ forall i, slot_load h' r i = slot_load h r i.

Lemma thread_ok_stable h h' th :
  thread_ok h th ->
  length (records h) <= length (records h') ->
  (forall r, th_local th = Some r -> record_same h h' r) ->
  thread_ok h' th.
Proof.
  intros [Hp Hs Ht Hl] Hlen Hsame. split; [|done| |done].
  - unfold pins_ok in *. destruct (th_local th) as [r|]; [|done].
    destruct (Hsame r eq_refl) as [Hu Hload]. destruct Hp as (Hin & Hnd & Hiff).
    repeat split; [by apply Hu|done|..]; rewrite Hload; apply Hiff.
  - unfold top_wf in *. split_matches; intuition lia.
Qed.

(** Thread [t] changes together with the domain; every other thread's record is
    left alone. *)
Lemma hazard_inv_step s s' t th :
  hazard_inv s ->
  threads_upd s s' t th ->
  hz_wf (hz s') ->
  length (records (hz s)) <= length (records (hz s')) ->
  (forall u r, u <> t -> th_local (thread_of s u) = Some r -> record_same (hz s) (hz s') r) ->
  thread_ok (hz s') th ->
  (forall r, th_local th = Some r ->
     th_local (thread_of s t) = Some r \/ ~ record_in_use (hz s) r) ->
  hazard_inv s'.
Proof.
  intros Hinv Hupd Hwf Hlen Hother Hok Hown.
  assert (forall u r, u <> t -> th_local (thread_of s u) = Some r -> th_local th = Some r -> False)
    as Hne.
  { intros u r Hu Hr Hr'. destruct (Hown r Hr') as [Ht|Hnot].
    - by apply Hu, (hi_owner _ Hinv u t r).
    - apply Hnot. pose proof (ok_pins _ _ (hi_thread _ Hinv u)) as Hp.
      unfold pins_ok in Hp. rewrite Hr in Hp. apply Hp. }
  split; [done| |].
  - intros u. rewrite Hupd. case_decide; [by subst|].
    eapply thread_ok_stable; [apply Hinv|done|]. intros r Hr. by eapply Hother.
  - intros u1 u2 r. rewrite !Hupd. repeat case_decide; subst; [done|..].
    + intros H1 H2. by destruct (Hne u2 r).
    + intros H1 H2. by destruct (Hne u1 r).
    + apply Hinv.
Qed.

(** The domain does not change, nor do the record and the pins of [t]. *)
Lemma hazard_inv_local s s' t th :
  hazard_inv s ->
  threads_upd s s' t th ->
  hz s' = hz s ->
  th_local th = th_local (thread_of s t) ->
  th_tls th = th_tls (thread_of s t) ->
  stack_pins (th_stack th) = stack_pins (th_stack (thread_of s t)) ->
  stack_shape (th_stack th) ->
  top_wf (hz s) th ->
  hazard_inv s'.
Proof.
  intros Hinv Hupd Hhz Hloc Htls Hpins Hshape Htop.
  eapply (hazard_inv_step s s' t th); rewrite ?Hhz; try done.
  - apply Hinv.
  - destruct (hi_thread _ Hinv t) as [Hp _ _ Hl]. split; [|done|done|by rewrite Hloc, Htls].
    unfold pins_ok in *. by rewrite Hloc, Hpins.
  - rewrite Hloc. by left.
Qed.

(** ** Publishing, moving and clearing an announcement *)

(** The top frame's pin at slot [i] becomes [x]; the frames below do not use it. *)
Lemma pins_ok_store h th th' r i x f rest :
  hz_wf h -> pins_ok h th -> th_local th = Some r ->
  th_stack th = f :: rest ->
  i < SLOTS -> i ∉ (stack_pins rest).*1 ->
  match frame_pin f with
  | Some (j, _) => j = i
  | None => True
  end ->
  th_local th' = Some r ->
  stack_pins (th_stack th') = (pair i <$> option_list x) ++ stack_pins rest ->
  pins_ok (slot_store h r i x) th'.
Proof.
  intros Hwf Hp Hr Hst Hi Hfresh Hf Hr' Hst'. unfold pins_ok in *. rewrite Hr in Hp.
  rewrite Hr'. rewrite Hst in Hp. rewrite Hst'. destruct Hp as (Hin & Hnd & Hiff).
  assert (NoDup (stack_pins rest).*1) as Hnd'.
  { simpl in Hnd. destruct (frame_pin f); [|done]. by apply NoDup_cons in Hnd as [_ ?]. }
  split; [by apply record_in_use_slot_store|]. split.
  - destruct x as [a|]; simpl; [|done]. by constructor.
  - intros j b. rewrite slot_load_store by done.
    assert (forall b', (i, b') ∈ stack_pins rest -> False) as Hno.
    { intros b' Hb. apply Hfresh, list_elem_of_fmap. by exists (i, b'). }
    destruct (decide (i = j)) as [<-|Hij].
    + rewrite decide_True by done. destruct x as [a|]; simpl.
      * rewrite elem_of_cons. split; [intros [= ->]; by left|].
        intros [[= ->]|?]; [done|by destruct (Hno b)].
      * split; [done|]. intros ?; by destruct (Hno b).
    + rewrite decide_False by tauto. rewrite Hiff. simpl.
      destruct (frame_pin f) as [[j' a']|]; [subst j'|]; destruct x; simpl;
        rewrite ?elem_of_cons; naive_solver.
Qed.

(** A pinned slot exists, and the frames below the top pin other slots. *)
Lemma top_pin_slot h th r f rest i a :
  hz_wf h -> pins_ok h th -> th_local th = Some r -> th_stack th = f :: rest ->
  frame_pin f = Some (i, a) -> i < SLOTS /\ i ∉ (stack_pins rest).*1.
Proof.
  intros Hwf Hp Hr Hst Hf. unfold pins_ok in Hp. rewrite Hr, Hst in Hp. simpl in Hp.
  rewrite Hf in Hp. destruct Hp as ((rec & Hrec & _) & Hnd & Hiff).
  simpl in Hnd. apply NoDup_cons in Hnd as [Hni _]. split; [|done].
  assert (slot_load h r i = Some a) as Hl by (apply Hiff; left).
  unfold slot_load in Hl. rewrite Hrec in Hl. simpl in Hl.
  apply bind_Some in Hl as (x & Hx & _). rewrite <- (hz_len _ Hwf _ _ Hrec).
  by eapply lookup_lt_Some.
Qed.

(** A thread with a pinned frame has a record. *)
Lemma pinned_local h th f rest ia :
  pins_ok h th -> th_stack th = f :: rest -> frame_pin f = Some ia ->
  exists r, th_local th = Some r.
Proof.
  intros Hp Hst Hf. unfold pins_ok in Hp. destruct (th_local th) as [r|]; [by exists r|].
  rewrite Hst in Hp. simpl in Hp. by rewrite Hf in Hp.
Qed.

(** A free slot is used by no frame. *)
Lemma free_slot_fresh h th r rec i :
  pins_ok h th -> th_local th = Some r -> hz_wf h -> records h !! r = Some rec ->
  find_free (slots rec) = Some i ->
  i < SLOTS /\ i ∉ (stack_pins (th_stack th)).*1.
Proof.
  intros Hp Hr Hwf Hrec Hfree%find_free_Some. split.
  - rewrite <- (hz_len _ Hwf _ _ Hrec). by eapply lookup_lt_Some.
  - unfold pins_ok in Hp. rewrite Hr in Hp. destruct Hp as (_ & _ & Hiff).
    intros ([j a] & -> & Hin)%list_elem_of_fmap. apply Hiff in Hin. unfold slot_load in Hin.
    rewrite Hrec in Hin. simpl in Hin, Hfree. by rewrite Hfree in Hin.
Qed.

(** A record just claimed announces nothing. *)
Lemma claimed_pins_ok h h' th r st' :
  hz_wf h -> pins_ok h th -> th_local th = None ->
  (forall i, slot_load h' r i = None) -> record_in_use h' r ->
  stack_pins st' = stack_pins (th_stack th) ->
  pins_ok h' (set_stack st' (set_local (Some r) th)).
Proof.
  intros Hwf Hp Hl Hnone Hu Hst. unfold pins_ok in *. rewrite Hl in Hp. simpl.
  rewrite Hst, Hp. split; [done|]. split; [constructor|]. intros i a. rewrite Hnone.
  split; [done|by intros ?%elem_of_nil].
Qed.

Lemma slot_load_free h r rec i :
  hz_wf h -> records h !! r = Some rec -> in_use rec = false -> slot_load h r i = None.
Proof.
  intros Hwf Hr Hu. unfold slot_load. rewrite Hr. simpl. rewrite (hz_free _ Hwf _ _ Hr Hu).
  destruct (replicate SLOTS None !! i) as [x|] eqn:E; [|done].
  by apply lookup_replicate in E as [-> _].
Qed.

(** ** Preservation *)

Lemma threads_upd_goto s s0 t th st :
  (forall u, thread_of s0 u = thread_of s u) ->
  threads_upd s (goto t th st s0) t (set_stack st th).
Proof. intros Hs u. by rewrite thread_of_goto, Hs. Qed.

Lemma threads_upd_return s s0 t th st ret :
  (forall u, thread_of s0 u = thread_of s u) ->
  threads_upd s (return_ t th st ret s0) t (set_stack st th).
Proof. intros Hs u. by rewrite thread_of_return, Hs. Qed.

Lemma record_same_store h r r' i x :
  hz_wf h -> record_in_use h r -> i < SLOTS -> r <> r' ->
  record_same h (slot_store h r i x) r'.
Proof.
  intros Hwf Hu Hi Hne. split; [by rewrite record_in_use_slot_store|].
  intros j. rewrite slot_load_store, decide_False by tauto. done.
Qed.

(** The cases that store to a slot of the thread's own record. *)
Lemma hazard_inv_slot_store s s' t r i x f rest st' :
  hazard_inv s -> th_stack (thread_of s t) = f :: rest ->
  th_local (thread_of s t) = Some r ->
  i < SLOTS -> i ∉ (stack_pins rest).*1 ->
  match frame_pin f with Some (j, _) => j = i | None => True end ->
  threads_upd s s' t (set_stack st' (thread_of s t)) ->
  hz s' = slot_store (hz s) r i x ->
  stack_pins st' = (pair i <$> option_list x) ++ stack_pins rest ->
  stack_shape st' -> top_wf (hz s') (set_stack st' (thread_of s t)) ->
  hazard_inv s'.
Proof.
  intros Hinv Hst Hr Hi Hfresh Hf Hupd Hhz Hpins Hshape Htop.
  pose proof (hi_wf _ Hinv) as Hwf. destruct (hi_thread _ Hinv t) as [Hp _ _ Hl].
  assert (record_in_use (hz s) r) as Hu.
  { unfold pins_ok in Hp. rewrite Hr in Hp. apply Hp. }
  eapply (hazard_inv_step s s' t); try done; rewrite ?Hhz.
  - auto with registry.
  - by rewrite length_slot_store.
  - intros u r' Hut Hr'. apply record_same_store; try done. intros <-.
    by apply Hut, (hi_owner _ Hinv u t r).
  - split; [|done|by rewrite <- Hhz|done]. eapply pins_ok_store; try done.
  - simpl. rewrite Hr. by left.
Qed.

(** The cases that give the thread a record. *)
Lemma hazard_inv_claim s s' t r st' :
  hazard_inv s -> th_local (thread_of s t) = None -> th_tls (thread_of s t) = true ->
  threads_upd s s' t (set_stack st' (set_local (Some r) (thread_of s t))) ->
  hz_wf (hz s') -> length (records (hz s)) <= length (records (hz s')) ->
  (forall r', r' <> r -> record_same (hz s) (hz s') r') ->
  ~ record_in_use (hz s) r -> record_in_use (hz s') r ->
  (forall i, slot_load (hz s') r i = None) ->
  stack_pins st' = stack_pins (th_stack (thread_of s t)) -> stack_shape st' ->
  top_wf (hz s') (set_stack st' (set_local (Some r) (thread_of s t))) ->
  hazard_inv s'.
Proof.
  intros Hinv Hl Htls Hupd Hwf Hlen Hsame Hfree Hu Hnone Hpins Hshape Htop.
  pose proof (ok_pins _ _ (hi_thread _ Hinv t)) as Hp.
  eapply (hazard_inv_step s s' t); try done.
  - intros u r' Hut Hr'. apply Hsame. intros ->. apply Hfree.
    pose proof (ok_pins _ _ (hi_thread _ Hinv u)) as Hpu. unfold pins_ok in Hpu.
    rewrite Hr' in Hpu. apply Hpu.
  - split; [|done|done|simpl; congruence]. by eapply claimed_pins_ok; [apply Hinv|..].
  - simpl. intros r' [= <-]. by right.
Qed.

Lemma claim_effect h r h' :
  hz_wf h -> try_claim h r = Some h' ->
  hz_wf h' /\ length (records h) = length (records h') /\
  (forall r', r' <> r -> record_same h h' r') /\
  ~ record_in_use h r /\ record_in_use h' r /\ forall i, slot_load h' r i = None.
Proof.
  intros Hwf Hc. pose proof (try_claim_Some _ _ _ Hc) as (rec & Hr & Hu & Heq).
  split; [by eapply try_claim_wf|]. split; [by subst h'; simpl; rewrite length_insert|].
  split; [|split; [|split]].
  - intros r' Hne. split.
    + intros (rec' & Hr' & Hu'). exists rec'. rewrite (records_claim _ _ _ _ Hc).
      by rewrite decide_False by done.
    + intros i. by eapply slot_load_claim.
  - intros (rec' & Hr' & Hu'). congruence.
  - exists (set_in_use rec true). rewrite (records_claim _ _ _ _ Hc), decide_True by done.
    by rewrite Hr.
  - intros i. rewrite (slot_load_claim _ _ _ _ _ Hc). by eapply slot_load_free.
Qed.

Lemma publish_effect h head r h' :
  hz_wf h -> try_publish h head = Some (r, h') ->
  hz_wf h' /\ length (records h) <= length (records h') /\
  (forall r', r' <> r -> record_same h h' r') /\
  ~ record_in_use h r /\ record_in_use h' r /\ forall i, slot_load h' r i = None.
Proof.
  intros Hwf Hc. pose proof (try_publish_Some _ _ _ _ Hc) as (Hh & -> & Heq).
  split; [by eapply try_publish_wf|].
  split; [subst h'; simpl; rewrite length_app; lia|]. split; [|split; [|split]].
  - intros r' Hne. split.
    + intros (rec' & Hr' & Hu'). exists rec'. subst h'. simpl. by rewrite (lookup_app_l_Some _ _ _ _ Hr').
    + intros i. by eapply slot_load_publish.
  - intros (rec' & Hr' & _). apply lookup_lt_Some in Hr'. lia.
  - exists (fresh_record head). subst h'. simpl. rewrite lookup_app_r, Nat.sub_diag by lia. done.
  - intros i. rewrite (slot_load_publish _ _ _ _ _ _ Hc). unfold slot_load.
    by rewrite lookup_ge_None_2.
Qed.

(** The facts about thread [t] that every case uses. *)
Ltac hz_facts t Hinv Hst :=
  pose proof (hi_wf _ Hinv) as Hwf;
  destruct (hi_thread _ Hinv t) as [Hp Hsh Htop Htl];
  unfold top_wf in Htop; rewrite Hst in Hsh, Htop; simpl in Hsh.

Lemma user_shape st : Forall (fun f => user_frame f = true) st -> stack_shape st.
Proof. destruct 1; done. Qed.

Lemma user_top_wf h th : Forall (fun f => user_frame f = true) (th_stack th) -> top_wf h th.
Proof. unfold top_wf. intros Hu. destruct Hu as [|f st Hf _]; [done|]. by destruct f. Qed.

(** Closes the cases in which [t] moves to another frame with the same pins. *)
Ltac hz_local :=
  eapply hazard_inv_local;
    [ eassumption
    | first [ apply threads_upd_goto | apply threads_upd_return
            | apply threads_upd_same; [|reflexivity] ]; done
    | done | done | done
    | simpl; match goal with H : th_stack _ = _ |- _ => rewrite ?H end; done
    | simpl; match goal with H : th_stack _ = _ |- _ => rewrite ?H end;
      first [ done | by constructor | by apply user_shape ]
    | first [ by apply user_top_wf | idtac ];
      unfold top_wf; simpl; match goal with H : th_stack _ = _ |- _ => rewrite ?H end;
      first [ done | intuition (try done; try lia) | idtac ] ].

(** The newest record, if any, is published. *)
Lemma head_lt h : hz_wf h -> match HEAD h with Some r => r < length (records h) | None => True end.
Proof. intros Hwf. rewrite (hz_head _ Hwf). destruct (length (records h)); simpl; lia. Qed.

Lemma next_lt h r rec :
  hz_wf h -> records h !! r = Some rec ->
  match next rec with Some r' => r' < length (records h) | None => True end.
Proof.
  intros Hwf Hr. rewrite (hz_next _ Hwf _ _ Hr). apply lookup_lt_Some in Hr.
  destruct r; simpl; lia.
Qed.

Lemma step_protect_hazard sp t f rest s s' :
  hazard_inv s -> th_stack (thread_of s t) = f :: rest ->
  step_protect sp t (thread_of s t) rest f s = Ok s' -> hazard_inv s'.
Proof.
  intros Hinv Hst Hstep. hz_facts t Hinv Hst. pose proof (head_lt _ Hwf) as Hhead.
  unfold step_protect in Hstep. destruct f; try done; step_cases Hstep;
    try (try destruct k; by hz_local).
  - (* publish in a free slot *)
    destruct (free_slot_fresh (hz s) (thread_of s t) n h n0) as [Hi Hfr]; try done.
    eapply (hazard_inv_slot_store s _ t n n0 (Some (p_addr p)) (FPin c k p) rest
              (FValidate c k p n0 :: rest)); try done.
    + by rewrite Hst in Hfr.
    + by apply threads_upd_goto.
  - (* a released record is claimed *)
    destruct (claim_effect (hz s) n h0) as (? & Hlen & ? & ? & ? & ?); try done.
    eapply (hazard_inv_claim s _ t n (FPin c k p :: rest)); simpl; try tauto; try done.
    + by apply threads_upd_goto.
    + lia.
    + by rewrite Hst.
  - (* the next record is tried *)
    pose proof (next_lt _ _ _ Hwf Heqo). by hz_local.
  - (* a new record is published *)
    destruct (publish_effect (hz s) head n h) as (? & Hlen & ? & ? & ? & ?); try done.
    eapply (hazard_inv_claim s _ t n (FPin c k p :: rest)); simpl; try tauto; try done.
    + by apply threads_upd_goto.
    + by rewrite Hst.
  - (* the announcement moves to the new current value *)
    destruct (top_pin_slot (hz s) (thread_of s t) n (FProtect c k p q i) rest i (p_addr p))
      as [Hi Hfr]; try done.
    eapply (hazard_inv_slot_store s _ t n i (Some (p_addr q)) (FProtect c k p q i) rest
              (FValidate c k q i :: rest)); try done.
    by apply threads_upd_goto.
Qed.

Lemma step_release_hazard t f rest s s' :
  hazard_inv s -> th_stack (thread_of s t) = f :: rest ->
  step_release t (thread_of s t) rest f s = Ok s' -> hazard_inv s'.
Proof.
  intros Hinv Hst Hstep. hz_facts t Hinv Hst.
  unfold step_release in Hstep. destruct f; try done; step_cases Hstep; try by hz_local.
  all: match goal with H : th_stack _ = ?f :: _ |- _ =>
         destruct (top_pin_slot (hz s) (thread_of s t) n f rest i (p_addr p)) as [Hi Hfr]; try done
       end.
  - eapply (hazard_inv_slot_store s _ t n i None _ rest rest); try done.
    + by apply threads_upd_return.
    + by apply user_shape.
    + by apply user_top_wf.
  - eapply (hazard_inv_slot_store s _ t n i None _ rest (FCheck c ret :: rest)); try done.
    by apply threads_upd_goto.
Qed.

Lemma step_fallback_hazard t f rest s s' :
  hazard_inv s -> th_stack (thread_of s t) = f :: rest ->
  step_fallback t (thread_of s t) rest f s = Ok s' -> hazard_inv s'.
Proof.
  intros Hinv Hst Hstep. hz_facts t Hinv Hst.
  unfold step_fallback in Hstep. destruct f; try done; step_cases Hstep; by hz_local.
Qed.

Lemma step_crit_hazard oa c k t rest cl cr s s' :
  hazard_inv s -> th_stack (thread_of s t) = FCrit c k :: rest ->
  step_crit oa c k t (thread_of s t) rest cl cr s = Ok s' -> hazard_inv s'.
Proof.
  intros Hinv Hst Hstep. hz_facts t Hinv Hst.
  unfold step_crit, after_unlock in Hstep. destruct cr; step_cases Hstep; by hz_local.
Qed.

Lemma hazard_inv_wait_next s t f rest c cof round since p ps cursor found :
  hazard_inv s -> th_stack (thread_of s t) = f :: rest -> frame_pin f = None ->
  Forall (fun f => user_frame f = true) rest ->
  match cursor with Some r => r < length (records (hz s)) | None => True end ->
  hazard_inv (goto t (thread_of s t) (wait_next c cof round since p ps cursor found :: rest) s).
Proof.
  intros Hinv Hst Hf Hu Hcur.
  assert (stack_pins (th_stack (thread_of s t)) = stack_pins rest) as Hpins.
  { rewrite Hst. simpl. by rewrite Hf. }
  unfold wait_next. destruct cursor as [r|]; [|destruct found].
  all: eapply hazard_inv_local; [eassumption|by apply threads_upd_goto|done..].
Qed.

Lemma step_wait_hazard t f rest s s' :
  hazard_inv s -> th_stack (thread_of s t) = f :: rest ->
  step_wait t (thread_of s t) rest f s = Ok s' -> hazard_inv s'.
Proof.
  intros Hinv Hst Hstep. hz_facts t Hinv Hst.
  unfold step_wait in Hstep. destruct f; try done; step_cases Hstep; try by hz_local.
  all: eapply hazard_inv_wait_next; try done; first [by apply head_lt|by eapply next_lt].
Qed.

Lemma step_user_hazard a t f rest s s' :
  hazard_inv s -> th_stack (thread_of s t) = f :: rest ->
  step_user a t (thread_of s t) f rest s = Ok s' -> hazard_inv s'.
Proof.
  intros Hinv Hst Hstep. hz_facts t Hinv Hst.
  unfold step_user in Hstep. destruct f, a; try done; step_cases Hstep; try done; by hz_local.
Qed.

(** At thread exit the record is cleared and released. *)
Lemma exit_hazard s t :
  hazard_inv s -> th_stack (thread_of s t) = [] ->
  hazard_inv (set_thread t (Thread None false (th_depth (thread_of s t)) [])
                (set_hz (Local_drop (hz s) (th_local (thread_of s t))) s)).
Proof.
  intros Hinv Hst. pose proof (hi_wf _ Hinv) as Hwf.
  eapply (hazard_inv_step s _ t); try done.
  - intros u. by rewrite thread_of_set_thread.
  - simpl. by apply Local_drop_wf.
  - simpl. destruct (th_local (thread_of s t)); simpl; [rewrite length_alter|]; done.
  - simpl. intros u r Hu Hr. destruct (th_local (thread_of s t)) as [r0|] eqn:Hr0; [|done].
    assert (r0 <> r) as Hne by (intros ->; by apply Hu, (hi_owner _ Hinv u t r)).
    split.
    + intros (rec & Hrec & Hin). exists rec. by rewrite records_local_drop, decide_False.
    + intros i. unfold slot_load. by rewrite records_local_drop, decide_False.
  - by split.
  - done.
Qed.

(** Starting a call or dropping something pushes an unpinned frame. *)
Lemma push_hazard s s0 t f :
  hazard_inv s -> in_user_code (th_stack (thread_of s t)) = true ->
  (forall u, thread_of s0 u = thread_of s u) -> hz s0 = hz s ->
  frame_pin f = None -> (forall h th, top_wf h (set_stack (f :: th_stack (thread_of s t)) th)) ->
  hazard_inv (goto t (thread_of s t) (f :: th_stack (thread_of s t)) s0).
Proof.
  intros Hinv Hu Hs Hhz Hf Htop. destruct (hi_thread _ Hinv t) as [_ Hsh _ _].
  eapply hazard_inv_local; [eassumption|by apply threads_upd_goto|done|done|done|..].
  - simpl. by rewrite Hf.
  - simpl. destruct (th_stack (thread_of s t)) as [|g st]; simpl in *; by constructor.
  - apply Htop.
Qed.

Lemma hazard_inv_init : hazard_inv init.
Proof.
  split; [apply hazard_init_wf|..]; unfold thread_of; simpl; intros *; rewrite lookup_empty; [|done].
  by split.
Qed.

Lemma step_hazard_inv t a s s' : hazard_inv s -> step t a s = Ok s' -> hazard_inv s'.
Proof.
  intros Hinv Hstep. destruct (step_cases_of _ _ _ _ Hstep).
  - by eapply step_protect_hazard.
  - by eapply step_release_hazard.
  - by eapply step_fallback_hazard.
  - by eapply step_crit_hazard.
  - by eapply step_wait_hazard.
  - by eapply step_user_hazard.
  - destruct (op_entry_cases _ _ _ _ Ho) as (c & cl & _ & _ & [[k ->]|[[g ->]| ->]]); subst s';
      by apply push_hazard.
  - unfold step_new in Hs. step_cases Hs.
    eapply (hazard_inv_local s _ t (thread_of s t)); [eassumption|by apply threads_upd_same|..];
      try done; apply Hinv.
  - unfold step_drop_cell in Hs. step_cases Hs. by apply push_hazard.
  - subst s'. by apply push_hazard.
  - subst s'. by apply exit_hazard.
Qed.

Lemma reachable_hazard_inv s : reachable s -> hazard_inv s.
Proof. induction 1; [apply hazard_inv_init|by eapply step_hazard_inv]. Qed.
End HazardInv.
