(* ===== verification/SnapArcInv.v ===== *)
(** Second invariant of the machine: strong counts are exact.

    The [Arc]s of a state are the handles of the clients, what each cell owns
    (the current value, the retired ones, the locals of the lock holder) and what
    the frames of each thread own.  An allocation is live exactly as long as some
    [Arc] points to it, and its strong count is the number of such [Arc]s. *)
From S2P Require Import Prelude Hazard SnapCell SnapMachine SnapHazardInv.

Section ArcInv.
Context {V : Type}.
Implicit Types (s : state V) (th : thread V) (f : frame V) (st : list (frame V))
  (cl : cell V) (P : ptr -> bool).

(** ** The [Arc]s of a state *)

Definition crit_arcs (cr : crit V) : list ptr :=
  match cr with
  | CStore _ new => [new]
  | CUnlock freed => freed
  | LUnlock arc => [arc]
  | _ => []
  end.

Definition cell_arcs cl : list ptr :=
  current cl :: retired cl ++ match writer cl with Some (_, cr) => crit_arcs cr | None => [] end.

Definition lkind_arcs (k : lkind V) : list ptr :=
  match k with LkReclaim ret => option_list ret | _ => [] end.

Definition dkind_arcs (d : dkind) : list ptr :=
  match d with DOp _ ret => option_list ret | _ => [] end.

Definition frame_arcs f : list ptr :=
  match f with
  | FUnpin _ _ _ ret _ | FCheck _ ret | FTryLock _ ret => option_list ret
  | FLock _ k | FCrit _ k => lkind_arcs k
  | FFbReading _ arc => [arc]
  | FDrop d l => dkind_arcs d ++ l
  | _ => []
  end.

Definition stack_arcs st : list ptr := st ≫= frame_arcs.

(** How many [Arc]s of the state satisfy [P]. *)
Definition tot P s : nat :=
  cnt P (handles s) + msum (fun cl => cnt P (cell_arcs cl)) (cells s)
  + msum (fun th => cnt P (stack_arcs (th_stack th))) (threads s).

Definition b2n (b : bool) : nat := if b then 1 else 0.

Lemma tot_set_thread P t th s :
  tot P (set_thread t th s) + cnt P (stack_arcs (th_stack (thread_of s t))) =
  tot P s + cnt P (stack_arcs (th_stack th)).
Proof.
  unfold tot, set_thread, thread_of. simpl.
  set (g := fun th : thread V => cnt P (stack_arcs (th_stack th))).
  destruct (threads s !! t) as [th0|] eqn:Ht; simpl.
  - pose proof (msum_insert g _ _ _ th Ht) as E. subst g. simpl in E. lia.
  - rewrite (msum_insert_fresh g) by done. subst g. simpl. lia.
Qed.

Lemma tot_goto P t th st s st0 :
  th_stack (thread_of s t) = st0 ->
  tot P (goto t th st s) + cnt P (stack_arcs st0) = tot P s + cnt P (stack_arcs st).
Proof. intros <-. apply tot_set_thread. Qed.

Lemma tot_set_handles P l s :
  tot P (set_handles l s) + cnt P (handles s) = tot P s + cnt P l.
Proof. unfold tot. simpl. lia. Qed.

Lemma tot_return P t th st ret s st0 :
  th_stack (thread_of s t) = st0 ->
  tot P (return_ t th st ret s) + cnt P (stack_arcs st0) =
  tot P s + cnt P (stack_arcs st) + cnt P (option_list ret).
Proof.
  intros <-. unfold return_.
  pose proof (tot_goto P t th st (set_handles (handles s ++ option_list ret) s)
    (th_stack (thread_of s t)) eq_refl) as E.
  pose proof (tot_set_handles P (handles s ++ option_list ret) s) as E2.
  rewrite cnt_app in E2. lia.
Qed.

Lemma tot_set_cell P c cl s cl0 :
  cells s !! c = Some cl0 ->
  tot P (set_cell c cl s) + cnt P (cell_arcs cl0) = tot P s + cnt P (cell_arcs cl).
Proof.
  intros Hc. unfold tot, set_cell. cbn [handles cells threads].
  pose proof (msum_insert (fun cl => cnt P (cell_arcs cl)) _ _ _ cl Hc) as E. cbv beta in E. lia.
Qed.

Lemma tot_new_cell P c cl s :
  cells s !! c = None -> tot P (set_cell c cl s) = tot P s + cnt P (cell_arcs cl).
Proof.
  intros Hc. unfold tot, set_cell. cbn [handles cells threads].
  rewrite (msum_insert_fresh (fun cl => cnt P (cell_arcs cl))) by done. cbv beta. lia.
Qed.

Lemma tot_del_cell P c s cl :
  cells s !! c = Some cl -> tot P (del_cell c s) + cnt P (cell_arcs cl) = tot P s.
Proof.
  intros Hc. unfold tot, del_cell. cbn [handles cells threads].
  rewrite (msum_delete (fun cl => cnt P (cell_arcs cl)) (cells s) c cl) by done. cbv beta. lia.
Qed.

Lemma tot_cell_le P s c cl : cells s !! c = Some cl -> cnt P (cell_arcs cl) <= tot P s.
Proof.
  intros Hc. unfold tot.
  pose proof (msum_lookup_le (fun cl => cnt P (cell_arcs cl)) _ _ _ Hc). cbv beta in *. lia.
Qed.

Lemma tot_thread_le P s t : cnt P (stack_arcs (th_stack (thread_of s t))) <= tot P s.
Proof.
  unfold tot, thread_of. destruct (threads s !! t) as [th|] eqn:Ht; simpl; [|lia].
  pose proof (msum_lookup_le (fun th => cnt P (stack_arcs (th_stack th))) _ _ _ Ht).
  cbv beta in *. lia.
Qed.

Lemma tot_ext P Q s : (forall p, P p = Q p) -> tot P s = tot Q s.
Proof.
  intros HPQ. assert (forall l, cnt P l = cnt Q l) as Hc.
  { induction l as [|x l IH]; simpl; [done|]. by rewrite HPQ, IH. }
  unfold tot. rewrite Hc. f_equal; [f_equal|]; apply msum_ext; intros; apply Hc.
Qed.

Lemma cnt_le_impl P Q l : (forall p, P p = true -> Q p = true) -> cnt P l <= cnt Q l.
Proof.
  intros HPQ. induction l as [|x l IH]; simpl; [lia|].
  destruct (P x) eqn:E; [rewrite (HPQ _ E); lia|]. destruct (Q x); lia.
Qed.

Lemma tot_mono P Q s : (forall p, P p = true -> Q p = true) -> tot P s <= tot Q s.
Proof.
  intros HPQ. assert (forall l, cnt P l <= cnt Q l) as Hle by (intros; by apply cnt_le_impl).
  assert (forall (A : Type) (F : A -> list ptr) (m : gmap nat A),
    msum (fun x => cnt P (F x)) m <= msum (fun x => cnt Q (F x)) m) as Hm.
  { intros A F m. induction m as [|k x m Hk IH] using map_ind; [by rewrite !msum_empty|].
    rewrite !msum_insert_fresh by done. specialize (Hle (F x)). cbv beta. lia. }
  unfold tot. pose proof (Hle (handles s)). pose proof (Hm _ cell_arcs (cells s)).
  pose proof (Hm _ (fun th => stack_arcs (th_stack th)) (threads s)). cbv beta in *. lia.
Qed.

(** ** The invariant and its four kinds of change *)

Definition at_addr (a : addr) (p : ptr) : bool := bool_decide (p_addr p = a).

(** Points to address [a] but not to allocation [g]. *)
Definition stale_at (a : addr) (g : nat) (p : ptr) : bool :=
  bool_decide (p_addr p = a /\ p_gen p <> g).

Record arc_inv s : Prop := {
  ai_live a b : heap s !! a = Some b ->
    b_strong b = tot (at_addr a) s /\ 0 < b_strong b /\
    tot (stale_at a (b_gen b)) s = 0 /\ b_gen b < next_gen s;
  ai_dead a : heap s !! a = None -> tot (at_addr a) s = 0;
}.

(** Is [p] an [Arc] of the state? *)
Definition has_arc s (p : ptr) : Prop := 0 < tot (fun q => bool_decide (q = p)) s.

(** An [Arc] of the state points to its own, live, allocation. *)
Lemma arc_live s p :
  arc_inv s -> has_arc s p -> exists b, heap s !! p_addr p = Some b /\ b_gen b = p_gen p.
Proof.
  intros Hinv Hp. unfold has_arc in Hp.
  assert (forall Q, Q p = true -> 0 < tot Q s) as Hpos.
  { intros Q HQ. eapply Nat.lt_le_trans; [exact Hp|]. apply tot_mono.
    by intros q ->%bool_decide_eq_true. }
  destruct (heap s !! p_addr p) as [b|] eqn:Hb.
  - exists b. split; [done|]. destruct (ai_live _ Hinv _ _ Hb) as (_ & _ & Hst & _).
    destruct (decide (b_gen b = p_gen p)) as [|Hne]; [done|].
    pose proof (Hpos (stale_at (p_addr p) (b_gen b))) as H0.
    rewrite Hst in H0. unfold stale_at in H0. rewrite bool_decide_eq_true_2 in H0 by done. lia.
  - pose proof (Hpos (at_addr (p_addr p))) as H0. rewrite (ai_dead _ Hinv _ Hb) in H0.
    unfold at_addr in H0. rewrite bool_decide_eq_true_2 in H0 by done. lia.
Qed.

Lemma has_arc_cell s c cl p : cells s !! c = Some cl -> p ∈ cell_arcs cl -> has_arc s p.
Proof.
  intros Hc Hp. unfold has_arc. eapply Nat.lt_le_trans; [|by eapply tot_cell_le].
  eapply cnt_elem_of; [done|]. by apply bool_decide_eq_true.
Qed.

Lemma has_arc_frame s t f p :
  f ∈ th_stack (thread_of s t) -> p ∈ frame_arcs f -> has_arc s p.
Proof.
  intros Hf Hp. unfold has_arc. eapply Nat.lt_le_trans; [|by eapply (tot_thread_le _ s t)].
  eapply cnt_elem_of; [|by apply bool_decide_eq_true]. apply list_elem_of_bind. by exists f.
Qed.

(** What a step may do to the heap and the [Arc]s: move [Arc]s around, clone one
    the state already has, drop one, or allocate. *)
Inductive arc_effect s s' : Prop :=
  | ae_none (Hheap : heap s' = heap s) (Hgen : next_gen s' = next_gen s)
      (Htot : forall P, tot P s' = tot P s)
  | ae_clone p b (Hb : heap s !! p_addr p = Some b) (Hp : has_arc s p)
      (Hheap : heap s' = <[p_addr p := set_block_strong (S (b_strong b)) b]> (heap s))
      (Hgen : next_gen s' = next_gen s)
      (Htot : forall P, tot P s' = tot P s + b2n (P p))
  | ae_drop p b (Hb : heap s !! p_addr p = Some b)
      (Hheap : heap s' = if decide (b_strong b <= 1) then delete (p_addr p) (heap s)
                  else <[p_addr p := set_block_strong (b_strong b - 1) b]> (heap s))
      (Hgen : next_gen s' = next_gen s)
      (Htot : forall P, tot P s' + b2n (P p) = tot P s)
  | ae_alloc a v (Hb : heap s !! a = None)
      (Hheap : heap s' = <[a := Block (next_gen s) v 1]> (heap s))
      (Hgen : next_gen s' = S (next_gen s))
      (Htot : forall P, tot P s' = tot P s + b2n (P (Ptr a (next_gen s)))).

Lemma at_addr_self p : at_addr (p_addr p) p = true.
Proof. by apply bool_decide_eq_true. Qed.

Lemma at_addr_other a p : p_addr p <> a -> at_addr a p = false.
Proof. intros. by apply bool_decide_eq_false. Qed.

Lemma stale_at_other a g p : p_addr p <> a -> stale_at a g p = false.
Proof. intros. apply bool_decide_eq_false. tauto. Qed.

Lemma stale_at_gen a p : stale_at a (p_gen p) p = false.
Proof. apply bool_decide_eq_false. tauto. Qed.

Lemma arc_inv_none s s' :
  arc_inv s -> heap s' = heap s -> next_gen s' = next_gen s ->
  (forall P, tot P s' = tot P s) -> arc_inv s'.
Proof.
  intros Hinv Hheap Hgen Htot. split; rewrite Hheap, ?Hgen.
  - intros a b Hb. rewrite !Htot. by apply Hinv.
  - intros a Hb. rewrite Htot. by apply Hinv.
Qed.

Lemma arc_inv_clone s s' p b :
  arc_inv s -> heap s !! p_addr p = Some b -> has_arc s p ->
  heap s' = <[p_addr p := set_block_strong (S (b_strong b)) b]> (heap s) ->
  next_gen s' = next_gen s -> (forall P, tot P s' = tot P s + b2n (P p)) -> arc_inv s'.
Proof.
  intros Hinv Hb Hp Hheap Hgen Htot.
  destruct (arc_live _ _ Hinv Hp) as (b' & Hb' & Hg). simplify_eq.
  split; rewrite Hheap, ?Hgen; intros a; rewrite lookup_insert.
  - intros b0. case_decide as Ha; [intros [= <-]|]; rewrite !Htot.
    + subst a. destruct (ai_live _ Hinv _ _ Hb) as (H1 & H2 & H3 & H4). simpl.
      rewrite at_addr_self, Hg, stale_at_gen, <- Hg. simpl. lia.
    + rewrite at_addr_other, stale_at_other, !Nat.add_0_r by done. apply Hinv.
  - case_decide as Ha; [done|]. rewrite Htot.
    rewrite at_addr_other, Nat.add_0_r by done. apply Hinv.
Qed.

Lemma arc_inv_drop s s' p b :
  arc_inv s -> heap s !! p_addr p = Some b ->
  heap s' = (if decide (b_strong b <= 1) then delete (p_addr p) (heap s)
             else <[p_addr p := set_block_strong (b_strong b - 1) b]> (heap s)) ->
  next_gen s' = next_gen s -> (forall P, tot P s' + b2n (P p) = tot P s) -> arc_inv s'.
Proof.
  intros Hinv Hb Hheap Hgen Htot.
  assert (b_gen b = p_gen p) as Hg.
  { destruct (arc_live s p Hinv) as (b' & Hb' & Hg); [|congruence].
    unfold has_arc. specialize (Htot (fun q => bool_decide (q = p))). cbv beta in Htot.
    rewrite bool_decide_eq_true_2 in Htot by done. simpl in Htot. lia. }
  destruct (ai_live _ Hinv _ _ Hb) as (H1 & H2 & H3 & H4).
  assert (forall a, p_addr p <> a -> heap s' !! a = heap s !! a) as Hother.
  { intros a Ha. rewrite Hheap.
    case_decide; [by rewrite lookup_delete_ne|by rewrite lookup_insert_ne]. }
  assert (forall P, P p = false -> tot P s' = tot P s) as Hsame.
  { intros P HP. specialize (Htot P). rewrite HP in Htot. simpl in Htot. lia. }
  pose proof (Htot (at_addr (p_addr p))) as Ta. rewrite at_addr_self in Ta. simpl in Ta.
  split; rewrite ?Hgen; intros a; destruct (decide (p_addr p = a)) as [<-|Ha].
  - intros b0. rewrite Hheap. case_decide; [by rewrite lookup_delete_eq|].
    rewrite lookup_insert_eq. intros [= <-]. simpl.
    rewrite (Hsame (stale_at _ _)) by (rewrite Hg; apply stale_at_gen). lia.
  - intros b0. rewrite Hother by done. rewrite !Hsame by (by auto using at_addr_other, stale_at_other).
    apply Hinv.
  - rewrite Hheap. case_decide; [intros _; lia|by rewrite lookup_insert_eq].
  - rewrite Hother by done. rewrite Hsame by (by apply at_addr_other). apply Hinv.
Qed.

Lemma arc_inv_alloc s s' a v :
  arc_inv s -> heap s !! a = None ->
  heap s' = <[a := Block (next_gen s) v 1]> (heap s) -> next_gen s' = S (next_gen s) ->
  (forall P, tot P s' = tot P s + b2n (P (Ptr a (next_gen s)))) -> arc_inv s'.
Proof.
  intros Hinv Hb Hheap Hgen Htot.
  split; rewrite Hheap, ?Hgen; intros a'; rewrite lookup_insert.
  - intros b. case_decide as Ha; [intros [= <-]|]; rewrite !Htot.
    + subst a'. simpl. pose proof (ai_dead _ Hinv _ Hb) as H0. rewrite H0.
      pose proof (at_addr_self (Ptr a (next_gen s))) as Hat. simpl in Hat. rewrite Hat.
      pose proof (stale_at_gen a (Ptr a (next_gen s))) as Hs. simpl in Hs. rewrite Hs.
      assert (tot (stale_at a (next_gen s)) s <= tot (at_addr a) s) as Hle.
      { apply tot_mono. intros p [Hp _]%bool_decide_eq_true. by apply bool_decide_eq_true. }
      simpl. lia.
    + rewrite at_addr_other, stale_at_other, !Nat.add_0_r by done. intros Hb'.
      destruct (ai_live _ Hinv _ _ Hb') as (H1 & H2 & H3 & H4). lia.
  - case_decide as Ha; [done|]. rewrite Htot.
    rewrite at_addr_other, Nat.add_0_r by done. apply Hinv.
Qed.

Lemma arc_inv_effect s s' : arc_inv s -> arc_effect s s' -> arc_inv s'.
Proof.
  intros Hinv [ | | | ].
  - by eapply arc_inv_none.
  - by eapply arc_inv_clone.
  - by eapply arc_inv_drop.
  - by eapply arc_inv_alloc.
Qed.
End ArcInv.
