(* ===== verification/SnapLockInv.v ===== *)
(** Third invariant of the machine: the writer locks.

    A lock is held exactly by the thread whose top frame is a critical section of
    that cell, the holder's locals belong to that critical section and are
    consistent with the cell, and every cell a frame borrows exists. *)
From S2P Require Import Prelude Hazard SnapCell SnapMachine SnapHazardInv.

Section LockInv.
Context {V : Type}.
Implicit Types (s : state V) (th : thread V) (f : frame V) (st : list (frame V))
  (cl : cell V) (cr : crit V) (k : lkind V).

(** Which accesses belong to which critical section. *)
Definition kind_ok k cr : Prop :=
  match k, cr with
  | LkUpdate _, (CLoad _ | CNew _ _ | CStore _ _ | CHead | CScan _ _ _ | CFinish _ | CUnlock _)
  | LkReclaim _, (CHead | CScan _ _ _ | CFinish _ | CUnlock _)
  | (LkFallback | LkArc _), (LLoad | LIncr _ | LUnlock _)
  | LkWait _ _ _, (WCopy | WUnlock _) => True
  | _, _ => False
  end.

(** The holder's pointer is still the current one, its cursor a published record. *)
Definition crit_ok (h : hazard) cl cr : Prop :=
  match cr with
  | CNew raw _ | CStore raw _ | LIncr raw | LUnlock raw => raw = current cl
  | CScan r j _ => r < length (records h) /\ j < SLOTS
  | _ => True
  end.

Record lock_inv s : Prop := {
  li_holder c cl t cr :
    cells s !! c = Some cl -> writer cl = Some (t, cr) ->
    exists k rest, th_stack (thread_of s t) = FCrit c k :: rest /\
      kind_ok k cr /\ crit_ok (hz s) cl cr;
  li_crit t c k rest :
    th_stack (thread_of s t) = FCrit c k :: rest ->
    exists cl cr, cells s !! c = Some cl /\ writer cl = Some (t, cr);
  li_cells t f c :
    f ∈ th_stack (thread_of s t) -> frame_cell f = Some c -> is_Some (cells s !! c);
}.

(** The frame is not a critical section. *)
Definition no_crit st : Prop := forall c k rest, st <> FCrit c k :: rest.

Lemma crit_ok_mono h h' cl cl' cr :
  length (records h) <= length (records h') -> current cl' = current cl ->
  crit_ok h cl cr -> crit_ok h' cl' cr.
Proof. intros Hlen Hc. destruct cr; simpl; rewrite ?Hc; intuition lia. Qed.

(** A step that changes no cell, outside the critical sections. *)
Lemma lock_inv_local s s' t th :
  lock_inv s -> threads_upd s s' t th -> cells s' = cells s ->
  length (records (hz s)) <= length (records (hz s')) ->
  no_crit (th_stack (thread_of s t)) -> no_crit (th_stack th) ->
  (forall f c, f ∈ th_stack th -> frame_cell f = Some c -> is_Some (cells s !! c)) ->
  lock_inv s'.
Proof.
  intros Hinv Hupd Hcells Hlen Hold Hnew Hfr. split.
  - intros c cl u cr. rewrite Hcells. intros Hc Hw.
    destruct (li_holder _ Hinv _ _ _ _ Hc Hw) as (k & rest & Hst & Hk & Hcr).
    rewrite Hupd. case_decide as E; [subst u; by destruct (Hold c k rest)|].
    exists k, rest. split; [done|]. split; [done|]. by eapply crit_ok_mono.
  - intros u c k rest. rewrite Hupd, Hcells.
    case_decide; [intros Hst; by destruct (Hnew c k rest)|apply Hinv].
  - intros u f c. rewrite Hupd, Hcells. case_decide; [apply Hfr|apply Hinv].
Qed.

(** A step of [t] that rewrites cell [c] (and possibly its lock). *)
Lemma lock_inv_cell s s' t th c cl cl' :
  lock_inv s -> threads_upd s s' t th ->
  cells s !! c = Some cl -> cells s' = <[c := cl']> (cells s) ->
  length (records (hz s)) <= length (records (hz s')) ->
  (forall u cr, writer cl = Some (u, cr) -> u <> t ->
     writer cl' = Some (u, cr) /\ current cl' = current cl) ->
  (forall u cr, writer cl' = Some (u, cr) -> u <> t -> writer cl = Some (u, cr)) ->
  (forall cr, writer cl' = Some (t, cr) ->
     exists k rest, th_stack th = FCrit c k :: rest /\ kind_ok k cr /\ crit_ok (hz s') cl' cr) ->
  (forall c' k rest, th_stack (thread_of s t) = FCrit c' k :: rest -> c' = c) ->
  (forall c' k rest, th_stack th = FCrit c' k :: rest ->
     c' = c /\ exists cr, writer cl' = Some (t, cr)) ->
  (forall f c, f ∈ th_stack th -> frame_cell f = Some c -> is_Some (cells s !! c)) ->
  lock_inv s'.
Proof.
  intros Hinv Hupd Hc Hcells Hlen Hoth Hoth' Hown Hold Hnew Hfr. split.
  - intros c0 cl0 u cr. rewrite Hcells, lookup_insert. case_decide as E.
    + intros [= <-] Hw. subst c0. rewrite Hupd. case_decide; [by subst; apply Hown|].
      assert (writer cl = Some (u, cr)) as Hw0 by (by apply Hoth').
      destruct (li_holder _ Hinv _ _ _ _ Hc Hw0) as (k & rest & Hst & Hk & Hcr).
      exists k, rest. split; [done|]. split; [done|].
      eapply crit_ok_mono; [done| |done]. by eapply Hoth.
    + intros Hc0 Hw. destruct (li_holder _ Hinv _ _ _ _ Hc0 Hw) as (k & rest & Hst & Hk & Hcr).
      rewrite Hupd. case_decide; [subst u; by destruct E; symmetry; eapply Hold|].
      exists k, rest. split; [done|]. split; [done|]. by eapply crit_ok_mono.
  - intros u c0 k rest. rewrite Hupd, Hcells. case_decide as E.
    + subst u. intros Hst. destruct (Hnew _ _ _ Hst) as [-> [cr Hcr]]. exists cl', cr.
      by rewrite lookup_insert_eq.
    + intros Hst. destruct (li_crit _ Hinv _ _ _ _ Hst) as (cl0 & cr & Hc0 & Hw).
      rewrite lookup_insert. case_decide as E'; [|by exists cl0, cr].
      subst c0. simplify_eq. exists cl', cr. split; [done|]. apply Hoth; [done|congruence].
  - intros u f c0 Hf Hfc. rewrite Hcells. apply lookup_insert_is_Some'. right.
    revert Hf Hfc. rewrite Hupd. case_decide; [apply Hfr|apply Hinv].
Qed.

(** ** Preservation *)

Lemma user_no_crit st : Forall (fun f => user_frame f = true) st -> no_crit st.
Proof. intros Hu c k rest ->. by apply Forall_inv in Hu. Qed.

(** The frames of the next stack borrow cells that exist. *)
Lemma frames_cells_cons s t f rest f' :
  lock_inv s -> th_stack (thread_of s t) = f :: rest ->
  (forall c, frame_cell f' = Some c -> frame_cell f = Some c \/ is_Some (cells s !! c)) ->
  forall g c, g ∈ f' :: rest -> frame_cell g = Some c -> is_Some (cells s !! c).
Proof.
  intros Hinv Hst Hf g c Hg Hc. apply elem_of_cons in Hg as [->|Hg].
  - destruct (Hf _ Hc) as [Hf'|?]; [|done].
    eapply (li_cells _ Hinv t f); [rewrite Hst; left|done].
  - eapply (li_cells _ Hinv t g); [rewrite Hst; by right|done].
Qed.

Lemma frames_cells_tail s t f rest :
  lock_inv s -> th_stack (thread_of s t) = f :: rest ->
  forall g c, g ∈ rest -> frame_cell g = Some c -> is_Some (cells s !! c).
Proof.
  intros Hinv Hst g c Hg Hc. eapply (li_cells _ Hinv t g); [rewrite Hst; by right|done].
Qed.

(** A step outside the locks: the top frame becomes [f'], or is popped. *)
Lemma lock_inv_goto s s' t f rest st' :
  lock_inv s -> hazard_inv s -> th_stack (thread_of s t) = f :: rest ->
  (exists th, threads_upd s s' t (set_stack st' th)) ->
  cells s' = cells s -> length (records (hz s)) <= length (records (hz s')) ->
  (forall c k, f <> FCrit c k) ->
  (st' = rest \/ exists f', st' = f' :: rest /\ (forall c k, f' <> FCrit c k) /\
     forall c, frame_cell f' = Some c -> frame_cell f = Some c \/ is_Some (cells s !! c)) ->
  lock_inv s'.
Proof.
  intros Hinv Hhi Hst [th Hupd] Hcells Hlen Hf Hst'.
  pose proof (ok_shape _ _ (hi_thread _ Hhi t)) as Hsh. rewrite Hst in Hsh. simpl in Hsh.
  eapply (lock_inv_local s s' t); try done.
  - rewrite Hst. intros c k r [= E _]. by destruct (Hf c k).
  - simpl. destruct Hst' as [->|(f' & -> & Hf' & _)]; [by apply user_no_crit|].
    intros c k r [= E _]. by destruct (Hf' c k).
  - simpl. destruct Hst' as [->|(f' & -> & _ & Hc)]; [by eapply frames_cells_tail|].
    by eapply frames_cells_cons.
Qed.

(** Closes the cases of [lock_inv_goto]. *)
Ltac lock_goto :=
  eapply lock_inv_goto;
    [ eassumption | eassumption | eassumption
    | eexists; first [ apply threads_upd_goto | apply threads_upd_return ]; done
    | done
    | simpl; rewrite ?length_alter; try done
    | done
    | first [ by left | right; eexists; split; [done|split; [done|by left]] ] ].

Lemma step_protect_lock sp t f rest s s' :
  lock_inv s -> hazard_inv s -> th_stack (thread_of s t) = f :: rest ->
  step_protect sp t (thread_of s t) rest f s = Ok s' -> lock_inv s'.
Proof.
  intros Hinv Hhi Hst Hstep. unfold step_protect in Hstep.
  destruct f; try done; step_cases Hstep; try (try destruct k; by lock_goto).
  - lock_goto. by destruct (claim_effect _ _ _ (hi_wf _ Hhi) Heqo0) as (_ & -> & _).
  - lock_goto. by destruct (publish_effect _ _ _ _ (hi_wf _ Hhi) Heqo) as (_ & ? & _).
Qed.

Lemma step_wait_lock t f rest s s' :
  lock_inv s -> hazard_inv s -> th_stack (thread_of s t) = f :: rest ->
  step_wait t (thread_of s t) rest f s = Ok s' -> lock_inv s'.
Proof.
  intros Hinv Hhi Hst Hstep. unfold step_wait in Hstep.
  destruct f; try done; step_cases Hstep; try by lock_goto.
  all: unfold wait_next; repeat case_match; by lock_goto.
Qed.

Lemma step_user_lock a t f rest s s' :
  lock_inv s -> hazard_inv s -> th_stack (thread_of s t) = f :: rest ->
  step_user a t (thread_of s t) f rest s = Ok s' -> lock_inv s'.
Proof.
  intros Hinv Hhi Hst Hstep. unfold step_user in Hstep.
  destruct f, a; try done; step_cases Hstep; try done; by lock_goto.
Qed.

(** The lock of [c] is free and [t] takes it. *)
Lemma lock_inv_acquire s t f rest c cl k :
  lock_inv s -> th_stack (thread_of s t) = f :: rest -> (forall c k, f <> FCrit c k) ->
  frame_cell f = Some c -> cells s !! c = Some cl -> writer cl = None ->
  lock_inv (goto t (thread_of s t) (FCrit c k :: rest)
              (set_cell c (set_writer (Some (t, crit_entry k)) cl) s)).
Proof.
  intros Hinv Hst Hf Hfc Hc Hw.
  eapply (lock_inv_cell s _ t); try done; simpl.
  - by apply threads_upd_goto.
  - intros u cr Hu. congruence.
  - intros u cr [= <- _]. done.
  - intros cr [= <-]. exists k, rest. split; [done|]. by destruct k.
  - intros c' k' r E. rewrite Hst in E. injection E as E _. by destruct (Hf c' k').
  - intros c' k' r [= -> _ _]. eauto.
  - eapply frames_cells_cons; [done..|]. simpl. intros ? [= <-]. by left.
Qed.

(** The fallback counter of [c] changes. *)
Lemma lock_inv_counter s t th' f rest st' c cl n :
  lock_inv s -> hazard_inv s -> th_stack (thread_of s t) = f :: rest ->
  (forall c k, f <> FCrit c k) -> cells s !! c = Some cl -> th_stack th' = st' ->
  (st' = rest \/ exists f', st' = f' :: rest /\ (forall c k, f' <> FCrit c k) /\
     forall c, frame_cell f' = Some c -> frame_cell f = Some c) ->
  lock_inv (set_thread t th' (set_cell c (set_fallback n cl) s)).
Proof.
  intros Hinv Hhi Hst Hf Hc Hth Hst'.
  pose proof (ok_shape _ _ (hi_thread _ Hhi t)) as Hsh. rewrite Hst in Hsh. simpl in Hsh.
  assert (no_crit st') as Hno.
  { destruct Hst' as [->|(f' & -> & Hf' & _)]; [by apply user_no_crit|].
    intros c0 k0 r0 [= E _]. by destruct (Hf' c0 k0). }
  eapply (lock_inv_cell s _ t th'); try done; simpl; rewrite ?Hth.
  - intros u. by rewrite thread_of_set_thread.
  - intros cr Hw. destruct (li_holder _ Hinv _ _ _ _ Hc Hw) as (k & r & E & _).
    rewrite Hst in E. injection E as E _. by destruct (Hf c k).
  - intros c' k' r E. rewrite Hst in E. injection E as E _. by destruct (Hf c' k').
  - intros c' k' r E. by destruct (Hno c' k' r).
  - destruct Hst' as [->|(f' & -> & _ & Hfc)]; [by eapply frames_cells_tail|].
    eapply frames_cells_cons; [done..|]. intros c0 Hc0. left. by apply Hfc.
Qed.

Lemma step_release_lock t f rest s s' :
  lock_inv s -> hazard_inv s -> th_stack (thread_of s t) = f :: rest ->
  step_release t (thread_of s t) rest f s = Ok s' -> lock_inv s'.
Proof.
  intros Hinv Hhi Hst Hstep. unfold step_release in Hstep.
  destruct f; try done; step_cases Hstep; try by lock_goto.
  by eapply (lock_inv_acquire s t _ rest c _ (LkReclaim ret)).
Qed.

Lemma step_fallback_lock t f rest s s' :
  lock_inv s -> hazard_inv s -> th_stack (thread_of s t) = f :: rest ->
  step_fallback t (thread_of s t) rest f s = Ok s' -> lock_inv s'.
Proof.
  intros Hinv Hhi Hst Hstep. unfold step_fallback in Hstep.
  destruct f; try done; step_cases Hstep; try by lock_goto.
  - eapply lock_inv_counter; try done. right. eexists. by split; [done|split].
  - by eapply lock_inv_acquire.
  - eapply lock_inv_counter; try done. by left.
Qed.

(** The holder moves to its next access. *)
Lemma lock_inv_continue s t c k rest cl cl' cr cr' s' :
  lock_inv s -> th_stack (thread_of s t) = FCrit c k :: rest ->
  cells s !! c = Some cl -> writer cl = Some (t, cr) ->
  threads s' = threads s -> hz s' = hz s ->
  cells s' = <[c := set_writer (Some (t, cr')) cl']> (cells s) ->
  kind_ok k cr' -> crit_ok (hz s) cl' cr' ->
  lock_inv s'.
Proof.
  intros Hinv Hst Hc Hw Hth Hhz Hcells Hk Hcr.
  assert (forall u, thread_of s' u = thread_of s u) as Hthr by (intros u; unfold thread_of; by rewrite Hth).
  eapply (lock_inv_cell s s' t (thread_of s t)); try done; rewrite ?Hhz; simpl; try done.
  - by apply threads_upd_same.
  - intros u cr0 E Hu. simplify_eq.
  - intros u cr0 E Hu. simplify_eq.
  - intros cr0 [= <-]. exists k, rest. split; [done|]. split; [done|].
    by eapply crit_ok_mono.
  - intros c' k' r E. rewrite Hst in E. congruence.
  - intros c' k' r E. rewrite Hst in E. injection E as <- _ _. eauto.
  - intros f c0. apply Hinv.
Qed.

(** The holder leaves the critical section. *)
Lemma lock_inv_unlock s s' t c k rest cl cr st' :
  lock_inv s -> hazard_inv s -> th_stack (thread_of s t) = FCrit c k :: rest ->
  cells s !! c = Some cl -> writer cl = Some (t, cr) ->
  threads_upd s s' t (set_stack st' (thread_of s t)) -> hz s' = hz s ->
  cells s' = <[c := set_writer None cl]> (cells s) ->
  (st' = rest \/ exists f', st' = f' :: rest /\ (forall c k, f' <> FCrit c k) /\
     frame_cell f' = Some c) ->
  lock_inv s'.
Proof.
  intros Hinv Hhi Hst Hc Hw Hupd Hhz Hcells Hst'.
  pose proof (ok_shape _ _ (hi_thread _ Hhi t)) as Hsh. rewrite Hst in Hsh. simpl in Hsh.
  assert (no_crit st') as Hno.
  { destruct Hst' as [->|(f' & -> & Hf' & _)]; [by apply user_no_crit|].
    intros c0 k0 r0 [= E _]. by destruct (Hf' c0 k0). }
  eapply (lock_inv_cell s s' t _ c cl); try done; rewrite ?Hhz; simpl; try done.
  - intros u cr0 E Hu. simplify_eq.
  - intros c' k' r E. rewrite Hst in E. congruence.
  - intros c' k' r E. by destruct (Hno c' k' r).
  - destruct Hst' as [->|(f' & -> & _ & Hfc)]; [by eapply frames_cells_tail|].
    eapply frames_cells_cons; [done..|]. simpl. intros c0 E. left. congruence.
Qed.

Lemma step_crit_lock oa c k t rest cl cr s s' :
  lock_inv s -> hazard_inv s -> th_stack (thread_of s t) = FCrit c k :: rest ->
  cells s !! c = Some cl -> writer cl = Some (t, cr) ->
  step_crit oa c k t (thread_of s t) rest cl cr s = Ok s' -> lock_inv s'.
Proof.
  intros Hinv Hhi Hst Hc Hw Hstep.
  assert (kind_ok k cr /\ crit_ok (hz s) cl cr) as [Hk Hcr].
  { destruct (li_holder _ Hinv _ _ _ _ Hc Hw) as (k' & rest' & E & Hk & Hcr).
    rewrite Hst in E. by injection E as <- _. }
  pose proof (hi_wf _ Hhi) as Hwf. pose proof (head_lt _ Hwf) as Hhead.
  unfold step_crit, after_unlock in Hstep. destruct cr, k; try done; step_cases Hstep.
  all: try by (eapply lock_inv_continue).
  all: try match goal with
    | |- lock_inv (set_cell _ (set_writer (Some (_, CScan _ _ _)) _) _) =>
        eapply lock_inv_continue; try done; simpl;
        try match goal with
            | H : records _ !! _ = Some _, E : next _ = Some _ |- _ =>
                pose proof (next_lt _ _ _ Hwf H) as Hn; rewrite E in Hn
            end; unfold SLOTS in *; lia
    end.
  all: eapply lock_inv_unlock; try done;
    first [ by apply threads_upd_goto | by apply threads_upd_return
          | by left | right; eexists; by split; [done|split] ].
Qed.

Lemma lock_inv_init : lock_inv (init : state V).
Proof.
  split; unfold thread_of; simpl; intros *; rewrite ?lookup_empty; simpl; try done.
  by intros ?%elem_of_nil.
Qed.

(** Pushing a frame from user code. *)
Lemma push_lock s s' t f :
  lock_inv s -> in_user_code (th_stack (thread_of s t)) = true ->
  threads_upd s s' t (set_stack (f :: th_stack (thread_of s t)) (thread_of s t)) ->
  cells s' = cells s -> hz s' = hz s -> (forall c k, f <> FCrit c k) ->
  (forall c, frame_cell f = Some c -> is_Some (cells s !! c)) ->
  lock_inv s'.
Proof.
  intros Hinv Hu Hupd Hcells Hhz Hf Hfc. eapply (lock_inv_local s s' t); try done.
  - by rewrite Hhz.
  - intros c k r E. by rewrite E in Hu.
  - simpl. intros c k r [= E _]. by destruct (Hf c k).
  - simpl. intros g c [->|Hg]%elem_of_cons; [apply Hfc|]. by eapply li_cells.
Qed.

Lemma drop_cell_lock s t c cl :
  lock_inv s -> in_user_code (th_stack (thread_of s t)) = true ->
  cells s !! c = Some cl ->
  (forall u f, f ∈ th_stack (thread_of s u) -> frame_cell f <> Some c) ->
  lock_inv (goto t (thread_of s t)
              (FDrop DHandle (current cl :: retired cl) :: th_stack (thread_of s t)) (del_cell c s)).
Proof.
  intros Hinv Hu Hc Hfree. set (f := FDrop DHandle (current cl :: retired cl)).
  assert (threads_upd s (goto t (thread_of s t) (f :: th_stack (thread_of s t)) (del_cell c s)) t
    (set_stack (f :: th_stack (thread_of s t)) (thread_of s t))) as Hupd
    by (by apply threads_upd_goto).
  split; simpl.
  - intros c0 cl0 u cr [Hne Hc0]%lookup_delete_Some Hw.
    destruct (li_holder _ Hinv _ _ _ _ Hc0 Hw) as (k & rest & Hst & Hk).
    rewrite Hupd. case_decide; [subst u; by rewrite Hst in Hu|]. by exists k, rest.
  - intros u c0 k rest. rewrite Hupd. case_decide; [done|]. intros Hst.
    destruct (li_crit _ Hinv _ _ _ _ Hst) as (cl0 & cr & Hc0 & Hw). exists cl0, cr.
    split; [|done]. rewrite lookup_delete_ne; [done|]. intros <-.
    apply (Hfree u (FCrit c k)); [rewrite Hst; left|done].
  - intros u g c0. rewrite Hupd. intros Hg Hgc.
    assert (g ∈ th_stack (thread_of s u) /\ is_Some (cells s !! c0)) as [Hin [cl0 Hc0]].
    { case_decide as E; [|split; [done|by eapply li_cells]]. subst u. simpl in Hg.
      apply elem_of_cons in Hg as [->|Hg]; [done|]. split; [done|by eapply li_cells]. }
    exists cl0. rewrite lookup_delete_ne; [done|]. intros <-. by apply (Hfree u g).
Qed.

(** The guard of [step_drop_cell]: no thread borrows the cell. *)
Lemma drop_guard s c :
  map_Forall (fun _ th => Forall (fun f => frame_cell f <> Some c) (th_stack th)) (threads s) ->
  forall u f, f ∈ th_stack (thread_of s u) -> frame_cell f <> Some c.
Proof.
  intros Hall u f Hf. unfold thread_of in Hf.
  destruct (threads s !! u) as [th|] eqn:Hu; simpl in Hf; [|by apply elem_of_nil in Hf].
  specialize (Hall u th Hu). simpl in Hall. by rewrite Forall_forall in Hall; apply Hall.
Qed.

Lemma step_lock_inv t a s s' :
  lock_inv s -> hazard_inv s -> step t a s = Ok s' -> lock_inv s'.
Proof.
  intros Hinv Hhi Hstep. destruct (step_cases_of _ _ _ _ Hstep).
  - by eapply step_protect_lock.
  - by eapply step_release_lock.
  - by eapply step_fallback_lock.
  - by eapply step_crit_lock.
  - by eapply step_wait_lock.
  - by eapply step_user_lock.
  - destruct (op_entry_cases _ _ _ _ Ho) as (c & cl & Hc & Hfc & Hf); subst s'.
    eapply push_lock; try done; [by apply threads_upd_goto|..].
    + by destruct Hf as [[k ->]|[[g ->]| ->]].
    + intros c' Hc'. exists cl. congruence.
  - unfold step_new in Hs. step_cases Hs. split; simpl.
    + intros c0 cl0 u cr. rewrite lookup_insert. case_decide; [by intros [= <-]|apply Hinv].
    + intros u c0 k rest Hst. destruct (li_crit _ Hinv _ _ _ _ Hst) as (cl0 & cr & Hc0 & Hw).
      exists cl0, cr. rewrite lookup_insert_ne; [done|]. congruence.
    + intros u f c0 Hf Hfc. apply lookup_insert_is_Some'. right. by eapply (li_cells _ Hinv).
  - unfold step_drop_cell in Hs. step_cases Hs. apply drop_cell_lock; try done.
    by apply drop_guard.
  - subst s'. eapply push_lock; try done; [by apply threads_upd_goto|intros ? ?; discriminate..].
  - subst s'. eapply (lock_inv_local s _ t); try done.
    + intros u. by rewrite thread_of_set_thread.
    + simpl. destruct (th_local _); simpl; [rewrite length_alter|]; done.
    + by rewrite Hst.
    + intros ? ? ?; discriminate.
    + simpl. intros ? ? []%elem_of_nil.
Qed.

Lemma reachable_lock_inv s : reachable s -> lock_inv s.
Proof.
  induction 1; [apply lock_inv_init|].
  eapply step_lock_inv; [done|by apply reachable_hazard_inv|done].
Qed.
End LockInv.
