(* ===== verification/SnapProtect.v ===== *)
(** Fourth invariant of the machine: hazard pointers protect what they announce.

    Once [protect] of src/src/snapshot.rs has validated an announcement, the
    allocation found there stays owned by the cell (as its current value or in
    the retired list) until the announcement is cleared: a collection that runs
    meanwhile has read, or is still going to read, the slot. *)
From S2P Require Import Prelude Hazard SnapCell SnapMachine SnapHazardInv SnapLockInv.

Section Protect.
Context {V : Type}.
Implicit Types (s : state V) (th : thread V) (f : frame V) (st : list (frame V))
  (cl : cell V) (cr : crit V).

(** The cell, address, allocation and slot of a frame that has validated. *)
Definition validated f : option (cid * addr * nat * nat) :=
  match f with
  | FReading c p g i | FKeep c _ p g i | FIncr c p g i => Some (c, p_addr p, g, i)
  | _ => None
  end.

(** The scan of the lock holder, if any, has seen [a] or will read slot [i] of
    record [r]. *)
Definition scan_sees (w : option (tid * crit V)) (r i : nat) (a : addr) : Prop :=
  match w with
  | Some (_, CScan r' j acc) => a ∈ acc \/ r < r' \/ (r = r' /\ j <= i)
  | Some (_, CFinish acc) => a ∈ acc
  | _ => True
  end.

Definition protects cl (r i : nat) (a : addr) (g : nat) : Prop :=
  Ptr a g ∈ current cl :: retired cl /\
  (Ptr a g = current cl \/ scan_sees (writer cl) r i a).

Definition prot_inv s : Prop :=
  forall t f c a g i,
    f ∈ th_stack (thread_of s t) -> validated f = Some (c, a, g, i) ->
    exists r cl, th_local (thread_of s t) = Some r /\ cells s !! c = Some cl /\
      slot_load (hz s) r i = Some a /\ protects cl r i a g.

(** A validated frame is pinned. *)
Lemma validated_pin f c a g i : validated f = Some (c, a, g, i) -> frame_pin f = Some (i, a).
Proof. by destruct f; intros; simplify_eq/=. Qed.

Lemma validated_cell f c a g i : validated f = Some (c, a, g, i) -> frame_cell f = Some c.
Proof. by destruct f; intros; simplify_eq/=. Qed.

(** The announcement of a validated frame, from the hazard invariant. *)
Lemma validated_slot s t f c a g i :
  hazard_inv s -> f ∈ th_stack (thread_of s t) -> validated f = Some (c, a, g, i) ->
  exists r, th_local (thread_of s t) = Some r /\ slot_load (hz s) r i = Some a.
Proof.
  intros Hhi Hf Hv%validated_pin. pose proof (ok_pins _ _ (hi_thread _ Hhi t)) as Hp.
  unfold pins_ok in Hp. assert ((i, a) ∈ stack_pins (th_stack (thread_of s t))) as Hin.
  { apply list_elem_of_omap. by exists f. }
  destruct (th_local (thread_of s t)) as [r|].
  - exists r. split; [done|]. by apply Hp.
  - rewrite Hp in Hin. by apply elem_of_nil in Hin.
Qed.

(** ** Steps *)

(** How a step may rewrite the cells: what some reader has validated in a cell
    stays protected. *)
Definition keeps_protected s s' : Prop :=
  forall t f c a g i r cl,
    f ∈ th_stack (thread_of s t) -> validated f = Some (c, a, g, i) ->
    cells s !! c = Some cl -> slot_load (hz s) r i = Some a -> protects cl r i a g ->
    exists cl', cells s' !! c = Some cl' /\ protects cl' r i a g.

Lemma prot_inv_step s s' t th :
  prot_inv s -> hazard_inv s' -> threads_upd s s' t th -> keeps_protected s s' ->
  (th_stack th = [] \/ th_local (thread_of s t) = None \/
    th_local th = th_local (thread_of s t)) ->
  (forall f v, f ∈ th_stack th -> validated f = Some v ->
     (exists f0, f0 ∈ th_stack (thread_of s t) /\ validated f0 = Some v) \/
     exists c cl' i, cells s' !! c = Some cl' /\
       v = (c, p_addr (current cl'), p_gen (current cl'), i)) ->
  prot_inv s'.
Proof.
  intros Hinv Hhi' Hupd Hkeep Hloc Hnew u f c a g i Hf Hv.
  destruct (validated_slot _ _ _ _ _ _ _ Hhi' Hf Hv) as (r & Hr & Hsl).
  assert ((exists f0, f0 ∈ th_stack (thread_of s u) /\ validated f0 = Some (c, a, g, i) /\
            (th_local (thread_of s u) = None \/ th_local (thread_of s u) = Some r)) \/
          exists cl', cells s' !! c = Some cl' /\ current cl' = Ptr a g) as [(f0 & Hin & Hv0 & Hl)|Hcur].
  { revert Hf Hr. rewrite Hupd. case_decide; [subst u|by left; eauto].
    intros Hf Hr. destruct (Hnew _ _ Hf Hv) as [(f0 & Hin & Hv0)|(c' & cl' & i' & Hc' & E)].
    - left. exists f0. repeat split; try done.
      destruct Hloc as [E|[?|Hloc]]; [|by left|right; congruence].
      rewrite E in Hf. by apply elem_of_nil in Hf.
    - right. exists cl'. simplify_eq. by destruct (current cl'). }
  - destruct (Hinv _ _ _ _ _ _ Hin Hv0) as (r' & cl & Hr' & Hc & Hsl' & Hp).
    destruct Hl as [Hl|Hl]; [congruence|]. assert (r' = r) as -> by congruence.
    destruct (Hkeep _ _ _ _ _ _ _ _ Hin Hv0 Hc Hsl' Hp) as (cl' & Hc' & Hp').
    by exists r, cl'.
  - destruct Hcur as (cl' & Hc' & Hcur). exists r, cl'. do 3 (split; [done|]).
    split; rewrite Hcur; [left|by left].
Qed.

Lemma keeps_protected_same s s' : cells s' = cells s -> keeps_protected s s'.
Proof. intros Hc t f c a g i r cl. rewrite Hc. eauto. Qed.

Lemma keeps_protected_cell s s' c cl cl' :
  cells s !! c = Some cl -> cells s' = <[c := cl']> (cells s) ->
  (forall r i a g, slot_load (hz s) r i = Some a -> protects cl r i a g -> protects cl' r i a g) ->
  keeps_protected s s'.
Proof.
  intros Hc Hcells Hpres t f c0 a g i r cl0 _ _ Hc0 Hsl Hp. rewrite Hcells, lookup_insert.
  case_decide; [subst c0; simplify_eq; eauto|eauto].
Qed.

(** A cell update that keeps the values and leaves no scan running. *)
Lemma protects_no_scan cl cl' :
  current cl' = current cl -> retired cl' = retired cl ->
  (forall r i a, scan_sees (writer cl') r i a) ->
  forall r i a g, protects cl r i a g -> protects cl' r i a g.
Proof. intros Hc Hr Hs r i a g [Hin _]. split; [by rewrite Hc, Hr|by right]. Qed.

Lemma slot_load_range h r i a :
  hz_wf h -> slot_load h r i = Some a -> r < length (records h) /\ i < SLOTS.
Proof.
  intros Hwf Hl. unfold slot_load in Hl. apply bind_Some in Hl as (rec & Hr & Hl).
  apply bind_Some in Hl as (x & Hx & _). split; [by eapply lookup_lt_Some|].
  rewrite <- (hz_len _ Hwf _ _ Hr). by eapply lookup_lt_Some.
Qed.

(** The steps of the scan: it starts above every published record, reads slot by
    slot downwards, and ends below all of them. *)
Lemma scan_start h cl t :
  hz_wf h ->
  forall r i a g, slot_load h r i = Some a -> protects cl r i a g ->
    protects (set_writer (Some (t, match retired cl, HEAD h with
                                   | _ :: _, Some r => CScan r 0 []
                                   | _, _ => CFinish []
                                   end)) cl) r i a g.
Proof.
  intros Hwf r i a g Hsl [Hin _]. destruct (slot_load_range _ _ _ _ Hwf Hsl) as [Hr Hi].
  split; [done|]. simpl. rewrite (hz_head _ Hwf). destruct (retired cl) as [|p l].
  - left. by apply list_elem_of_singleton in Hin.
  - right. destruct (length (records h)) as [|n]; simpl; [lia|]. right. lia.
Qed.

Lemma scan_step h cl t r' j acc rec :
  hz_wf h -> records h !! r' = Some rec -> writer cl = Some (t, CScan r' j acc) ->
  forall r i a g, slot_load h r i = Some a -> protects cl r i a g ->
    let acc := acc ++ option_list (slot_load h r' j) in
    protects (set_writer (Some (t,
      if decide (S j < SLOTS) then CScan r' (S j) acc
      else match next rec with Some r => CScan r 0 acc | None => CFinish acc end)) cl) r i a g.
Proof.
  intros Hwf Hrec Hw r i a g Hsl [Hin Hs]. destruct (slot_load_range _ _ _ _ Hwf Hsl) as [Hr Hi].
  split; [done|]. destruct Hs as [?|Hs]; [by left|right]. rewrite Hw in Hs. simpl in Hs.
  rewrite (hz_next _ Hwf _ _ Hrec). simpl.
  assert (a ∈ acc ++ option_list (slot_load h r' j) \/ r < r' \/ r = r' /\ S j <= i) as Hs'.
  { destruct Hs as [?|[?|[-> Hj]]]; [left; set_solver|auto|].
    destruct (decide (j = i)) as [->|]; [|right; right; lia].
    left. rewrite Hsl. set_solver. }
  case_decide; simpl; [done|]. destruct r' as [|r']; simpl.
  - destruct Hs' as [?|?]; [done|lia].
  - destruct Hs' as [?|?]; [by left|]. right. lia.
Qed.

Lemma scan_finish cl t acc kept freed w :
  writer cl = Some (t, CFinish acc) -> collect_unprotected acc (retired cl) = (kept, freed) ->
  (forall r i a, scan_sees w r i a) ->
  forall n r i a g, protects cl r i a g ->
    protects (set_writer w (set_retired_len n (set_retired kept cl))) r i a g.
Proof.
  intros Hw Hcol Hs n r i a g [Hin Hsee]. split; [|by right]. simpl.
  apply elem_of_cons in Hin as [->|Hin]; [left|]. destruct Hsee as [->|Hsee]; [left|].
  right. rewrite Hw in Hsee. by eapply collect_unprotected_keeps.
Qed.

(** ** Preservation *)

(** The top frame [f] becomes [st'] on top of [rest]. *)
Lemma prot_inv_top s s' t th f rest st' :
  prot_inv s -> hazard_inv s' -> th_stack (thread_of s t) = f :: rest ->
  threads_upd s s' t (set_stack (st' ++ rest) th) -> keeps_protected s s' ->
  (th_local (thread_of s t) = None \/ th_local th = th_local (thread_of s t)) ->
  (forall f' v, f' ∈ st' -> validated f' = Some v ->
     validated f = Some v \/
     exists c cl' i, cells s' !! c = Some cl' /\
       v = (c, p_addr (current cl'), p_gen (current cl'), i)) ->
  prot_inv s'.
Proof.
  intros Hinv Hhi' Hst Hupd Hkeep Hloc Hnew.
  eapply prot_inv_step; [done..|by right|]. simpl. rewrite Hst. intros f0 v Hf0 Hv.
  apply elem_of_app in Hf0 as [Hf0|Hf0].
  - destruct (Hnew _ _ Hf0 Hv) as [?|?]; [|by right]. left. exists f. split; [left|done].
  - left. exists f0. split; [by right|done].
Qed.

(** Closes the cases of [prot_inv_top], given the stack [st'] that replaces the
    top frame and why the cells stay good. *)
Ltac prot_top st' :=
  eapply (prot_inv_top _ _ _ _ _ _ st');
    [ eassumption | eassumption | eassumption
    | simpl; first [ apply threads_upd_goto | apply threads_upd_return ]; done
    | try by apply keeps_protected_same
    | try by right
    | intros ? ? Hin0 Hv0; rewrite ?elem_of_cons, ?elem_of_nil in Hin0;
      destruct_or?; subst; simplify_eq/=; auto; try done ].

Ltac prot_case :=
  match goal with
  | |- prot_inv (goto _ _ (?f' :: ?rest) _) => prot_top [f']
  | |- prot_inv (goto _ _ ?rest _) => prot_top (@nil (frame V))
  | |- prot_inv (return_ _ _ ?rest _ _) => prot_top (@nil (frame V))
  end.

Lemma step_protect_prot sp t f rest s s' :
  prot_inv s -> hazard_inv s -> hazard_inv s' -> th_stack (thread_of s t) = f :: rest ->
  step_protect sp t (thread_of s t) rest f s = Ok s' -> prot_inv s'.
Proof.
  intros Hinv Hhi Hhi' Hst Hstep. unfold step_protect in Hstep.
  pose proof (ok_top _ _ (hi_thread _ Hhi t)) as Htop. unfold top_wf in Htop. rewrite Hst in Htop.
  destruct f; try done; step_cases Hstep; prot_case.
  all: try (left; tauto).
  all: try (by destruct k).
  right. exists c, c0, i. split; [done|]. destruct k; simplify_eq/=; congruence.
Qed.

(** Taking the lock: no scan is running yet. *)
Lemma keeps_acquire s s' c cl t k :
  cells s !! c = Some cl ->
  cells s' = <[c := set_writer (Some (t, crit_entry k)) cl]> (cells s) -> keeps_protected s s'.
Proof.
  intros Hc Hcells. eapply keeps_protected_cell; [done..|]. intros r i a g _.
  apply protects_no_scan; [done..|]. by destruct k.
Qed.

(** The fallback counter plays no role. *)
Lemma keeps_counter s s' c cl n :
  cells s !! c = Some cl -> cells s' = <[c := set_fallback n cl]> (cells s) ->
  keeps_protected s s'.
Proof. intros Hc Hcells. by eapply keeps_protected_cell. Qed.

Lemma step_release_prot t f rest s s' :
  prot_inv s -> hazard_inv s -> hazard_inv s' -> th_stack (thread_of s t) = f :: rest ->
  step_release t (thread_of s t) rest f s = Ok s' -> prot_inv s'.
Proof.
  intros Hinv Hhi Hhi' Hst Hstep. unfold step_release in Hstep.
  destruct f; try done; step_cases Hstep; prot_case.
  by eapply (keeps_acquire _ _ _ _ _ (LkReclaim ret)).
Qed.

Lemma step_fallback_prot t f rest s s' :
  prot_inv s -> hazard_inv s -> hazard_inv s' -> th_stack (thread_of s t) = f :: rest ->
  step_fallback t (thread_of s t) rest f s = Ok s' -> prot_inv s'.
Proof.
  intros Hinv Hhi Hhi' Hst Hstep. unfold step_fallback in Hstep.
  destruct f; try done; step_cases Hstep; prot_case.
  all: first [ by eapply keeps_counter | by eapply keeps_acquire ].
Qed.

Lemma step_wait_prot t f rest s s' :
  prot_inv s -> hazard_inv s -> hazard_inv s' -> th_stack (thread_of s t) = f :: rest ->
  step_wait t (thread_of s t) rest f s = Ok s' -> prot_inv s'.
Proof.
  intros Hinv Hhi Hhi' Hst Hstep. unfold step_wait in Hstep.
  destruct f; try done; step_cases Hstep; prot_case.
  all: unfold wait_next in *; by repeat case_match.
Qed.

Lemma step_user_prot a t f rest s s' :
  prot_inv s -> hazard_inv s -> hazard_inv s' -> th_stack (thread_of s t) = f :: rest ->
  step_user a t (thread_of s t) f rest s = Ok s' -> prot_inv s'.
Proof.
  intros Hinv Hhi Hhi' Hst Hstep. unfold step_user in Hstep.
  destruct f, a; try done; step_cases Hstep; try done; prot_case.
Qed.

(** The holder moves to its next access, its stack unchanged. *)
Lemma prot_inv_cells s s' (t : tid) :
  prot_inv s -> hazard_inv s' -> threads s' = threads s -> keeps_protected s s' -> prot_inv s'.
Proof.
  intros Hinv Hhi' Hth Hkeep. eapply (prot_inv_step s s' t (thread_of s t)); [done..| |done|by right; right|].
  - apply threads_upd_same; [|done]. intros u. unfold thread_of. by rewrite Hth.
  - eauto.
Qed.

(** The holder installs a new value: the old one is now retired, and the scan has
    not started. *)
Lemma keeps_store s s' c cl t raw new :
  cells s !! c = Some cl -> raw = current cl ->
  cells s' = <[c := set_writer (Some (t, CHead))
                      (set_retired (retired cl ++ [raw]) (set_current new cl))]> (cells s) ->
  keeps_protected s s'.
Proof.
  intros Hc -> Hcells. eapply keeps_protected_cell; [done..|].
  intros r i a g _ [Hin _]. split; [simpl; set_solver|by right].
Qed.

(** One access of the scan, from the lemma [pf] about it. *)
Ltac scan_case pf rw :=
  eapply keeps_protected_cell; [done..|];
  let Hsl := fresh in let Hp := fresh in let H := fresh in
  intros ? ? ? ? Hsl Hp; pose proof (pf _ _ _ _ Hsl Hp) as H; rw H; exact H.

Lemma step_crit_prot oa c k t rest cl cr s s' :
  prot_inv s -> hazard_inv s -> lock_inv s -> hazard_inv s' ->
  th_stack (thread_of s t) = FCrit c k :: rest ->
  cells s !! c = Some cl -> writer cl = Some (t, cr) ->
  step_crit oa c k t (thread_of s t) rest cl cr s = Ok s' -> prot_inv s'.
Proof.
  intros Hinv Hhi Hli Hhi' Hst Hc Hw Hstep.
  assert (crit_ok (hz s) cl cr) as Hcr.
  { by destruct (li_holder _ Hli _ _ _ _ Hc Hw) as (k' & rest' & _ & _ & Hcr). }
  pose proof (hi_wf _ Hhi) as Hwf.
  unfold step_crit, after_unlock in Hstep. destruct cr; try done; step_cases Hstep; try prot_case.
  all: try (eapply (prot_inv_cells s _ t); [done|done|done|]).
  all: try by (eapply keeps_protected_cell; [done..|]; intros r0 i0 a0 g0 _; by apply protects_no_scan).
  - by eapply keeps_store.
  - scan_case (scan_start _ cl t Hwf) ltac:(fun H => rewrite Heql in H).
  - scan_case (scan_start _ cl t Hwf) ltac:(fun H => rewrite Heql, Heqo in H).
  - scan_case (scan_start _ cl t Hwf) ltac:(fun H => rewrite Heql, Heqo in H).
  - scan_case (scan_step _ _ t _ _ _ _ Hwf Heqo Hw) ltac:(fun H => rewrite Heqs0 in H).
  - scan_case (scan_step _ _ t _ _ _ _ Hwf Heqo Hw) ltac:(fun H => rewrite Heqs0, Heqo0 in H).
  - scan_case (scan_step _ _ t _ _ _ _ Hwf Heqo Hw) ltac:(fun H => rewrite Heqs0, Heqo0 in H).
  - eapply keeps_protected_cell; [done..|]. intros r0 i0 a0 g0 _. by eapply scan_finish.
Qed.

Lemma prot_inv_init : prot_inv (init : state V).
Proof. intros t f c a g i Hf. unfold thread_of in Hf. simpl in Hf. by apply elem_of_nil in Hf. Qed.

(** Pushing a frame from user code. *)
Lemma push_prot s s' t f :
  prot_inv s -> hazard_inv s' ->
  threads_upd s s' t (set_stack (f :: th_stack (thread_of s t)) (thread_of s t)) ->
  keeps_protected s s' -> validated f = None -> prot_inv s'.
Proof.
  intros Hinv Hhi' Hupd Hkeep Hv. eapply prot_inv_step; [done..|by right; right|].
  simpl. intros f0 v [->|Hf0]%elem_of_cons Hv0; [congruence|]. left. by exists f0.
Qed.

(** No frame borrows a cell that is dropped; a new cell is nobody's yet. *)
Lemma keeps_drop_cell s s' c :
  (forall u f, f ∈ th_stack (thread_of s u) -> frame_cell f <> Some c) ->
  cells s' = delete c (cells s) -> keeps_protected s s'.
Proof.
  intros Hfree Hcells t f c0 a g i r cl Hf Hv Hc _ Hp. exists cl. split; [|done].
  rewrite Hcells, lookup_delete_ne; [done|]. intros <-.
  by apply (Hfree t f Hf), (validated_cell f c a g i).
Qed.

Lemma keeps_new_cell s s' c cl :
  cells s !! c = None -> cells s' = <[c := cl]> (cells s) -> keeps_protected s s'.
Proof.
  intros Hn Hcells t f c0 a g i r cl0 _ _ Hc _ Hp. exists cl0. split; [|done].
  rewrite Hcells, lookup_insert_ne; [done|]. congruence.
Qed.

Lemma step_prot_inv t a s s' :
  prot_inv s -> hazard_inv s -> lock_inv s -> step t a s = Ok s' -> prot_inv s'.
Proof.
  intros Hinv Hhi Hli Hstep. pose proof (step_hazard_inv _ _ _ _ Hhi Hstep) as Hhi'.
  destruct (step_cases_of _ _ _ _ Hstep).
  - by eapply step_protect_prot.
  - by eapply step_release_prot.
  - by eapply step_fallback_prot.
  - by eapply step_crit_prot.
  - by eapply step_wait_prot.
  - by eapply step_user_prot.
  - destruct (op_entry_cases _ _ _ _ Ho) as (c & cl & Hc & Hfc & Hf); subst s'.
    eapply push_prot; [done..|by apply threads_upd_goto|by apply keeps_protected_same|].
    by destruct Hf as [[k ->]|[[g ->]| ->]].
  - unfold step_new in Hs. step_cases Hs. eapply (prot_inv_cells s _ t); [done..|].
    by eapply keeps_new_cell.
  - unfold step_drop_cell in Hs. step_cases Hs.
    eapply push_prot; [done..|by apply threads_upd_goto| |done].
    eapply keeps_drop_cell; [by apply drop_guard|done].
  - subst s'. eapply push_prot; [done..|by apply threads_upd_goto| |done].
    by apply keeps_protected_same.
  - subst s'. eapply (prot_inv_step s _ t); [done..| | | |].
    + intros u. by rewrite thread_of_set_thread.
    + by apply keeps_protected_same.
    + by left.
    + simpl. by intros f v ?%elem_of_nil.
Qed.

Lemma reachable_prot_inv s : reachable s -> prot_inv s.
Proof.
  induction 1; [apply prot_inv_init|].
  eapply step_prot_inv; eauto using reachable_hazard_inv, reachable_lock_inv.
Qed.
End Protect.
