(* ===== verification/SnapSafety.v ===== *)
(** Memory safety of [SnapCell] (src/src/snapshot.rs) under every interleaving.

    Every step of a reachable state keeps the strong counts exact, and no step
    touches memory that is not allocated. *)
From S2P Require Import Prelude Hazard SnapCell SnapMachine SnapTraces SnapHazardInv SnapArcInv.
From S2P Require Import SnapLockInv SnapProtect.

Section Safety.
Context {V : Type}.
Implicit Types (s : state V) (th : thread V) (f : frame V) (st : list (frame V))
  (cl : cell V) (cr : crit V) (P : ptr -> bool).

(** ** Every step has one of the four effects on the [Arc]s *)

Lemma stack_arcs_cons f st : stack_arcs (f :: st) = frame_arcs f ++ stack_arcs st.
Proof. done. Qed.

(** The [Arc]s of the next state, by the update lemmas of [tot]. *)
Ltac tot_facts :=
  repeat match goal with
  | Hst : th_stack (thread_of ?s ?t) = _ |- context [tot ?P (goto ?t ?th ?st ?s0)] =>
      let E := fresh "E" in
      pose proof (tot_goto P t th st s0 _ Hst) as E; revert E;
      generalize (tot P (goto t th st s0)); intros ? E
  | Hst : th_stack (thread_of ?s ?t) = _ |- context [tot ?P (return_ ?t ?th ?st ?ret ?s0)] =>
      let E := fresh "E" in
      pose proof (tot_return P t th st ret s0 _ Hst) as E; revert E;
      generalize (tot P (return_ t th st ret s0)); intros ? E
  end;
  repeat match goal with
  | Hc : cells ?s !! ?c = Some _, E : context [tot ?P (set_cell ?c ?cl ?s0)] |- _ =>
      let E' := fresh "E" in
      pose proof (tot_set_cell P c cl s0 _ Hc) as E'; revert E E';
      generalize (tot P (set_cell c cl s0)); intros ? E E'
  | Hc : cells ?s !! ?c = Some _ |- context [tot ?P (set_cell ?c ?cl ?s0)] =>
      let E' := fresh "E" in
      pose proof (tot_set_cell P c cl s0 _ Hc) as E'; revert E';
      generalize (tot P (set_cell c cl s0)); intros ? E'
  end.

Lemma cnt_option_None P : cnt P (option_list None) = 0.
Proof. done. Qed.

Lemma cnt_option_Some P p : cnt P (option_list (Some p)) = b2n (P p).
Proof. apply Nat.add_0_r. Qed.

(** Counts of explicit lists. *)
Ltac tot_solve :=
  repeat match goal with
  | E : context [tot ?P (set_heap ?h ?s)] |- _ => change (tot P (set_heap h s)) with (tot P s) in E
  | E : context [tot ?P (set_hz ?h ?s)] |- _ => change (tot P (set_hz h s)) with (tot P s) in E
  | E : context [tot ?P (alloc ?a ?v ?s)] |- _ => change (tot P (alloc a v s)) with (tot P s) in E
  end;
  unfold cell_arcs in *;
  repeat match goal with Hw : writer _ = _, E : context [writer _] |- _ => rewrite Hw in E end;
  rewrite ?stack_arcs_cons, ?cnt_app in *;
  cbn [fallback_entry protected_entry frame_arcs lkind_arcs dkind_arcs crit_arcs cnt app
       current retired writer set_writer set_current set_retired set_retired_len set_fallback
       p_addr p_gen b2n] in *;
  rewrite ?cnt_app, ?cnt_option_None, ?cnt_option_Some in *; cbn [cnt b2n app] in *.

Ltac tot_eq := intros P; tot_facts; tot_solve; try lia; unfold b2n in *; split_matches; lia.

Lemma step_protect_arcs sp t f rest s s' :
  th_stack (thread_of s t) = f :: rest ->
  step_protect sp t (thread_of s t) rest f s = Ok s' -> arc_effect s s'.
Proof.
  intros Hst Hstep. unfold step_protect in Hstep.
  destruct f; try done; step_cases Hstep; apply ae_none; try done; try destruct k; tot_eq.
Qed.

Lemma step_wait_arcs t f rest s s' :
  th_stack (thread_of s t) = f :: rest ->
  step_wait t (thread_of s t) rest f s = Ok s' -> arc_effect s s'.
Proof.
  intros Hst Hstep. unfold step_wait in Hstep.
  destruct f; try done; step_cases Hstep; apply ae_none; try done; unfold wait_next;
    repeat case_match; tot_eq.
Qed.

Lemma step_user_arcs a t f rest s s' :
  th_stack (thread_of s t) = f :: rest ->
  step_user a t (thread_of s t) f rest s = Ok s' -> arc_effect s s'.
Proof.
  intros Hst Hstep. unfold step_user in Hstep.
  destruct f, a; try done; step_cases Hstep; apply ae_none; try done; tot_eq.
Qed.

(** What a validated frame announces is an [Arc] of the cell. *)
Lemma validated_arc s t f c a g i :
  prot_inv s -> f ∈ th_stack (thread_of s t) -> validated f = Some (c, a, g, i) ->
  has_arc s (Ptr a g).
Proof.
  intros Hinv Hf Hv. destruct (Hinv _ _ _ _ _ _ Hf Hv) as (r & cl & _ & Hc & _ & Hin & _).
  eapply has_arc_cell; [done|]. unfold cell_arcs. set_solver.
Qed.

Lemma step_release_arcs t f rest s s' :
  prot_inv s -> th_stack (thread_of s t) = f :: rest ->
  step_release t (thread_of s t) rest f s = Ok s' -> arc_effect s s'.
Proof.
  intros Hinv Hst Hstep. unfold step_release in Hstep.
  destruct f; try done; step_cases Hstep; try (apply ae_none; try done; tot_eq).
  eapply (ae_clone _ _ (Ptr (p_addr p) g) b); [exact Hb| |done|done|tot_eq].
  eapply (validated_arc s t (FIncr c p g i)); [done| |done]. rewrite Hst. left.
Qed.

Lemma step_fallback_arcs t f rest s s' :
  th_stack (thread_of s t) = f :: rest ->
  step_fallback t (thread_of s t) rest f s = Ok s' -> arc_effect s s'.
Proof.
  intros Hst Hstep. unfold step_fallback in Hstep.
  destruct f; try done; step_cases Hstep; try (apply ae_none; try done; tot_eq).
  1: apply ae_none; try done; destruct k; tot_eq.
  all: eapply (ae_drop _ _ p); [done|done|done|tot_eq].
Qed.

Lemma step_crit_arcs oa c k t rest cl cr s s' :
  lock_inv s -> th_stack (thread_of s t) = FCrit c k :: rest ->
  cells s !! c = Some cl -> writer cl = Some (t, cr) ->
  step_crit oa c k t (thread_of s t) rest cl cr s = Ok s' -> arc_effect s s'.
Proof.
  intros Hli Hst Hc Hw Hstep.
  assert (crit_ok (hz s) cl cr) as Hcr.
  { by destruct (li_holder _ Hli _ _ _ _ Hc Hw) as (k' & rest' & _ & _ & Hcr). }
  unfold step_crit, after_unlock in Hstep. destruct cr; try done; step_cases Hstep.
  all: try (apply ae_none; [done|done|tot_eq]).
  - eapply (ae_alloc _ _ n v); [done|done|done|tot_eq].
  - apply ae_none; try done. intros P. apply collect_unprotected_perm in Heqp.
    pose proof (cnt_perm P _ _ Heqp) as Hcnt. revert P Hcnt. intros P. tot_facts. tot_solve. lia.
  - eapply (ae_clone _ _ (current cl) b); [done| |done|done|tot_eq].
    eapply has_arc_cell; [done|left].
Qed.

(** Dropping a cell: nobody holds its lock, so it owns its values only. *)
Lemma dropped_unlocked s c cl :
  lock_inv s -> cells s !! c = Some cl ->
  (forall u f, f ∈ th_stack (thread_of s u) -> frame_cell f <> Some c) -> writer cl = None.
Proof.
  intros Hli Hc Hfree. destruct (writer cl) as [[u cr]|] eqn:Hw; [|done].
  destruct (li_holder _ Hli _ _ _ _ Hc Hw) as (k & rest & Hst & _).
  destruct (Hfree u (FCrit c k)); [rewrite Hst; left|done].
Qed.

Lemma drop_cell_arcs s t c cl :
  writer cl = None -> cells s !! c = Some cl ->
  arc_effect s (goto t (thread_of s t)
    (FDrop DHandle (current cl :: retired cl) :: th_stack (thread_of s t)) (del_cell c s)).
Proof.
  intros Hw Hc. apply ae_none; [done..|]. intros P. remember (th_stack (thread_of s t)) as st eqn:Hst.
  symmetry in Hst. pose proof (tot_goto P t (thread_of s t)
    (FDrop DHandle (current cl :: retired cl) :: st) (del_cell c s) st Hst) as E.
  pose proof (tot_del_cell P c s cl Hc) as E2. tot_solve. lia.
Qed.

Lemma new_cell_arcs s c v a :
  cells s !! c = None -> heap s !! a = None ->
  arc_effect s (set_cell c (Cell (Ptr a (next_gen s)) 0 0 None []) (alloc a v s)).
Proof.
  intros Hc Ha. eapply (ae_alloc _ _ a v); [done..|]. intros P.
  pose proof (tot_new_cell P c (Cell (Ptr a (next_gen s)) 0 0 None []) (alloc a v s) Hc) as E.
  tot_solve. unfold b2n. lia.
Qed.

Lemma drop_handle_arcs s t p l :
  remove_one p (handles s) = Some l ->
  arc_effect s (goto t (thread_of s t) (FDrop DHandle [p] :: th_stack (thread_of s t))
                  (set_handles l s)).
Proof.
  intros Hl%remove_one_perm. apply ae_none; [done..|]. intros P.
  pose proof (cnt_perm P _ _ Hl) as Hcnt. pose proof (tot_set_handles P l s) as E2.
  remember (th_stack (thread_of s t)) as st eqn:Hst. symmetry in Hst.
  pose proof (tot_goto P t (thread_of s t) (FDrop DHandle [p] :: st) (set_handles l s) st Hst) as E.
  tot_solve. lia.
Qed.

Lemma push_arcs s t f :
  frame_arcs f = [] -> arc_effect s (goto t (thread_of s t) (f :: th_stack (thread_of s t)) s).
Proof.
  intros Hf. apply ae_none; [done..|]. intros P.
  pose proof (tot_goto P t (thread_of s t) (f :: th_stack (thread_of s t)) s _ eq_refl) as E.
  rewrite stack_arcs_cons, Hf in E. simpl in E. lia.
Qed.

Lemma step_arc_effect t a s s' :
  lock_inv s -> prot_inv s -> step t a s = Ok s' -> arc_effect s s'.
Proof.
  intros Hli Hpr Hstep. destruct (step_cases_of _ _ _ _ Hstep).
  - by eapply step_protect_arcs.
  - by eapply step_release_arcs.
  - by eapply step_fallback_arcs.
  - by eapply step_crit_arcs.
  - by eapply step_wait_arcs.
  - by eapply step_user_arcs.
  - destruct (op_entry_cases _ _ _ _ Ho) as (c & cl & _ & _ & Hf); subst s'.
    apply push_arcs. by destruct Hf as [[k ->]|[[g ->]| ->]].
  - unfold step_new in Hs. step_cases Hs. by apply new_cell_arcs.
  - unfold step_drop_cell in Hs. step_cases Hs. apply drop_cell_arcs; [|done].
    eapply dropped_unlocked; [done..|]. by apply drop_guard.
  - subst s'. by apply drop_handle_arcs.
  - subst s'. apply ae_none; [done..|]. intros P.
    pose proof (tot_set_thread P t (Thread None false (th_depth (thread_of s t)) [])
      (set_hz (Local_drop (hz s) (th_local (thread_of s t))) s)) as E.
    change (thread_of (set_hz _ s) t) with (thread_of s t) in E. rewrite Hst in E.
    cbn [th_stack] in E. tot_solve. lia.
Qed.

Lemma arc_inv_init : arc_inv (init : state V).
Proof. split; intros a; [intros b|]; by cbn; rewrite ?lookup_empty. Qed.

Lemma reachable_arc_inv s : reachable s -> arc_inv s.
Proof.
  induction 1; [apply arc_inv_init|]. eapply arc_inv_effect; [done|].
  eapply step_arc_effect; eauto using reachable_lock_inv, reachable_prot_inv.
Qed.

(** ** No step is undefined behaviour *)

(** Records that the threads and scans name are published. *)
Lemma local_record s t r :
  hazard_inv s -> th_local (thread_of s t) = Some r -> is_Some (records (hz s) !! r).
Proof.
  intros Hhi Hr. pose proof (ok_pins _ _ (hi_thread _ Hhi t)) as Hp. unfold pins_ok in Hp.
  rewrite Hr in Hp. destruct Hp as ((rec & Hrec & _) & _). by exists rec.
Qed.

Lemma arc_alive s p : arc_inv s -> has_arc s p -> is_Some (heap s !! p_addr p).
Proof. intros Hinv Hp. destruct (arc_live _ _ Hinv Hp) as (b & Hb & _). by exists b. Qed.

(** The memory behind a validated announcement is allocated. *)
Lemma validated_alive s t f rest c p g i :
  prot_inv s -> arc_inv s -> th_stack (thread_of s t) = f :: rest ->
  validated f = Some (c, p_addr p, g, i) -> is_Some (heap s !! p_addr p).
Proof.
  intros Hpr Hai Hst Hv. change (p_addr p) with (p_addr (Ptr (p_addr p) g)).
  apply arc_alive; [done|]. eapply validated_arc; [done| |done]. rewrite Hst. left.
Qed.

Lemma frame_arc_alive s t f rest p :
  arc_inv s -> th_stack (thread_of s t) = f :: rest -> p ∈ frame_arcs f ->
  is_Some (heap s !! p_addr p).
Proof.
  intros Hai Hst Hp. apply arc_alive; [done|]. eapply has_arc_frame; [|done]. rewrite Hst. left.
Qed.

Lemma cell_arc_alive s c cl p :
  arc_inv s -> cells s !! c = Some cl -> p ∈ cell_arcs cl -> is_Some (heap s !! p_addr p).
Proof. intros. by eapply arc_alive, has_arc_cell. Qed.

Lemma deref_None p s : deref p s = None -> heap s !! p_addr p = None.
Proof. unfold deref. by destruct (heap s !! p_addr p). Qed.

Lemma arc_clone_None a s : arc_clone a s = None -> heap s !! a = None.
Proof. unfold arc_clone. by destruct (heap s !! a). Qed.

Lemma arc_drop_None a s : arc_drop a s = None -> heap s !! a = None.
Proof.
  unfold arc_drop. destruct (heap s !! a) as [b|]; [|done]. simpl.
  by repeat case_match.
Qed.

(** Splits a computation that ended in [UB]. *)
Ltac ub_cases H :=
  repeat (match type of H with
          | context [match ?x with _ => _ end] => destruct x eqn:?
          end; simplify_eq/=);
  repeat match goal with
  | E : deref _ _ = None |- _ => apply deref_None in E; simpl in E
  | E : arc_clone _ _ = None |- _ => apply arc_clone_None in E; simpl in E
  | E : arc_drop _ _ = None |- _ => apply arc_drop_None in E; simpl in E
  end.

(** A lookup that succeeds for one reason and fails for another. *)
Ltac alive H := let x := fresh in let E := fresh in destruct H as [x E]; congruence.

Lemma step_protect_safe sp t f rest s :
  hazard_inv s -> th_stack (thread_of s t) = f :: rest ->
  step_protect sp t (thread_of s t) rest f s <> UB.
Proof.
  intros Hhi Hst Hub. pose proof (hi_thread _ Hhi t) as [Hp _ Htop _].
  unfold top_wf in Htop. rewrite Hst in Htop.
  unfold step_protect in Hub. destruct f; try done; ub_cases Hub.
  - alive (local_record _ _ _ Hhi Heqo).
  - destruct Htop as (_ & _ & Hlt). apply lookup_lt_is_Some in Hlt. alive Hlt.
  - destruct (pinned_local _ _ _ _ _ Hp Hst eq_refl) as [r Hr]. congruence.
Qed.

Lemma step_release_safe t f rest s :
  hazard_inv s -> prot_inv s -> arc_inv s -> th_stack (thread_of s t) = f :: rest ->
  step_release t (thread_of s t) rest f s <> UB.
Proof.
  intros Hhi Hpr Hai Hst Hub. pose proof (hi_thread _ Hhi t) as [Hp _ _ _].
  unfold step_release in Hub. destruct f; try done; ub_cases Hub.
  - alive (validated_alive _ _ _ _ _ _ _ _ Hpr Hai Hst eq_refl).
  - alive (validated_alive _ _ _ _ _ _ _ _ Hpr Hai Hst eq_refl).
  - destruct (pinned_local _ _ _ _ _ Hp Hst eq_refl) as [r Hr]. congruence.
Qed.

Lemma step_fallback_safe t f rest s :
  arc_inv s -> th_stack (thread_of s t) = f :: rest ->
  step_fallback t (thread_of s t) rest f s <> UB.
Proof.
  intros Hai Hst Hub. unfold step_fallback in Hub. destruct f; try done; ub_cases Hub.
  all: match goal with
    | E : heap ?s0 !! p_addr ?p = None |- _ =>
        assert (is_Some (heap s0 !! p_addr p)) as [b Hb]; [|congruence];
        eapply frame_arc_alive; [done|done|]; simpl; set_solver
    end.
Qed.

Lemma step_crit_safe oa c k t rest cl cr s :
  lock_inv s -> arc_inv s -> th_stack (thread_of s t) = FCrit c k :: rest ->
  cells s !! c = Some cl -> writer cl = Some (t, cr) ->
  step_crit oa c k t (thread_of s t) rest cl cr s <> UB.
Proof.
  intros Hli Hai Hst Hc Hw Hub.
  assert (crit_ok (hz s) cl cr) as Hcr.
  { by destruct (li_holder _ Hli _ _ _ _ Hc Hw) as (k' & rest' & _ & _ & Hcr). }
  unfold step_crit, after_unlock in Hub. destruct cr; try done; ub_cases Hub.
  all: try (alive (cell_arc_alive _ _ _ (current cl) Hai Hc ltac:(left))).
  destruct Hcr as [Hlt%lookup_lt_is_Some _]. alive Hlt.
Qed.

Lemma step_wait_safe t f rest s :
  hazard_inv s -> th_stack (thread_of s t) = f :: rest ->
  step_wait t (thread_of s t) rest f s <> UB.
Proof.
  intros Hhi Hst Hub. pose proof (hi_thread _ Hhi t) as [_ _ Htop _].
  unfold top_wf in Htop. rewrite Hst in Htop.
  unfold step_wait in Hub. destruct f; try done; ub_cases Hub.
  apply lookup_lt_is_Some in Htop. alive Htop.
Qed.

Lemma step_user_safe a t f rest s :
  prot_inv s -> arc_inv s -> th_stack (thread_of s t) = f :: rest ->
  step_user a t (thread_of s t) f rest s <> UB.
Proof.
  intros Hpr Hai Hst Hub. unfold step_user in Hub. destruct f, a; try done; ub_cases Hub.
  - alive (validated_alive _ _ _ _ _ _ _ _ Hpr Hai Hst eq_refl).
  - alive (frame_arc_alive _ _ _ _ arc Hai Hst ltac:(left)).
Qed.

(** All four invariants at once. *)
Record inv s : Prop := {
  inv_hazard : hazard_inv s;
  inv_lock : lock_inv s;
  inv_prot : prot_inv s;
  inv_arc : arc_inv s;
}.

Lemma reachable_inv s : reachable s -> inv s.
Proof.
  split; auto using reachable_hazard_inv, reachable_lock_inv, reachable_prot_inv, reachable_arc_inv.
Qed.

Lemma step_frame_safe sp oa t f rest s :
  inv s -> th_stack (thread_of s t) = f :: rest ->
  step_frame sp oa t (thread_of s t) rest f s <> UB.
Proof.
  intros [Hhi Hli Hpr Hai] Hst. destruct f; cbn [step_frame];
    try (by apply step_protect_safe); try (by apply step_release_safe);
    try (by apply step_fallback_safe); try (by apply step_wait_safe); try done.
  repeat case_match; try done. subst. by eapply step_crit_safe.
Qed.

Lemma step_safe t a s : inv s -> step t a s <> UB.
Proof.
  intros Hinv Hub. pose proof Hinv as [Hhi Hli Hpr Hai].
  unfold step, step_new, step_drop_cell in Hub.
  destruct a; try (repeat case_match; done);
    destruct (th_stack (thread_of s t)) as [|f rest] eqn:Hst; try done;
    first [ by eapply step_frame_safe | by eapply step_user_safe
          | repeat case_match; done ].
Qed.

(** ** Values are immutable, allocations are never confused *)

(** Every block of the later state is a block of the earlier one with the same
    value, or was allocated in between. *)
Definition heap_evolves s s' : Prop :=
  next_gen s <= next_gen s' /\
  forall a b', heap s' !! a = Some b' ->
    next_gen s <= b_gen b' \/
    exists b, heap s !! a = Some b /\ b_gen b = b_gen b' /\ b_val b = b_val b'.

Lemma heap_evolves_refl s : heap_evolves s s.
Proof. split; [lia|]. intros a b' Hb'. right. by exists b'. Qed.

Lemma heap_evolves_trans s1 s2 s3 :
  heap_evolves s1 s2 -> heap_evolves s2 s3 -> heap_evolves s1 s3.
Proof.
  intros [Hn1 H1] [Hn2 H2]. split; [lia|]. intros a b' Hb'.
  destruct (H2 _ _ Hb') as [?|(b & Hb & Hg & Hv)]; [left; lia|].
  destruct (H1 _ _ Hb) as [?|(b0 & Hb0 & Hg0 & Hv0)]; [left; lia|].
  right. exists b0. split; [done|]. split; congruence.
Qed.

Lemma arc_effect_evolves s s' : arc_effect s s' -> heap_evolves s s'.
Proof.
  intros [Hh Hg _|p b Hb _ Hh Hg _|p b Hb Hh Hg _|a v Ha Hh Hg _];
    (split; [lia|]); rewrite Hh; intros x b'; repeat case_decide;
    rewrite ?lookup_insert, ?lookup_delete_Some; repeat case_decide; subst;
    intros; destruct_and?; simplify_eq/=; eauto 6.
Qed.

Lemma step_evolves t a s s' : inv s -> step t a s = Ok s' -> heap_evolves s s'.
Proof. intros [Hhi Hli Hpr Hai] Hs. by eapply arc_effect_evolves, step_arc_effect. Qed.

Lemma run_evolves sched s s' : reachable s -> run sched s = Ok s' -> heap_evolves s s'.
Proof.
  revert s. induction sched as [|[t a] sched IH]; intros s Hs Hr; simpl in Hr.
  { simplify_eq. apply heap_evolves_refl. }
  destruct (step t a s) as [s1| |] eqn:Hst; [|done..].
  eapply heap_evolves_trans; [eapply step_evolves, Hst; by apply reachable_inv|].
  apply IH; [by econstructor|done].
Qed.

(** The block behind a validated announcement. *)
Lemma validated_block s t f c a g i :
  inv s -> f ∈ th_stack (thread_of s t) -> validated f = Some (c, a, g, i) ->
  exists b, heap s !! a = Some b /\ b_gen b = g /\ g < next_gen s.
Proof.
  intros [Hhi Hli Hpr Hai] Hf Hv.
  destruct (arc_live s (Ptr a g) Hai) as (b & Hb & Hg); [by eapply validated_arc|].
  exists b. split; [done|]. simpl in Hg. split; [done|].
  destruct (ai_live _ Hai _ _ Hb) as (_ & _ & _ & ?). lia.
Qed.

(** ** The theorems *)

(** (C4) No interleaving of any client program makes [SnapCell] touch memory that
    is not allocated: neither readers dereferencing what they announced, nor the
    strong-count updates, nor the frees, nor the walks over the hazard records.
    There is no assumption on how many threads run, how they nest reads, when
    they panic, exit, drop cells, or which addresses the allocator reuses. *)
Theorem snapcell_memory_safe (sched : list (tid * action V)) : run sched init <> UB.
Proof.
  enough (forall s, reachable s -> run sched s <> UB) as H by (apply H; constructor).
  induction sched as [|[t a] sched IH]; intros s Hs; simpl; [done|].
  destruct (step t a s) as [s1| |] eqn:Hst; [|done|].
  - apply IH. by econstructor.
  - by destruct (step_safe t a s (reachable_inv _ Hs)).
Qed.

(** (C21) Strong counts are exact.  In every reachable state, the strong count of a
    live allocation is the number of [Arc]s to it held by the cells, by the
    functions in progress and by clients, it is positive, and all of those [Arc]s
    are to this very allocation; to an address that is not allocated there are
    none. *)
Theorem strong_count_exact s a :
  reachable s ->
  match heap s !! a with
  | Some b => b_strong b = tot (at_addr a) s /\ 0 < b_strong b /\
              tot (stale_at a (b_gen b)) s = 0
  | None => tot (at_addr a) s = 0
  end.
Proof.
  intros Hs. destruct (reachable_arc_inv _ Hs) as [Hlive Hdead].
  destruct (heap s !! a) as [b|] eqn:Hb; [|by apply Hdead].
  destruct (Hlive _ _ Hb) as (? & ? & ? & _). done.
Qed.

(** (C22) Nothing leaks: when every cell has been dropped, no thread is inside an
    operation and clients hold no [Arc], the heap is empty. *)
Theorem snapcell_no_leak s :
  reachable s -> cells s = ∅ -> (forall t, th_stack (thread_of s t) = []) -> handles s = [] ->
  heap s = ∅.
Proof.
  intros Hs Hc Ht Hh. pose proof (reachable_arc_inv _ Hs) as Hai.
  assert (forall P, tot P s = 0) as H0.
  { intros P. unfold tot. rewrite Hh, Hc, msum_empty. simpl. apply msum_zero.
    intros t th Hth. specialize (Ht t). unfold thread_of in Ht. rewrite Hth in Ht. simpl in Ht.
    by rewrite Ht. }
  apply map_empty. intros a. destruct (heap s !! a) as [b|] eqn:Hb; [|done].
  destruct (ai_live _ Hai _ _ Hb) as (E & Hpos & _). rewrite H0 in E. lia.
Qed.

(** What a reader borrows does not change under it: as long as the closure of
    a [read] runs, the borrowed memory is allocated and holds the same value, no
    matter how often the cell is updated and how much is reclaimed meanwhile. *)
Theorem read_stable s sched s' t c p g i :
  reachable s -> run sched s = Ok s' ->
  FReading c p g i ∈ th_stack (thread_of s t) -> FReading c p g i ∈ th_stack (thread_of s' t) ->
  exists v, deref p s = Some v /\ deref p s' = Some v.
Proof.
  intros Hs Hr Hf Hf'. pose proof (reachable_run _ _ _ Hs Hr) as Hs'.
  destruct (validated_block _ _ _ _ _ _ _ (reachable_inv _ Hs) Hf eq_refl) as (b & Hb & Hg & Hlt).
  destruct (validated_block _ _ _ _ _ _ _ (reachable_inv _ Hs') Hf' eq_refl) as (b' & Hb' & Hg' & _).
  destruct (run_evolves _ _ _ Hs Hr) as [_ Hev].
  destruct (Hev _ _ Hb') as [?|(b0 & Hb0 & _ & Hv)]; [lia|]. simplify_eq.
  exists (b_val b). unfold deref. rewrite Hb, Hb'. simpl. by rewrite Hv.
Qed.
End Safety.

(** ** Examples *)

(** A reader holds the first value while a writer has installed the second. *)
Lemma strong_count_exact_witness :
  reachable (state_after replaced) /\
  match heap (state_after replaced) !! 100 with
  | Some b => b_strong b = tot (at_addr 100) (state_after replaced) /\ 0 < b_strong b /\
              tot (stale_at 100 (b_gen b)) (state_after replaced) = 0
  | None => tot (at_addr 100) (state_after replaced) = 0
  end.
Proof.
  assert (reachable (state_after replaced)) as Hr by (apply runs_reachable; by vm_compute).
  split; [exact Hr|]. exact (strong_count_exact (state_after replaced) 100 Hr).
Defined.

(** Two cells created, one of them updated, both dropped. *)
Definition all_dropped : sched :=
  new_cells ++ whole_update 2 0 add1 102 0 ++ nexts 2 2 ++
  (0, ADropCell 0) :: nexts 0 2 ++ (0, ADropCell 1) :: nexts 0 2.

Lemma snapcell_no_leak_witness :
  reachable (state_after all_dropped) /\ heap (state_after all_dropped) = ∅.
Proof.
  assert (reachable (state_after all_dropped)) as Hr by (apply runs_reachable; by vm_compute).
  split; [exact Hr|]. apply (snapcell_no_leak (state_after all_dropped) Hr); [by vm_compute| |by vm_compute].
  apply idle_ok. by vm_compute.
Defined.

(** The reader of [reading] keeps its value over the update that follows. *)
Lemma read_stable_witness :
  run (whole_update 2 0 add1 102 1) (state_after reading) = Ok (state_after replaced) /\
  exists v, deref (Ptr 100 0) (state_after reading) = Some v /\
            deref (Ptr 100 0) (state_after replaced) = Some v.
Proof.
  assert (run (whole_update 2 0 add1 102 1) (state_after reading) = Ok (state_after replaced)) as Hrun
    by (by vm_compute).
  split; [exact Hrun|].
  apply (read_stable (state_after reading) (whole_update 2 0 add1 102 1) (state_after replaced) 1 0 (Ptr 100 0) 0 0);
    [apply runs_reachable; by vm_compute|exact Hrun|vm_compute; left|vm_compute; left].
Defined.
