(* ===== verification/SnapSpec.v ===== *)
(** What [SnapCell] promises, and that the concurrent code implements it.

    The abstract cell is one value that [read] and [load_arc_if] observe and
    [update] replaces, each in one indivisible event.  Every step of the machine
    is one such event or none; the events of a call lie between its entry and
    its return. *)
From S2P Require Import Prelude Hazard SnapCell SnapMachine SnapTraces SnapHazardInv SnapArcInv.
From S2P Require Import SnapLockInv SnapProtect SnapSafety.

(** ** The abstract cells *)

Section Abstract.
Context {V : Type}.

Inductive event :=
  | ETau
  | ENew (c : cid) (v : V)
  | ERead (c : cid) (v : V)
  | EUpdate (c : cid) (f : V -> option V)
  | EDrop (c : cid).

(** A read sees the value; an update applies its function to the value, and leaves
    it alone when the function says [None]. *)
Inductive spec_step (m : gmap cid V) : event -> gmap cid V -> Prop :=
  | spec_tau : spec_step m ETau m
  | spec_new c v : m !! c = None -> spec_step m (ENew c v) (<[c := v]> m)
  | spec_read c v : m !! c = Some v -> spec_step m (ERead c v) m
  | spec_update c f v v' :
      m !! c = Some v -> f v = Some v' -> spec_step m (EUpdate c f) (<[c := v']> m)
  | spec_update_none c f v : m !! c = Some v -> f v = None -> spec_step m (EUpdate c f) m
  | spec_drop c v : m !! c = Some v -> spec_step m (EDrop c) (delete c m).
End Abstract.
Arguments event : clear implicits.

Section Refinement.
Context {V : Type}.
Implicit Types (s : state V) (th : thread V) (f : frame V) (st : list (frame V))
  (cl : cell V) (cr : crit V) (k : lkind V).

(** The abstract cells of a state: what the current pointers point to. *)
Definition abs s : gmap cid V := omap (fun cl => deref (current cl) s) (cells s).

(** The event of a step: a successful validation and the load under the lock are
    the reads; the store is the update; an update that returns [None] happens when
    it looks at the value. *)
Definition top_event (t : tid) s : event V :=
  match th_stack (thread_of s t) with
  | FValidate c k p i :: _ =>
      match cells s !! c with
      | Some cl =>
          if decide (p_addr (current cl) = p_addr p) then
            match deref (current cl) s with Some v => ERead c v | None => ETau end
          else ETau
      | None => ETau
      end
  | FCrit c k :: _ =>
      match cells s !! c with
      | Some cl =>
          match k, writer cl, deref (current cl) s with
          | LkUpdate _, Some (_, CLoad f), Some v =>
              match f v with None => EUpdate c f | Some _ => ETau end
          | LkUpdate f, Some (_, CStore _ _), _ => EUpdate c f
          | _, Some (_, LLoad), Some v => ERead c v
          | _, _, _ => ETau
          end
      | None => ETau
      end
  | _ => ETau
  end.

Definition event_of (t : tid) (a : action V) s : event V :=
  match a with
  | ANew c v _ => ENew c v
  | ADropCell c => EDrop c
  | _ => top_event t s
  end.

(** ** Where lock holders come from *)

Inductive holder_case s s' (t : tid) (c : cid) cl' (u : tid) cr' : Prop :=
  | hc_same cl (Hc : cells s !! c = Some cl) (Hw : writer cl = Some (u, cr'))
      (Hcur : current cl' = current cl)
      (Hst : th_stack (thread_of s' u) = th_stack (thread_of s u))
  | hc_acquire k rest (Hu : u = t) (Hcr : cr' = crit_entry k)
      (Hst : th_stack (thread_of s' t) = FCrit c k :: rest)
  | hc_crit oa k rest cl cr (Hu : u = t) (Hst : th_stack (thread_of s t) = FCrit c k :: rest)
      (Hst' : th_stack (thread_of s' t) = FCrit c k :: rest)
      (Hc : cells s !! c = Some cl) (Hw : writer cl = Some (t, cr))
      (Hs : step_crit oa c k t (thread_of s t) rest cl cr s = Ok s').

(** A holder whose thread does not step keeps its stack. *)
Lemma holder_other s s' t th c cl u cr :
  lock_inv s -> threads_upd s s' t th -> cells s !! c = Some cl -> writer cl = Some (u, cr) ->
  (forall k rest, th_stack (thread_of s t) <> FCrit c k :: rest) ->
  th_stack (thread_of s' u) = th_stack (thread_of s u).
Proof.
  intros Hli Hupd Hc Hw Hno. rewrite Hupd. case_decide; [subst u|done].
  destruct (li_holder _ Hli _ _ _ _ Hc Hw) as (k & rest & Hst & _). by destruct (Hno k rest).
Qed.

Lemma holder_same s s' t th c cl cl' u cr :
  lock_inv s -> threads_upd s s' t th -> cells s !! c = Some cl ->
  writer cl' = writer cl -> current cl' = current cl -> writer cl' = Some (u, cr) ->
  (forall k rest, th_stack (thread_of s t) <> FCrit c k :: rest) ->
  holder_case s s' t c cl' u cr.
Proof.
  intros Hli Hupd Hc Hww Hcur Hw Hno. rewrite Hww in Hw.
  eapply hc_same; [done..|]. by eapply holder_other.
Qed.

Lemma holder_cells s s' t th c cl u cr :
  lock_inv s -> threads_upd s s' t th -> cells s' = cells s ->
  cells s' !! c = Some cl -> writer cl = Some (u, cr) ->
  (forall c k rest, th_stack (thread_of s t) <> FCrit c k :: rest) ->
  holder_case s s' t c cl u cr.
Proof.
  intros Hli Hupd Hcells Hc Hw Hno. rewrite Hcells in Hc. by eapply holder_same.
Qed.

(** The cells change at one key only. *)
Lemma holder_insert s s' t th c0 cl0 c cl u cr :
  lock_inv s -> threads_upd s s' t th -> cells s' = <[c0 := cl0]> (cells s) ->
  cells s' !! c = Some cl -> writer cl = Some (u, cr) ->
  (forall c k rest, th_stack (thread_of s t) = FCrit c k :: rest -> c = c0) ->
  (writer cl0 = Some (u, cr) -> holder_case s s' t c0 cl0 u cr) ->
  holder_case s s' t c cl u cr.
Proof.
  intros Hli Hupd Hcells Hc Hw Hno H0. rewrite Hcells, lookup_insert in Hc.
  case_decide as E; [subst c; injection Hc as <-; by apply H0|].
  eapply holder_same; try done. intros k rest Hst. by apply E, eq_sym, (Hno c k rest).
Qed.

(** The cases in which no cell changes. *)
Ltac holder_cells_tac Hst :=
  eapply holder_cells;
    [ eassumption | first [ apply threads_upd_goto | apply threads_upd_return ]; done | done
    | eassumption | eassumption | intros ? ? ?; rewrite Hst; congruence ].

Lemma step_release_holder t f rest s s' c cl u cr :
  lock_inv s -> th_stack (thread_of s t) = f :: rest ->
  step_release t (thread_of s t) rest f s = Ok s' ->
  cells s' !! c = Some cl -> writer cl = Some (u, cr) -> holder_case s s' t c cl u cr.
Proof.
  intros Hli Hst Hstep Hc Hw. unfold step_release in Hstep.
  destruct f; try done; step_cases Hstep; try (holder_cells_tac Hst).
  eapply holder_insert; [done|by apply threads_upd_goto|done|done|done|by rewrite Hst|].
  simpl. intros [= <- <-]. eapply (hc_acquire _ _ _ _ _ _ _ (LkReclaim ret) rest); [done..|].
  by rewrite thread_of_goto, decide_True.
Qed.

Lemma step_fallback_holder t f rest s s' c cl u cr :
  lock_inv s -> th_stack (thread_of s t) = f :: rest ->
  step_fallback t (thread_of s t) rest f s = Ok s' ->
  cells s' !! c = Some cl -> writer cl = Some (u, cr) -> holder_case s s' t c cl u cr.
Proof.
  intros Hli Hst Hstep Hc Hw. unfold step_fallback in Hstep.
  destruct f; try done; step_cases Hstep; try (holder_cells_tac Hst).
  all: (eapply holder_insert; [done|by apply threads_upd_goto|done|done|done|by rewrite Hst|]).
  1,3: intros Hw'; (eapply holder_same; [done|by apply threads_upd_goto|done|done|done|done|by rewrite Hst]).
  simpl. intros [= <- <-]. eapply hc_acquire; [done..|]. by rewrite thread_of_goto, decide_True.
Qed.

Lemma step_crit_holder oa c0 k t rest cl0 cr0 s s' c cl u cr :
  lock_inv s -> th_stack (thread_of s t) = FCrit c0 k :: rest ->
  cells s !! c0 = Some cl0 -> writer cl0 = Some (t, cr0) ->
  step_crit oa c0 k t (thread_of s t) rest cl0 cr0 s = Ok s' ->
  cells s' !! c = Some cl -> writer cl = Some (u, cr) -> holder_case s s' t c cl u cr.
Proof.
  intros Hli Hst Hc0 Hw0 Hstep Hc Hw.
  assert ((exists cl0' cr', cells s' = <[c0 := set_writer (Some (t, cr')) cl0']> (cells s) /\
             threads s' = threads s) \/
          (exists st', cells s' = <[c0 := set_writer None cl0]> (cells s) /\
             threads_upd s s' t (set_stack st' (thread_of s t))))
    as [(cl0' & cr' & Hcells & Hth)|(st' & Hcells & Hupd)].
  { unfold step_crit, after_unlock in Hstep. destruct cr0; try done; step_cases Hstep.
    all: first [ left; by eexists _, _
      | right; eexists; split; [done|];
        first [ apply threads_upd_goto | apply threads_upd_return ]; done ]. }
  - assert (forall v, thread_of s' v = thread_of s v) as Hthr
      by (intros v; unfold thread_of; by rewrite Hth).
    eapply (holder_insert s s' t (thread_of s t)); [done|by apply threads_upd_same|done..| |].
    + intros c1 k1 r1 E. rewrite Hst in E. congruence.
    + simpl. intros [= <- <-]. eapply hc_crit; try done. by rewrite Hthr.
  - eapply holder_insert; [done..| |done].
    intros c1 k1 r1 E. rewrite Hst in E. congruence.
Qed.

Lemma step_holder t a s s' c cl u cr :
  lock_inv s -> step t a s = Ok s' ->
  cells s' !! c = Some cl -> writer cl = Some (u, cr) -> holder_case s s' t c cl u cr.
Proof.
  intros Hli Hstep Hc Hw.
  assert (forall st c k rest, in_user_code st = true -> st <> @FCrit V c k :: rest) as Hno
    by (by intros st c0 k rest Hu ->).
  destruct (step_cases_of _ _ _ _ Hstep).
  - unfold step_protect in Hs. destruct f; try done; step_cases Hs; holder_cells_tac Hst.
  - by eapply step_release_holder.
  - by eapply step_fallback_holder.
  - by eapply step_crit_holder.
  - unfold step_wait in Hs. destruct f; try done; step_cases Hs; holder_cells_tac Hst.
  - unfold step_user in Hs. destruct f, a0; try done; step_cases Hs; try (holder_cells_tac Hst).
    all: eapply (holder_cells _ _ t); [done|by apply threads_upd_same|done..|by rewrite Hst].
  - subst s'. eapply holder_cells; [done|by apply threads_upd_goto|done..|]. eauto.
  - unfold step_new in Hs. step_cases Hs.
    eapply (holder_insert s _ t (thread_of s t)); [done|by apply threads_upd_same|done|done|done| |done].
    intros c1 k r E. by destruct (Hno _ c1 k r Hu).
  - unfold step_drop_cell in Hs. step_cases Hs. apply lookup_delete_Some in Hc as [Hne Hc].
    eapply holder_same; [done|by apply threads_upd_goto|done..|]. eauto.
  - subst s'. eapply holder_cells; [done|by apply threads_upd_goto|done..|]. eauto.
  - subst s'. eapply (holder_cells s _ t); [done| |done..|].
    + intros v. by rewrite thread_of_set_thread.
    + by rewrite Hst.
Qed.

(** ** The value a writer is installing *)

(** What [update] has computed is its function applied to the current value. *)
Definition upd_ok s cl k cr : Prop :=
  match k, cr with
  | LkUpdate f, CLoad f' => f' = f
  | LkUpdate f, CNew _ v => deref (current cl) s ≫= f = Some v
  | LkUpdate f, CStore _ new =>
      exists v, deref (current cl) s ≫= f = Some v /\ deref new s = Some v
  | _, _ => True
  end.

Definition upd_inv s : Prop :=
  forall c cl t cr k rest,
    cells s !! c = Some cl -> writer cl = Some (t, cr) ->
    th_stack (thread_of s t) = FCrit c k :: rest -> upd_ok s cl k cr.

(** The value behind an [Arc] does not change while the [Arc] exists. *)
Lemma arc_value_stable s s' p :
  inv s -> inv s' -> heap_evolves s s' -> has_arc s p -> has_arc s' p -> deref p s' = deref p s.
Proof.
  intros Hinv Hinv' [_ Hev] Hp Hp'.
  destruct (arc_live _ _ (inv_arc _ Hinv) Hp) as (b & Hb & Hg).
  destruct (arc_live _ _ (inv_arc _ Hinv') Hp') as (b' & Hb' & Hg').
  destruct (ai_live _ (inv_arc _ Hinv) _ _ Hb) as (_ & _ & _ & Hlt).
  unfold deref. rewrite Hb, Hb'. simpl.
  destruct (Hev _ _ Hb') as [?|(b0 & Hb0 & _ & Hv)]; [lia|]. congruence.
Qed.

Lemma current_value_stable s s' c cl cl' :
  inv s -> inv s' -> heap_evolves s s' -> cells s !! c = Some cl -> cells s' !! c = Some cl' ->
  current cl' = current cl -> deref (current cl') s' = deref (current cl) s.
Proof.
  intros Hi Hi' Hev Hc Hc' Hcur. rewrite Hcur. apply arc_value_stable; [done..| |].
  - eapply has_arc_cell; [done|left].
  - rewrite <- Hcur. eapply has_arc_cell; [done|left].
Qed.

Lemma step_inv t a s s' : inv s -> step t a s = Ok s' -> inv s'.
Proof.
  intros [Hhi Hli Hpr Hai] Hs.
  split; eauto using step_hazard_inv, step_lock_inv, step_prot_inv, arc_inv_effect, step_arc_effect.
Qed.

(** The holder's own step. *)
Lemma step_crit_upd oa c k t rest cl cr s s' cl' cr' :
  inv s -> inv s' -> heap_evolves s s' -> th_stack (thread_of s t) = FCrit c k :: rest ->
  cells s !! c = Some cl -> writer cl = Some (t, cr) -> upd_ok s cl k cr ->
  step_crit oa c k t (thread_of s t) rest cl cr s = Ok s' ->
  cells s' !! c = Some cl' -> writer cl' = Some (t, cr') -> upd_ok s' cl' k cr'.
Proof.
  intros Hi Hi' Hev Hst Hc Hw Hok Hstep Hc' Hw'.
  pose proof (fun H => current_value_stable _ _ _ _ _ Hi Hi' Hev Hc Hc' H) as Hval.
  unfold step_crit, after_unlock in Hstep.
  destruct cr; try done; step_cases Hstep; rewrite ?lookup_insert_eq in Hc'; simplify_eq/=;
    try (by destruct k).
  - destruct k; try done. simpl in *. subst f0. by rewrite Hval.
  - destruct k; try done. simpl in *. rewrite Hval by done. exists v. split; [done|].
    unfold deref. simpl. by rewrite lookup_insert_eq.
Qed.

Lemma step_upd_inv t a s s' : inv s -> upd_inv s -> step t a s = Ok s' -> upd_inv s'.
Proof.
  intros Hi Hupd Hstep c cl' u cr' k rest Hc' Hw' Hst'.
  pose proof (step_inv _ _ _ _ Hi Hstep) as Hi'. pose proof (step_evolves _ _ _ _ Hi Hstep) as Hev.
  destruct (step_holder _ _ _ _ _ _ _ _ (inv_lock _ Hi) Hstep Hc' Hw').
  - pose proof (current_value_stable _ _ _ _ _ Hi Hi' Hev Hc Hc' Hcur) as Hval.
    rewrite Hst' in Hst. specialize (Hupd _ _ _ _ _ _ Hc Hw (eq_sym Hst)).
    unfold upd_ok in *. destruct k, cr'; try done; rewrite Hval; [done|].
    destruct Hupd as (v & Hf & Hnew). exists v. split; [done|]. rewrite <- Hnew.
    apply arc_value_stable; [done..| |]; (eapply has_arc_cell; [done|]); unfold cell_arcs;
      rewrite ?Hw, ?Hw'; simpl; set_solver.
  - subst. rewrite Hst' in Hst. injection Hst as <- _. by destruct k.
  - subst. rewrite Hst' in Hst'0. injection Hst'0 as <- <-.
    eapply (step_crit_upd oa c _ t _ cl cr s); try done. by eapply Hupd.
Qed.

Lemma reachable_upd_inv s : reachable s -> upd_inv s.
Proof.
  induction 1; [by intros c cl t cr k rest; cbn; rewrite lookup_empty|].
  eapply step_upd_inv; [by apply reachable_inv|done..].
Qed.

(** ** Refinement *)

Lemma abs_lookup s c : abs s !! c = cells s !! c ≫= fun cl => deref (current cl) s.
Proof. unfold abs. by rewrite lookup_omap. Qed.

(** The current value of a cell exists. *)
Lemma abs_current s c cl :
  inv s -> cells s !! c = Some cl ->
  exists v, deref (current cl) s = Some v /\ abs s !! c = Some v.
Proof.
  intros Hi Hc. destruct (cell_arc_alive s c cl (current cl) (inv_arc _ Hi) Hc) as [b Hb]; [left|].
  exists (b_val b). rewrite abs_lookup, Hc. simpl. unfold deref. by rewrite Hb.
Qed.

(** A cell whose current pointer stays keeps its abstract value. *)
Lemma abs_same_at s s' c :
  inv s -> inv s' -> heap_evolves s s' ->
  current <$> cells s' !! c = current <$> cells s !! c -> abs s' !! c = abs s !! c.
Proof.
  intros Hi Hi' Hev Hcur. rewrite !abs_lookup.
  destruct (cells s !! c) as [cl|] eqn:Hc, (cells s' !! c) as [cl'|] eqn:Hc'; simplify_eq/=; [|done].
  by eapply current_value_stable.
Qed.

(** No current pointer changes. *)
Definition currents_same s s' : Prop :=
  forall c, current <$> cells s' !! c = current <$> cells s !! c.

Lemma abs_same s s' :
  inv s -> inv s' -> heap_evolves s s' -> currents_same s s' -> abs s' = abs s.
Proof. intros. apply map_eq. intros c. by apply abs_same_at. Qed.

Lemma currents_same_cells s s' : cells s' = cells s -> currents_same s s'.
Proof. intros H c. by rewrite H. Qed.

Lemma currents_same_insert s s' c cl cl' :
  cells s !! c = Some cl -> cells s' = <[c := cl']> (cells s) -> current cl' = current cl ->
  currents_same s s'.
Proof.
  intros Hc Hcells Hcur c0. rewrite Hcells, lookup_insert.
  case_decide; [subst c0; rewrite Hc; simpl; by rewrite Hcur|done].
Qed.

(** Steps without an event. *)
Lemma spec_none s s' e :
  inv s -> inv s' -> heap_evolves s s' -> currents_same s s' -> e = ETau ->
  spec_step (abs s) e (abs s').
Proof. intros Hi Hi' Hev Hc ->. rewrite (abs_same s s') by done. constructor. Qed.

(** Steps that observe the value. *)
Lemma spec_observe s s' c cl v :
  inv s -> inv s' -> heap_evolves s s' -> currents_same s s' ->
  cells s !! c = Some cl -> deref (current cl) s = Some v ->
  spec_step (abs s) (ERead c v) (abs s').
Proof.
  intros Hi Hi' Hev Hcs Hc Hv. rewrite (abs_same s s') by done. constructor.
  by rewrite abs_lookup, Hc.
Qed.

(** Updates that decide to leave the value alone. *)
Lemma spec_noop s s' c v (f : V -> option V) :
  inv s -> inv s' -> heap_evolves s s' -> currents_same s s' ->
  abs s !! c = Some v -> f v = None -> spec_step (abs s) (EUpdate c f) (abs s').
Proof.
  intros Hi Hi' Hev Hcs Hv Hf. rewrite (abs_same s s') by done. by eapply spec_update_none.
Qed.

(** The cell [c] gets the value [v]. *)
Lemma abs_insert s s' c cl' v :
  inv s -> inv s' -> heap_evolves s s' ->
  cells s' = <[c := cl']> (cells s) -> deref (current cl') s' = Some v ->
  abs s' = <[c := v]> (abs s).
Proof.
  intros Hi Hi' Hev Hcells Hv. apply map_eq. intros c0. rewrite lookup_insert. case_decide.
  - subst c0. rewrite abs_lookup, Hcells, lookup_insert_eq. done.
  - apply abs_same_at; [done..|]. by rewrite Hcells, lookup_insert_ne.
Qed.

Ltac rewrite_abs v :=
  match goal with
  | |- spec_step (abs ?s) _ (abs ?s') =>
      rewrite (abs_insert s s' _ _ v ltac:(done) ltac:(done) ltac:(done) eq_refl); [|try done]
  end.

Ltac cells_tac :=
  first [ by apply currents_same_cells
        | eapply currents_same_insert; [eassumption|done|done] ].

Lemma step_crit_spec oa c k t rest cl cr s s' :
  inv s -> upd_inv s -> inv s' -> heap_evolves s s' ->
  th_stack (thread_of s t) = FCrit c k :: rest ->
  cells s !! c = Some cl -> writer cl = Some (t, cr) ->
  step_crit oa c k t (thread_of s t) rest cl cr s = Ok s' ->
  spec_step (abs s) (top_event t s) (abs s').
Proof.
  intros Hi Hup Hi' Hev Hst Hc Hw Hstep.
  pose proof (Hup _ _ _ _ _ _ Hc Hw Hst) as Hok.
  destruct (li_holder _ (inv_lock _ Hi) _ _ _ _ Hc Hw) as (k' & rest' & Hst' & Hk & Hcr).
  rewrite Hst in Hst'. injection Hst' as <- <-.
  destruct (abs_current _ _ _ Hi Hc) as (v & Hv & Habs).
  unfold top_event. rewrite Hst, Hc, Hw, Hv.
  unfold step_crit, after_unlock in Hstep. destruct cr, k; try done; step_cases Hstep.
  all: try (apply spec_none; [done..|cells_tac|done]).
  all: try (eapply spec_observe; [done..|cells_tac|done|done]).
  - eapply spec_noop; [done..|cells_tac|done|done].
  - destruct Hok as (v' & Hf & Hnew). rewrite Hv in Hf. simpl in Hf.
    rewrite_abs v'; by econstructor.
Qed.

Lemma step_protect_spec sp t f rest s s' :
  inv s -> inv s' -> heap_evolves s s' -> th_stack (thread_of s t) = f :: rest ->
  step_protect sp t (thread_of s t) rest f s = Ok s' ->
  spec_step (abs s) (top_event t s) (abs s').
Proof.
  intros Hi Hi' Hev Hst Hstep. unfold top_event. rewrite Hst.
  unfold step_protect in Hstep. destruct f; try done; step_cases Hstep;
    try (apply spec_none; [done..|cells_tac|done]).
  destruct (abs_current _ _ _ Hi Heqo) as (v & Hv & _). rewrite Hv.
  eapply spec_observe; [done..|cells_tac|done|done].
Qed.

(** Pushed frames and idle threads have no event. *)
Lemma top_event_user t s : in_user_code (th_stack (thread_of s t)) = true -> top_event t s = ETau.
Proof. unfold top_event. by destruct (th_stack (thread_of s t)) as [|[] ?]. Qed.

Lemma step_other_spec t a s s' :
  inv s -> upd_inv s -> inv s' -> heap_evolves s s' -> step_case t a s s' ->
  (forall c v x, a <> ANew c v x) -> (forall c, a <> ADropCell c) ->
  spec_step (abs s) (top_event t s) (abs s').
Proof.
  intros Hi Hup Hi' Hev Hcase Hn1 Hn2. destruct Hcase.
  - by eapply step_protect_spec.
  - unfold top_event. rewrite Hst. unfold step_release in Hs.
    destruct f; try done; step_cases Hs; (apply spec_none; [done..|cells_tac|done]).
  - unfold top_event. rewrite Hst. unfold step_fallback in Hs.
    destruct f; try done; step_cases Hs; (apply spec_none; [done..|cells_tac|done]).
  - by eapply step_crit_spec.
  - unfold top_event. rewrite Hst. unfold step_wait in Hs.
    destruct f; try done; step_cases Hs; (apply spec_none; [done..|cells_tac|done]).
  - unfold top_event. rewrite Hst. unfold step_user in Hs.
    destruct f, a0; try done; step_cases Hs; (apply spec_none; [done..|cells_tac|done]).
  - subst s'. apply spec_none; [done..|cells_tac|by apply top_event_user].
  - by destruct (Hn1 c v x).
  - by destruct (Hn2 c).
  - subst s'. apply spec_none; [done..|cells_tac|by apply top_event_user].
  - subst s'. apply spec_none; [done..|cells_tac|]. apply top_event_user. by rewrite Hst.
Qed.

Lemma step_new_spec t c v x s s' :
  inv s -> inv s' -> heap_evolves s s' -> step t (ANew c v x) s = Ok s' ->
  spec_step (abs s) (ENew c v) (abs s').
Proof.
  intros Hi Hi' Hev Hstep. simpl in Hstep. unfold step_new in Hstep. step_cases Hstep.
  rewrite_abs v.
  - constructor. by rewrite abs_lookup, Heqo.
  - unfold deref. simpl. by rewrite lookup_insert_eq.
Qed.

Lemma step_drop_spec t c s s' :
  inv s -> inv s' -> heap_evolves s s' -> step t (ADropCell c) s = Ok s' ->
  spec_step (abs s) (EDrop c) (abs s').
Proof.
  intros Hi Hi' Hev Hstep. simpl in Hstep. unfold step_drop_cell in Hstep. step_cases Hstep.
  destruct (abs_current _ _ _ Hi Heqo) as (v & Hv & Habs).
  match goal with
  | |- spec_step _ _ (abs ?s') => assert (abs s' = delete c (abs s)) as ->; [|by econstructor]
  end.
  apply map_eq. intros c1. rewrite lookup_delete. destruct (decide (c = c1)).
  - subst c1. rewrite abs_lookup. cbn [cells goto set_thread del_cell]. by rewrite lookup_delete_eq.
  - apply abs_same_at; [done..|]. simpl. by rewrite lookup_delete_ne.
Qed.

Lemma step_spec t a s s' :
  inv s -> upd_inv s -> step t a s = Ok s' -> spec_step (abs s) (event_of t a s) (abs s').
Proof.
  intros Hi Hup Hstep. pose proof (step_inv _ _ _ _ Hi Hstep) as Hi'.
  pose proof (step_evolves _ _ _ _ Hi Hstep) as Hev.
  destruct a; simpl; first [ by eapply step_new_spec | by eapply step_drop_spec | idtac ];
    (eapply step_other_spec; [done..|by eapply step_cases_of|done|done]).
Qed.

(** ** The theorems *)

(** (C5) [SnapCell] implements an atomic cell.  Every step of every interleaving is
    one event of the abstract cells or changes nothing in them: a read or
    [load_arc_if] observes the value at its successful validation (or at its load
    under the lock), and [update] replaces the value by its closure applied to the
    value at that very moment, although it loaded, computed and allocated earlier. *)
Theorem snapcell_refines t a s s' :
  reachable s -> step t a s = Ok s' -> spec_step (abs s) (event_of t a s) (abs s').
Proof. intros Hs. apply step_spec; [by apply reachable_inv|by apply reachable_upd_inv]. Qed.

(** The pointer [protect] returned stands for the value the cell had when the
    announcement was validated: as long as an [Arc] to that allocation exists (in
    particular during the whole closure of [read], and for the [Arc] that
    [load_arc_if] returns) the memory holds that value. *)
Theorem protect_linearizes s s1 sched s2 t c (k : rkind V) p i rest g :
  reachable s -> th_stack (thread_of s t) = FValidate c k p i :: rest ->
  step t ANext s = Ok s1 -> th_stack (thread_of s1 t) = protected_entry c k p g i :: rest ->
  run sched s1 = Ok s2 -> has_arc s2 (Ptr (p_addr p) g) ->
  exists v, abs s !! c = Some v /\ deref p s2 = Some v.
Proof.
  intros Hs Hst Hstep Hst1 Hrun Harc.
  assert (reachable s1) as Hs1 by (by econstructor). pose proof (reachable_run _ _ _ Hs1 Hrun) as Hs2.
  unfold step in Hstep. rewrite Hst in Hstep. simpl in Hstep. step_cases Hstep.
  2: { rewrite thread_of_goto, decide_True in Hst1 by done. by destruct k. }
  rewrite thread_of_goto, decide_True in Hst1 by done. simpl in Hst1.
  destruct (abs_current _ _ _ (reachable_inv _ Hs) Heqo) as (v & Hv & Habs). exists v.
  split; [done|].
  assert (current c0 = Ptr (p_addr p) g) as Hcur.
  { destruct (current c0) as [a0 g0]; simpl in *. by destruct k; simplify_eq/=. }
  change (deref (Ptr (p_addr p) g) s2 = Some v).
  rewrite <- Hv, <- Hcur. rewrite <- Hcur in Harc.
  apply (arc_value_stable _ s2 (current c0) (reachable_inv _ Hs1)); [by apply reachable_inv| | |done].
  - by eapply run_evolves.
  - eapply (has_arc_cell _ c c0); [done|left].
Qed.
End Refinement.

(** ** Examples *)

(** The store of an update, with a reader in its closure. *)
Definition at_store : sched := reading ++ update_to_store 2 0 add1 102.

Lemma snapcell_refines_witness :
  event_of 2 ANext (state_after at_store) = EUpdate 0 add1 /\
  spec_step (abs (state_after at_store)) (event_of 2 ANext (state_after at_store))
    (abs (state_after (at_store ++ nexts 2 1))).
Proof.
  split; [by vm_compute|].
  apply (snapcell_refines 2 ANext (state_after at_store)); [|by vm_compute].
  apply runs_reachable. by vm_compute.
Defined.

(** A reader about to validate; then the cell is updated under it. *)
Definition at_validate : sched := new_cells ++ (1, ACall (ORead 0)) :: nexts 1 7.

Lemma protect_linearizes_witness :
  exists v, abs (state_after at_validate) !! 0 = Some v /\
            deref (Ptr 100 0) (state_after replaced) = Some v.
Proof.
  apply (protect_linearizes (state_after at_validate) (state_after reading)
    (whole_update 2 0 add1 102 1) (state_after replaced) 1 0 KRead (Ptr 100 0) 0 [] 0);
    try (by vm_compute).
  apply runs_reachable. by vm_compute.
Defined.
