(* ===== verification/SnapProgress.v ===== *)
(** Progress of [SnapCell] (src/src/snapshot.rs).

    The writer lock is never held for longer than a bounded number of the
    holder's own steps, readers on the hazard path are never blocked by anybody,
    and a reader that runs undisturbed gets its value in a bounded number of
    steps. *)
From S2P Require Import Prelude Hazard SnapCell SnapMachine SnapTraces SnapHazardInv SnapArcInv.
From S2P Require Import SnapLockInv SnapProtect SnapSafety SnapSpec.

Section Progress.
Context {V : Type}.
Implicit Types (s : state V) (th : thread V) (f : frame V) (st : list (frame V))
  (cl : cell V) (cr : crit V) (k : lkind V).

(** Schedules in which only [t] acts. *)
Definition solo (t : tid) (sched : list (tid * action V)) : Prop :=
  Forall (fun x => x.1 = t) sched.

Lemma run_app l1 l2 s :
  run (l1 ++ l2) s = match run l1 s with Ok s' => run l2 s' | o => o end.
Proof.
  revert s. induction l1 as [|[t a] l1 IH]; intros s; simpl; [done|].
  by destruct (step t a s).
Qed.

(** ** The critical sections *)

(** How many accesses are left before the unlock. *)
Definition crit_left (h : hazard) cr : nat :=
  match cr with
  | CUnlock _ | LUnlock _ | WUnlock _ => 1
  | CFinish _ => 2
  | CScan r j _ => 2 + r * SLOTS + (SLOTS - j)
  | CHead => 3 + length (records h) * SLOTS
  | CStore _ _ => 4 + length (records h) * SLOTS
  | CNew _ _ => 5 + length (records h) * SLOTS
  | CLoad _ => 6 + length (records h) * SLOTS
  | LLoad => 3
  | LIncr _ | WCopy => 2
  end.

(** The holder's next step succeeds and brings the unlock closer. *)
Lemma holder_step s c cl t cr :
  inv s -> cells s !! c = Some cl -> writer cl = Some (t, cr) ->
  exists a s' cl', step t a s = Ok s' /\ cells s' !! c = Some cl' /\ hz s' = hz s /\
    match writer cl' with
    | None => True
    | Some (u, cr') => u = t /\ crit_left (hz s) cr' < crit_left (hz s) cr
    end.
Proof.
  intros Hi Hc Hw.
  destruct (li_holder _ (inv_lock _ Hi) _ _ _ _ Hc Hw) as (k & rest & Hst & Hk & Hcr).
  pose proof (hi_wf _ (inv_hazard _ Hi)) as Hwf.
  set (x := fresh (dom (heap s))).
  assert (heap s !! x = None) as Hx by (apply not_elem_of_dom, is_fresh).
  set (a := match cr with CNew _ _ => AAlloc x | _ => ANext end : action V).
  pose proof (step_safe t a s Hi) as Hsafe. exists a. revert Hsafe.
  assert (step t a s = step_crit (match cr with CNew _ _ => Some x | _ => None end)
    c k t (thread_of s t) rest cl cr s) as ->.
  { subst a. unfold step. rewrite Hst. destruct cr; cbn [step_frame]; rewrite Hc, Hw;
      by rewrite decide_True. }
  clear a. intros Hsafe. unfold step_crit, after_unlock in *.
  destruct cr, k; try done; rewrite ?Hx in *;
    repeat (case_match; simplify_eq/=); try done;
    repeat match goal with
    | H : arc_clone _ _ = Some _ |- _ => apply arc_clone_Some in H as (? & ? & ->)
    end;
    (eexists _, _; split; [reflexivity|]; split; [apply lookup_insert_eq|]; split; [done|]);
    cbn [writer set_writer set_retired set_current set_retired_len]; try done;
    (split; [done|]); cbn [crit_left]; try lia.
  all: repeat match goal with
       | Hn : next _ = Some _, Hr : records _ !! _ = Some _ |- _ =>
           rewrite (hz_next _ Hwf _ _ Hr) in Hn
       | Hh : HEAD _ = Some _ |- _ => rewrite (hz_head _ Hwf) in Hh
       | Hp : pred_opt _ = Some _ |- _ => apply pred_opt_Some in Hp
       end.
  all: destruct_and?; unfold SLOTS in *; lia.
Qed.

Lemma holder_finishes n s c cl t cr :
  inv s -> cells s !! c = Some cl -> writer cl = Some (t, cr) -> crit_left (hz s) cr <= n ->
  exists sched s' cl', solo t sched /\ length sched <= n /\ run sched s = Ok s' /\
    cells s' !! c = Some cl' /\ writer cl' = None.
Proof.
  revert s cl cr. induction n as [|n IH]; intros s cl cr Hi Hc Hw Hn.
  { destruct cr; simpl in Hn; lia. }
  destruct (holder_step _ _ _ _ _ Hi Hc Hw) as (a & s1 & cl1 & Hs & Hc1 & Hhz & Hw1).
  pose proof (step_inv _ _ _ _ Hi Hs) as Hi1.
  destruct (writer cl1) as [[u cr1]|] eqn:E.
  - destruct Hw1 as [-> Hlt].
    destruct (IH s1 cl1 cr1) as (sched & s' & cl' & Hsolo & Hlen & Hrun & Hc' & Hw');
      [done..|rewrite Hhz; lia|].
    exists ((t, a) :: sched), s', cl'. split; [by constructor|]. simpl. rewrite Hs.
    split; [lia|done].
  - exists [(t, a)], s1, cl1. split; [by repeat constructor|]. simpl. rewrite Hs.
    split; [lia|done].
Qed.

(** (C27) The writer lock is always released: whoever holds it (an [update], a
    reclaiming reader, a fallback read, a wait) is never blocked inside the
    critical section and leaves it after at most 6 plus eight times the number of
    hazard records of its own steps, whatever the other threads are doing. *)
Theorem writer_lock_released s c cl t cr :
  reachable s -> cells s !! c = Some cl -> writer cl = Some (t, cr) ->
  exists sched s' cl', solo t sched /\ length sched <= 6 + length (records (hz s)) * SLOTS /\
    run sched s = Ok s' /\ cells s' !! c = Some cl' /\ writer cl' = None.
Proof.
  intros Hs Hc Hw. pose proof (reachable_inv _ Hs) as Hi. eapply holder_finishes; [done..|].
  destruct (li_holder _ (inv_lock _ Hi) _ _ _ _ Hc Hw) as (k & rest & _ & _ & Hcr).
  destruct cr; simpl in *; unfold SLOTS in *; lia.
Qed.

(** ** Readers *)

(** The frames of a reader on the hazard path: [read] up to its closure and from
    its return, [load_arc_if], [release] and [try_reclaim] up to the lock. *)
Definition reader_frame f : bool :=
  match f with
  | FLoad _ _ | FPin _ _ _ | FAcqHead _ _ _ | FAcqTry _ _ _ _ | FAcqLoad _ _ _
  | FAcqCas _ _ _ _ | FValidate _ _ _ _ | FProtect _ _ _ _ _
  | FKeep _ _ _ _ _ | FIncr _ _ _ _ | FUnpin _ _ _ _ _ | FCheck _ _ | FTryLock _ _ => true
  | _ => false
  end.

(** (C28) Readers on the hazard path are never blocked: in every reachable state
    their next access succeeds, whoever holds the writer lock and whatever the
    other threads are doing.  (A reader that finds the lock taken in
    [try_reclaim] just returns.) *)
Theorem reader_never_blocks s t f rest :
  reachable s -> th_stack (thread_of s t) = f :: rest -> reader_frame f = true ->
  exists s', step t ANext s = Ok s'.
Proof.
  intros Hs Hst Hf. pose proof (reachable_inv _ Hs) as Hi.
  pose proof (step_safe t ANext s Hi) as Hsafe.
  assert (forall c, frame_cell f = Some c -> is_Some (cells s !! c)) as Hcell.
  { intros c Hc. eapply (li_cells _ (inv_lock _ Hi) t); [|done]. rewrite Hst. left. }
  unfold step in *. rewrite Hst in *.
  destruct f; try done; cbn [step_frame] in *; unfold step_protect, step_release in *;
    destruct (Hcell c eq_refl) as [cl Hc]; rewrite ?Hc in *;
    repeat case_match; try done; eauto.
Qed.

(** Where [protect] ends: validated, or without a free slot. *)
Definition protect_done (t : tid) c (k : rkind V) rest s : Prop :=
  (exists p g i, th_stack (thread_of s t) = protected_entry c k p g i :: rest) \/
  th_stack (thread_of s t) = fallback_entry c k :: rest.

(** Thread [t] alone gets from [s] to a state satisfying [Q] in at most [n] steps. *)
Definition solo_reaches (t : tid) (n : nat) s (Q : state V -> Prop) : Prop :=
  exists sched s', solo t sched /\ length sched <= n /\ run sched s = Ok s' /\ Q s'.

Lemma solo_now t n s (Q : state V -> Prop) : Q s -> solo_reaches t n s Q.
Proof. exists [], s. split; [constructor|]. split; [simpl; lia|done]. Qed.

Lemma solo_step t n s s1 (Q : state V -> Prop) :
  step t ANext s = Ok s1 -> solo_reaches t n s1 Q -> solo_reaches t (S n) s Q.
Proof.
  intros Hs (sched & s' & Hsolo & Hlen & Hrun & HQ). exists ((t, ANext) :: sched), s'.
  split; [by constructor|]. cbn [run length]. rewrite Hs. split; [lia|done].
Qed.

Lemma solo_le t n m s (Q : state V -> Prop) : n <= m -> solo_reaches t n s Q -> solo_reaches t m s Q.
Proof. intros Hle (sched & s' & ? & ? & ? & ?). exists sched, s'. split_and!; try done. lia. Qed.

(** The thread has its record: pin and validate. *)
Lemma solo_pin s t c (k : rkind V) rest cl r rec :
  th_stack (thread_of s t) = FPin c k (current cl) :: rest -> cells s !! c = Some cl ->
  th_local (thread_of s t) = Some r -> th_tls (thread_of s t) = true ->
  records (hz s) !! r = Some rec ->
  solo_reaches t 2 s (protect_done t c k rest).
Proof.
  intros Hst Hc Hl Htls Hrec. destruct (find_free (slots rec)) as [i|] eqn:Hf.
  - eapply solo_step.
    { unfold step. rewrite Hst. cbn [step_frame step_protect]. by rewrite Htls, Hl, Hrec, Hf. }
    eapply solo_step.
    { unfold step. rewrite thread_of_goto, decide_True by done. cbn. rewrite Hc.
      by rewrite decide_True. }
    apply solo_now. left. rewrite thread_of_goto, decide_True by done. cbn. eauto.
  - eapply solo_step.
    { unfold step. rewrite Hst. cbn [step_frame step_protect]. by rewrite Htls, Hl, Hrec, Hf. }
    apply solo_now. right. by rewrite thread_of_goto, decide_True.
Qed.

(** The walk of [acquire_record] over the records, and its push of a new one. *)
Lemma solo_publish s t c (k : rkind V) rest cl :
  hazard_inv s -> th_stack (thread_of s t) = FAcqLoad c k (current cl) :: rest ->
  cells s !! c = Some cl -> th_tls (thread_of s t) = true ->
  solo_reaches t 4 s (protect_done t c k rest).
Proof.
  intros Hhi Hst Hc Htls. eapply solo_step.
  { unfold step. rewrite Hst. cbn [step_frame step_protect]. done. }
  eapply solo_step.
  { unfold step. rewrite thread_of_goto, decide_True by done. cbn. unfold try_publish.
    by rewrite decide_True. }
  eapply (solo_pin _ t c k rest cl); [|done|..].
  1-3: by rewrite thread_of_goto, decide_True.
  cbn. by rewrite lookup_app_r, Nat.sub_diag.
Qed.

Lemma solo_acquire n s t c (k : rkind V) rest cl cursor :
  hazard_inv s -> th_stack (thread_of s t) = FAcqTry c k (current cl) cursor :: rest ->
  cells s !! c = Some cl -> match cursor with Some r => S r | None => 0 end <= n ->
  solo_reaches t (5 + n) s (protect_done t c k rest).
Proof.
  revert s cursor. induction n as [|n IH]; intros s cursor Hhi Hst Hc Hn;
    pose proof (ok_top _ _ (hi_thread _ Hhi t)) as Htop; unfold top_wf in Htop;
    rewrite Hst in Htop; destruct Htop as (Hl & Htls & Hr).
  1,2: destruct cursor as [r|].
  - lia.
  - eapply solo_step.
    { unfold step. rewrite Hst. cbn [step_frame step_protect]. done. }
    eapply (solo_publish _ t c k rest cl); [|by rewrite thread_of_goto, decide_True|done|].
    + eapply (step_hazard_inv t ANext s); [done|]. unfold step. by rewrite Hst.
    + by rewrite thread_of_goto, decide_True.
  - destruct (lookup_lt_is_Some_2 _ _ Hr) as [rec Hrec].
    destruct (try_claim (hz s) r) as [h|] eqn:Hcl.
    + eapply solo_step.
      { unfold step. rewrite Hst. cbn [step_frame step_protect]. by rewrite Hrec, Hcl. }
      pose proof (try_claim_Some _ _ _ Hcl) as (rec' & Hrec' & _ & ->).
      eapply (solo_le _ 2); [lia|]. eapply (solo_pin _ t c k rest cl r); [|done|..].
      1-3: by rewrite thread_of_goto, decide_True.
      cbn. rewrite list_lookup_insert_eq; [done|]. by eapply lookup_lt_Some.
    + assert (step t ANext s = Ok (goto t (thread_of s t)
        (FAcqTry c k (current cl) (next rec) :: rest) s)) as Hs.
      { unfold step. rewrite Hst. cbn [step_frame step_protect]. by rewrite Hrec, Hcl. }
      eapply solo_step; [exact Hs|]. eapply (IH _ (next rec));
        [by eapply step_hazard_inv|by rewrite thread_of_goto, decide_True|done|].
      rewrite (hz_next _ (hi_wf _ Hhi) _ _ Hrec). destruct r; simpl; lia.
  - eapply (solo_le _ 5); [lia|]. eapply solo_step.
    { unfold step. rewrite Hst. cbn [step_frame step_protect]. done. }
    eapply (solo_publish _ t c k rest cl); [|by rewrite thread_of_goto, decide_True|done|].
    + eapply (step_hazard_inv t ANext s); [done|]. unfold step. by rewrite Hst.
    + by rewrite thread_of_goto, decide_True.
Qed.

(** A read that runs undisturbed terminates: from its entry, the calling
    thread alone reaches the closure (or, with all slots in use, the fallback) in
    at most 8 plus the number of hazard records steps. *)
Theorem protect_terminates s t c (k : rkind V) rest :
  reachable s -> th_stack (thread_of s t) = FLoad c k :: rest ->
  solo_reaches t (8 + length (records (hz s))) s (protect_done t c k rest).
Proof.
  intros Hs Hst. pose proof (reachable_inv _ Hs) as Hi. pose proof (inv_hazard _ Hi) as Hhi.
  destruct (li_cells _ (inv_lock _ Hi) t (FLoad c k) c) as [cl Hc]; [rewrite Hst; left|done|].
  assert (step t ANext s = Ok (goto t (thread_of s t) (FPin c k (current cl) :: rest) s)) as Hs1.
  { unfold step. rewrite Hst. cbn [step_frame step_protect]. by rewrite Hc. }
  eapply (solo_step _ (7 + length (records (hz s)))); [exact Hs1|].
  pose proof (step_hazard_inv _ _ _ _ Hhi Hs1) as Hhi1.
  set (s1 := goto t (thread_of s t) (FPin c k (current cl) :: rest) s) in *.
  assert (thread_of s1 t = set_stack (FPin c k (current cl) :: rest) (thread_of s t)) as Ht1
    by (unfold s1; by rewrite thread_of_goto, decide_True).
  assert (th_stack (thread_of s1 t) = FPin c k (current cl) :: rest) as Hst1 by (by rewrite Ht1).
  destruct (th_tls (thread_of s1 t)) eqn:Htls; [destruct (th_local (thread_of s1 t)) as [r|] eqn:Hl|].
  - destruct (local_record _ _ _ Hhi1 Hl) as [rec Hrec].
    eapply (solo_le _ 2); [lia|]. by eapply solo_pin.
  - assert (step t ANext s1 = Ok (goto t (thread_of s1 t) (FAcqHead c k (current cl) :: rest) s1)) as Hs2.
    { unfold step. rewrite Hst1. cbn [step_frame step_protect]. by rewrite Htls, Hl. }
    eapply solo_step; [exact Hs2|]. pose proof (step_hazard_inv _ _ _ _ Hhi1 Hs2) as Hhi2.
    assert (step t ANext (goto t (thread_of s1 t) (FAcqHead c k (current cl) :: rest) s1) =
      Ok (goto t (thread_of (goto t (thread_of s1 t) (FAcqHead c k (current cl) :: rest) s1) t)
            (FAcqTry c k (current cl) (HEAD (hz s)) :: rest)
            (goto t (thread_of s1 t) (FAcqHead c k (current cl) :: rest) s1))) as Hs3.
    { unfold step. rewrite thread_of_goto, decide_True by done. done. }
    eapply solo_step; [exact Hs3|]. eapply (solo_acquire (length (records (hz s))) _ t c k rest cl);
      [by eapply step_hazard_inv|by rewrite thread_of_goto, decide_True|done|].
    rewrite (hz_head _ (hi_wf _ Hhi)). destruct (length (records (hz s))); simpl; lia.
  - eapply (solo_le _ 1); [lia|]. eapply solo_step.
    { unfold step. rewrite Hst1. cbn [step_frame step_protect]. by rewrite Htls. }
    apply solo_now. right. by rewrite thread_of_goto, decide_True.
Qed.
End Progress.

(** ** Examples *)

(** A writer that holds the lock in the middle of its scan. *)
Definition mid_scan : sched := reading ++ update_to_store 2 0 add1 102 ++ nexts 2 5.

Lemma writer_lock_released_witness :
  exists cl cr, cells (state_after mid_scan) !! 0 = Some cl /\ writer cl = Some (2, cr) /\
  exists l s' cl', solo 2 l /\ length l <= 6 + length (records (hz (state_after mid_scan))) * SLOTS /\
    run l (state_after mid_scan) = Ok s' /\ cells s' !! 0 = Some cl' /\ writer cl' = None.
Proof.
  assert (reachable (state_after mid_scan)) as Hr by (apply runs_reachable; by vm_compute).
  eexists _, _. split; [by vm_compute|]. split; [by vm_compute|].
  eapply (writer_lock_released (state_after mid_scan) 0 _ 2 _ Hr); by vm_compute.
Defined.

(** A reader that enters while that writer holds the lock. *)
Definition reader_enters : sched := mid_scan ++ [(3, ACall (ORead 0))].

Lemma reader_never_blocks_witness :
  exists s', step 3 ANext (state_after reader_enters) = Ok s'.
Proof.
  apply (reader_never_blocks (state_after reader_enters) 3 (FLoad 0 KRead) []);
    [apply runs_reachable|..]; by vm_compute.
Defined.

Lemma protect_terminates_witness :
  solo_reaches 3 (8 + length (records (hz (state_after reader_enters)))) (state_after reader_enters)
    (protect_done 3 0 KRead []).
Proof.
  apply (protect_terminates (state_after reader_enters) 3 0 KRead []);
    [apply runs_reachable|]; by vm_compute.
Defined.
