(* ===== verification/SnapWait.v ===== *)
(** [wait_for_retired_readers] (src/src/snapshot.rs): when it returns, no other
    thread is still reading a value that was replaced before the call. *)
From S2P Require Import Prelude Hazard SnapCell SnapMachine SnapTraces SnapHazardInv SnapArcInv.
From S2P Require Import SnapLockInv SnapProtect SnapSafety SnapSpec.

Section Wait.
Context {V : Type}.
Implicit Types (s : state V) (th : thread V) (f : frame V) (st : list (frame V))
  (cl : cell V) (cr : crit V) (k : lkind V).

(** ** How one step changes cells and frames *)

(** What a step does to a cell's values. *)
Inductive cell_case s (c : cid) cl' : Prop :=
  | cc_same cl (Hc : cells s !! c = Some cl) (Hcur : current cl' = current cl)
      (Hret : retired cl' ⊆ retired cl)
  | cc_store cl t raw new (Hc : cells s !! c = Some cl) (Hw : writer cl = Some (t, CStore raw new))
      (Hcur : current cl' = new) (Hret : retired cl' = retired cl ++ [raw])
  | cc_new (Hc : cells s !! c = None) (Hret : retired cl' = []).

Lemma cell_case_insert s c0 cl0 c cl' :
  <[c0 := cl0]> (cells s) !! c = Some cl' -> cell_case s c0 cl0 -> cell_case s c cl'.
Proof.
  intros Hc H0. rewrite lookup_insert in Hc.
  case_decide; [by simplify_eq|]. by eapply cc_same.
Qed.

Lemma step_cell t a s s' c cl' :
  step t a s = Ok s' -> cells s' !! c = Some cl' -> cell_case s c cl'.
Proof.
  intros Hstep Hc'.
  assert (cells s' = cells s -> cell_case s c cl') as Hsame
    by (intros E; rewrite E in Hc'; by eapply cc_same).
  destruct (step_cases_of _ _ _ _ Hstep).
  - unfold step_protect in Hs. destruct f; try done; step_cases Hs; by apply Hsame.
  - unfold step_release in Hs. destruct f; try done; step_cases Hs; try (by apply Hsame).
    eapply (cell_case_insert s _ _ _ _ Hc'). by eapply cc_same.
  - unfold step_fallback in Hs. destruct f; try done; step_cases Hs; try (by apply Hsame).
    all: eapply (cell_case_insert s _ _ _ _ Hc'); by eapply cc_same.
  - unfold step_crit, after_unlock in Hs. destruct cr; try done; step_cases Hs.
    all: eapply (cell_case_insert s _ _ _ _ Hc'); try (by eapply cc_same); try (by eapply cc_store).
    eapply cc_same; [done..|]. simpl. apply collect_unprotected_perm in Heqp. rewrite Heqp.
    set_solver.
  - unfold step_wait in Hs. destruct f; try done; step_cases Hs; by apply Hsame.
  - unfold step_user in Hs. destruct f, a0; try done; step_cases Hs; by apply Hsame.
  - subst s'. by apply Hsame.
  - unfold step_new in Hs. step_cases Hs. eapply (cell_case_insert s _ _ _ _ Hc'). by apply cc_new.
  - unfold step_drop_cell in Hs. step_cases Hs. apply lookup_delete_Some in Hc' as [_ Hc'].
    by eapply cc_same.
  - subst s'. by apply Hsame.
  - subst s'. by apply Hsame.
Qed.

(** Where a frame of the next state comes from, for the frames that read. *)
Record frame_born s (t : tid) f : Prop := {
  fb_validated c a g i : validated f = Some (c, a, g, i) ->
    (exists f0, f0 ∈ th_stack (thread_of s t) /\ validated f0 = Some (c, a, g, i)) \/
    exists cl, cells s !! c = Some cl /\ current cl = Ptr a g;
  fb_fallback c arc : f = FFbReading c arc ->
    exists cl, cells s !! c = Some cl /\ writer cl = Some (t, LUnlock arc);
}.

Definition frames_from s s' (t : tid) : Prop :=
  forall u f, f ∈ th_stack (thread_of s' u) ->
    f ∈ th_stack (thread_of s u) \/ (u = t /\ frame_born s t f).

Lemma frames_from_top s s' t th f rest st' :
  th_stack (thread_of s t) = f :: rest -> threads_upd s s' t (set_stack (st' ++ rest) th) ->
  (forall f', f' ∈ st' -> frame_born s t f') -> frames_from s s' t.
Proof.
  intros Hst Hupd Hborn u f'. rewrite Hupd. case_decide; [subst u; simpl|by left].
  intros [Hf|Hf]%elem_of_app; [by right; auto|]. left. rewrite Hst. by right.
Qed.

Lemma frames_from_push s s' t f :
  threads_upd s s' t (set_stack (f :: th_stack (thread_of s t)) (thread_of s t)) ->
  frame_born s t f -> frames_from s s' t.
Proof.
  intros Hupd Hborn u f'. rewrite Hupd. case_decide; [subst u; simpl|by left].
  intros [->|Hf]%elem_of_cons; auto.
Qed.

(** Frames that read nothing. *)
Lemma frame_born_none s t f :
  validated f = None -> (forall c arc, f <> FFbReading c arc) -> frame_born s t f.
Proof. intros Hv Hf. split; [congruence|]. intros c arc ->. by destruct (Hf c arc). Qed.

Ltac born_top st' :=
  eapply (frames_from_top _ _ _ _ _ _ st');
    [ eassumption | simpl; first [ apply threads_upd_goto | apply threads_upd_return ]; done
    | intros ? Hin0; rewrite ?elem_of_cons, ?elem_of_nil in Hin0; destruct_or?; subst; try done;
      try (by apply frame_born_none) ].

Ltac born_case :=
  match goal with
  | |- frames_from _ (goto _ _ (?f' :: ?rest) _) _ => born_top [f']
  | |- frames_from _ (goto _ _ ?rest _) _ => born_top (@nil (frame V))
  | |- frames_from _ (return_ _ _ ?rest _ _) _ => born_top (@nil (frame V))
  end.

Lemma step_frames t a s s' : step t a s = Ok s' -> frames_from s s' t.
Proof.
  intros Hstep. destruct (step_cases_of _ _ _ _ Hstep).
  - unfold step_protect in Hs. destruct f; try done; step_cases Hs; born_case.
    1,2: by destruct k; apply frame_born_none.
    split; [|by destruct k]. intros c1 a1 g1 i1 Hv. right. exists c0.
    destruct k; simplify_eq/=; (split; [done|]); destruct (current c0); simpl in *; congruence.
  - unfold step_release in Hs. destruct f; try done; step_cases Hs; born_case.
    split; [|done]. simpl. intros c1 a1 g1 i1 [= <- <- <- <-]. left.
    eexists. rewrite Hst. split; [left|done].
  - unfold step_fallback in Hs. destruct f; try done; step_cases Hs; born_case.
  - unfold step_crit, after_unlock in Hs. destruct cr; try done; step_cases Hs; try born_case.
    all: try (intros ? ?; by left).
    split; [done|]. intros c1 arc1 [= <- <-]. by exists cl.
  - unfold step_wait in Hs. destruct f; try done; step_cases Hs; born_case.
    all: unfold wait_next; by repeat case_match; apply frame_born_none.
  - unfold step_user in Hs. destruct f, a0; try done; step_cases Hs; try born_case.
    all: intros u f; by left.
  - subst s'. destruct (op_entry_cases _ _ _ _ Ho) as (c & cl & _ & _ & Hf).
    eapply frames_from_push; [by apply threads_upd_goto|]. apply frame_born_none.
    + by destruct Hf as [[k ->]|[[g ->]| ->]].
    + by destruct Hf as [[k ->]|[[g ->]| ->]].
  - unfold step_new in Hs. step_cases Hs. intros u f. by left.
  - unfold step_drop_cell in Hs. step_cases Hs.
    eapply frames_from_push; [by apply threads_upd_goto|]. by apply frame_born_none.
  - subst s'. eapply frames_from_push; [by apply threads_upd_goto|]. by apply frame_born_none.
  - subst s'. intros u f. rewrite thread_of_set_thread. case_decide; [|by left].
    simpl. by intros ?%elem_of_nil.
Qed.

(** A thread keeps its record as long as it is inside an operation. *)
Lemma step_local t a s s' u r :
  hazard_inv s -> step t a s = Ok s' ->
  th_local (thread_of s u) = Some r -> th_stack (thread_of s' u) <> [] ->
  th_local (thread_of s' u) = Some r.
Proof.
  intros Hhi Hstep Hr Hne.
  pose proof (ok_top _ _ (hi_thread _ Hhi t)) as Htop. unfold top_wf in Htop.
  assert (forall st th, th_local (thread_of s t) = None \/ th_local th = th_local (thread_of s t) ->
    threads_upd s s' t (set_stack st th) -> th_local (thread_of s' u) = Some r) as Hgo.
  { intros st th Hl Hupd. rewrite Hupd. case_decide; [subst u; simpl|done].
    destruct Hl; congruence. }
  destruct (step_cases_of _ _ _ _ Hstep).
  - unfold step_protect in Hs. destruct f; try done; rewrite Hst in Htop; step_cases Hs;
      (eapply Hgo; [|by apply threads_upd_goto]); first [by right|left; tauto].
  - unfold step_release in Hs. destruct f; try done; step_cases Hs;
      (eapply Hgo; [by right|first [by apply threads_upd_goto|by apply threads_upd_return]]).
  - unfold step_fallback in Hs. destruct f; try done; step_cases Hs;
      (eapply Hgo; [|first [by apply threads_upd_goto|by apply threads_upd_return]]); by right.
  - unfold step_crit, after_unlock in Hs. destruct cr; try done; step_cases Hs; try done;
      (eapply Hgo; [by right|first [by apply threads_upd_goto|by apply threads_upd_return]]).
  - unfold step_wait in Hs. destruct f; try done; step_cases Hs;
      (eapply Hgo; [by right|first [by apply threads_upd_goto|by apply threads_upd_return]]).
  - unfold step_user in Hs. destruct f, a0; try done; step_cases Hs; try done;
      (eapply Hgo; [by right|by apply threads_upd_goto]).
  - subst s'. eapply Hgo; [by right|by apply threads_upd_goto].
  - unfold step_new in Hs. by step_cases Hs.
  - unfold step_drop_cell in Hs. step_cases Hs. eapply Hgo; [by right|by apply threads_upd_goto].
  - subst s'. eapply Hgo; [by right|by apply threads_upd_goto].
  - subst s'. revert Hne. rewrite thread_of_set_thread. by case_decide.
Qed.

(** ** Allocations of a cell are numbered in order of replacement *)

Record gen_inv s : Prop := {
  gi_retired c cl p : cells s !! c = Some cl -> p ∈ retired cl -> p_gen p < p_gen (current cl);
  gi_store c cl t raw new : cells s !! c = Some cl -> writer cl = Some (t, CStore raw new) ->
    p_gen (current cl) < p_gen new;
}.

(** An [Arc] of the state is older than the next allocation. *)
Lemma arc_gen_lt s p : arc_inv s -> has_arc s p -> p_gen p < next_gen s.
Proof.
  intros Hai Hp. destruct (arc_live _ _ Hai Hp) as (b & Hb & <-).
  by destruct (ai_live _ Hai _ _ Hb) as (_ & _ & _ & ?).
Qed.

Lemma step_gen_inv t a s s' : inv s -> gen_inv s -> step t a s = Ok s' -> gen_inv s'.
Proof.
  intros Hi Hg Hstep. split.
  - intros c cl' p Hc' Hp. destruct (step_cell _ _ _ _ _ _ Hstep Hc').
    + rewrite Hcur. by eapply (gi_retired _ Hg); [|apply Hret].
    + rewrite Hcur. rewrite Hret in Hp. pose proof (gi_store _ Hg _ _ _ _ _ Hc Hw) as Hlt.
      destruct (li_holder _ (inv_lock _ Hi) _ _ _ _ Hc Hw) as (k & rest & _ & _ & Hcr).
      simpl in Hcr. apply elem_of_app in Hp as [Hp|Hp].
      * pose proof (gi_retired _ Hg _ _ _ Hc Hp). lia.
      * apply list_elem_of_singleton in Hp. subst. done.
    + rewrite Hret in Hp. by apply elem_of_nil in Hp.
  - intros c cl' u raw new Hc' Hw'.
    destruct (step_holder _ _ _ _ _ _ _ _ (inv_lock _ Hi) Hstep Hc' Hw').
    + rewrite Hcur. by eapply (gi_store _ Hg).
    + by destruct k.
    + assert (current cl ∈ cell_arcs cl) as Hin by left.
      pose proof (arc_gen_lt _ _ (inv_arc _ Hi) (has_arc_cell _ _ _ _ Hc Hin)) as Hlt.
      unfold step_crit, after_unlock in Hs. destruct cr; try done; step_cases Hs;
        by rewrite ?lookup_insert_eq in Hc'; simplify_eq/=.
Qed.

Lemma reachable_gen_inv s : reachable s -> gen_inv s.
Proof.
  induction 1; [by split; cbn; intros *; rewrite lookup_empty|].
  eapply step_gen_inv; [by apply reachable_inv|done..].
Qed.

(** The current allocation of a cell only gets newer. *)
Lemma current_gen_mono t a s s' c cl cl' :
  gen_inv s -> step t a s = Ok s' -> cells s !! c = Some cl -> cells s' !! c = Some cl' ->
  p_gen (current cl) <= p_gen (current cl').
Proof.
  intros Hg Hstep Hc Hc'. destruct (step_cell _ _ _ _ _ _ Hstep Hc'); simplify_eq.
  - by rewrite Hcur.
  - pose proof (gi_store _ Hg _ _ _ _ _ Hc Hw). lia.
Qed.

(** ** The fallback counter *)

(** The frames between the two updates of [fallback_readers] in [read_fallback]. *)
Definition on_fallback (c : cid) f : bool :=
  match f with
  | FLock c' LkFallback | FCrit c' LkFallback | FFbReading c' _ | FDrop (DFallback c') _ =>
      bool_decide (c' = c)
  | _ => false
  end.

Definition fallback_frames (c : cid) s : nat :=
  msum (fun th => cnt (on_fallback c) (th_stack th)) (threads s).

Definition fb_inv s : Prop :=
  forall c cl, cells s !! c = Some cl -> fallback_readers cl = fallback_frames c s.

Lemma fallback_frames_set c t th s :
  fallback_frames c (set_thread t th s) + cnt (on_fallback c) (th_stack (thread_of s t)) =
  fallback_frames c s + cnt (on_fallback c) (th_stack th).
Proof.
  unfold fallback_frames, thread_of. cbn [threads set_thread].
  destruct (threads s !! t) as [th0|] eqn:Ht; cbn [from_option default id].
  - pose proof (msum_insert (fun th : thread V => cnt (on_fallback c) (th_stack th)) _ _ _ th Ht) as E.
    cbv beta in E. unfold default, id, from_option. lia.
  - rewrite (msum_insert_fresh (fun th : thread V => cnt (on_fallback c) (th_stack th))) by done.
    cbv beta. simpl. lia.
Qed.

Lemma fallback_frames_goto c t th st s0 st0 :
  th_stack (thread_of s0 t) = st0 ->
  fallback_frames c (goto t th st s0) + cnt (on_fallback c) st0 =
  fallback_frames c s0 + cnt (on_fallback c) st.
Proof. intros <-. apply fallback_frames_set. Qed.

(** No counted frame on an idle counter. *)
Lemma fallback_none s c t f :
  fallback_frames c s = 0 -> f ∈ th_stack (thread_of s t) -> on_fallback c f = false.
Proof.
  intros H0 Hf. destruct (on_fallback c f) eqn:E; [|done].
  pose proof (cnt_elem_of _ _ _ Hf E) as Hpos. unfold thread_of in Hpos.
  destruct (threads s !! t) as [th|] eqn:Ht; simpl in Hpos; [|lia].
  unfold fallback_frames in H0.
  pose proof (msum_lookup_le (fun th => cnt (on_fallback c) (th_stack th)) _ _ _ Ht).
  cbv beta in *. lia.
Qed.

Definition counters_same s s' : Prop :=
  forall c cl', cells s' !! c = Some cl' ->
    exists cl, cells s !! c = Some cl /\ fallback_readers cl' = fallback_readers cl.

Lemma counters_same_cells s s' : cells s' = cells s -> counters_same s s'.
Proof. intros E c cl' Hc'. rewrite E in Hc'. eauto. Qed.

Lemma counters_same_insert s s' c cl cl' :
  cells s !! c = Some cl -> cells s' = <[c := cl']> (cells s) ->
  fallback_readers cl' = fallback_readers cl -> counters_same s s'.
Proof.
  intros Hc E Hf c0 cl0. rewrite E, lookup_insert. case_decide; [subst; intros [= <-]|]; eauto.
Qed.

Lemma fb_inv_same s s' :
  fb_inv s -> counters_same s s' -> (forall c, fallback_frames c s' = fallback_frames c s) ->
  fb_inv s'.
Proof.
  intros Hfb Hc Hf c cl' Hc'. destruct (Hc _ _ Hc') as (cl & Hcl & ->). rewrite Hf. by apply Hfb.
Qed.

(** The counter of [c] and the number of frames on it change together. *)
Lemma fb_inv_counter s t th f rest st' c cl n :
  fb_inv s -> th_stack (thread_of s t) = f :: rest -> cells s !! c = Some cl ->
  (forall c', c <> c' -> cnt (on_fallback c') st' = cnt (on_fallback c') (f :: rest)) ->
  n + cnt (on_fallback c) (f :: rest) = fallback_readers cl + cnt (on_fallback c) st' ->
  fb_inv (goto t th st' (set_cell c (set_fallback n cl) s)).
Proof.
  intros Hfb Hst Hc Hother Hn c' cl'. cbn [cells goto set_thread set_cell]. rewrite lookup_insert.
  pose proof (fallback_frames_goto c' t th st' (set_cell c (set_fallback n cl) s) _ Hst) as E.
  change (fallback_frames c' (set_cell _ _ s)) with (fallback_frames c' s) in E.
  case_decide as Hne.
  - subst c'. intros [= <-]. cbn [fallback_readers set_fallback]. specialize (Hfb _ _ Hc). lia.
  - intros Hc'. specialize (Hother _ Hne). specialize (Hfb _ _ Hc'). lia.
Qed.

(** A frame without a counter is replaced by one without a counter, or by the next
    frame of the same fallback read. *)
Ltac fb_frames Hst :=
  let c := fresh "c" in let E := fresh "E" in
  intros c;
  match goal with
  | |- fallback_frames _ (goto ?t ?th ?st ?s0) = _ =>
      pose proof (fallback_frames_goto c t th st s0 _ Hst) as E
  | |- fallback_frames _ (return_ ?t ?th ?st ?ret ?s0) = _ =>
      pose proof (fallback_frames_goto c t th st (set_handles (handles s0 ++ option_list ret) s0)
        _ Hst) as E
  end;
  unfold return_;
  repeat match type of E with
  | context [fallback_frames ?c (set_cell ?c1 ?cl ?s)] =>
      change (fallback_frames c (set_cell c1 cl s)) with (fallback_frames c s) in E
  | context [fallback_frames ?c (del_cell ?c1 ?s)] =>
      change (fallback_frames c (del_cell c1 s)) with (fallback_frames c s) in E
  | context [fallback_frames ?c (set_hz ?h ?s)] =>
      change (fallback_frames c (set_hz h s)) with (fallback_frames c s) in E
  | context [fallback_frames ?c (set_heap ?h ?s)] =>
      change (fallback_frames c (set_heap h s)) with (fallback_frames c s) in E
  | context [fallback_frames ?c (set_handles ?h ?s)] =>
      change (fallback_frames c (set_handles h s)) with (fallback_frames c s) in E
  end;
  cbn [cnt on_fallback fallback_entry protected_entry] in E |- *; lia.

Ltac fb_cells :=
  first [ by apply counters_same_cells
        | eapply counters_same_insert; [eassumption|done|done] ].

Lemma step_fallback_fb t f rest s s' :
  lock_inv s -> fb_inv s -> th_stack (thread_of s t) = f :: rest ->
  step_fallback t (thread_of s t) rest f s = Ok s' -> fb_inv s'.
Proof.
  intros Hli Hfb Hst Hstep. unfold step_fallback in Hstep.
  destruct f; try done; step_cases Hstep.
  all: try (eapply fb_inv_same; [done|fb_cells|try destruct k; fb_frames Hst]).
  all: eapply fb_inv_counter; [done..| |]; [intros c' Hne|].
  all: cbn [cnt on_fallback]; rewrite ?(bool_decide_eq_true_2 (c = c)) by done;
    rewrite ?bool_decide_eq_false_2 by done; try lia.
  pose proof (fallback_frames_goto c t (thread_of s t) rest s _ Hst) as E.
  cbn [cnt on_fallback] in E. rewrite (bool_decide_eq_true_2 (c = c)) in E by done.
  specialize (Hfb _ _ Heqo). lia.
Qed.

Lemma step_fb_inv t a s s' : lock_inv s -> fb_inv s -> step t a s = Ok s' -> fb_inv s'.
Proof.
  intros Hli Hfb Hstep. destruct (step_cases_of _ _ _ _ Hstep).
  - unfold step_protect in Hs. destruct f; try done; step_cases Hs;
      (eapply fb_inv_same; [done|fb_cells|try destruct k; fb_frames Hst]).
  - unfold step_release in Hs. destruct f; try done; step_cases Hs;
      (eapply fb_inv_same; [done|fb_cells|fb_frames Hst]).
  - by eapply step_fallback_fb.
  - unfold step_crit, after_unlock in Hs. destruct cr; try done; step_cases Hs;
      (eapply fb_inv_same; [done|fb_cells|]); try done; fb_frames Hst.
  - unfold step_wait in Hs. destruct f; try done; step_cases Hs;
      (eapply fb_inv_same; [done|fb_cells|unfold wait_next; repeat case_match; fb_frames Hst]).
  - unfold step_user in Hs. destruct f, a0; try done; step_cases Hs; try done;
      (eapply fb_inv_same; [done|fb_cells|fb_frames Hst]).
  - subst s'. destruct (op_entry_cases _ _ _ _ Ho) as (c & cl & _ & _ & Hf).
    eapply fb_inv_same; [done|fb_cells|]. remember (th_stack (thread_of s t)) as st eqn:Hst.
    symmetry in Hst. destruct Hf as [[k ->]|[[g ->]| ->]]; fb_frames Hst.
  - unfold step_new in Hs. step_cases Hs. intros c0 cl0. cbn [cells set_cell]. rewrite lookup_insert.
    case_decide as E; [intros [= <-]; subst c0|apply Hfb]. symmetry. apply msum_zero.
    intros u th Hth. apply cnt_zero. intros f Hf. destruct (on_fallback c f) eqn:Ef; [|done].
    destruct (li_cells _ Hli u f c) as [cl Hcl]; [|by destruct f as [| | | | | | | | | | | | | | |? []|? []| |[] ?| | |]; simplify_eq/=; case_bool_decide; simplify_eq|congruence].
    unfold thread_of. cbn in Hth. by rewrite Hth.
  - unfold step_drop_cell in Hs. step_cases Hs.
    eapply fb_inv_same; [done| |].
    + intros c1 cl1 Hc1. cbn [cells goto set_thread del_cell] in Hc1.
      apply lookup_delete_Some in Hc1 as [_ Hc1]. eauto.
    + remember (th_stack (thread_of s t)) as st eqn:Hst. symmetry in Hst. fb_frames Hst.
  - subst s'. eapply fb_inv_same; [done|fb_cells|]. remember (th_stack (thread_of s t)) as st eqn:Hst.
    symmetry in Hst. fb_frames Hst.
  - subst s'. eapply fb_inv_same; [done|fb_cells|]. intros c.
    pose proof (fallback_frames_set c t (Thread None false (th_depth (thread_of s t)) [])
      (set_hz (Local_drop (hz s) (th_local (thread_of s t))) s)) as E.
    change (thread_of (set_hz _ s) t) with (thread_of s t) in E. rewrite Hst in E.
    change (fallback_frames c (set_hz _ s)) with (fallback_frames c s) in E.
    cbn [cnt th_stack] in E. lia.
Qed.

Lemma reachable_fb_inv s : reachable s -> fb_inv s.
Proof.
  induction 1; [by intros c cl; cbn; rewrite lookup_empty|].
  eapply step_fb_inv; [by apply reachable_lock_inv|done..].
Qed.

(** ** The waiting loop *)

(** What a waiting thread waits for: the cell, whether fallback readers are
    ignored, the allocation that was current at the call, and whether the check of
    the fallback counter is behind it. *)
Definition wait_of f : option (cid * bool * nat * bool) :=
  match f with
  | FWaitFb c cof _ since => Some (c, cof, since, false)
  | FLock c (LkWait cof _ since) | FCrit c (LkWait cof _ since)
  | FWaitHead c cof _ since _ | FWaitScan c cof _ since _ _ _ _ _ => Some (c, cof, since, true)
  | _ => None
  end.

(** The announcement of address [a] in slot [i] of record [r] is going to be found
    by the rest of this round, or the round has already failed. *)
Definition will_find cl f (r i : nat) (a : addr) : Prop :=
  match f with
  | FCrit _ _ => match writer cl with Some (_, WUnlock ps) => a ∈ ps | _ => True end
  | FWaitHead _ _ _ _ ps => a ∈ ps
  | FWaitScan _ _ _ _ p ps r' j found =>
      a ∈ ps \/ (a = p /\ (found = true \/ r < r' \/ (r = r' /\ j <= i)))
  | _ => True
  end.

(** Another thread reads, on the hazard path, a value older than [since]. *)
Definition old_reader s (t : tid) (c : cid) (since : nat) (r i : nat) (a : addr) : Prop :=
  exists u f g, u <> t /\ f ∈ th_stack (thread_of s u) /\ validated f = Some (c, a, g, i) /\
    g < since /\ th_local (thread_of s u) = Some r.

Record waiting s (t : tid) f cl (c : cid) (cof : bool) (since : nat) (checked : bool) : Prop := {
  wt_since : since <= p_gen (current cl);
  wt_fallback : checked = true -> cof = false ->
    forall u arc, FFbReading c arc ∈ th_stack (thread_of s u) -> since <= p_gen arc;
  wt_hazard r i a : old_reader s t c since r i a -> will_find cl f r i a;
}.

Definition wait_inv s : Prop :=
  forall t f rest c cof since checked cl,
    th_stack (thread_of s t) = f :: rest -> wait_of f = Some (c, cof, since, checked) ->
    cells s !! c = Some cl -> waiting s t f cl c cof since checked.

(** Old readers disappear, they never appear. *)
Lemma old_reader_step v a s s' t c since cl r i ad :
  inv s -> step v a s = Ok s' -> cells s !! c = Some cl -> since <= p_gen (current cl) ->
  old_reader s' t c since r i ad -> old_reader s t c since r i ad.
Proof.
  intros Hi Hstep Hc Hle (u & f & g & Hu & Hf & Hv & Hg & Hr).
  assert (exists f0, f0 ∈ th_stack (thread_of s u) /\ validated f0 = Some (c, ad, g, i))
    as (f0 & Hf0 & Hv0).
  { destruct (step_frames _ _ _ _ Hstep u f Hf) as [?|[-> Hb]]; [by exists f|].
    destruct (fb_validated _ _ _ Hb _ _ _ _ Hv) as [?|(cl0 & Hc0 & Hcur)]; [done|].
    simplify_eq. rewrite Hcur in Hle. simpl in Hle. lia. }
  destruct (inv_prot _ Hi _ _ _ _ _ _ Hf0 Hv0) as (r0 & cl0 & Hr0 & _).
  assert (th_stack (thread_of s' u) <> []) as Hne by (intros E; by rewrite E in Hf; apply elem_of_nil in Hf).
  pose proof (step_local _ _ _ _ _ _ (inv_hazard _ Hi) Hstep Hr0 Hne).
  exists u, f0, g. repeat split; try done. congruence.
Qed.

(** New fallback readers read the current value. *)
Lemma fallback_reader_step v a s s' c since cl :
  inv s -> step v a s = Ok s' -> cells s !! c = Some cl -> since <= p_gen (current cl) ->
  (forall u arc, FFbReading c arc ∈ th_stack (thread_of s u) -> since <= p_gen arc) ->
  forall u arc, FFbReading c arc ∈ th_stack (thread_of s' u) -> since <= p_gen arc.
Proof.
  intros Hi Hstep Hc Hle Hold u arc Hf.
  destruct (step_frames _ _ _ _ Hstep u _ Hf) as [?|[-> Hb]]; [by eapply Hold|].
  destruct (fb_fallback _ _ _ Hb _ _ eq_refl) as (cl0 & Hc0 & Hw). simplify_eq.
  destruct (li_holder _ (inv_lock _ Hi) _ _ _ _ Hc Hw) as (k & rest & _ & _ & Hcr).
  simpl in Hcr. by subst.
Qed.

(** An old reader's announcement, and that it protects a retired value. *)
Lemma old_reader_slot s t c since cl r i a :
  inv s -> cells s !! c = Some cl -> since <= p_gen (current cl) ->
  old_reader s t c since r i a ->
  slot_load (hz s) r i = Some a /\ th_local (thread_of s t) <> Some r /\
  a ∈ p_addr <$> retired cl.
Proof.
  intros Hi Hc Hle (u & f & g & Hu & Hf & Hv & Hg & Hr).
  destruct (inv_prot _ Hi _ _ _ _ _ _ Hf Hv) as (r0 & cl0 & Hr0 & Hc0 & Hsl & Hin & _).
  simplify_eq. split; [done|]. split.
  - intros Ht. apply Hu. by eapply (hi_owner _ (inv_hazard _ Hi)).
  - apply list_elem_of_fmap. exists (Ptr a g). split; [done|].
    apply elem_of_cons in Hin as [E|?]; [|done]. rewrite <- E in Hle. simpl in Hle. lia.
Qed.

Lemma step_threads t a s s' : step t a s = Ok s' -> exists th, threads_upd s s' t th.
Proof.
  intros Hstep.
  assert ((forall u, thread_of s' u = thread_of s u) -> exists th, threads_upd s s' t th) as Hsame
    by (intros E; exists (thread_of s t); by apply threads_upd_same).
  destruct (step_cases_of _ _ _ _ Hstep).
  - unfold step_protect in Hs. destruct f; try done; step_cases Hs;
      eexists; by apply threads_upd_goto.
  - unfold step_release in Hs. destruct f; try done; step_cases Hs;
      eexists; first [by apply threads_upd_goto|by apply threads_upd_return].
  - unfold step_fallback in Hs. destruct f; try done; step_cases Hs;
      eexists; first [by apply threads_upd_goto|by apply threads_upd_return].
  - unfold step_crit, after_unlock in Hs. destruct cr; try done; step_cases Hs; try (by apply Hsame);
      eexists; first [by apply threads_upd_goto|by apply threads_upd_return].
  - unfold step_wait in Hs. destruct f; try done; step_cases Hs;
      eexists; first [by apply threads_upd_goto|by apply threads_upd_return].
  - unfold step_user in Hs. destruct f, a0; try done; step_cases Hs; try (by apply Hsame);
      eexists; by apply threads_upd_goto.
  - subst s'. eexists. by apply threads_upd_goto.
  - unfold step_new in Hs. step_cases Hs. by apply Hsame.
  - unfold step_drop_cell in Hs. step_cases Hs. eexists. by apply threads_upd_goto.
  - subst s'. eexists. by apply threads_upd_goto.
  - subst s'. eexists. intros u. by rewrite thread_of_set_thread.
Qed.

Lemma wait_of_cell f c cof since checked :
  wait_of f = Some (c, cof, since, checked) -> frame_cell f = Some c.
Proof. by destruct f as [| | | | | | | | | | | | | | |? []|? []| | | | |]; intros; simplify_eq/=. Qed.

(** Everything but the position of the scan carries over from one state to the
    next. *)
Lemma waiting_next v a s s' t f' cl cl' c cof since checked :
  inv s -> gen_inv s -> step v a s = Ok s' -> cells s !! c = Some cl -> cells s' !! c = Some cl' ->
  since <= p_gen (current cl) ->
  (checked = true -> cof = false ->
   forall u arc, FFbReading c arc ∈ th_stack (thread_of s u) -> since <= p_gen arc) ->
  (forall r i ad, old_reader s t c since r i ad -> will_find cl' f' r i ad) ->
  waiting s' t f' cl' c cof since checked.
Proof.
  intros Hi Hg Hstep Hc Hc' Hle Hfb Hhz. split.
  - pose proof (current_gen_mono _ _ _ _ _ _ _ Hg Hstep Hc Hc'). lia.
  - intros Hch Hcof. by eapply fallback_reader_step, Hfb.
  - intros r i ad Hold. by eapply Hhz, old_reader_step.
Qed.

(** A step of another thread. *)
Lemma wait_other v a s s' t f rest c cof since checked cl' :
  inv s -> gen_inv s -> wait_inv s -> step v a s = Ok s' -> v <> t ->
  th_stack (thread_of s' t) = f :: rest -> wait_of f = Some (c, cof, since, checked) ->
  cells s' !! c = Some cl' -> waiting s' t f cl' c cof since checked.
Proof.
  intros Hi Hg Hw Hstep Hne Hst' Hf Hc'.
  destruct (step_threads _ _ _ _ Hstep) as [th Hupd].
  assert (thread_of s' t = thread_of s t) as Ht by (by rewrite Hupd, decide_False).
  rewrite Ht in Hst'.
  destruct (li_cells _ (inv_lock _ Hi) t f c) as [cl Hc]; [rewrite Hst'; left|by eapply wait_of_cell|].
  destruct (Hw _ _ _ _ _ _ _ _ Hst' Hf Hc) as [Hsince Hfb Hhz].
  eapply waiting_next; [done..|]. intros r i ad Hold. specialize (Hhz _ _ _ Hold).
  destruct f; try done. simpl in *. destruct k; try done. simplify_eq.
  pose proof (step_inv _ _ _ _ Hi Hstep) as Hi'. rewrite <- Ht in Hst'.
  destruct (li_crit _ (inv_lock _ Hi') _ _ _ _ Hst') as (cl0 & cr & Hc0 & Hw0). simplify_eq.
  rewrite Hw0. destruct cr; try done.
  destruct (step_holder _ _ _ _ _ _ _ _ (inv_lock _ Hi) Hstep Hc' Hw0); [|congruence..].
  simplify_eq. by rewrite Hw1 in Hhz.
Qed.

Lemma wait_next_finds cl c cof round since p ps cursor found r i a :
  a ∈ ps \/ (a = p /\ (found = true \/ match cursor with Some r' => r <= r' | None => False end)) ->
  will_find cl (wait_next c cof round since p ps cursor found) r i a.
Proof.
  intros Hf. unfold wait_next. destruct cursor as [r'|]; simpl.
  - destruct Hf as [?|[? [?|?]]]; [by left|by right; auto|]. right. split; [done|]. lia.
  - destruct found; [done|]. simpl. naive_solver.
Qed.

Lemma wait_next_of c cof round since p ps cursor found :
  wait_of (wait_next c cof round since p ps cursor found) =
  Some (c, cof, since, match cursor with Some _ => true | None => negb found end).
Proof. unfold wait_next. by destruct cursor, found. Qed.

(** The scan reads its slot and moves on. *)
Lemma scan_finds s t c since cl r j rec p (ps : list addr) found :
  inv s -> cells s !! c = Some cl -> since <= p_gen (current cl) ->
  records (hz s) !! r = Some rec ->
  (forall r0 i a, old_reader s t c since r0 i a ->
     a ∈ ps \/ (a = p /\ (found = true \/ r0 < r \/ (r0 = r /\ j <= i)))) ->
  forall r0 i a, old_reader s t c since r0 i a ->
    a ∈ ps \/ (a = p /\ (found = true \/
      (if decide (th_local (thread_of s t) = Some r) then r0 < r
       else slot_load (hz s) r j = Some p \/ r0 < r \/ (r0 = r /\ S j <= i)))).
Proof.
  intros Hi Hc Hle Hrec Hf r0 i a Hold.
  destruct (old_reader_slot _ _ _ _ _ _ _ _ Hi Hc Hle Hold) as (Hsl & Hnot & _).
  destruct (Hf _ _ _ Hold) as [?|[-> [?|[?|[-> Hj]]]]]; [by left|right..]; (split; [done|]); auto.
  - right. case_decide; auto.
  - right. case_decide; [congruence|]. destruct (decide (j = i)) as [->|]; [by left|].
    right. right. lia.
Qed.

(** The record after [r]. *)
Lemma below_next h r rec r0 :
  hz_wf h -> records h !! r = Some rec -> r0 < r ->
  match next rec with Some r' => r0 <= r' | None => False end.
Proof. intros Hwf Hrec Hlt. rewrite (hz_next _ Hwf _ _ Hrec). destruct r; simpl; lia. Qed.

Lemma below_head h r i a :
  hz_wf h -> slot_load h r i = Some a -> match HEAD h with Some r' => r <= r' | None => False end.
Proof.
  intros Hwf [Hr _]%(slot_load_range _ _ _ _ Hwf). rewrite (hz_head _ Hwf).
  destruct (length (records h)); simpl; lia.
Qed.

Lemma wait_scan_own t a s f' rest rest' c cof round since p ps r j found s' c' cof' since' checked cl' :
  inv s -> gen_inv s -> wait_inv s ->
  th_stack (thread_of s t) = FWaitScan c cof round since p ps r j found :: rest ->
  step t a s = Ok s' ->
  step_wait t (thread_of s t) rest (FWaitScan c cof round since p ps r j found) s = Ok s' ->
  th_stack (thread_of s' t) = f' :: rest' -> wait_of f' = Some (c', cof', since', checked) ->
  cells s' !! c' = Some cl' -> waiting s' t f' cl' c' cof' since' checked.
Proof.
  intros Hi Hg Hwi Hst Hstep0 Hstep Hst' Hf' Hc'.
  destruct (li_cells _ (inv_lock _ Hi) t (FWaitScan c cof round since p ps r j found) c)
    as [cl Hc]; [rewrite Hst; left|done|].
  destruct (Hwi _ _ _ _ _ _ _ _ Hst eq_refl Hc) as [Hle Hfb Hhz]. simpl in Hhz.
  pose proof (hi_wf _ (inv_hazard _ Hi)) as Hwf. cbn [step_wait] in Hstep.
  destruct (records (hz s) !! r) as [rec|] eqn:Hrec; [|done].
  pose proof (scan_finds _ _ _ _ _ _ _ _ _ _ _ Hi Hc Hle Hrec Hhz) as Hscan.
  pose proof (fun r0 => below_next _ _ _ r0 Hwf Hrec) as Hbelow.
  assert (forall r0 i a, old_reader s t c since r0 i a -> i < SLOTS) as Hslots.
  { intros r0 i ad Hold. destruct (old_reader_slot _ _ _ _ _ _ _ _ Hi Hc Hle Hold) as (Hsl & _).
    by apply (slot_load_range _ _ _ _ Hwf) in Hsl as [_ ?]. }
  repeat case_decide; simplify_eq; rewrite thread_of_goto, decide_True in Hst' by done;
    simpl in Hst'; injection Hst' as <- <-; rewrite ?wait_next_of in Hf'; simplify_eq/=;
    (eapply (waiting_next t a s); [done|done|done|eassumption|done|done|by intros _; apply Hfb|]);
    intros r0 i ad Hold;
    try apply wait_next_finds; simpl;
    pose proof (Hslots _ _ _ Hold); destruct (Hscan _ _ _ Hold) as [?|[? Hd]]; auto; right;
    (split; [done|]).
  - destruct Hd as [?|?]; [by left|right; by apply Hbelow].
  - tauto.
  - destruct Hd as [?|[?|[?|[? ?]]]]; [by left|done|right; by apply Hbelow|lia].
Qed.

(** Critical sections that do not wait. *)
Lemma crit_no_wait oa c k t rest cl cr s s' f' rest' :
  hazard_inv s -> th_stack (thread_of s t) = FCrit c k :: rest ->
  (forall cof round since, k <> LkWait cof round since) ->
  step_crit oa c k t (thread_of s t) rest cl cr s = Ok s' ->
  th_stack (thread_of s' t) = f' :: rest' -> wait_of f' = None.
Proof.
  intros Hhi Hst Hk Hs Hst'. pose proof (hi_thread _ Hhi t) as [_ Hsh _ _].
  rewrite Hst in Hsh. simpl in Hsh.
  assert (wait_of (FCrit c k) = None) as Hnone by (by destruct k; try done; destruct (Hk cof round since)).
  assert (th_stack (thread_of s t) = f' :: rest' -> wait_of f' = None) as Hsame
    by (rewrite Hst; by intros [= <- <-]).
  unfold step_crit, after_unlock in Hs. destruct cr; try done; step_cases Hs; try (by apply Hsame);
    rewrite ?thread_of_goto, ?thread_of_return, decide_True in Hst' by done; simpl in Hst';
    try (by injection Hst' as <- <-).
  rewrite Hst' in Hsh. apply Forall_inv in Hsh. by destruct f'.
Qed.

Lemma wait_crit_own oa t a s s' c0 cof0 round since0 rest cl cr f' rest' c cof since checked cl' :
  inv s -> gen_inv s -> wait_inv s -> step t a s = Ok s' ->
  th_stack (thread_of s t) = FCrit c0 (LkWait cof0 round since0) :: rest ->
  cells s !! c0 = Some cl -> writer cl = Some (t, cr) ->
  step_crit oa c0 (LkWait cof0 round since0) t (thread_of s t) rest cl cr s = Ok s' ->
  th_stack (thread_of s' t) = f' :: rest' -> wait_of f' = Some (c, cof, since, checked) ->
  cells s' !! c = Some cl' -> waiting s' t f' cl' c cof since checked.
Proof.
  intros Hi Hg Hwi Hstep Hst Hc Hw Hs Hst' Hf' Hc'.
  destruct (li_holder _ (inv_lock _ Hi) _ _ _ _ Hc Hw) as (k & rest0 & Hst0 & Hk & _).
  rewrite Hst in Hst0. injection Hst0 as <- <-.
  destruct (Hwi _ _ _ _ _ _ _ _ Hst eq_refl Hc) as [Hle Hfb Hhz].
  destruct cr; try done; simpl in Hs; injection Hs as <-.
  - change (th_stack (thread_of s t) = f' :: rest') in Hst'. rewrite Hst in Hst'.
    injection Hst' as <- <-. simplify_eq/=. rewrite lookup_insert_eq in Hc'. simplify_eq/=.
    eapply (waiting_next t a s); [done|done|done|done|apply lookup_insert_eq|done|done|].
    intros r i ad Hold. simpl. by eapply old_reader_slot.
  - rewrite thread_of_goto, decide_True in Hst' by done. simpl in Hst'. injection Hst' as <- <-.
    simplify_eq/=. eapply (waiting_next t a s); [done|done|done|done|done|done|done|].
    intros r i ad Hold. specialize (Hhz _ _ _ Hold). simpl in Hhz. by rewrite Hw in Hhz.
Qed.

(** The other steps of a waiting thread. *)
Lemma wait_step_own t a s s' f rest f' rest' c cof since checked cl' :
  inv s -> gen_inv s -> fb_inv s -> wait_inv s -> step t a s = Ok s' ->
  th_stack (thread_of s t) = f :: rest -> step_wait t (thread_of s t) rest f s = Ok s' ->
  th_stack (thread_of s' t) = f' :: rest' -> wait_of f' = Some (c, cof, since, checked) ->
  cells s' !! c = Some cl' -> waiting s' t f' cl' c cof since checked.
Proof.
  intros Hi Hg Hfbi Hwi Hstep Hst Hs Hst' Hf' Hc'.
  pose proof (hi_thread _ (inv_hazard _ Hi) t) as [_ Hsh _ _]. rewrite Hst in Hsh. simpl in Hsh.
  destruct f; try done; [| |by eapply wait_scan_own].
  - simpl in Hs. destruct (cells s !! c0) as [cl|] eqn:Hc; [|done].
    destruct (Hwi _ _ _ _ _ _ _ _ Hst eq_refl Hc) as [Hle _ _].
    destruct (cof0 || bool_decide (fallback_readers cl = 0)) eqn:Hb; injection Hs as <-;
      rewrite thread_of_goto, decide_True in Hst' by done; simpl in Hst'; injection Hst' as <- <-;
      simplify_eq/=; (eapply (waiting_next t a s); [done|done|done|eassumption|done|done| |done]);
      [|done].
    intros _ -> u arc Hf. simpl in Hb. apply bool_decide_eq_true in Hb.
    rewrite (Hfbi _ _ Hc) in Hb. pose proof (fallback_none _ _ _ _ Hb Hf) as Hno. simpl in Hno.
    by rewrite bool_decide_eq_true_2 in Hno.
  - destruct ps as [|p ps]; simpl in Hs; injection Hs as <-.
    { rewrite thread_of_return, decide_True in Hst' by done. simpl in Hst'.
      rewrite Hst' in Hsh. apply Forall_inv in Hsh. by destruct f'. }
    rewrite thread_of_goto, decide_True in Hst' by done. simpl in Hst'. injection Hst' as <- <-.
    rewrite wait_next_of in Hf'. injection Hf' as -> -> -> _. cbn in Hc'.
    destruct (Hwi _ _ _ _ _ _ _ _ Hst eq_refl Hc') as [Hle Hfb Hhz].
    eapply (waiting_next t a s); [done|done|done|done|done|done|by intros _; apply Hfb|].
    intros r i ad Hold. apply wait_next_finds.
    destruct (old_reader_slot _ _ _ _ _ _ _ _ Hi Hc' Hle Hold) as (Hsl & _).
    specialize (Hhz _ _ _ Hold). simpl in Hhz. apply elem_of_cons in Hhz as [->|?]; [right|by left].
    split; [done|]. right. by eapply below_head; [apply Hi|].
Qed.

Lemma wait_own t a s s' f' rest' c cof since checked cl' :
  inv s -> gen_inv s -> fb_inv s -> wait_inv s -> step t a s = Ok s' ->
  th_stack (thread_of s' t) = f' :: rest' -> wait_of f' = Some (c, cof, since, checked) ->
  cells s' !! c = Some cl' -> waiting s' t f' cl' c cof since checked.
Proof.
  intros Hi Hg Hfbi Hwi Hstep Hst' Hf' Hc'.
  pose proof (hi_thread _ (inv_hazard _ Hi) t) as [_ Hsh _ _].
  assert (forall st f rest, Forall (fun f => user_frame f = true) st -> st = f :: rest ->
    wait_of f = None) as Huser by (by intros st f rest Hu ->; apply Forall_inv in Hu; destruct f).
  assert (in_user_code (th_stack (thread_of s t)) = true ->
    th_stack (thread_of s' t) = th_stack (thread_of s t) -> False) as Hidle.
  { intros Hu E. rewrite <- E, Hst' in Hu. by destruct f'. }
  pose proof Hstep as Hstep0. destruct (step_cases_of _ _ _ _ Hstep).
  - unfold step_protect in Hs. destruct f; try done; step_cases Hs;
      rewrite thread_of_goto, decide_True in Hst' by done; simpl in Hst'; injection Hst' as <- <-;
      try done; by destruct k.
  - rewrite Hst in Hsh. unfold step_release in Hs. destruct f; try done; step_cases Hs;
      rewrite ?thread_of_goto, ?thread_of_return, decide_True in Hst' by done; simpl in Hst';
      try (rewrite (Huser _ _ _ Hsh Hst') in Hf'; done); by injection Hst' as <- <-.
  - rewrite Hst in Hsh. unfold step_fallback in Hs. destruct f; try done; step_cases Hs;
      rewrite ?thread_of_goto, ?thread_of_return, decide_True in Hst' by done; simpl in Hst';
      try (rewrite (Huser _ _ _ Hsh Hst') in Hf'; done); injection Hst' as <- <-; try done.
    destruct k; try done. simplify_eq/=.
    destruct (Hwi _ _ _ _ _ _ _ _ Hst eq_refl Heqo) as [Hle Hfb Hhz].
    eapply (waiting_next t a s); [done|done|done|done|done|done|done|].
    rewrite lookup_insert_eq in Hc'. by simplify_eq/=.
  - destruct k; try (rewrite (crit_no_wait _ _ _ _ _ _ _ _ _ _ _ (inv_hazard _ Hi) Hst ltac:(done) Hs Hst') in Hf'; done).
    by eapply wait_crit_own.
  - by eapply wait_step_own.
  - rewrite Hst in Hsh. unfold step_user in Hs. destruct f, a0; try done; step_cases Hs;
      try (destruct Hidle; [by rewrite Hst|done]);
      rewrite ?thread_of_goto, decide_True in Hst' by done; simpl in Hst'; by injection Hst' as <- <-.
  - subst s'. rewrite thread_of_goto, decide_True in Hst' by done. injection Hst' as <- <-.
    destruct (op_entry_cases _ _ _ _ Ho) as (c1 & cl & Hc & _ & Hf).
    destruct Hf as [[k ->]|[[g ->]| ->]]; try done. simplify_eq/=.
    eapply (waiting_next t a s); [done|done|done|eassumption|done|lia|done|done].
  - unfold step_new in Hs. step_cases Hs. by destruct Hidle.
  - unfold step_drop_cell in Hs. step_cases Hs.
    rewrite thread_of_goto, decide_True in Hst' by done. by injection Hst' as <- <-.
  - subst s'. rewrite thread_of_goto, decide_True in Hst' by done. by injection Hst' as <- <-.
  - subst s'. by rewrite thread_of_set_thread, decide_True in Hst'.
Qed.

Lemma reachable_wait_inv s : reachable s -> wait_inv s.
Proof.
  induction 1 as [|s v a s' Hs IH Hstep].
  { intros t f rest c cof since checked cl Hst. by unfold thread_of in Hst. }
  intros t f rest c cof since checked cl Hst Hf Hc.
  pose proof (reachable_inv _ Hs) as Hi. pose proof (reachable_gen_inv _ Hs) as Hg.
  destruct (decide (v = t)) as [->|Hne].
  - eapply wait_own; [exact Hi|exact Hg|by apply reachable_fb_inv|done|done|done|done|done].
  - by eapply wait_other.
Qed.

(** ** The theorem *)

(** What the invariant says when no pointer is left to wait for. *)
Lemma wait_inv_done s t c cof round since rest :
  reachable s -> th_stack (thread_of s t) = FWaitHead c cof round since [] :: rest ->
  (forall u f a g i, u <> t -> f ∈ th_stack (thread_of s u) ->
     validated f = Some (c, a, g, i) -> since <= g) /\
  (cof = false -> forall u arc, FFbReading c arc ∈ th_stack (thread_of s u) -> since <= p_gen arc).
Proof.
  intros Hs Hst. pose proof (reachable_inv _ Hs) as Hi.
  destruct (li_cells _ (inv_lock _ Hi) t (FWaitHead c cof round since []) c) as [cl Hc];
    [rewrite Hst; left|done|].
  destruct (reachable_wait_inv _ Hs _ _ _ _ _ _ _ _ Hst eq_refl Hc) as [Hle Hfb Hhz].
  split; [|by apply Hfb]. intros u f a g i Hu Hf Hv.
  destruct (decide (since <= g)) as [|Hlt]; [done|].
  destruct (inv_prot _ Hi _ _ _ _ _ _ Hf Hv) as (r & cl0 & Hr & _).
  assert (old_reader s t c since r i a) as Hold by (exists u, f, g; repeat split; try done; lia).
  specialize (Hhz _ _ _ Hold). simpl in Hhz. by apply elem_of_nil in Hhz.
Qed.

(** (C13) When [wait_for_retired_readers] returns, every other thread that is
    inside a [read] (or a [load_arc_if]) of the cell on the hazard path got its
    value after the call: the value is the one that was current when the wait was
    entered, or a newer one.  Unless the caller was itself inside a fallback read,
    the same holds for all readers on the fallback path.  [since] is the
    allocation that was current at the call. *)
Theorem wait_no_old_readers s t c cof round since rest :
  reachable s -> th_stack (thread_of s t) = FWaitHead c cof round since [] :: rest ->
  (forall u f a g i, u <> t -> f ∈ th_stack (thread_of s u) ->
     validated f = Some (c, a, g, i) -> since <= g) /\
  (cof = false -> forall u arc, FFbReading c arc ∈ th_stack (thread_of s u) -> since <= p_gen arc).
Proof. apply wait_inv_done. Qed.

(** The fallback counter is exact: in every reachable state it is the number
    of calls that are between the two counter updates of [read_fallback]. *)
Theorem fallback_counter_exact s c cl :
  reachable s -> cells s !! c = Some cl -> fallback_readers cl = fallback_frames c s.
Proof. intros Hs Hc. by apply reachable_fb_inv. Qed.
End Wait.

(** ** Examples *)

(** A reader of the second value while the writer of it has waited for the readers
    of the first. *)
Definition waited : sched :=
  reading ++ (1, AReturn) :: nexts 1 2 ++ whole_update 2 0 add1 102 1 ++ nexts 2 2 ++
  (1, ACall (ORead 0)) :: nexts 1 3 ++ (2, ACall (OWait 0)) :: nexts 2 4.

Lemma wait_no_old_readers_witness :
  (forall u f a g i, u <> 2 -> f ∈ th_stack (thread_of (state_after waited) u) ->
     validated f = Some (0, a, g, i) -> 2 <= g) /\
  (false = false -> forall u arc, FFbReading 0 arc ∈ th_stack (thread_of (state_after waited) u) ->
     2 <= p_gen arc).
Proof.
  apply (wait_no_old_readers (state_after waited) 2 0 false 0 2 []);
    [apply runs_reachable|]; by vm_compute.
Defined.

(** Nine reads deep, the last one on the fallback path. *)
Definition nine_reads : sched := new_cells ++ eight_reads 1 0 0 ++ fallback_read 1 0.

Lemma fallback_counter_exact_witness :
  exists cl, cells (state_after nine_reads) !! 0 = Some cl /\
    fallback_readers cl = fallback_frames 0 (state_after nine_reads) /\ fallback_readers cl = 1.
Proof.
  eexists. split; [by vm_compute|]. split; [|by vm_compute].
  apply (fallback_counter_exact (state_after nine_reads) 0); [|by vm_compute].
  apply runs_reachable. by vm_compute.
Defined.
