(* ===== verification/SnapRetry.v ===== *)
(** Lock-freedom of [SnapCell::protect] (src/src/snapshot.rs): a reader repeats its
    announcement only because some [update] went through in the meantime. *)
From S2P Require Import Prelude Hazard SnapCell SnapMachine SnapTraces SnapHazardInv SnapArcInv.
From S2P Require Import SnapLockInv SnapProtect SnapSafety SnapSpec SnapWait.

Section Retry.
Context {V : Type}.
Implicit Types (s : state V) (th : thread V) (f : frame V) (st : list (frame V)) (cl : cell V).

(** The pointer a reader has loaded and not validated yet. *)
Definition loaded f : option (cid * ptr) :=
  match f with
  | FPin c _ p | FAcqHead c _ p | FAcqTry c _ p _ | FAcqLoad c _ p | FAcqCas c _ p _
  | FValidate c _ p _ => Some (c, p)
  | FProtect c _ _ q _ => Some (c, q)
  | _ => None
  end.

Lemma loaded_cell f c p : loaded f = Some (c, p) -> frame_cell f = Some c.
Proof. by destruct f; intros; simplify_eq/=. Qed.

(** Where such a pointer comes from: it was there before, or it is current. *)
Definition load_born s (t : tid) f : Prop :=
  forall c p, loaded f = Some (c, p) ->
    (exists f0, f0 ∈ th_stack (thread_of s t) /\ loaded f0 = Some (c, p)) \/
    exists cl, cells s !! c = Some cl /\ current cl = p.

Definition loads_from s s' (t : tid) : Prop :=
  forall u f, f ∈ th_stack (thread_of s' u) ->
    f ∈ th_stack (thread_of s u) \/ (u = t /\ load_born s t f).

Lemma load_born_none s t f : loaded f = None -> load_born s t f.
Proof. intros Hl c p Hc. congruence. Qed.

Lemma loads_top s s' t th f rest st' :
  th_stack (thread_of s t) = f :: rest -> threads_upd s s' t (set_stack (st' ++ rest) th) ->
  (forall f', f' ∈ st' -> load_born s t f') -> loads_from s s' t.
Proof.
  intros Hst Hupd Hborn u f'. rewrite Hupd. case_decide; [subst u; simpl|by left].
  intros [Hf|Hf]%elem_of_app; [by right; auto|]. left. rewrite Hst. by right.
Qed.

Lemma loads_push s s' t f :
  threads_upd s s' t (set_stack (f :: th_stack (thread_of s t)) (thread_of s t)) ->
  loaded f = None -> loads_from s s' t.
Proof.
  intros Hupd Hborn u f'. rewrite Hupd. case_decide; [subst u; simpl|by left].
  intros [->|Hf]%elem_of_cons; [right|by left]. split; [done|]. by apply load_born_none.
Qed.

Ltac loads_case :=
  match goal with
  | |- loads_from _ (goto _ _ (?f' :: ?rest) _) _ =>
      eapply (loads_top _ _ _ _ _ _ [f']);
        [ eassumption | simpl; apply threads_upd_goto; done
        | intros ? ->%list_elem_of_singleton; try (by apply load_born_none) ]
  | |- loads_from _ (goto _ _ ?rest _) _ =>
      eapply (loads_top _ _ _ _ _ _ []);
        [ eassumption | simpl; apply threads_upd_goto; done | by intros ? ?%elem_of_nil ]
  | |- loads_from _ (return_ _ _ ?rest _ _) _ =>
      eapply (loads_top _ _ _ _ _ _ []);
        [ eassumption | simpl; apply threads_upd_return; done | by intros ? ?%elem_of_nil ]
  end.

Lemma step_protect_loads sp t f rest s s' :
  th_stack (thread_of s t) = f :: rest ->
  step_protect sp t (thread_of s t) rest f s = Ok s' -> loads_from s s' t.
Proof.
  intros Hst Hs.
  assert (forall f', loaded f' = loaded f -> load_born s t f') as Hkeep.
  { intros f' Hl c p Hc. left. exists f. rewrite Hst, <- Hl. split; [left|done]. }
  unfold step_protect in Hs. destruct f; try done; step_cases Hs; loads_case;
    try (by apply Hkeep); try (by destruct k; apply load_born_none).
  all: intros c1 p1 [= <- <-]; right; eauto.
Qed.

Lemma step_loads t a s s' : step t a s = Ok s' -> loads_from s s' t.
Proof.
  intros Hstep. destruct (step_cases_of _ _ _ _ Hstep).
  - by eapply step_protect_loads.
  - unfold step_release in Hs. destruct f; try done; step_cases Hs; loads_case.
  - unfold step_fallback in Hs. destruct f; try done; step_cases Hs; loads_case.
  - unfold step_crit, after_unlock in Hs. destruct cr; try done; step_cases Hs; try loads_case.
    all: intros ? ?; by left.
  - unfold step_wait in Hs. destruct f; try done; step_cases Hs; loads_case.
    all: unfold wait_next; by repeat case_match; apply load_born_none.
  - unfold step_user in Hs. destruct f, a0; try done; step_cases Hs; try loads_case.
    all: intros u f; by left.
  - subst s'. destruct (op_entry_cases _ _ _ _ Ho) as (c & cl & _ & _ & Hf).
    eapply loads_push; [by apply threads_upd_goto|]. by destruct Hf as [[k ->]|[[g ->]| ->]].
  - unfold step_new in Hs. step_cases Hs. intros u f. by left.
  - unfold step_drop_cell in Hs. step_cases Hs.
    eapply loads_push; [by apply threads_upd_goto|done].
  - subst s'. eapply loads_push; [by apply threads_upd_goto|done].
  - subst s'. intros u f. rewrite thread_of_set_thread. case_decide; [|by left].
    simpl. by intros ?%elem_of_nil.
Qed.

(** A pointer that was loaded is still current, or a newer allocation is. *)
Definition load_inv s : Prop :=
  forall t f c p cl, f ∈ th_stack (thread_of s t) -> loaded f = Some (c, p) ->
    cells s !! c = Some cl -> current cl = p \/ p_gen p < p_gen (current cl).

Lemma step_load_inv t a s s' :
  inv s -> gen_inv s -> load_inv s -> step t a s = Ok s' -> load_inv s'.
Proof.
  intros Hi Hg Hl Hstep u f c p cl' Hf Hlo Hc'.
  assert (exists cl, cells s !! c = Some cl /\ (current cl = p \/ p_gen p < p_gen (current cl)))
    as (cl & Hc & Hcl).
  { destruct (step_loads _ _ _ _ Hstep u f Hf) as [Hold|[-> Hborn]].
    - destruct (li_cells _ (inv_lock _ Hi) u f c Hold) as [cl Hc]; [by eapply loaded_cell|]. eauto.
    - destruct (Hborn _ _ Hlo) as [(f0 & Hf0 & Hlo0)|(cl & Hc & Hcur)]; [|eauto].
      destruct (li_cells _ (inv_lock _ Hi) t f0 c Hf0) as [cl Hc]; [by eapply loaded_cell|]. eauto. }
  destruct (step_cell _ _ _ _ _ _ Hstep Hc') as [cl0 Hc0 Hcur _|cl0 v raw new Hc0 Hw Hcur _|Hc0 _];
    simplify_eq.
  - by rewrite Hcur.
  - pose proof (gi_store _ Hg _ _ _ _ _ Hc Hw) as Hlt. right.
    destruct Hcl as [<-|Hlt']; lia.
Qed.

Lemma reachable_load_inv s : reachable s -> load_inv s.
Proof.
  induction 1 as [|s t a s' Hr IH Hs].
  - intros t f c p cl Hf. simpl. unfold thread_of in Hf. simpl in Hf.
    rewrite lookup_empty in Hf. by apply elem_of_nil in Hf.
  - eapply step_load_inv; [by apply reachable_inv|by apply reachable_gen_inv|done..].
Qed.

(** (C31) [protect] is lock-free.  Its validation either succeeds, or fails because an
    [update] has stored a newer allocation in the cell since the pointer was loaded;
    it then goes on with that newer pointer.  So a reader repeats its announcement at
    most once for each update that goes through meanwhile. *)
Theorem protect_retry_progress s t c (k : rkind V) p i rest cl s' :
  reachable s -> th_stack (thread_of s t) = FValidate c k p i :: rest ->
  cells s !! c = Some cl -> step t ANext s = Ok s' ->
  th_stack (thread_of s' t) = protected_entry c k p (p_gen (current cl)) i :: rest \/
  (th_stack (thread_of s' t) = FProtect c k p (current cl) i :: rest /\
   p_gen p < p_gen (current cl)).
Proof.
  intros Hs Hst Hc Hstep. unfold step in Hstep. rewrite Hst in Hstep.
  cbn [step_frame step_protect] in Hstep. rewrite Hc in Hstep. case_decide as Ha; simplify_eq.
  - left. by rewrite thread_of_goto, decide_True.
  - right. split; [by rewrite thread_of_goto, decide_True|].
    destruct (reachable_load_inv _ Hs t (FValidate c k p i) c p cl) as [Heq|]; try done.
    + rewrite Hst. left.
    + by rewrite Heq in Ha.
Qed.
End Retry.

(** A reader that has announced the first value when a writer replaces it. *)
Definition overtaken : sched :=
  new_cells ++ (1, ACall (ORead 0)) :: nexts 1 7 ++ update_to_store 2 0 add1 102 ++ nexts 2 1.

Lemma protect_retry_progress_witness :
  exists cl s', cells (state_after overtaken) !! 0 = Some cl /\
    step 1 ANext (state_after overtaken) = Ok s' /\
    (th_stack (thread_of s' 1) = protected_entry 0 KRead (Ptr 100 0) (p_gen (current cl)) 0 :: [] \/
     (th_stack (thread_of s' 1) = FProtect 0 KRead (Ptr 100 0) (current cl) 0 :: [] /\
      p_gen (Ptr 100 0) < p_gen (current cl))) /\ p_gen (current cl) = 2.
Proof.
  eexists. exists (state_after (overtaken ++ nexts 1 1)).
  split; [by vm_compute|]. split; [by vm_compute|]. split; [|by vm_compute].
  apply (protect_retry_progress (state_after overtaken) 1 0 KRead (Ptr 100 0) 0 []);
    [apply runs_reachable|..]; by vm_compute.
Defined.
