(* ===== verification/SnapWaitLive.v ===== *)
(** The waiting loop of [wait_for_retired_readers] (src/src/snapshot.rs), one round at a
    time: what a round decides, and that the wait ends. *)
From S2P Require Import Prelude Hazard HazardSpec SnapCell SnapMachine SnapTraces SnapHazardInv SnapArcInv.
From S2P Require Import SnapLockInv SnapProtect SnapSafety SnapProgress.

Section Rounds.
Context {V : Type}.
Implicit Types (s : state V) (th : thread V) (f : frame V) (st : list (frame V)) (cl : cell V).

Lemma goto_goto t th st st' s :
  goto t (thread_of (goto t th st s) t) st' (goto t th st s) = goto t th st' s.
Proof.
  rewrite thread_of_goto, decide_True by done. unfold goto, set_thread. simpl.
  by rewrite insert_insert_eq.
Qed.

Lemma goto_stack t th st s : th_stack (thread_of (goto t th st s) t) = st.
Proof. by rewrite thread_of_goto, decide_True. Qed.

Lemma goto_local t th st s : th_local (thread_of (goto t th st s) t) = th_local th.
Proof. by rewrite thread_of_goto, decide_True. Qed.

Lemma return_none t th st s : return_ t th st None s = goto t th st s.
Proof. unfold return_. simpl. rewrite app_nil_r. by destruct s. Qed.

Lemma solo_trans t n m s (P Q : state V -> Prop) :
  solo_reaches t n s P -> (forall s', P s' -> solo_reaches t m s' Q) -> solo_reaches t (n + m) s Q.
Proof.
  intros (l1 & s1 & Hs1 & Hn & Hr1 & HP) Hk. destruct (Hk _ HP) as (l2 & s2 & Hs2 & Hm & Hr2 & HQ).
  exists (l1 ++ l2), s2. split; [by apply Forall_app|]. rewrite length_app. split; [lia|].
  split; [|done]. by rewrite run_app, Hr1.
Qed.

Lemma solo_weaken t n s (P Q : state V -> Prop) :
  solo_reaches t n s P -> (forall s', P s' -> Q s') -> solo_reaches t n s Q.
Proof. intros (l & s' & Hs & Hn & Hr & HP) HPQ. exists l, s'. auto. Qed.

(** Where thread [t] gets alone: only its own stack has changed. *)
Definition gets_to (t : tid) (n : nat) s st : Prop :=
  solo_reaches t n s (fun s' => s' = goto t (thread_of s t) st s).

Lemma gets_step t n s st st' :
  step t ANext s = Ok (goto t (thread_of s t) st s) ->
  gets_to t n (goto t (thread_of s t) st s) st' -> gets_to t (S n) s st'.
Proof. unfold gets_to. intros Hs Hk. eapply solo_step; [exact Hs|]. by rewrite goto_goto in Hk. Qed.

Lemma gets_here t n s st : gets_to t n (goto t (thread_of s t) st s) st.
Proof. apply solo_now. by rewrite goto_goto. Qed.

(** ** One scan of [others_protect] *)

Context (t : tid) (c : cid) (cof : bool) (round : Z) (since : nat) (rest : list (frame V)).

(** An announcement of [p] the scan has still to meet at slot [j] of record [r]. *)
Definition ahead (h : hazard) (own : option nat) (p : addr) (r j : nat) : Prop :=
  exists r' j', Some r' <> own /\ slot_load h r' j' = Some p /\ (r' < r \/ r' = r /\ j <= j').

(** The verdict of the scan. *)
Definition verdict (p : addr) (ps : list addr) (found : bool) : frame V :=
  wait_next c cof round since p ps None found.

Lemma slot_load_bound h r j p : hz_wf h -> slot_load h r j = Some p -> j < SLOTS.
Proof.
  intros Hwf. unfold slot_load. destruct (records h !! r) as [rec|] eqn:Hr; [|done]. simpl.
  destruct (slots rec !! j) as [x|] eqn:Hj; [|done]. intros _.
  apply lookup_lt_Some in Hj. by rewrite (hz_len _ Hwf _ _ Hr) in Hj.
Qed.

(** The scan of [others_protect] alone decides whether anything was ahead of it. *)
Lemma scan_gets n s p ps r j found :
  hz_wf (hz s) -> r < length (records (hz s)) -> j < SLOTS -> r * SLOTS + (SLOTS - j) <= n ->
  th_stack (thread_of s t) = FWaitScan c cof round since p ps r j found :: rest ->
  exists b, (b = true <-> found = true \/ ahead (hz s) (th_local (thread_of s t)) p r j) /\
    gets_to t n s (verdict p ps b :: rest).
Proof.
  revert s r j found. induction n as [|n IH]; intros s r j found Hwf Hr Hj Hn Hst; [unfold SLOTS in *; lia|].
  destruct (lookup_lt_is_Some_2 _ _ Hr) as [rec Hrec].
  set (own := th_local (thread_of s t)).
  (* on to the next record *)
  assert (Hnext : forall b : bool,
    (forall j', own <> Some r -> j <= j' -> slot_load (hz s) r j' = Some p -> b = true) ->
    (b = true -> found = true \/ ahead (hz s) own p r j) -> (found = true -> b = true) ->
    step t ANext s = Ok (goto t (thread_of s t)
      (wait_next c cof round since p ps (next rec) b :: rest) s) ->
    exists b', (b' = true <-> found = true \/ ahead (hz s) own p r j) /\
      gets_to t (S n) s (verdict p ps b' :: rest)).
  { intros b Hb1 Hb2 Hb3 Hs. rewrite (hz_next _ Hwf _ _ Hrec) in Hs. destruct r as [|r]; cbn [pred_opt] in Hs.
    - exists b. split.
      + split; [done|]. intros [?|(r' & j' & Hne & Hsl & [?|[-> Hle]])]; [auto|lia|].
        by apply (Hb1 j'); [congruence|..].
      + eapply gets_step; [exact Hs|apply gets_here].
    - destruct (IH (goto t (thread_of s t) (FWaitScan c cof round since p ps r 0 b :: rest) s) r 0 b)
        as (b' & Hb' & Hk); [done|simpl; lia|unfold SLOTS; lia|unfold SLOTS in *; lia
        |by rewrite goto_stack|].
      rewrite goto_local in Hb'. exists b'. split; [|by eapply gets_step; [exact Hs|exact Hk]].
      rewrite Hb'. fold own. simpl. split.
      + intros [?|(r' & j' & Hne & Hsl & Hlt)]; [by apply Hb2|]. right. exists r', j'.
        split; [done|]. split; [done|]. left. lia.
      + intros [?|(r' & j' & Hne & Hsl & Hlt)]; [by left; auto|].
        destruct (decide (r' = S r)) as [->|]; [left; apply (Hb1 j'); [congruence|lia|done]|].
        right. exists r', j'. split; [done|]. split; [done|]. lia. }
  assert (Hs : step t ANext s = step_wait t (thread_of s t) rest
    (FWaitScan c cof round since p ps r j found) s) by (unfold step; by rewrite Hst).
  cbn [step_wait] in Hs. rewrite Hrec in Hs. fold own in Hs.
  destruct (decide (own = Some r)) as [Hown|Hown]; [by eapply (Hnext found); auto|].
  destruct (decide (slot_load (hz s) r j = Some p)) as [Hp|Hp].
  - eapply (Hnext true); auto. intros _. right. exists r, j. repeat split; [done|done|]. lia.
  - destruct (decide (S j < SLOTS)) as [Hlt|Hlt].
    + destruct (IH (goto t (thread_of s t) (FWaitScan c cof round since p ps r (S j) found :: rest) s)
        r (S j) found) as (b' & Hb' & Hk); [done|done|done|unfold SLOTS in *; lia|by rewrite goto_stack|].
      exists b'. split; [|by eapply gets_step; [exact Hs|exact Hk]].
      rewrite Hb', goto_local. fold own. apply or_iff_compat_l.
      split; intros (r' & j' & Hne & Hsl & Hor); exists r', j'; (split; [done|]); (split; [done|]); [lia|].
      destruct Hor as [?|[-> ?]]; [by left|]. right. split; [done|].
      destruct (decide (j' = j)) as [->|]; [done|lia].
    + eapply (Hnext found); auto. intros j' _ Hle Hsl.
      pose proof (slot_load_bound _ _ _ _ Hwf Hsl). by replace j' with j in Hsl by lia.
Qed.

(** ** One round *)

(** [retired.iter().all(|p| !hazard::others_protect( *p))] *)
Definition all_clear (h : hazard) (own : option nat) (ps : list addr) : bool :=
  forallb (fun p => negb (others_protect h own p)) ps.

(** Where the round leads: the wait returns, or begins its next round after [backoff]. *)
Definition round_end (clear : bool) : list (frame V) :=
  if clear then rest else FWaitFb c cof (backoff round).1 since :: rest.

Lemma ahead_others h own p n :
  hz_wf h -> length (records h) = S n -> ahead h own p n 0 <-> others_protect h own p = true.
Proof.
  intros Hwf Hn. rewrite others_protect_true by done. split.
  - intros (r & j & Hne & Hsl & _). by exists r, j.
  - intros (r & j & Hne & Hsl). exists r, j. split; [done|]. split; [done|].
    apply slot_load_lt in Hsl. lia.
Qed.

(** The verdict on the first pointer. *)
Lemma head_gets s p ps :
  hz_wf (hz s) -> th_stack (thread_of s t) = FWaitHead c cof round since (p :: ps) :: rest ->
  gets_to t (1 + length (records (hz s)) * SLOTS) s
    (verdict p ps (others_protect (hz s) (th_local (thread_of s t)) p) :: rest).
Proof.
  intros Hwf Hst.
  assert (Hs : step t ANext s = Ok (goto t (thread_of s t)
    (wait_next c cof round since p ps (HEAD (hz s)) false :: rest) s)) by (unfold step; by rewrite Hst).
  rewrite (hz_head _ Hwf) in Hs. destruct (length (records (hz s))) as [|n] eqn:Hn; cbn [pred_opt] in Hs.
  - replace (others_protect _ _ _) with false; [eapply gets_step; [exact Hs|apply gets_here]|].
    symmetry. apply not_true_iff_false. rewrite others_protect_true by done.
    intros (r & j & _ & Hsl). apply slot_load_lt in Hsl. lia.
  - destruct (scan_gets (S n * SLOTS) (goto t (thread_of s t)
      (FWaitScan c cof round since p ps n 0 false :: rest) s) p ps n 0 false) as (b & Hb & Hk);
      [done|simpl; lia|unfold SLOTS; lia|unfold SLOTS; lia|by rewrite goto_stack|].
    rewrite goto_local in Hb. simpl in Hb. rewrite ahead_others in Hb by done.
    replace (others_protect _ _ _) with b; [by eapply gets_step; [exact Hs|exact Hk]|].
    destruct b, (others_protect _ _ _); try done; naive_solver.
Qed.

Lemma heads_get n s ps :
  hz_wf (hz s) -> th_stack (thread_of s t) = FWaitHead c cof round since ps :: rest ->
  length ps = n ->
  gets_to t (1 + n * (1 + length (records (hz s)) * SLOTS)) s
    (round_end (all_clear (hz s) (th_local (thread_of s t)) ps)).
Proof.
  revert s ps. induction n as [|n IH]; intros s [|p ps] Hwf Hst Hlen; try done.
  - eapply gets_step; [|apply gets_here]. unfold step. rewrite Hst. cbn. by rewrite return_none.
  - injection Hlen as Hlen. pose proof (head_gets s p ps Hwf Hst) as Hhead.
    set (R := length (records (hz s))) in *. simpl (all_clear _ _ (p :: ps)).
    replace (1 + S n * (1 + R * SLOTS)) with ((1 + R * SLOTS) + (1 + n * (1 + R * SLOTS))) by lia.
    eapply solo_trans; [exact Hhead|]. intros s' ->. unfold verdict, wait_next.
    destruct (others_protect _ _ p); simpl; [by apply solo_now|].
    specialize (IH (goto t (thread_of s t) (FWaitHead c cof round since ps :: rest) s) ps Hwf
      (goto_stack _ _ _ _) Hlen). rewrite goto_local in IH. unfold gets_to in IH.
    by rewrite goto_goto in IH.
Qed.

(** The lock is taken, the retired pointers are copied, the lock is released. *)
Lemma copy_gets s cl :
  cells s !! c = Some cl -> writer cl = None ->
  th_stack (thread_of s t) = FLock c (LkWait cof round since) :: rest ->
  gets_to t 3 s (FWaitHead c cof round since (p_addr <$> retired cl) :: rest).
Proof.
  intros Hc Hw Hst. unfold gets_to.
  eapply solo_step.
  { unfold step. rewrite Hst. cbn [step_frame step_fallback]. by rewrite Hc, Hw. }
  eapply solo_step.
  { unfold step. rewrite goto_stack. cbn. rewrite lookup_insert_eq. simpl. by rewrite decide_True. }
  eapply solo_step.
  { unfold step, thread_of. cbn. rewrite !lookup_insert_eq. cbn. rewrite lookup_insert_eq. cbn.
    by rewrite decide_True. }
  apply solo_now. unfold goto, set_thread, set_cell. cbn.
  rewrite !insert_insert_eq. cbn.
  f_equal. apply insert_id. rewrite Hc. f_equal. destruct cl; simpl in *; by subst.
Qed.
End Rounds.

Section WaitRound.
Context {V : Type}.
Implicit Types (s : state V) (cl : cell V).

Lemma round_gets s t c cof round since rest cl :
  reachable s -> th_stack (thread_of s t) = FWaitFb c cof round since :: rest ->
  cells s !! c = Some cl -> writer cl = None ->
  gets_to t (5 + length (retired cl) * (1 + length (records (hz s)) * SLOTS)) s
    (round_end c cof round since rest
       ((cof || bool_decide (fallback_readers cl = 0)) &&
        all_clear (hz s) (th_local (thread_of s t)) (p_addr <$> retired cl))).
Proof.
  intros Hs Hst Hc Hw. pose proof (hi_wf _ (inv_hazard _ (reachable_inv _ Hs))) as Hwf.
  assert (Hstep : step t ANext s = step_wait t (thread_of s t) rest (FWaitFb c cof round since) s)
    by (unfold step; by rewrite Hst).
  cbn [step_wait] in Hstep. rewrite Hc in Hstep.
  destruct (cof || bool_decide (fallback_readers cl = 0)); simpl (_ && _).
  - replace (5 + _) with (S (3 + (1 + length (retired cl) * (1 + length (records (hz s)) * SLOTS)))) by lia.
    eapply gets_step; [exact Hstep|].
    eapply solo_trans; [by apply (copy_gets t c cof round since rest _ cl); [..|rewrite goto_stack]|].
    intros s' ->. rewrite !goto_goto.
    pose proof (heads_get t c cof round since rest (length (retired cl)) (goto t (thread_of s t)
      (FWaitHead c cof round since (p_addr <$> retired cl) :: rest) s) (p_addr <$> retired cl)
      Hwf (goto_stack _ _ _ _) (length_fmap _ _)) as Hk.
    unfold gets_to in Hk. rewrite goto_goto, goto_local in Hk. exact Hk.
  - eapply gets_step; [exact Hstep|apply gets_here].
Qed.

(** (C15) Each round of [wait_for_retired_readers] decides exactly what the wait is for, and the
    wait ends as soon as it may.  A round run without interruption while the lock is free
    takes at most 5 accesses plus, per retired value, one and eight per hazard record.  It
    ends the wait if the fallback counter is 0 (or the caller is inside a fallback read)
    and no record of another thread announces a retired value; the caller's own
    announcements do not count.  Otherwise the loop is back at its head with the next
    [backoff].  Either way it has changed nothing but the caller's position. *)
Theorem wait_round_exact s t c cof round since rest cl :
  reachable s -> th_stack (thread_of s t) = FWaitFb c cof round since :: rest ->
  cells s !! c = Some cl -> writer cl = None ->
  gets_to t (5 + length (retired cl) * (1 + length (records (hz s)) * SLOTS)) s
    (round_end c cof round since rest
       ((cof || bool_decide (fallback_readers cl = 0)) &&
        all_clear (hz s) (th_local (thread_of s t)) (p_addr <$> retired cl))).
Proof. apply round_gets. Qed.
End WaitRound.

(** ** Examples *)

(** A writer has replaced the value a reader still reads, and waits; it is back at the head
    of its loop. *)
Definition waiting : sched := replaced ++ nexts 2 1 ++ [(2, ACall (OWait 0))].

(** The reader has left. *)
Definition reader_left : sched := waiting ++ (1, AReturn) :: nexts 1 16.

Lemma wait_round_exact_witness :
  gets_to 2 (5 + 1 * (1 + 1 * SLOTS)) (state_after waiting) [FWaitFb 0 false 1 2] /\
  gets_to 2 5 (state_after reader_left) [].
Proof.
  split.
  - destruct (cells (state_after waiting) !! 0) as [cl|] eqn:Hc; [|by vm_compute in Hc].
    assert (reachable (state_after waiting)) as Hr by (apply runs_reachable; by vm_compute).
    pose proof (wait_round_exact (state_after waiting) 2 0 false 0 2 [] cl Hr) as Hw.
    vm_compute in Hc. injection Hc as <-. by apply Hw; vm_compute.
  - destruct (cells (state_after reader_left) !! 0) as [cl|] eqn:Hc; [|by vm_compute in Hc].
    assert (reachable (state_after reader_left)) as Hr by (apply runs_reachable; by vm_compute).
    pose proof (wait_round_exact (state_after reader_left) 2 0 false 0 2 [] cl Hr) as Hw.
    vm_compute in Hc. injection Hc as <-. by apply Hw; vm_compute.
Defined.
