(* ===== verification/SnapReclaim.v ===== *)
(** Reclamation of retired values (src/src/snapshot.rs, [release], [try_reclaim],
    [collect_unprotected]): what [retired_len] tells, and what one collection that is not
    disturbed frees. *)
From S2P Require Import Prelude Hazard HazardSpec SnapCell SnapMachine SnapTraces SnapHazardInv SnapArcInv.
From S2P Require Import SnapLockInv SnapProtect SnapSafety SnapProgress SnapWaitLive.

(** ** [retired_len] *)

Section RetiredLen.
Context {V : Type}.
Implicit Types (s : state V) (cl : cell V).

(** The collection has not stored the new length yet. *)
Definition collecting (cr : crit V) : bool :=
  match cr with CHead | CScan _ _ _ | CFinish _ => true | _ => false end.

Definition len_ok cl : Prop :=
  (forall t cr, writer cl = Some (t, cr) -> collecting cr = false) ->
  retired_len cl = length (retired cl).

Definition len_inv s : Prop := forall c cl, cells s !! c = Some cl -> len_ok cl.

Lemma len_inv_cells s s' : cells s' = cells s -> len_inv s -> len_inv s'.
Proof. unfold len_inv. by intros ->. Qed.

Lemma len_inv_set s s' c cl :
  cells s' = <[c := cl]> (cells s) -> len_ok cl -> len_inv s -> len_inv s'.
Proof.
  intros Hc Hcl Hs c' cl'. rewrite Hc. intros [[<- <-]|[_ ?]]%lookup_insert_Some; [done|by eapply Hs].
Qed.

Ltac same_cells Hi := solve [eapply len_inv_cells; [|exact Hi]; reflexivity].

Lemma len_inv_crit oa c k t rest cl cr s s' :
  len_inv s -> kind_ok k cr -> cells s !! c = Some cl -> writer cl = Some (t, cr) ->
  step_crit oa c k t (thread_of s t) rest cl cr s = Ok s' -> len_inv s'.
Proof.
  intros Hi Hk Hc Hw Hs. pose proof (Hi _ _ Hc) as Hl. unfold len_ok in Hl.
  assert (collecting cr = false -> retired_len cl = length (retired cl)) as Hl'.
  { intros Hcr. apply Hl. by intros ? ? [= <- <-]%(eq_trans (eq_sym Hw)). }
  unfold step_crit, after_unlock in Hs. destruct cr, k; try done; step_cases Hs;
    (eapply (len_inv_set s); [reflexivity| |exact Hi]);
    unfold len_ok; simpl; intros Hn; try (by apply Hl'); try done;
    by specialize (Hn _ _ eq_refl).
Qed.

Lemma len_inv_step t a s s' : lock_inv s -> len_inv s -> step t a s = Ok s' -> len_inv s'.
Proof.
  intros Hli Hi Hstep. destruct (step_cases_of _ _ _ _ Hstep).
  - unfold step_protect in Hs. destruct f; try done; step_cases Hs; same_cells Hi.
  - unfold step_release in Hs. destruct f; try done; step_cases Hs; try same_cells Hi.
    eapply (len_inv_set s); [reflexivity| |exact Hi]. intros Hn. by specialize (Hn _ _ eq_refl).
  - unfold step_fallback in Hs. destruct f; try done; step_cases Hs; try same_cells Hi;
      (eapply (len_inv_set s); [reflexivity| |exact Hi]); unfold len_ok; simpl;
      try (by eapply Hi).
    intros _. eapply Hi; [done|]. congruence.
  - eapply len_inv_crit; [done| |done..].
    destruct (li_holder _ Hli _ _ _ _ Hc Hw) as (k' & rest' & E & Hk & _). rewrite Hst in E. by injection E as <- _.
  - unfold step_wait in Hs. destruct f; try done; step_cases Hs; same_cells Hi.
  - unfold step_user in Hs. destruct f, a0; try done; step_cases Hs; same_cells Hi.
  - subst s'. same_cells Hi.
  - unfold step_new in Hs. step_cases Hs. eapply (len_inv_set s); [reflexivity|done|exact Hi].
  - unfold step_drop_cell in Hs. step_cases Hs. intros c' cl'. simpl.
    intros [_ ?]%lookup_delete_Some. by eapply Hi.
  - subst s'. same_cells Hi.
  - subst s'. same_cells Hi.
Qed.

Lemma reachable_len s : reachable s -> len_inv s.
Proof.
  induction 1 as [|s t a s' Hr IH Hs]; [by intros c cl|].
  eapply len_inv_step; [by apply reachable_lock_inv|done..].
Qed.
End RetiredLen.

(** ** One collection, alone *)

Section Collection.
Context {V : Type}.
Implicit Types (s : state V) (cl : cell V).
Context (t : tid) (c : cid) (k : lkind V) (rest : list (frame V)).

(** [t] is at [cr] of its critical section on [c]. *)
Definition at_crit s cl (cr : crit V) : Prop :=
  th_stack (thread_of s t) = FCrit c k :: rest /\ cells s !! c = Some (set_writer (Some (t, cr)) cl).

(** The cell with the holder's locals replaced. *)
Definition with_crit (cr : crit V) cl s : state V := set_cell c (set_writer (Some (t, cr)) cl) s.

Lemma with_crit_twice cr cr' cl cl' s : with_crit cr cl (with_crit cr' cl' s) = with_crit cr cl s.
Proof. unfold with_crit, set_cell. simpl. by rewrite insert_insert_eq. Qed.

Lemma at_with_crit cr cl s :
  th_stack (thread_of s t) = FCrit c k :: rest -> at_crit (with_crit cr cl s) cl cr.
Proof. intros Hst. split; [done|]. simpl. by rewrite lookup_insert_eq. Qed.

Lemma crit_step s cl cr :
  at_crit s cl cr -> step t ANext s = step_crit None c k t (thread_of s t) rest (set_writer (Some (t, cr)) cl) cr s.
Proof. intros [Hst Hc]. unfold step. rewrite Hst. cbn [step_frame]. rewrite Hc. simpl. by rewrite decide_True. Qed.

(** The scan finds what was announced from slot [j] of record [r] on. *)
Lemma scan_collects n s cl r j acc :
  hz_wf (hz s) -> r < length (records (hz s)) -> j < SLOTS -> r * SLOTS + (SLOTS - j) <= n ->
  at_crit s cl (CScan r j acc) ->
  exists acc', (forall a, a ∈ acc' <-> a ∈ acc \/ ahead (hz s) None a r j) /\
    solo_reaches t n s (fun s' => s' = with_crit (CFinish acc') cl s).
Proof.
  revert s r j acc. induction n as [|n IH]; intros s r j acc Hwf Hr Hj Hn Hat; [unfold SLOTS in *; lia|].
  destruct (lookup_lt_is_Some_2 _ _ Hr) as [rec Hrec].
  set (acc1 := acc ++ option_list (slot_load (hz s) r j)).
  assert (Hacc1 : forall a, a ∈ acc1 <-> a ∈ acc \/ slot_load (hz s) r j = Some a).
  { intros a. unfold acc1. rewrite elem_of_app. destruct (slot_load (hz s) r j); simpl; set_solver. }
  pose proof (crit_step _ _ _ Hat) as Hs. cbn [step_crit] in Hs. rewrite Hrec in Hs. fold acc1 in Hs.
  assert (Hk : forall r' j', r' < length (records (hz s)) -> j' < SLOTS -> r' * SLOTS + (SLOTS - j') <= n ->
    (forall a, ahead (hz s) None a r j <-> slot_load (hz s) r j = Some a \/ ahead (hz s) None a r' j') ->
    step t ANext s = Ok (with_crit (CScan r' j' acc1) cl s) ->
    exists acc', (forall a, a ∈ acc' <-> a ∈ acc \/ ahead (hz s) None a r j) /\
      solo_reaches t (S n) s (fun s' => s' = with_crit (CFinish acc') cl s)).
  { intros r' j' Hr' Hj' Hn' Ha Hs'.
    destruct (IH (with_crit (CScan r' j' acc1) cl s) r' j' acc1) as (acc' & Hacc' & Hreach);
      [done..|apply at_with_crit, Hat|].
    exists acc'. split; [intros a; rewrite Hacc', Hacc1, Ha; simpl; tauto|].
    eapply solo_step; [exact Hs'|]. by rewrite with_crit_twice in Hreach. }
  destruct (decide (S j < SLOTS)) as [Hlt|Hlt].
  { apply (Hk r (S j)); [done..|lia| |exact Hs]. intros a. split.
    - intros (r' & j' & Hne & Hsl & [?|[-> Hle]]).
      + right. exists r', j'. split_and!; [done..|by left].
      + destruct (decide (j' = j)) as [->|]; [by left|]. right. exists r, j'. split_and!; [done..|]. right. lia.
    - intros [Hsl|(r' & j' & Hne & Hsl & Hor)]; [exists r, j|exists r', j']; split_and!; try done; lia. }
  assert (Hlast : forall j', j <= j' -> forall a, slot_load (hz s) r j' = Some a -> j' = j).
  { intros j' Hle a Hsl. pose proof (slot_load_bound _ _ _ _ Hwf Hsl). lia. }
  rewrite (hz_next _ Hwf _ _ Hrec) in Hs. destruct r as [|r]; cbn [pred_opt] in Hs.
  - exists acc1. split; [|eapply solo_step; [exact Hs|by apply solo_now]]. intros a. rewrite Hacc1.
    apply or_iff_compat_l. split.
    + intros Hsl. exists 0, j. split_and!; [done..|]. by right.
    + intros (r' & j' & _ & Hsl & [?|[-> Hle]]); [lia|]. by rewrite (Hlast j' Hle a) in Hsl.
  - apply (Hk r 0); [lia|unfold SLOTS; lia|unfold SLOTS in *; lia| |exact Hs]. intros a. split.
    + intros (r' & j' & Hne & Hsl & [Hr'|[-> Hle]]).
      * right. exists r', j'. split_and!; [done..|]. destruct (decide (r' = r)); [right|left]; lia.
      * left. by rewrite (Hlast j' Hle a) in Hsl.
    + intros [Hsl|(r' & j' & Hne & Hsl & Hor)]; [exists (S r), j|exists r', j']; split_and!; try done; lia.
Qed.

(** What the collection leaves: the announced values stay, the others are about to be
    dropped, the lock is free and the length stored. *)
Definition collected s cl s' : Prop :=
  exists kept freed, retired cl ≡ₚ kept ++ freed /\
    (forall x, x ∈ kept -> p_addr x ∈ announced (hz s)) /\
    (forall x, x ∈ freed -> p_addr x ∉ announced (hz s)) /\
    after_unlock c k (CUnlock freed) t (thread_of s t) rest
      (set_cell c (Cell (current cl) (length kept) (fallback_readers cl) None kept) s) = Ok s'.

Lemma collects s cl :
  hz_wf (hz s) -> match k with LkUpdate _ | LkReclaim _ => True | _ => False end ->
  at_crit s cl CHead ->
  solo_reaches t (3 + length (records (hz s)) * SLOTS) s (collected s cl).
Proof.
  intros Hwf Hk Hat. pose proof (crit_step _ _ _ Hat) as Hs. cbn [step_crit retired set_writer] in Hs.
  set (R := length (records (hz s)) * SLOTS).
  (* the last two steps *)
  assert (Hfin : forall s1 acc, s1 = with_crit (CFinish acc) cl s ->
    (forall x, x ∈ retired cl -> p_addr x ∈ acc <-> p_addr x ∈ announced (hz s)) ->
    solo_reaches t 2 s1 (collected s cl)).
  { intros s1 acc -> Hacc. pose proof (at_with_crit (CFinish acc) cl s (proj1 Hat)) as Hat1.
    pose proof (crit_step _ _ _ Hat1) as Hs1. cbn [step_crit retired set_writer] in Hs1.
    destruct (collect_unprotected acc (retired cl)) as [kept freed] eqn:Hc.
    apply collect_unprotected_spec in Hc as (Hp & Hkept & Hfreed).
    eapply solo_step; [exact Hs1|]. set (cl2 := set_retired_len (length kept) (set_retired kept cl)).
    change (solo_reaches t 1 (with_crit (CUnlock freed) cl2 (with_crit (CFinish acc) cl s)) (collected s cl)).
    rewrite with_crit_twice. pose proof (at_with_crit (CUnlock freed) cl2 s (proj1 Hat)) as Hat2.
    pose proof (crit_step _ _ _ Hat2) as Hs2. cbn [step_crit] in Hs2.
    assert (set_cell c (set_writer None (set_writer (Some (t, CUnlock freed)) cl2))
      (with_crit (CUnlock freed) cl2 s) =
      set_cell c (Cell (current cl) (length kept) (fallback_readers cl) None kept) s) as Heq.
    { unfold with_crit, set_cell. simpl. by rewrite insert_insert_eq. }
    rewrite Heq in Hs2.
    assert (exists s', after_unlock c k (CUnlock freed) t (thread_of s t) rest
      (set_cell c (Cell (current cl) (length kept) (fallback_readers cl) None kept) s) = Ok s') as [s' Hs'].
    { destruct k; try done; by eexists. }
    eapply solo_step; [rewrite Hs2; exact Hs'|]. apply solo_now. exists kept, freed. split_and!; try done.
    - intros x Hx. apply Hacc; [|by apply Hkept]. rewrite Hp. apply elem_of_app. by left.
    - intros x Hx Ha. eapply Hfreed; [done|]. apply Hacc; [|done]. rewrite Hp. apply elem_of_app. by right. }
  destruct (decide (retired cl = [])) as [Hnil|Hne].
  { rewrite Hnil in Hs, Hfin. replace (3 + R) with (S (2 + R)) by lia. eapply solo_step; [exact Hs|].
    eapply solo_le; [|apply (Hfin _ []); [done|by intros x ?%elem_of_nil]]. lia. }
  assert (step t ANext s = Ok (match HEAD (hz s) with None => with_crit (CFinish []) cl s
    | Some r => with_crit (CScan r 0 []) cl s end)) as Hs'.
  { rewrite Hs. destruct (retired cl); [done|]. by destruct (HEAD (hz s)). }
  clear Hs. rewrite (hz_head _ Hwf) in Hs'. destruct (length (records (hz s))) as [|n] eqn:HR; cbn [pred_opt] in Hs'.
  - replace (3 + R) with (S (2 + R)) by lia. eapply solo_step; [exact Hs'|].
    eapply solo_le; [|apply (Hfin _ []); [done|]]; [lia|]. intros x _. split; [by intros ?%elem_of_nil|].
    intros (r & j & Hsl)%elem_of_announced; [|done]. apply slot_load_lt in Hsl. lia.
  - destruct (scan_collects R (with_crit (CScan n 0 []) cl s) cl n 0 []) as (acc & Hacc & Hreach);
      [done|simpl; lia|unfold SLOTS; lia|unfold R, SLOTS; lia|apply at_with_crit, Hat|].
    replace (3 + R) with (S (R + 2)) by lia. eapply solo_step; [exact Hs'|].
    eapply solo_trans; [exact Hreach|]. intros s' ->. rewrite with_crit_twice. eapply Hfin; [done|].
    intros x _. rewrite Hacc, elem_of_announced by done. simpl. split.
    + intros [[]%elem_of_nil|(r & j & _ & Hsl & _)]. eauto.
    + intros (r & j & Hsl). right. exists r, j. split_and!; [done..|]. apply slot_load_lt in Hsl. lia.
Qed.
End Collection.

Section Release.
Context {V : Type}.
Implicit Types (s : state V) (cl : cell V).

(** The values [freed] are about to be dropped; what stays retired is announced. *)
Definition reclaimed t c ret rest cl s' : Prop :=
  exists cl' freed, cells s' !! c = Some cl' /\ writer cl' = None /\ current cl' = current cl /\
    retired cl ≡ₚ retired cl' ++ freed /\
    (forall x, x ∈ retired cl -> x ∈ retired cl' <-> p_addr x ∈ announced (hz s')) /\
    th_stack (thread_of s' t) = (if decide (retired cl = []) then [] else [FDrop (DOp c ret) freed]) ++ rest.

(** A collection is a reclamation. *)
Lemma collected_reclaimed t c ret rest s cl s' :
  collected t c (LkReclaim ret) rest s cl s' -> retired cl <> [] ->
  reclaimed t c ret rest cl s'.
Proof.
  intros (kept & freed & Hp & Hk & Hf & Hs) Hne. simpl in Hs. injection Hs as <-.
  eexists _, freed. split; [apply lookup_insert_eq|]. simpl. split_and!; try done.
  - intros x Hx. split; [apply Hk|]. intros Ha. rewrite Hp, elem_of_app in Hx.
    destruct Hx as [?|Hx]; [done|]. by destruct (Hf _ Hx).
  - rewrite thread_of_goto, decide_True by done. simpl. by rewrite decide_False.
Qed.

(** (C18) The last reader frees what it kept alive.  A reader that releases its hazard while
    the writer lock is free, and is not interrupted, gets within 6 accesses plus eight per
    hazard record to where it drops exactly those retired values of the cell that no hazard
    announces any more (its own announcement is gone by then); the announced ones stay
    retired, the current value stays current and the lock is free again.  If nothing is
    retired it returns at once. *)
Theorem release_reclaims s t c p i ret rest cl :
  reachable s -> th_stack (thread_of s t) = FUnpin c p i ret false :: rest ->
  cells s !! c = Some cl -> writer cl = None ->
  solo_reaches t (6 + length (records (hz s)) * SLOTS) s
    (fun s' => (exists r, th_local (thread_of s t) = Some r /\ hz s' = Pin_drop (hz s) r i) /\
               reclaimed t c ret rest cl s').
Proof.
  intros Hr Hst Hc Hw.
  assert (retired_len cl = length (retired cl)) as Hlen.
  { apply (reachable_len s Hr c cl Hc). by rewrite Hw. }
  destruct (th_local (thread_of s t)) as [r|] eqn:Hl.
  2: { pose proof (step_safe t ANext s (reachable_inv _ Hr)) as Hub. unfold step in Hub.
       rewrite Hst in Hub. cbn in Hub. by rewrite Hl in Hub. }
  set (h := Pin_drop (hz s) r i). set (s1 := goto t (thread_of s t) (FCheck c ret :: rest) (set_hz h s)).
  assert (step t ANext s = Ok s1) as Hs1 by (unfold step; rewrite Hst; cbn; by rewrite Hl).
  assert (reachable s1) as Hr1 by (by econstructor).
  assert (length (records h) = length (records (hz s))) as HR by apply length_alter.
  eapply solo_step; [exact Hs1|].
  assert (Ht1 : thread_of s1 t = set_stack (FCheck c ret :: rest) (thread_of s t)).
  { unfold s1. by rewrite thread_of_goto, decide_True. }
  assert (step t ANext s1 = if decide (retired_len cl = 0) then Ok (return_ t (thread_of s1 t) rest ret s1)
    else Ok (goto t (thread_of s1 t) (FTryLock c ret :: rest) s1)) as Hs2.
  { unfold step. rewrite Ht1. cbn. by rewrite Hc. }
  destruct (decide (retired_len cl = 0)) as [H0|H0].
  { eapply solo_step; [exact Hs2|]. apply solo_now. split; [by exists r|].
    assert (retired cl = []) as Hnil by (apply length_zero_iff_nil; lia).
    exists cl, []. rewrite Hnil. split_and!; try done; [by intros x ?%elem_of_nil|].
    unfold return_. by rewrite thread_of_goto, decide_True. }
  eapply solo_step; [exact Hs2|]. set (s2 := goto t (thread_of s1 t) (FTryLock c ret :: rest) s1).
  assert (step t ANext s2 = Ok (goto t (thread_of s2 t) (FCrit c (LkReclaim ret) :: rest)
    (set_cell c (set_writer (Some (t, CHead)) cl) s2))) as Hs3.
  { unfold step, s2. rewrite thread_of_goto, decide_True by done. cbn. by rewrite Hc, Hw. }
  eapply solo_step; [exact Hs3|]. set (s3 := goto t _ _ _) in Hs3 |- *.
  assert (reachable s3) as Hr3 by (do 2 (econstructor; [|eassumption]); done).
  pose proof (hi_wf _ (inv_hazard _ (reachable_inv _ Hr3))) as Hwf.
  pose proof (collects t c (LkReclaim ret) rest s3 cl Hwf I) as Hcol.
  assert (length (records (hz s3)) = length (records (hz s))) as HR3 by exact HR.
  rewrite HR3 in Hcol. destruct Hcol as (sched & s' & Hsolo & Hle & Hrun & Hq).
  { split; [unfold s3; by rewrite thread_of_goto, decide_True|]. simpl. by rewrite lookup_insert_eq. }
  exists sched, s'. split_and!; [done|simpl; lia|done|..].
  - exists r. split; [done|]. destruct Hq as (kept & freed & _ & _ & _ & Hs'). simpl in Hs'. by injection Hs' as <-.
  - eapply collected_reclaimed; [exact Hq|]. intros Hnil. rewrite Hnil in Hlen. done.
Qed.
End Release.

(** ** Examples *)

(** A reader is still announced when the writer scans; it releases its hazard before the
    writer stores the new [retired_len]. *)
Definition lingering : sched :=
  reading ++ update_to_store 2 0 add1 102 ++ nexts 2 (1 + 1 + SLOTS) ++
  (1, AReturn) :: nexts 1 2 ++ nexts 2 3.

(** A retired value may outlive its last reader: if the reader releases its hazard
    between the writer's scan of its slot and the writer's store of [retired_len], both
    operations end and nobody frees the value, although no hazard announces it. *)
Theorem retired_value_lingers :
  reachable (state_after lingering) /\ idle (state_after lingering) = true /\
  announced (hz (state_after lingering)) = [] /\
  (retired <$> cells (state_after lingering) !! 0) = Some [Ptr 100 0] /\
  heap (state_after lingering) !! 100 = Some (Block 0 10 1).
Proof. split; [by apply runs_reachable; vm_compute|]. split_and!; by vm_compute. Qed.

Lemma release_reclaims_witness :
  let s := state_after (replaced ++ nexts 2 1 ++ [(1, AReturn)]) in
  exists cl, (retired cl = [Ptr 100 0] /\ announced (hz s) = [100]) /\
  solo_reaches 1 (6 + length (records (hz s)) * SLOTS) s
    (fun s' => (exists r, th_local (thread_of s 1) = Some r /\ hz s' = Pin_drop (hz s) r 0) /\
               reclaimed 1 0 None [] cl s').
Proof.
  intros s. exists (Cell (Ptr 102 2) 1 0 None [Ptr 100 0]). split; [by vm_compute|].
  apply (release_reclaims s 1 0 (Ptr 100 0) 0 None []);
    [by apply runs_reachable; vm_compute|by vm_compute..].
Defined.
