(* ===== verification/SnapFindings.v ===== *)
(** Behaviours of src/src/snapshot.rs that its comments do not mention. *)
From S2P Require Import Prelude Hazard SnapCell SnapMachine SnapTraces SnapHazardInv SnapSafety SnapProgress SnapWaitLive.

(** Thread 1 loads the pointer and stops before announcing it; thread 2 replaces
    the value twice, the second new value at the address of the first, freed, one;
    thread 1 announces and validates. *)
Definition aba : sched :=
  new_cells ++ (1, ACall (ORead 0)) :: nexts 1 6 ++
  whole_update 2 0 add1 102 1 ++ nexts 2 2 ++ whole_update 2 0 add1 100 1 ++ nexts 2 2 ++
  nexts 1 2.

(** [protect] returns a pointer it loaded before the announcement; the validation
    compares addresses only, so the pointer may stem from an allocation that was
    freed meanwhile, although the value read through it is the current one. *)
Lemma protect_returns_stale_pointer :
  exists c p g i, run aba init = Ok (state_after aba) /\
    th_stack (thread_of (state_after aba) 1) = [FReading c p g i] /\
    p_gen p <> g /\ deref p (state_after aba) = Some 12.
Proof. exists 0, (Ptr 100 0), 3, 0. by vm_compute. Qed.

Section Missed.
Context {V : Type}.
Implicit Types (s : state V) (cl : cell V).

(** (C38) A wait by a caller that is inside a fallback read, of whatever cell, does not wait
    for fallback readers.  In any state where the lock of [c] is free and no hazard record of
    another thread announces a retired value, such a caller's [wait_for_retired_readers]
    returns after one round of its own steps, and any other thread that was inside a
    fallback read of an older value of [c] is still inside it. *)
Theorem wait_misses_fallback_reader s t u c cl arc :
  reachable s -> cells s !! c = Some cl -> writer cl = None ->
  in_user_code (th_stack (thread_of s t)) = true -> 0 < th_depth (thread_of s t) ->
  all_clear (hz s) (th_local (thread_of s t)) (p_addr <$> retired cl) = true ->
  u <> t -> FFbReading c arc ∈ th_stack (thread_of s u) -> p_gen arc < p_gen (current cl) ->
  exists s1 since, step t (ACall (OWait c)) s = Ok s1 /\
    th_stack (thread_of s1 t) = FWaitFb c true 0 since :: th_stack (thread_of s t) /\
    p_gen arc < since /\
    solo_reaches t (5 + length (retired cl) * (1 + length (records (hz s)) * SLOTS)) s1 (fun s' =>
      th_stack (thread_of s' t) = th_stack (thread_of s t) /\
      FFbReading c arc ∈ th_stack (thread_of s' u)).
Proof.
  intros Hs Hc Hw Hu Hd Hall Hne Hin Hlt.
  set (s1 := goto t (thread_of s t) (FWaitFb c true 0 (p_gen (current cl)) :: th_stack (thread_of s t)) s).
  assert (step t (ACall (OWait c)) s = Ok s1) as Hs1.
  { unfold step. rewrite Hu. simpl. rewrite Hc. simpl. by rewrite bool_decide_eq_true_2. }
  exists s1, (p_gen (current cl)). split; [done|]. split; [apply goto_stack|]. split; [done|].
  pose proof (round_gets s1 t c true 0 (p_gen (current cl)) (th_stack (thread_of s t)) cl) as Hr.
  subst s1. rewrite goto_local in Hr. cbn [hz goto set_thread cells orb andb] in Hr. rewrite Hall in Hr.
  eapply solo_weaken; [apply Hr; [by econstructor|apply goto_stack|done|done]|].
  intros s' ->. rewrite goto_goto, goto_stack. split; [done|]. by rewrite thread_of_goto, decide_False.
Qed.
End Missed.

(** Two threads, each eight reads of cell 1 deep; thread 1 then reads cell 0 on the
    fallback path, thread 0 reads cell 1 on the fallback path and replaces the value of
    cell 0. *)
Definition missed_reader : sched :=
  new_cells ++ eight_reads 1 1 0 ++ fallback_read 1 0 ++ eight_reads 0 1 1 ++ fallback_read 0 1 ++
  whole_update 0 0 add1 102 2 ++ nexts 0 2.

Lemma wait_misses_fallback_reader_witness :
  exists cl s1 since, cells (state_after missed_reader) !! 0 = Some cl /\
    step 0 (ACall (OWait 0)) (state_after missed_reader) = Ok s1 /\ p_gen (Ptr 100 0) < since /\
    solo_reaches 0 (5 + length (retired cl) * (1 + 2 * SLOTS)) s1 (fun s' =>
      th_stack (thread_of s' 0) = th_stack (thread_of (state_after missed_reader) 0) /\
      FFbReading 0 (Ptr 100 0) ∈ th_stack (thread_of s' 1)).
Proof.
  destruct (cells (state_after missed_reader) !! 0) as [cl|] eqn:Hc; [|by vm_compute in Hc].
  assert (reachable (state_after missed_reader)) as Hr by (apply runs_reachable; by vm_compute).
  pose proof (wait_misses_fallback_reader (state_after missed_reader) 0 1 0 cl (Ptr 100 0) Hr Hc) as Hw.
  vm_compute in Hc. injection Hc as <-.
  destruct Hw as (s1 & since & Hs & _ & Hlt & Hk); [by vm_compute..| |simpl; lia|].
  - assert (head (th_stack (thread_of (state_after missed_reader) 1)) = Some (FFbReading 0 (Ptr 100 0))) as Hh
      by (by vm_compute).
    destruct (th_stack (thread_of (state_after missed_reader) 1)); [done|]. injection Hh as ->. left.
  - eexists _, s1, since. split; [done|]. split; [exact Hs|]. split; [exact Hlt|exact Hk].
Defined.
