(* ===== verification/SnapTests.v ===== *)
(** The unit tests of src/src/snapshot.rs and src/src/hazard.rs, run on the model.

    A test is a sequence of what its threads do, each operation running to the point
    where user code continues.  [DropFlag] says whether the value was dropped, which is
    when its allocation is freed. *)
From S2P Require Import Prelude Hazard SnapCell SnapMachine.

(** ** A driver *)

Section Driver.
Context {V : Type}.
Implicit Types (s : state V) (t : tid).

(** No operation is running, or the closure of a [read] is. *)
Definition at_rest t s : bool :=
  match th_stack (thread_of s t) with
  | [] | FReading _ _ _ _ :: _ | FFbReading _ _ :: _ => true
  | _ => false
  end.

(** The operation thread [t] is in runs up to the user's code, or for [fuel] accesses.  New
    allocations get fresh addresses. *)
Fixpoint settle (fuel : nat) t s : state V :=
  match fuel with
  | 0 => s
  | S fuel =>
      if at_rest t s then s
      else match step t ANext s with
           | Ok s => settle fuel t s
           | _ => match step t (AAlloc (1000 + next_gen s)) s with
                  | Ok s => settle fuel t s
                  | _ => s
                  end
           end
  end.

(** Client action [a] of thread [t], and what follows from it. *)
Definition act t (a : action V) s : option (state V) :=
  match step t a s with Ok s => Some (settle 200 t s) | _ => None end.

Fixpoint play (l : list (tid * action V)) s : option (state V) :=
  match l with
  | [] => Some s
  | (t, a) :: l => s ← act t a s; play l s
  end.

(** What the closure on top of thread [t] reads. *)
Definition sees t s : option V :=
  match th_stack (thread_of s t) with
  | FReading _ p _ _ :: _ => deref p s
  | FFbReading _ p :: _ => deref p s
  | _ => None
  end.

(** All the values the nested closures of [t] read, innermost first. *)
Definition sees_all t s : list V :=
  omap (fun f => match f with FReading _ p _ _ | FFbReading _ p => deref p s | _ => None end)
    (th_stack (thread_of s t)).

Definition dropped (a : addr) s : bool := bool_decide (heap s !! a = None).
Definition waiting_still t s : bool := negb (at_rest t s).
Definition retired_len_of (c : cid) s : option nat := retired_len <$> cells s !! c.
End Driver.

(** [cell.replace(v)] *)
Definition replace {V} (t : tid) (v : V) : tid * action V := (t, ACall (OUpdate 0 (fun _ => Some v))).

Abbreviation read t := (t, ACall (ORead 0)).
Abbreviation leave t := (t, AReturn).

(** ** snapshot.rs *)

Definition read_sees_latest_value : option (state nat) :=
  play [(0, ANew 0 1 100); read 0] init.
Definition read_sees_latest_value_then : option (state nat) :=
  s ← read_sees_latest_value; play [leave 0; replace 0 2; read 0] s.

Example read_sees_latest_value_ok :
  (read_sees_latest_value ≫= sees 0, read_sees_latest_value_then ≫= sees 0) = (Some 1, Some 2).
Proof. by vm_compute. Qed.

Definition update_none : option (state nat) :=
  play [(0, ANew 0 5 100); (0, ACall (OLoadArc 0 (fun _ => true)));
        (0, ACall (OUpdate 0 (fun _ => None))); (0, ACall (OLoadArc 0 (fun _ => true)))] init.

(** Both loads return the same [Arc], and nothing was allocated in between. *)
Example update_none_leaves_value_and_allocates_nothing :
  (handles <$> update_none) = Some [Ptr 100 0; Ptr 100 0] /\ (next_gen <$> update_none) = Some 1.
Proof. split; by vm_compute. Qed.

Definition replaced_unread : option (state (option nat)) :=
  play [(0, ANew 0 (Some 7) 100); replace 0 None] init.

Example replaced_value_is_freed_immediately_when_unread :
  (dropped 100 <$> replaced_unread, replaced_unread ≫= retired_len_of 0) = (Some true, Some 0).
Proof. by vm_compute. Qed.

Definition replaced_in_read : option (state (option nat)) :=
  play [(0, ANew 0 (Some 7) 100); read 0; replace 0 None] init.
Definition replaced_in_read_left : option (state (option nat)) :=
  s ← replaced_in_read; play [leave 0] s.

Example value_read_during_replace_survives_until_reader_finishes :
  (dropped 100 <$> replaced_in_read, replaced_in_read ≫= sees 0, dropped 100 <$> replaced_in_read_left) =
  (Some false, Some (Some 7), Some true).
Proof. by vm_compute. Qed.

Definition held_across_replace : option (state (option nat)) :=
  play [(0, ANew 0 (Some 7) 100); (0, ACall (OLoadArc 0 (fun _ => true))); replace 0 None] init.
Definition held_dropped : option (state (option nat)) :=
  s ← held_across_replace; play [(0, ADropHandle (Ptr 100 0))] s.

Example load_arc_keeps_value_alive_after_replace :
  (dropped 100 <$> held_across_replace, dropped 100 <$> held_dropped) = (Some false, Some true).
Proof. by vm_compute. Qed.

(** [nest(&cell, SLOTS * 2)] at its innermost read. *)
Definition nest : option (state nat) :=
  play ((0, ANew 0 1 100) :: replicate (SLOTS * 2 + 1) (read 0)) init.

Example nested_reads_beyond_slot_count_use_fallback :
  (sum_list ∘ sees_all 0 <$> nest, (fallback_readers <$> (nest ≫= fun s => cells s !! 0))) =
  (Some (SLOTS * 2 + 1), Some (SLOTS + 1)).
Proof. by vm_compute. Qed.

(** Thread 1 reads while thread 0 replaces; thread 2 waits, and returns only after the reader
    has left. *)
Definition wait_other (vs : list nat) : option (state nat) :=
  play ([(0, ANew 0 0 100); read 1] ++ (replace 0 <$> vs) ++ [(2, ACall (OWait 0))]) init.
Definition wait_other_left (vs : list nat) : option (state nat) :=
  s ← wait_other vs; s ← play [leave 1] s; Some (settle 200 2 s).

Example wait_for_retired_readers_returns_after_other_reader_leaves :
  (waiting_still 2 <$> wait_other [1], waiting_still 2 <$> wait_other_left [1]) =
  (Some true, Some false).
Proof. by vm_compute. Qed.

Example wait_for_retired_readers_covers_older_generations :
  (waiting_still 2 <$> wait_other [1; 2], waiting_still 2 <$> wait_other_left [1; 2]) =
  (Some true, Some false).
Proof. by vm_compute. Qed.

Definition wait_own : option (state nat) :=
  play [(0, ANew 0 0 100); read 0; replace 0 1; (0, ACall (OWait 0))] init.

Example wait_for_retired_readers_skips_own_thread :
  (waiting_still 0 <$> wait_own, wait_own ≫= sees 0) = (Some false, Some 0).
Proof. by vm_compute. Qed.

(** ** hazard.rs *)

(** [pin(target)] by the thread with record [local], and the drop of that pin. *)
Definition pin_publishes (target : addr) : bool * bool * bool :=
  let '(slot, (local, h)) := pin hazard_init true None target in
  match slot, local with
  | Some i, Some r =>
      (this_thread_protects h local target, bool_decide (target ∈ announced h),
       this_thread_protects (Pin_drop h r i) local target)
  | _, _ => (false, false, true)
  end.

Example pin_publishes_and_clears : pin_publishes 4096 = (true, true, false).
Proof. by vm_compute. Qed.

(** Pins of the addresses [ps], one after the other: the slots, and the domain. *)
Fixpoint pins (h : hazard) (local : option nat) (ps : list addr)
    : list (option nat) * (option nat * hazard) :=
  match ps with
  | [] => ([], (local, h))
  | p :: ps =>
      let '(slot, (local, h)) := pin h true local p in
      let '(slots, r) := pins h local ps in (slot :: slots, r)
  end.

(** All slots, one pin too many, the drop of the pins, and another try. *)
Definition nested_pins : list (option nat) * option nat * option nat :=
  let '(slots, (local, h)) := pins hazard_init None ((fun i => 8192 + i * 8) <$> seq 0 SLOTS) in
  let '(extra, (local, h)) := pin h true local 8448 in
  let h := foldr (fun i h => match local with Some r => Pin_drop h r i | None => h end) h (seq 0 SLOTS) in
  (slots, extra, (pin h true local 8448).1).

Example nested_pins_use_distinct_slots_until_exhausted :
  nested_pins = (Some <$> seq 0 SLOTS, None, Some 0).
Proof. by vm_compute. Qed.

(** A worker pins one address, the caller another. *)
Definition others : bool * bool * bool :=
  let '(_, (worker, h)) := pin hazard_init true None 12288 in
  let before := others_protect h None 12288 in
  let '(_, (own, h)) := pin h true None 12296 in
  let mine := others_protect h own 12296 in
  let h := Local_drop (match worker with Some r => Pin_drop h r 0 | None => h end) worker in
  (before, mine, others_protect h own 12288).

Example others_protect_sees_other_threads_only : others = (true, false, false).
Proof. by vm_compute. Qed.

(** [n] threads, one after the other: pin, unpin, exit. *)
Fixpoint threads_pin (n : nat) (h : hazard) : hazard :=
  match n with
  | 0 => h
  | S n =>
      let '(slot, (local, h)) := pin h true None 16 in
      let h := match slot, local with Some i, Some r => Pin_drop h r i | _, _ => h end in
      threads_pin n (Local_drop h local)
  end.

Example records_are_reused_after_thread_exit :
  length (for_each_record (threads_pin 4 hazard_init)) = 1 /\
  length (for_each_record (threads_pin 36 hazard_init)) = 1.
Proof. split; by vm_compute. Qed.
