(* ===== verification/WeakMemory.v ===== *)
(** The memory model the atomics of src/src/hazard.rs and src/src/snapshot.rs run on: the
    C++20 model, which is Rust's, without fences and consume loads.

    An execution is a graph of events with the relations reads-from, modification order and
    the single total order of the [SeqCst] operations; happens-before, coherence order and
    strong happens-before are derived from them.  SnapMachine interleaves all accesses in one
    order; WeakHandshake shows on these graphs that the orderings written in the source are
    strong enough for the hazard-pointer handshake. *)
From S2P Require Import Prelude.

(** ** Events *)

(** [core::sync::atomic::Ordering], and plain accesses. *)
Inductive ordering := NonAtomic | Relaxed | Acquire | Release | AcqRel | SeqCst.

#[export] Instance ordering_eq_dec : EqDecision ordering.
Proof. solve_decision. Defined.

Definition is_acquire (o : ordering) : bool :=
  match o with Acquire | AcqRel | SeqCst => true | _ => false end.
Definition is_release (o : ordering) : bool :=
  match o with Release | AcqRel | SeqCst => true | _ => false end.
Definition is_seq_cst (o : ordering) : bool := match o with SeqCst => true | _ => false end.

(** The locations: [current] of a cell, [HEAD], the fields of a [Record], [fallback_readers]
    and the [writer] lock of a cell, and the value a
    pointer leads to. *)
Inductive loc :=
  | Current (c : nat)
  | Head
  | Next (r : nat)
  | InUse (r : nat)
  | Slot (r i : nat)
  | Fallback (c : nat)
  | Writer (c : nat)
  | Data (p : nat).

#[export] Instance loc_eq_dec : EqDecision loc.
Proof. solve_decision. Defined.

(** A load, a store, or a read-modify-write; values are pointers and flags, null is 0.
    Thread 0 stands for what happened before the threads were started. *)
Record event := Event {
  thread : nat;
  location : loc;
  reads : option nat;
  writes : option nat;
  order : ordering;
}.

Definition is_rmw (e : event) : bool :=
  match reads e, writes e with Some _, Some _ => true | _, _ => false end.

(** The events of a thread are listed in program order. *)
Record graph := Graph {
  events : list event;
  rf : list (nat * nat);
  mo : list (nat * nat);
  sc : list (nat * nat);
}.

Implicit Types (g : graph) (x y z w r : nat).

(** [x] is a write to [l], a read of [l], a [SeqCst] operation. *)
Definition writes_to g (l : loc) x : Prop :=
  exists e, events g !! x = Some e /\ location e = l /\ is_Some (writes e).
Definition reads_of g (l : loc) x : Prop :=
  exists e, events g !! x = Some e /\ location e = l /\ is_Some (reads e).
Definition seq_cst g x : Prop := exists e, events g !! x = Some e /\ is_seq_cst (order e) = true.

(** ** Derived relations *)

(** Sequenced before; what thread 0 did comes before everything else. *)
Definition before x y (ex ey : event) : bool :=
  if decide (thread ex = thread ey) then bool_decide (x < y) else bool_decide (thread ex = 0).

Definition po g x y : Prop :=
  exists ex ey, events g !! x = Some ex /\ events g !! y = Some ey /\ before x y ex ey = true.

(** Sequenced before, in one thread. *)
Definition sb g x y : Prop :=
  exists ex ey, events g !! x = Some ex /\ events g !! y = Some ey /\ x < y /\ thread ex = thread ey.

(** The release sequence of [w]: itself and the read-modify-writes that follow it. *)
Inductive release_seq g w : nat -> Prop :=
  | rs_head : release_seq g w w
  | rs_rmw x y ey : release_seq g w x -> (x, y) ∈ rf g -> events g !! y = Some ey -> is_rmw ey = true ->
      release_seq g w y.

(** Synchronizes with. *)
Definition sw g w r : Prop :=
  exists ew er x, events g !! w = Some ew /\ events g !! r = Some er /\
    is_release (order ew) = true /\ is_acquire (order er) = true /\ release_seq g w x /\ (x, r) ∈ rf g.

Inductive hb g : nat -> nat -> Prop :=
  | hb_po x y : po g x y -> hb g x y
  | hb_sw x y : sw g x y -> hb g x y
  | hb_trans x y z : hb g x y -> hb g y z -> hb g x z.

(** Strongly happens before. *)
Inductive shb g : nat -> nat -> Prop :=
  | shb_po x y : po g x y -> shb g x y
  | shb_sw x y : sw g x y -> seq_cst g x -> seq_cst g y -> shb g x y
  | shb_hb x y z w : po g x y -> hb g y z -> po g z w -> shb g x w
  | shb_trans x y z : shb g x y -> shb g y z -> shb g x z.

(** Coherence-ordered before. *)
Inductive cob g : nat -> nat -> Prop :=
  | cob_rf x y : (x, y) ∈ rf g -> cob g x y
  | cob_mo x y : (x, y) ∈ mo g -> cob g x y
  | cob_fr w x y : (w, x) ∈ rf g -> (w, y) ∈ mo g -> x <> y -> cob g x y
  | cob_trans x y z : cob g x y -> cob g y z -> cob g x z.

(** ** Consistent executions *)

Record consistent g : Prop := {
  (* every read reads one write, of its location and value *)
  co_rf_event w r : (w, r) ∈ rf g -> exists ew er v, events g !! w = Some ew /\ events g !! r = Some er /\
    location ew = location er /\ writes ew = Some v /\ reads er = Some v;
  co_rf_unique w w' r : (w, r) ∈ rf g -> (w', r) ∈ rf g -> w = w';
  co_rf_total r l : reads_of g l r -> exists w, (w, r) ∈ rf g;
  (* the writes of a location are totally ordered *)
  co_mo_loc x y : (x, y) ∈ mo g -> exists l, writes_to g l x /\ writes_to g l y;
  co_mo_total x y l : writes_to g l x -> writes_to g l y -> x = y \/ (x, y) ∈ mo g \/ (y, x) ∈ mo g;
  co_mo_trans x y z : (x, y) ∈ mo g -> (y, z) ∈ mo g -> (x, z) ∈ mo g;
  co_mo_irrefl x : (x, x) ∉ mo g;
  (* coherence with happens-before *)
  co_hb_irrefl x : ~ hb g x x;
  co_ww x y l : hb g x y -> writes_to g l x -> writes_to g l y -> (x, y) ∈ mo g;
  co_wr w r y l : (w, r) ∈ rf g -> reads_of g l r -> hb g y r -> writes_to g l y -> (w, y) ∉ mo g;
  co_rw w r y l : (w, r) ∈ rf g -> reads_of g l r -> hb g r y -> writes_to g l y -> (w, y) ∈ mo g;
  co_rr w r w' r' : (w, r) ∈ rf g -> (w', r') ∈ rf g -> hb g r r' -> (w', w) ∉ mo g;
  (* a read-modify-write reads its predecessor *)
  co_rmw w r er : (w, r) ∈ rf g -> events g !! r = Some er -> is_rmw er = true ->
    (w, r) ∈ mo g /\ forall x, (w, x) ∈ mo g -> (x, r) ∉ mo g;
  (* the total order of the SeqCst operations *)
  co_sc_trans x y z : (x, y) ∈ sc g -> (y, z) ∈ sc g -> (x, z) ∈ sc g;
  co_sc_irrefl x : (x, x) ∉ sc g;
  co_sc_total x y : seq_cst g x -> seq_cst g y -> x = y \/ (x, y) ∈ sc g \/ (y, x) ∈ sc g;
  co_sc_shb x y : seq_cst g x -> seq_cst g y -> shb g x y -> (x, y) ∈ sc g;
  co_sc_cob x y : seq_cst g x -> seq_cst g y -> cob g x y -> (x, y) ∈ sc g;
}.

(** ** What consistency gives *)

Section Facts.
Context g (Hg : consistent g).

Lemma shb_is_hb x y : shb g x y -> hb g x y.
Proof. induction 1; eauto using hb_po, hb_sw, hb_trans. Qed.

(** A [SeqCst] load ordered after a [SeqCst] write does not read anything older. *)
Lemma sc_read_not_older w x y l :
  seq_cst g w -> seq_cst g y -> (w, y) ∈ sc g -> (x, y) ∈ rf g -> writes_to g l w -> reads_of g l y ->
  (x, w) ∉ mo g.
Proof.
  intros Hw Hy Hwy Hxy _ _ Hxw. assert (w <> y) as Hne.
  { intros ->. by apply (co_sc_irrefl _ Hg y). }
  assert ((y, w) ∈ sc g) as Hyw by (apply (co_sc_cob _ Hg); [done..|by eapply cob_fr]).
  apply (co_sc_irrefl _ Hg w). by eapply (co_sc_trans _ Hg).
Qed.

(** A write that is not older is the write itself or newer. *)
Lemma not_older w x l : writes_to g l w -> writes_to g l x -> (x, w) ∉ mo g -> x = w \/ (w, x) ∈ mo g.
Proof. intros Hw Hx Hn. destruct (co_mo_total _ Hg x w l) as [|[|]]; auto. done. Qed.

Lemma rf_writes x r l : (x, r) ∈ rf g -> reads_of g l r -> writes_to g l x.
Proof.
  intros Hr (e & He & <- & _). destruct (co_rf_event _ Hg _ _ Hr) as (ew & er & v & Hw & Hr' & Hl & Hv & _).
  rewrite He in Hr'. injection Hr' as <-. exists ew. by rewrite Hv.
Qed.

Lemma sb_po x y : sb g x y -> po g x y.
Proof.
  intros (ex & ey & Hx & Hy & Hlt & Ht). exists ex, ey. split_and!; [done..|].
  unfold before. by rewrite decide_True, bool_decide_eq_true_2.
Qed.

Lemma sb_hb x y : sb g x y -> hb g x y.
Proof. intros H. by apply hb_po, sb_po. Qed.

Lemma sb_trans x y z : sb g x y -> sb g y z -> sb g x z.
Proof.
  intros (ex & ey & Hx & Hy & Hlt & Ht) (ey' & ez & Hy' & Hz & Hlt' & Ht').
  rewrite Hy in Hy'. injection Hy' as <-. exists ex, ez. split_and!; [done..|lia|congruence].
Qed.

(** Two events of threads that have an earlier event in common. *)
Lemma sb_total c x y : sb g c x -> sb g c y -> x = y \/ sb g x y \/ sb g y x.
Proof.
  intros (ec & ex & Hc & Hx & _ & Ht) (ec' & ey & Hc' & Hy & _ & Ht').
  rewrite Hc in Hc'. injection Hc' as <-.
  destruct (lt_eq_lt_dec x y) as [[Hlt|]|Hlt]; [|by left|]; right; [left|right].
  - exists ex, ey. split_and!; [done..|congruence].
  - exists ey, ex. split_and!; [done..|congruence].
Qed.

Lemma release_seq_trans x y z : release_seq g x y -> release_seq g y z -> release_seq g x z.
Proof. induction 2; eauto using rs_rmw. Qed.

Lemma po_hb x y z : po g x y -> hb g y z -> hb g x z.
Proof. eauto using hb_po, hb_trans. Qed.
End Facts.

(** ** Checking a concrete execution *)

Section Check.
Context g.

Definition po_b x y : bool :=
  match events g !! x, events g !! y with Some ex, Some ey => before x y ex ey | _, _ => false end.

Lemma po_b_spec x y : po_b x y = true <-> po g x y.
Proof.
  unfold po_b, po. split.
  - destruct (events g !! x) as [ex|]; [|done]. destruct (events g !! y) as [ey|]; [|done]. eauto 6.
  - by intros (ex & ey & -> & -> & ->).
Qed.

Definition sb_b x y : bool :=
  match events g !! x, events g !! y with
  | Some ex, Some ey => bool_decide (x < y) && bool_decide (thread ex = thread ey)
  | _, _ => false
  end.

Lemma sb_b_spec x y : sb_b x y = true <-> sb g x y.
Proof.
  unfold sb_b, sb. split.
  - destruct (events g !! x) as [ex|]; [|done]. destruct (events g !! y) as [ey|]; [|done].
    intros [H1%bool_decide_eq_true H2%bool_decide_eq_true]%andb_true_iff. eauto 6.
  - intros (ex & ey & -> & -> & Hlt & Ht). by rewrite !bool_decide_eq_true_2.
Qed.

(** Relations as lists of pairs, closed by computation. *)
Definition compose (l : list (nat * nat)) : list (nat * nat) :=
  a ← l; b ← l; if decide (a.2 = b.1) then [(a.1, b.2)] else [].

Definition close (n : nat) (l : list (nat * nat)) : list (nat * nat) :=
  Nat.iter n (fun l => l ++ remove_dups (filter (fun c => c ∉ l) (compose l))) l.

Definition transitive_on (l : list (nat * nat)) : Prop := Forall (fun c => c ∈ l) (compose l).

Definition indices : list nat := seq 0 (length (events g)).
Definition index_pairs : list (nat * nat) := list_prod indices indices.

Definition po_list : list (nat * nat) := filter (fun a => po_b a.1 a.2 = true) index_pairs.

Definition rmw_at x : bool := match events g !! x with Some e => is_rmw e | None => false end.
Definition rs_list : list (nat * nat) :=
  close 3 (((fun x => (x, x)) <$> indices) ++ filter (fun a => rmw_at a.2 = true) (rf g)).

Definition release_at x : bool := match events g !! x with Some e => is_release (order e) | None => false end.
Definition acquire_at x : bool := match events g !! x with Some e => is_acquire (order e) | None => false end.
Definition sc_at x : bool := match events g !! x with Some e => is_seq_cst (order e) | None => false end.
Definition sw_list (rs : list (nat * nat)) : list (nat * nat) :=
  a ← rs; b ← rf g;
  if decide (a.2 = b.1 /\ release_at a.1 = true /\ acquire_at b.2 = true) then [(a.1, b.2)] else [].

Definition hb_list (rs : list (nat * nat)) : list (nat * nat) := close 3 (po_list ++ sw_list rs).

Definition fr_list : list (nat * nat) :=
  a ← rf g; b ← mo g; if decide (a.1 = b.1 /\ a.2 <> b.2) then [(a.2, b.2)] else [].
Definition cob_list : list (nat * nat) := close 3 (rf g ++ mo g ++ fr_list).

(** The location an event writes or reads. *)
Definition write_loc x : option loc :=
  match events g !! x with Some (Event _ l _ (Some _) _) => Some l | _ => None end.
Definition read_loc x : option loc :=
  match events g !! x with Some (Event _ l (Some _) _ _) => Some l | _ => None end.

Lemma write_loc_spec x l : writes_to g l x <-> write_loc x = Some l.
Proof.
  unfold writes_to, write_loc. split.
  - intros ([t l' rd wr o] & -> & <- & [v Hv]). simpl in Hv. by subst wr.
  - destruct (events g !! x) as [[t l' rd [v|] o]|] eqn:He; try done. intros [= <-].
    eexists. split; [done|]. split; [done|]. by eexists.
Qed.

Lemma read_loc_spec x l : reads_of g l x <-> read_loc x = Some l.
Proof.
  unfold reads_of, read_loc. split.
  - intros ([t l' rd wr o] & -> & <- & [v Hv]). simpl in Hv. by subst rd.
  - destruct (events g !! x) as [[t l' [v|] wr o]|] eqn:He; try done. intros [= <-].
    eexists. split; [done|]. split; [done|]. by eexists.
Qed.

Lemma sc_at_spec x : seq_cst g x <-> sc_at x = true.
Proof. unfold seq_cst, sc_at. destruct (events g !! x); naive_solver. Qed.

Lemma transitive_in l x y z : transitive_on l -> (x, y) ∈ l -> (y, z) ∈ l -> (x, z) ∈ l.
Proof.
  intros Ht Hx Hy. unfold transitive_on in Ht. rewrite Forall_forall in Ht. apply Ht.
  apply list_elem_of_bind. exists (x, y). split; [|done]. apply list_elem_of_bind. exists (y, z).
  split; [|done]. simpl. rewrite decide_True by done. left.
Qed.

Lemma index_in x e : events g !! x = Some e -> x ∈ indices.
Proof. intros He. apply elem_of_seq. apply lookup_lt_Some in He. lia. Qed.

(** All writes to some locations, by computation. *)
Lemma writes_among (P : loc -> nat -> Prop) :
  Forall (fun x => match write_loc x with Some l => P l x | None => True end) indices ->
  forall l x, writes_to g l x -> P l x.
Proof.
  intros H l x Hw. pose proof Hw as (e & He & _). eapply Forall_forall in H; [|by eapply index_in].
  apply write_loc_spec in Hw. by rewrite Hw in H.
Qed.

(** Everything consistency asks for, on lists that contain the release sequences,
    happens-before and coherence order. *)
Context (rs hbl cobl : list (nat * nat)).

Record consistent_on : Prop := {
  cn_rf : Forall (fun a => is_Some (read_loc a.2) /\ write_loc a.1 = read_loc a.2 /\
            (events g !! a.1 ≫= writes) = (events g !! a.2 ≫= reads)) (rf g);
  cn_rf_unique : Forall (fun a => Forall (fun b => a.2 = b.2 -> a.1 = b.1) (rf g)) (rf g);
  cn_rf_total : Forall (fun x => is_Some (read_loc x) -> x ∈ (rf g).*2) indices;
  cn_mo_loc : Forall (fun a => is_Some (write_loc a.1) /\ write_loc a.1 = write_loc a.2 /\ a.1 <> a.2) (mo g);
  cn_mo_total : Forall (fun a => is_Some (write_loc a.1) -> write_loc a.1 = write_loc a.2 ->
            a.1 = a.2 \/ a ∈ mo g \/ (a.2, a.1) ∈ mo g) index_pairs;
  cn_trans : transitive_on (mo g) /\ transitive_on (sc g) /\ transitive_on rs /\
            transitive_on hbl /\ transitive_on cobl;
  cn_base : Forall (fun a => a ∈ hbl) (po_list ++ sw_list rs) /\
            Forall (fun a => a ∈ cobl) (rf g ++ mo g ++ fr_list) /\
            Forall (fun a => a ∈ rs)
              (((fun x => (x, x)) <$> indices) ++ filter (fun a => rmw_at a.2 = true) (rf g));
  cn_hb : Forall (fun a => a.1 <> a.2 /\
            (is_Some (write_loc a.1) -> write_loc a.1 = write_loc a.2 -> a ∈ mo g) /\
            Forall (fun b => (b.2 = a.2 -> (b.1, a.1) ∉ mo g) /\
                             (b.2 = a.1 -> write_loc a.2 = read_loc a.1 -> (b.1, a.2) ∈ mo g) /\
                             (b.2 = a.1 -> Forall (fun d => d.2 = a.2 -> (d.1, b.1) ∉ mo g) (rf g))) (rf g)) hbl;
  cn_rmw : Forall (fun a => rmw_at a.2 = true -> a ∈ mo g /\
            Forall (fun b => b.1 = a.1 -> (b.2, a.2) ∉ mo g) (mo g)) (rf g);
  cn_sc : Forall (fun a => a.1 <> a.2) (sc g) /\
          Forall (fun a => sc_at a.1 = true -> sc_at a.2 = true -> a.1 = a.2 \/ a ∈ sc g \/ (a.2, a.1) ∈ sc g)
            index_pairs /\
          Forall (fun a => sc_at a.1 = true -> sc_at a.2 = true -> a ∈ sc g) (hbl ++ cobl);
}.

Section Sound.
Context (Hc : consistent_on).

Lemma release_seq_in w x e : events g !! w = Some e -> release_seq g w x -> (w, x) ∈ rs.
Proof.
  intros He. destruct (cn_base Hc) as (_ & _ & Hb). destruct (cn_trans Hc) as (_ & _ & Ht & _).
  rewrite Forall_forall in Hb. induction 1 as [|x y ey Hs IH Hr Hy Hrmw].
  - apply Hb, elem_of_app. left. apply list_elem_of_fmap. exists w. split; [done|]. by eapply index_in.
  - eapply transitive_in; [exact Ht|exact IH|]. apply Hb, elem_of_app. right. apply list_elem_of_filter.
    split; [|done]. simpl. unfold rmw_at. by rewrite Hy.
Qed.

Lemma hb_in x y : hb g x y -> (x, y) ∈ hbl.
Proof.
  destruct (cn_base Hc) as (Hb & _ & _). destruct (cn_trans Hc) as (_ & _ & _ & Ht & _).
  rewrite Forall_forall in Hb. induction 1 as [x y Hp|x y Hs|x y z _ IH1 _ IH2].
  - apply Hb, elem_of_app. left. apply list_elem_of_filter. split; [by apply po_b_spec|].
    destruct Hp as (ex & ey & Hx & Hy & _). apply list_elem_of_In, in_prod; by eapply list_elem_of_In, index_in.
  - apply Hb, elem_of_app. right. destruct Hs as (ew & er & z & Hw & Hr & Hrel & Hacq & Hseq & Hrf).
    apply list_elem_of_bind. exists (x, z). split; [|by eapply release_seq_in].
    apply list_elem_of_bind. exists (z, y). split; [|done]. simpl. rewrite decide_True; [left|].
    unfold release_at, acquire_at. by rewrite Hw, Hr.
  - by eapply transitive_in.
Qed.

Lemma cob_in x y : cob g x y -> (x, y) ∈ cobl.
Proof.
  destruct (cn_base Hc) as (_ & Hb & _). destruct (cn_trans Hc) as (_ & _ & _ & _ & Ht).
  rewrite Forall_forall in Hb. induction 1 as [x y Hp|x y Hs|w x y Hr Hm Hne|x y z _ IH1 _ IH2].
  - apply Hb, elem_of_app. by left.
  - apply Hb, elem_of_app. right. apply elem_of_app. by left.
  - apply Hb, elem_of_app. right. apply elem_of_app. right. apply list_elem_of_bind. exists (w, x).
    split; [|done]. apply list_elem_of_bind. exists (w, y). split; [|done]. simpl. rewrite decide_True; [left|done].
  - by eapply transitive_in.
Qed.

Lemma hb_check x y :
  hb g x y -> x <> y /\ (is_Some (write_loc x) -> write_loc x = write_loc y -> (x, y) ∈ mo g) /\
  forall w r, (w, r) ∈ rf g -> (r = y -> (w, x) ∉ mo g) /\
    (r = x -> write_loc y = read_loc x -> (w, y) ∈ mo g) /\
    (r = x -> forall w' r', (w', r') ∈ rf g -> r' = y -> (w', w) ∉ mo g).
Proof.
  intros Hhb%hb_in. pose proof (cn_hb Hc) as H. eapply Forall_forall in H as (H1 & H2 & H3); [|exact Hhb].
  split_and!; [done..|]. intros w r Hr. eapply Forall_forall in H3 as (H4 & H5 & H6); [|exact Hr].
  split_and!; [done..|]. intros Heq w' r' Hr'. specialize (H6 Heq). eapply Forall_forall in H6; [|exact Hr']. done.
Qed.

Lemma seq_cst_index x : seq_cst g x -> x ∈ indices.
Proof. intros (e & He & _). by eapply index_in. Qed.

Lemma consistent_on_sound : consistent g.
Proof.
  destruct (cn_trans Hc) as (Htm & Hts & _). destruct (cn_sc Hc) as (Hsi & Hst & Hsc).
  rewrite Forall_forall in Hsc. split.
  - intros w r Hr. pose proof (cn_rf Hc) as H. eapply Forall_forall in H as ([l Hl] & Hw & Hv); [|exact Hr].
    simpl in *. rewrite Hl in Hw. apply write_loc_spec in Hw as (ew & Hew & Hlw & [v Hvw]).
    apply read_loc_spec in Hl as (er & Her & Hlr & _). exists ew, er, v.
    rewrite Hew, Her in Hv. simpl in Hv. split_and!; congruence.
  - intros w w' r H1 H2. pose proof (cn_rf_unique Hc) as H. eapply Forall_forall in H; [|exact H1].
    eapply Forall_forall in H; [|exact H2]. by apply H.
  - intros r l Hr. pose proof (cn_rf_total Hc) as H. pose proof Hr as (e & He & _).
    eapply Forall_forall in H; [|by eapply index_in]. apply read_loc_spec in Hr. rewrite Hr in H.
    destruct (proj1 (list_elem_of_fmap _ _ _) (H ltac:(by eexists))) as ([w r'] & -> & Hin). by exists w.
  - intros x y Hm. pose proof (cn_mo_loc Hc) as H. eapply Forall_forall in H as ([l Hl] & Heq & _); [|exact Hm].
    simpl in *. exists l. rewrite !write_loc_spec. split; congruence.
  - intros x y l Hx Hy. pose proof (cn_mo_total Hc) as H.
    pose proof Hx as (ex & Hex & _). pose proof Hy as (ey & Hey & _). apply write_loc_spec in Hx, Hy.
    rewrite Forall_forall in H. apply (H (x, y)); simpl; [|by eexists|congruence].
    apply list_elem_of_In, in_prod; by eapply list_elem_of_In, index_in.
  - intros x y z. by apply transitive_in.
  - intros x Hx. pose proof (cn_mo_loc Hc) as H. eapply Forall_forall in H as (_ & _ & Hne); [|exact Hx]. done.
  - intros x Hx%hb_check. by destruct Hx.
  - intros x y l (_ & H & _)%hb_check Hx%write_loc_spec Hy%write_loc_spec. apply H; [by eexists|congruence].
  - intros w r y l Hr _ (_ & _ & H)%hb_check _. by apply (H w r).
  - intros w r y l Hr Hl%read_loc_spec (_ & _ & H)%hb_check Hy%write_loc_spec.
    destruct (H w r Hr) as (_ & H' & _). apply H'; [done|congruence].
  - intros w r w' r' Hr Hr' (_ & _ & H)%hb_check. destruct (H w r Hr) as (_ & _ & H'). by eapply H'.
  - intros w r er Hr He Hrmw. pose proof (cn_rmw Hc) as H. eapply Forall_forall in H; [|exact Hr].
    destruct H as [Hm Hi]; [simpl; unfold rmw_at; by rewrite He|]. split; [done|]. intros x Hx.
    eapply Forall_forall in Hi; [|exact Hx]. by apply Hi.
  - intros x y z. by apply transitive_in.
  - intros x Hx. eapply Forall_forall in Hsi; [|exact Hx]. done.
  - intros x y Hx Hy. rewrite Forall_forall in Hst. apply (Hst (x, y)); [|by apply sc_at_spec..].
    apply list_elem_of_In, in_prod; by apply list_elem_of_In, seq_cst_index.
  - intros x y Hx%sc_at_spec Hy%sc_at_spec Hs. apply (Hsc (x, y)); [|done..].
    apply elem_of_app. left. apply hb_in. by apply shb_is_hb.
  - intros x y Hx%sc_at_spec Hy%sc_at_spec Hs. apply (Hsc (x, y)); [|done..].
    apply elem_of_app. right. by apply cob_in.
Qed.
End Sound.

(** The check is decidable. *)
#[export] Instance transitive_on_dec l : Decision (transitive_on l).
Proof. unfold transitive_on. apply _. Defined.

End Check.

(** Proves [consistent_on] of a concrete graph. *)
Ltac check_graph := split; (apply (bool_decide_unpack _); by vm_compute).
