(* ===== verification/WeakHandshake.v ===== *)
(** The hazard-pointer handshake on weak memory: src/src/hazard.rs, src/src/snapshot.rs.

    On every execution of WeakMemory in which readers announce and validate, records are
    published and reused, and writers swap and scan as the code does and with the orderings
    the code asks for, a scan either sees the announcement of a reader of the replaced value
    or happens after all that the reader did with it.  With [Acquire] instead of [SeqCst] on
    the scan's load of [HEAD] this is false. *)
From S2P Require Import Prelude Hazard WeakMemory.

(** ** The orderings of the source *)

(** [Pin::protect]: [self.slot.store(p, SeqCst)]. *)
Definition protect_store : ordering := SeqCst.
(** [impl Drop for Pin]: [self.slot.store(null, Release)]. *)
Definition unpin_store : ordering := Release.
(** [impl Drop for Local]: the slots, then [in_use]. *)
Definition local_drop_slots : ordering := Release.
Definition local_drop_in_use : ordering := Release.
(** [announced] and [others_protect]: [slot.load(SeqCst)]. *)
Definition announced_load : ordering := SeqCst.
(** [for_each_record]: [HEAD.load(SeqCst)], [record.next.load(Acquire)]. *)
Definition for_each_head : ordering := SeqCst.
Definition for_each_next : ordering := Acquire.
(** [acquire_record]: [in_use.compare_exchange(.., Acquire, Relaxed)], [next.store(.., Relaxed)],
    [HEAD.compare_exchange_weak(.., SeqCst, Acquire)]. *)
Definition claim_cas : ordering := Acquire.
Definition next_store : ordering := Relaxed.
Definition publish_cas : ordering := SeqCst.
(** [SnapCell::protect]: the validating [current.load(SeqCst)]. *)
Definition validate_load : ordering := SeqCst.
(** [SnapCell::update]: [current.store(new, SeqCst)]. *)
Definition swap_store : ordering := SeqCst.

Implicit Types (g : graph).

(** ** What the code does, as events *)

Definition is_event g x t l rd wr o : Prop := events g !! x = Some (Event t l rd wr o).

(** [W] belongs to tenure [k] of a record: its owner does it after claiming the record
    and before releasing it. *)
Definition in_tenure g (claims releases : list nat) k W : Prop :=
  (exists C, claims !! k = Some C /\ sb g C W) /\ forall R, releases !! k = Some R -> sb g W R.

(** The life of record [r] ([acquire_record], [Local::drop]): it is created, linked to the
    old head and published by its first owner; each later owner claims it after the previous
    one has released it; only owners store into its slots. *)
Record record_life g (r : nat) (claims releases : list nat) : Prop := {
  rl_some : r <> 0;
  rl_publish : exists P t v s, claims !! 0 = Some P /\ t <> 0 /\
    is_event g P t Head (Some v) (Some r) publish_cas /\
    is_event g s t (Next r) None (Some v) next_store /\ sb g s P /\
    (forall x, writes_to g (Next r) x -> x = s \/ sb g x s) /\
    (forall i x, writes_to g (Slot r i) x -> sb g x P \/ exists k, in_tenure g claims releases k x);
  rl_released k : S k < length claims -> is_Some (releases !! k);
  rl_claimed k C R C' : claims !! k = Some C -> releases !! k = Some R -> claims !! S k = Some C' ->
    exists t t', is_event g R t (InUse r) None (Some 0) local_drop_in_use /\ sb g C R /\
      is_event g C' t' (InUse r) (Some 0) (Some 1) claim_cas /\ (R, C') ∈ rf g;
  rl_slots k i x e : in_tenure g claims releases k x -> writes_to g (Slot r i) x -> events g !! x = Some e ->
    order e = protect_store \/ order e = unpin_store \/ order e = local_drop_slots;
}.

(** [HEAD] is null at first; then only publications of records change it. *)
Definition head_life g : Prop := forall x, writes_to g Head x ->
  (exists o, is_event g x 0 Head None (Some 0) o) \/
  exists r claims releases, record_life g r claims releases /\ claims !! 0 = Some x.

(** A [read] of cell [c] through slot [i] of record [r], in its tenure [k]: announcement [A]
    of [p], validation [V], and the unpin [U] if the reader has got there. *)
Record reading g (c r i p k : nat) (claims releases : list nat) (A V : nat) (U : option nat) : Prop := {
  rd_slot : i < SLOTS /\ p <> 0;
  rd_announce : exists t, is_event g A t (Slot r i) None (Some p) protect_store;
  rd_validate : exists t, is_event g V t (Current c) (Some p) None validate_load;
  rd_unpin u : U = Some u -> (exists t, is_event g u t (Slot r i) None (Some 0) unpin_store) /\ sb g V u /\
    in_tenure g claims releases k u;
  rd_order : sb g A V;
  rd_tenure : in_tenure g claims releases k A;
  (* the slot is not used again before the unpin, and the record not released *)
  rd_next x : writes_to g (Slot r i) x -> sb g A x -> exists u, U = Some u /\ (x = u \/ sb g u x);
  rd_held : U = None -> releases !! k = None;
}.

(** A scan by thread [t] over [for_each_record]: it starts with the load [H] of [HEAD], visits
    the records of [walk] by their [next] loads, loads the slots, finds the non-null pointers
    [found], and is over before [F].  [announced] loads every slot; [others_protect] leaves out
    the record [own] of its thread, and does not load the rest of a record in which it has
    found its [target].  [head] is the ordering of [H]. *)
Record scan_with (head : ordering) (own target : option nat) g (t H : nat)
    (walk : list (nat * nat)) (found : list nat) (F : nat) : Prop := {
  sn_head : is_event g H t Head (Some (default 0 (fst <$> walk !! 0))) None head;
  sn_next k q N : walk !! k = Some (q, N) -> q <> 0 /\ sb g H N /\
    is_event g N t (Next q) (Some (default 0 (fst <$> walk !! S k))) None for_each_next;
  sn_slots q N i : (q, N) ∈ walk -> own <> Some q -> i < SLOTS ->
    (exists p, target = Some p /\ p ∈ found) \/
    exists L v, is_event g L t (Slot q i) (Some v) None announced_load /\ sb g H L /\ sb g L F /\
      (v <> 0 -> v ∈ found);
}.

Definition scan own target g t H walk found F : Prop := scan_with for_each_head own target g t H walk found F.

(** ** The handshake *)

Section Handshake.
Context g (Hg : consistent g).

Lemma event_writes x t l rd v o : is_event g x t l rd (Some v) o -> writes_to g l x.
Proof. intros H. eexists. split; [exact H|]. by eexists. Qed.

Lemma event_reads x t l v wr o : is_event g x t l (Some v) wr o -> reads_of g l x.
Proof. intros H. eexists. split; [exact H|]. by eexists. Qed.

Lemma event_sc x t l rd wr o : is_event g x t l rd wr o -> is_seq_cst o = true -> seq_cst g x.
Proof. intros H Ho. by eexists. Qed.

(** What a read returns is what the write it reads stored. *)
Lemma rf_value x y t l v wr o e :
  (x, y) ∈ rf g -> is_event g y t l (Some v) wr o -> events g !! x = Some e -> writes e = Some v.
Proof.
  intros Hr Hy Hx. destruct (co_rf_event _ Hg _ _ Hr) as (ew & er & v' & Hw & Hr' & _ & Hv & Hv').
  unfold is_event in Hy. simplify_eq/=. done.
Qed.

(** *** Tenures *)

Section Record.
Context r claims releases (Hr : record_life g r claims releases).

(** A release of a record happens before the next claim. *)
Lemma release_claim k C R C' :
  claims !! k = Some C -> releases !! k = Some R -> claims !! S k = Some C' -> sb g C R /\ hb g R C'.
Proof.
  intros HC HR HC'. destruct (rl_claimed _ _ _ _ Hr _ _ _ _ HC HR HC') as (t & t' & Hev & Hsb & Hev' & Hrf).
  split; [done|]. apply hb_sw. eexists _, _, R. split_and!; [exact Hev|exact Hev'|done|done|constructor|done].
Qed.

(** A release of a record happens before all later claims. *)
Lemma release_later j k R C :
  releases !! j = Some R -> claims !! k = Some C -> j < k -> hb g R C.
Proof.
  intros HR HC Hlt. revert C HC. induction k as [|k IH]; [lia|]. intros C HC.
  destruct (rl_released _ _ _ _ Hr k) as [R1 HR1]; [by apply lookup_lt_Some in HC|].
  destruct (lookup_lt_is_Some_2 claims k) as [C1 HC1]; [apply lookup_lt_Some in HC; lia|].
  destruct (release_claim _ _ _ _ HC1 HR1 HC) as [Hsb Hhb].
  destruct (decide (j = k)) as [->|Hne]; [congruence|].
  eapply hb_trans; [apply IH; [lia|done]|]. eapply hb_trans; [by apply sb_hb|done].
Qed.

Lemma tenures_ordered j k x y :
  in_tenure g claims releases j x -> in_tenure g claims releases k y -> j < k -> hb g x y.
Proof.
  intros [_ Hrel] [(C & HC & Hy) _] Hlt.
  destruct (rl_released _ _ _ _ Hr j) as [R HR]; [apply lookup_lt_Some in HC; lia|].
  eapply hb_trans; [by apply sb_hb, Hrel|]. eapply hb_trans; [by eapply release_later|]. by apply sb_hb.
Qed.

(** The publication is strongly before what the owners do. *)
Lemma publish_shb P k x : claims !! 0 = Some P -> in_tenure g claims releases k x -> shb g P x.
Proof.
  intros HP [(C & HC & Hx) _]. destruct k as [|k].
  { rewrite HP in HC. injection HC as <-. by apply shb_po, sb_po. }
  destruct (rl_released _ _ _ _ Hr 0) as [R HR]; [apply lookup_lt_Some in HC; lia|].
  destruct (lookup_lt_is_Some_2 claims 1) as [C1 HC1]; [apply lookup_lt_Some in HC; lia|].
  destruct (release_claim _ _ _ _ HP HR HC1) as [Hsb _].
  eapply shb_hb; [by apply sb_po|by eapply (release_later 0 (S k)); [..|lia]|by apply sb_po].
Qed.

(** A store into a slot that comes after one of tenure [k] in modification order: it is not
    the creation and not of an earlier tenure. *)
Lemma later_store k i x y :
  in_tenure g claims releases k x -> writes_to g (Slot r i) x -> writes_to g (Slot r i) y -> (x, y) ∈ mo g ->
  sb g x y \/ exists j, k < j /\ in_tenure g claims releases j y.
Proof.
  intros Hx Hwx Hwy Hmo.
  assert (~ hb g y x) as Hn.
  { intros Hhb. apply (co_mo_irrefl _ Hg x). eapply (co_mo_trans _ Hg); [exact Hmo|].
    by eapply (co_ww _ Hg). }
  destruct (rl_publish _ _ _ _ Hr) as (P & t & v & s & HP & _ & _ & _ & _ & _ & Hslots).
  destruct (Hslots i y Hwy) as [Hy|(j & Hy)].
  { destruct Hn. eapply hb_trans; [by apply sb_hb|]. apply shb_is_hb. by eapply publish_shb. }
  destruct (lt_eq_lt_dec j k) as [[Hlt|Heq]|Hgt]; [| |right; by exists j].
  - destruct Hn. by eapply tenures_ordered.
  - subst j. destruct Hx as [(C & HC & Hx) _], Hy as [(C' & HC' & Hy) _].
    rewrite HC in HC'. injection HC' as <-. destruct (sb_total g C x y) as [->|[?|?]]; [done..| |by left|].
    + by apply (co_mo_irrefl _ Hg) in Hmo.
    + destruct Hn. by apply sb_hb.
Qed.
End Record.

(** *** The list of records *)

(** The [next] load of a visited record gives what its publication read. *)
Lemma next_value own target t H walk found F q claims releases Q Q0 k N :
  scan own target g t H walk found F -> record_life g q claims releases -> claims !! 0 = Some Q ->
  release_seq g Q Q0 -> (Q0, H) ∈ rf g -> walk !! k = Some (q, N) ->
  exists tq, is_event g Q tq Head (Some (default 0 (fst <$> walk !! S k))) (Some q) publish_cas.
Proof.
  intros Hs Hq HQ Hseq Hrf Hk. pose proof (sn_head _ _ _ _ _ _ _ _ _ Hs) as HH.
  destruct (sn_next _ _ _ _ _ _ _ _ _ Hs _ _ _ Hk) as (_ & HN & HNev).
  destruct (rl_publish _ _ _ _ Hq) as (Q' & tq & v & s & HQ' & _ & HQev & Hsev & HsQ & Hnext & _).
  rewrite HQ in HQ'. injection HQ' as <-. exists tq.
  assert (hb g s N) as HsN.
  { eapply hb_trans; [by apply sb_hb|]. eapply hb_trans; [|by apply sb_hb].
    apply hb_sw. eexists _, _, Q0. split_and!; [exact HQev|exact HH|done|done|done|done]. }
  pose proof (event_reads _ _ _ _ _ _ HNev) as HNr.
  destruct (co_rf_total _ Hg _ _ HNr) as [x Hx]. pose proof (rf_writes g Hg _ _ _ Hx HNr) as Hxw.
  assert (x = s) as ->.
  { destruct (Hnext x Hxw) as [|Hxs]; [done|]. exfalso.
    eapply (co_wr _ Hg); [exact Hx|exact HNr|exact HsN|by eapply event_writes|].
    eapply (co_ww _ Hg); [by apply sb_hb|exact Hxw|by eapply event_writes]. }
  pose proof (rf_value _ _ _ _ _ _ _ _ Hx HNev Hsev) as Hv. simpl in Hv. by injection Hv as <-.
Qed.

(** A scan whose load of [HEAD] does not read a value older than the publication [P] of
    record [r] visits [r]. *)
Lemma walk_visits own target t H walk found F r claims releases P Q0 :
  head_life g -> scan own target g t H walk found F -> record_life g r claims releases -> claims !! 0 = Some P ->
  (Q0, H) ∈ rf g -> forall suf pre Q e, walk = pre ++ suf -> release_seq g Q Q0 -> writes_to g Head Q ->
  Q = P \/ (P, Q) ∈ mo g -> events g !! Q = Some e -> writes e = Some (default 0 (fst <$> suf !! 0)) ->
  r ∈ suf.*1.
Proof.
  intros Hlife Hs Hr HP Hrf.
  destruct (rl_publish _ _ _ _ Hr) as (P' & tp & vp & sp & HP' & Htp & HPev & _).
  rewrite HP in HP'. injection HP' as <-.
  assert (writes_to g Head P) as HPw by (by eapply event_writes).
  induction suf as [|[q N] suf IH]; intros pre Q e Hwalk Hseq HQ Hle He Hval.
  all: destruct (Hlife Q HQ) as [(o & Hinit)|(q' & cq & rq & Hq & HQ0)].
  1, 3: exfalso; destruct Hle as [->|Hmo]; [by unfold is_event in *; simplify_eq|];
    apply (co_mo_irrefl _ Hg Q); eapply (co_mo_trans _ Hg); [|exact Hmo];
    eapply (co_ww _ Hg); [|exact HQ|exact HPw]; apply hb_po; eexists _, _;
    (split_and!; [exact Hinit|exact HPev|]); unfold before; simpl; by rewrite decide_False.
  all: destruct (rl_publish _ _ _ _ Hq) as (Q' & tq & v & s & HQ' & _ & HQev & _);
    rewrite HQ0 in HQ'; injection HQ' as <-.
  { unfold is_event in HQev. simplify_eq/=. by destruct (rl_some _ _ _ _ Hq). }
  assert (q' = q) as -> by (unfold is_event in HQev; by simplify_eq/=).
  destruct (decide (Q = P)) as [->|Hne].
  { unfold is_event in *. simplify_eq/=. left. }
  destruct Hle as [|Hmo]; [done|]. right.
  assert (walk !! length pre = Some (q, N)) as Hk by (rewrite Hwalk; by apply list_lookup_middle).
  destruct (next_value _ _ _ _ _ _ _ _ _ _ _ _ _ _ Hs Hq HQ0 Hseq Hrf Hk) as (tq' & HQev').
  pose proof (event_reads _ _ _ _ _ _ HQev') as HQr. destruct (co_rf_total _ Hg _ _ HQr) as [Q1 HQ1].
  pose proof (rf_writes g Hg _ _ _ HQ1 HQr) as HQ1w. pose proof HQ1w as (e1 & He1 & _).
  destruct (co_rmw _ Hg _ _ _ HQ1 HQev' eq_refl) as [_ Himm].
  apply (IH (pre ++ [(q, N)]) Q1 e1); [by rewrite <- app_assoc| |done| |done|].
  - eapply release_seq_trans; [|exact Hseq]. by eapply rs_rmw; [constructor|exact HQ1|exact HQev'|].
  - eapply (not_older g Hg); [exact HPw|exact HQ1w|]. intros HQP. by eapply Himm.
  - rewrite (rf_value _ _ _ _ _ _ _ _ HQ1 HQev' He1). do 2 f_equal. rewrite Hwalk.
    rewrite lookup_app_r by lia. by replace (S (length pre) - length pre) with 1 by lia.
Qed.

(** *** The announcement and the scan *)

Section Meeting.
Context c r i p k claims releases A V U (Hr : record_life g r claims releases)
  (Hrd : reading g c r i p k claims releases A V U).

(** The order of the [SeqCst] operations when the reader has validated the value that the
    store [W] replaces. *)
Lemma handshake_order own target P W0 W tw n H t walk found F :
  claims !! 0 = Some P -> (W0, V) ∈ rf g -> (W0, W) ∈ mo g ->
  is_event g W tw (Current c) None (Some n) swap_store -> shb g W H -> scan own target g t H walk found F ->
  (P, H) ∈ sc g /\ (A, H) ∈ sc g.
Proof.
  intros HP HV HW HWev HWH Hs.
  destruct (rl_publish _ _ _ _ Hr) as (P' & tp & v & s & HP' & _ & HPev & _). rewrite HP in HP'. injection HP' as <-.
  destruct (rd_announce _ _ _ _ _ _ _ _ _ _ _ Hrd) as [ta HA].
  destruct (rd_validate _ _ _ _ _ _ _ _ _ _ _ Hrd) as [tv HVev].
  pose proof (sn_head _ _ _ _ _ _ _ _ _ Hs) as HH.
  assert (seq_cst g P /\ seq_cst g A /\ seq_cst g V /\ seq_cst g W /\ seq_cst g H) as (SP & SA & SV & SW & SH)
    by (split_and!; by eapply event_sc).
  assert ((P, A) ∈ sc g) as HPA.
  { apply (co_sc_shb _ Hg); [done..|]. eapply publish_shb; [done|done|by eapply rd_tenure]. }
  assert ((A, V) ∈ sc g) as HAV by (apply (co_sc_shb _ Hg); [done..|]; by eapply shb_po, sb_po, rd_order).
  assert ((V, W) ∈ sc g) as HVW.
  { apply (co_sc_cob _ Hg); [done..|]. apply (cob_fr g W0); [done..|]. intros ->. by unfold is_event in *; simplify_eq. }
  assert ((W, H) ∈ sc g) as HWH' by (by apply (co_sc_shb _ Hg)).
  assert ((A, H) ∈ sc g) as HAH by (eapply (co_sc_trans _ Hg); [exact HAV|]; by eapply (co_sc_trans _ Hg)).
  split; [|done]. by eapply (co_sc_trans _ Hg).
Qed.

(** What comes into the slot after the announcement happens after the reader's accesses. *)
Lemma later_store_after x D :
  writes_to g (Slot r i) x -> (A, x) ∈ mo g -> sb g V D -> (forall u, U = Some u -> sb g D u) ->
  hb g D x /\ exists e, events g !! x = Some e /\ is_release (order e) = true.
Proof.
  intros Hx Hmo HD HU. destruct (rd_announce _ _ _ _ _ _ _ _ _ _ _ Hrd) as [ta HA].
  assert (writes_to g (Slot r i) A) as HAw by (by eapply event_writes).
  pose proof (rd_tenure _ _ _ _ _ _ _ _ _ _ _ Hrd) as HkA.
  assert (hb g D x /\ exists j, in_tenure g claims releases j x) as [HDx (j & Hj)].
  { destruct (later_store _ _ _ Hr k i A x HkA HAw Hx Hmo) as [HAx|(j & Hlt & Hj)].
    - destruct (rd_next _ _ _ _ _ _ _ _ _ _ _ Hrd x Hx HAx) as (u & -> & Hor).
      destruct (rd_unpin _ _ _ _ _ _ _ _ _ _ _ Hrd u eq_refl) as (_ & _ & Hku). split.
      + destruct Hor as [->|Hux]; [by apply sb_hb, HU|].
        eapply hb_trans; [by apply sb_hb, HU|by apply sb_hb].
      + destruct (rl_publish _ _ _ _ Hr) as (P & t & v & s & HP & _ & _ & _ & _ & _ & Hslots).
        destruct (Hslots i x Hx) as [HxP|?]; [|done]. exfalso. apply (co_hb_irrefl _ Hg x).
        eapply hb_trans; [by apply sb_hb|]. eapply hb_trans; [|by apply sb_hb].
        apply shb_is_hb. by eapply publish_shb.
    - split; [|by exists j]. destruct U as [u|] eqn:HUe.
      + destruct (rd_unpin _ _ _ _ _ _ _ _ _ _ _ Hrd u eq_refl) as (_ & _ & Hku).
        eapply hb_trans; [by apply sb_hb, HU|]. by eapply (tenures_ordered _ _ _ Hr k j).
      + exfalso. pose proof (rd_held _ _ _ _ _ _ _ _ _ _ _ Hrd eq_refl) as Hnone.
        destruct Hj as [(C & HC & _) _]. destruct (rl_released _ _ _ _ Hr k) as [R HR]; [|congruence].
        apply lookup_lt_Some in HC. lia. }
  split; [done|]. pose proof Hx as (e & He & _). exists e. split; [done|].
  by destruct (rl_slots _ _ _ _ Hr _ _ _ _ Hj Hx He) as [-> |[-> | ->]].
Qed.
End Meeting.
End Handshake.

(** (C6) The hazard-pointer handshake is correct under the C++20 memory model, with exactly
    the orderings written in the source.  Take any consistent execution in which [HEAD] and
    the records live as the code makes them (publication, claims and releases), a reader
    announces [p] in its slot and validates it on cell [c], and a writer replaces the value
    the validation read ([W] comes after [W0] in modification order).  Then every complete
    scan that strongly happens after the replacement, in the writer or in a later holder of
    the lock, either finds [p], and [p] is not freed; or every access [D] of the reader to the
    value happens before what follows the scan, so that freeing does not race with it.  The
    same holds of the scan of a wait for [p] by another thread than the reader's. *)
Theorem weak_handshake_safe g own target c r i p k claims releases A V U D W0 W tw n t H walk found F :
  consistent g -> head_life g -> record_life g r claims releases ->
  reading g c r i p k claims releases A V U -> sb g V D -> (forall u, U = Some u -> sb g D u) ->
  (W0, V) ∈ rf g -> (W0, W) ∈ mo g -> is_event g W tw (Current c) None (Some n) swap_store ->
  shb g W H -> scan own target g t H walk found F -> own <> Some r -> target = None \/ target = Some p ->
  p ∈ found \/ hb g D F.
Proof.
  intros Hg Hlife Hr Hrd HVD HDU HV HW HWev HWH Hs Hown Htarget.
  destruct (rl_publish _ _ _ _ Hr) as (P & tp & v & s & HP & Htp & HPev & _).
  destruct (handshake_order g Hg _ _ _ _ _ _ _ _ _ _ Hr Hrd own target P W0 W tw n H t walk found F) as [HPH HAH]; [done..|].
  pose proof (sn_head _ _ _ _ _ _ _ _ _ Hs) as HH. pose proof (event_reads g _ _ _ _ _ _ HH) as HHr.
  destruct (co_rf_total _ Hg _ _ HHr) as [Q HQ]. pose proof (rf_writes g Hg _ _ _ HQ HHr) as HQw.
  pose proof HQw as (eq & Heq & _).
  assert (r ∈ walk.*1) as Hin.
  { eapply (walk_visits g Hg own target t H walk found F r claims releases P Q) with (pre := []); try done; [constructor| |].
    - eapply (not_older g Hg); [by eapply event_writes|done|].
      eapply (sc_read_not_older g Hg P Q H Head); [..|done|by eapply event_writes|done];
        [by eapply event_sc|by eapply event_sc|done].
    - by eapply (rf_value g Hg). }
  apply list_elem_of_fmap in Hin as ([q N] & -> & Hin). simpl in *.
  destruct (rd_slot _ _ _ _ _ _ _ _ _ _ _ Hrd) as [Hi Hp].
  destruct (sn_slots _ _ _ _ _ _ _ _ _ Hs _ _ i Hin Hown Hi)
    as [(p' & Hp' & Hf)|(L & v' & HL & HHL & HLF & Hv')].
  { left. destruct Htarget as [?|?]; congruence. }
  pose proof (event_reads g _ _ _ _ _ _ HL) as HLr. destruct (co_rf_total _ Hg _ _ HLr) as [x Hx].
  pose proof (rf_writes g Hg _ _ _ Hx HLr) as Hxw.
  destruct (rd_announce _ _ _ _ _ _ _ _ _ _ _ Hrd) as [ta HA].
  assert ((A, L) ∈ sc g) as HAL.
  { eapply (co_sc_trans _ Hg); [exact HAH|]. apply (co_sc_shb _ Hg);
      [by eapply event_sc|by eapply event_sc|by apply shb_po, sb_po]. }
  destruct (not_older g Hg A x (Slot q i)) as [->|Hmo]; [by eapply event_writes|done| | |].
  - eapply (sc_read_not_older g Hg A x L (Slot q i)); [..|done|by eapply event_writes|done];
      [by eapply event_sc|by eapply event_sc|done].
  - left. pose proof (rf_value g Hg _ _ _ _ _ _ _ _ Hx HL HA) as Hval. simpl in Hval. injection Hval as <-. auto.
  - right. destruct (later_store_after g Hg _ _ _ _ _ _ _ _ _ _ Hr Hrd x D) as [HDx (e & He & Hrel)]; [done..|].
    eapply hb_trans; [exact HDx|]. eapply hb_trans; [|by apply sb_hb].
    apply hb_sw. eexists e, _, x. split_and!; [exact He|exact HL|done|done|constructor|done].
Qed.

(** ** Examples *)

(** A new thread (1) publishes record 1, announces the pointer 5 in its first slot, validates
    it, reads the value, and unpins; a writer (2) replaces the value by 6 and scans. *)
Definition reader_events : list event :=
  [Event 0 Head None (Some 0) NonAtomic; Event 0 (Current 0) None (Some 5) NonAtomic;
   Event 0 (Data 5) None (Some 1) NonAtomic] ++
  ((fun i => Event 1 (Slot 1 i) None (Some 0) NonAtomic) <$> seq 0 8) ++
  [Event 1 (Next 1) None (Some 0) next_store; Event 1 Head (Some 0) (Some 1) publish_cas;
   Event 1 (Slot 1 0) None (Some 5) protect_store; Event 1 (Current 0) (Some 5) None validate_load;
   Event 1 (Data 5) (Some 1) None NonAtomic].

(** All pairs of a list in its order. *)
Fixpoint ordered_pairs (l : list nat) : list (nat * nat) :=
  match l with [] => [] | x :: l => ((fun y => (x, y)) <$> l) ++ ordered_pairs l end.

Definition seen : graph := Graph
  (reader_events ++
   [Event 1 (Slot 1 0) None (Some 0) unpin_store; Event 2 (Current 0) None (Some 6) swap_store;
    Event 2 Head (Some 1) None for_each_head] ++
   ((fun i => Event 2 (Slot 1 i) (Some 0) None announced_load) <$> seq 0 8) ++
   [Event 2 (Next 1) (Some 0) None for_each_next; Event 2 (Data 5) None (Some 0) NonAtomic])
  ([(0, 12); (1, 14); (2, 15); (12, 18); (16, 19)] ++ ((fun i => (3 + i, 19 + i)) <$> seq 1 7) ++ [(11, 27)])
  [(0, 12); (1, 17); (3, 13); (13, 16); (3, 16); (2, 28)]
  (ordered_pairs ([12; 13; 14; 17; 18] ++ seq 19 8)).

Definition seen_rs : list (nat * nat) := Eval vm_compute in rs_list seen.
Definition seen_hb : list (nat * nat) := Eval vm_compute in hb_list seen seen_rs.
Definition seen_cob : list (nat * nat) := Eval vm_compute in cob_list seen.

Lemma seen_consistent : consistent seen.
Proof. apply (consistent_on_sound seen seen_rs seen_hb seen_cob). check_graph. Qed.

Ltac by_events := apply sb_b_spec; by vm_compute.

(** The only tenure of record 1 starts with its publication. *)
Lemma first_tenure g x : sb g 12 x -> in_tenure g [12] [] 0 x.
Proof. intros H. split; [by exists 12|]. done. Qed.

(** What the two examples share: the events of thread 1. *)
Lemma record_one g :
  sb g 12 13 -> reader_events `prefix_of` events g ->
  (forall l x, writes_to g l x -> match l with
     | Head => x = 0 \/ x = 12
     | Next _ => x = 11
     | Slot _ _ => 3 <= x <= 10 \/ (x = 13 \/ x = 16 /\ sb g 12 16 /\
         exists e, events g !! 16 = Some e /\ order e = unpin_store)
     | _ => True end) ->
  record_life g 1 [12] [] /\ head_life g.
Proof.
  intros H13 Hp Hw. assert (forall x e, reader_events !! x = Some e -> events g !! x = Some e) as He.
  { intros x e Hx. by eapply prefix_lookup_Some. }
  assert (forall x, 3 <= x <= 11 -> sb g x 12) as Hsb.
  { intros x Hx. assert (exists e, reader_events !! x = Some e /\ thread e = 1) as (e & Hx' & Ht).
    { do 12 (destruct x as [|x]; [try lia; by eexists|]). lia. }
    eexists e, _. split_and!; [by apply He|by apply He|lia|done]. }
  assert (record_life g 1 [12] []) as Hr.
  { split.
    - done.
    - exists 12, 1, 0, 11. split_and!; [done|done|by apply He|by apply He|by apply Hsb; lia| |].
      + intros x Hx%Hw. by left.
      + intros i x [Hx|[->|(-> & ? & _)]]%Hw; [left; apply Hsb; lia|right; exists 0..]; by apply first_tenure.
    - intros k Hk. simpl in Hk. lia.
    - intros k C R C' _ HR. done.
    - intros k i x e [(C & HC & (e0 & e1 & _ & _ & Hlt & _)) _] Hx Hev.
      destruct k; [|done]. injection HC as <-.
      apply Hw in Hx as [Hx|[->|(-> & _ & e' & He' & Ho)]]; [lia|left|right; left].
      + assert (events g !! 13 = Some (Event 1 (Slot 1 0) None (Some 5) protect_store)) as H by (by apply He).
        rewrite H in Hev. by injection Hev as <-.
      + congruence. }
  split; [done|]. intros x [-> | ->]%Hw; [left; eexists; by apply He|right]. exists 1, [12], []. by split.
Qed.

Lemma seen_writes l x : writes_to seen l x -> match l with
  | Head => x = 0 \/ x = 12
  | Next _ => x = 11
  | Slot _ i => 3 <= x <= 10 \/ (x = 13 \/ x = 16)
  | _ => True end.
Proof.
  revert l x. apply writes_among. unfold indices. vm_compute. repeat (constructor; [try done; try lia|]). constructor.
Qed.

Lemma seen_record : record_life seen 1 [12] [] /\ head_life seen.
Proof.
  apply record_one; [by_events|exists (drop 16 (events seen)); by vm_compute|].
  intros l x Hx%seen_writes. destruct l; try done. destruct Hx as [?|[-> | ->]]; [by left|by right; left|].
  right. right. split; [done|]. split; [by_events|]. by eexists.
Qed.

Lemma seen_reading : reading seen 0 1 0 5 0 [12] [] 13 14 (Some 16).
Proof.
  split.
  - unfold SLOTS. lia.
  - exists 1. by vm_compute.
  - exists 1. by vm_compute.
  - intros u [= <-]. split; [exists 1; by vm_compute|]. split; [by_events|]. apply first_tenure. by_events.
  - by_events.
  - apply first_tenure. by_events.
  - intros x Hx%seen_writes (_ & _ & _ & _ & Hlt & _). exists 16. split; [done|]. left. lia.
  - done.
Qed.

Lemma seen_scan : scan None None seen 2 18 [(1, 27)] [] 28.
Proof.
  split.
  - by vm_compute.
  - intros [|k] q N Hk; [|done]. injection Hk as <- <-. split; [done|]. split; [by_events|by vm_compute].
  - intros q N i Hin _ Hi. apply list_elem_of_singleton in Hin as [= -> ->]. right. exists (19 + i), 0.
    unfold SLOTS in Hi. do 8 (destruct i as [|i]; [split; [by vm_compute|]; split; [by_events|];
      split; [by_events|done]|]). lia.
Qed.

(** The scan loads null from the slot, which the unpin stored; so the reader's access
    happens before the value is freed. *)
Lemma weak_handshake_safe_witness : hb seen 15 28.
Proof.
  destruct (weak_handshake_safe seen None None 0 1 0 5 0 [12] [] 13 14 (Some 16) 15 1 17 2 6 2 18 [(1, 27)] [] 28)
    as [H|H]; [apply seen_consistent|apply seen_record|apply seen_record|apply seen_reading|by_events
              |intros u [= <-]; by_events|apply (bool_decide_unpack _); by vm_compute
              |apply (bool_decide_unpack _); by vm_compute|by vm_compute|apply shb_po, sb_po; by_events
              |apply seen_scan|done|by left|by apply elem_of_nil in H|exact H].
Defined.

(** The same reader, still reading, and a writer whose load of [HEAD] is [Acquire] and does
    not see the new record. *)
Definition missed : graph := Graph
  (reader_events ++
   [Event 2 (Current 0) None (Some 6) swap_store; Event 2 Head (Some 0) None Acquire;
    Event 2 (Data 5) None (Some 0) NonAtomic])
  [(0, 12); (1, 14); (2, 15); (0, 17)]
  [(0, 12); (1, 16); (3, 13); (2, 18)]
  (ordered_pairs [12; 13; 14; 16]).

Definition missed_rs : list (nat * nat) := Eval vm_compute in rs_list missed.
Definition missed_hb : list (nat * nat) := Eval vm_compute in hb_list missed missed_rs.
Definition missed_cob : list (nat * nat) := Eval vm_compute in cob_list missed.

Lemma missed_on : consistent_on missed missed_rs missed_hb missed_cob.
Proof. check_graph. Qed.

Lemma missed_writes l x : writes_to missed l x -> match l with
  | Head => x = 0 \/ x = 12
  | Next _ => x = 11
  | Slot _ i => 3 <= x <= 10 \/ x = 13
  | _ => True end.
Proof.
  revert l x. apply writes_among. unfold indices. vm_compute. repeat (constructor; [try done; try lia|]). constructor.
Qed.

Lemma missed_record : record_life missed 1 [12] [] /\ head_life missed.
Proof.
  apply record_one; [by_events|exists (drop 16 (events missed)); by vm_compute|].
  intros l x Hx%missed_writes. destruct l; try done. destruct Hx as [?| ->]; [by left|by right; left].
Qed.

Lemma missed_reading : reading missed 0 1 0 5 0 [12] [] 13 14 None.
Proof.
  split; [unfold SLOTS; lia|exists 1; by vm_compute|exists 1; by vm_compute|done|by_events
         |apply first_tenure; by_events| |done].
  intros x Hx%missed_writes (_ & _ & _ & _ & Hlt & _). lia.
Qed.

(** The [SeqCst] on the scan's load of [HEAD] is needed: with [Acquire] there, and all
    else as in the source, a consistent execution exists in which a new reader has announced
    and validated the old value, the writer's scan finds no announcement, and the reader's
    access races with the freeing of the value. *)
Theorem acquire_head_unsafe :
  exists g c r i p k claims releases A V D W0 W tw n t H F,
    consistent g /\ head_life g /\ record_life g r claims releases /\
    reading g c r i p k claims releases A V None /\ sb g V D /\
    (W0, V) ∈ rf g /\ (W0, W) ∈ mo g /\ is_event g W tw (Current c) None (Some n) swap_store /\
    shb g W H /\ scan_with Acquire None None g t H [] [] F /\ sb g H F /\ ~ hb g D F /\ ~ hb g F D.
Proof.
  exists missed, 0, 1, 0, 5, 0, [12], [], 13, 14, 15, 1, 16, 2, 6, 2, 17, 18.
  destruct missed_record as [Hr Hl]. pose proof missed_on as Hc.
  split; [by eapply consistent_on_sound|]. split; [done|]. split; [done|]. split; [apply missed_reading|].
  split; [by_events|]. split; [apply (bool_decide_unpack _); by vm_compute|].
  split; [apply (bool_decide_unpack _); by vm_compute|]. split; [by vm_compute|].
  split; [apply shb_po, sb_po; by_events|]. split.
  { split; [by vm_compute|by intros [|k]|by intros q N i ?%elem_of_nil]. }
  split; [by_events|].
  split; intros Hhb%(hb_in _ _ _ _ Hc); revert Hhb; apply (bool_decide_unpack _); by vm_compute.
Qed.
