(* ===== verification/WeakFallback.v ===== *)
(** The counter of fallback readers on weak memory: src/src/snapshot.rs, [read_fallback] and
    [wait_for_retired_readers].

    A wait that loads 0 from [fallback_readers] after replacing the value happens after all
    that fallback readers of the old value did with it. *)
From S2P Require Import Prelude Hazard WeakMemory WeakHandshake.

(** [fallback_readers.fetch_add(1, SeqCst)] of [read_fallback]. *)
Definition enter_add : ordering := SeqCst.
(** [fetch_sub(1, SeqCst)] of [Active::drop]. *)
Definition leave_sub : ordering := SeqCst.
(** [current.load(Acquire)] of [load_arc_locked]. *)
Definition locked_load : ordering := Acquire.
(** [fallback_readers.load(SeqCst)] of [wait_for_retired_readers]. *)
Definition wait_load : ordering := SeqCst.

(** The counter of cell [c]: 0 at first ([init]); then each fallback read adds 1 and, when it
    ends, subtracts 1.  [rs] lists the reads by these two events. *)
Record counter_life g (c init : nat) (rs : list (nat * option nat)) : Prop := {
  fl_init : exists t o, is_event g init t (Fallback c) None (Some 0) o;
  fl_enter a u : (a, u) ∈ rs -> exists t v, is_event g a t (Fallback c) (Some v) (Some (S v)) enter_add;
  fl_leave a u : (a, Some u) ∈ rs -> sb g a u /\
    exists t v, is_event g u t (Fallback c) (Some (S v)) (Some v) leave_sub;
  fl_writes x : writes_to g (Fallback c) x ->
    x = init \/ (exists u, (x, u) ∈ rs) \/ exists a, (a, Some x) ∈ rs;
  fl_first a u : (a, u) ∈ rs -> hb g init a;
  fl_distinct : NoDup (init :: (rs ≫= fun q => q.1 :: option_list q.2));
}.

Section Counter.
Context g (Hg : consistent g) c init rs (Hl : counter_life g c init rs).
Implicit Types (q : nat * option nat) (x y w : nat).

(** [x] is [y] or before it in modification order. *)
Definition upto x y : bool := bool_decide (x = y \/ (x, y) ∈ mo g).

(** The read [q] is in progress when the counter holds what [x] stored. *)
Definition open_at x q : bool := upto q.1 x && negb (match q.2 with Some u => upto u x | None => false end).

Lemma upto_spec x y : upto x y = true <-> x = y \/ (x, y) ∈ mo g.
Proof. apply bool_decide_eq_true. Qed.

(** The predecessor of a read-modify-write. *)
Lemma upto_rmw x y w : (x, y) ∈ mo g -> (forall z, (x, z) ∈ mo g -> (z, y) ∉ mo g) ->
  writes_to g (Fallback c) x -> writes_to g (Fallback c) w -> w <> y -> upto w y = upto w x.
Proof.
  intros Hxy Himm Hx Hw Hne. apply eq_true_iff_eq. rewrite !upto_spec. split.
  - intros [?|Hwy]; [done|]. destruct (co_mo_total _ Hg w x _ Hw Hx) as [|[|Hxw]]; [by left|by right|].
    by destruct (Himm w).
  - intros [->|?]; [by right|]. right. by eapply (co_mo_trans _ Hg).
Qed.

Lemma read_events q : q ∈ rs -> writes_to g (Fallback c) q.1 /\
  forall u, q.2 = Some u -> writes_to g (Fallback c) u /\ (q.1, u) ∈ mo g.
Proof.
  destruct q as [a u]. intros Hq. destruct (fl_enter _ _ _ _ Hl _ _ Hq) as (t & v & Ha).
  assert (writes_to g (Fallback c) a) as Haw by (by eapply event_writes). split; [done|].
  simpl. intros u' ->. destruct (fl_leave _ _ _ _ Hl _ _ Hq) as (Hsb & t' & v' & Hu).
  assert (writes_to g (Fallback c) u') as Huw by (by eapply event_writes). split; [done|].
  eapply (co_ww _ Hg); [by apply sb_hb|done|done].
Qed.

Lemma upto_self x : upto x x = true.
Proof. apply upto_spec. by left. Qed.

Lemma upto_after x y : (y, x) ∈ mo g -> upto x y = false.
Proof.
  intros H. apply not_true_iff_false. rewrite upto_spec. intros [->|H'].
  - by apply (co_mo_irrefl _ Hg y).
  - apply (co_mo_irrefl _ Hg y). by eapply (co_mo_trans _ Hg).
Qed.

(** Reads other than the one that stores [y] are as they were before [y]. *)
Lemma open_other x y q : (x, y) ∈ mo g -> (forall z, (x, z) ∈ mo g -> (z, y) ∉ mo g) ->
  writes_to g (Fallback c) x -> q ∈ rs -> q.1 <> y -> q.2 <> Some y -> open_at y q = open_at x q.
Proof.
  intros Hxy Himm Hx Hq H1 H2. destruct (read_events q Hq) as [Ha Hu]. unfold open_at.
  rewrite (upto_rmw x y) by done. destruct q as [a [u|]]; [|done]. simpl in *.
  destruct (Hu u eq_refl) as [Huw _]. rewrite (upto_rmw x y u); [done..|congruence].
Qed.

(** How the number of open reads changes when one of them enters or leaves. *)
Lemma open_change x y l1 q l2 :
  rs = l1 ++ q :: l2 -> (x, y) ∈ mo g -> (forall z, (x, z) ∈ mo g -> (z, y) ∉ mo g) ->
  writes_to g (Fallback c) x -> q.1 = y \/ q.2 = Some y ->
  cnt (open_at y) rs + (if open_at x q then 1 else 0) = cnt (open_at x) rs + (if open_at y q then 1 else 0).
Proof.
  intros Hrs Hxy Himm Hx Hq.
  pose proof (fl_distinct _ _ _ _ Hl) as Hnd. rewrite Hrs in Hnd.
  assert (forall q', q' ∈ l1 \/ q' ∈ l2 -> q'.1 <> y /\ q'.2 <> Some y) as Hoth.
  { intros q' Hq'. apply NoDup_cons in Hnd as [_ Hnd]. rewrite bind_app, bind_cons in Hnd.
    assert (y ∈ q.1 :: option_list q.2) as Hy.
    { destruct q as [a [u|]]; simpl in *; destruct Hq as [->|[= ->]]; set_solver. }
    assert (forall z, z ∈ q'.1 :: option_list q'.2 -> z <> y) as Hz.
    { intros z Hz ->. apply NoDup_app in Hnd as (_ & Hd & Hnd). destruct Hq' as [Hq'|Hq'].
      - apply (Hd y); [apply list_elem_of_bind; by exists q'|]. by apply elem_of_app; left.
      - apply NoDup_app in Hnd as (_ & Hd' & _). apply (Hd' y); [done|].
        apply list_elem_of_bind. by exists q'. }
    split; [apply Hz; left|]. intros He. eapply (Hz y); [|done]. rewrite He. right. left. }
  assert (forall l, (forall q', q' ∈ l -> q' ∈ rs /\ q'.1 <> y /\ q'.2 <> Some y) ->
    cnt (open_at y) l = cnt (open_at x) l) as Hsame.
  { induction l as [|q' l IH]; intros Hall; [done|]. unfold cnt in *. simpl.
    destruct (Hall q') as (Hin & H1 & H2); [left|]. rewrite (open_other x y q') by done.
    destruct (open_at x q'); simpl; rewrite IH; try done; intros; apply Hall; by right. }
  rewrite Hrs, !cnt_app.
  rewrite (Hsame l1) by (intros q' ?; split; [rewrite Hrs; set_solver|by apply Hoth; left]).
  change (q :: l2) with ([q] ++ l2). rewrite !cnt_app.
  rewrite (Hsame l2) by (intros q' ?; split; [rewrite Hrs; set_solver|by apply Hoth; right]).
  unfold cnt. simpl. destruct (open_at y q), (open_at x q); simpl; lia.
Qed.

(** *** The value of the counter *)

(** Induction along the modification order. *)
Definition earlier x : gset nat := list_to_set ((filter (fun a => a.2 = x) (mo g)).*1).

Lemma elem_of_earlier x w : w ∈ earlier x <-> (w, x) ∈ mo g.
Proof.
  unfold earlier. rewrite elem_of_list_to_set, list_elem_of_fmap. split.
  - intros ([w' x'] & -> & [Hx Hin]%list_elem_of_filter). simpl in *. by subst x'.
  - intros Hin. exists (w, x). split; [done|]. by apply list_elem_of_filter.
Qed.

Lemma mo_ind (P : nat -> Prop) : (forall x, (forall w, (w, x) ∈ mo g -> P w) -> P x) -> forall x, P x.
Proof.
  intros Hstep x. remember (size (earlier x)) as n eqn:Hn. revert x Hn.
  induction (lt_wf n) as [n _ IH]. intros x ->. apply Hstep. intros w Hw.
  eapply IH; [|reflexivity]. apply subset_size. split.
  - intros z. rewrite !elem_of_earlier. intros Hz. by eapply (co_mo_trans _ Hg).
  - intros Hsub. apply (co_mo_irrefl _ Hg w), elem_of_earlier, Hsub. by apply elem_of_earlier.
Qed.

(** A store to the counter is its creation, or reads its predecessor. *)
Lemma counter_store x : writes_to g (Fallback c) x -> x = init \/
  exists q w, q ∈ rs /\ (q.1 = x \/ q.2 = Some x) /\ (w, x) ∈ rf g /\ (w, x) ∈ mo g /\
    (forall z, (w, z) ∈ mo g -> (z, x) ∉ mo g) /\ writes_to g (Fallback c) w /\
    (exists e, events g !! x = Some e /\ is_rmw e = true) /\
    exists t v v' o, is_event g x t (Fallback c) (Some v) (Some v') o /\
      ((q.1 = x /\ v' = S v) \/ (q.2 = Some x /\ v = S v')).
Proof.
  intros Hx.
  assert (forall t v v' o, is_event g x t (Fallback c) (Some v) (Some v') o ->
    exists w, (w, x) ∈ rf g /\ (w, x) ∈ mo g /\ (forall z, (w, z) ∈ mo g -> (z, x) ∉ mo g) /\
      writes_to g (Fallback c) w) as Hpred.
  { intros t v v' o Hev. pose proof (event_reads _ _ _ _ _ _ _ Hev) as Hr.
    destruct (co_rf_total _ Hg _ _ Hr) as [w Hw]. exists w. destruct (co_rmw _ Hg _ _ _ Hw Hev eq_refl) as [Hm Hi].
    split_and!; try done. by eapply rf_writes. }
  destruct (fl_writes _ _ _ _ Hl x Hx) as [?|[(u & Hin)|(a & Hin)]]; [by left|right..].
  - destruct (fl_enter _ _ _ _ Hl _ _ Hin) as (t & v & Hev). destruct (Hpred _ _ _ _ Hev) as (w & H1 & H2 & H3 & H4).
    exists (x, u), w. split_and!; try done; [by left|by eexists|]. exists t, v, (S v), enter_add. split; [done|by left].
  - destruct (fl_leave _ _ _ _ Hl _ _ Hin) as (_ & t & v & Hev). destruct (Hpred _ _ _ _ Hev) as (w & H1 & H2 & H3 & H4).
    exists (a, Some x), w. split_and!; try done; [by right|by eexists|]. exists t, (S v), v, leave_sub.
    split; [done|by right].
Qed.

(** The counter holds the number of reads in progress. *)
Lemma counter_value x : forall e v, writes_to g (Fallback c) x -> events g !! x = Some e -> writes e = Some v ->
  cnt (open_at x) rs = v.
Proof.
  induction x as [x IH] using mo_ind. intros e v Hx He Hv.
  destruct (counter_store x Hx) as [->|(q & w & Hq & Hqx & Hrf & Hmo & Himm & Hw & _ & t & n & n' & o & Hev & Hcase)].
  { destruct (fl_init _ _ _ _ Hl) as (t & o & Hi). unfold is_event in Hi. simplify_eq/=.
    apply cnt_zero. intros [a u] Hq. unfold open_at. simpl. rewrite upto_after; [done|].
    eapply (co_ww _ Hg); [by eapply fl_first|done|]. by apply read_events in Hq as [? _]. }
  pose proof Hev as Hev'. unfold is_event in Hev'. rewrite He in Hev'. injection Hev' as ->.
  simpl in Hv. injection Hv as <-. pose proof Hw as (ew & Hew & _).
  pose proof (IH w Hmo ew n Hw Hew (rf_value g Hg _ _ _ _ _ _ _ _ Hrf Hev Hew)) as IHw.
  apply list_elem_of_split in Hq as (l1 & l2 & Hrs).
  assert (q ∈ rs) as Hq by (rewrite Hrs; set_solver). destruct (read_events q Hq) as [Ha Hu].
  pose proof (open_change w x l1 q l2 Hrs Hmo Himm Hw Hqx) as Hc. rewrite IHw in Hc.
  destruct q as [a u]. unfold open_at in Hc at 2 3. simpl in *.
  destruct Hcase as [[-> ->]|[-> ->]].
  - rewrite upto_self, (upto_after x w Hmo) in Hc. simpl in Hc. destruct u as [u|]; simpl in Hc; [|lia].
    destruct (Hu u eq_refl) as [_ Hau]. rewrite (upto_after u x Hau) in Hc. simpl in Hc. lia.
  - destruct (Hu x eq_refl) as [_ Hax]. rewrite upto_self, (upto_after x w Hmo) in Hc.
    assert (a <> x) as Hne by (intros ->; by apply (co_mo_irrefl _ Hg x)).
    assert (upto a x = true) as Hax' by (apply upto_spec; by right).
    rewrite <- (upto_rmw w x a Hmo Himm Hw Ha Hne), Hax' in Hc. simpl in Hc. lia.
Qed.

(** A store at or after that of [u] is in its release sequence. *)
Lemma counter_release_seq u x : writes_to g (Fallback c) u -> (init, u) ∈ mo g ->
  writes_to g (Fallback c) x -> upto u x = true -> release_seq g u x.
Proof.
  intros Hu Hiu. induction x as [x IH] using mo_ind. intros Hx Hux.
  destruct (decide (u = x)) as [->|Hne]; [constructor|].
  destruct (counter_store x Hx) as [->|(q & w & _ & _ & Hrf & Hmo & Himm & Hw & (e & He & Hrmw) & _)].
  { by rewrite (upto_after u init Hiu) in Hux. }
  eapply rs_rmw; [apply (IH w Hmo Hw)|exact Hrf|exact He|exact Hrmw].
  by rewrite <- (upto_rmw w x u).
Qed.
End Counter.

(** (C14) A wait that finds the counter at 0 has waited for the fallback readers of the replaced
    value, under the C++20 memory model and with the orderings of the source.  The reader
    [(a, U)] counts itself, loads the old value from [current] under the writer lock ([R]) and
    uses it ([D]); the store [W] that replaces the value is made under the same lock, so the
    two are ordered one way or the other.  If after [W] the counter is loaded as 0 ([L]), then
    the reader has left, and [D] happens before [L]. *)
Theorem weak_fallback_safe g c init rs a U R tr v D W0 W tw n L tl :
  consistent g -> counter_life g c init rs -> (a, U) ∈ rs -> sb g a R ->
  is_event g R tr (Current c) (Some v) None locked_load -> (W0, R) ∈ rf g ->
  is_event g W tw (Current c) None (Some n) swap_store -> (W0, W) ∈ mo g -> hb g R W \/ hb g W R ->
  (forall u, U = Some u -> sb g D u) -> hb g W L ->
  is_event g L tl (Fallback c) (Some 0) None wait_load ->
  is_Some U /\ hb g D L.
Proof.
  intros Hg Hl Hq HaR HR HRf HW HWmo Hlock HD HWL HL.
  assert (hb g R W) as HRW.
  { destruct Hlock as [|HWR]; [done|]. exfalso.
    eapply (co_wr _ Hg); [exact HRf|by eapply event_reads|exact HWR|by eapply event_writes|done]. }
  assert (hb g a L) as HaL by (eapply hb_trans; [by apply sb_hb|]; by eapply hb_trans).
  destruct (read_events g Hg c init rs Hl _ Hq) as [Ha Hu]. simpl in Ha, Hu.
  pose proof (event_reads _ _ _ _ _ _ _ HL) as HLr. destruct (co_rf_total _ Hg _ _ HLr) as [x Hx].
  pose proof (rf_writes g Hg _ _ _ Hx HLr) as Hxw. pose proof Hxw as (e & He & _).
  pose proof (rf_value g Hg _ _ _ _ _ _ _ _ Hx HL He) as Hval.
  assert (upto g a x = true) as Hax.
  { apply upto_spec. destruct (not_older g Hg a x _ Ha Hxw) as [->|?]; [|by left|by right].
    by eapply (co_wr _ Hg). }
  pose proof (counter_value g Hg c init rs Hl x e 0 Hxw He Hval) as Hcnt.
  pose proof (cnt_0 _ _ Hcnt _ Hq) as Hopen. unfold open_at in Hopen. simpl in Hopen. rewrite Hax in Hopen.
  destruct U as [u|]; simpl in Hopen; [|done]. split; [done|].
  apply negb_false_iff in Hopen. destruct (Hu u eq_refl) as [Huw Hau].
  destruct (fl_leave _ _ _ _ Hl _ _ Hq) as (_ & tu & vu & Hue).
  assert (release_seq g u x) as Hseq.
  { eapply (counter_release_seq g Hg c init rs Hl); [done| |done|done].
    eapply (co_mo_trans _ Hg); [|exact Hau]. destruct (fl_init _ _ _ _ Hl) as (ti & oi & Hi).
    eapply (co_ww _ Hg); [by eapply fl_first|by eapply event_writes|done]. }
  eapply hb_trans; [by apply sb_hb, HD|]. apply hb_sw. eexists _, _, x.
  split_and!; [exact Hue|exact HL|done|done|done|done].
Qed.

(** ** Example *)

(** A fallback reader (1) counts itself, takes the lock, loads the old value, unlocks, reads it
    and leaves; a writer (2) then replaces the value under the lock and loads the counter. *)
Definition drained : graph := Graph
  [Event 0 (Fallback 0) None (Some 0) NonAtomic; Event 0 (Current 0) None (Some 5) NonAtomic;
   Event 0 (Writer 0) None (Some 0) NonAtomic; Event 0 (Data 5) None (Some 1) NonAtomic;
   Event 1 (Fallback 0) (Some 0) (Some 1) enter_add; Event 1 (Writer 0) (Some 0) (Some 1) Acquire;
   Event 1 (Current 0) (Some 5) None locked_load; Event 1 (Writer 0) None (Some 0) Release;
   Event 1 (Data 5) (Some 1) None NonAtomic; Event 1 (Fallback 0) (Some 1) (Some 0) leave_sub;
   Event 2 (Writer 0) (Some 0) (Some 1) Acquire; Event 2 (Current 0) None (Some 6) swap_store;
   Event 2 (Writer 0) None (Some 0) Release; Event 2 (Fallback 0) (Some 0) None wait_load]
  [(0, 4); (2, 5); (1, 6); (3, 8); (4, 9); (7, 10); (9, 13)]
  ([(1, 11)] ++ ordered_pairs [0; 4; 9] ++ ordered_pairs [2; 5; 7; 10; 12])
  (ordered_pairs [4; 9; 11; 13]).

Definition drained_rs : list (nat * nat) := Eval vm_compute in rs_list drained.
Definition drained_hb : list (nat * nat) := Eval vm_compute in hb_list drained drained_rs.
Definition drained_cob : list (nat * nat) := Eval vm_compute in cob_list drained.

Lemma drained_on : consistent_on drained drained_rs drained_hb drained_cob.
Proof. check_graph. Qed.

Lemma drained_counter : counter_life drained 0 0 [(4, Some 9)].
Proof.
  split.
  - exists 0, NonAtomic. by vm_compute.
  - intros a u [= -> ->]%list_elem_of_singleton. exists 1, 0. by vm_compute.
  - intros a u [= -> ->]%list_elem_of_singleton. split; [by_events|]. exists 1, 0. by vm_compute.
  - intros x Hx. assert (x = 0 \/ x = 4 \/ x = 9) as Hc.
    { revert x Hx. assert (forall l x, writes_to drained l x ->
        match l with Fallback _ => x = 0 \/ x = 4 \/ x = 9 | _ => True end) as H.
      { apply writes_among. unfold indices. vm_compute. repeat (constructor; [try done; try lia|]). constructor. }
      intros x Hx. by apply H in Hx. }
    destruct Hc as [-> | [-> | ->]]; [by left|right; left; eexists; left|right; right; eexists; left].
  - intros a u [= -> ->]%list_elem_of_singleton. apply hb_po, po_b_spec. by vm_compute.
  - apply (bool_decide_unpack _). by vm_compute.
Qed.

Lemma weak_fallback_safe_witness : is_Some (Some 9) /\ hb drained 8 13.
Proof.
  apply (weak_fallback_safe drained 0 0 [(4, Some 9)] 4 (Some 9) 6 1 5 8 1 11 2 6 13 2);
    [by eapply consistent_on_sound, drained_on|apply drained_counter|left|by_events|by vm_compute
    |apply (bool_decide_unpack _); by vm_compute|by vm_compute|apply (bool_decide_unpack _); by vm_compute
    | |intros u [= <-]; by_events|apply sb_hb; by_events|by vm_compute].
  left. eapply hb_trans; [apply sb_hb, (sb_b_spec drained 6 7); by vm_compute|].
  eapply hb_trans; [|apply sb_hb, (sb_b_spec drained 10 11); by vm_compute].
  apply hb_sw. eexists _, _, 7. split_and!; [by vm_compute..|constructor|].
  apply (bool_decide_unpack _). by vm_compute.
Defined.
