(* ===== verification/SyncRegistry.v ===== *)
(** [SyncRegistry] on one thread: src/src/sync/mod.rs and src/src/sync/guard.rs.

    Handlers, panic callbacks and the code between calls are user programs that may
    call the registry again, panic, or both; dispatches nest to any depth.  The
    registry is generic in the implementation of the handler list (class
    [HandlerStore]); [SyncRegistry] proper uses the [Vec] of the source. *)
From S2P Require Import Prelude HandlerId HandlerList HandlerStore PanicInfo.

(** ** Guards *)

(** [struct HandlerGuard { id, registry: Weak<SyncRegistry> }]: whether the [Weak]
    points to the registry, or to nothing ([Weak::new()]). *)
Record HandlerGuard := Guard { guard_id : HandlerId; guard_registry : bool }.

(** [HandlerGuard::new] with [Arc::downgrade(self)]. *)
Definition HandlerGuard_new (id : HandlerId) : HandlerGuard := Guard id true.

(** [HandlerGuard::forget]: the [Weak] is replaced and the destructor never runs;
    what is left is a guard whose drop does nothing. *)
Definition HandlerGuard_forget (g : HandlerGuard) : HandlerGuard := Guard (guard_id g) false.

(** ** User programs *)

Section Programs.
Context {E O : Type}.

(** What handlers, callbacks and callers do: effects on state of their own, calls of
    the registry's methods, panics.  The state user code shares (atomics, mutexes,
    standard output) is given by the effects [O] performed so far: [Emit] performs
    one, [Observe] reads them all. *)
Inductive prog :=
  | Ret
  | Panic (p : payload)
  | Emit (o : O) (k : prog)
  | Register (priority : Z) (h : E -> prog) (k : HandlerId -> prog)
  | RegisterOnce (h : E -> prog) (k : HandlerId -> prog)
  | Unregister (id : HandlerId) (k : bool -> prog)
  | UnregisterAndWait (id : HandlerId) (k : bool -> prog)
  | Clear (k : prog)
  | ClearAndWait (k : prog)
  | Contains (id : HandlerId) (k : bool -> prog)
  | HandlerCount (k : nat -> prog)
  | IsEmpty (k : bool -> prog)
  | PanicCount (k : Z -> prog)
  | OnPanic (cb : PanicInfo -> prog) (k : prog)
  | ClearPanicCallback (k : prog)
  | Notify (e : E) (k : prog)
  | DropGuard (g : HandlerGuard) (k : prog)
  | Observe (k : list O -> prog).

(** [register]: priority 0. *)
Definition Register0 (h : E -> prog) (k : HandlerId -> prog) : prog := Register 0 h k.

(** [register_guard] and [register_guard_with_priority]. *)
Definition RegisterGuardWithPriority (priority : Z) (h : E -> prog) (k : HandlerGuard -> prog)
    : prog := Register priority h (fun id => k (HandlerGuard_new id)).
Definition RegisterGuard (h : E -> prog) (k : HandlerGuard -> prog) : prog :=
  RegisterGuardWithPriority 0 h k.

(** The closures the registry stores: a handler, or the [once] closure of
    [register_once] with its [Mutex<Option<F>>] (number [slot]) and its id. *)
Inductive stored :=
  | SPlain (h : E -> prog)
  | SOnce (slot : nat) (id : HandlerId).
End Programs.
Arguments prog : clear implicits.
Arguments stored : clear implicits.

(** How a piece of code ends: normally, unwinding, or by aborting the process (a
    panic in a destructor that runs during unwinding). *)
Inductive flow := Done | Panicked (p : payload) | Aborted.

(** What happened.  The registry reads none of it, user code only the effects of user
    code ([emits]); the rest is for stating properties.  [TCall d id] is a handler
    call by a dispatch nested [d] deep. *)
Inductive tev {O : Type} :=
  | TEmit (o : O)
  | TIssue (id : HandlerId)
  | TCall (d : nat) (id : HandlerId)
  | TOnce (slot : nat)
  | TPanic (id : HandlerId) (p : payload)
  | TReport (i : PanicInfo)
  | TWait.
Arguments tev : clear implicits.

(** The effects of user code in a trace, oldest first. *)
Definition emits {O : Type} (t : list (tev O)) : list O :=
  omap (fun ev => match ev with TEmit o => Some o | _ => None end) t.

Section Registry.
Context {E O St : Type} `{HandlerStore (stored E O) St}.

(** [struct SyncRegistry { handlers, id_generator, panic_callback, panics }]. *)
Record SyncRegistry := mkRegistry {
  handlers : St;
  id_generator : HandlerIdGenerator;
  panic_callback : option (PanicCallbackHolder (prog E O));
  panics : Z;
}.

(** [SyncRegistry::with_capacity]; the capacity of a [Vec] is not observable. *)
Definition with_capacity (capacity : nat) : SyncRegistry :=
  mkRegistry store_new HandlerIdGenerator_new None 0.

Definition SyncRegistry_new : SyncRegistry := with_capacity 0.

(** [impl Default]. *)
Definition SyncRegistry_default : SyncRegistry := SyncRegistry_new.

(** [insert]. *)
Definition insert (entry : HandlerEntry (stored E O)) (r : SyncRegistry) : SyncRegistry :=
  mkRegistry (store_insert entry (handlers r)) (id_generator r) (panic_callback r) (panics r).

(** [self.id_generator.next()]. *)
Definition issue_id (r : SyncRegistry) : HandlerId * SyncRegistry :=
  let '(id, g) := next_id (id_generator r) in
  (id, mkRegistry (handlers r) g (panic_callback r) (panics r)).

(** [register_with_priority]. *)
Definition register_with_priority (priority : Z) (h : E -> prog E O) (r : SyncRegistry)
    : HandlerId * SyncRegistry :=
  let '(id, r) := issue_id r in
  (id, insert (Entry id priority (SPlain h)) r).

(** [remove_id], [remove_all]: whether anything was removed. *)
Definition remove_id (id : HandlerId) (r : SyncRegistry) : bool * SyncRegistry :=
  match store_remove id (handlers r) with
  | Some s => (true, mkRegistry s (id_generator r) (panic_callback r) (panics r))
  | None => (false, r)
  end.

Definition remove_all (r : SyncRegistry) : bool * SyncRegistry :=
  match store_clear (handlers r) with
  | Some s => (true, mkRegistry s (id_generator r) (panic_callback r) (panics r))
  | None => (false, r)
  end.

Definition unregister (id : HandlerId) (r : SyncRegistry) : bool * SyncRegistry := remove_id id r.

Definition clear (r : SyncRegistry) : SyncRegistry := (remove_all r).2.

Definition panic_count (r : SyncRegistry) : Z := panics r.
Definition handler_count (r : SyncRegistry) : nat := length (store_list (handlers r)).
Definition is_empty (r : SyncRegistry) : bool :=
  match store_list (handlers r) with [] => true | _ => false end.
Definition contains (id : HandlerId) (r : SyncRegistry) : bool :=
  existsb (fun e => bool_decide (entry_id e = id)) (store_list (handlers r)).

(** [on_panic], [clear_panic_callback]. *)
Definition on_panic (cb : PanicInfo -> prog E O) (r : SyncRegistry) : SyncRegistry :=
  mkRegistry (handlers r) (id_generator r) (Some (PanicCallbackHolder_new cb)) (panics r).
Definition clear_panic_callback (r : SyncRegistry) : SyncRegistry :=
  mkRegistry (handlers r) (id_generator r) None (panics r).

(** [self.panics.fetch_add(1)]: wraps at [2^64]. *)
Definition count_panic (r : SyncRegistry) : SyncRegistry :=
  mkRegistry (handlers r) (id_generator r) (panic_callback r) (u64 (panics r + 1)).

(** ** The world user programs run in *)

(** The registry (alive while some [Arc] to it exists), the mutexes of the [once]
    closures, the nesting depth of dispatches and the trace. *)
Record world := World {
  reg : SyncRegistry;
  alive : bool;
  once_slots : list (option (E -> prog E O));
  depth : nat;
  trace : list (tev O);
}.

Definition world_new : world := World SyncRegistry_new true [] 0 [].

Definition set_reg (r : SyncRegistry) (w : world) : world :=
  World r (alive w) (once_slots w) (depth w) (trace w).
Definition log_ev (ev : tev O) (w : world) : world :=
  World (reg w) (alive w) (once_slots w) (depth w) (trace w ++ [ev]).
Definition set_depth (d : nat) (w : world) : world :=
  World (reg w) (alive w) (once_slots w) d (trace w).
Definition set_slots (l : list (option (E -> prog E O))) (w : world) : world :=
  World (reg w) (alive w) l (depth w) (trace w).

(** The methods, on the world. *)
Definition do_register (priority : Z) (h : E -> prog E O) (w : world) : HandlerId * world :=
  let '(id, r) := register_with_priority priority h (reg w) in
  (id, log_ev (TIssue id) (set_reg r w)).

(** [register_once]: a fresh mutex holding the handler, the [once] closure stored
    with priority 0. *)
Definition register_once (h : E -> prog E O) (w : world) : HandlerId * world :=
  let '(id, r) := issue_id (reg w) in
  let slot := length (once_slots w) in
  (id, log_ev (TIssue id)
         (set_reg (insert (Entry id 0 (SOnce slot id)) r)
            (set_slots (once_slots w ++ [Some h]) w))).

Definition do_unregister (id : HandlerId) (w : world) : bool * world :=
  let '(b, r) := unregister id (reg w) in (b, set_reg r w).

(** [unregister_and_wait]: waits only if something was removed.  A thread never
    waits for its own dispatches, so on one thread the wait returns at once. *)
Definition unregister_and_wait (id : HandlerId) (w : world) : bool * world :=
  let '(b, r) := remove_id id (reg w) in
  (b, if b then log_ev TWait (set_reg r w) else set_reg r w).

Definition clear_and_wait (w : world) : world :=
  let '(b, r) := remove_all (reg w) in
  if b then log_ev TWait (set_reg r w) else set_reg r w.

(** [Weak::upgrade] followed by [unregister]: the drop of a guard and of
    [RemoveOnDrop]. *)
Definition unregister_if_alive (live : bool) (id : HandlerId) (w : world) : world :=
  if live && alive w then (do_unregister id w).2 else w.

Definition HandlerGuard_drop (g : HandlerGuard) (w : world) : world :=
  unregister_if_alive (guard_registry g) (guard_id g) w.

Definition RemoveOnDrop_drop (id : HandlerId) (w : world) : world :=
  unregister_if_alive true id w.

(** The last [Arc] to the registry goes away. *)
Definition drop_registry (w : world) : world :=
  World (reg w) false (once_slots w) (depth w) (trace w).

(** ** Dispatch *)

(** [run] executes a user program.  [None] is only for lack of fuel. *)
Definition result : Type := option (flow * world).

(** The drop of what [catch_unwind] returned for the callback, while [pl], the
    handler's payload, is still alive: if it panics, [pl] is dropped during the
    unwinding. *)
Definition drop_both (second : option payload) (pl : payload) : flow :=
  match second ≫= drop_payload with
  | Some r => match drop_payload pl with Some _ => Aborted | None => Panicked r end
  | None => match drop_payload pl with Some r => Panicked r | None => Done end
  end.

(** [handle_panic]. *)
Definition handle_panic (run : prog E O -> world -> result) (id : HandlerId) (pl : payload)
    (w : world) : result :=
  let w := log_ev (TPanic id pl) (set_reg (count_panic (reg w)) w) in
  match panic_callback (reg w) with
  | None => Some (drop_both None pl, w)
  | Some holder =>
      let info := PanicInfo_new id pl in
      match run (invoke holder info) (log_ev (TReport info) w) with
      | None => None
      | Some (Aborted, w) => Some (Aborted, w)
      | Some (Done, w) => Some (drop_both None pl, w)
      | Some (Panicked q, w) => Some (drop_both (Some q) pl, w)
      end
  end.

(** Calling a stored closure.  The [once] closure takes the handler out of its
    mutex; if it was still there, calls it and unregisters on the way out, be it
    normal or unwinding. *)
Definition call (run : prog E O -> world -> result) (h : stored E O) (e : E) (w : world) : result :=
  match h with
  | SPlain h => run (h e) w
  | SOnce slot id =>
      match once_slots w !! slot with
      | Some (Some h) =>
          let w := log_ev (TOnce slot) (set_slots (<[slot := None]> (once_slots w)) w) in
          match run (h e) w with
          | None => None
          | Some (Aborted, w) => Some (Aborted, w)
          | Some (fl, w) => Some (fl, RemoveOnDrop_drop id w)
          end
      | _ => Some (Done, w)
      end
  end.

(** The [for entry in list] loop of [notify]. *)
Fixpoint dispatch (run : prog E O -> world -> result) (e : E)
    (l : list (HandlerEntry (stored E O))) (w : world) : result :=
  match l with
  | [] => Some (Done, w)
  | entry :: l =>
      match call run (handler entry) e (log_ev (TCall (depth w) (entry_id entry)) w) with
      | None => None
      | Some (Done, w) => dispatch run e l w
      | Some (Aborted, w) => Some (Aborted, w)
      | Some (Panicked pl, w) =>
          match handle_panic run (entry_id entry) pl w with
          | Some (Done, w) => dispatch run e l w
          | r => r
          end
      end
  end.

(** [notify]: reads the list once and walks it. *)
Definition notify (run : prog E O -> world -> result) (e : E) (w : world) : result :=
  match dispatch run e (store_list (handlers (reg w))) (set_depth (S (depth w)) w) with
  | None => None
  | Some (fl, w) => Some (fl, set_depth (depth w - 1) w)
  end.

(** ** Running programs *)

(** [nested] runs the dispatches the program starts. *)
Fixpoint exec_prog (nested : E -> world -> result) (p : prog E O) (w : world) : result :=
  match p with
  | Ret => Some (Done, w)
  | Panic pl => Some (Panicked pl, w)
  | Emit o k => exec_prog nested k (log_ev (TEmit o) w)
  | Register priority h k => let '(id, w) := do_register priority h w in exec_prog nested (k id) w
  | RegisterOnce h k => let '(id, w) := register_once h w in exec_prog nested (k id) w
  | Unregister id k => let '(b, w) := do_unregister id w in exec_prog nested (k b) w
  | UnregisterAndWait id k => let '(b, w) := unregister_and_wait id w in exec_prog nested (k b) w
  | Clear k => exec_prog nested k (set_reg (clear (reg w)) w)
  | ClearAndWait k => exec_prog nested k (clear_and_wait w)
  | Contains id k => exec_prog nested (k (contains id (reg w))) w
  | HandlerCount k => exec_prog nested (k (handler_count (reg w))) w
  | IsEmpty k => exec_prog nested (k (is_empty (reg w))) w
  | PanicCount k => exec_prog nested (k (panic_count (reg w))) w
  | OnPanic cb k => exec_prog nested k (set_reg (on_panic cb (reg w)) w)
  | ClearPanicCallback k => exec_prog nested k (set_reg (clear_panic_callback (reg w)) w)
  | DropGuard g k => exec_prog nested k (HandlerGuard_drop g w)
  | Notify e k =>
      match nested e w with
      | Some (Done, w) => exec_prog nested k w
      | r => r
      end
  | Observe k => exec_prog nested (k (emits (trace w))) w
  end.

(** Programs whose dispatches nest at most [fuel] deep. *)
Fixpoint exec (fuel : nat) : prog E O -> world -> result :=
  match fuel with
  | 0 => exec_prog (fun _ _ => None)
  | S fuel => exec_prog (notify (exec fuel))
  end.
End Registry.
Arguments SyncRegistry : clear implicits.
Arguments world : clear implicits.
