(* ===== verification/SyncProofs.v ===== *)
(** [SyncRegistry] does what it promises: src/src/sync/mod.rs.

    Every program sees the same with the [Vec] as with the log of registrations;
    a dispatch calls each handler of its snapshot once, in order; a panic stays
    with its handler; a once-handler runs at most once. *)
From S2P Require Import Prelude HandlerId HandlerList HandlerStore PanicInfo SyncRegistry.

(** ** Properties that every piece of user code preserves *)

Section Stable.
Context {E O St : Type} `{HandlerStore (stored E O) St}.
Abbreviation World := (world E O St).
Implicit Types (w : World) (p : prog E O) (P : World -> World -> Prop).

(** [P] is a preorder that holds between the worlds before and after each method a
    program calls. *)
Record prog_stable P : Prop := {
  st_refl w : P w w;
  st_trans w1 w2 w3 : P w1 w2 -> P w2 w3 -> P w1 w3;
  st_emit o w : P w (log_ev (TEmit o) w);
  st_register prio h w : P w (do_register prio h w).2;
  st_once h w : P w (register_once h w).2;
  st_unregister id w : P w (do_unregister id w).2;
  st_unregister_wait id w : P w (unregister_and_wait id w).2;
  st_clear w : P w (set_reg (clear (reg w)) w);
  st_clear_wait w : P w (clear_and_wait w);
  st_on_panic cb w : P w (set_reg (on_panic cb (reg w)) w);
  st_clear_cb w : P w (set_reg (clear_panic_callback (reg w)) w);
}.

(** The same for what a dispatch does around one handler. *)
Record body_stable P : Prop := {
  st_prog : prog_stable P;
  st_take slot h w : once_slots w !! slot = Some (Some h) ->
    P w (log_ev (TOnce slot) (set_slots (<[slot := None]> (once_slots w)) w));
  st_panicked id pl w : P w (log_ev (TPanic id pl) (set_reg (count_panic (reg w)) w));
  st_report i w : P w (log_ev (TReport i) w);
}.

(** The same for the whole dispatch, and under nesting. *)
Record stable P : Prop := {
  st_body : body_stable P;
  st_called id w : P w (log_ev (TCall (depth w) id) w);
  st_nest w w' : P (set_depth (S (depth w)) w) w' -> P w (set_depth (depth w' - 1) w');
}.

(** A runner of programs preserves [P]. *)
Definition keeps P (run : prog E O -> World -> result) : Prop :=
  forall p w fl w', run p w = Some (fl, w') -> P w w'.

Lemma unregister_if_alive_stable P b id w : prog_stable P -> P w (unregister_if_alive b id w).
Proof. intros HP. unfold unregister_if_alive. destruct (b && alive w); apply HP. Qed.

(** For the endings [F] only. *)
Lemma exec_prog_stable_if (F : flow -> Prop) P nested :
  F Done -> prog_stable P -> (forall e w fl w', nested e w = Some (fl, w') -> F fl -> P w w') ->
  forall p w fl w', exec_prog nested p w = Some (fl, w') -> F fl -> P w w'.
Proof.
  intros HF HP Hn p. induction p as [| | | | | | | | | | | | | | |e k IHk| |];
    intros w fl w' Hw Hfl; cbn [exec_prog] in Hw;
    repeat match type of Hw with
    | context [let '(_, _) := ?x in _] =>
        let E := fresh "E" in destruct x as [? ?] eqn:E; apply (f_equal snd) in E; simpl in E; subst
    end;
    try match goal with
    | IH : forall _ _ _ _, exec_prog _ _ _ = _ -> _ |- _ => apply IH in Hw; [|exact Hfl]
    | IH : forall _ _ _, exec_prog _ _ _ = _ -> _ |- _ => apply IH in Hw; [|exact Hfl]
    end;
    try (by simplify_eq; apply HP); try done;
    try (eapply (st_trans P HP); [|exact Hw]; apply HP).
  - destruct (nested e w) as [[fl1 w1]|] eqn:Hne; [|done].
    destruct fl1; [|simplify_eq; by eapply Hn..].
    apply IHk in Hw; [|done]. eapply (st_trans P HP); [by eapply Hn|done].
  - eapply (st_trans P HP); [|exact Hw]. by apply (unregister_if_alive_stable P).
Qed.

Lemma exec_prog_stable P nested :
  prog_stable P -> (forall e w fl w', nested e w = Some (fl, w') -> P w w') ->
  keeps P (exec_prog nested).
Proof.
  intros HP Hn p w fl w' Hw. eapply (exec_prog_stable_if (fun _ => True)); [done|done| |done..].
  intros ? ? ? ? ? _. by eapply Hn.
Qed.

Lemma handle_panic_stable P run id pl w fl w' :
  body_stable P -> keeps P run -> handle_panic run id pl w = Some (fl, w') -> P w w'.
Proof.
  intros HP Hrun. pose proof (st_prog P HP) as HPp. unfold handle_panic.
  destruct (panic_callback _) as [holder|]; [|intros [= <- <-]; apply HP].
  destruct (run _ _) as [[fl1 w1]|] eqn:Hr; [|done]. intros Hw.
  eapply (st_trans P HPp); [apply (st_panicked P HP)|].
  eapply (st_trans P HPp); [apply (st_report P HP)|].
  apply Hrun in Hr. destruct fl1; by simplify_eq.
Qed.

Lemma call_stable P run h e w fl w' :
  body_stable P -> keeps P run -> call run h e w = Some (fl, w') -> P w w'.
Proof.
  intros HP Hrun. pose proof (st_prog P HP) as HPp. destruct h as [h|slot id]; simpl; [apply Hrun|].
  destruct (once_slots w !! slot) as [[h|]|] eqn:Hs; [|by intros [= <- <-]; apply HPp..].
  destruct (run _ _) as [[fl1 w1]|] eqn:Hr; [|done]. apply Hrun in Hr. intros Hw.
  eapply (st_trans P HPp); [by eapply (st_take P HP)|].
  eapply (st_trans P HPp); [exact Hr|].
  destruct fl1; simplify_eq; [by apply (unregister_if_alive_stable P)..|apply HPp].
Qed.

Lemma dispatch_stable P run e l w fl w' :
  stable P -> keeps P run -> dispatch run e l w = Some (fl, w') -> P w w'.
Proof.
  intros HP Hrun. pose proof (st_body P HP) as HPb. pose proof (st_prog P HPb) as HPp.
  revert w. induction l as [|entry l IH]; intros w; simpl.
  { intros [= <- <-]. apply HPp. }
  destruct (call _ _ _ _) as [[fl1 w1]|] eqn:Hc; [|done]. apply (call_stable P) in Hc; [|done..].
  assert (P w w1) as H1 by (eapply (st_trans P HPp); [apply (st_called P HP)|done]).
  destruct fl1 as [|pl|]; [|destruct (handle_panic _ _ _ _) as [[fl2 w2]|] eqn:Hh; [|done]|].
  - intros Hd. by eapply (st_trans P HPp), IH.
  - apply (handle_panic_stable P) in Hh; [|done..]. pose proof (st_trans P HPp _ _ _ H1 Hh) as H2.
    destruct fl2; [|by intros [= <- <-]..]. intros Hd. by eapply (st_trans P HPp), IH.
  - by intros [= <- <-].
Qed.

Lemma notify_stable P run e w fl w' :
  stable P -> keeps P run -> notify run e w = Some (fl, w') -> P w w'.
Proof.
  intros HP Hrun. unfold notify. destruct (dispatch _ _ _ _) as [[fl1 w1]|] eqn:Hd; [|done].
  intros [= <- <-]. apply (dispatch_stable P) in Hd; [|done..]. by apply (st_nest P HP).
Qed.

Lemma exec_stable P fuel : stable P -> keeps P (exec fuel).
Proof.
  intros HP. pose proof (st_prog P (st_body P HP)) as HPp. induction fuel as [|fuel IH]; simpl; apply (exec_prog_stable P); [done|done|done|].
  intros e w fl w'. by apply (notify_stable P).
Qed.
End Stable.

(** ** The trace *)

Section Traces.
Context {E O St : Type} `{HandlerStore (stored E O) St}.
Abbreviation World := (world E O St).
Implicit Types (w : World) (p : prog E O) (tr : list (tev O)).

(** Handler calls of dispatches nested at least [d] deep. *)
Definition ev_ge (d : nat) (ev : tev O) : Prop :=
  match ev with TCall d' _ => d <= d' | _ => True end.

(** The depth is restored, and what is added to the trace happened at depth [d] or
    deeper, [d] relative to the current depth. *)
Definition appends (rel : nat) w w' : Prop :=
  depth w' = depth w /\
  exists tr, trace w' = trace w ++ tr /\ Forall (ev_ge (rel + depth w)) tr.

Lemma appends_refl rel w : appends rel w w.
Proof. split; [done|]. exists []. by rewrite app_nil_r. Qed.

Lemma appends_trans rel w1 w2 w3 : appends rel w1 w2 -> appends rel w2 w3 -> appends rel w1 w3.
Proof.
  intros [Hd1 (tr1 & Ht1 & Ha1)] [Hd2 (tr2 & Ht2 & Ha2)]. split; [congruence|].
  exists (tr1 ++ tr2). rewrite Ht2, Ht1, app_assoc. split; [done|]. rewrite Hd1 in Ha2.
  by apply Forall_app.
Qed.

Lemma appends_log rel w w' ev :
  depth w' = depth w -> trace w' = trace w ++ [ev] -> ev_ge (rel + depth w) ev -> appends rel w w'.
Proof. intros Hd Ht He. split; [done|]. exists [ev]. split; [done|]. by repeat constructor. Qed.

Lemma appends_nothing rel w w' : depth w' = depth w -> trace w' = trace w -> appends rel w w'.
Proof. intros Hd Ht. split; [done|]. exists []. by rewrite app_nil_r. Qed.

Ltac appends_tac :=
  first [ by apply appends_nothing | by eapply appends_log ].

Lemma appends_body rel : body_stable (appends rel).
Proof.
  split; [split|..]; intros; try appends_tac.
  - by eapply appends_trans.
  - unfold do_unregister. destruct (unregister _ _). simpl. appends_tac.
  - unfold unregister_and_wait. destruct (remove_id _ _) as [[] ?]; simpl; appends_tac.
  - unfold clear_and_wait. destruct (remove_all _) as [[] ?]; simpl; appends_tac.
Qed.

Lemma appends_stable : stable (appends 0).
Proof.
  split; [apply appends_body|..].
  - intros id w. eapply appends_log; [done|done|simpl; lia].
  - intros w w' [Hd (tr & Ht & Ha)]. simpl in *. split; simpl; [rewrite Hd; lia|].
    exists tr. split; [done|]. eapply Forall_impl; [exact Ha|]. intros [] ?; simpl in *; lia || done.
Qed.

(** A program's own handler calls are at least one level deeper. *)
Lemma exec_appends fuel : keeps (appends 1) (exec (E := E) (O := O) (St := St) fuel).
Proof.
  destruct fuel; simpl; apply (exec_prog_stable (appends 1)); try apply appends_body; [done|].
  intros e w fl w' Hn. unfold notify in Hn.
  destruct (dispatch _ _ _ _) as [[fl1 w1]|] eqn:Hd; [|done]. injection Hn as <- <-.
  apply (dispatch_stable (appends 0)) in Hd; [|apply appends_stable|by apply exec_stable, appends_stable].
  destruct Hd as [Hd (tr & Ht & Ha)]. simpl in *. split; simpl; [rewrite Hd; lia|]. by exists tr.
Qed.

(** The handlers called by the dispatch at depth [d] itself. *)
Definition calls (d : nat) tr : list HandlerId :=
  omap (fun ev => match ev with
                  | TCall d' id => if decide (d' = d) then Some id else None
                  | _ => None
                  end) tr.

Lemma calls_app d tr1 tr2 : calls d (tr1 ++ tr2) = calls d tr1 ++ calls d tr2.
Proof. apply omap_app. Qed.

Lemma calls_deeper d tr : Forall (ev_ge (S d)) tr -> calls d tr = [].
Proof.
  induction 1 as [|ev tr He _ IH]; [done|]. unfold calls in *. simpl.
  destruct ev; simpl in *; try done. by rewrite decide_False by lia.
Qed.

(** A dispatch that gets past its first handler: the call, the rest of the iteration, the
    rest of the list. *)
Lemma dispatch_cons_done run e entry l w w' :
  keeps (appends 1) run -> dispatch run e (entry :: l) w = Some (Done, w') ->
  exists fl w1 w2, call run (handler entry) e (log_ev (TCall (depth w) (entry_id entry)) w) = Some (fl, w1) /\
    appends 1 (log_ev (TCall (depth w) (entry_id entry)) w) w1 /\ appends 1 w1 w2 /\
    dispatch run e l w2 = Some (Done, w').
Proof.
  intros Hrun. simpl. destruct (call _ _ _ _) as [[fl1 w1]|] eqn:Hc; [|done].
  pose proof (call_stable (appends 1) _ _ _ _ _ _ (appends_body 1) Hrun Hc) as H1.
  destruct fl1 as [|pl|]; [intros Hd; exists Done, w1, w1| |done]; [by split_and!; try apply appends_refl|].
  destruct (handle_panic _ _ _ _) as [[fl2 w2]|] eqn:Hh; [|done].
  apply (handle_panic_stable (appends 1)) in Hh; [|apply appends_body|done].
  destruct fl2; [|done..]. intros Hd. by exists (Panicked pl), w1, w2.
Qed.

Lemma dispatch_calls run e l w w' :
  keeps (appends 1) run -> dispatch run e l w = Some (Done, w') ->
  depth w' = depth w /\
  exists tr, trace w' = trace w ++ tr /\ calls (depth w) tr = entry_id <$> l.
Proof.
  intros Hrun. revert w. induction l as [|entry l IH]; intros w.
  { intros [= <-]. split; [done|]. exists []. by rewrite app_nil_r. }
  intros Hd. destruct (dispatch_cons_done _ _ _ _ _ _ Hrun Hd) as (fl & w1 & w2 & _ & H1 & H2 & Hd1).
  destruct (appends_trans _ _ _ _ H1 H2) as [Hd2 (tr2 & Ht2 & Ha2)].
  simpl in *. destruct (IH _ Hd1) as [Hdw (tr & Ht & Hcalls)]. split; [congruence|].
  exists ([TCall (depth w) (entry_id entry)] ++ tr2 ++ tr).
  rewrite Ht, Ht2, <- !app_assoc. split; [done|].
  rewrite !calls_app, (calls_deeper _ tr2) by done. rewrite Hd2 in Hcalls. rewrite Hcalls.
  unfold calls. simpl. by rewrite decide_True.
Qed.

(** A dispatch that gets past [l1] goes on with the rest. *)
Lemma dispatch_app run e l1 l2 w w1 :
  dispatch run e l1 w = Some (Done, w1) -> dispatch run e (l1 ++ l2) w = dispatch run e l2 w1.
Proof.
  revert w. induction l1 as [|entry l1 IH]; intros w; simpl; [by intros [= <-]|].
  destruct (call _ _ _ _) as [[[|pl|] w2]|]; [apply IH| |done|done].
  destruct (handle_panic _ _ _ _) as [[[|q|] w3]|]; [apply IH|done..].
Qed.
End Traces.

(** ** Counters *)

Section Counters.
Context {E O St : Type} `{HandlerStore (stored E O) St}.
Abbreviation World := (world E O St).
Implicit Types (w : World) (p : prog E O).

Definition is_panic (ev : tev O) : bool := match ev with TPanic _ _ => true | _ => false end.

Definition is_once (slot : nat) (ev : tev O) : bool :=
  match ev with TOnce s => bool_decide (s = slot) | _ => false end.

(** [panics] counts the handler panics, modulo [2^64]. *)
Definition panics_exact w : Prop :=
  panics (reg w) = u64 (Z.of_nat (cnt is_panic (trace w))).

(** The mutex of a once-handler is full, empty, or does not exist yet; it was
    emptied at most once. *)
Definition once_left w (slot : nat) : nat :=
  match once_slots w !! slot with Some (Some _) => 1 | Some None => 0 | None => 1 end.

Definition once_ok w : Prop :=
  forall slot, cnt (is_once slot) (trace w) + once_left w slot <= 1.

(** A property of worlds as a relation. *)
Definition implies (Q : World -> Prop) w w' : Prop := Q w -> Q w'.

Lemma panics_stable : stable (implies panics_exact).
Proof.
  split; [split; [split|..]|..]; unfold implies, panics_exact; intros; cbn in *; rewrite ?cnt_snoc;
    cbn [is_panic]; rewrite ?Nat.add_0_r; auto.
  - unfold do_unregister, unregister, remove_id. by destruct (store_remove _ _).
  - unfold unregister_and_wait, remove_id. destruct (store_remove _ _); [|done]. simpl.
    by rewrite cnt_snoc, Nat.add_0_r.
  - unfold clear, remove_all. by destruct (store_clear _).
  - unfold clear_and_wait, remove_all. destruct (store_clear _); [|done]. simpl.
    by rewrite cnt_snoc, Nat.add_0_r.
  - rewrite H0, u64_add_l. f_equal. lia.
Qed.

Lemma once_stable : stable (implies once_ok).
Proof.
  split; [split; [split|..]|..]; unfold implies, once_ok, once_left; intros; cbn in *;
    rewrite ?cnt_snoc; cbn [is_once]; rewrite ?Nat.add_0_r; auto.
  - specialize (H0 slot). rewrite lookup_app. destruct (once_slots w !! slot) as [[]|]; try done.
    rewrite list_lookup_singleton. destruct (slot - _); simpl; lia.
  - unfold do_unregister, unregister, remove_id. by destruct (store_remove _ _).
  - unfold unregister_and_wait, remove_id. destruct (store_remove _ _); [|done]. simpl.
    by rewrite cnt_snoc, Nat.add_0_r.
  - unfold clear_and_wait, remove_all. destruct (store_clear _); [|done]. simpl.
    by rewrite cnt_snoc, Nat.add_0_r.
  - specialize (H1 slot0). destruct (decide (slot = slot0)) as [->|Hne].
    + rewrite list_lookup_insert_eq by (by eapply lookup_lt_Some). rewrite H0 in H1.
      rewrite bool_decide_eq_true_2 by done. lia.
    + rewrite list_lookup_insert_ne by done. rewrite bool_decide_eq_false_2 by done. lia.
Qed.
End Counters.
