(* ===== verification/SyncPanics.v ===== *)
(** Panic isolation and termination of dispatch in [SyncRegistry]
    (src/src/sync/mod.rs). *)
From S2P Require Import Prelude HandlerId HandlerList HandlerStore PanicInfo SyncRegistry.
From S2P Require Import SyncProofs.

Section Panics.
Context {E O : Type}.
Abbreviation Handlers := (list (HandlerEntry (stored E O))).
Abbreviation World := (world E O Handlers).
Implicit Types (w : World) (p : prog E O).

(** ** Programs with restricted panics and nesting *)

(** Every panic of the program, and of the handlers and callbacks it installs, has a
    payload in [okp]; the program dispatches only if [n], handlers only if [hn]. *)
Fixpoint ok (okp : payload -> Prop) (hn n : bool) p : Prop :=
  match p with
  | Ret => True
  | Panic pl => okp pl
  | Emit _ k | Clear k | ClearAndWait k | ClearPanicCallback k | DropGuard _ k => ok okp hn n k
  | Register _ h k => (forall e, ok okp hn hn (h e)) /\ forall id, ok okp hn n (k id)
  | RegisterOnce h k => (forall e, ok okp hn hn (h e)) /\ forall id, ok okp hn n (k id)
  | Unregister _ k | UnregisterAndWait _ k | Contains _ k | IsEmpty k => forall b, ok okp hn n (k b)
  | HandlerCount k => forall c, ok okp hn n (k c)
  | PanicCount k => forall c, ok okp hn n (k c)
  | OnPanic cb k => (forall i, ok okp hn hn (cb i)) /\ ok okp hn n k
  | Notify _ k => n = true /\ ok okp hn n k
  | Observe k => forall t, ok okp hn n (k t)
  end.

Definition stored_ok (okp : payload -> Prop) (hn : bool) (h : stored E O) : Prop :=
  match h with SPlain h => forall e, ok okp hn hn (h e) | SOnce _ _ => True end.

(** The same for everything the registry has stored. *)
Record world_ok (okp : payload -> Prop) (hn : bool) w : Prop := {
  wo_handlers entry : entry ∈ handlers (reg w) -> stored_ok okp hn (handler entry);
  wo_slots slot h : once_slots w !! slot = Some (Some h) -> forall e, ok okp hn hn (h e);
  wo_callback cb : panic_callback (reg w) = Some cb -> forall i, ok okp hn hn (cb i);
}.

Context (okp : payload -> Prop) (hn : bool).

Lemma world_ok_same w w' :
  world_ok okp hn w -> (forall e, e ∈ handlers (reg w') -> e ∈ handlers (reg w)) ->
  once_slots w' = once_slots w -> panic_callback (reg w') = panic_callback (reg w) ->
  world_ok okp hn w'.
Proof.
  intros [Hh Hs Hc] H1 H2 H3. split; [by auto|..]; rewrite ?H2, ?H3; [apply Hs|apply Hc].
Qed.

Lemma remove_id_elem x id (r : SyncRegistry E O Handlers) :
  x ∈ handlers (remove_id id r).2 -> x ∈ handlers r.
Proof.
  unfold remove_id. destruct (store_remove id (handlers r)) as [l|] eqn:Hr; [|done].
  simpl in *. by eapply remove_id_list_elem.
Qed.

Lemma remove_id_callback id (r : SyncRegistry E O Handlers) :
  panic_callback (remove_id id r).2 = panic_callback r.
Proof. unfold remove_id. by destruct (store_remove id (handlers r)). Qed.

Lemma remove_all_elem x (r : SyncRegistry E O Handlers) :
  x ∈ handlers (remove_all r).2 -> x ∈ handlers r.
Proof.
  unfold remove_all, store_clear. simpl. destruct (handlers r) as [|e l] eqn:El; simpl.
  - by rewrite El.
  - by intros ?%elem_of_nil.
Qed.

Lemma remove_all_callback (r : SyncRegistry E O Handlers) :
  panic_callback (remove_all r).2 = panic_callback r.
Proof. unfold remove_all. by destruct (store_clear (handlers r)). Qed.

Lemma do_unregister_world id w : (do_unregister id w).2 = set_reg (remove_id id (reg w)).2 w.
Proof. unfold do_unregister, unregister. by destruct (remove_id id (reg w)). Qed.

Lemma unregister_ok w id : world_ok okp hn w -> world_ok okp hn (do_unregister id w).2.
Proof.
  intros Hw. rewrite do_unregister_world. eapply world_ok_same; [done|..]; simpl; [|done|].
  - intros e. apply remove_id_elem.
  - apply remove_id_callback.
Qed.

Lemma unregister_wait_ok w id : world_ok okp hn w -> world_ok okp hn (unregister_and_wait id w).2.
Proof.
  intros Hw. apply (unregister_ok _ id) in Hw. unfold do_unregister, unregister in Hw.
  unfold unregister_and_wait. destruct (remove_id id (reg w)) as [[] r]; simpl in *; [|done].
  by eapply world_ok_same.
Qed.

Lemma clear_ok w : world_ok okp hn w -> world_ok okp hn (set_reg (clear (reg w)) w).
Proof.
  intros Hw. eapply world_ok_same; [done|..]; simpl; unfold clear; [|done|].
  - intros e. apply remove_all_elem.
  - apply remove_all_callback.
Qed.

Lemma clear_wait_ok w : world_ok okp hn w -> world_ok okp hn (clear_and_wait w).
Proof.
  intros Hw. apply clear_ok in Hw. unfold clear, clear_and_wait in *.
  destruct (remove_all (reg w)) as [[] r]; simpl in *; [|done]. by eapply world_ok_same.
Qed.

Lemma register_ok w prio h :
  world_ok okp hn w -> (forall e, ok okp hn hn (h e)) -> world_ok okp hn (do_register prio h w).2.
Proof.
  intros [Hh Hs Hc] Hok. split; simpl; [|done..].
  intros entry [->|He]%insert_entry_elem; [done|by auto].
Qed.

Lemma register_once_ok w h :
  world_ok okp hn w -> (forall e, ok okp hn hn (h e)) -> world_ok okp hn (register_once h w).2.
Proof.
  intros [Hh Hs Hc] Hok. split; simpl; [| |done].
  - intros entry [->|He]%insert_entry_elem; [done|by auto].
  - intros slot h0. rewrite lookup_app_Some, list_lookup_singleton_Some.
    intros [?|(_ & _ & [= <-])]; [by eapply Hs|done].
Qed.

Lemma guard_drop_ok b w id : world_ok okp hn w -> world_ok okp hn (unregister_if_alive b id w).
Proof. intros Hw. unfold unregister_if_alive. destruct (b && alive w); [by apply unregister_ok|done]. Qed.

(** ** What running keeps *)

(** Panics are in [okp]; the process aborts only if [ab]. *)
Definition flow_ok (okp : payload -> Prop) (ab : Prop) (fl : flow) : Prop :=
  match fl with Done => True | Panicked pl => okp pl | Aborted => ab end.

Context (ab : Prop).
Context (Hdrop : forall pl r, okp pl -> drop_payload pl = Some r -> okp r /\ ab).

Lemma drop_both_ok second pl :
  (forall q, second = Some q -> okp q) -> okp pl -> flow_ok okp ab (drop_both second pl).
Proof.
  intros Hs Hpl. unfold drop_both. destruct (second ≫= drop_payload) as [r|] eqn:Hd.
  - apply bind_Some in Hd as (q & Hq & Hr). destruct (Hdrop _ _ (Hs _ Hq) Hr) as [Hokr Hab].
    by destruct (drop_payload pl).
  - destruct (drop_payload pl) as [r|] eqn:Hr; simpl; [by eapply Hdrop|done].
Qed.

(** A runner that keeps the world good and whose panics are good. *)
Definition good (n : bool) (run : prog E O -> World -> result) : Prop :=
  forall p w fl w', ok okp hn n p -> world_ok okp hn w -> run p w = Some (fl, w') ->
    flow_ok okp ab fl /\ world_ok okp hn w'.

Lemma handle_panic_ok run id pl w fl w' :
  good hn run -> okp pl -> world_ok okp hn w -> handle_panic run id pl w = Some (fl, w') ->
  flow_ok okp ab fl /\ world_ok okp hn w'.
Proof.
  intros Hrun Hpl Hw. unfold handle_panic.
  assert (world_ok okp hn (log_ev (TPanic id pl) (set_reg (count_panic (reg w)) w))) as Hw1
    by (by eapply world_ok_same).
  destruct (panic_callback _) as [cb|] eqn:Hcb.
  - destruct (run _ _) as [[fl1 w2]|] eqn:Hr; [|done].
    apply Hrun in Hr as [Hfl Hw2]; [|by eapply (wo_callback _ _ _ Hw1)|by eapply world_ok_same].
    destruct fl1; intros [= <- <-]; (split; [|done]); try done; apply drop_both_ok; try done.
    by intros q [= <-].
  - intros [= <- <-]. split; [|done]. by apply drop_both_ok.
Qed.

Lemma call_ok run h e w fl w' :
  good hn run -> stored_ok okp hn h -> world_ok okp hn w -> call run h e w = Some (fl, w') ->
  flow_ok okp ab fl /\ world_ok okp hn w'.
Proof.
  intros Hrun Hh Hw. destruct h as [h|slot id]; simpl; [by apply Hrun|].
  destruct (once_slots w !! slot) as [[h|]|] eqn:Hs; [|by intros [= <- <-]..].
  destruct (run _ _) as [[fl1 w1]|] eqn:Hr; [|done].
  apply Hrun in Hr as [Hfl Hw1]; [| by eapply (wo_slots _ _ _ Hw) |].
  - destruct fl1; intros [= <- <-]; (split; [done|]); [by apply guard_drop_ok..|done].
  - destruct Hw as [H1 H2 H3]. split; simpl; [done| |done].
    intros slot0 h0 [(_ & ? & _)|[_ ?]]%list_lookup_insert_Some; [done|by eapply H2].
Qed.

Lemma dispatch_ok run e l w fl w' :
  good hn run -> Forall (fun entry => stored_ok okp hn (handler entry)) l -> world_ok okp hn w ->
  dispatch run e l w = Some (fl, w') -> flow_ok okp ab fl /\ world_ok okp hn w'.
Proof.
  intros Hrun Hl. revert w. induction Hl as [|entry l He Hl IH]; intros w Hw; simpl.
  { by intros [= <- <-]. }
  destruct (call _ _ _ _) as [[fl1 w1]|] eqn:Hc; [|done].
  apply call_ok in Hc as [Hfl1 Hw1]; [|done|done|by eapply world_ok_same].
  destruct fl1 as [|pl|]; [by apply IH| |by intros [= <- <-]].
  destruct (handle_panic _ _ _ _) as [[fl2 w2]|] eqn:Hh; [|done].
  apply handle_panic_ok in Hh as [Hfl2 Hw2]; [|done..].
  destruct fl2; [by apply IH|by intros [= <- <-]..].
Qed.

Lemma exec_prog_good n nested :
  (n = true -> forall e w fl w', world_ok okp hn w -> nested e w = Some (fl, w') ->
     flow_ok okp ab fl /\ world_ok okp hn w') ->
  good n (exec_prog nested).
Proof.
  intros Hn p. induction p as [| | | | | | | | | | | | | | |e k IHk| |];
    intros w fl w' Hok Hw Hr; cbn [exec_prog ok] in *; destruct_and?;
    repeat match type of Hr with
    | context [let '(_, _) := ?x in _] =>
        let Hq := fresh "Hq" in destruct x as [? ?] eqn:Hq; apply (f_equal snd) in Hq;
        cbn [snd] in Hq; subst
    end;
    try (by simplify_eq);
    try match goal with
    | IH : forall _ _ _, ok _ _ _ _ -> _ |- _ => eapply IH; [..|exact Hr]
    | IH : forall _ _ _ _, ok _ _ _ _ -> _ |- _ => eapply IH; [..|exact Hr]
    | IH : forall _ _ _ _ _, ok _ _ _ _ -> _ |- _ => eapply IH; [..|exact Hr]
    end; auto using register_ok, register_once_ok, unregister_ok, unregister_wait_ok, clear_ok,
           clear_wait_ok, guard_drop_ok;
    try (by eapply world_ok_same).
  - destruct Hw. split; simpl; [done|done|by intros ? [= <-]].
  - destruct Hw. by split.
  - destruct (nested e w) as [[fl1 w1]|] eqn:Hne; [|done].
    apply Hn in Hne as [Hfl1 Hw1]; [|done..]. destruct fl1; [|by simplify_eq..]. by eapply IHk.
  - by apply guard_drop_ok.
Qed.

Lemma notify_ok run e w fl w' :
  good hn run -> world_ok okp hn w -> notify run e w = Some (fl, w') ->
  flow_ok okp ab fl /\ world_ok okp hn w'.
Proof.
  intros Hrun Hw. unfold notify.
  destruct (dispatch _ _ _ _) as [[fl1 w1]|] eqn:Hd; [|done]. intros [= <- <-].
  apply dispatch_ok in Hd as [Hfl Hw1]; [|done| |by eapply world_ok_same].
  - split; [done|]. by eapply world_ok_same.
  - apply Forall_forall. intros entry. apply (wo_handlers _ _ _ Hw).
Qed.

Lemma exec_good fuel n : good n (exec fuel).
Proof.
  revert n. induction fuel as [|fuel IH]; intros n; simpl; apply exec_prog_good; [done|].
  intros _ e w fl w' Hw. apply notify_ok; [apply IH|done].
Qed.
End Panics.

(** ** Isolation *)

Section Isolation.
Context {E O : Type}.
Abbreviation World := (world E O (list (HandlerEntry (stored E O)))).
Implicit Types (w : World) (p : prog E O).

(** Every panic payload in sight can be dropped without panicking. *)
Abbreviation quiet_world := (world_ok quiet true).

Lemma quiet_drop pl r : quiet pl -> drop_payload pl = Some r -> quiet r /\ False.
Proof. unfold quiet. congruence. Qed.

Lemma exec_quiet fuel : good quiet true False true (exec (E := E) (O := O) fuel).
Proof. apply exec_good, quiet_drop. Qed.

Lemma handle_panic_done run id pl w fl w' :
  good quiet true False true run -> quiet pl -> quiet_world w ->
  handle_panic run id pl w = Some (fl, w') -> fl = Done.
Proof.
  intros Hrun Hpl Hw. unfold handle_panic.
  assert (forall q, (forall x, q = Some x -> quiet x) -> drop_both q pl = Done) as Hdone.
  { intros [q|] Hq; unfold drop_both; simpl; [rewrite (Hq _ eq_refl)|]; by rewrite Hpl. }
  destruct (panic_callback _) as [cb|] eqn:Hcb; [|by intros [= <- <-]; apply Hdone].
  destruct (run _ _) as [[fl1 w1]|] eqn:Hr; [|done].
  apply Hrun in Hr as [Hfl _]; [|by eapply (wo_callback _ _ _ Hw)|by eapply world_ok_same].
  destruct fl1; intros [= <- <-]; [by apply Hdone| |done]. apply Hdone. by intros x [= <-].
Qed.

Lemma dispatch_done run e l w fl w' :
  good quiet true False true run -> Forall (fun entry => stored_ok quiet true (handler entry)) l ->
  quiet_world w -> dispatch run e l w = Some (fl, w') -> fl = Done.
Proof.
  intros Hrun Hl. revert w. induction Hl as [|entry l He Hl IH]; intros w Hw; simpl.
  { by intros [= <- <-]. }
  destruct (call _ _ _ _) as [[fl1 w1]|] eqn:Hc; [|done].
  eapply call_ok in Hc as [Hfl1 Hw1]; [|done|done|by eapply world_ok_same].
  destruct fl1 as [|pl|]; [by apply IH| |done].
  destruct (handle_panic _ _ _ _) as [[fl2 w2]|] eqn:Hh; [|done].
  pose proof Hh as Hh'. apply handle_panic_done in Hh; [|done..]. subst fl2.
  eapply (handle_panic_ok quiet true False quiet_drop) in Hh' as [_ Hw2]; [|done..].
  by apply IH.
Qed.

(** A payload whose drop panics takes [handle_panic] down. *)
Lemma handle_panic_escapes run id pl q w fl w' :
  drop_payload pl = Some q -> handle_panic run id pl w = Some (fl, w') ->
  fl = Panicked q \/ (fl = Aborted /\ panic_callback (reg w) <> None).
Proof.
  intros Hq. unfold handle_panic. cbn [reg log_ev set_reg panic_callback count_panic].
  assert (forall second, drop_both second pl = Panicked q \/ drop_both second pl = Aborted) as Hb.
  { intros second. unfold drop_both. rewrite Hq. destruct (second ≫= drop_payload); auto. }
  destruct (panic_callback (reg w)) as [cb|]; [|intros [= <- <-]; unfold drop_both; simpl; rewrite Hq; by left].
  destruct (run _ _) as [[[|p2|] w1]|]; intros [= <- <-]; try by right.
  - destruct (Hb None) as [->| ->]; [by left|by right].
  - destruct (Hb (Some p2)) as [->| ->]; [by left|by right].
Qed.

(** What [unregister_and_wait] does when the id is registered. *)
Lemma exec_unregister_and_wait fuel id k w fl w' :
  contains id (reg w) = true -> exec fuel (UnregisterAndWait id k) w = Some (fl, w') ->
  exists w1, exec fuel (k true) w1 = Some (fl, w') /\ depth w1 = depth w /\
    trace w1 = trace w ++ [TWait].
Proof.
  intros Hc. assert ((remove_id id (reg w)).1 = true) as Hr.
  { unfold remove_id. simpl. destruct (remove_id_list id (handlers (reg w))) eqn:Hl; [done|].
    apply remove_id_list_None in Hl. destruct Hl. unfold contains in Hc. simpl in Hc.
    apply existsb_exists in Hc as (en & Hen & <-%bool_decide_eq_true).
    apply list_elem_of_fmap. exists en. by rewrite list_elem_of_In. }
  intros Hx. exists (unregister_and_wait id w).2.
  assert (unregister_and_wait id w = (true, (unregister_and_wait id w).2)) as Hu.
  { unfold unregister_and_wait. by destruct (remove_id id (reg w)) as [[] r]. }
  split; [destruct fuel; cbn [exec exec_prog] in *; by rewrite Hu in Hx|].
  unfold unregister_and_wait. destruct (remove_id id (reg w)) as [[] r]; [done|done].
Qed.
End Isolation.

(** ** Termination and fuel *)

Section Fuel.
Context {E O : Type}.
Abbreviation World := (world E O (list (HandlerEntry (stored E O)))).
Implicit Types (w : World) (p : prog E O).

Abbreviation any := (fun _ : payload => True).

(** A runner that never runs out of fuel. *)
Definition total (n : bool) (run : prog E O -> World -> option (flow * World)) : Prop :=
  forall p w, ok any false n p -> world_ok any false w -> is_Some (run p w).

Lemma good_any fuel n : good any false True n (exec (E := E) (O := O) fuel).
Proof. by apply exec_good. Qed.

Lemma handle_panic_total fuel id pl w :
  total false (exec fuel) -> world_ok any false w -> is_Some (handle_panic (exec fuel) id pl w).
Proof.
  intros Hrun Hw. unfold handle_panic. destruct (panic_callback _) as [cb|] eqn:Hcb; [|by eexists].
  destruct (Hrun (cb (PanicInfo_new id pl)) (log_ev (TReport (PanicInfo_new id pl))
    (log_ev (TPanic id pl) (set_reg (count_panic (reg w)) w)))) as [[fl1 w1] Hr].
  - by eapply (wo_callback _ _ _ Hw).
  - by eapply world_ok_same.
  - unfold invoke. rewrite Hr. by destruct fl1; eexists.
Qed.

Lemma call_total fuel h e w :
  total false (exec fuel) -> stored_ok any false h -> world_ok any false w ->
  is_Some (call (exec fuel) h e w).
Proof.
  intros Hrun Hh Hw. destruct h as [h|slot id]; simpl; [by apply Hrun|].
  destruct (once_slots w !! slot) as [[h|]|] eqn:Hs; [|by eexists..].
  destruct (Hrun (h e) (log_ev (TOnce slot) (set_slots (<[slot := None]> (once_slots w)) w)))
    as [[fl1 w1] Hr].
  - by eapply (wo_slots _ _ _ Hw).
  - destruct Hw as [H1 H2 H3]. split; simpl; [done| |done].
    intros slot0 h0 [(_ & ? & _)|[_ ?]]%list_lookup_insert_Some; [done|by eapply H2].
  - rewrite Hr. by destruct fl1; eexists.
Qed.

Lemma dispatch_total fuel e l w :
  total false (exec fuel) -> Forall (fun entry => stored_ok any false (handler entry)) l ->
  world_ok any false w -> is_Some (dispatch (exec fuel) e l w).
Proof.
  intros Hrun Hl. revert w. induction Hl as [|entry l He Hl IH]; intros w Hw; simpl; [by eexists|].
  set (w0 := log_ev (TCall (depth w) (entry_id entry)) w).
  assert (world_ok any false w0) as Hw0 by (by eapply world_ok_same).
  destruct (call_total fuel (handler entry) e w0 Hrun He Hw0) as [[fl1 w1] Hc]. rewrite Hc.
  eapply (call_ok any false True) in Hc as [_ Hw1]; [|apply good_any|done|done].
  destruct fl1 as [|pl|]; [by apply IH| |by eexists].
  destruct (handle_panic_total fuel (entry_id entry) pl w1 Hrun Hw1) as [[fl2 w2] Hh]. rewrite Hh.
  eapply (handle_panic_ok any false True) in Hh as [_ Hw2]; [|done|apply good_any|done|done].
  destruct fl2; [by apply IH|by eexists..].
Qed.

Lemma notify_total fuel e w :
  total false (exec fuel) -> world_ok any false w -> is_Some (notify (exec fuel) e w).
Proof.
  intros Hrun Hw. unfold notify.
  destruct (dispatch_total fuel e (handlers (reg w)) (set_depth (S (depth w)) w)) as [[fl w1] Hd];
    [done| |by eapply world_ok_same|].
  - apply Forall_forall. intros entry. apply (wo_handlers _ _ _ Hw).
  - simpl. rewrite Hd. by eexists.
Qed.

Lemma exec_prog_total n nested :
  (n = true -> forall e w, world_ok any false w -> exists fl w',
     nested e w = Some (fl, w') /\ world_ok any false w') ->
  total n (exec_prog nested).
Proof.
  intros Hn p. induction p as [| | | | | | | | | | | | | | |e k IHk| |];
    intros w Hok Hw; cbn [exec_prog ok] in *; destruct_and?; try (by eexists);
    repeat match goal with
    | |- context [let '(_, _) := ?x in _] =>
        let Hq := fresh "Hq" in destruct x as [? ?] eqn:Hq; apply (f_equal snd) in Hq;
        cbn [snd] in Hq; subst
    end;
    try match goal with
    | IH : forall _, ok _ _ _ _ -> _ |- _ => apply IH
    | IH : forall _ _, ok _ _ _ _ -> _ |- _ => apply IH
    end;
    auto using register_ok, register_once_ok, unregister_ok, unregister_wait_ok, clear_ok,
      clear_wait_ok, guard_drop_ok;
    try (by eapply world_ok_same).
  - destruct Hw. split; simpl; [done|done|by intros ? [= <-]].
  - destruct Hw. by split.
  - destruct (Hn H e w Hw) as (fl1 & w1 & Hne & Hw1). rewrite Hne.
    destruct fl1; [by apply IHk|by eexists..].
  - by apply guard_drop_ok.
Qed.

Lemma exec_total : total true (exec (E := E) (O := O) 1).
Proof.
  apply exec_prog_total. intros _ e w Hw.
  assert (total false (exec (E := E) (O := O) 0)) as H0 by (by apply exec_prog_total).
  destruct (notify_total 0 e w H0 Hw) as [[fl w'] Hn]. exists fl, w'. split; [done|].
  eapply (notify_ok any false True) in Hn as [_ Hw']; [done|done|apply good_any|done].
Qed.
End Fuel.
