(* ===== verification/SyncRefine.v ===== *)
(** [SyncRegistry] implements a log of registrations: whatever a program does, it
    sees the same as with a registry whose handler list is a better implementation
    of the interface [HandlerStore].  Proved once against the interface. *)
From S2P Require Import Prelude HandlerId HandlerList HandlerStore PanicInfo SyncRegistry.
From S2P Require Import SyncProofs.

Section Simulation.
Context {E O S1 S2 : Type} `{StoreRefines (stored E O) S1 S2 R}.
Implicit Types (w : world E O S1) (v : world E O S2) (p : prog E O).

Definition is_issue (ev : tev O) : bool := match ev with TIssue _ => true | _ => false end.

(** How many ids have been issued, and that the 64-bit counter has not wrapped. *)
Definition issued {St} (w : world E O St) : Z := Z.of_nat (cnt is_issue (trace w)).
Definition no_wrap {St} (w : world E O St) : Prop := (1 + issued w < u64_modulus)%Z.

(** The two worlds differ in the representation of the handler list only. *)
Record related w v : Prop := {
  rel_store : R (handlers (reg w)) (handlers (reg v));
  rel_gen : id_generator (reg w) = id_generator (reg v);
  rel_callback : panic_callback (reg w) = panic_callback (reg v);
  rel_panics : panics (reg w) = panics (reg v);
  rel_alive : alive w = alive v;
  rel_slots : once_slots w = once_slots v;
  rel_depth : depth w = depth v;
  rel_trace : trace w = trace v;
  rel_next : gen_next (id_generator (reg w)) = (1 + issued w)%Z;
  rel_ids id : id ∈ store_ids (handlers (reg w)) ->
    (as_u64 id < gen_next (id_generator (reg w)))%Z;
}.

Lemma rel_list w v : related w v -> store_list (handlers (reg w)) = store_list (handlers (reg v)).
Proof. intros Hr. apply sr_list, Hr. Qed.

Lemma related_new : related world_new world_new.
Proof.
  split; try done; [apply sr_new|]. intros id. simpl. rewrite sr_new_ids. by intros ?%elem_of_nil.
Qed.

Lemma issued_log ev w : issued (log_ev ev w) = (issued w + if is_issue ev then 1 else 0)%Z.
Proof. unfold issued. simpl. rewrite cnt_snoc. destruct (is_issue ev); lia. Qed.

(** Events that issue nothing. *)
Lemma related_log ev w v :
  related w v -> is_issue ev = false -> related (log_ev ev w) (log_ev ev v).
Proof.
  intros [] Hev. split; try done; simpl.
  - by rewrite rel_trace0.
  - by rewrite issued_log, Hev, Z.add_0_r.
Qed.

(** Changes outside the list and the generator. *)
Lemma related_depth d w v : related w v -> related (set_depth d w) (set_depth d v).
Proof. intros []. by split. Qed.

Lemma related_slots l w v : related w v -> related (set_slots l w) (set_slots l v).
Proof. intros []. by split. Qed.

Lemma related_count w v :
  related w v ->
  related (set_reg (count_panic (reg w)) w) (set_reg (count_panic (reg v)) v).
Proof. intros []. split; try done. simpl. by rewrite rel_panics0. Qed.

Lemma related_callback cb w v :
  related w v -> related (set_reg (on_panic cb (reg w)) w) (set_reg (on_panic cb (reg v)) v).
Proof. intros []. by split. Qed.

Lemma related_clear_callback w v :
  related w v ->
  related (set_reg (clear_panic_callback (reg w)) w) (set_reg (clear_panic_callback (reg v)) v).
Proof. intros []. by split. Qed.

(** A new entry with a fresh id. *)
Lemma related_insert w v prio h h' slots slots' :
  related w v -> h = h' -> slots = slots' -> no_wrap (log_ev (TIssue (issue_id (reg w)).1) w) ->
  related
    (log_ev (TIssue (issue_id (reg w)).1)
       (set_reg (insert (Entry (issue_id (reg w)).1 prio h) (issue_id (reg w)).2)
          (set_slots slots w)))
    (log_ev (TIssue (issue_id (reg v)).1)
       (set_reg (insert (Entry (issue_id (reg v)).1 prio h') (issue_id (reg v)).2)
          (set_slots slots' v))).
Proof.
  intros Hr <- <- Hnw. pose proof (rel_next _ _ Hr) as Hn. pose proof (rel_gen _ _ Hr) as Hg.
  unfold no_wrap in Hnw. rewrite issued_log in Hnw. simpl in Hnw.
  assert (0 <= issued w)%Z as Hpos by (unfold issued; lia).
  assert (u64 (gen_next (id_generator (reg w)) + 1) = (gen_next (id_generator (reg w)) + 1)%Z) as Hu
    by (apply u64_small; lia).
  destruct Hr. split; simpl; rewrite <- ?Hg; try done.
  - apply sr_insert; [done|]. intros Hin. apply rel_ids0 in Hin. simpl in Hin. lia.
  - by rewrite rel_trace0.
  - rewrite Hu, issued_log. simpl. change (issued (set_reg _ _)) with (issued w). lia.
  - intros id [->|Hid]%sr_insert_ids; rewrite Hu; simpl; [lia|]. apply rel_ids0 in Hid. lia.
Qed.

(** The list shrinks on both sides. *)
Lemma related_shrink w v s1 s2 :
  related w v -> R s1 s2 -> (forall x, x ∈ store_ids s1 -> x ∈ store_ids (handlers (reg w))) ->
  related
    (set_reg (mkRegistry s1 (id_generator (reg w)) (panic_callback (reg w)) (panics (reg w))) w)
    (set_reg (mkRegistry s2 (id_generator (reg v)) (panic_callback (reg v)) (panics (reg v))) v).
Proof. intros [] HR Hids. split; try done; simpl. intros id Hid. apply rel_ids0. by apply Hids. Qed.

Lemma related_same_reg w v : related w v -> related (set_reg (reg w) w) (set_reg (reg v) v).
Proof. intros []. by split. Qed.

Lemma related_remove id w v :
  related w v ->
  (remove_id id (reg w)).1 = (remove_id id (reg v)).1 /\
  related (set_reg (remove_id id (reg w)).2 w) (set_reg (remove_id id (reg v)).2 v).
Proof.
  intros Hr. unfold remove_id. pose proof (sr_remove _ _ id (rel_store _ _ Hr)) as Hs.
  destruct (store_remove id (handlers (reg w))) as [s1|] eqn:Hq1;
    destruct (store_remove id (handlers (reg v))) as [s2|] eqn:Hq2; inversion Hs; subst; simpl.
  - split; [done|]. apply related_shrink; [done..|]. intros x. by eapply sr_remove_ids.
  - split; [done|]. by apply related_same_reg.
Qed.

Lemma related_remove_all w v :
  related w v ->
  (remove_all (reg w)).1 = (remove_all (reg v)).1 /\
  related (set_reg (remove_all (reg w)).2 w) (set_reg (remove_all (reg v)).2 v).
Proof.
  intros Hr. unfold remove_all. pose proof (sr_clear _ _ (rel_store _ _ Hr)) as Hs.
  destruct (store_clear (handlers (reg w))) as [s1|] eqn:Hq1;
    destruct (store_clear (handlers (reg v))) as [s2|] eqn:Hq2; inversion Hs; subst; simpl.
  - split; [done|]. apply related_shrink; [done..|]. intros x. rewrite (sr_clear_ids _ _ Hq1).
    by intros ?%elem_of_nil.
  - split; [done|]. by apply related_same_reg.
Qed.

Lemma related_guard b id w v :
  related w v -> related (unregister_if_alive b id w) (unregister_if_alive b id v).
Proof.
  intros Hr. unfold unregister_if_alive, do_unregister, unregister. rewrite (rel_alive _ _ Hr).
  destruct (b && alive v); [|done]. destruct (related_remove id _ _ Hr) as [_ Hr'].
  by destruct (remove_id id (reg w)), (remove_id id (reg v)).
Qed.

(** ** Runners *)

Definition sims (r1 : option (flow * world E O S1)) (r2 : option (flow * world E O S2)) : Prop :=
  forall fl w', r1 = Some (fl, w') -> no_wrap w' -> exists v', r2 = Some (fl, v') /\ related w' v'.

Definition sim_run (run1 : prog E O -> world E O S1 -> option (flow * world E O S1))
    (run2 : prog E O -> world E O S2 -> option (flow * world E O S2)) : Prop :=
  keeps (appends 0) run1 /\ forall p w v, related w v -> sims (run1 p w) (run2 p v).

Lemma no_wrap_back w w' : appends 0 w w' -> no_wrap w' -> no_wrap w.
Proof. intros [_ (tr & Ht & _)]. unfold no_wrap, issued. rewrite Ht, cnt_app. lia. Qed.

Lemma sims_done fl w v : related w v -> sims (Some (fl, w)) (Some (fl, v)).
Proof. intros Hr fl' w' [= <- <-] _. by exists v. Qed.

Lemma handle_panic_sim run1 run2 id pl w v :
  sim_run run1 run2 -> related w v -> sims (handle_panic run1 id pl w) (handle_panic run2 id pl v).
Proof.
  intros [_ Hrun] Hr. unfold handle_panic.
  assert (related (log_ev (TPanic id pl) (set_reg (count_panic (reg w)) w))
    (log_ev (TPanic id pl) (set_reg (count_panic (reg v)) v))) as Hr1
    by (by apply related_log, eq_refl; apply related_count).
  simpl. rewrite <- (rel_callback _ _ Hr). destruct (panic_callback (reg w)) as [cb|].
  - intros fl w' Hh Hnw. destruct (run1 _ _) as [[fl1 w1]|] eqn:Hq1; [|done].
    assert (w1 = w') as -> by (destruct fl1; by simplify_eq).
    destruct (Hrun _ _ _ (related_log (TReport (PanicInfo_new id pl)) _ _ Hr1 eq_refl) _ _ Hq1 Hnw)
      as (v' & Hv & Hr'). rewrite Hv. destruct fl1; simplify_eq; by exists v'.
  - by apply sims_done.
Qed.

Lemma call_sim run1 run2 h e w v :
  sim_run run1 run2 -> related w v -> sims (call run1 h e w) (call run2 h e v).
Proof.
  intros [_ Hrun] Hr. destruct h as [h|slot id]; simpl; [by apply Hrun|].
  rewrite <- (rel_slots _ _ Hr).
  destruct (once_slots w !! slot) as [[h|]|] eqn:Hs; [|by apply sims_done..].
  intros fl w' Hc Hnw. destruct (run1 _ _) as [[fl1 w1]|] eqn:Hq1; [|done].
  assert (no_wrap w1) as Hnw1.
  { eapply (no_wrap_back w1 w'); [|done].
    destruct fl1; simplify_eq; try apply (unregister_if_alive_stable (appends 0));
      apply appends_body. }
  destruct (Hrun _ _ _ (related_log (TOnce slot) _ _ (related_slots (<[slot := None]> (once_slots w))
    _ _ Hr) eq_refl) _ _ Hq1 Hnw1) as (v1 & Hv & Hr1).
  rewrite Hv. destruct fl1; simplify_eq; eexists; (split; [done|]); [by apply related_guard..|done].
Qed.

Lemma dispatch_sim run1 run2 e l w v :
  sim_run run1 run2 -> related w v -> sims (dispatch run1 e l w) (dispatch run2 e l v).
Proof.
  intros Hrun. pose proof Hrun as [Hk _]. revert w v.
  induction l as [|entry l IH]; intros w v Hr; simpl; [by apply sims_done|].
  intros fl w' Hd Hnw. rewrite <- (rel_depth _ _ Hr).
  destruct (call run1 _ _ _) as [[fl1 w1]|] eqn:Hc; [|done].
  assert (forall w2, dispatch run1 e l w2 = Some (fl, w') -> no_wrap w2) as Hback.
  { intros w2 Hq2. eapply no_wrap_back; [|done]. by eapply dispatch_stable; [apply appends_stable|..]. }
  assert (no_wrap w1) as Hnw1.
  { destruct fl1 as [|pl|]; [by apply Hback| |by simplify_eq].
    destruct (handle_panic run1 _ _ _) as [[fl2 w2]|] eqn:Hh; [|done].
    eapply no_wrap_back; [by eapply handle_panic_stable; [apply appends_body|..]|].
    destruct fl2; [by apply Hback|by simplify_eq..]. }
  destruct (call_sim _ _ (handler entry) e _ _ Hrun
    (related_log (TCall (depth w) (entry_id entry)) _ _ Hr eq_refl) _ _ Hc Hnw1) as (v1 & Hv1 & Hr1).
  rewrite Hv1. destruct fl1 as [|pl|]; [by eapply IH| |simplify_eq; by exists v1].
  destruct (handle_panic run1 _ _ _) as [[fl2 w2]|] eqn:Hh; [|done].
  assert (no_wrap w2) as Hnw2 by (destruct fl2; [by apply Hback|by simplify_eq..]).
  destruct (handle_panic_sim _ _ _ _ _ _ Hrun Hr1 _ _ Hh Hnw2) as (v2 & Hv2 & Hr2). rewrite Hv2.
  destruct fl2; [by eapply IH|simplify_eq; by exists v2..].
Qed.

Lemma notify_sim run1 run2 e w v :
  sim_run run1 run2 -> related w v -> sims (notify run1 e w) (notify run2 e v).
Proof.
  intros Hrun Hr fl w' Hn Hnw. unfold notify in *. rewrite <- (rel_list _ _ Hr), <- (rel_depth _ _ Hr).
  destruct (dispatch run1 _ _ _) as [[fl1 w1]|] eqn:Hd; [|done]. simplify_eq.
  destruct (dispatch_sim _ _ _ _ _ _ Hrun (related_depth (S (depth w)) _ _ Hr) _ _ Hd Hnw)
    as (v1 & Hv1 & Hr1).
  rewrite Hv1. eexists. split; [done|]. rewrite (rel_depth _ _ Hr1). by apply related_depth.
Qed.

(** ** Programs *)

Lemma register_sim prio h w v :
  related w v -> no_wrap (do_register prio h w).2 ->
  (do_register prio h w).1 = (do_register prio h v).1 /\
  related (do_register prio h w).2 (do_register prio h v).2.
Proof.
  intros Hr Hnw. split; [simpl; by rewrite (rel_gen _ _ Hr)|].
  exact (related_insert _ _ prio (SPlain h) _ _ _ Hr eq_refl (rel_slots _ _ Hr) Hnw).
Qed.

Lemma register_once_sim h w v :
  related w v -> no_wrap (register_once h w).2 ->
  (register_once h w).1 = (register_once h v).1 /\
  related (register_once h w).2 (register_once h v).2.
Proof.
  intros Hr Hnw. split; [simpl; by rewrite (rel_gen _ _ Hr)|].
  apply (related_insert w v 0 (SOnce (length (once_slots w)) (issue_id (reg w)).1) _
    (once_slots w ++ [Some h])); [done| | |done].
  - simpl. by rewrite (rel_slots _ _ Hr), (rel_gen _ _ Hr).
  - by rewrite (rel_slots _ _ Hr).
Qed.

Lemma exec_prog_sim nested1 nested2 :
  (forall e w fl w', nested1 e w = Some (fl, w') -> appends 0 w w') ->
  (forall e w v, related w v -> sims (nested1 e w) (nested2 e v)) ->
  sim_run (exec_prog nested1) (exec_prog nested2).
Proof.
  intros Hk Hn. assert (keeps (appends 0) (exec_prog nested1)) as Hkeep
    by (apply exec_prog_stable; [apply appends_body|done]).
  split; [done|]. intros p.
  induction p as [| | |prio h IHh k IHk|h IHh k IHk|id k IHk|id k IHk|k IHk|k IHk|id k IHk|k IHk
    |k IHk|k IHk|cb IHcb k IHk|k IHk|e k IHk|g k IHk|k IHk]; intros w v Hr; cbn [exec_prog].
  - by apply sims_done.
  - by apply sims_done.
  - apply IHp. by apply related_log.
  - intros fl w' Hw Hnw. destruct (do_register prio h w) as [id w1] eqn:Hq.
    assert (no_wrap (do_register prio h w).2) as Hnw1
      by (rewrite Hq; eapply no_wrap_back; [by eapply Hkeep|done]).
    destruct (register_sim _ _ _ _ Hr Hnw1) as [Hid Hr1]. rewrite Hq in Hid, Hr1.
    destruct (do_register prio h v) as [id' v1]. simpl in *. subst id'. by eapply IHk.
  - intros fl w' Hw Hnw. destruct (register_once h w) as [id w1] eqn:Hq.
    assert (no_wrap (register_once h w).2) as Hnw1
      by (rewrite Hq; eapply no_wrap_back; [by eapply Hkeep|done]).
    destruct (register_once_sim _ _ _ Hr Hnw1) as [Hid Hr1]. rewrite Hq in Hid, Hr1.
    destruct (register_once h v) as [id' v1]. simpl in *. subst id'. by eapply IHk.
  - unfold do_unregister, unregister. destruct (related_remove id _ _ Hr) as [Hb Hr1].
    destruct (remove_id id (reg w)) as [b r1], (remove_id id (reg v)) as [b' r2].
    simpl in *. subst b'. by apply IHk.
  - unfold unregister_and_wait. destruct (related_remove id _ _ Hr) as [Hb Hr1].
    destruct (remove_id id (reg w)) as [b r1], (remove_id id (reg v)) as [b' r2].
    simpl in *. subst b'. apply IHk. destruct b; [by apply related_log|done].
  - apply IHk. unfold clear. by apply related_remove_all.
  - apply IHk. unfold clear_and_wait. destruct (related_remove_all _ _ Hr) as [Hb Hr1].
    destruct (remove_all (reg w)) as [b r1], (remove_all (reg v)) as [b' r2].
    simpl in *. subst b'. destruct b; [by apply related_log|done].
  - unfold contains. rewrite (rel_list _ _ Hr). by apply IHk.
  - unfold handler_count. rewrite (rel_list _ _ Hr). by apply IHk.
  - unfold is_empty. rewrite (rel_list _ _ Hr). by apply IHk.
  - unfold panic_count. rewrite (rel_panics _ _ Hr). by apply IHk.
  - by apply IHk, related_callback.
  - by apply IHk, related_clear_callback.
  - intros fl w' Hw Hnw. destruct (nested1 e w) as [[fl1 w1]|] eqn:Hq; [|done].
    assert (no_wrap w1) as Hnw1.
    { destruct fl1; [|by simplify_eq..]. eapply no_wrap_back; [by eapply Hkeep|done]. }
    destruct (Hn e w v Hr _ _ Hq Hnw1) as (v1 & Hv1 & Hr1). rewrite Hv1.
    destruct fl1; [by eapply IHk|simplify_eq; by exists v1..].
  - by apply IHk, related_guard.
  - rewrite (rel_trace _ _ Hr). by apply IHk.
Qed.

Lemma exec_sim fuel : sim_run (exec fuel) (exec fuel).
Proof.
  induction fuel as [|fuel IH]; simpl; apply exec_prog_sim; try done.
  - intros e w fl w' Hn. by eapply notify_stable; [apply appends_stable|apply IH|].
  - intros e w v. by apply notify_sim.
Qed.
End Simulation.
