(* ===== verification/SyncWf.v ===== *)
(** What is always true of a [SyncRegistry] (src/src/sync/mod.rs), whatever programs do
    with it: the well-formedness of its fields, and the bookkeeping of once-handlers. *)
From S2P Require Import Prelude HandlerId HandlerList HandlerStore PanicInfo SyncRegistry.
From S2P Require Import SyncProofs SyncPanics SyncRefine.

Section Wf.
Context {E O : Type}.
Abbreviation Vec := (list (HandlerEntry (stored E O))).
Abbreviation World := (world E O Vec).
Implicit Types (w : World) (p : prog E O) (l : Vec) (en : HandlerEntry (stored E O)).

(** The mutexes referred to by the once-closures of a list. *)
Definition slot_of en : option nat :=
  match handler en with SOnce slot _ => Some slot | SPlain _ => None end.
Definition slots_of l : list nat := omap slot_of l.

(** What holds of the ids until the 64-bit counter wraps: the generator has counted them,
    every registered id is one it has issued, and no two handlers share one. *)
Record ids_ok w : Prop := {
  ids_next : gen_next (id_generator (reg w)) = (1 + issued w)%Z;
  ids_below en : en ∈ handlers (reg w) -> (as_u64 (entry_id en) < gen_next (id_generator (reg w)))%Z;
  ids_nodup : NoDup (entry_id <$> handlers (reg w));
}.

(** Well-formed registries: the list is in dispatch order; the counters are within 64
    bits, and so are the ids, which are unique and below the generator's next id until it
    wraps; a once-closure removes the entry it is stored in, was registered with priority 0,
    and has a mutex of its own. *)
Record sync_wf w : Prop := {
  wf_sorted : StronglySorted desc (handlers (reg w));
  wf_gen : valid_gen (id_generator (reg w));
  wf_valid : Forall (fun en => valid_id (entry_id en)) (handlers (reg w));
  wf_panics : (0 <= panics (reg w) < u64_modulus)%Z;
  wf_once en slot id : en ∈ handlers (reg w) -> handler en = SOnce slot id ->
    id = entry_id en /\ priority en = 0%Z /\ slot < length (once_slots w);
  wf_slots : NoDup (slots_of (handlers (reg w)));
  wf_ids : no_wrap w -> ids_ok w;
}.

Lemma sync_wf_new : sync_wf world_new.
Proof.
  split; simpl; [constructor|by vm_compute|constructor|by vm_compute| |constructor|].
  - by intros ? ? ? ?%elem_of_nil.
  - intros _. split; [done|by intros ? ?%elem_of_nil|constructor].
Qed.

Lemma slots_of_elem slot l : slot ∈ slots_of l <-> exists en, en ∈ l /\ slot_of en = Some slot.
Proof. unfold slots_of. by rewrite list_elem_of_omap. Qed.

Lemma slot_of_once en slot : slot_of en = Some slot -> exists id, handler en = SOnce slot id.
Proof. unfold slot_of. destruct (handler en) as [h|s id]; [done|]. intros [= ->]. eauto. Qed.

(** ** Removal by id *)

Lemma unregister_found id (r : SyncRegistry E O Vec) :
  NoDup (entry_id <$> handlers r) -> id ∈ entry_id <$> handlers r ->
  unregister id r =
    (true, mkRegistry (filter (fun e => entry_id e <> id) (handlers r)) (id_generator r)
             (panic_callback r) (panics r)).
Proof.
  intros Hnd Hin. unfold unregister, remove_id. simpl.
  destruct (remove_id_list id (handlers r)) as [l|] eqn:Hr.
  - by rewrite (remove_id_list_filter _ _ _ Hnd Hr).
  - by apply remove_id_list_None in Hr.
Qed.

Lemma unregister_missing id (r : SyncRegistry E O Vec) :
  id ∉ entry_id <$> handlers r -> unregister id r = (false, r).
Proof. intros Hn%remove_id_list_None. unfold unregister, remove_id. simpl. by rewrite Hn. Qed.

Lemma filter_absent id l : id ∉ entry_id <$> l -> filter (fun e => entry_id e <> id) l = l.
Proof.
  intros Hn. apply filter_all_true, Forall_forall. intros e He <-. apply Hn, list_elem_of_fmap. eauto.
Qed.

Lemma contains_spec id (r : SyncRegistry E O Vec) :
  contains id r = true <-> id ∈ entry_id <$> handlers r.
Proof.
  unfold contains. simpl. rewrite existsb_exists, list_elem_of_fmap. split.
  - intros (e & He & Hid%bool_decide_eq_true). exists e. by rewrite list_elem_of_In.
  - intros (e & -> & He). exists e. rewrite bool_decide_eq_true, <- list_elem_of_In. done.
Qed.

(** ** Shrinking the list, and adding an entry *)

Lemma remove_id_list_sublist id l l' : remove_id_list id l = Some l' -> l' `sublist_of` l.
Proof.
  unfold remove_id_list. intros (pos & _ & [= <-])%bind_Some.
  rewrite <- (take_drop pos l) at 3. apply sublist_app; [done|].
  rewrite <- drop_drop. apply sublist_drop.
Qed.

Lemma remove_id_sublist id (r : SyncRegistry E O Vec) :
  handlers (remove_id id r).2 `sublist_of` handlers r.
Proof.
  unfold remove_id. simpl. destruct (remove_id_list id (handlers r)) eqn:Hr; [|done].
  by eapply remove_id_list_sublist.
Qed.

Lemma remove_all_sublist (r : SyncRegistry E O Vec) :
  handlers (remove_all r).2 `sublist_of` handlers r.
Proof. unfold remove_all. simpl. destruct (handlers r) eqn:Hr; simpl; [by rewrite Hr|apply sublist_nil_l]. Qed.

Lemma remove_id_panics id (r : SyncRegistry E O Vec) : panics (remove_id id r).2 = panics r.
Proof. unfold remove_id. by destruct (store_remove id (handlers r)). Qed.

Lemma remove_id_gen id (r : SyncRegistry E O Vec) :
  id_generator (remove_id id r).2 = id_generator r.
Proof. unfold remove_id. by destruct (store_remove id (handlers r)). Qed.

Lemma remove_all_panics (r : SyncRegistry E O Vec) : panics (remove_all r).2 = panics r.
Proof. unfold remove_all. by destruct (store_clear (handlers r)). Qed.

Lemma remove_all_gen (r : SyncRegistry E O Vec) : id_generator (remove_all r).2 = id_generator r.
Proof. unfold remove_all. by destruct (store_clear (handlers r)). Qed.

Lemma StronglySorted_sublist l l' :
  l' `sublist_of` l -> StronglySorted desc l -> StronglySorted desc l'.
Proof.
  intros Hs. induction Hs as [|x l1 l2 Hs IH|x l1 l2 Hs IH]; [done|..];
    intros [Hl Hx]%StronglySorted_inv; [|by apply IH].
  constructor; [by apply IH|]. apply Forall_forall. intros y Hy.
  by eapply Forall_forall; [|by eapply sublist_subseteq].
Qed.

Lemma slots_of_sublist l l' : l' `sublist_of` l -> slots_of l' `sublist_of` slots_of l.
Proof.
  unfold slots_of. induction 1 as [|x l1 l2 Hs IH|x l1 l2 Hs IH]; simpl; [done|..];
    destruct (slot_of x); try done; [by apply sublist_skip|by apply sublist_cons].
Qed.

Lemma sync_wf_shrink w w' :
  sync_wf w -> handlers (reg w') `sublist_of` handlers (reg w) ->
  id_generator (reg w') = id_generator (reg w) -> (0 <= panics (reg w') < u64_modulus)%Z ->
  length (once_slots w') = length (once_slots w) -> issued w' = issued w -> sync_wf w'.
Proof.
  intros [H1 H2 H3 H4 H5 H6 H7] Hs Hg Hp Hl Hi. pose proof (sublist_subseteq _ _ Hs) as Hsub.
  split; try done.
  - by eapply StronglySorted_sublist.
  - by rewrite Hg.
  - apply Forall_forall. intros en Hen. eapply Forall_forall in H3; [done|]. by apply Hsub.
  - intros en slot id Hen. rewrite Hl. by apply H5, Hsub.
  - eapply sublist_NoDup; [done|by apply slots_of_sublist].
  - unfold no_wrap. rewrite Hi. intros [N1 N2 N3]%H7. split.
    + by rewrite Hg, Hi.
    + intros en Hen. rewrite Hg. by apply N2, Hsub.
    + eapply sublist_NoDup; [done|]. by apply fmap_sublist.
Qed.

Lemma issued_quiet ev w : is_issue ev = false -> issued (log_ev ev w) = issued w.
Proof. intros Hev. rewrite issued_log, Hev. lia. Qed.

(** A new entry with the next id. *)
Lemma ids_ok_insert w prio h slots :
  let w' := log_ev (TIssue (issue_id (reg w)).1)
    (set_reg (insert (Entry (issue_id (reg w)).1 prio h) (issue_id (reg w)).2) (set_slots slots w)) in
  StronglySorted desc (handlers (reg w)) -> no_wrap w' -> ids_ok w ->
  issued w' = (issued w + 1)%Z /\ ids_ok w'.
Proof.
  intros w' Hso Hnw [N1 N2 N3]. set (en := Entry _ _ _) in *.
  assert (issued w' = issued w + 1)%Z as Hi by (subst w'; by rewrite issued_log).
  split; [done|]. assert (0 <= issued w)%Z by (unfold issued; lia).
  assert (gen_next (id_generator (reg w')) = gen_next (id_generator (reg w)) + 1)%Z as Hg.
  { simpl. apply u64_small. unfold no_wrap in Hnw. lia. }
  split.
  - rewrite Hg. lia.
  - intros en' Hen. rewrite Hg. change (en' ∈ insert_entry en (handlers (reg w))) in Hen.
    apply insert_entry_elem in Hen as [->|Hen]; [simpl; lia|]. apply N2 in Hen. lia.
  - change (NoDup (entry_id <$> insert_entry en (handlers (reg w)))).
    rewrite (insert_entry_perm en _ Hso). simpl.
    constructor; [|done]. intros (en' & Heq & Hen)%list_elem_of_fmap. apply N2 in Hen.
    rewrite <- Heq in Hen. simpl in Hen. lia.
Qed.

Lemma sync_wf_insert w h prio slots :
  sync_wf w ->
  (forall slot id, h = SOnce slot id -> id = (issue_id (reg w)).1 /\ prio = 0%Z /\
     slot = length (once_slots w)) ->
  length (once_slots w) + match h with SOnce _ _ => 1 | SPlain _ => 0 end = length slots ->
  sync_wf (log_ev (TIssue (issue_id (reg w)).1)
    (set_reg (insert (Entry (issue_id (reg w)).1 prio h) (issue_id (reg w)).2)
       (set_slots slots w))).
Proof.
  intros [H1 H2 H3 H4 H5 H6 H7] Hh Hl. set (en := Entry _ _ _).
  pose proof (insert_entry_perm en _ H1) as Hp.
  destruct (next_id_valid _ H2) as [Hid Hgen].
  split; cbn -[insert_entry]; try done.
  - rewrite insert_entry_ref by done. by apply insert_ref_sorted.
  - rewrite Hp. by constructor.
  - intros en' slot id [->|Hen]%insert_entry_elem Hs.
    + simpl in Hs. destruct (Hh _ _ Hs) as (-> & -> & ->). split_and!; [done..|].
      rewrite <- Hl, Hs. lia.
    + destruct (H5 _ _ _ Hen Hs) as (? & ? & ?). split_and!; [done..|lia].
  - unfold slots_of. rewrite Hp. simpl. unfold slot_of at 1. simpl.
    destruct h as [|slot id]; [done|]. constructor; [|done].
    destruct (Hh _ _ eq_refl) as (_ & _ & ->).
    intros (en' & Hen & (id' & Hs)%slot_of_once)%slots_of_elem.
    destruct (H5 _ _ _ Hen Hs) as (_ & _ & ?). lia.
  - intros Hnw. apply ids_ok_insert; [done..|]. apply H7. unfold no_wrap in *.
    rewrite issued_log in Hnw. unfold issued in *. simpl in *. lia.
Qed.

(** Nothing but the trace, the callback or the depth changes. *)
Lemma sync_wf_same w w' :
  sync_wf w -> handlers (reg w') = handlers (reg w) -> id_generator (reg w') = id_generator (reg w) ->
  panics (reg w') = panics (reg w) -> length (once_slots w') = length (once_slots w) ->
  issued w' = issued w -> sync_wf w'.
Proof.
  intros Hw Hh Hg Hp. apply sync_wf_shrink; [done|by rewrite Hh|done|rewrite Hp; apply Hw].
Qed.

Lemma sync_wf_log ev w : sync_wf w -> is_issue ev = false -> sync_wf (log_ev ev w).
Proof. intros Hw Hev. apply (sync_wf_same w); try done. by apply issued_quiet. Qed.

Lemma sync_wf_remove id w : sync_wf w -> sync_wf (set_reg (remove_id id (reg w)).2 w).
Proof.
  intros Hw. apply (sync_wf_shrink w); try done; simpl; [apply remove_id_sublist|apply remove_id_gen|].
  rewrite remove_id_panics. apply Hw.
Qed.

Lemma sync_wf_remove_all w : sync_wf w -> sync_wf (set_reg (remove_all (reg w)).2 w).
Proof.
  intros Hw. apply (sync_wf_shrink w); try done; simpl; [apply remove_all_sublist|apply remove_all_gen|].
  rewrite remove_all_panics. apply Hw.
Qed.

Lemma sync_wf_stable : stable (implies sync_wf).
Proof.
  split; [split; [split|..]|..]; unfold implies; try done; intros.
  - auto.
  - by apply sync_wf_log.
  - apply (sync_wf_insert w (SPlain h) prio (once_slots w)); [done|done|simpl; lia].
  - apply (sync_wf_insert w (SOnce _ _) 0 (once_slots w ++ [Some h])); [done| |].
    + by intros ? ? [= <- <-].
    + rewrite length_app. simpl. lia.
  - rewrite do_unregister_world. by apply sync_wf_remove.
  - unfold unregister_and_wait. pose proof (sync_wf_remove id w H) as Hr.
    destruct (remove_id id (reg w)) as [[] r]; [by apply sync_wf_log|done].
  - by apply sync_wf_remove_all.
  - unfold clear_and_wait. pose proof (sync_wf_remove_all w H) as Hr.
    destruct (remove_all (reg w)) as [[] r]; [by apply sync_wf_log|done].
  - by apply (sync_wf_same w).
  - by apply (sync_wf_same w).
  - apply sync_wf_log; [|done]. apply (sync_wf_same w); try done. simpl. by rewrite length_insert.
  - apply sync_wf_log; [|done]. by apply (sync_wf_shrink w); try done; apply u64_range.
  - by apply sync_wf_log.
  - by apply sync_wf_log.
  - assert (sync_wf (set_depth (S (depth w)) w)) as Hw by (by apply (sync_wf_same w)).
    by apply (sync_wf_same w'); [apply H|..].
Qed.
End Wf.
