(* ===== verification/SyncOnce.v ===== *)
(** Once-handlers ([register_once], src/src/sync/mod.rs): a handler that has run is no
    longer registered when its call is over. *)
From S2P Require Import Prelude HandlerId HandlerList HandlerStore PanicInfo SyncRegistry.
From S2P Require Import SyncProofs SyncPanics SyncRefine SyncWf.

Section Once.
Context {E O : Type}.
Abbreviation Vec := (list (HandlerEntry (stored E O))).
Abbreviation World := (world E O Vec).
Implicit Types (w : World) (p : prog E O) (l : Vec) (en : HandlerEntry (stored E O)).

(** Well-formed, and the registry still exists. *)
Record once_wf w : Prop := {
  ow_wf : sync_wf w;
  ow_alive : alive w = true;
}.

Lemma once_wf_new : once_wf world_new.
Proof. split; [apply sync_wf_new|done]. Qed.

(** A once-handler that is still registered though its mutex is empty: it is running. *)
Definition spent w (slot : nat) : Prop :=
  once_slots w !! slot = Some None /\ slot ∈ slots_of (handlers (reg w)).

(** From [w] to [w']: mutexes are only added, entries that refer to the old ones only
    removed, and no more of them are spent. *)
Record settles w w' : Prop := {
  se_slots : length (once_slots w) <= length (once_slots w');
  se_old en slot : en ∈ handlers (reg w') -> slot_of en = Some slot ->
    slot < length (once_slots w) -> en ∈ handlers (reg w);
  se_spent slot : spent w' slot -> spent w slot;
}.

(** The same as long as the ids have not wrapped around, under a condition [C]. *)
Definition settling (C : Prop) w w' : Prop :=
  (issued w <= issued w')%Z /\
  (no_wrap w' -> once_wf w -> C -> once_wf w' /\ settles w w').

Lemma settles_refl w : settles w w.
Proof. by split. Qed.

Lemma settles_trans w1 w2 w3 : settles w1 w2 -> settles w2 w3 -> settles w1 w3.
Proof.
  intros [A1 A2 A3] [B1 B2 B3]. split; [lia| |by auto].
  intros en slot Hen Hs Hl. apply (A2 _ slot); [|done..]. apply (B2 _ slot); [done..|lia].
Qed.

Lemma settling_refl C w : settling C w w.
Proof. split; [lia|]. intros _ Hw _. split; [done|apply settles_refl]. Qed.

Lemma settling_trans w1 w2 w3 : settling True w1 w2 -> settling True w2 w3 -> settling True w1 w3.
Proof.
  intros [Hi1 H1] [Hi2 H2]. split; [lia|]. intros Hnw Hw _.
  assert (no_wrap w2) as Hnw2 by (unfold no_wrap in *; lia).
  destruct (H1 Hnw2 Hw I) as [Hw2 Hs1]. destruct (H2 Hnw Hw2 I) as [Hw3 Hs2].
  split; [done|]. by eapply settles_trans.
Qed.

(** ** Methods *)

(** Everything that only removes entries. *)
Lemma settling_shrink C w w' :
  implies sync_wf w w' -> handlers (reg w') `sublist_of` handlers (reg w) ->
  once_slots w' = once_slots w -> alive w' = alive w -> issued w' = issued w -> settling C w w'.
Proof.
  intros Hwf Hs Hl Ha Hi. pose proof (sublist_subseteq _ _ Hs) as Hsub.
  split; [lia|]. intros _ [H1 H2] _. split; [split|split].
  - by apply Hwf.
  - congruence.
  - by rewrite Hl.
  - intros en slot Hen _ _. by apply Hsub.
  - intros slot [Hn Hin]. split; [congruence|].
    by eapply sublist_subseteq; [apply slots_of_sublist|].
Qed.

Lemma settling_insert w h prio slots :
  implies sync_wf w (log_ev (TIssue (issue_id (reg w)).1)
    (set_reg (insert (Entry (issue_id (reg w)).1 prio h) (issue_id (reg w)).2) (set_slots slots w))) ->
  (exists hs, slots = once_slots w ++ (Some <$> hs)) ->
  (forall slot id, h = SOnce slot id -> slot = length (once_slots w)) ->
  settling True w (log_ev (TIssue (issue_id (reg w)).1)
    (set_reg (insert (Entry (issue_id (reg w)).1 prio h) (issue_id (reg w)).2) (set_slots slots w))).
Proof.
  intros Hwf [hs ->] Hh. set (w' := log_ev _ _). set (en := Entry _ _ _) in *.
  assert (issued w' = issued w + 1)%Z as Hi by (subst w'; by rewrite issued_log).
  split; [lia|]. intros Hnw [H1 H2] _. specialize (Hwf H1).
  split; [split|split]; try done.
  - simpl. rewrite length_app. lia.
  - intros en' slot Hen Hs Hl. change (en' ∈ insert_entry en (handlers (reg w))) in Hen.
    apply insert_entry_elem in Hen as [->|Hen]; [|done].
    apply slot_of_once in Hs as [id Hs]. apply Hh in Hs. lia.
  - intros slot [Hn (en' & Hen & Hs)%slots_of_elem]. simpl in Hn.
    apply lookup_app_Some in Hn as [Hn|[_ Hn]]; [|by apply list_lookup_fmap_Some in Hn as (? & ? & ?)].
    split; [done|]. apply slots_of_elem. exists en'. split; [|done].
    change (en' ∈ insert_entry en (handlers (reg w))) in Hen.
    apply insert_entry_elem in Hen as [->|Hen]; [|done].
    apply slot_of_once in Hs as [id ->%Hh]. apply lookup_lt_Some in Hn. lia.
Qed.

Lemma settling_stable : prog_stable (settling True).
Proof.
  pose proof (st_prog _ (st_body _ (sync_wf_stable (E := E) (O := O)))) as HP. split.
  - apply settling_refl.
  - apply settling_trans.
  - intros o w. apply settling_shrink; try done; [apply HP|by apply issued_quiet].
  - intros prio h w. apply (settling_insert w (SPlain h) prio (once_slots w)); [apply (st_register _ HP prio h w)| |done].
    exists []. by rewrite app_nil_r.
  - intros h w. apply (settling_insert w (SOnce _ _) 0 (once_slots w ++ [Some h])); [apply (st_once _ HP h w)| |].
    + by exists [h].
    + by intros ? ? [= <- _].
  - intros id w. assert (implies sync_wf w (do_unregister id w).2) as Hwf by apply HP.
    rewrite do_unregister_world in *.
    apply settling_shrink; try done. apply remove_id_sublist.
  - intros id w. assert (implies sync_wf w (unregister_and_wait id w).2) as Hwf by apply HP.
    unfold unregister_and_wait in *.
    pose proof (remove_id_sublist id (reg w)).
    destruct (remove_id id (reg w)) as [[] r]; simpl in *; apply settling_shrink; try done;
      by apply (issued_quiet TWait (set_reg r w)).
  - intros w. assert (implies sync_wf w (set_reg (clear (reg w)) w)) as Hwf by apply HP.
    apply settling_shrink; try done. apply remove_all_sublist.
  - intros w. assert (implies sync_wf w (clear_and_wait w)) as Hwf by apply HP.
    unfold clear_and_wait in *.
    pose proof (remove_all_sublist (reg w)).
    destruct (remove_all (reg w)) as [[] r]; simpl in *; apply settling_shrink; try done;
      by apply (issued_quiet TWait (set_reg r w)).
  - intros cb w. apply settling_shrink; try done. apply HP.
  - intros w. apply settling_shrink; try done. apply HP.
Qed.

(** ** Dispatch *)

(** Runs that do not abort settle. *)
Definition run_settles (run : prog E O -> World -> result) : Prop :=
  forall p w fl w', run p w = Some (fl, w') -> fl <> Aborted -> settling True w w'.

Lemma handle_panic_settles run id pl w fl w' :
  run_settles run -> handle_panic run id pl w = Some (fl, w') -> fl <> Aborted -> settling True w w'.
Proof.
  intros Hrun. pose proof (st_body _ (sync_wf_stable (E := E) (O := O))) as HB. unfold handle_panic.
  set (w0 := log_ev (TPanic id pl) _).
  assert (settling True w w0) as H0.
  { apply settling_shrink; try done; [apply HB|by apply (issued_quiet _ (set_reg _ w))]. }
  cbn zeta. destruct (panic_callback (reg w0)) as [cb|]; [|by intros [= <- <-]].
  set (w1 := log_ev (TReport _) w0).
  assert (settling True w0 w1) as H1.
  { apply settling_shrink; try done; [apply HB|by apply issued_quiet]. }
  destruct (run _ w1) as [[fl1 w2]|] eqn:Hr; [|done]. intros Hh Hfl.
  assert (fl1 <> Aborted /\ w2 = w') as [Hfl1 ->] by (destruct fl1; simplify_eq; split; congruence).
  eapply settling_trans; [exact H0|]. eapply settling_trans; [exact H1|]. by eapply Hrun.
Qed.

(** An entry a dispatch is about to call agrees with the list on whose mutex it has. *)
Definition fits w en : Prop :=
  forall slot id, handler en = SOnce slot id ->
    slot < length (once_slots w) /\
    forall en', en' ∈ handlers (reg w) -> slot_of en' = Some slot -> entry_id en' = id.

Lemma fits_settles w w' en : settles w w' -> fits w en -> fits w' en.
Proof.
  intros [H1 H2 _] Hf slot id Hs. destruct (Hf _ _ Hs) as [Hl He]. split; [lia|].
  intros en' Hen Hs'. apply He; [|done]. by eapply H2.
Qed.

(** After the drop of [RemoveOnDrop] the id is gone. *)
Lemma remove_on_drop_gone id w en :
  once_wf w -> no_wrap w -> en ∈ handlers (reg (RemoveOnDrop_drop id w)) -> entry_id en <> id.
Proof.
  intros Hw Hnw. unfold RemoveOnDrop_drop, unregister_if_alive. rewrite (ow_alive _ Hw). simpl.
  rewrite do_unregister_world. simpl. unfold remove_id. simpl.
  destruct (remove_id_list id (handlers (reg w))) as [l|] eqn:Hr; simpl.
  - rewrite (remove_id_list_filter _ _ _ (ids_nodup _ (wf_ids _ (ow_wf _ Hw) Hnw)) Hr). by intros [? _]%list_elem_of_filter.
  - apply remove_id_list_None in Hr. intros Hen <-. apply Hr, list_elem_of_fmap. eauto.
Qed.

Lemma call_settles run en e w fl w' :
  run_settles run -> call run (handler en) e w = Some (fl, w') -> fl <> Aborted ->
  settling (fits w en) w w'.
Proof.
  intros Hrun Hc Hfl. destruct (handler en) as [h|slot id] eqn:Hh; simpl in Hc.
  { destruct (Hrun _ _ _ _ Hc Hfl) as [Hi Hs]. split; [done|]. intros; by apply Hs. }
  destruct (once_slots w !! slot) as [[h|]|] eqn:Hslot; [|simplify_eq; apply settling_refl..].
  set (w0 := log_ev (TOnce slot) _) in Hc. destruct (run _ w0) as [[fl1 w1]|] eqn:Hr; [|done].
  assert (fl1 <> Aborted /\ w' = RemoveOnDrop_drop id w1) as [Hfl1 ->]
    by (destruct fl1; simplify_eq; split; congruence).
  assert (settling True w1 (RemoveOnDrop_drop id w1)) as [Hi1 Hs1]
    by apply (unregister_if_alive_stable (settling True)), settling_stable.
  destruct (Hrun _ _ _ _ Hr Hfl1) as [Hi Hs]. assert (issued w0 = issued w) as Hi0 by (by apply (issued_quiet _ (set_slots _ w))).
  split; [lia|]. intros Hnw Hw Hfit.
  assert (once_wf w0) as Hw0.
  { destruct Hw as [H1 H2]. split; [|done].
    by apply (st_take _ (st_body _ sync_wf_stable) slot h w). }
  assert (no_wrap w1) as Hnw1 by (unfold no_wrap in *; lia).
  destruct (Hs Hnw1 Hw0 I) as [Hw1 Hse]. destruct (Hs1 Hnw Hw1 I) as [Hw' Hse1]. split; [done|].
  pose proof (settles_trans _ _ _ Hse Hse1) as [A1 A2 A3]. simpl in A1, A2. rewrite length_insert in A1, A2.
  split; [done..|]. intros s Hsp. pose proof (A3 _ Hsp) as [Hn Hin]. split; [|done]. simpl in Hn.
  destruct (decide (s = slot)) as [->|Hne]; [|by rewrite list_lookup_insert_ne in Hn].
  destruct Hsp as [_ (en' & Hen & Hse')%slots_of_elem]. exfalso.
  destruct (Hfit _ _ Hh) as [Hlt Hid]. pose proof (A2 _ _ Hen Hse' Hlt) as Hold.
  by apply (remove_on_drop_gone id w1 en' Hw1 Hnw1 Hen), Hid.
Qed.

Lemma dispatch_settles run e l w fl w' :
  run_settles run -> dispatch run e l w = Some (fl, w') -> fl <> Aborted ->
  settling (Forall (fits w) l) w w'.
Proof.
  intros Hrun. pose proof (st_called _ (sync_wf_stable (E := E) (O := O))) as Hcalled.
  revert w. induction l as [|en l IH]; intros w; cbn [dispatch].
  { intros [= <- <-] _. apply settling_refl. }
  set (w0 := log_ev (TCall _ _) w).
  assert (issued w0 = issued w) as Hi0 by (by apply issued_quiet).
  assert (once_wf w -> once_wf w0) as Hw0.
  { intros [H1 H2]. split; [by apply Hcalled|done]. }
  assert (settles w w0) as Hse0 by (by split).
  destruct (call run _ _ w0) as [[fl1 w1]|] eqn:Hc; [|done]. intros Hd Hfl.
  assert (forall w2, settling True w1 w2 -> fl1 <> Aborted -> dispatch run e l w2 = Some (fl, w') ->
    settling (Forall (fits w) (en :: l)) w w') as Hrest.
  { intros w2 [Hi2 Hs2] Hfl1 Hd2. destruct (call_settles _ _ _ _ _ _ Hrun Hc Hfl1) as [Hi1 Hs1].
    destruct (IH _ Hd2 Hfl) as [Hi3 Hs3]. split; [lia|].
    intros Hnw Hw [Hen Hl]%Forall_cons_1. apply Hw0 in Hw.
    assert (no_wrap w2) as Hnw2 by (unfold no_wrap in *; lia).
    assert (no_wrap w1) as Hnw1 by (unfold no_wrap in *; lia).
    destruct (Hs1 Hnw1 Hw Hen) as [Hw1 Hse1]. destruct (Hs2 Hnw2 Hw1 I) as [Hw2 Hse2].
    pose proof (settles_trans _ _ _ Hse1 Hse2) as Hse.
    destruct (Hs3 Hnw Hw2) as [Hw3 Hse3].
    { eapply Forall_impl; [exact Hl|]. intros x. exact (fits_settles w0 w2 x Hse). }
    split; [done|]. exact (settles_trans _ _ _ Hse0 (settles_trans _ _ _ Hse Hse3)). }
  destruct fl1 as [|pl|]; [apply (Hrest w1); [apply settling_refl|done|done]| |by simplify_eq].
  destruct (handle_panic run _ _ _) as [[fl2 w2]|] eqn:Hh; [|done].
  destruct fl2 as [|q|]; [..|by simplify_eq].
  - apply (Hrest w2); try done. by eapply handle_panic_settles.
  - simplify_eq. destruct (call_settles _ _ _ _ _ _ Hrun Hc ltac:(done)) as [Hi1 Hs1].
    destruct (handle_panic_settles _ _ _ _ _ _ Hrun Hh Hfl) as [Hi2 Hs2].
    split; [lia|]. intros Hnw Hw [Hen _]%Forall_cons_1. apply Hw0 in Hw.
    assert (no_wrap w1) as Hnw1 by (unfold no_wrap in *; lia).
    destruct (Hs1 Hnw1 Hw Hen) as [Hw1 Hse1]. destruct (Hs2 Hnw Hw1 I) as [Hw2 Hse2].
    split; [done|]. exact (settles_trans _ _ _ Hse0 (settles_trans _ _ _ Hse1 Hse2)).
Qed.

Lemma NoDup_slot_inj l en en' slot :
  NoDup (slots_of l) -> en ∈ l -> en' ∈ l -> slot_of en = Some slot -> slot_of en' = Some slot ->
  en = en'.
Proof.
  intros Hnd. induction l as [|x l IH]; [by intros ?%elem_of_nil|].
  unfold slots_of in Hnd. simpl in Hnd.
  intros [->|H1]%elem_of_cons [->|H2]%elem_of_cons Hs1 Hs2; [done|..].
  - rewrite Hs1 in Hnd. apply NoDup_cons in Hnd as [Hn _]. destruct Hn. apply slots_of_elem. eauto.
  - rewrite Hs2 in Hnd. apply NoDup_cons in Hnd as [Hn _]. destruct Hn. apply slots_of_elem. eauto.
  - apply IH; try done. destruct (slot_of x); [by apply NoDup_cons in Hnd as [_ ?]|done].
Qed.

Lemma fits_all w : sync_wf w -> Forall (fits w) (handlers (reg w)).
Proof.
  intros Hw. apply Forall_forall. intros en Hen slot id Hs.
  destruct (wf_once _ Hw _ _ _ Hen Hs) as (-> & _ & Hl). split; [done|]. intros en' Hen' Hs'.
  f_equal. eapply NoDup_slot_inj; [apply Hw|done..|]. unfold slot_of. by rewrite Hs.
Qed.

Lemma notify_settles run e w fl w' :
  run_settles run -> notify run e w = Some (fl, w') -> fl <> Aborted -> settling True w w'.
Proof.
  intros Hrun. unfold notify. cbn [store_list vec_store].
  destruct (dispatch run e _ _) as [[fl1 w1]|] eqn:Hd; [|done]. intros [= <- <-] Hfl.
  destruct (dispatch_settles _ _ _ _ _ _ Hrun Hd Hfl) as [Hi Hs]. split; [done|].
  intros Hnw [H1 H2] _. assert (sync_wf (set_depth (S (depth w)) w)) as Hd1 by (by apply (sync_wf_same w)).
  destruct Hs as [[G1 G2] [B1 B2 B3]]; [done|by split|by apply (fits_all (set_depth (S (depth w)) w))|].
  split; [|by split]. split; [by apply (sync_wf_same w1)|done].
Qed.

Lemma exec_settles fuel : run_settles (exec fuel).
Proof.
  induction fuel as [|fuel IH]; intros p w fl w'; simpl;
    apply (exec_prog_stable_if (fun fl => fl <> Aborted)); try done; try apply settling_stable.
  intros e w0 fl0 w0'. by apply notify_settles.
Qed.

(** After a program that does not abort, no once-handler that has run is registered. *)
Lemma none_spent fuel p fl w slot :
  exec fuel p world_new = Some (fl, w) -> fl <> Aborted -> no_wrap w -> ~ spent w slot.
Proof.
  intros Hp Hfl Hnw. destruct (exec_settles fuel _ _ _ _ Hp Hfl) as [_ Hs].
  destruct (Hs Hnw once_wf_new I) as [_ [_ _ Hsp]]. intros [_ Hin]%Hsp. by apply elem_of_nil in Hin.
Qed.
End Once.
