(* ===== verification/SyncFuel.v ===== *)
(** The nesting depth given to [exec] only bounds how deep dispatches may nest: once
    it is enough, more of it changes nothing (src/src/sync/mod.rs). *)
From S2P Require Import Prelude HandlerId HandlerList HandlerStore PanicInfo SyncRegistry.

Section Fuel.
Context {E O St : Type} `{HandlerStore (stored E O) St}.
Implicit Types (w : world E O St) (p : prog E O).

(** [r2] gives every result that [r1] gives. *)
Definition extends {A} (r1 r2 : A -> world E O St -> result (E := E) (O := O) (St := St)) : Prop :=
  forall a w x, r1 a w = Some x -> r2 a w = Some x.

Section Runs.
Context (run1 run2 : prog E O -> world E O St -> result (E := E) (O := O) (St := St)).
Hypothesis Hrun : extends run1 run2.

Lemma handle_panic_extends id pl w x :
  handle_panic run1 id pl w = Some x -> handle_panic run2 id pl w = Some x.
Proof.
  unfold handle_panic. cbn zeta. destruct (panic_callback _) as [cb|]; [|done].
  destruct (run1 _ _) as [[fl w1]|] eqn:Hr; [|done]. by rewrite (Hrun _ _ _ Hr).
Qed.

Lemma call_extends h e w x : call run1 h e w = Some x -> call run2 h e w = Some x.
Proof.
  destruct h as [h|slot id]; simpl; [apply Hrun|].
  destruct (once_slots w !! slot) as [[h|]|]; try done.
  destruct (run1 _ _) as [[fl w1]|] eqn:Hr; [|done]. by rewrite (Hrun _ _ _ Hr).
Qed.

Lemma dispatch_extends e l w x : dispatch run1 e l w = Some x -> dispatch run2 e l w = Some x.
Proof.
  revert w. induction l as [|en l IH]; intros w; [done|]. cbn [dispatch].
  destruct (call run1 _ _ _) as [[fl w1]|] eqn:Hc; [|done]. rewrite (call_extends _ _ _ _ Hc).
  destruct fl as [|pl|]; [apply IH| |done].
  destruct (handle_panic run1 _ _ _) as [[fl w2]|] eqn:Hh; [|done].
  rewrite (handle_panic_extends _ _ _ _ Hh). destruct fl; [apply IH|done..].
Qed.

Lemma notify_extends : extends (notify run1) (notify run2).
Proof.
  intros e w x. unfold notify. destruct (dispatch run1 _ _ _) as [[fl w1]|] eqn:Hd; [|done].
  by rewrite (dispatch_extends _ _ _ _ Hd).
Qed.
End Runs.

Lemma exec_prog_extends n1 n2 : extends n1 n2 -> extends (exec_prog n1) (exec_prog n2).
Proof.
  intros Hn p. induction p; intros w x; cbn [exec_prog]; try done; try (by apply H0);
    try (by apply IHp);
    try (match goal with |- context [let '(_, _) := ?c in _] => destruct c end; by apply H0).
  - match goal with |- context [let '(_, _) := ?c in _] => destruct c end. auto.
  - match goal with |- context [let '(_, _) := ?c in _] => destruct c end. auto.
  - destruct (n1 e w) as [[fl w1]|] eqn:Hr; [|done]. rewrite (Hn _ _ _ Hr).
    destruct fl; [by apply IHp|done..].
Qed.

Lemma exec_S fuel : extends (exec fuel) (exec (S fuel)).
Proof.
  induction fuel as [|fuel IH].
  - apply (exec_prog_extends (fun _ _ => None)). by intros ? ? ?.
  - apply (exec_prog_extends (notify (exec fuel))). by apply notify_extends.
Qed.

Lemma exec_mono fuel fuel' p w x :
  fuel <= fuel' -> exec fuel p w = Some x -> exec fuel' p w = Some x.
Proof. induction 1 as [|m _ IH]; [done|]. intros Hx. by apply exec_S, IH. Qed.
End Fuel.
