(* ===== verification/SyncTheorems.v ===== *)
(** The properties of [SyncRegistry] and [HandlerGuard] (src/src/sync/mod.rs,
    src/src/sync/guard.rs), for every program of handlers and callers. *)
From S2P Require Import Prelude HandlerId HandlerList HandlerStore PanicInfo SyncRegistry.
From S2P Require Import SyncProofs SyncPanics SyncRefine SyncWf SyncOnce SyncFuel.

Section Theorems.
Context {E O : Type}.
Abbreviation Vec := (list (HandlerEntry (stored E O))).
Abbreviation World := (world E O Vec).
Implicit Types (w : World) (p : prog E O).

(** (C8) Whatever a program does with a new registry, it behaves exactly as with a
    registry that keeps the log of its live registrations and, when it dispatches,
    sorts them by descending priority, ties in registration order: same outcome,
    same trace.  The [Vec] maintained by binary search and slice copies is that
    sorted log, without duplicate ids.  (As long as fewer than [2^64 - 1] ids have
    been issued.) *)
Theorem sync_refines_log fuel p fl w :
  exec fuel p world_new = Some (fl, w) -> no_wrap w ->
  exists v : world E O (log (stored E O)),
    exec fuel p world_new = Some (fl, v) /\ trace v = trace w /\
    dispatch_order (registrations (handlers (reg v))) (handlers (reg w)) /\
    NoDup (entry_id <$> handlers (reg w)) /\ panics (reg v) = panics (reg w).
Proof.
  intros Hw Hnw.
  destruct (exec_sim (S1 := Vec) fuel) as [_ Hsim].
  destruct (Hsim p _ _ related_new _ _ Hw Hnw) as (v & Hv & Hr). exists v.
  destruct (rel_store _ _ Hr) as [Hd Hnd]. split_and!; try done.
  - symmetry. apply Hr.
  - symmetry. apply Hr.
Qed.

(** (C11) Panics are isolated.  If dropping a panic payload never panics, [notify]
    never unwinds and never aborts, whatever handlers and callbacks do, and it calls
    every handler that was registered when it started exactly once, in the order
    of the list, also when some of them panic or change the registry meanwhile. *)
Theorem notify_isolates_panics fuel e w fl w' :
  world_ok quiet true w -> notify (exec fuel) e w = Some (fl, w') ->
  fl = Done /\ world_ok quiet true w' /\
  exists tr, trace w' = trace w ++ tr /\
    calls (S (depth w)) tr = entry_id <$> handlers (reg w).
Proof.
  intros Hw Hn. pose proof Hn as Hn'. unfold notify in Hn.
  destruct (dispatch _ _ _ _) as [[fl1 w1]|] eqn:Hd; [|done]. injection Hn as <- <-.
  assert (Forall (fun entry => stored_ok quiet true (handler entry)) (handlers (reg w))) as Hall
    by (apply Forall_forall; intros entry; apply (wo_handlers _ _ _ Hw)).
  assert (fl1 = Done) as ->.
  { eapply dispatch_done; [apply exec_quiet|exact Hall| |exact Hd]. by eapply world_ok_same. }
  split; [done|]. split.
  - eapply (notify_ok quiet true False quiet_drop) in Hn' as [_ Hok]; [done|apply exec_quiet|done].
  - apply dispatch_calls in Hd as [_ (tr & Ht & Hc)]; [|apply exec_appends]. by exists tr.
Qed.

(** [panic_count] counts the calls of [handle_panic] so far, modulo [2^64]. *)
Theorem panic_count_exact fuel p fl w :
  exec fuel p (world_new : World) = Some (fl, w) ->
  panic_count (reg w) = u64 (Z.of_nat (cnt is_panic (trace w))).
Proof. intros Hw. by apply (exec_stable (implies panics_exact) fuel panics_stable) in Hw; apply Hw. Qed.

(** A handler registered with [register_once] runs at most once, no matter how
    many dispatches reach it, also when they are nested inside the handler itself; and
    unless the process aborts (or ids wrap around) a once-handler that is still
    registered when the program is over has not run: it unregisters itself, also when
    it panics. *)
Theorem once_at_most_once fuel p fl w slot :
  exec fuel p (world_new : World) = Some (fl, w) ->
  cnt (is_once slot) (trace w) <= 1 /\
  (fl <> Aborted -> no_wrap w -> slot ∈ slots_of (handlers (reg w)) ->
   cnt (is_once slot) (trace w) = 0).
Proof.
  intros Hw. pose proof (exec_stable (implies once_ok) fuel once_stable _ _ _ _ Hw) as Hok.
  assert (once_ok (world_new : World)) as H0 by (by intros s).
  specialize (Hok H0 slot). split; [lia|]. intros Hfl Hnw Hin.
  pose proof (none_spent _ _ _ _ slot Hw Hfl Hnw) as Hns.
  unfold once_left in Hok. destruct (once_slots w !! slot) as [[h|]|] eqn:Hs; [lia|by destruct Hns|lia].
Qed.

(** (C30) Every program keeps the registry well-formed, from any well-formed state and
    however it ends: the list sorted by descending priority; generator, ids and panic
    counter within 64 bits; each once-closure paired with the entry it removes and with a
    mutex of its own; and, as long as the id counter has not wrapped, every registered id
    below the generator's next one and no two handlers with the same id. *)
Theorem sync_wf_preserved fuel p w fl w' :
  exec fuel p w = Some (fl, w') -> sync_wf (E := E) (O := O) w -> sync_wf w'.
Proof. apply (exec_stable _ fuel sync_wf_stable). Qed.

(** How much nesting [exec] has to allow: a program over a new registry whose handlers and
    panic callbacks do not dispatch needs depth one, and more depth changes nothing. *)
Lemma flat_depth_one p :
  ok (fun _ => True) false true p ->
  exists fl w, forall fuel, exec (S fuel) p (world_new : World) = Some (fl, w).
Proof.
  intros Hok. destruct (exec_total p world_new Hok) as [[fl w] Hw].
  - split; simpl; [by intros ? ?%elem_of_nil|by intros ? ? ?|done].
  - exists fl, w. intros fuel. eapply exec_mono; [|done]. lia.
Qed.

(** ** Removal *)

(** [unregister] says whether the handler was registered, removes that handler
    and no other, keeps the order of the rest, and leaves the rest of the registry
    alone. *)
Theorem unregister_spec id (r : SyncRegistry E O Vec) :
  NoDup (entry_id <$> handlers r) ->
  (unregister id r).1 = contains id r /\
  handlers (unregister id r).2 = filter (fun e => entry_id e <> id) (handlers r) /\
  contains id (unregister id r).2 = false /\
  panics (unregister id r).2 = panics r /\
  panic_callback (unregister id r).2 = panic_callback r /\
  id_generator (unregister id r).2 = id_generator r.
Proof.
  intros Hnd. destruct (decide (id ∈ entry_id <$> handlers r)) as [Hin|Hin].
  - rewrite (unregister_found _ _ Hnd Hin). simpl. split_and!; try done.
    + symmetry. by apply contains_spec.
    + apply not_true_iff_false. rewrite contains_spec, list_elem_of_fmap.
      by intros (e & -> & [Hne _]%list_elem_of_filter).
  - rewrite (unregister_missing _ _ Hin), filter_absent by done. simpl.
    assert (contains id r = false) by (apply not_true_iff_false; by rewrite contains_spec).
    by split_and!.
Qed.

(** Dropping a guard unregisters its handler and nothing else, provided the
    registry still exists; after [forget], or when the registry is gone, it does
    nothing. *)
Theorem guard_drop_spec g w :
  NoDup (entry_id <$> handlers (reg w)) ->
  handlers (reg (HandlerGuard_drop g w)) =
    (if guard_registry g && alive w then filter (fun e => entry_id e <> guard_id g) (handlers (reg w))
     else handlers (reg w)) /\
  HandlerGuard_drop (HandlerGuard_forget g) w = w /\
  HandlerGuard_drop g (drop_registry w) = drop_registry w.
Proof.
  intros Hnd. unfold HandlerGuard_drop, unregister_if_alive. simpl. split_and!.
  - destruct (guard_registry g && alive w); [|done]. rewrite do_unregister_world. simpl.
    change (remove_id (guard_id g) (reg w)) with (unregister (guard_id g) (reg w)).
    destruct (decide (guard_id g ∈ entry_id <$> handlers (reg w))) as [Hin|Hin].
    + by rewrite unregister_found.
    + by rewrite unregister_missing, filter_absent.
  - done.
  - by rewrite andb_false_r.
Qed.

(** ** Where a dispatch does not do what its caller may expect *)

(** (C37) [handle_panic] drops the payload outside any unwind boundary.  Whenever a dispatch
    has got past the handlers [l1] and the next one panics with a payload whose destructor
    panics, with [q], then [notify] does not return: it unwinds with [q], or, which takes a
    panic callback, the process aborts; and of the handlers that were registered when it
    started exactly [l1] and the panicking one have been called. *)
Theorem payload_drop_escapes fuel e w l1 en l2 w1 pl w2 q fl w' :
  handlers (reg w) = l1 ++ en :: l2 ->
  dispatch (exec fuel) e l1 (set_depth (S (depth w)) w) = Some (Done, w1) ->
  call (exec fuel) (handler en) e (log_ev (TCall (depth w1) (entry_id en)) w1) = Some (Panicked pl, w2) ->
  drop_payload pl = Some q -> notify (exec fuel) e w = Some (fl, w') ->
  (fl = Panicked q \/ (fl = Aborted /\ panic_callback (reg w2) <> None)) /\
  exists tr, trace w' = trace w ++ tr /\ calls (S (depth w)) tr = entry_id <$> l1 ++ [en].
Proof.
  intros Hl Hd1 Hc Hq. unfold notify. cbn [store_list vec_store]. rewrite Hl, (dispatch_app _ _ _ _ _ _ Hd1).
  cbn [dispatch]. rewrite Hc. destruct (handle_panic _ _ _ _) as [[fl' w3]|] eqn:Hh; [|done].
  pose proof (handle_panic_stable (appends 1) _ _ _ _ _ _ (appends_body 1) (exec_appends fuel) Hh) as H3.
  apply (call_stable (appends 1)) in Hc; [|apply appends_body|apply exec_appends].
  apply (handle_panic_escapes _ _ _ _ _ _ _ Hq) in Hh.
  destruct (dispatch_calls _ _ _ _ _ (exec_appends fuel) Hd1) as [Hd (tr1 & Ht1 & Hc1)].
  destruct (appends_trans _ _ _ _ Hc H3) as [_ (tr2 & Ht2 & Ha2)]. simpl in *.
  intros Hn. assert (fl' = fl /\ w' = set_depth (depth w3 - 1) w3) as [-> ->]
    by (destruct Hh as [->|[-> _]]; by simplify_eq).
  split; [done|]. exists (tr1 ++ [TCall (depth w1) (entry_id en)] ++ tr2).
  simpl. rewrite Ht2, Ht1, <- !app_assoc. split; [done|].
  change (TCall (depth w1) (entry_id en) :: tr2) with ([TCall (depth w1) (entry_id en)] ++ tr2).
  rewrite !calls_app, fmap_app, Hc1, (calls_deeper _ tr2), app_nil_r by (by rewrite <- Hd).
  unfold calls. simpl. by rewrite decide_True.
Qed.

End Theorems.

(** ** Examples *)

Section Examples.

(** Three handlers of mixed priority, the middle one panicking; a callback that
    panics too; then a second dispatch after one is unregistered. *)
Definition say (n : nat) : nat -> prog nat nat := fun e => Emit (n + e) Ret.
Definition boom : nat -> prog nat nat := fun e => Emit 99 (Panic (PStr "boom")).

Definition demo : prog nat nat :=
  OnPanic (fun i => Emit 7 (Panic (PString "callback"))) (
  Register 0 (say 10) (fun a =>
  Register 5 boom (fun b =>
  Register 5 (say 20) (fun c =>
  RegisterOnce (fun e => Notify e (Emit 50 Ret)) (fun d =>
  Notify 1 (
  Unregister b (fun _ =>
  Notify 2 Ret))))))).

Definition demo_world : world nat nat (list (HandlerEntry (stored nat nat))) :=
  match exec 3 demo world_new with Some (_, w) => w | None => world_new end.

(** The observable effects, in order. *)
Definition emitted (w : world nat nat (list (HandlerEntry (stored nat nat)))) : list nat :=
  omap (fun ev => match ev with TEmit o => Some o | _ => None end) (trace w).

Lemma demo_runs : exec 3 demo world_new = Some (Done, demo_world).
Proof. by vm_compute. Qed.

Lemma sync_refines_log_witness :
  emitted demo_world = [99; 7; 21; 11; 99; 7; 21; 11; 50; 22; 12] /\
  exists v : world nat nat (log (stored nat nat)),
    exec 3 demo world_new = Some (Done, v) /\ trace v = trace demo_world /\
    dispatch_order (registrations (handlers (reg v))) (handlers (reg demo_world)) /\
    NoDup (entry_id <$> handlers (reg demo_world)) /\ panics (reg v) = panics (reg demo_world).
Proof.
  split; [by vm_compute|].
  apply (sync_refines_log 3 demo Done demo_world); [apply demo_runs|by vm_compute].
Defined.

Lemma demo_quiet : world_ok quiet true demo_world.
Proof.
  apply (exec_quiet 3 demo world_new Done demo_world); [|split|apply demo_runs].
  - repeat (intros; split); done.
  - by intros ? ?%elem_of_nil.
  - by intros ? ?.
  - done.
Qed.

Lemma notify_isolates_panics_witness :
  exists w', notify (exec 2) 5 demo_world = Some (Done, w') /\ Done = Done /\ world_ok quiet true w' /\
  exists tr, trace w' = trace demo_world ++ tr /\
    calls (S (depth demo_world)) tr = entry_id <$> handlers (reg demo_world).
Proof.
  destruct (notify (exec 2) 5 demo_world) as [[fl w']|] eqn:Hn; [|by vm_compute in Hn].
  assert (fl = Done) as -> by (vm_compute in Hn; by simplify_eq).
  exists w'. split; [done|].
  exact (notify_isolates_panics 2 5 demo_world Done w' demo_quiet Hn).
Defined.

Lemma panic_count_exact_witness :
  panic_count (reg demo_world) = u64 (Z.of_nat (cnt is_panic (trace demo_world))) /\
  panic_count (reg demo_world) = 2%Z.
Proof.
  split; [|by vm_compute]. exact (panic_count_exact 3 demo Done demo_world demo_runs).
Defined.

(** A once-handler that has run and another that has not. *)
Definition once_demo : prog nat nat :=
  RegisterOnce (fun e => Notify e (Panic (PStr "once"))) (fun _ =>
  Notify 1 (RegisterOnce (say 1) (fun _ => Ret))).

Definition once_world : world nat nat (list (HandlerEntry (stored nat nat))) :=
  match exec 3 once_demo world_new with Some (_, w) => w | None => world_new end.

Lemma once_runs : exec 3 once_demo world_new = Some (Done, once_world).
Proof. by vm_compute. Qed.

Lemma once_at_most_once_witness :
  cnt (is_once 0) (trace once_world) = 1 /\ cnt (is_once 0) (trace once_world) <= 1 /\
  slots_of (handlers (reg once_world)) = [1] /\ cnt (is_once 1) (trace once_world) = 0.
Proof.
  destruct (once_at_most_once 3 once_demo Done once_world 0 once_runs) as [H0 _].
  destruct (once_at_most_once 3 once_demo Done once_world 1 once_runs) as [_ H1].
  split; [by vm_compute|]. split; [exact H0|]. split; [by vm_compute|].
  apply H1; [done|by vm_compute|apply (bool_decide_unpack _); by vm_compute].
Defined.

Lemma sync_wf_preserved_witness :
  sync_wf once_world /\ length (handlers (reg once_world)) = 1 /\ panics (reg once_world) = 1%Z.
Proof.
  split; [|split; by vm_compute].
  exact (sync_wf_preserved 3 once_demo world_new Done once_world once_runs sync_wf_new).
Defined.

Lemma demo_nodup : NoDup (entry_id <$> handlers (reg demo_world)).
Proof. apply (bool_decide_unpack _). by vm_compute. Qed.

Lemma unregister_spec_witness :
  (unregister (from_raw 3) (reg demo_world)).1 = contains (from_raw 3) (reg demo_world) /\
  handlers (unregister (from_raw 3) (reg demo_world)).2 =
    filter (fun e => entry_id e <> from_raw 3) (handlers (reg demo_world)) /\
  contains (from_raw 3) (unregister (from_raw 3) (reg demo_world)).2 = false /\
  panics (unregister (from_raw 3) (reg demo_world)).2 = panics (reg demo_world) /\
  panic_callback (unregister (from_raw 3) (reg demo_world)).2 = panic_callback (reg demo_world) /\
  id_generator (unregister (from_raw 3) (reg demo_world)).2 = id_generator (reg demo_world).
Proof. exact (unregister_spec (from_raw 3) (reg demo_world) demo_nodup). Defined.

Lemma guard_drop_spec_witness :
  handlers (reg (HandlerGuard_drop (HandlerGuard_new (from_raw 1)) demo_world)) =
    filter (fun e => entry_id e <> from_raw 1) (handlers (reg demo_world)) /\
  length (handlers (reg demo_world)) = 2.
Proof.
  split; [|by vm_compute].
  destruct (guard_drop_spec (HandlerGuard_new (from_raw 1)) demo_world demo_nodup) as [Hg _].
  exact Hg.
Defined.

(** Three handlers; the second one's panic payload panics when dropped. *)
Definition bad_drop : prog nat nat :=
  Register 2 (say 1) (fun _ => Register 1 (fun _ => Panic (POther 0 (Some (PStr "drop")))) (fun _ =>
  Register 0 (say 2) (fun _ => Ret))).

Abbreviation NatWorld := (world nat nat (list (HandlerEntry (stored nat nat)))).

Definition world_after (r : option (flow * NatWorld)) : NatWorld :=
  match r with Some (_, w) => w | None => world_new end.

Definition bad_world : NatWorld := world_after (exec 0 bad_drop world_new).
Definition bad_first : NatWorld :=
  world_after (dispatch (exec 0) 5 (take 1 (handlers (reg bad_world))) (set_depth 1 bad_world)).
Definition bad_second : NatWorld :=
  world_after (exec 0 (Panic (POther 0 (Some (PStr "drop")))) (log_ev (TCall 1 (from_raw 2)) bad_first)).

Lemma payload_drop_escapes_witness :
  exists w', notify (exec 0) 5 bad_world = Some (Panicked (PStr "drop"), w') /\
    exists tr, trace w' = trace bad_world ++ tr /\ calls 1 tr = [from_raw 1; from_raw 2].
Proof.
  destruct (notify (exec 0) 5 bad_world) as [[fl w']|] eqn:Hn; [|by vm_compute in Hn].
  destruct (payload_drop_escapes 0 5 bad_world (take 1 (handlers (reg bad_world)))
    (Entry (from_raw 2) 1 (SPlain (fun _ => Panic (POther 0 (Some (PStr "drop"))))))
    (drop 2 (handlers (reg bad_world))) bad_first (POther 0 (Some (PStr "drop"))) bad_second
    (PStr "drop") fl w') as [Hfl Hc]; [by vm_compute..|exact Hn|].
  exists w'. destruct Hfl as [->|[_ []]]; [done|by vm_compute].
Defined.


End Examples.

