(* ===== verification/SyncThreads.v ===== *)
(** [SyncRegistry] used by several threads: src/src/sync/mod.rs.

    Each thread runs user code ([prog]) with dispatches in progress on its stack.  Threads
    interleave between any two accesses to shared state: an id is issued and its entry
    inserted in two steps, a dispatch reads the list in one step and calls each handler in
    another, a panic is counted and the callback read in two steps.  An access to the list
    is atomic, and a wait may return only when no other thread dispatches over a list older
    than the wait: CellTheorems shows that the code over its SnapCell refines this. *)
From S2P Require Import Prelude HandlerId HandlerList HandlerStore PanicInfo SyncRegistry.

Section Machine.
Context {E O : Type}.
Abbreviation Vec := (list (HandlerEntry (stored E O))).
Abbreviation World := (world E O Vec).
Abbreviation tid := nat.
Implicit Types (w : World) (p k : prog E O) (fl : flow).

(** ** Threads *)

(** What a thread is in the middle of.  [FRun]: user code, about to do [p].  [FInsert]:
    [register_with_priority] or [register_once] after [id_generator.next()].  [FWait]:
    [wait_for_retired_readers], entered when [since] lists had been published, by a caller
    that is inside a fallback read or not.  [FDispatch]: the loop of [notify] number [n] over
    the list published as number [v], with [rest] still to call; [fallback] if the read found
    no hazard slot.  [FHandler]: a handler call inside [catch_unwind], with the id
    [RemoveOnDrop] holds for a once-handler.  [FCount], [FReport], [FCallback]:
    [handle_panic] before [fetch_add], before it reads the callback, and in the callback. *)
Inductive frame :=
  | FRun p
  | FInsert (entry : HandlerEntry (stored E O)) k
  | FWait (since : nat) (on_fallback : bool) k
  | FDispatch (n v : nat) (fallback : bool) (e : E) (rest : Vec) k
  | FHandler (id : HandlerId) (once : option HandlerId)
  | FCount (id : HandlerId) (pl : payload)
  | FReport (id : HandlerId) (pl : payload)
  | FCallback (pl : payload).

Implicit Types (f : frame) (st : list frame).

Inductive thread := Running st | Ended fl.

(** ** Accesses to shared state *)

(** [ASnap] is the read of the list by [notify]; [ACall] the call of a handler by dispatch
    [n], nested [d] deep, which for a once-handler empties the mutex [take]. *)
Inductive action :=
  | ASkip
  | ALog (ev : tev O)
  | AIssue
  | AIssueOnce (h : E -> prog E O)
  | AInsert (entry : HandlerEntry (stored E O))
  | ARemove (id : HandlerId)
  | AClear
  | AOnPanic (cb : PanicInfo -> prog E O)
  | AClearCallback
  | ASnap
  | ACall (n d : nat) (id : HandlerId) (take : option nat)
  | ACount (id : HandlerId) (pl : payload).

Definition apply_action (a : action) w : World :=
  match a with
  | ASkip | ASnap => w
  | ALog ev => log_ev ev w
  | AIssue => let '(id, r) := issue_id (reg w) in log_ev (TIssue id) (set_reg r w)
  | AIssueOnce h =>
      let '(id, r) := issue_id (reg w) in
      log_ev (TIssue id) (set_reg r (set_slots (once_slots w ++ [Some h]) w))
  | AInsert entry => set_reg (insert entry (reg w)) w
  | ARemove id => (do_unregister id w).2
  | AClear => set_reg (clear (reg w)) w
  | AOnPanic cb => set_reg (on_panic cb (reg w)) w
  | AClearCallback => set_reg (clear_panic_callback (reg w)) w
  | ACall _ d id take =>
      let w := log_ev (TCall d id) w in
      match take with
      | None => w
      | Some slot => log_ev (TOnce slot) (set_slots (<[slot := None]> (once_slots w)) w)
      end
  | ACount id pl => log_ev (TPanic id pl) (set_reg (count_panic (reg w)) w)
  end.

(** Whether the access installs a new list. *)
Definition publishes (a : action) w : bool :=
  match a with
  | AInsert _ => true
  | ARemove id => contains id (reg w)
  | AClear => negb (is_empty (reg w))
  | _ => false
  end.

(** ** One step of a thread *)

Inductive next := Goto st | End fl | Abort.

(** The dispatches in progress on a stack, and whether one is on the fallback path. *)
Definition is_dispatch f : bool := match f with FDispatch _ _ _ _ _ _ => true | _ => false end.
Definition level st : nat := cnt is_dispatch st.
Definition on_fallback st : bool :=
  existsb (fun f => match f with FDispatch _ _ fb _ _ _ => fb | _ => false end) st.

(** A guard or [RemoveOnDrop] goes away: [Weak::upgrade], then [unregister]. *)
Definition remove_if (live : bool) (id : HandlerId) w : action :=
  if live && alive w then ARemove id else ASkip.

(** User code above [st] has ended. *)
Definition resume w fl st : option (action * next) :=
  match st with
  | [] => Some (ASkip, End fl)
  | FHandler id once :: st =>
      Some (match once with Some oid => remove_if true oid w | None => ASkip end,
            match fl with
            | Done => Goto st
            | Panicked pl => Goto (FCount id pl :: st)
            | Aborted => Abort
            end)
  | FCallback pl :: FDispatch n v fb e rest k :: st =>
      Some (ASkip,
            match drop_both (match fl with Panicked q => Some q | _ => None end) pl with
            | Done => Goto (FDispatch n v fb e rest k :: st)
            | Panicked r => Goto (FRun (Panic r) :: st)
            | Aborted => Abort
            end)
  | _ => None
  end.

(** User code: one method call.  [b] is what the environment decides: for [notify], whether
    [protect] finds no free slot; for a wait, whether the caller is inside a fallback read of
    another cell.  [version] numbers the current list, [n] the next dispatch. *)
Definition step_prog (b : bool) (version n : nat) p st w : option (action * next) :=
  let go a k := Some (a, Goto (FRun k :: st)) in
  match p with
  | Ret => resume w Done st
  | Panic pl => resume w (Panicked pl) st
  | Emit o k => go (ALog (TEmit o)) k
  | Register priority h k =>
      let id := (issue_id (reg w)).1 in
      Some (AIssue, Goto (FInsert (Entry id priority (SPlain h)) (k id) :: st))
  | RegisterOnce h k =>
      let id := (issue_id (reg w)).1 in
      Some (AIssueOnce h, Goto (FInsert (Entry id 0 (SOnce (length (once_slots w)) id)) (k id) :: st))
  | Unregister id k => go (ARemove id) (k (contains id (reg w)))
  | UnregisterAndWait id k =>
      Some (ARemove id,
            Goto ((if contains id (reg w) then FWait (S version) (b || on_fallback st) (k true)
                   else FRun (k false)) :: st))
  | Clear k => go AClear k
  | ClearAndWait k =>
      Some (AClear,
            Goto ((if is_empty (reg w) then FRun k
                   else FWait (S version) (b || on_fallback st) k) :: st))
  | Contains id k => go ASkip (k (contains id (reg w)))
  | HandlerCount k => go ASkip (k (handler_count (reg w)))
  | IsEmpty k => go ASkip (k (is_empty (reg w)))
  | PanicCount k => go ASkip (k (panic_count (reg w)))
  | OnPanic cb k => go (AOnPanic cb) k
  | ClearPanicCallback k => go AClearCallback k
  | Notify e k => Some (ASnap, Goto (FDispatch n version b e (handlers (reg w)) k :: st))
  | DropGuard g k => go (remove_if (guard_registry g) (guard_id g) w) k
  | Observe k => go ASkip (k (emits (trace w)))
  end.

(** The loop of [notify]: the next handler, or the end. *)
Definition step_dispatch n v fb e (l : Vec) k st w : option (action * next) :=
  match l with
  | [] => Some (ASkip, Goto (FRun k :: st))
  | entry :: l =>
      let d := S (level st) in
      let back := FDispatch n v fb e l k :: st in
      match handler entry with
      | SPlain h =>
          Some (ACall n d (entry_id entry) None, Goto (FRun (h e) :: FHandler (entry_id entry) None :: back))
      | SOnce slot id =>
          match once_slots w !! slot with
          | Some (Some h) =>
              Some (ACall n d (entry_id entry) (Some slot),
                    Goto (FRun (h e) :: FHandler (entry_id entry) (Some id) :: back))
          | _ => Some (ACall n d (entry_id entry) None, Goto back)
          end
      end
  end.

(** [quiet since cof]: a wait may return. *)
Definition local_step (quiet : nat -> bool -> bool) (b : bool) (version n : nat) st w
    : option (action * next) :=
  match st with
  | FRun p :: st => step_prog b version n p st w
  | FInsert entry k :: st => Some (AInsert entry, Goto (FRun k :: st))
  | FWait since cof k :: st =>
      if quiet since cof then Some (ALog TWait, Goto (FRun k :: st)) else None
  | FDispatch n v fb e l k :: st => step_dispatch n v fb e l k st w
  | FCount id pl :: st => Some (ACount id pl, Goto (FReport id pl :: st))
  | FReport id pl :: st =>
      match panic_callback (reg w) with
      | None => resume w Done (FCallback pl :: st)
      | Some holder =>
          let info := PanicInfo_new id pl in
          Some (ALog (TReport info), Goto (FRun (invoke holder info) :: FCallback pl :: st))
      end
  | _ => None
  end.

(** ** The machine *)

(** The shared state, and for stating properties: the lists published so far, the
    dispatches with their threads and the ids they read, the calls by thread and dispatch. *)
Record machine := Machine {
  mw : World;
  lists : list Vec;
  snaps : list (tid * list HandlerId);
  called : list (tid * nat * HandlerId);
  threads : gmap tid thread;
  halted : bool;
}.
Implicit Types (m : machine).

Definition version m : nat := length (lists m) - 1.

(** No dispatch of the stack is one the wait is for. *)
Definition no_older (since : nat) (cof : bool) st : bool :=
  forallb (fun f => match f with
                    | FDispatch _ v fb _ _ _ => (fb && cof) || bool_decide (since <= v)
                    | _ => true
                    end) st.

Definition stack_of (th : thread) : list frame := match th with Running st => st | Ended _ => [] end.

(** When a wait by [t] may return. *)
Definition may_return m (t : tid) (since : nat) (cof : bool) : bool :=
  forallb (fun x => bool_decide (x.1 = t) || no_older since cof (stack_of x.2))
    (map_to_list (threads m)).

Definition set_threads (ths : gmap tid thread) m : machine :=
  Machine (mw m) (lists m) (snaps m) (called m) ths (halted m).

Definition perform (t : tid) (a : action) m : machine :=
  let w := apply_action a (mw m) in
  Machine w
    (if publishes a (mw m) then lists m ++ [handlers (reg w)] else lists m)
    (match a with ASnap => snaps m ++ [(t, entry_id <$> handlers (reg w))] | _ => snaps m end)
    (match a with ACall n _ id _ => called m ++ [(t, n, id)] | _ => called m end)
    (threads m) (halted m).

Definition move (t : tid) (nx : next) m : machine :=
  match nx with
  | Goto st => set_threads (<[t := Running st]> (threads m)) m
  | End fl => set_threads (<[t := Ended fl]> (threads m)) m
  | Abort => Machine (mw m) (lists m) (snaps m) (called m) (threads m) true
  end.

Definition step (t : tid) (b : bool) m : option machine :=
  if halted m then None else
  match threads m !! t with
  | Some (Running st) =>
      '(a, nx) ← local_step (may_return m t) b (version m) (length (snaps m)) st (mw m);
      Some (move t nx (perform t a m))
  | _ => None
  end.

Fixpoint run (l : list (tid * bool)) m : option machine :=
  match l with
  | [] => Some m
  | (t, b) :: l => m ← step t b m; run l m
  end.

(** Threads that are about to run their programs, on a world without lists in use. *)
Definition start w (ps : gmap tid (prog E O)) : machine :=
  Machine w [handlers (reg w)] [] [] ((fun p => Running [FRun p]) <$> ps) false.

Inductive reachable (ps : gmap tid (prog E O)) : machine -> Prop :=
  | reach_start : reachable ps (start world_new ps)
  | reach_step t b m m' : reachable ps m -> step t b m = Some m' -> reachable ps m'.

Lemma sched_app l1 l2 m : run (l1 ++ l2) m = run l1 m ≫= run l2.
Proof.
  revert m. induction l1 as [|[t b] l1 IH]; intros m; [done|]. simpl.
  destruct (step t b m); [apply IH|done].
Qed.

Lemma threads_run ps l m m' : reachable ps m -> run l m = Some m' -> reachable ps m'.
Proof.
  revert m. induction l as [|[t b] l IH]; intros m Hm; simpl; [by intros [= <-]|].
  destruct (step t b m) as [m1|] eqn:Hs; [|done]. apply IH. by econstructor.
Qed.

Lemma step_Some t b m m' :
  step t b m = Some m' -> exists st a nx, halted m = false /\ threads m !! t = Some (Running st) /\
    local_step (may_return m t) b (version m) (length (snaps m)) st (mw m) = Some (a, nx) /\
    m' = move t nx (perform t a m).
Proof.
  unfold step. destruct (halted m); [done|].
  destruct (threads m !! t) as [[st|]|]; try done.
  intros ([a nx] & Hl & [= <-])%bind_Some. eauto 7.
Qed.
End Machine.
Arguments frame : clear implicits.
Arguments thread : clear implicits.
Arguments action : clear implicits.
Arguments next : clear implicits.
Arguments machine : clear implicits.
