(* ===== verification/SyncThreadsExec.v ===== *)
(** One thread alone: what [exec] says of a program (SyncRegistry) is what the machine of
    SyncThreads does, step by step, when no other thread interferes. *)
From S2P Require Import Prelude HandlerId HandlerList HandlerStore PanicInfo SyncRegistry SyncWf SyncThreads.

Section Alone.
Context {E O : Type}.
Abbreviation Vec := (list (HandlerEntry (stored E O))).
Abbreviation World := (world E O Vec).
Implicit Types (w : World) (p k : prog E O) (m : machine E O) (st : list (frame E O)).
Context (t : nat).

(** No other thread is dispatching. *)
Definition others_idle m : Prop :=
  forall u th, threads m !! u = Some th -> u <> t -> level (stack_of th) = 0.

(** Thread [t] is at [st] in the world [w]; the machine does not use the field [depth]. *)
Record at_ st w m : Prop := {
  at_running : halted m = false;
  at_stack : threads m !! t = Some (Running st);
  at_world : mw m = set_depth 0 w;
  at_depth : depth w = level st;
  at_others : others_idle m;
}.

(** [t] alone gets from [m] to a machine in [Q]. *)
Definition gets m (Q : machine E O -> Prop) : Prop :=
  exists l m', Forall (fun x => x.1 = t) l /\ run l m = Some m' /\ Q m'.

Lemma gets_now m (Q : machine E O -> Prop) : Q m -> gets m Q.
Proof. by exists [], m. Qed.

Lemma gets_trans m (P Q : machine E O -> Prop) :
  gets m P -> (forall m', P m' -> gets m' Q) -> gets m Q.
Proof.
  intros (l1 & m1 & Hl1 & Hr1 & HP) Hk. destruct (Hk _ HP) as (l2 & m2 & Hl2 & Hr2 & HQ).
  exists (l1 ++ l2), m2. split; [by apply Forall_app|]. split; [|done]. by rewrite sched_app, Hr1.
Qed.

Lemma idle_stack since cof st : level st = 0 -> no_older since cof st = true.
Proof.
  unfold level, no_older. induction st as [|f st IH]; [done|]. simpl. intros Hl.
  rewrite IH by lia. by destruct f.
Qed.

Lemma idle_may_return m since cof : others_idle m -> may_return m t since cof = true.
Proof.
  intros Hi. apply forallb_forall. intros [u th] Hin%list_elem_of_In%elem_of_map_to_list. simpl.
  destruct (decide (u = t)) as [->|Hu]; [by rewrite bool_decide_eq_true_2|].
  rewrite (idle_stack _ _ _ (Hi _ _ Hin Hu)). apply orb_true_r.
Qed.

(** A step to another stack. *)
Lemma solo_gets st w m a st' w' Q :
  at_ st w m ->
  local_step (may_return m t) false (version m) (length (snaps m)) st (mw m) = Some (a, Goto st') ->
  apply_action a (set_depth 0 w) = set_depth 0 w' -> depth w' = level st' ->
  (forall m', at_ st' w' m' -> gets m' Q) -> gets m Q.
Proof.
  intros [H1 H2 H3 H4 H5] Hl Ha Hd Hk.
  set (m1 := move t (Goto st') (perform t a m)).
  destruct (Hk m1) as (l & m' & Hall & Hrun & HQ).
  - split; try done; simpl.
    + by rewrite lookup_insert_eq.
    + by rewrite H3.
    + intros u th Hu Hne. simpl in Hu. rewrite lookup_insert_ne in Hu by done. by apply (H5 u).
  - exists ((t, false) :: l), m'. split; [by constructor|]. split; [|done].
    simpl. unfold step. rewrite H1, H2, Hl. exact Hrun.
Qed.

(** A step that aborts the process. *)
Lemma gets_abort st w m a (Q : machine E O -> Prop) :
  at_ st w m ->
  local_step (may_return m t) false (version m) (length (snaps m)) st (mw m) = Some (a, Abort) ->
  (forall m', halted m' = true -> mw m' = apply_action a (set_depth 0 w) -> Q m') -> gets m Q.
Proof.
  intros [H1 H2 H3 H4 H5] Hl HQ. exists [(t, false)], (move t Abort (perform t a m)).
  split; [by repeat constructor|]. split; [simpl; unfold step; by rewrite H1, H2, Hl|].
  apply HQ; [done|]. simpl. by rewrite H3.
Qed.

(** Code that ran on top of [st] has ended. *)
Definition ended st (fl : flow) w m : Prop :=
  match fl with
  | Done => at_ (FRun Ret :: st) w m
  | Panicked pl => at_ (FRun (Panic pl) :: st) w m
  | Aborted => halted m = true /\ mw m = set_depth 0 w
  end.

(** The machine does what [run] does. *)
Definition simulates (run : prog E O -> World -> result) : Prop :=
  forall p w fl w' st m, run p w = Some (fl, w') -> at_ (FRun p :: st) w m -> gets m (ended st fl w').

(** The same for dispatches, which go on with [k]. *)
Definition simulates_notify (nested : E -> World -> result) : Prop :=
  forall e k w fl w' st m, nested e w = Some (fl, w') -> at_ (FRun (Notify e k) :: st) w m ->
    gets m (match fl with Done => at_ (FRun k :: st) w' | _ => ended st fl w' end).

Lemma contains_removed id (r : SyncRegistry E O Vec) : (remove_id id r).1 = contains id r.
Proof.
  unfold remove_id. simpl. destruct (contains id r) eqn:Hc.
  - apply contains_spec in Hc. destruct (remove_id_list id (handlers r)) as [l|] eqn:Hr; [done|].
    by apply remove_id_list_None in Hr.
  - destruct (remove_id_list id (handlers r)) as [l|] eqn:Hr; [|done].
    assert (id ∉ entry_id <$> handlers r) as Hn by (rewrite <- contains_spec; congruence).
    apply remove_id_list_None in Hn. congruence.
Qed.

Lemma cleared (r : SyncRegistry E O Vec) : (remove_all r).1 = negb (is_empty r).
Proof. unfold remove_all, is_empty. simpl. by destruct (handlers r). Qed.

Lemma remove_if_action b id w :
  apply_action (remove_if b id (set_depth 0 w)) (set_depth 0 w) =
  set_depth 0 (unregister_if_alive b id w).
Proof.
  unfold remove_if, unregister_if_alive. simpl. destruct (b && alive w); [|done]. simpl.
  unfold do_unregister. simpl. by destruct (unregister id (reg w)).
Qed.

Lemma unregister_depth b id w : depth (unregister_if_alive b id w) = depth w.
Proof.
  unfold unregister_if_alive. destruct (b && alive w); [|done].
  unfold do_unregister. by destruct (unregister id (reg w)).
Qed.

(** One method call of a program. *)
Ltac method Hat IH Hr :=
  refine (solo_gets _ _ _ _ _ _ _ Hat _ _ _ (fun m1 => IH _ _ _ _ m1 Hr));
  [rewrite (at_world _ _ _ Hat); reflexivity|try reflexivity|try exact (at_depth _ _ _ Hat)].

Ltac method1 Hat IH Hr :=
  refine (solo_gets _ _ _ _ _ _ _ Hat _ _ _ (fun m1 => IH _ _ _ _ _ m1 Hr));
  [rewrite (at_world _ _ _ Hat); reflexivity|try reflexivity|try exact (at_depth _ _ _ Hat)].

Lemma register_threads p_k (h : stored E O) (prio : Z) slots w st m a Q :
  at_ (FRun p_k :: st) w m ->
  forall id (k : HandlerId -> prog E O), id = (issue_id (reg w)).1 ->
  local_step (may_return m t) false (version m) (length (snaps m)) (FRun p_k :: st) (mw m) =
    Some (a, Goto (FInsert (Entry id prio h) (k id) :: st)) ->
  apply_action a (set_depth 0 w) =
    set_depth 0 (log_ev (TIssue id) (set_reg (issue_id (reg w)).2 (set_slots slots w))) ->
  (forall m', at_ (FRun (k id) :: st) (log_ev (TIssue id) (set_reg (insert (Entry id prio h)
     (issue_id (reg w)).2) (set_slots slots w))) m' -> gets m' Q) ->
  gets m Q.
Proof.
  intros Hat id k Hid Hl Ha Hk.
  eapply solo_gets; [exact Hat|exact Hl|exact Ha|exact (at_depth _ _ _ Hat)|]. intros m1 Hm1.
  refine (solo_gets _ _ _ _ _ _ _ Hm1 _ _ _ Hk);
    [by rewrite (at_world _ _ _ Hm1)|reflexivity|exact (at_depth _ _ _ Hat)].
Qed.

(** A wait returns at once. *)
Lemma wait_sim since cof k w st m Q :
  at_ (FWait since cof k :: st) w m ->
  (forall m', at_ (FRun k :: st) (log_ev TWait w) m' -> gets m' Q) -> gets m Q.
Proof.
  intros Hat Hk. refine (solo_gets _ _ _ (ALog TWait) _ _ _ Hat _ _ _ Hk);
    [|reflexivity|exact (at_depth _ _ _ Hat)].
  simpl. by rewrite (idle_may_return _ _ _ (at_others _ _ _ Hat)).
Qed.

Lemma exec_prog_threads nested : simulates_notify nested -> simulates (exec_prog nested).
Proof.
  intros Hn p. induction p as [|pl|o k IH|prio h _ k IH|h _ k IH|id k IH|id k IH|k IH|k IH|id k IH
    |k IH|k IH|k IH|cb _ k IH|k IH|e k IH|g k IH|k IH]; intros w fl w' st m Hr Hat;
    cbn [exec_prog] in Hr.
  - injection Hr as <- <-. by apply gets_now.
  - injection Hr as <- <-. by apply gets_now.
  - method Hat IH Hr.
  - refine (register_threads _ (SPlain h) prio (once_slots w) w st m AIssue _ Hat _ k eq_refl _ _
      (fun m1 => IH _ _ _ _ _ m1 Hr)); [by rewrite (at_world _ _ _ Hat)|reflexivity].
  - refine (register_threads _ (SOnce (length (once_slots w)) _) 0 (once_slots w ++ [Some h]) w st m
      (AIssueOnce h) _ Hat _ k eq_refl _ _ (fun m1 => IH _ _ _ _ _ m1 Hr));
      [by rewrite (at_world _ _ _ Hat)|reflexivity].
  - destruct (do_unregister id w) as [b w1] eqn:Hd. unfold do_unregister, unregister in Hd.
    pose proof (contains_removed id (reg w)) as Hc. destruct (remove_id id (reg w)) as [b' r] eqn:Hrm.
    injection Hd as <- <-. simpl in Hc.
    refine (solo_gets _ _ _ _ _ _ _ Hat _ _ _ (fun m1 => IH _ _ _ _ _ m1 Hr)); [| |exact (at_depth _ _ _ Hat)].
    + rewrite (at_world _ _ _ Hat). simpl. by rewrite <- Hc.
    + simpl. unfold do_unregister, unregister. simpl. by rewrite Hrm.
  - unfold unregister_and_wait in Hr. pose proof (contains_removed id (reg w)) as Hc.
    destruct (remove_id id (reg w)) as [b r] eqn:Hrm. simpl in Hc.
    assert (apply_action (ARemove id) (set_depth 0 w) = set_depth 0 (set_reg r w)) as Ha.
    { simpl. unfold do_unregister, unregister. simpl. by rewrite Hrm. }
    destruct b.
    + refine (solo_gets _ _ _ _ _ _ _ Hat _ Ha _ (fun m1 Hm1 => wait_sim _ _ _ _ _ _ _ Hm1
        (fun m2 => IH _ _ _ _ _ m2 Hr))); [|exact (at_depth _ _ _ Hat)].
      rewrite (at_world _ _ _ Hat). simpl. by rewrite <- Hc.
    + refine (solo_gets _ _ _ _ _ _ _ Hat _ Ha _ (fun m1 => IH _ _ _ _ _ m1 Hr)); [|exact (at_depth _ _ _ Hat)].
      rewrite (at_world _ _ _ Hat). simpl. by rewrite <- Hc.
  - method Hat IH Hr.
  - unfold clear_and_wait in Hr. pose proof (cleared (reg w)) as Hc.
    destruct (remove_all (reg w)) as [b r] eqn:Hrm. simpl in Hc.
    assert (apply_action AClear (set_depth 0 w) = set_depth 0 (set_reg r w)) as Ha
      by (simpl; unfold clear; by rewrite Hrm).
    destruct b.
    + refine (solo_gets _ _ _ _ _ _ _ Hat _ Ha _ (fun m1 Hm1 => wait_sim _ _ _ _ _ _ _ Hm1
        (fun m2 => IH _ _ _ _ m2 Hr))); [|exact (at_depth _ _ _ Hat)].
      rewrite (at_world _ _ _ Hat). simpl. by destruct (is_empty (reg w)).
    + refine (solo_gets _ _ _ _ _ _ _ Hat _ Ha _ (fun m1 => IH _ _ _ _ m1 Hr)); [|exact (at_depth _ _ _ Hat)].
      rewrite (at_world _ _ _ Hat). simpl. by destruct (is_empty (reg w)).
  - method1 Hat IH Hr.
  - method1 Hat IH Hr.
  - method1 Hat IH Hr.
  - method1 Hat IH Hr.
  - method Hat IH Hr.
  - method Hat IH Hr.
  - destruct (nested e w) as [[fl1 w1]|] eqn:He; [|done].
    eapply gets_trans; [by eapply Hn|]. destruct fl1; intros m1 Hm1; simpl in Hr.
    + by eapply IH.
    + injection Hr as <- <-. by apply gets_now.
    + injection Hr as <- <-. by apply gets_now.
  - refine (solo_gets _ _ _ _ _ _ _ Hat _ (remove_if_action _ _ _) _ (fun m1 => IH _ _ _ _ m1 Hr)).
    + by rewrite (at_world _ _ _ Hat).
    + rewrite unregister_depth. exact (at_depth _ _ _ Hat).
  - method1 Hat IH Hr.
Qed.

(** ** Dispatch *)

Section Runner.
Context (run : prog E O -> World -> result) (Hrun : simulates run).
Context (n v : nat) (fb : bool) (e : E) (k : prog E O) (st : list (frame E O)).

(** What [handle_panic] does from [fetch_add] on. *)
Definition left_dispatch rest fl w m : Prop :=
  match fl with
  | Done => at_ (FDispatch n v fb e rest k :: st) w m
  | Panicked pl => depth w = S (level st) /\ at_ (FRun (Panic pl) :: st) (set_depth (level st) w) m
  | Aborted => halted m = true /\ mw m = set_depth 0 w
  end.

(** The callback of [handle_panic] has ended, or there is none. *)
Lemma callback_sim fl1 pl rest w m top :
  at_ top w m -> level top = S (level st) ->
  local_step (may_return m t) false (version m) (length (snaps m)) top (mw m) =
  resume (mw m) fl1 (FCallback pl :: FDispatch n v fb e rest k :: st) ->
  gets m (left_dispatch rest (drop_both (match fl1 with Panicked q => Some q | _ => None end) pl) w).
Proof.
  intros Hat Hd Hl. rewrite <- (at_depth _ _ _ Hat) in Hd. cbn [resume] in Hl.
  destruct (drop_both _ pl) as [|q|].
  - refine (solo_gets _ _ _ _ _ _ _ Hat Hl eq_refl _ (fun m1 => gets_now m1 _)). done.
  - refine (solo_gets _ _ _ _ _ (set_depth (level st) w) _ Hat Hl eq_refl _
      (fun m1 Hm1 => gets_now m1 _ (conj Hd Hm1))). done.
  - by eapply gets_abort; [exact Hat|exact Hl|].
Qed.

Lemma handle_panic_threads id pl rest w fl w' m :
  handle_panic run id pl w = Some (fl, w') ->
  at_ (FCount id pl :: FDispatch n v fb e rest k :: st) w m ->
  gets m (left_dispatch rest fl w').
Proof.
  unfold handle_panic. set (w1 := log_ev (TPanic id pl) (set_reg (count_panic (reg w)) w)).
  intros Hh Hat.
  refine (solo_gets _ _ _ (ACount id pl) _ w1 _ Hat _ eq_refl _ _);
    [by rewrite (at_world _ _ _ Hat)|exact (at_depth _ _ _ Hat)|]. intros m1 Hm1.
  destruct (panic_callback (reg w1)) as [holder|] eqn:Hcb.
  - refine (solo_gets _ _ _ (ALog (TReport (PanicInfo_new id pl))) _ (log_ev (TReport (PanicInfo_new id pl)) w1) _ Hm1 _ eq_refl _ _);
      [rewrite (at_world _ _ _ Hm1); simpl in *; by rewrite Hcb|exact (at_depth _ _ _ Hat)|].
    intros m2 Hm2. destruct (run _ _) as [[fl2 w2]|] eqn:Hr; [|done].
    eapply gets_trans; [by eapply Hrun|]. intros m3 Hm3.
    destruct fl2 as [|q|]; injection Hh as <- <-.
    + by apply (callback_sim Done pl rest w2 m3 _ Hm3).
    + by apply (callback_sim (Panicked q) pl rest w2 m3 _ Hm3).
    + apply gets_now. by destruct Hm3.
  - injection Hh as <- <-. apply (callback_sim Done pl rest w1 m1 _ Hm1); [done|].
    rewrite (at_world _ _ _ Hm1). cbn [local_step]. simpl in Hcb |- *. by rewrite Hcb.
Qed.

(** A handler has ended. *)
Lemma handler_sim id (once : option HandlerId) rest w fl w1 (x : flow * World) m :
  w1 = match once with Some oid => RemoveOnDrop_drop oid w | None => w end ->
  fl <> Aborted ->
  match fl with Panicked pl => handle_panic run id pl w1 | _ => Some (Done, w1) end = Some x ->
  ended (FHandler id once :: FDispatch n v fb e rest k :: st) fl w m ->
  gets m (left_dispatch rest x.1 x.2).
Proof.
  intros Hw1 Hfl Hh Hm.
  set (a := match once with Some oid => remove_if true oid (set_depth 0 w) | None => ASkip end).
  assert (apply_action a (set_depth 0 w) = set_depth 0 w1) as Ha.
  { subst a w1. destruct once; [apply remove_if_action|done]. }
  assert (depth w1 = depth w) as Hdw by (subst w1; destruct once; [apply unregister_depth|done]).
  destruct fl as [|pl|]; [| |done]; simpl in Hm; pose proof (at_depth _ _ _ Hm) as Hd.
  - injection Hh as <-. refine (solo_gets _ _ _ a _ w1 _ Hm _ Ha _ (fun m1 => gets_now m1 _)).
    + rewrite (at_world _ _ _ Hm). simpl. by subst a.
    + by rewrite Hdw.
  - refine (solo_gets _ _ _ a _ w1 _ Hm _ Ha _ _).
    + rewrite (at_world _ _ _ Hm). simpl. by subst a.
    + by rewrite Hdw.
    + intros m1 Hm1. destruct x as [fl' w']. by eapply handle_panic_threads.
Qed.

Lemma dispatch_threads l w fl w' m :
  dispatch run e l w = Some (fl, w') -> at_ (FDispatch n v fb e l k :: st) w m ->
  gets m (left_dispatch [] fl w').
Proof.
  revert w m. induction l as [|en l IH]; intros w m Hd Hat.
  { injection Hd as <- <-. by apply gets_now. }
  assert (Hlev : depth w = S (level st)) by exact (at_depth _ _ _ Hat).
  set (w0 := log_ev (TCall (depth w) (entry_id en)) w) in *.
  (* on to the next handler *)
  assert (Hgo : forall fl2 w2 m2, left_dispatch l fl2 w2 m2 ->
    match fl2 with Done => dispatch run e l w2 | _ => Some (fl2, w2) end = Some (fl, w') ->
    gets m2 (left_dispatch [] fl w')).
  { intros fl2 w2 m2 Hm2 Hk. destruct fl2; [by eapply IH| |]; injection Hk as <- <-; by apply gets_now. }
  (* a handler that runs *)
  assert (Hcall : forall (h : E -> prog E O) once take w1,
    apply_action (ACall n (S (level st)) (entry_id en) take) (set_depth 0 w) = set_depth 0 w1 ->
    depth w1 = depth w ->
    local_step (may_return m t) false (version m) (length (snaps m))
      (FDispatch n v fb e (en :: l) k :: st) (mw m) =
    Some (ACall n (S (level st)) (entry_id en) take,
          Goto (FRun (h e) :: FHandler (entry_id en) once :: FDispatch n v fb e l k :: st)) ->
    forall r, run (h e) w1 = Some r ->
    match r with
    | (Aborted, w2) => Some (Aborted, w2)
    | (fl2, w2) =>
        let w3 := match once with Some oid => RemoveOnDrop_drop oid w2 | None => w2 end in
        match match fl2 with Panicked pl => handle_panic run (entry_id en) pl w3 | _ => Some (Done, w3) end with
        | Some (Done, w4) => dispatch run e l w4
        | x => x
        end
    end = Some (fl, w') ->
    gets m (left_dispatch [] fl w')).
  { intros h once take w1 Ha Hd1 Hl [fl2 w2] Hr Hk.
    refine (solo_gets _ _ _ _ _ w1 _ Hat Hl Ha _ _); [by rewrite Hd1|].
    intros m1 Hm1. eapply gets_trans; [by eapply Hrun|]. intros m2 Hm2. destruct fl2 as [|pl|].
    - eapply gets_trans; [by eapply (handler_sim _ once l w2 Done)|]. intros m3 Hm3. by eapply Hgo.
    - cbn zeta in Hk. set (w3 := match once with Some _ => _ | None => _ end) in Hk.
      destruct (handle_panic run (entry_id en) pl w3) as [[fl3 w4]|] eqn:Hp; [|done].
      eapply gets_trans; [by eapply (handler_sim (entry_id en) once l w2 (Panicked pl) w3 (fl3, w4))|].
      intros m3 Hm3. eapply Hgo; [exact Hm3|]. by destruct fl3.
    - injection Hk as <- <-. apply gets_now. by destruct Hm2. }
  cbn [dispatch] in Hd. fold w0 in Hd. unfold call in Hd.
  destruct (handler en) as [h|slot oid] eqn:Hh.
  - destruct (run (h e) w0) as [[fl2 w2]|] eqn:Hr; [|done].
    eapply (Hcall h None None w0); [by subst w0; rewrite Hlev|done| |exact Hr|].
    + rewrite (at_world _ _ _ Hat). simpl. by rewrite Hh.
    + destruct fl2; [done|exact Hd|done].
  - change (once_slots w0) with (once_slots w) in Hd.
    destruct (once_slots w !! slot) as [[h|]|] eqn:Hs.
    + set (w1 := log_ev (TOnce slot) _) in Hd.
      destruct (run (h e) w1) as [[fl2 w2]|] eqn:Hr; [|done].
      eapply (Hcall h (Some oid) (Some slot) w1); [by subst w1 w0; rewrite Hlev|done| |exact Hr|].
      * rewrite (at_world _ _ _ Hat). simpl. by rewrite Hh, Hs.
      * destruct fl2; [done|exact Hd|done].
    + refine (solo_gets _ _ _ (ACall n (S (level st)) (entry_id en) None) _ w0 _ Hat _ _ _
        (fun m1 => IH w0 m1 Hd)); [|by subst w0; rewrite Hlev|exact Hlev].
      rewrite (at_world _ _ _ Hat). simpl. by rewrite Hh, Hs.
    + refine (solo_gets _ _ _ (ACall n (S (level st)) (entry_id en) None) _ w0 _ Hat _ _ _
        (fun m1 => IH w0 m1 Hd)); [|by subst w0; rewrite Hlev|exact Hlev].
      rewrite (at_world _ _ _ Hat). simpl. by rewrite Hh, Hs.
Qed.
End Runner.

Lemma notify_threads run : simulates run -> simulates_notify (notify run).
Proof.
  intros Hrun e k w fl w' st m Hn Hat. unfold notify in Hn.
  destruct (dispatch _ _ _ _) as [[fl1 w1]|] eqn:Hd; [|done]. injection Hn as <- <-.
  refine (solo_gets _ _ _ ASnap _ (set_depth (S (depth w)) w) _ Hat _ eq_refl _ _).
  { rewrite (at_world _ _ _ Hat). reflexivity. }
  { rewrite (at_depth _ _ _ Hat). done. }
  intros m1 Hm1. eapply gets_trans; [by eapply dispatch_threads|]. intros m2 Hm2.
  destruct fl1 as [|pl|]; simpl in Hm2.
  - refine (solo_gets _ _ _ ASkip _ (set_depth (depth w1 - 1) w1) _ Hm2 _ eq_refl _
      (fun m3 => gets_now m3 _)); [reflexivity|].
    pose proof (at_depth _ _ _ Hm2) as Hd2. unfold level in *. simpl in *. lia.
  - destruct Hm2 as [Hd2 Hm2]. apply gets_now. simpl. by rewrite Hd2, Nat.sub_1_r.
  - by apply gets_now.
Qed.

Lemma exec_threads fuel : simulates (exec fuel).
Proof.
  induction fuel as [|fuel IH]; simpl; apply exec_prog_threads; [done|]. by apply notify_threads.
Qed.
End Alone.

(** (C16) The single-threaded semantics is the machine with one thread.  If [exec] says that a
    program ends with [fl] in the world [w'], then a thread that runs the program on the
    machine, step by step and undisturbed by dispatches of other threads, ends with [fl] in
    that world (or aborts the process if [fl] says so). *)
Theorem exec_is_one_thread {E O} fuel t p fl (w w' : world E O (list (HandlerEntry (stored E O)))) m :
  exec fuel p w = Some (fl, w') -> depth w = 0 -> mw m = w -> halted m = false ->
  threads m !! t = Some (Running [FRun p]) -> others_idle t m ->
  exists l m', Forall (fun x => x.1 = t) l /\ run l m = Some m' /\ mw m' = set_depth 0 w' /\
    match fl with
    | Aborted => halted m' = true
    | _ => threads m' !! t = Some (Ended fl)
    end.
Proof.
  intros He Hd Hw Hh Ht Ho.
  destruct (exec_threads t fuel p w fl w' [] m He) as (l & m1 & Hl & Hr & Hm1).
  { split; try done. rewrite Hw. destruct w; simpl in *. by subst. }
  assert (Hend : forall p', at_ t [FRun p'] w' m1 -> step_prog false (version m1) (length (snaps m1)) p' [] (mw m1) =
    Some (ASkip, End fl) -> fl <> Aborted ->
    exists l m', Forall (fun x => x.1 = t) l /\ run l m = Some m' /\ mw m' = set_depth 0 w' /\
      match fl with Aborted => halted m' = true | _ => threads m' !! t = Some (Ended fl) end).
  { intros p' Hat Hs Hfl. exists (l ++ [(t, false)]), (move t (End fl) (perform t ASkip m1)).
    split; [by apply Forall_app; split; [|repeat constructor]|]. rewrite sched_app, Hr. simpl. unfold step.
    rewrite (at_running _ _ _ _ Hat), (at_stack _ _ _ _ Hat). cbn [local_step]. rewrite Hs. simpl.
    split; [done|]. split; [apply (at_world _ _ _ _ Hat)|]. by destruct fl; rewrite ?lookup_insert_eq. }
  destruct fl as [|pl|]; simpl in Hm1; [by eapply Hend..|]. exists l, m1. by destruct Hm1.
Qed.

(** Two handlers, the first of which panics; a callback is told. *)
Definition panicking_program : prog unit nat :=
  OnPanic (fun _ => Emit 0 Ret) (Register0 (fun _ => Panic (PStr "first")) (fun _ =>
  RegisterOnce (fun _ => Emit 1 Ret) (fun _ => Notify tt (Notify tt Ret)))).

Definition world0 : world unit nat (list (HandlerEntry (stored unit nat))) := world_new.

Lemma exec_is_one_thread_witness :
  exists w', exec 1 panicking_program world0 = Some (Done, w') /\ emits (trace w') = [0; 1; 0] /\
  exists l m', Forall (fun x => x.1 = 7) l /\
    run l (start world0 {[7 := panicking_program]}) = Some m' /\ mw m' = set_depth 0 w' /\
    threads m' !! 7 = Some (Ended Done).
Proof.
  eexists. split; [by vm_compute|]. split; [by vm_compute|].
  apply (exec_is_one_thread 1 7 panicking_program Done world0 _ (start world0 {[7 := panicking_program]}));
    try done.
  intros u th Hu Hne. simpl in Hu. rewrite map_fmap_singleton, lookup_singleton_ne in Hu by done. done.
Defined.
