(* ===== verification/SyncThreadsInv.v ===== *)
(** What is always true of the threads of SyncThreads (src/src/sync/mod.rs): the kinds of
    their steps, the shape of their stacks, that a thread not at a wait can go on, that
    once-handlers run at most once, and how the panic counter follows the panics. *)
From S2P Require Import Prelude HandlerId HandlerList HandlerStore PanicInfo SyncRegistry SyncProofs SyncWf.
From S2P Require Import SyncThreads.

Section Steps.
Context {E O : Type}.
Abbreviation Vec := (list (HandlerEntry (stored E O))).
Abbreviation World := (world E O Vec).
Implicit Types (w : World) (p k : prog E O) (st : list (frame E O)) (m : machine E O).

(** ** The kinds of steps *)

(** Accesses that neither issue an id, nor insert, nor belong to a dispatch. *)
Definition plain_action (a : action E O) : bool :=
  match a with
  | ASkip | ARemove _ | AClear | AOnPanic _ | AClearCallback => true
  | ALog (TEmit _) | ALog TWait | ALog (TReport _) => true
  | _ => false
  end.

(** A program and the way it ends, if it has ended. *)
Definition ends_with p (fl : flow) : Prop :=
  match fl with Done => p = Ret | Panicked pl => p = Panic pl | Aborted => False end.

Definition second_of (fl : flow) : option payload :=
  match fl with Panicked q => Some q | _ => None end.

Section Kinds.
Context (quiet : nat -> bool -> bool) (version num : nat) (w : World).

(** [local_step], by what happens to the stack. *)
Inductive lstep : list (frame E O) -> action E O -> next E O -> Prop :=
  | L_method p k st a : plain_action a = true -> lstep (FRun p :: st) a (Goto (FRun k :: st))
  | L_issue p st a entry k :
      entry_id entry = (issue_id (reg w)).1 ->
      match handler entry with
      | SPlain _ => a = AIssue
      | SOnce slot id => id = entry_id entry /\ priority entry = 0%Z /\ slot = length (once_slots w) /\
                         exists h, a = AIssueOnce h
      end ->
      lstep (FRun p :: st) a (Goto (FInsert entry k :: st))
  | L_insert entry k st : lstep (FInsert entry k :: st) (AInsert entry) (Goto (FRun k :: st))
  | L_wait p st a cof k :
      publishes a w = true -> plain_action a = true ->
      lstep (FRun p :: st) a (Goto (FWait (S version) cof k :: st))
  | L_waited since cof k st :
      quiet since cof = true -> lstep (FWait since cof k :: st) (ALog TWait) (Goto (FRun k :: st))
  | L_notify e k st b :
      lstep (FRun (Notify e k) :: st) ASnap (Goto (FDispatch num version b e (handlers (reg w)) k :: st))
  | L_finish n v fb e k st : lstep (FDispatch n v fb e [] k :: st) ASkip (Goto (FRun k :: st))
  | L_call n v fb e entry l k st p once take :
      match handler entry with
      | SPlain h => p = h e /\ once = None /\ take = None
      | SOnce slot id => exists h, once_slots w !! slot = Some (Some h) /\ p = h e /\ once = Some id /\
                                   take = Some slot
      end ->
      lstep (FDispatch n v fb e (entry :: l) k :: st) (ACall n (S (level st)) (entry_id entry) take)
        (Goto (FRun p :: FHandler (entry_id entry) once :: FDispatch n v fb e l k :: st))
  | L_skip n v fb e entry l k st slot id :
      handler entry = SOnce slot id -> (forall h, once_slots w !! slot <> Some (Some h)) ->
      lstep (FDispatch n v fb e (entry :: l) k :: st) (ACall n (S (level st)) (entry_id entry) None)
        (Goto (FDispatch n v fb e l k :: st))
  | L_end p fl : ends_with p fl -> lstep [FRun p] ASkip (End fl)
  | L_returned id once st a :
      plain_action a = true -> lstep (FRun Ret :: FHandler id once :: st) a (Goto st)
  | L_panicked id once st a pl :
      plain_action a = true ->
      lstep (FRun (Panic pl) :: FHandler id once :: st) a (Goto (FCount id pl :: st))
  | L_count id pl st : lstep (FCount id pl :: st) (ACount id pl) (Goto (FReport id pl :: st))
  | L_report id pl st holder :
      panic_callback (reg w) = Some holder ->
      lstep (FReport id pl :: st) (ALog (TReport (PanicInfo_new id pl)))
        (Goto (FRun (holder (PanicInfo_new id pl)) :: FCallback pl :: st))
  | L_dropped top n v fb e l k st pl fl :
      (exists id, top = [FReport id pl] /\ fl = Done) \/
      (exists p, top = [FRun p; FCallback pl] /\ ends_with p fl) ->
      lstep (top ++ FDispatch n v fb e l k :: st) ASkip
        match drop_both (second_of fl) pl with
        | Done => Goto (FDispatch n v fb e l k :: st)
        | Panicked r => Goto (FRun (Panic r) :: st)
        | Aborted => Abort
        end.

Lemma resume_lstep p fl st a nx :
  ends_with p fl -> resume w fl st = Some (a, nx) -> lstep (FRun p :: st) a nx.
Proof.
  intros Hp. destruct st as [|f st]; simpl; [intros [= <- <-]; by constructor|].
  destruct f; try done.
  - assert (plain_action (match once with Some oid => remove_if true oid w | None => ASkip end) = true) as Ha
      by (unfold remove_if; destruct once, (alive w); done).
    intros [= <- <-]. destruct fl; simpl in Hp; [subst p; by constructor..|done].
  - destruct st as [|f st]; [done|]. destruct f; try done. intros [= <- <-].
    apply (L_dropped [FRun p; FCallback pl]). right. by exists p.
Qed.

Lemma remove_if_plain b id : plain_action (remove_if b id w) = true.
Proof. unfold remove_if. by destruct (b && alive w). Qed.

Lemma local_step_lstep b st a nx : local_step quiet b version num st w = Some (a, nx) -> lstep st a nx.
Proof.
  destruct st as [|f st]; [done|]. destruct f as [p|entry k|since cof k|n v fb e l k|id once|id pl|id pl|pl];
    cbn [local_step]; try done.
  - destruct p; cbn [step_prog]; try (by intros [= <- <-]; constructor).
    + by apply resume_lstep.
    + by apply resume_lstep.
    + intros [= <- <-]. by constructor; [|simpl; eauto 6].
    + intros [= <- <-]. destruct (contains id (reg w)) eqn:Hc; by constructor.
    + intros [= <- <-]. destruct (is_empty (reg w)) eqn:Hc; constructor; simpl; rewrite ?Hc; done.
    + intros [= <- <-]. constructor. apply remove_if_plain.
  - intros [= <- <-]. constructor.
  - destruct (quiet since cof) eqn:Hq; [|done]. intros [= <- <-]. by constructor.
  - unfold step_dispatch. destruct l as [|entry l]; [intros [= <- <-]; constructor|].
    destruct (handler entry) as [h|slot id] eqn:Hh.
    + intros [= <- <-]. constructor. by rewrite Hh.
    + destruct (once_slots w !! slot) as [[h|]|] eqn:Hs; intros [= <- <-].
      * constructor. rewrite Hh. by exists h.
      * eapply L_skip; [done|]. congruence.
      * eapply L_skip; [done|]. congruence.
  - intros [= <- <-]. constructor.
  - destruct (panic_callback (reg w)) as [holder|] eqn:Hc; [intros [= <- <-]; by constructor|].
    simpl. destruct st as [|f st]; [done|]. destruct f; try done. intros [= <- <-].
    apply (L_dropped [FReport id pl] _ _ _ _ _ _ _ pl Done). left. by exists id.
Qed.
End Kinds.

(** A step of the machine, by kind. *)
Lemma step_lstep t b m m' :
  step t b m = Some m' -> exists st a nx, halted m = false /\ threads m !! t = Some (Running st) /\
    lstep (may_return m t) (version m) (length (snaps m)) (mw m) st a nx /\
    m' = move t nx (perform t a m).
Proof.
  intros (st & a & nx & Hh & Ht & Hl & ->)%step_Some. exists st, a, nx.
  by apply local_step_lstep in Hl.
Qed.

(** Induction over reachable machines. *)
Lemma reachable_ind_inv ps (I : machine E O -> Prop) :
  I (start world_new ps) ->
  (forall t m st a nx, I m -> halted m = false -> threads m !! t = Some (Running st) ->
     lstep (may_return m t) (version m) (length (snaps m)) (mw m) st a nx ->
     I (move t nx (perform t a m))) ->
  forall m, reachable ps m -> I m.
Proof.
  intros H0 Hs m. induction 1 as [|t b m m' _ IH (st & a & nx & Hh & Ht & Hl & ->)%step_lstep]; [done|].
  by eapply Hs.
Qed.

Lemma mw_move t nx m : mw (move t nx m) = mw m.
Proof. by destruct nx. Qed.
Lemma lists_move t nx m : lists (move t nx m) = lists m.
Proof. by destruct nx. Qed.
Lemma snaps_move t nx m : snaps (move t nx m) = snaps m.
Proof. by destruct nx. Qed.
Lemma called_move t nx m : called (move t nx m) = called m.
Proof. by destruct nx. Qed.

(** ** Once-handlers *)

(** What [lstep] asks of the world: once-handlers are taken only from full mutexes, and
    nothing else is logged as such. *)
Definition once_taken (a : action E O) w : Prop :=
  match a with
  | ALog ev => forall slot, is_once slot ev = false
  | ACall _ _ _ (Some slot) => exists h, once_slots w !! slot = Some (Some h)
  | _ => True
  end.

Lemma plain_once_taken a w : plain_action a = true -> once_taken a w.
Proof. destruct a; try done. by destruct ev. Qed.

Lemma lstep_once_taken quiet version num w st a nx :
  lstep quiet version num w st a nx -> once_taken a w.
Proof.
  destruct 1; try (by apply plain_once_taken); try done.
  - destruct (handler entry) as [h|slot id]; [by subst|]. by destruct H0 as (_ & _ & _ & h & ->).
  - destruct (handler entry) as [h|slot id]; [by destruct H as (_ & _ & ->)|].
    destruct H as (h & Hs & _ & _ & ->). by exists h.
Qed.

Lemma action_once a w : once_taken a w -> once_ok w -> once_ok (apply_action a w).
Proof.
  unfold once_ok, once_left. intros Ha Hw slot. specialize (Hw slot).
  destruct a as [|ev| |h| |id| | | | |n d id take|id pl]; cbn in *; rewrite ?cnt_snoc; cbn [is_once];
    rewrite ?Nat.add_0_r; auto.
  - rewrite Ha. by rewrite Nat.add_0_r.
  - rewrite lookup_app. destruct (once_slots w !! slot) as [[]|]; try done.
    rewrite list_lookup_singleton. destruct (slot - _); simpl; lia.
  - unfold do_unregister, unregister, remove_id. by destruct (store_remove _ _).
  - destruct take as [s|]; simpl; rewrite ?cnt_snoc; cbn [is_once]; [|by rewrite Nat.add_0_r].
    destruct Ha as [h Hh]. destruct (decide (s = slot)) as [->|Hne].
    + rewrite list_lookup_insert_eq by (by eapply lookup_lt_Some). rewrite Hh in Hw.
      rewrite bool_decide_eq_true_2 by done. lia.
    + rewrite list_lookup_insert_ne by done. rewrite bool_decide_eq_false_2 by done. lia.
Qed.

Lemma reachable_once ps m : reachable ps m -> once_ok (mw m).
Proof.
  intros Hm. pattern m. eapply reachable_ind_inv; [| |exact Hm].
  - intros slot. by destruct slot.
  - intros t m1 st a nx Ho _ _ Hl%lstep_once_taken. rewrite mw_move. by apply action_once.
Qed.

(** ** The shape of stacks *)

(** Below a program: nothing, or a handler or callback some dispatch has called. *)
Fixpoint base st : bool :=
  match st with
  | [] => true
  | (FHandler _ _ | FCallback _) :: FDispatch _ _ _ _ _ _ :: st => base st
  | _ => false
  end.

Definition shaped st : bool :=
  match st with
  | (FRun _ | FInsert _ _ | FWait _ _ _ | FDispatch _ _ _ _ _ _) :: st => base st
  | (FCount _ _ | FReport _ _) :: FDispatch _ _ _ _ _ _ :: st => base st
  | _ => false
  end.

Lemma lstep_shaped quiet version num w st a st' :
  lstep quiet version num w st a (Goto st') -> shaped st = true -> shaped st' = true.
Proof.
  intros Hl Hs. inversion Hl; subst; try done; simpl in *; repeat case_match; simplify_eq/=; try done.
  all: by match goal with H : _ \/ _ |- _ => destruct H as [(? & -> & _)|(? & -> & _)] end.
Qed.

Lemma reachable_shaped ps m t st :
  reachable ps m -> threads m !! t = Some (Running st) -> shaped st = true.
Proof.
  intros Hm. revert t st. pattern m. eapply reachable_ind_inv; [| |exact Hm].
  - intros t st. simpl. rewrite lookup_fmap. destruct (ps !! t); simpl; [|done]. by intros [= <-].
  - intros t m1 st a nx IH _ Ht Hl u st'. destruct nx as [st1|fl|]; simpl; [| |by apply IH].
    + destruct (decide (t = u)) as [->|Hne]; [rewrite lookup_insert_eq|rewrite lookup_insert_ne by done; apply IH].
      intros [= <-]. by eapply lstep_shaped, IH.
    + destruct (decide (t = u)) as [->|Hne]; [by rewrite lookup_insert_eq|rewrite lookup_insert_ne by done; apply IH].
Qed.

(** ** Progress *)

(** A stack that is not at a wait can go on. *)
Lemma shaped_progress quiet b version num w st :
  shaped st = true -> (forall since cof k st', st <> FWait since cof k :: st') ->
  is_Some (local_step quiet b version num st w).
Proof.
  intros Hs Hnw. destruct st as [|f st]; [done|]. destruct f; simpl in Hs |- *; try done; try (by eexists).
  - assert (forall fl, is_Some (resume w fl st)) as Hr.
    { intros fl. unfold resume. destruct st as [|f st]; [by eexists|]. destruct f; try done; try (by eexists).
      destruct st as [|f st]; [done|]. by destruct f; try done; eexists. }
    destruct p; simpl; try done; by eexists.
  - by edestruct Hnw.
  - destruct rest as [|en l]; [by eexists|]. simpl. destruct (handler en) as [|slot id]; [by eexists|].
    destruct (once_slots w !! slot) as [[]|]; by eexists.
  - destruct (panic_callback (reg w)); [by eexists|]. destruct st as [|f st]; [done|].
    by destruct f; try done; eexists.
Qed.

(** ** Handler panics and their count *)

(** A handler is about to end with a panic, which its [catch_unwind] returns; and
    [handle_panic] has been entered for one and has not counted it yet. *)
Definition raising st : bool :=
  match st with FRun (Panic _) :: FHandler _ _ :: _ => true | _ => false end.
Definition uncounted st : bool := match st with FCount _ _ :: _ => true | _ => false end.

(** How many handlers have panicked in the steps [l] from [m]; how many of the panics are
    still to be counted in [m]. *)
Fixpoint handlers_panicked (l : list (nat * bool)) m : nat :=
  match l with
  | [] => 0
  | (t, b) :: l =>
      Nat.b2n (raising (stack_of (default (Ended Done) (threads m !! t)))) +
      match step t b m with Some m => handlers_panicked l m | None => 0 end
  end.
Definition panics_uncounted m : nat := msum (fun th => Nat.b2n (uncounted (stack_of th))) (threads m).

Definition counts (a : action E O) : nat := match a with ACount _ _ => 1 | _ => 0 end.

(** A panic is uncounted from the moment it is raised until it is counted. *)
Lemma local_step_counts quiet b version num st w a nx :
  shaped st = true -> local_step quiet b version num st w = Some (a, nx) ->
  counts a + Nat.b2n (match nx with Goto st' => uncounted st' | End _ => false | Abort => uncounted st end) =
  Nat.b2n (uncounted st) + Nat.b2n (raising st).
Proof.
  intros Hs Hl. destruct st as [|f st]; [done|].
  destruct f; cbn [local_step] in Hl; try done.
  - destruct p; cbn [step_prog resume] in Hl; simplify_eq/=; try done; try (by repeat case_match).
    all: destruct st as [|[] st]; simplify_eq/=; try done; unfold remove_if; repeat (case_match; simplify_eq/=; try done).
  - by simplify_eq/=.
  - case_match; by simplify_eq/=.
  - unfold step_dispatch in Hl. repeat (case_match; simplify_eq/=; try done).
  - by simplify_eq/=.
  - repeat (case_match; simplify_eq/=; try done).
Qed.

Lemma apply_counts a w :
  panics (reg w) = u64 (panics (reg w)) ->
  panics (reg (apply_action a w)) = u64 (panics (reg w) + Z.of_nat (counts a)).
Proof.
  intros Hw. destruct a as [|ev| | | |id| | | | |n d id take|id pl]; cbn; rewrite ?Z.add_0_r; try done.
  - unfold do_unregister, unregister, remove_id. by destruct (store_remove _ _).
  - unfold clear, remove_all. by destruct (store_clear _).
  - by destruct take.
Qed.

Lemma step_counts t b m m' st :
  shaped st = true -> threads m !! t = Some (Running st) -> step t b m = Some m' ->
  panics (reg (mw m)) = u64 (panics (reg (mw m))) ->
  exists c, panics (reg (mw m')) = u64 (panics (reg (mw m)) + Z.of_nat c) /\
    c + panics_uncounted m' = panics_uncounted m + Nat.b2n (raising st).
Proof.
  intros Hs Ht (st0 & a & nx & _ & Ht0 & Hl & ->)%step_Some Hp. rewrite Ht0 in Ht. injection Ht as ->.
  pose proof (local_step_counts _ _ _ _ _ _ _ _ Hs Hl) as Hc. exists (counts a). rewrite mw_move.
  split; [by apply apply_counts|]. unfold panics_uncounted. destruct nx as [st'|fl|]; cbn [threads move set_threads perform].
  - pose proof (msum_insert (fun th => Nat.b2n (uncounted (stack_of th))) _ _ _ (Running st') Ht0) as Hm.
    cbn [stack_of] in Hm. lia.
  - pose proof (msum_insert (fun th => Nat.b2n (uncounted (stack_of th))) _ _ _ (Ended fl) Ht0) as Hm.
    cbn [stack_of uncounted Nat.b2n] in *. lia.
  - lia.
Qed.

Lemma start_uncounted w ps : panics_uncounted (start w ps) = 0.
Proof. apply msum_zero. intros t th. simpl. rewrite lookup_fmap. by intros (p & _ & ->)%fmap_Some. Qed.

Lemma run_counts ps l m m' :
  reachable ps m -> panics (reg (mw m)) = u64 (panics (reg (mw m))) -> run l m = Some m' ->
  panics (reg (mw m')) = u64 (panics (reg (mw m)) + Z.of_nat (panics_uncounted m + handlers_panicked l m) -
                              Z.of_nat (panics_uncounted m')).
Proof.
  revert m. induction l as [|[t b] l IH]; intros m Hm Hp; cbn [run handlers_panicked].
  { intros [= <-]. rewrite Hp at 1. f_equal. lia. }
  destruct (step t b m) as [m1|] eqn:Hs; [|done]. intros Hr.
  destruct (step_Some _ _ _ _ Hs) as (st & _ & _ & _ & Ht & _).
  destruct (step_counts t b m m1 st) as (c & Hc & Hu); [by eapply reachable_shaped|done..|].
  rewrite Ht. cbn [default from_option stack_of id]. rewrite (IH m1); [|by econstructor| |done].
  - rewrite Hc, <- Z.add_sub_assoc, u64_add_l. f_equal. lia.
  - rewrite Hc. symmetry. apply u64_small, u64_range.
Qed.
End Steps.
