(* ===== verification/SyncThreadsSnap.v ===== *)
(** Each dispatch of each thread walks the list it read, whatever the other threads do
    meanwhile (src/src/sync/mod.rs). *)
From S2P Require Import Prelude HandlerId HandlerList HandlerStore PanicInfo SyncRegistry SyncProofs SyncWf.
From S2P Require Import SyncThreads SyncThreadsExec SyncThreadsInv.

Section Snapshots.
Context {E O : Type}.
Abbreviation Vec := (list (HandlerEntry (stored E O))).
Abbreviation World := (world E O Vec).
Implicit Types (w : World) (p k : prog E O) (st : list (frame E O)) (m : machine E O) (f : frame E O).

(** The handlers dispatch [n] has called so far. *)
Definition called_of (n : nat) m : list HandlerId :=
  snd <$> filter (fun x => x.1.2 = n) (called m).

(** The dispatches on a stack, innermost first. *)
Definition num_of f : option nat := match f with FDispatch n _ _ _ _ _ => Some n | _ => None end.
Definition nums st : list nat := omap num_of st.

(** A dispatch has called what is not left of its list. *)
Definition frame_inv m (t : nat) f : Prop :=
  match f with
  | FDispatch n v _ _ rest _ =>
      exists l before, lists m !! v = Some l /\ l = before ++ rest /\
        snaps m !! n = Some (t, entry_id <$> l) /\ called_of n m = entry_id <$> before
  | _ => True
  end.

(** A handler that runs is in the list of its dispatch. *)
Fixpoint in_list m st : Prop :=
  match st with
  | FHandler id _ :: ((FDispatch _ v _ _ _ _ :: _) as st) =>
      (exists l, lists m !! v = Some l /\ id ∈ entry_id <$> l) /\ in_list m st
  | _ :: st => in_list m st
  | [] => True
  end.

Record snap_inv m : Prop := {
  si_last : last (lists m) = Some (handlers (reg (mw m)));
  si_frames t st : threads m !! t = Some (Running st) -> Forall (frame_inv m t) st;
  si_nums t st : threads m !! t = Some (Running st) -> StronglySorted gt (nums st);
  si_running t st : threads m !! t = Some (Running st) -> in_list m st;
  si_calls u n id : (u, n, id) ∈ called m -> exists ids, snaps m !! n = Some (u, ids);
  si_prefix n t ids : snaps m !! n = Some (t, ids) -> called_of n m `prefix_of` ids;
}.

(** ** What an access leaves as it is *)

Lemma unpublished a w : publishes a w = false -> handlers (reg (apply_action a w)) = handlers (reg w).
Proof.
  destruct a; simpl; try done.
  - intros Hc. unfold do_unregister, unregister. pose proof (contains_removed id (reg w)) as Hr.
    unfold remove_id in *. destruct (store_remove _ _); simpl in *; [congruence|done].
  - intros Hc. unfold clear. pose proof (cleared (reg w)) as Hr.
    unfold remove_all in *. destruct (store_clear _); simpl in *; [congruence|done].
  - by destruct take.
Qed.

Lemma perform_lists t a m : lists m `prefix_of` lists (perform t a m).
Proof. simpl. destruct (publishes a (mw m)); [by apply prefix_app_r|done]. Qed.

Lemma perform_snaps t a m : snaps m `prefix_of` snaps (perform t a m).
Proof. simpl. destruct a; try done. by apply prefix_app_r. Qed.

Lemma called_of_perform n t a m :
  called_of n (perform t a m) =
  called_of n m ++ match a with ACall n' _ id _ => if decide (n' = n) then [id] else [] | _ => [] end.
Proof.
  unfold called_of. simpl. destruct a; rewrite ?app_nil_r; try done.
  rewrite filter_app, fmap_app. f_equal. rewrite filter_cons. simpl. by destruct (decide (n0 = n)).
Qed.

Lemma frame_inv_perform t a m u f :
  (forall n d id tk, a = ACall n d id tk -> num_of f <> Some n) ->
  frame_inv m u f -> frame_inv (perform t a m) u f.
Proof.
  intros Ha. destruct f; try done. cbn [frame_inv]. intros (l & before & Hl & -> & Hs & Hc).
  exists (before ++ rest), before. split; [|split; [done|split]].
  - apply (prefix_lookup_Some (lists m)); [done|apply perform_lists].
  - apply (prefix_lookup_Some (snaps m)); [done|apply perform_snaps].
  - rewrite called_of_perform, Hc. destruct a; rewrite ?app_nil_r; try done.
    rewrite decide_False, app_nil_r; [done|]. intros ->. by eapply Ha.
Qed.

Lemma in_list_mono m m' st : lists m `prefix_of` lists m' -> in_list m st -> in_list m' st.
Proof.
  intros Hp. induction st as [|f st IH]; [done|].
  destruct f; cbn [in_list]; try done. destruct st as [|g st]; [done|].
  destruct g; try done. intros [(l & Hl & Hid) Hst]. split; [|by apply IH].
  exists l. split; [|done]. by apply (prefix_lookup_Some (lists m)).
Qed.

Lemma in_list_perform t a m st : in_list m st -> in_list (perform t a m) st.
Proof. apply in_list_mono, perform_lists. Qed.

Lemma in_list_tail m f st : in_list m (f :: st) -> in_list m st.
Proof. destruct f; simpl; try done. destruct st as [|[] ?]; try done. by intros [_ ?]. Qed.

Lemma last_version m l : last (lists m) = Some l -> lists m !! version m = Some l.
Proof. unfold version. rewrite last_lookup. by rewrite Nat.sub_1_r. Qed.

Lemma nums_cons f st : nums (f :: st) = option_list (num_of f) ++ nums st.
Proof. unfold nums. simpl. by destruct (num_of f). Qed.

Lemma in_nums n st : n ∈ nums st <-> exists f, f ∈ st /\ num_of f = Some n.
Proof. unfold nums. by rewrite list_elem_of_omap. Qed.

(** The owner of a dispatch. *)
Lemma num_owner m t st f n :
  Forall (frame_inv m t) st -> f ∈ st -> num_of f = Some n -> exists ids, snaps m !! n = Some (t, ids).
Proof.
  intros Hst Hf Hn. eapply Forall_forall in Hst; [|exact Hf]. destruct f; try done.
  injection Hn as ->. destruct Hst as (l & _ & _ & _ & Hs & _). eauto.
Qed.

(** ** The stack of the thread that moves *)

Definition stack_inv m t st : Prop :=
  Forall (frame_inv m t) st /\ StronglySorted gt (nums st) /\ in_list m st.

Lemma stack_inv_tail m t f st : stack_inv m t (f :: st) -> stack_inv m t st.
Proof.
  intros ([_ HF]%Forall_cons & HN & HL). split_and!; [done| |by eapply in_list_tail].
  rewrite nums_cons in HN. destruct (num_of f); [by apply StronglySorted_inv in HN as [? _]|done].
Qed.

Lemma stack_inv_cons m t f st :
  num_of f = None -> (forall id once, f <> FHandler id once) -> stack_inv m t st -> stack_inv m t (f :: st).
Proof.
  intros Hn Hh (HF & HN & HL). split_and!.
  - apply Forall_cons. split; [|done]. by destruct f.
  - rewrite nums_cons, Hn. done.
  - destruct f; try done. by edestruct Hh.
Qed.

Definition is_call (a : action E O) : bool := match a with ACall _ _ _ _ => true | _ => false end.

Lemma stack_inv_perform m t u a st :
  is_call a = false -> stack_inv m t st -> stack_inv (perform u a m) t st.
Proof.
  intros Ha (HF & HN & HL). split_and!; [|done|by apply in_list_perform].
  eapply Forall_impl; [exact HF|]. intros f. apply frame_inv_perform. by intros ? ? ? ? ->.
Qed.

(** The call of a handler by the innermost dispatch. *)
Lemma dispatch_called m t n v fb e entry l k st d tk :
  stack_inv m t (FDispatch n v fb e (entry :: l) k :: st) ->
  stack_inv (perform t (ACall n d (entry_id entry) tk) m) t (FDispatch n v fb e l k :: st) /\
  exists ls, lists m !! v = Some ls /\ entry_id entry ∈ entry_id <$> ls.
Proof.
  intros ([(ls & before & Hl & -> & Hs & Hc) HF]%Forall_cons & HN & HL). split.
  - split_and!; [|done|by apply in_list_perform]. apply Forall_cons. split.
    + exists (before ++ entry :: l), (before ++ [entry]). split_and!; [done|by rewrite <- app_assoc|done|].
      rewrite called_of_perform, Hc, decide_True by done. by rewrite fmap_app.
    + apply Forall_forall. intros f Hf. apply frame_inv_perform; [|by eapply Forall_forall in HF].
      intros ? ? ? ? [= <- _ _ _] Hn. rewrite nums_cons in HN. apply StronglySorted_inv in HN as [_ HN].
      eapply Forall_forall in HN; [|apply in_nums; eauto]. lia.
  - exists (before ++ entry :: l). split; [done|]. apply list_elem_of_fmap. exists entry.
    split; [done|]. apply elem_of_app. right. left.
Qed.

Lemma stack_step m t st a st' :
  snap_inv m -> threads m !! t = Some (Running st) ->
  lstep (may_return m t) (version m) (length (snaps m)) (mw m) st a (Goto st') ->
  stack_inv (perform t a m) t st'.
Proof.
  intros Hi Ht Hl.
  assert (Hst : stack_inv m t st) by (split_and!; [by eapply si_frames|by eapply si_nums|by eapply si_running]).
  inversion Hl; subst;
    try match goal with H : plain_action ?a = true |- _ =>
      assert (is_call a = false) by (by destruct a) end;
    try (by apply stack_inv_cons; [done|done|apply stack_inv_perform; [done|by eapply stack_inv_tail]]).
  - assert (is_call a = false).
    { repeat case_match; subst; try done. naive_solver. }
    apply stack_inv_cons; [done|done|apply stack_inv_perform; [done|by eapply stack_inv_tail]].
  - apply stack_inv_tail in Hst. destruct Hst as (HF & HN & HL).
    split_and!; [|rewrite nums_cons; simpl|by apply (in_list_perform t ASnap m)].
    + apply Forall_cons. split.
      * exists (handlers (reg (mw m))), []. split_and!; [|done| |].
        -- apply (last_version m), si_last, Hi.
        -- simpl. by rewrite lookup_app_r, Nat.sub_diag.
        -- rewrite called_of_perform, app_nil_r. unfold called_of. simpl.
           rewrite filter_all_false; [done|]. apply Forall_forall. intros [[u n] id] Hc Hn. simpl in Hn.
           destruct (si_calls _ Hi _ _ _ Hc) as [ids Hs%lookup_lt_Some]. lia.
      * eapply Forall_impl; [exact HF|]. intros f. by apply frame_inv_perform.
    + constructor; [done|]. apply Forall_forall. intros n (f & Hf & Hn)%in_nums.
      destruct (num_owner _ _ _ _ _ HF Hf Hn) as [ids Hs%lookup_lt_Some]. lia.
  - destruct (dispatch_called m t n v fb e entry l k st0 (S (level st0)) take Hst) as [H1 (ls & Hls & Hid)].
    apply stack_inv_cons; [done|done|]. destruct H1 as (HF & HN & HL).
    split_and!; [by constructor|done|]. split; [|done]. exists ls. split; [|done].
    apply (prefix_lookup_Some (lists m)); [done|apply perform_lists].
  - by eapply dispatch_called.
  - apply stack_inv_perform; [done|]. by eapply stack_inv_tail, stack_inv_tail.
  - apply stack_inv_cons; [done|done|]. apply stack_inv_perform; [done|].
    by eapply stack_inv_tail, stack_inv_tail.
  - do 2 (apply stack_inv_cons; [done|done|]). apply stack_inv_perform; [done|]. by eapply stack_inv_tail.
  - assert (stack_inv m t (FDispatch n v fb e l k :: st0)) as Hst'.
    { destruct H2 as [(id & -> & _)|(p & -> & _)]; simpl in Hst; apply stack_inv_tail in Hst; [done|].
      by apply stack_inv_tail in Hst. }
    destruct (drop_both (second_of fl) pl); simplify_eq; [by apply stack_inv_perform|].
    apply stack_inv_cons; [done|done|]. apply stack_inv_perform; [done|by eapply stack_inv_tail].
Qed.

Lemma stack_inv_move t nx m u st : stack_inv m u st -> stack_inv (move t nx m) u st.
Proof.
  intros (HF & HN & HL). split_and!; [|done|].
  - eapply Forall_impl; [exact HF|]. intros f. by destruct nx, f.
  - apply (in_list_mono m); [by rewrite lists_move|done].
Qed.

Lemma called_of_move t nx n m : called_of n (move t nx m) = called_of n m.
Proof. by destruct nx. Qed.

Lemma lstep_call quiet ver num w st n d id tk nx :
  lstep quiet ver num w st (ACall n d id tk) nx ->
  exists v fb e entry l k st', st = FDispatch n v fb e (entry :: l) k :: st' /\ id = entry_id entry.
Proof.
  inversion 1; subst; try done; try (by repeat case_match; naive_solver); eauto 10.
Qed.

Lemma lstep_abort quiet ver num w st a :
  lstep quiet ver num w st a Abort -> a = ASkip.
Proof. inversion 1; by repeat case_match. Qed.

Lemma reachable_snap ps m : reachable ps m -> snap_inv m.
Proof.
  intros Hm. pattern m. eapply reachable_ind_inv; [| |exact Hm].
  - split; simpl; try done.
    + intros t st. rewrite lookup_fmap. destruct (ps !! t); simpl; [|done]. intros [= <-]. by repeat constructor.
    + intros t st. rewrite lookup_fmap. destruct (ps !! t); simpl; [|done]. intros [= <-]. by repeat constructor.
    + intros t st. rewrite lookup_fmap. destruct (ps !! t); simpl; [|done]. by intros [= <-].
    + by intros ? ? ? ?%elem_of_nil.
  - clear m Hm. intros t m st a nx Hi Hh Ht Hl.
    assert (Hstacks : forall u st', threads (move t nx (perform t a m)) !! u = Some (Running st') ->
      stack_inv (perform t a m) u st').
    { intros u st' Hu. assert (Hold : u <> t -> threads m !! u = Some (Running st') ->
        stack_inv (perform t a m) u st').
      { intros Hne Hu'. split_and!; [|by eapply si_nums|by eapply in_list_perform, si_running].
        pose proof (si_frames _ Hi _ _ Hu') as HF. apply Forall_forall. intros f Hf.
        apply frame_inv_perform; [|by eapply Forall_forall in HF].
        intros n d id tk -> Hn. destruct (num_owner _ _ _ _ _ HF Hf Hn) as [ids Hs].
        apply lstep_call in Hl as (v & fb & e & en & l & k & st0 & -> & _).
        pose proof (si_frames _ Hi _ _ Ht) as [HF' _]%Forall_cons.
        destruct HF' as (? & ? & _ & _ & Hs' & _). congruence. }
      destruct nx as [st1|fl|]; simpl in Hu.
      - destruct (decide (t = u)) as [->|Hne].
        + rewrite lookup_insert_eq in Hu. injection Hu as <-. by eapply stack_step.
        + rewrite lookup_insert_ne in Hu by done. by apply Hold.
      - destruct (decide (t = u)) as [->|Hne]; [by rewrite lookup_insert_eq in Hu|].
        rewrite lookup_insert_ne in Hu by done. by apply Hold.
      - destruct (decide (t = u)) as [->|Hne]; [|by apply Hold].
        apply lstep_abort in Hl as ->.
        apply stack_inv_perform; [done|].
        split_and!; [by eapply si_frames|by eapply si_nums|by eapply si_running]. }
    split.
    + rewrite mw_move, lists_move. simpl. destruct (publishes a (mw m)) eqn:Hp; [by rewrite last_snoc|].
      rewrite unpublished by done. apply Hi.
    + intros u st' Hu. by apply Hstacks, (stack_inv_move t nx) in Hu as [HF _].
    + intros u st' Hu. by apply Hstacks, (stack_inv_move t nx) in Hu as (_ & HN & _).
    + intros u st' Hu. by apply Hstacks, (stack_inv_move t nx) in Hu as (_ & _ & HL).
    + intros u n id. rewrite called_move, snaps_move. intros Hin.
      assert ((u, n, id) ∈ called m \/ (exists d tk, a = ACall n d id tk /\ u = t)) as [Hin'|(d & tk & -> & ->)].
      { simpl in Hin. destruct a; try (by left). apply elem_of_app in Hin as [?|Hin]; [by left|].
        apply list_elem_of_singleton in Hin as [= -> -> ->]. right. eauto. }
      * destruct (si_calls _ Hi _ _ _ Hin') as [ids Hs]. exists ids.
        apply (prefix_lookup_Some (snaps m)); [done|apply perform_snaps].
      * apply lstep_call in Hl as (v & fb & e & en & l & k & st0 & -> & _).
        pose proof (si_frames _ Hi _ _ Ht) as [(? & ? & _ & _ & Hs' & _) _]%Forall_cons. eauto.
    + intros n u ids. rewrite snaps_move. intros Hs.
      rewrite called_of_move.
      assert ((exists d id tk, a = ACall n d id tk) \/ forall d id tk, a <> ACall n d id tk) as [(d & id & tk & ->)|Hna].
      { destruct a; try (by right). destruct (decide (n0 = n)) as [->|]; [left; eauto|right; congruence]. }
      * apply lstep_call in Hl as (v & fb & e & en & l & k & st0 & -> & ->).
        pose proof (si_frames _ Hi _ _ Ht) as [(? & before & _ & -> & Hs' & Hc) _]%Forall_cons.
        simpl in Hs. rewrite Hs' in Hs. injection Hs as <- <-.
        rewrite called_of_perform, Hc, decide_True, fmap_app by done.
        rewrite fmap_cons. apply prefix_app. by apply prefix_cons, prefix_nil.
      * assert (called_of n (perform t a m) = called_of n m) as ->.
        { rewrite called_of_perform. destruct a; rewrite ?app_nil_r; try done.
          rewrite decide_False, app_nil_r; [done|]. intros ->. by eapply Hna. }
        destruct (decide (n < length (snaps m))) as [Hlt|Hge].
        -- apply (si_prefix _ Hi n u). destruct (lookup_lt_is_Some_2 _ _ Hlt) as [x Hx].
           rewrite (prefix_lookup_lt (snaps m) _ n Hlt (perform_snaps t a m)). done.
        -- replace (called_of n m) with (@nil HandlerId); [apply prefix_nil|]. symmetry.
           unfold called_of. rewrite filter_all_false; [done|].
           apply Forall_forall. intros [[u' n'] id'] Hc Hn'. simpl in Hn'. subst n'.
           destruct (si_calls _ Hi _ _ _ Hc) as [? ?%lookup_lt_Some]. lia.
Qed.
End Snapshots.
