(* ===== verification/SyncThreadsQuiet.v ===== *)
(** Panics on several threads (src/src/sync/mod.rs): if panic payloads can be dropped, no
    dispatch of any thread is cut short. *)
From S2P Require Import Prelude HandlerId HandlerList HandlerStore PanicInfo SyncRegistry SyncProofs SyncPanics.
From S2P Require Import SyncWf SyncThreads SyncThreadsExec SyncThreadsInv SyncThreadsSnap.

Section Quiet.
Context {E O : Type}.
Abbreviation Vec := (list (HandlerEntry (stored E O))).
Abbreviation World := (world E O Vec).
Implicit Types (w : World) (p k : prog E O) (st : list (frame E O)) (m : machine E O) (f : frame E O).

(** Every panic in sight has a payload that can be dropped quietly. *)
Abbreviation okq := (ok quiet true true).

Definition frame_ok f : Prop :=
  match f with
  | FRun p => okq p
  | FInsert entry k => stored_ok quiet true (handler entry) /\ okq k
  | FWait _ _ k => okq k
  | FDispatch _ _ _ _ rest k => Forall (fun entry => stored_ok quiet true (handler entry)) rest /\ okq k
  | FHandler _ _ => True
  | FCount _ pl | FReport _ pl | FCallback pl => quiet pl
  end.

Definition next_ok (nx : next E O) : Prop :=
  match nx with Goto st => Forall frame_ok st | End _ => True | Abort => False end.

Lemma quiet_drop_both second pl :
  (forall q, second = Some q -> quiet q) -> quiet pl -> drop_both second pl = Done.
Proof.
  intros Hs Hpl. unfold drop_both, quiet in *. rewrite Hpl.
  destruct second as [q|]; simpl; [by rewrite (Hs q)|done].
Qed.

(** The programs an access installs are quiet. *)
Definition action_ok (a : action E O) : Prop :=
  match a with
  | AIssueOnce h => forall e, okq (h e)
  | AInsert entry => stored_ok quiet true (handler entry)
  | AOnPanic cb => forall i, okq (cb i)
  | _ => True
  end.

Lemma action_world_ok a w :
  action_ok a -> world_ok quiet true w -> world_ok quiet true (apply_action a w).
Proof.
  intros Ha Hw. destruct a as [|ev| |h|entry|id| |cb| | |n d id take|id pl]; simpl in *; try done;
    try (by eapply world_ok_same).
  - destruct Hw as [Hh Hs Hc]. split; simpl; [done| |done].
    intros slot h0. rewrite lookup_app_Some, list_lookup_singleton_Some.
    intros [?|(_ & _ & [= <-])]; [by eapply Hs|done].
  - destruct Hw as [Hh Hs Hc]. split; simpl; [|done..].
    intros en [->|He]%insert_entry_elem; [done|by auto].
  - by apply unregister_ok.
  - by apply clear_ok.
  - destruct Hw. split; simpl; [done|done|by intros ? [= <-]].
  - destruct Hw. by split.
  - destruct take as [slot|]; [|by eapply world_ok_same].
    destruct Hw as [H1 H2 H3]. split; simpl; [done| |done].
    intros slot0 h0 [(_ & ? & _)|[_ ?]]%list_lookup_insert_Some; [done|by eapply H2].
Qed.

Lemma remove_if_ok b id w : action_ok (remove_if b id w).
Proof. unfold remove_if. by destruct (b && alive w). Qed.

Lemma resume_ok w fl st a nx :
  (forall pl, fl = Panicked pl -> quiet pl) -> fl <> Aborted -> Forall frame_ok st ->
  resume w fl st = Some (a, nx) -> next_ok nx /\ action_ok a.
Proof.
  intros Hfl Hab Hst. destruct st as [|f st]; simpl; [by intros [= <- <-]|].
  apply Forall_cons in Hst as [Hf Hst]. destruct f; try done.
  - intros [= <- <-]. split.
    + destruct fl; try done. simpl. constructor; [by apply Hfl|done].
    + destruct once as [oid|]; [|done]. apply (remove_if_ok true).
  - destruct st as [|f st]; [done|]. apply Forall_cons in Hst as [Hf' Hst]. destruct f; try done.
    intros [= <- <-]. split; [|done]. rewrite quiet_drop_both; [by constructor| |done].
    destruct fl; try done. intros q [= <-]. by apply Hfl.
Qed.

Lemma local_step_ok may b ver num st w a nx :
  Forall frame_ok st -> world_ok quiet true w -> local_step may b ver num st w = Some (a, nx) ->
  next_ok nx /\ action_ok a.
Proof.
  intros Hst Hw. destruct st as [|f st]; [done|]. pose proof Hst as [Hf Hst']%Forall_cons.
  destruct f as [p|entry k|since cof k|n v fb e l k|id once|id pl|id pl|pl]; cbn [local_step]; try done.
  - destruct p; simpl in Hf; destruct_and?; cbn [step_prog];
      try (by apply resume_ok; [intros ? [= <-]|..]);
      try (by intros [= <- <-]; split; [repeat constructor; simpl; eauto|]).
    + intros [= <- <-]. split; [|done]. constructor; [|done]. by destruct (contains id (reg w)); simpl; eauto.
    + intros [= <- <-]. split; [|done]. constructor; [|done]. by destruct (is_empty (reg w)).
    + intros [= <- <-]. split; [|done]. constructor; [|done]. split; [|done].
      apply Forall_forall. apply (wo_handlers _ _ _ Hw).
    + intros [= <- <-]. split; [by constructor|]. apply remove_if_ok.
  - destruct Hf as [He Hk]. intros [= <- <-]. split; [by constructor|done].
  - destruct (may since cof); [|done]. intros [= <- <-]. split; [by constructor|done].
  - destruct Hf as [Hl Hk]. unfold step_dispatch. destruct l as [|entry l].
    { intros [= <- <-]. split; [by constructor|done]. }
    apply Forall_cons in Hl as [He Hl].
    assert (Forall frame_ok (FDispatch n v fb e l k :: st)) as Hback by (by constructor).
    destruct (handler entry) as [h|slot id].
    + intros [= <- <-]. split; [|done]. constructor; [apply He|]. by constructor.
    + destruct (once_slots w !! slot) as [[h|]|] eqn:Hs; intros [= <- <-]; (split; [|done]); try done.
      constructor; [by eapply (wo_slots _ _ _ Hw)|]. by constructor.
  - intros [= <- <-]. split; [by constructor|done].
  - destruct (panic_callback (reg w)) as [holder|] eqn:Hc.
    + intros [= <- <-]. split; [|done]. constructor; [by eapply (wo_callback _ _ _ Hw)|]. by constructor.
    + intros Hr. eapply (resume_ok w Done); [done|done| |exact Hr]. by constructor.
Qed.

Definition quiet_inv m : Prop :=
  halted m = false /\ world_ok quiet true (mw m) /\
  forall t st, threads m !! t = Some (Running st) -> Forall frame_ok st.

Lemma quiet_start ps :
  (forall u p, ps !! u = Some p -> okq p) -> quiet_inv (start world_new ps).
Proof.
  intros Hps. split; [done|]. split.
  - split; simpl; [by intros ? ?%elem_of_nil|by intros []|done].
  - intros t st. simpl. rewrite lookup_fmap. destruct (ps !! t) as [p|] eqn:Hp; simpl; [|done].
    intros [= <-]. constructor; [by eapply Hps|done].
Qed.

Lemma quiet_step t b m m' : quiet_inv m -> step t b m = Some m' -> quiet_inv m'.
Proof.
  intros (Hh & Hw & Hst) (st & a & nx & _ & Ht & Hl & ->)%step_Some.
  apply local_step_ok in Hl as [Hnx Ha]; [|by eapply Hst|done].
  split; [by destruct nx|]. split; [rewrite mw_move; by apply action_world_ok|].
  intros u st' Hu. destruct nx as [st1|fl|]; simpl in Hu; [| |done].
  - destruct (decide (t = u)) as [->|Hne]; [rewrite lookup_insert_eq in Hu; by injection Hu as <-|].
    rewrite lookup_insert_ne in Hu by done. by eapply Hst.
  - destruct (decide (t = u)) as [->|Hne]; [by rewrite lookup_insert_eq in Hu|].
    rewrite lookup_insert_ne in Hu by done. by eapply Hst.
Qed.

Lemma reachable_quiet ps m : (forall u p, ps !! u = Some p -> okq p) -> reachable ps m -> quiet_inv m.
Proof.
  intros Hps. induction 1 as [|t b m m' _ IH Hs]; [by apply quiet_start|]. by eapply quiet_step.
Qed.

(** ** Dispatches end only when they have called everything *)

Lemma nums_step may ver num w st a nx n :
  Forall frame_ok st -> lstep may ver num w st a nx -> n ∈ nums st ->
  (exists st', nx = Goto st' /\ n ∈ nums st') \/
  (exists v fb e k st', st = FDispatch n v fb e [] k :: st').
Proof.
  intros Hok Hl Hn. destruct Hl; try (left; eexists; split; [reflexivity|]; rewrite !nums_cons in *; done).
  - left. eexists. split; [done|]. rewrite nums_cons in *. set_solver.
  - rewrite nums_cons in Hn. simpl in Hn. apply elem_of_cons in Hn as [->|Hn]; [right; eauto 10|].
    left. eexists. split; [done|]. by rewrite nums_cons.
  - by apply elem_of_nil in Hn.
  - assert (drop_both (second_of fl) pl = Done) as ->.
    { apply quiet_drop_both; destruct H as [(id & -> & ->)|(p & -> & Hp)]; simpl in Hok; try done.
      - intros q Hq. destruct fl; try done. injection Hq as <-. simpl in Hp. subst p.
        by apply Forall_cons in Hok as [? _].
      - by apply Forall_cons in Hok as [? _].
      - by apply Forall_cons in Hok as [_ [? _]%Forall_cons]. }
    left. eexists. split; [done|]. destruct H as [(id & -> & _)|(p & -> & _)]; done.
Qed.

(** A dispatch is in progress, or has called every handler of its list. *)
Definition complete_inv m : Prop :=
  forall n t ids, snaps m !! n = Some (t, ids) ->
    called_of n m = ids \/ exists st, threads m !! t = Some (Running st) /\ n ∈ nums st.

Lemma complete_step t a nx m st :
  snap_inv m -> snap_inv (move t nx (perform t a m)) -> quiet_inv m -> complete_inv m ->
  threads m !! t = Some (Running st) ->
  lstep (may_return m t) (version m) (length (snaps m)) (mw m) st a nx ->
  complete_inv (move t nx (perform t a m)).
Proof.
  intros Hi Hi' (_ & _ & Hq) Hc Ht Hl n u ids Hs.
  rewrite called_of_move. pose proof (si_prefix _ Hi' _ _ _ Hs) as Hpre. rewrite called_of_move in Hpre.
  rewrite snaps_move in Hs. destruct (decide (n < length (snaps m))) as [Hlt|Hge].
  - rewrite <- (prefix_lookup_lt (snaps m) _ n Hlt (perform_snaps t a m)) in Hs.
    destruct (Hc _ _ _ Hs) as [Hdone|(st0 & Hu & Hn)].
    + left. rewrite called_of_perform in *. rewrite Hdone in *.
      destruct Hpre as [x Hx]. rewrite <- app_assoc in Hx.
      rewrite <- (app_nil_r ids) in Hx at 1. apply app_inv_head in Hx.
      symmetry in Hx. apply app_eq_nil in Hx as [-> _]. apply app_nil_r.
    + destruct (decide (t = u)) as [->|Hne].
      * rewrite Ht in Hu. injection Hu as <-.
        destruct (nums_step _ _ _ _ _ _ _ n (Hq _ _ Ht) Hl Hn)
          as [(st' & -> & Hn')|(v & fb & e & k & st' & ->)].
        -- right. exists st'. simpl. by rewrite lookup_insert_eq.
        -- left. pose proof (si_frames _ Hi _ _ Ht) as [(l & before & _ & -> & Hs' & Hcl) _]%Forall_cons.
           rewrite Hs' in Hs. injection Hs as <-. rewrite app_nil_r in *.
           rewrite called_of_perform, Hcl. inversion Hl; subst; by rewrite app_nil_r.
      * right. exists st0. split; [|done]. destruct nx; simpl; by rewrite ?lookup_insert_ne by done.
  - simpl in Hs. assert (a = ASnap) as -> by (destruct a; try done; by apply lookup_lt_Some in Hs; lia).
    apply lookup_snoc_Some in Hs as [[? _]|[-> [= <- <-]]]; [lia|]. right.
    inversion Hl; subst; try done; [by repeat case_match; naive_solver|].
    eexists. simpl. rewrite lookup_insert_eq. split; [done|]. rewrite nums_cons. simpl. left.
Qed.

Lemma reachable_complete ps m :
  (forall u p, ps !! u = Some p -> okq p) -> reachable ps m -> complete_inv m.
Proof.
  intros Hps Hm. induction Hm as [|t b m m' Hm IH Hs]; [by intros n t ids|].
  pose proof (reachable_snap _ _ Hm) as Hi. pose proof (reachable_quiet _ _ Hps Hm) as Hq.
  assert (reachable ps m') as Hm' by (by econstructor). apply reachable_snap in Hm'.
  apply step_lstep in Hs as (st & a & nx & _ & Ht & Hl & ->). by eapply complete_step.
Qed.
End Quiet.
