(* ===== verification/SyncThreadsIds.v ===== *)
(** Ids on several threads (src/src/sync/mod.rs): an id is issued in one step and its entry
    inserted in a later one, so entries may be inserted in another order than their ids were
    issued; still no two entries ever have the same id, and a removed id does not come
    back. *)
From S2P Require Import Prelude HandlerId HandlerList HandlerStore PanicInfo SyncRegistry SyncProofs SyncPanics.
From S2P Require Import SyncRefine SyncWf SyncThreads SyncThreadsExec SyncThreadsInv SyncThreadsSnap.

Section Ids.
Context {E O : Type}.
Abbreviation Vec := (list (HandlerEntry (stored E O))).
Abbreviation World := (world E O Vec).
Implicit Types (w : World) (st : list (frame E O)) (m : machine E O) (en : HandlerEntry (stored E O)).

Abbreviation ids w := (entry_id <$> handlers (reg w)).
Abbreviation gen w := (gen_next (id_generator (reg w))).

(** ** What accesses do to the list and the generator *)

Definition issues (a : action E O) : bool :=
  match a with AIssue | AIssueOnce _ => true | _ => false end.

Definition inserts (a : action E O) : bool := match a with AInsert _ => true | _ => false end.

(** An access that neither issues nor inserts only shrinks the list. *)
Lemma action_shrinks a w :
  issues a = false -> inserts a = false -> (forall ev, a = ALog ev -> is_issue ev = false) ->
  handlers (reg (apply_action a w)) `sublist_of` handlers (reg w) /\
  gen (apply_action a w) = gen w /\ issued (apply_action a w) = issued w.
Proof.
  intros H1 H2 H3. destruct a as [|ev| |h|entry|id| |cb| | |n d id take|id pl]; simpl; try done.
  - split_and!; try done. rewrite issued_log, H3 by done. lia.
  - rewrite do_unregister_world. simpl. split_and!; [apply remove_id_sublist|by rewrite remove_id_gen|done].
  - unfold clear. split_and!; [apply remove_all_sublist|by rewrite remove_all_gen|done].
  - destruct take; simpl; split_and!; try done; rewrite ?issued_log; simpl.
    + change (issued (log_ev (TCall d id) w) + 0 = issued w)%Z. rewrite issued_log. simpl. lia.
    + lia.
  - split_and!; try done. rewrite issued_log. simpl. unfold issued. simpl. lia.
Qed.

Lemma action_issues a w :
  issues a = true -> handlers (reg (apply_action a w)) = handlers (reg w) /\
  gen (apply_action a w) = u64 (gen w + 1) /\ issued (apply_action a w) = (issued w + 1)%Z.
Proof.
  destruct a; try done; intros _; simpl; (split; [done|]; split; [done|]); rewrite issued_log; done.
Qed.

Lemma action_inserts entry w :
  handlers (reg (apply_action (AInsert entry) w)) = insert_entry entry (handlers (reg w)) /\
  gen (apply_action (AInsert entry) w) = gen w /\ issued (apply_action (AInsert entry) w) = issued w.
Proof. done. Qed.

Lemma lstep_quiet_log may ver num w st a nx ev :
  lstep may ver num w st a nx -> a = ALog ev -> is_issue ev = false.
Proof.
  intros Hl ->. inversion Hl; subst; try done;
    repeat match goal with
    | H : plain_action (ALog ev) = true |- _ => by destruct ev
    end.
  repeat case_match; naive_solver.
Qed.

(** ** Where an id is between the two steps *)

Lemma lstep_issues may ver num w st a nx :
  lstep may ver num w st a nx -> issues a = true ->
  exists p en k st', st = FRun p :: st' /\ nx = Goto (FInsert en k :: st') /\
    entry_id en = (issue_id (reg w)).1.
Proof.
  intros Hl Ha. inversion Hl; subst; try done; try (by destruct a); eauto 10.
Qed.

Lemma lstep_inserts may ver num w st en nx :
  lstep may ver num w st (AInsert en) nx ->
  exists k st', st = FInsert en k :: st' /\ nx = Goto (FRun k :: st').
Proof. inversion 1; subst; try done; [by repeat case_match; naive_solver|eauto]. Qed.

Lemma lstep_pending may ver num w st a en k st' :
  lstep may ver num w st a (Goto (FInsert en k :: st')) -> shaped st = true -> issues a = true.
Proof.
  intros Hl Hs. inversion Hl; subst; try done.
  - repeat case_match; naive_solver.
  - destruct (drop_both _ pl); done.
Qed.

(** The entry of [t] that is about to be inserted. *)
Definition pending m (t : nat) (id : HandlerId) : Prop :=
  exists en k st, threads m !! t = Some (Running (FInsert en k :: st)) /\ entry_id en = id.

Record ids_inv m : Prop := {
  ii_sorted : StronglySorted desc (handlers (reg (mw m)));
  ii_gen : gen (mw m) = (1 + issued (mw m))%Z;
  ii_nodup : NoDup (ids (mw m));
  ii_below id : id ∈ ids (mw m) -> (as_u64 id < gen (mw m))%Z;
  ii_pending t id : pending m t id -> (as_u64 id < gen (mw m))%Z /\ id ∉ ids (mw m);
  ii_unique t u id : pending m t id -> pending m u id -> t = u;
}.

(** [id] was issued, is not in the list, and will not be inserted. *)
Definition gone (id : HandlerId) m : Prop :=
  (as_u64 id < gen (mw m))%Z /\ id ∉ ids (mw m) /\ forall t, ~ pending m t id.

Lemma pending_move m t a nx u id :
  pending (move t nx (perform t a m)) u id ->
  (u <> t /\ pending m u id) \/
  (u = t /\ exists en k st, nx = Goto (FInsert en k :: st) /\ entry_id en = id) \/
  (u = t /\ nx = Abort /\ pending m u id).
Proof.
  intros (en & k & st & Hu & Hid). destruct nx as [st1|fl|]; simpl in Hu.
  - destruct (decide (t = u)) as [->|Hne].
    + rewrite lookup_insert_eq in Hu. injection Hu as ->. right. left. eauto 8.
    + rewrite lookup_insert_ne in Hu by done. left. split; [done|]. by exists en, k, st.
  - destruct (decide (t = u)) as [->|Hne]; [by rewrite lookup_insert_eq in Hu|].
    rewrite lookup_insert_ne in Hu by done. left. split; [done|]. by exists en, k, st.
  - destruct (decide (t = u)) as [->|Hne]; [right; right|left]; (split; [done|]); [split; [done|]|];
      by exists en, k, st.
Qed.

(** ** Steps *)

(** What a step does to the list, the generator and the ids under way. *)
Variant moved (t : nat) m m' : Prop :=
  | M_issue id : id = from_raw (gen (mw m)) -> handlers (reg (mw m')) = handlers (reg (mw m)) ->
      gen (mw m') = u64 (gen (mw m) + 1) -> issued (mw m') = (issued (mw m) + 1)%Z ->
      (forall u x, pending m' u x -> (u <> t /\ pending m u x) \/ (u = t /\ x = id)) -> moved t m m'
  | M_insert en : pending m t (entry_id en) ->
      handlers (reg (mw m')) = insert_entry en (handlers (reg (mw m))) ->
      gen (mw m') = gen (mw m) -> issued (mw m') = issued (mw m) ->
      (forall u x, pending m' u x -> u <> t /\ pending m u x) -> moved t m m'
  | M_other : handlers (reg (mw m')) `sublist_of` handlers (reg (mw m)) ->
      gen (mw m') = gen (mw m) -> issued (mw m') = issued (mw m) ->
      (forall u x, pending m' u x -> pending m u x) -> moved t m m'.

Lemma step_moved ps t b m m' : reachable ps m -> step t b m = Some m' -> moved t m m'.
Proof.
  intros Hm (st & a & nx & _ & Ht & Hl & ->)%step_lstep.
  pose proof (reachable_shaped _ _ _ _ Hm Ht) as Hsh.
  destruct (issues a) eqn:Hi; [|destruct (inserts a) eqn:Hn].
  - destruct (lstep_issues _ _ _ _ _ _ _ Hl Hi) as (p & en & k & st' & -> & -> & Hid).
    destruct (action_issues a (mw m) Hi) as (H1 & H2 & H3).
    eapply M_issue; rewrite ?mw_move; [reflexivity|done..|].
    intros u x [?|[(-> & en' & k' & st1 & [= <- <- <-] & <-)|(_ & ? & _)]]%pending_move; [by left|by right|done].
  - destruct a as [| | | |en| | | | | | |]; try done.
    destruct (lstep_inserts _ _ _ _ _ _ _ Hl) as (k & st' & -> & ->).
    eapply M_insert; rewrite ?mw_move; [|done..|]; [by exists en, k, st'|].
    intros u x [?|[(_ & ? & ? & ? & ? & _)|(_ & ? & _)]]%pending_move; done.
  - destruct (action_shrinks a (mw m) Hi Hn) as (H1 & H2 & H3); [intros ev; by eapply lstep_quiet_log|].
    apply M_other; rewrite ?mw_move; [done..|].
    intros u x [[_ ?]|[(-> & en & k & st1 & -> & _)|(_ & _ & ?)]]%pending_move; [done| |done].
    by rewrite (lstep_pending _ _ _ _ _ _ _ _ _ Hl Hsh) in Hi.
Qed.

Lemma issued_mono ps t b m m' : reachable ps m -> step t b m = Some m' -> (issued (mw m) <= issued (mw m'))%Z.
Proof. intros Hm Hs. destruct (step_moved _ _ _ _ _ Hm Hs); lia. Qed.

Lemma issued_run ps l m m' : reachable ps m -> run l m = Some m' -> (issued (mw m) <= issued (mw m'))%Z.
Proof.
  revert m. induction l as [|[t b] l IH]; intros m Hm; simpl; [intros [= <-]; lia|].
  intros (m1 & Hs & Hr)%bind_Some. pose proof (issued_mono _ _ _ _ _ Hm Hs).
  assert (reachable ps m1) as Hm1 by (by econstructor). specialize (IH _ Hm1 Hr). lia.
Qed.

Lemma ids_inv_step ps t b m m' :
  reachable ps m -> step t b m = Some m' -> no_wrap (mw m') -> ids_inv m -> ids_inv m'.
Proof.
  intros Hm Hs Hw [Hso Hg Hnd Hb Hp Hu]. unfold no_wrap in Hw.
  assert (0 <= issued (mw m))%Z as Hpos by (unfold issued; lia).
  destruct (step_moved _ _ _ _ _ Hm Hs) as [id -> Hh Hgen Hiss Hpe|en Hen Hh Hgen Hiss Hpe|Hh Hgen Hiss Hpe].
  - assert (gen (mw m') = (gen (mw m) + 1)%Z) as Hgen' by (rewrite Hgen; apply u64_small; lia). clear Hgen.
    split; rewrite ?Hh, ?Hgen'; [done|lia|done| | |].
    + intros id Hid%Hb. lia.
    + intros u x [[_ Hx%Hp]|[_ ->]]%Hpe; [split; [lia|naive_solver]|]. simpl. split; [lia|].
      intros Hid%Hb. simpl in Hid. lia.
    + intros u v x [[Hu1 Hx]|[-> ->]]%Hpe [[Hu2 Hy]|[-> Heq]]%Hpe; [by eapply Hu| |
        |done].
      * subst x. apply Hp in Hx as [Hx _]. simpl in Hx. lia.
      * apply Hp in Hy as [Hy _]. simpl in Hy. lia.
  - assert (entry_id <$> insert_entry en (handlers (reg (mw m))) ≡ₚ entry_id en :: ids (mw m)) as Hperm.
    { by rewrite (insert_entry_perm en _ Hso). }
    pose proof (Hp _ _ Hen) as [Hlt Hnin].
    split; rewrite ?Hh, ?Hgen, ?Hiss; [|done| | | |].
    + rewrite insert_entry_ref by done. by apply insert_ref_sorted.
    + rewrite Hperm. by constructor.
    + intros id. rewrite Hperm. intros [->|?%Hb]%elem_of_cons; lia.
    + intros u x [Hne Hx]%Hpe. destruct (Hp _ _ Hx) as [H1 H2]. split; [done|].
      rewrite Hperm, elem_of_cons. intros [->|?]; [|done]. apply Hne. by eapply Hu.
    + intros u v x [_ Hx]%Hpe [_ Hy]%Hpe. by eapply Hu.
  - assert (ids (mw m') `sublist_of` ids (mw m)) as Hids by (by apply fmap_sublist).
    split; rewrite ?Hgen, ?Hiss; [by eapply StronglySorted_sublist|done|by eapply sublist_NoDup| | |].
    + intros id Hid. by eapply Hb, sublist_subseteq.
    + intros u x [H1 H2]%Hpe%Hp. split; [done|]. intros Hx. by eapply H2, sublist_subseteq.
    + intros u v x Hx%Hpe Hy%Hpe. by eapply Hu.
Qed.

Lemma reachable_ids ps m : reachable ps m -> no_wrap (mw m) -> ids_inv m.
Proof.
  induction 1 as [|t b m m' Hm IH Hs]; intros Hw.
  - split; simpl; [constructor|done|constructor|by intros ? ?%elem_of_nil| |].
    + intros t id (en & k & st & Ht & _). simpl in Ht. rewrite lookup_fmap in Ht. by destruct (ps !! t).
    + intros t u id (en & k & st & Ht & _). simpl in Ht. rewrite lookup_fmap in Ht. by destruct (ps !! t).
  - eapply ids_inv_step; [done..|]. apply IH. pose proof (issued_mono _ _ _ _ _ Hm Hs). unfold no_wrap in *. lia.
Qed.

Lemma gone_step ps t b m m' id :
  reachable ps m -> step t b m = Some m' -> no_wrap (mw m') -> gone id m -> gone id m'.
Proof.
  intros Hm Hs Hw (Hlt & Hnin & Hnp). unfold no_wrap in Hw.
  assert (0 <= issued (mw m))%Z as Hpos by (unfold issued; lia).
  assert (ids_inv m) as [Hso Hg _ _ _ _].
  { apply (reachable_ids ps); [done|]. pose proof (issued_mono _ _ _ _ _ Hm Hs). unfold no_wrap. lia. }
  destruct (step_moved _ _ _ _ _ Hm Hs) as [x -> Hh Hgen Hiss Hpe|en Hen Hh Hgen Hiss Hpe|Hh Hgen Hiss Hpe].
  - rewrite u64_small in Hgen by lia. split_and!; rewrite ?Hgen, ?Hh; [lia|done|].
    intros u [[_ ?]|[_ ->]]%Hpe; [by eapply Hnp|]. simpl in Hlt. lia.
  - split_and!; rewrite ?Hgen, ?Hh; [done| |intros u [_ ?]%Hpe; by eapply Hnp].
    rewrite (insert_entry_perm en _ Hso), fmap_cons, elem_of_cons. intros [->|?]; [|done]. by eapply Hnp.
  - split_and!; rewrite ?Hgen; [done| |intros u ?%Hpe; by eapply Hnp].
    intros Hx. eapply Hnin, sublist_subseteq; [by apply fmap_sublist|done].
Qed.

Lemma gone_run ps l m m' id :
  reachable ps m -> run l m = Some m' -> no_wrap (mw m') -> gone id m -> gone id m'.
Proof.
  revert m. induction l as [|[t b] l IH]; intros m Hm; simpl; [by intros [= <-]|].
  intros (m1 & Hs & Hr)%bind_Some Hw Hgo. assert (reachable ps m1) as Hm1 by (by econstructor).
  eapply IH; [done..|]. apply (gone_step ps t b m); [done..| |done].
  pose proof (issued_run _ _ _ _ Hm1 Hr). unfold no_wrap in *. lia.
Qed.

(** An id that was in the list and was removed is gone. *)
Lemma removed_gone id w : NoDup (ids w) -> id ∉ ids (apply_action (ARemove id) w : World).
Proof.
  intros Hnd. simpl. rewrite do_unregister_world. simpl. unfold remove_id. simpl.
  destruct (remove_id_list id (handlers (reg w))) as [l|] eqn:Hr; simpl.
  - apply remove_id_list_filter in Hr as ->; [|done]. intros (en & -> & Hen)%list_elem_of_fmap.
    by apply list_elem_of_filter in Hen as [? _].
  - by apply remove_id_list_None in Hr.
Qed.

(** ** The lists that were published *)

(** Sorted by priority, without duplicate ids. *)
Definition list_wf (l : Vec) : Prop := StronglySorted desc l /\ NoDup (entry_id <$> l).

Lemma reachable_lists ps m : reachable ps m -> no_wrap (mw m) -> Forall list_wf (lists m).
Proof.
  induction 1 as [|t b m m' Hm IH Hs]; intros Hw.
  { simpl. repeat constructor. }
  assert (ids_inv m') as [Hso _ Hnd _ _ _] by (apply (reachable_ids ps); [by econstructor|done]).
  assert (Forall list_wf (lists m)) as HF.
  { apply IH. pose proof (issued_mono _ _ _ _ _ Hm Hs). unfold no_wrap in *. lia. }
  apply step_Some in Hs as (st & a & nx & _ & _ & _ & ->). rewrite lists_move, mw_move in *. simpl in *.
  destruct (publishes a (mw m)); [|done]. apply Forall_app. split; [done|]. by constructor.
Qed.

(** A dispatch reads a list that was published. *)
Definition read_inv m : Prop :=
  handlers (reg (mw m)) ∈ lists m /\
  forall n t l, snaps m !! n = Some (t, l) -> exists ls, ls ∈ lists m /\ l = entry_id <$> ls.

Lemma reachable_read ps m : reachable ps m -> read_inv m.
Proof.
  intros Hm. pattern m. eapply reachable_ind_inv; [| |exact Hm].
  - split; [left|by intros n t l].
  - clear m Hm. intros t m st a nx [Hc Hs] _ _ _. unfold read_inv. rewrite mw_move, lists_move, snaps_move.
    assert (handlers (reg (mw (perform t a m))) ∈ lists (perform t a m)) as Hc'.
    { simpl. destruct (publishes a (mw m)) eqn:Hp; [apply elem_of_app; right; left|by rewrite unpublished]. }
    split; [done|]. intros n u l Hl.
    assert (snaps m !! n = Some (u, l) \/ l = entry_id <$> handlers (reg (mw (perform t a m)))) as [Hl'| ->].
    { simpl in Hl. destruct a; try (by left). apply lookup_snoc_Some in Hl as [[_ ?]|[_ [= _ <-]]]; auto. }
    + destruct (Hs _ _ _ Hl') as (ls & Hls & ->). exists ls. split; [|done].
      by eapply elem_of_prefix, perform_lists.
    + by eexists.
Qed.
End Ids.
