(* ===== verification/SyncThreadsWait.v ===== *)
(** What a removal and a wait leave behind on the other threads (src/src/sync/mod.rs):
    lists without the id, and dispatches that walk only such lists. *)
From S2P Require Import Prelude HandlerId HandlerList HandlerStore PanicInfo SyncRegistry SyncProofs SyncPanics.
From S2P Require Import SyncRefine SyncWf SyncThreads SyncThreadsExec SyncThreadsInv SyncThreadsSnap SyncThreadsIds.

Section Removed.
Context {E O : Type}.
Abbreviation Vec := (list (HandlerEntry (stored E O))).
Abbreviation World := (world E O Vec).
Implicit Types (w : World) (st : list (frame E O)) (m : machine E O) (ps : gmap nat (prog E O)).

Abbreviation ids w := (entry_id <$> handlers (reg w)).

Lemma contains_false id w : contains id (reg w) = false <-> id ∉ ids w.
Proof. rewrite <- not_true_iff_false. by rewrite contains_spec. Qed.

(** The lists and dispatches of a later machine extend those of an earlier one. *)
Lemma run_prefix l m m' :
  run l m = Some m' -> lists m `prefix_of` lists m' /\ snaps m `prefix_of` snaps m'.
Proof.
  revert m. induction l as [|[t b] l IH]; intros m; simpl; [by intros [= <-]|].
  intros (m1 & (st & a & nx & _ & _ & _ & ->)%step_Some & Hr)%bind_Some.
  apply IH in Hr as [H1 H2]. rewrite lists_move in H1. rewrite snaps_move in H2.
  split; (etrans; [|eassumption]); [apply perform_lists|apply perform_snaps].
Qed.

(** A step that takes [id] out of the list. *)
Lemma removed_is_gone ps t b m m' id :
  reachable ps m -> step t b m = Some m' -> no_wrap (mw m') ->
  contains id (reg (mw m)) = true -> contains id (reg (mw m')) = false -> gone id m'.
Proof.
  intros Hm Hs Hw Hin%contains_spec Hout%contains_false. unfold no_wrap in Hw.
  assert (0 <= issued (mw m))%Z by (unfold issued; lia).
  assert (ids_inv m) as [Hso Hg _ Hb Hp _].
  { apply (reachable_ids ps); [done|]. pose proof (issued_mono _ _ _ _ _ Hm Hs). unfold no_wrap. lia. }
  pose proof (Hb _ Hin) as Hlt.
  destruct (step_moved _ _ _ _ _ Hm Hs) as [x -> Hh Hgen Hiss Hpe|en Hen Hh Hgen Hiss Hpe|Hh Hgen Hiss Hpe].
  - by rewrite Hh in Hout.
  - rewrite Hh, (insert_entry_perm en _ Hso), fmap_cons in Hout. set_solver.
  - split_and!; [by rewrite Hgen|done|]. intros u Hx%Hpe%Hp. by destruct Hx.
Qed.

(** ** What is published and read once an id is gone *)

(** From list number [v0] and dispatch number [n0] on, [id] does not occur. *)
Definition absent (id : HandlerId) (v0 n0 : nat) m : Prop :=
  (forall v l, v0 <= v -> lists m !! v = Some l -> id ∉ entry_id <$> l) /\
  (forall n u l, n0 <= n -> snaps m !! n = Some (u, l) -> id ∉ l).

Lemma absent_kept ps t b m m' id v0 n0 :
  reachable ps m -> step t b m = Some m' -> gone id m -> gone id m' ->
  absent id v0 n0 m -> absent id v0 n0 m'.
Proof.
  intros Hm Hs (_ & Hg & _) (_ & Hg' & _) [Hl Hn].
  apply step_lstep in Hs as (st & a & nx & _ & Ht & Hst & ->).
  rewrite mw_move in Hg'. split.
  - intros v l Hv. rewrite lists_move. simpl. destruct (publishes a (mw m)); [|by apply Hl].
    intros [[_ ?]|[_ <-]]%lookup_snoc_Some; [by eapply Hl|done].
  - intros n u l Hge. rewrite snaps_move. simpl. destruct a; try (by apply Hn).
    intros [[_ ?]|[_ [= <- <-]]]%lookup_snoc_Some; [by eapply Hn|done].
Qed.

Lemma absent_kept_run ps l m m' id v0 n0 :
  reachable ps m -> run l m = Some m' -> no_wrap (mw m') -> gone id m ->
  absent id v0 n0 m -> absent id v0 n0 m'.
Proof.
  revert m. induction l as [|[t b] l IH]; intros m Hm; simpl; [by intros [= <-]|].
  intros (m1 & Hs & Hr)%bind_Some Hw Hgo Hab. assert (reachable ps m1) as Hm1 by (by econstructor).
  assert (gone id m1) as Hgo1.
  { apply (gone_step ps t b m); [done..| |done].
    pose proof (issued_run _ _ _ _ Hm1 Hr). unfold no_wrap in *. lia. }
  eapply IH; [done..|]. by apply (absent_kept ps t b m).
Qed.

(** Calls are of handlers of the list that was read. *)
Lemma call_in_snapshot m u n id :
  snap_inv m -> (u, n, id) ∈ called m -> exists l, snaps m !! n = Some (u, l) /\ id ∈ l.
Proof.
  intros Hi Hc. destruct (si_calls _ Hi _ _ _ Hc) as [l Hs]. exists l. split; [done|].
  eapply elem_of_prefix; [|exact (si_prefix _ Hi _ _ _ Hs)].
  apply list_elem_of_fmap. exists (u, n, id). split; [done|]. by apply list_elem_of_filter.
Qed.

(** A handler that runs was called by a dispatch over a list with its id. *)
Lemma running_in_list m st id once :
  base st = true -> in_list m st -> FHandler id once ∈ st ->
  exists n v fb e l k ls, FDispatch n v fb e l k ∈ st /\ lists m !! v = Some ls /\ id ∈ entry_id <$> ls.
Proof.
  remember (length st) as x eqn:Hx. revert st Hx. induction (lt_wf x) as [x _ IH]. intros st -> Hb Hl Hin.
  destruct st as [|f [|g st]]; [by apply elem_of_nil in Hin|by destruct f|].
  assert (exists n v fb e l k, g = FDispatch n v fb e l k /\ base st = true) as (n & v & fb & e & l & k & -> & Hb').
  { destruct f; try done; destruct g; try done; eauto 8. }
  apply elem_of_cons in Hin as [<-|Hin].
  - destruct Hl as [(ls & Hls & Hid) _]. exists n, v, fb, e, l, k, ls. split_and!; try done. right. left.
  - apply in_list_tail in Hl. apply in_list_tail in Hl. apply elem_of_cons in Hin as [?|Hin]; [done|].
    edestruct (IH (length st)) as (n' & v' & fb' & e' & l' & k' & ls & H1 & H2); [simpl; lia|done..|].
    exists n', v', fb', e', l', k', ls. split; [|done]. right. by right.
Qed.

Lemma shaped_running m st id once :
  shaped st = true -> in_list m st -> FHandler id once ∈ st ->
  exists n v fb e l k ls, FDispatch n v fb e l k ∈ st /\ lists m !! v = Some ls /\ id ∈ entry_id <$> ls.
Proof.
  intros Hs Hl Hin. destruct st as [|f st]; [done|].
  assert (FHandler id once ∈ st) as Hin'.
  { apply elem_of_cons in Hin as [<-|?]; [|done]. done. }
  apply in_list_tail in Hl.
  assert (base st = true \/ exists n v fb e l k st', st = FDispatch n v fb e l k :: st' /\ base st' = true)
    as [Hb|(n & v & fb & e & l & k & st' & -> & Hb)].
  { destruct f; try done; [by left..| |]; (destruct st as [|g st]; [done|]; destruct g; try done; right; eauto 10). }
  - destruct (running_in_list m st id once) as (n & v & fb & e & l & k & ls & H1 & H2); [done..|].
    exists n, v, fb, e, l, k, ls. split; [by right|done].
  - apply in_list_tail in Hl. apply elem_of_cons in Hin' as [?|Hin']; [done|].
    destruct (running_in_list m st' id once) as (n' & v' & fb' & e' & l' & k' & ls & H1 & H2); [done..|].
    exists n', v', fb', e', l', k', ls. split; [right; by right|done].
Qed.

(** ** The dispatches on a stack *)

(** A step keeps the dispatches of the stack or adds one over the current list. *)
Lemma lstep_dispatches may ver num w st a st' n v fb e l k :
  lstep may ver num w st a (Goto st') -> FDispatch n v fb e l k ∈ st' ->
  (exists l', FDispatch n v fb e l' k ∈ st) \/ (n = num /\ v = ver).
Proof.
  intros Hl Hin. inversion Hl; subst; try (repeat setoid_rewrite elem_of_cons; rewrite ?elem_of_cons in Hin; naive_solver).
  match goal with |- context [_ ++ ?d :: ?s] => assert (FDispatch n v fb e l k ∈ d :: s) as Hin' end.
  { destruct (drop_both (second_of fl) pl); simplify_eq; [done|].
    apply elem_of_cons in Hin as [?|?]; [done|by right]. }
  left. exists l. apply elem_of_app. by right.
Qed.

Lemma no_older_spec since st :
  no_older since false st = true <->
  forall n v fb e l k, FDispatch n v fb e l k ∈ st -> since <= v.
Proof.
  unfold no_older. rewrite forallb_forall. split.
  - intros H n v fb e l k Hin%list_elem_of_In. apply H in Hin. rewrite andb_false_r in Hin. simpl in Hin.
    by apply bool_decide_eq_true in Hin.
  - intros H f Hin%list_elem_of_In. destruct f; try done. rewrite andb_false_r. simpl.
    apply bool_decide_eq_true. by eapply H.
Qed.

(** The threads other than [t] dispatch over lists from number [since] on, and the
    dispatches of [t] are those of [nums0] or have numbers from [n0] on. *)
Definition fresh (t since n0 : nat) (nums0 : list nat) m : Prop :=
  since < length (lists m) /\ n0 <= length (snaps m) /\
  (forall u st, u <> t -> threads m !! u = Some (Running st) -> no_older since false st = true) /\
  (forall st n, threads m !! t = Some (Running st) -> n ∈ nums st -> n ∈ nums0 \/ n0 <= n).

Lemma fresh_step t since n0 nums0 u b m m' :
  fresh t since n0 nums0 m -> step u b m = Some m' -> fresh t since n0 nums0 m'.
Proof.
  intros (Hv & Hn & Hold & Hown) (st & a & nx & _ & Hu & Hl & ->)%step_lstep.
  unfold fresh. rewrite lists_move, snaps_move.
  pose proof (prefix_length _ _ (perform_lists u a m)) as H1.
  pose proof (prefix_length _ _ (perform_snaps u a m)) as H2.
  split_and!; [lia|lia| |].
  - intros x st' Hx Ht'. destruct nx as [st1|fl|]; simpl in Ht'; [| |by eapply Hold].
    + destruct (decide (u = x)) as [->|Hne]; [|rewrite lookup_insert_ne in Ht' by done; by eapply Hold].
      rewrite lookup_insert_eq in Ht'. injection Ht' as <-. apply no_older_spec.
      intros n v fb e l k [(l' & Hin)|[_ ->]]%(lstep_dispatches _ _ _ _ _ _ _ _ _ _ _ _ _ Hl);
        [|unfold version; lia].
      specialize (Hold _ _ Hx Hu). rewrite no_older_spec in Hold. by eapply Hold.
    + destruct (decide (u = x)) as [->|Hne]; [by rewrite lookup_insert_eq in Ht'|].
      rewrite lookup_insert_ne in Ht' by done; by eapply Hold.
  - intros st' n Ht' Hin. destruct nx as [st1|fl|]; simpl in Ht'; [| |by eapply Hown].
    + destruct (decide (u = t)) as [->|Hne]; [|rewrite lookup_insert_ne in Ht' by done; by eapply Hown].
      rewrite lookup_insert_eq in Ht'. injection Ht' as <-.
      apply in_nums in Hin as (f & Hf & Hfn). destruct f; try done. injection Hfn as ->.
      apply (lstep_dispatches _ _ _ _ _ _ _ _ _ _ _ _ _ Hl) in Hf as [(l' & Hin)|[-> _]]; [|by right].
      eapply Hown; [done|]. apply in_nums. by eexists.
    + destruct (decide (u = t)) as [->|Hne]; [by rewrite lookup_insert_eq in Ht'|].
      rewrite lookup_insert_ne in Ht' by done; by eapply Hown.
Qed.

Lemma fresh_run t since n0 nums0 l m m' :
  fresh t since n0 nums0 m -> run l m = Some m' -> fresh t since n0 nums0 m'.
Proof.
  revert m. induction l as [|[u b] l IH]; intros m Hf; simpl; [by intros [= <-]|].
  intros (m1 & Hs & Hr)%bind_Some. eapply IH; [|done]. by eapply fresh_step.
Qed.

(** A call is by the innermost dispatch of the thread that makes it. *)
Lemma step_calls u b m m' :
  step u b m = Some m' -> called m' = called m \/
  exists n v fb e en l k st, threads m !! u = Some (Running (FDispatch n v fb e (en :: l) k :: st)) /\
    called m' = called m ++ [(u, n, entry_id en)].
Proof.
  intros (st & a & nx & _ & Hu & Hl & ->)%step_lstep. rewrite called_move. simpl.
  destruct a; try (by left). right.
  apply lstep_call in Hl as (v & fb & e & en & l & k & st' & -> & ->). eauto 12.
Qed.

(** Once an id is gone and the older dispatches of the others have ended, only the
    dispatches [nums0] of [t] can call it. *)
Lemma fresh_calls ps t since n0 nums0 id l m m' :
  reachable ps m -> run l m = Some m' -> no_wrap (mw m') -> gone id m ->
  absent id since n0 m -> fresh t since n0 nums0 m ->
  exists more, called m' = called m ++ more /\ forall x n, (x, n, id) ∈ more -> x = t /\ n ∈ nums0.
Proof.
  revert m. induction l as [|[u b] l IH]; intros m Hm; simpl.
  { intros [= <-] _ _ _ _. exists []. rewrite app_nil_r. split; [done|]. by intros ? ? ?%elem_of_nil. }
  intros (m1 & Hs & Hr)%bind_Some Hw Hgo Hab Hf.
  assert (reachable ps m1) as Hm1 by (by econstructor).
  assert (gone id m1) as Hgo1.
  { apply (gone_step ps u b m); [done..| |done].
    pose proof (issued_run _ _ _ _ Hm1 Hr). unfold no_wrap in *. lia. }
  destruct (IH m1) as (more & -> & Hmore); try done;
    [by apply (absent_kept ps u b m)|by eapply fresh_step|].
  destruct (step_calls _ _ _ _ Hs) as [->|(n & v & fb & e & en & l' & k & st & Hu & ->)]; [by exists more|].
  exists ((u, n, entry_id en) :: more). split; [by rewrite <- app_assoc|].
  intros x n' [[= -> -> ->]|?]%elem_of_cons; [|by apply Hmore].
  pose proof (reachable_snap _ _ Hm) as Hi.
  pose proof (si_frames _ Hi _ _ Hu) as [(ls & before & Hls & -> & Hsn & _) _]%Forall_cons.
  assert (entry_id en ∈ entry_id <$> (before ++ en :: l')) as Hin.
  { apply list_elem_of_fmap. exists en. split; [done|]. apply elem_of_app. right. left. }
  destruct Hf as (_ & _ & Hold & Hown), Hab as [Habl Habn].
  destruct (decide (u = t)) as [->|Hne].
  - split; [done|]. destruct (Hown _ n Hu) as [?|Hge]; [rewrite nums_cons; left|done|].
    exfalso. by eapply Habn.
  - exfalso. specialize (Hold _ _ Hne Hu). rewrite no_older_spec in Hold.
    eapply Habl; [|done|done]. eapply Hold. left.
Qed.

(** No other thread is inside the handler. *)
Lemma fresh_running ps t since n0 nums0 id m u st once :
  reachable ps m -> absent id since n0 m -> fresh t since n0 nums0 m ->
  u <> t -> threads m !! u = Some (Running st) -> FHandler id once ∉ st.
Proof.
  intros Hm [Hl _] (_ & _ & Hold & _) Hne Hu Hin. pose proof (reachable_snap _ _ Hm) as Hi.
  destruct (shaped_running m st id once) as (n & v & fb & e & l & k & ls & Hd & Hls & Hid); [|by eapply si_running|done|].
  { by eapply reachable_shaped. }
  eapply Hl; [|done|done]. specialize (Hold _ _ Hne Hu). rewrite no_older_spec in Hold. by eapply Hold.
Qed.

(** ** Entering and leaving a wait *)

Lemma version_length m : snap_inv m -> S (version m) = length (lists m).
Proof. intros Hi. pose proof (si_last _ Hi) as H. unfold version. destruct (lists m); simpl; [done|lia]. Qed.

(** A step that takes [id] out of the list publishes one without it. *)
Lemma removed_absent ps t b m m' id :
  reachable ps m -> step t b m = Some m' ->
  contains id (reg (mw m)) = true -> contains id (reg (mw m')) = false ->
  length (lists m') = S (length (lists m)) /\
  absent id (length (lists m)) (length (snaps m')) m'.
Proof.
  intros Hm (st & a & nx & _ & Ht & Hst & ->)%step_lstep Hin Hout. rewrite mw_move in Hout. simpl in Hout.
  destruct (publishes a (mw m)) eqn:Hp.
  2: { unfold contains in *. rewrite unpublished in Hout by done. congruence. }
  unfold absent. rewrite lists_move, snaps_move. split; [simpl; by rewrite Hp, length_app, Nat.add_1_r|].
  split; [|by intros n u l ? ?%lookup_lt_Some; lia].
  intros v l Hv. simpl. rewrite Hp. intros [[? _]|[_ <-]]%lookup_snoc_Some; [lia|].
  by apply contains_false.
Qed.

(** When a wait returns, the threads other than its own have ended the older dispatches. *)
Lemma may_return_others m t since :
  may_return m t since false = true ->
  forall u st, u <> t -> threads m !! u = Some (Running st) -> no_older since false st = true.
Proof.
  unfold may_return. rewrite forallb_forall. intros H u st Hne Hu.
  specialize (H (u, Running st)). simpl in H. rewrite bool_decide_eq_false_2 in H by done.
  apply H. by apply list_elem_of_In, elem_of_map_to_list.
Qed.

Lemma waited_fresh ps t since k st b m m' :
  reachable ps m -> threads m !! t = Some (Running (FWait since false k :: st)) -> step t b m = Some m' ->
  since < length (lists m) -> fresh t since (length (snaps m)) (nums st) m'.
Proof.
  intros Hm Ht (st1 & a & nx & _ & Ht' & Hl & ->)%step_Some Hlt.
  rewrite Ht in Ht'. injection Ht' as <-. cbn [local_step] in Hl.
  destruct (may_return m t since false) eqn:Hr; [|done]. injection Hl as <- <-.
  split_and!; try done.
  - intros u st' Hne. simpl. rewrite lookup_insert_ne by done. by apply (may_return_others m t).
  - intros st' n. simpl. rewrite lookup_insert_eq. intros [= <-] Hn. by left.
Qed.

(** ** When a wait is bound to return *)

(** A round of [wait_for_retired_readers] by a thread other than [st]'s finds nothing of
    [st]: no hazard on a replaced list, and no fallback reader unless the caller is one. *)
Definition settled (version : nat) (cof : bool) st : bool :=
  forallb (fun f => match f with
                    | FDispatch _ v fb _ _ _ => if fb then cof else bool_decide (version <= v)
                    | _ => true
                    end) st.

(** The next step of [t] does not depend on the other threads. *)
Definition enabled m (t : nat) : bool :=
  match threads m !! t with
  | Some (Running (FWait _ cof _ :: _)) =>
      forallb (fun x => bool_decide (x.1 = t) || settled (version m) cof (stack_of x.2))
        (map_to_list (threads m))
  | Some (Running _) => true
  | _ => false
  end.

Lemma settled_no_older ver since cof st :
  since <= ver -> settled ver cof st = true -> no_older since cof st = true.
Proof.
  intros Hle. unfold settled, no_older. rewrite !forallb_forall. intros H f Hf. specialize (H f Hf).
  destruct f; try done. destruct fallback; [by rewrite H|]. simpl. rewrite bool_decide_eq_true in *. lia.
Qed.

(** A wait starts with the list its own write installed. *)
Lemma reachable_since ps m t since cof k st :
  reachable ps m -> threads m !! t = Some (Running (FWait since cof k :: st)) -> since <= version m.
Proof.
  intros Hm. revert t since cof k st. induction Hm as [|u b m m' Hm IH Hs]; intros t since cof k st.
  { simpl. rewrite lookup_fmap. by destruct (ps !! t). }
  pose proof (reachable_snap _ _ Hm) as Hi. pose proof (version_length _ Hi) as Hv.
  apply step_lstep in Hs as (st0 & a & nx & _ & Hu & Hl & ->). unfold version at 1. rewrite lists_move.
  pose proof (prefix_length _ _ (perform_lists u a m)) as Hp.
  assert (threads m !! t = Some (Running (FWait since cof k :: st)) ->
    since <= length (lists (perform u a m)) - 1) as Hold by (intros Hx%IH; lia).
  destruct nx as [st1|fl|]; cbn [move set_threads threads]; [| |done].
  - destruct (decide (u = t)) as [->|Hne]; [rewrite lookup_insert_eq|by rewrite lookup_insert_ne].
    intros [= ->]. pose proof (reachable_shaped _ _ _ _ Hm Hu) as Hsh.
    inversion Hl; subst; simpl in *.
    + match goal with H : publishes _ _ = true |- _ => rewrite H end. rewrite length_app. simpl. lia.
    + by repeat case_match.
    + by destruct (drop_both (second_of fl) pl).
  - destruct (decide (u = t)) as [->|Hne]; [by rewrite lookup_insert_eq|by rewrite lookup_insert_ne].
Qed.

(** What holds one thread up: a dispatch of another. *)
Lemma forallb_threads m t (P : list (frame E O) -> bool) :
  forallb (fun x => bool_decide (x.1 = t) || P (stack_of x.2)) (map_to_list (threads m)) = false ->
  P [] = true -> exists u st, u <> t /\ threads m !! u = Some (Running st) /\ P st = false.
Proof.
  intros Hall HP.
  assert (exists x, x ∈ map_to_list (threads m) /\ (bool_decide (x.1 = t) || P (stack_of x.2)) = false)
    as ([u th] & Hin & Hf).
  { induction (map_to_list (threads m)) as [|x l IH]; [done|]. simpl in Hall.
    destruct (bool_decide (x.1 = t) || P (stack_of x.2)) eqn:Hx.
    - destruct IH as (y & ? & ?); [done|]. exists y. split; [by right|done].
    - exists x. split; [left|done]. }
  apply elem_of_map_to_list in Hin. simpl in Hf. apply orb_false_iff in Hf as [Hne%bool_decide_eq_false Ho].
  destruct th as [st|fl]; [by exists u, st|]. simpl in Ho. congruence.
Qed.

Lemma no_dispatch_settled ver cof st : level st = 0 -> settled ver cof st = true.
Proof.
  intros Hl. apply forallb_forall. intros f Hf%list_elem_of_In. apply (cnt_0 _ _ Hl) in Hf. by destruct f.
Qed.

Lemma enabled_step ps m t :
  reachable ps m -> halted m = false -> enabled m t = true -> forall b, exists m', step t b m = Some m'.
Proof.
  intros Hm Hh He b. unfold enabled in He. destruct (threads m !! t) as [[st|]|] eqn:Ht; try done.
  unfold step. rewrite Hh, Ht.
  assert ((exists since cof k st', st = FWait since cof k :: st') \/
          forall since cof k st', st <> FWait since cof k :: st') as [(since & cof & k & st' & ->)|Hn].
  { destruct st as [|[]]; try (by right); left; eauto. }
  - cbn [local_step]. assert (may_return m t since cof = true) as ->; [|simpl; eauto].
    unfold may_return. rewrite forallb_forall in *. intros x Hx. apply He in Hx.
    apply orb_true_iff in Hx as [Hx|Hx]; [by rewrite Hx|]. apply orb_true_iff. right.
    eapply settled_no_older; [|done]. by eapply reachable_since.
  - destruct (shaped_progress (may_return m t) b (version m) (length (snaps m)) (mw m) st) as [[a nx] ->];
      [by eapply reachable_shaped|done|simpl; eauto].
Qed.

Lemma not_enabled m t st :
  threads m !! t = Some (Running st) -> enabled m t = false ->
  exists since cof k st', st = FWait since cof k :: st' /\
    exists u st'', u <> t /\ threads m !! u = Some (Running st'') /\ settled (version m) cof st'' = false.
Proof.
  intros Ht. unfold enabled. rewrite Ht. destruct st as [|f st]; [done|]. destruct f; try done.
  intros Hf. apply forallb_threads in Hf; [|done]. eauto 10.
Qed.

(** ** When a wait can never return *)

(** [t] waits, and [u] is inside a dispatch its wait is for. *)
Definition waits_for m (t u : nat) : bool :=
  match threads m !! t, threads m !! u with
  | Some (Running (FWait since cof _ :: _)), Some (Running st) => negb (no_older since cof st)
  | _, _ => false
  end.

Lemma waits_for_blocks m t u b : u <> t -> waits_for m t u = true -> step t b m = None.
Proof.
  unfold waits_for, step. intros Hne. destruct (halted m); [done|].
  destruct (threads m !! t) as [[[|[] st]|]|]; try done.
  destruct (threads m !! u) as [[su|]|] eqn:Hu; try done. intros Hn%negb_true_iff. cbn [local_step].
  assert (may_return m t since on_fallback = false) as ->; [|done].
  apply not_true_iff_false. unfold may_return. rewrite forallb_forall. intros H.
  specialize (H (u, Running su)). simpl in H. rewrite bool_decide_eq_false_2, Hn in H by done.
  discriminate H. by apply list_elem_of_In, elem_of_map_to_list.
Qed.

Lemma threads_other t b m m' u : step t b m = Some m' -> u <> t -> threads m' !! u = threads m !! u.
Proof.
  intros (st & a & nx & _ & _ & _ & ->)%step_Some Hne. by destruct nx; simpl; rewrite ?lookup_insert_ne by done.
Qed.

Lemma cycle_kept (ts : gset nat) t b m m' :
  (forall x, x ∈ ts -> exists u, u ∈ ts /\ u <> x /\ waits_for m x u = true) -> step t b m = Some m' ->
  forall x, x ∈ ts -> threads m' !! x = threads m !! x.
Proof.
  intros Hc Hs x Hx. apply (threads_other t b); [done|]. intros ->.
  destruct (Hc _ Hx) as (u & _ & Hne & Hw). by rewrite (waits_for_blocks m t u b) in Hs.
Qed.
End Removed.
