(* ===== verification/SyncThreadsTheorems.v ===== *)
(** [SyncRegistry] on several threads: what its documentation promises of concurrent
    [notify], [register], [unregister] and [unregister_and_wait] (src/src/sync/mod.rs). *)
From S2P Require Import Prelude HandlerId HandlerList HandlerStore PanicInfo SyncRegistry SyncProofs SyncPanics.
From S2P Require Import SyncRefine SyncWf SyncThreads SyncThreadsExec SyncThreadsInv SyncThreadsSnap SyncThreadsQuiet.
From S2P Require Import SyncTheorems SyncThreadsIds SyncThreadsWait.

Section Theorems.
Context {E O : Type}.
Implicit Types (ps : gmap nat (prog E O)) (m : machine E O) (st : list (frame E O)).

(** (C9) If dropping a panic payload never panics, then no dispatch of any thread skips or
    repeats a handler, whatever the other threads register, unregister, dispatch or panic
    meanwhile (and while the id counter has not wrapped).  Dispatch [n] works on one list that
    was once installed, in priority order and without duplicate ids; only its own thread
    calls handlers for it; and either it has called exactly the handlers of that list, in
    that order, or it is still on its thread's stack with exactly the rest to call.  No panic
    cuts it short or stops the process. *)
Theorem threads_dispatch_exact ps m n t ids :
  (forall u p, ps !! u = Some p -> ok quiet true true p) -> reachable ps m -> no_wrap (mw m) ->
  snaps m !! n = Some (t, ids) ->
  halted m = false /\
  (exists l, l ∈ lists m /\ ids = entry_id <$> l /\ StronglySorted desc l /\ NoDup ids) /\
  (forall u id, (u, n, id) ∈ called m -> u = t) /\
  (called_of n m = ids \/
   exists st v fb e rest k, threads m !! t = Some (Running st) /\ FDispatch n v fb e rest k ∈ st /\
     called_of n m ++ (entry_id <$> rest) = ids).
Proof.
  intros Hps Hm Hw Hs. pose proof (reachable_snap _ _ Hm) as Hi. split_and!.
  - by apply (reachable_quiet ps).
  - destruct (reachable_read _ _ Hm) as [_ Hr]. destruct (Hr _ _ _ Hs) as (l & Hl & ->).
    pose proof (reachable_lists _ _ Hm Hw) as HF. eapply Forall_forall in HF as [? ?]; [|done].
    by exists l.
  - intros u id Hc. destruct (si_calls _ Hi _ _ _ Hc) as [ids' Hs']. congruence.
  - destruct (reachable_complete _ _ Hps Hm _ _ _ Hs) as [?|(st & Ht & Hn)]; [by left|right].
    apply in_nums in Hn as (f & Hf & Hn). destruct f; try done. injection Hn as ->.
    pose proof (si_frames _ Hi _ _ Ht) as HF. eapply Forall_forall in HF; [|exact Hf].
    destruct HF as (l & before & _ & -> & Hs' & ->). rewrite Hs in Hs'. injection Hs' as ->.
    exists st, v, fallback, e, rest, k. split_and!; [done..|]. by rewrite fmap_app.
Qed.

(** (C29) The panic counter and the once-handlers are exact across threads.  After any
    schedule [l], [panic_count] is, modulo [2^64], the number of handlers that have ended with
    a panic in the course of [l], less those whose thread has entered [handle_panic] and not
    yet reached its [fetch_add]; and each once-handler has run at most once, also when two
    threads reach it at the same time. *)
Theorem threads_counters ps l m slot :
  run l (start world_new ps) = Some m ->
  panic_count (reg (mw m)) =
    u64 (Z.of_nat (handlers_panicked l (start world_new ps)) - Z.of_nat (panics_uncounted m)) /\
  cnt (is_once slot) (trace (mw m)) <= 1.
Proof.
  intros Hr. assert (reachable ps m) as Ho%reachable_once by (by eapply threads_run; [constructor|]).
  split; [|specialize (Ho slot); lia].
  pose proof (run_counts ps l _ _ (reach_start ps) eq_refl Hr) as Hc.
  rewrite start_uncounted in Hc. exact Hc.
Qed.

(** (C12) [unregister] ends a handler for every dispatch that starts later, on any thread:
    once a step (an unregister, a clear, a dropped guard) has taken [id] out of the list, it
    never comes back while the id counter has not wrapped, and every call of [id] ever made
    is by a dispatch that had already read its list. *)
Theorem removal_is_final ps t b m m1 m2 id l :
  reachable ps m -> step t b m = Some m1 ->
  contains id (reg (mw m)) = true -> contains id (reg (mw m1)) = false ->
  run l m1 = Some m2 -> no_wrap (mw m2) ->
  contains id (reg (mw m2)) = false /\
  forall u n, (u, n, id) ∈ called m2 -> n < length (snaps m1).
Proof.
  intros Hm Hs Hin Hout Hr Hw. assert (reachable ps m1) as Hm1 by (by econstructor).
  assert (gone id m1) as Hg.
  { apply (removed_is_gone ps t b m); [done..| |done|done].
    pose proof (issued_run _ _ _ _ Hm1 Hr). unfold no_wrap in *. lia. }
  destruct (removed_absent _ _ _ _ _ _ Hm Hs Hin Hout) as [_ Hab].
  pose proof (absent_kept_run _ _ _ _ _ _ _ Hm1 Hr Hw Hg Hab) as [_ Hab'].
  split; [apply contains_false; by destruct (gone_run _ _ _ _ _ Hm1 Hr Hw Hg) as (_ & ? & _)|].
  intros u n Hc. apply (call_in_snapshot m2) in Hc as (ids & Hs2 & Hid); [|by eapply reachable_snap, threads_run].
  destruct (decide (n < length (snaps m1))); [done|]. exfalso. by eapply (Hab' n); [lia|..].
Qed.

(** What [unregister_and_wait] has achieved when its wait is over. *)
Lemma waited_quiescent ps t b b' m0 m1 m2 m3 m4 id k st l l' :
  reachable ps m0 -> threads m0 !! t = Some (Running (FRun (UnregisterAndWait id k) :: st)) ->
  contains id (reg (mw m0)) = true -> step t b m0 = Some m1 -> run l m1 = Some m2 ->
  threads m2 !! t = Some (Running (FWait (S (version m0)) false (k true) :: st)) ->
  step t b' m2 = Some m3 -> run l' m3 = Some m4 -> no_wrap (mw m4) ->
  contains id (reg (mw m4)) = false /\
  (forall u st' once, u <> t -> threads m4 !! u = Some (Running st') -> FHandler id once ∉ st') /\
  exists more, called m4 = called m3 ++ more /\ forall u n, (u, n, id) ∈ more -> u = t /\ n ∈ nums st.
Proof.
  intros Hm0 Ht0 Hin Hs1 Hr2 Ht2 Hs3 Hr4 Hw.
  assert (reachable ps m1) as Hm1 by (by econstructor).
  assert (reachable ps m2) as Hm2 by (by eapply threads_run).
  assert (reachable ps m3) as Hm3 by (by econstructor).
  assert (reachable ps m4) as Hm4 by (by eapply threads_run).
  assert (run ((t, b) :: l) m0 = Some m2) as Hr02 by (simpl; by rewrite Hs1).
  assert (run ((t, b') :: l') m2 = Some m4) as Hr24 by (simpl; by rewrite Hs3).
  pose proof (issued_run _ _ _ _ Hm0 Hr02) as I1. pose proof (issued_run _ _ _ _ Hm1 Hr2) as I2.
  pose proof (issued_run _ _ _ _ Hm2 Hr24) as I3. pose proof (issued_run _ _ _ _ Hm3 Hr4) as I4.
  unfold no_wrap in Hw.
  assert (contains id (reg (mw m1)) = false) as Hout.
  { apply step_Some in Hs1 as (st1 & a & nx & _ & Ht & Hl & ->). rewrite Ht0 in Ht. injection Ht as <-.
    simpl in Hl. injection Hl as <- _. rewrite mw_move. apply contains_false, removed_gone.
    apply (reachable_ids ps); [done|unfold no_wrap; lia]. }
  assert (gone id m1) as Hg1 by (apply (removed_is_gone ps t b m0); [done..|unfold no_wrap; lia|done|done]).
  destruct (removed_absent _ _ _ _ _ _ Hm0 Hs1 Hin Hout) as [Hlen Hab1].
  rewrite <- (version_length m0) in Hab1, Hlen by (by eapply reachable_snap).
  assert (no_wrap (mw m2)) as Hw2 by (unfold no_wrap; lia).
  assert (no_wrap (mw m3)) as Hw3 by (unfold no_wrap; lia).
  pose proof (gone_run _ _ _ _ _ Hm1 Hr2 Hw2 Hg1) as Hg2.
  pose proof (gone_step _ _ _ _ _ _ Hm2 Hs3 Hw3 Hg2) as Hg3.
  pose proof (absent_kept_run _ _ _ _ _ _ _ Hm1 Hr2 Hw2 Hg1 Hab1) as Hab2.
  pose proof (absent_kept _ _ _ _ _ _ _ _ Hm2 Hs3 Hg2 Hg3 Hab2) as Hab3.
  destruct (run_prefix _ _ _ Hr2) as [Hp1%prefix_length Hp2%prefix_length].
  assert (fresh t (S (version m0)) (length (snaps m2)) (nums st) m3) as Hf by (eapply waited_fresh; [done..|lia]).
  assert (absent id (S (version m0)) (length (snaps m2)) m3) as Hab3'.
  { destruct Hab3 as [Ha Hb]. split; [done|]. intros n u ids Hn. apply Hb. lia. }
  split; [apply contains_false; by destruct (gone_run _ _ _ _ _ Hm3 Hr4 Hw Hg3) as (_ & ? & _)|].
  split; [|by eapply fresh_calls].
  intros u st' once Hne Hu. eapply fresh_running; [done| |by eapply fresh_run|done|done].
  by apply (absent_kept_run ps l' m3).
Qed.

(** (C10) [unregister_and_wait] quiesces.  A caller that is not inside a fallback read (the
    flag of the wait is [false]) takes [id] out of the list; when its wait has returned, then
    from that moment on, while the id counter has not wrapped, no other thread is inside the
    handler or ever calls it again, and its own thread calls it only from the dispatches that
    were already in progress further up its stack. *)
Theorem threads_wait_quiesces ps t b b' m0 m1 m2 m3 m4 id k st l l' :
  reachable ps m0 -> threads m0 !! t = Some (Running (FRun (UnregisterAndWait id k) :: st)) ->
  contains id (reg (mw m0)) = true -> step t b m0 = Some m1 -> run l m1 = Some m2 ->
  threads m2 !! t = Some (Running (FWait (S (version m0)) false (k true) :: st)) ->
  step t b' m2 = Some m3 -> run l' m3 = Some m4 -> no_wrap (mw m4) ->
  (forall u st' once, u <> t -> threads m4 !! u = Some (Running st') -> FHandler id once ∉ st') /\
  exists more, called m4 = called m3 ++ more /\ forall u n, (u, n, id) ∈ more -> u = t /\ n ∈ nums st.
Proof. intros. by eapply (waited_quiescent ps t b b'). Qed.

(** (C17) Only waits block, and without waits inside dispatches there is no deadlock.  A
    running thread can take its next step whatever the others do ([enabled]), unless it waits
    and some other thread is inside a dispatch that keeps the wait from returning; and if no
    thread waits from inside a handler or callback, then as long as any thread runs, some
    thread can take its next step. *)
Theorem only_waits_block ps m t st :
  reachable ps m -> halted m = false -> threads m !! t = Some (Running st) ->
  (enabled m t = true -> forall b, exists m', step t b m = Some m') /\
  (enabled m t = false -> exists since cof k st', st = FWait since cof k :: st' /\
     exists u st'', u <> t /\ threads m !! u = Some (Running st'') /\ 0 < level st'') /\
  ((forall u since cof k st', threads m !! u = Some (Running (FWait since cof k :: st')) -> level st' = 0) ->
   exists u, enabled m u = true /\ forall b, exists m', step u b m = Some m').
Proof.
  intros Hm Hh Ht.
  assert (enabled m t = false -> exists since cof k st', st = FWait since cof k :: st' /\
     exists u st'', u <> t /\ threads m !! u = Some (Running st'') /\ 0 < level st'') as Hblocked.
  { intros (since & cof & k & st' & -> & u & st'' & Hne & Hu & Hs)%(not_enabled _ _ _ Ht).
    exists since, cof, k, st'. split; [done|]. exists u, st''. split_and!; [done..|].
    destruct (level st'') eqn:Hl; [|lia]. by rewrite no_dispatch_settled in Hs. }
  split; [by apply (enabled_step ps)|]. split; [done|]. intros Hnw.
  assert (exists u, enabled m u = true) as [u Hu].
  { destruct (enabled m t) eqn:He; [by exists t|].
    destruct (Hblocked eq_refl) as (since & cof & k & st' & -> & u & st'' & Hne & Hu & Hs).
    exists u. destruct (enabled m u) eqn:He'; [done|exfalso].
    destruct (not_enabled _ _ _ Hu He') as (since' & cof' & k' & st3 & -> & _).
    apply Hnw in Hu. unfold level in *. simpl in Hs. lia. }
  exists u. split; [done|]. by eapply enabled_step.
Qed.

End Theorems.

(** ** Examples *)

Section Examples.
Abbreviation mach := (machine nat nat).
Abbreviation reg_world := (world nat nat (list (HandlerEntry (stored nat nat)))).

(** Steps of thread [t], with the environment's choice [false]. *)
Abbreviation by_ t n := (replicate n (t, false)).

Definition run_from (ps : gmap nat (prog nat nat)) (l : list (nat * bool)) : mach :=
  default (start world_new ps) (run l (start world_new ps)).

Lemma run_from_reachable ps l : reachable ps (run_from ps l).
Proof.
  unfold run_from. destruct (run l (start world_new ps)) as [m|] eqn:Hr; simpl; [|constructor].
  by eapply threads_run; [constructor|].
Qed.

(** Thread 1 registers three handlers, the first of which panics, and dispatches; thread 2
    meanwhile removes the first handler, waits, and dispatches. *)
Definition removing : prog nat nat := UnregisterAndWait (from_raw 1) (fun _ => Notify 2 Ret).

Definition two_threads : gmap nat (prog nat nat) :=
  {[1 := Register 5 boom (fun _ => Register 0 (say 10) (fun _ => RegisterOnce (say 1) (fun _ => Notify 1 Ret)));
    2 := removing]}.

Definition calling : list (nat * bool) := by_ 1 8.
Definition at_call : mach := run_from two_threads calling.
Definition panicking : list (nat * bool) := calling ++ by_ 1 2.
Definition at_panic : mach := run_from two_threads panicking.
Definition removed : mach := run_from two_threads (calling ++ by_ 2 1).
Definition waiting : mach := run_from two_threads (calling ++ by_ 2 1 ++ by_ 1 12).
Definition returned : mach := run_from two_threads (calling ++ by_ 2 1 ++ by_ 1 12 ++ by_ 2 1).
Definition finished : mach := run_from two_threads (calling ++ by_ 2 1 ++ by_ 1 12 ++ by_ 2 7).

Lemma two_threads_quiet u p : two_threads !! u = Some p -> ok quiet true true p.
Proof.
  unfold two_threads. intros [[<- <-]|[_ [<- <-]%lookup_singleton_Some]]%lookup_insert_Some;
    repeat (intros; split); done.
Qed.

Lemma threads_dispatch_exact_witness :
  called_of 0 at_call = [from_raw 1] /\ halted at_call = false /\
  (exists l, l ∈ lists at_call /\ from_raw <$> [1; 2; 3]%Z = entry_id <$> l /\ StronglySorted desc l /\
     NoDup (from_raw <$> [1; 2; 3]%Z)) /\
  (forall u id, (u, 0, id) ∈ called at_call -> u = 1) /\
  (called_of 0 at_call = from_raw <$> [1; 2; 3]%Z \/
   exists st v fb e rest k, threads at_call !! 1 = Some (Running st) /\ FDispatch 0 v fb e rest k ∈ st /\
     called_of 0 at_call ++ (entry_id <$> rest) = from_raw <$> [1; 2; 3]%Z).
Proof.
  split; [by vm_compute|].
  apply (threads_dispatch_exact two_threads); [apply two_threads_quiet|apply run_from_reachable|by vm_compute..].
Defined.

Lemma threads_counters_witness :
  handlers_panicked panicking (start world_new two_threads) = 1 /\ panics_uncounted at_panic = 1 /\
  panic_count (reg (mw at_panic)) =
    u64 (Z.of_nat (handlers_panicked panicking (start world_new two_threads)) -
         Z.of_nat (panics_uncounted at_panic)) /\
  panics_uncounted finished = 0 /\ panic_count (reg (mw finished)) = 1%Z /\
  cnt (is_once 0) (trace (mw finished)) = 1 /\ cnt (is_once 0) (trace (mw finished)) <= 1.
Proof.
  split; [by vm_compute|]. split; [by vm_compute|].
  split; [apply (threads_counters two_threads panicking at_panic 0); by vm_compute|].
  split; [by vm_compute|]. split; [by vm_compute|]. split; [by vm_compute|].
  apply (threads_counters two_threads (calling ++ by_ 2 1 ++ by_ 1 12 ++ by_ 2 7) finished 0).
  by vm_compute.
Defined.

Lemma removal_is_final_witness :
  length (called finished) = 4 /\ contains (from_raw 1) (reg (mw finished)) = false /\
  forall u n, (u, n, from_raw 1) ∈ called finished -> n < length (snaps removed).
Proof.
  split; [by vm_compute|].
  apply (removal_is_final two_threads 2 false at_call removed finished (from_raw 1) (by_ 1 12 ++ by_ 2 7));
    [apply run_from_reachable|by vm_compute..].
Defined.

Lemma threads_wait_quiesces_witness :
  called returned = [(1, 0, from_raw 1); (1, 0, from_raw 2); (1, 0, from_raw 3)] /\
  (forall u st' once, u <> 2 -> threads finished !! u = Some (Running st') ->
     FHandler (from_raw 1) once ∉ st') /\
  exists more, called finished = called returned ++ more /\
    forall u n, (u, n, from_raw 1) ∈ more -> u = 2 /\ n ∈ @nums nat nat [].
Proof.
  split; [by vm_compute|].
  apply (threads_wait_quiesces two_threads 2 false false at_call removed waiting returned finished
           (from_raw 1) (fun _ => Notify 2 Ret) [] (by_ 1 12) (by_ 2 6));
    [apply run_from_reachable|by vm_compute..].
Defined.

Lemma only_waits_block_witness :
  enabled removed 2 = false /\
  (exists since cof k st', [FWait 4 false (Notify 2 Ret) : frame nat nat] = FWait since cof k :: st' /\
     exists u st'', u <> 2 /\ threads removed !! u = Some (Running st'') /\ 0 < level st'') /\
  exists u, enabled removed u = true /\ forall b, exists m', step u b removed = Some m'.
Proof.
  split; [by vm_compute|].
  destruct (only_waits_block two_threads removed 2 [FWait 4 false (Notify 2 Ret)]) as (_ & H1 & H2);
    [apply run_from_reachable|by vm_compute..|].
  split; [apply H1; by vm_compute|]. apply H2. intros u since cof k st'.
  assert (threads removed = <[1 := default (Ended Done) (threads removed !! 1)]>
    (<[2 := Running [FWait 4 false (Notify 2 Ret)]]> ∅)) as -> by (by vm_compute).
  intros [[<- ?]|[_ [[<- [= <- <- <- <-]]|[_ ?]]%lookup_insert_Some]]%lookup_insert_Some; done.
Defined.




End Examples.
