(* ===== verification/Clients.v ===== *)
(** Programs that use a [SyncRegistry] (src/src/sync/mod.rs) in the usual way: their
    handlers and panic callbacks touch state of their own and do not call the registry.

    For such programs a reference evaluator gives the outcome without worlds, traces or
    nesting; the dispatch loop of the registry computes the same ([exec_client]). *)
From S2P Require Import Prelude HandlerId HandlerList HandlerStore PanicInfo SyncRegistry.

(** The newline character. *)
Definition newline : string := String (Ascii.ascii_of_nat 10) EmptyString.

(** [assert!] with a literal message. *)
Definition assert {E O} (b : bool) (msg : string) (k : prog E O) : prog E O :=
  if b then k else Panic (PStr msg).

Section Local.
Context {E O : Type}.
Abbreviation Vec := (list (HandlerEntry (stored E O))).
Abbreviation World := (world E O Vec).
Abbreviation Reg := (SyncRegistry E O Vec).
Implicit Types (w : World) (p : prog E O) (t : list O) (r : Reg).

(** ** The reference evaluator *)

(** A program that only performs and observes effects, from the effects [t]. *)
Fixpoint run_local p t : option (flow * list O) :=
  match p with
  | Ret => Some (Done, t)
  | Panic pl => Some (Panicked pl, t)
  | Emit o k => run_local k (t ++ [o])
  | Observe k => run_local (k t) t
  | _ => None
  end.

(** What the panic callback does with a caught panic: its effects, and its own panic. *)
Definition report_local (cb : option (PanicInfo -> prog E O)) (i : PanicInfo) t
    : option (option payload * list O) :=
  match cb with
  | None => Some (None, t)
  | Some f =>
      match run_local (f i) t with
      | Some (Done, t) => Some (None, t)
      | Some (Panicked q, t) => Some (Some q, t)
      | _ => None
      end
  end.

(** A dispatch: the handlers one after the other, each caught panic reported and counted. *)
Fixpoint dispatch_local (cb : option (PanicInfo -> prog E O)) (e : E) (l : Vec) t
    : option (nat * list O) :=
  match l with
  | [] => Some (0, t)
  | Entry id _ (SPlain h) :: l =>
      match run_local (h e) t with
      | Some (Done, t) => dispatch_local cb e l t
      | Some (Panicked pl, t) =>
          '(second, t) ← report_local cb (PanicInfo_new id pl) t;
          match drop_both second pl with
          | Done => '(n, t) ← dispatch_local cb e l t; Some (S n, t)
          | _ => None
          end
      | _ => None
      end
  | _ => None
  end.

Definition count_panics (n : nat) r : Reg :=
  mkRegistry (handlers r) (id_generator r) (panic_callback r) (u64 (panics r + Z.of_nat n)).

(** A whole program. *)
Fixpoint run_client p r t : option (flow * Reg * list O) :=
  match p with
  | Ret => Some (Done, r, t)
  | Panic pl => Some (Panicked pl, r, t)
  | Emit o k => run_client k r (t ++ [o])
  | Observe k => run_client (k t) r t
  | Register priority h k =>
      let '(id, r) := register_with_priority priority h r in run_client (k id) r t
  | RegisterOnce _ _ => None
  | Unregister id k | UnregisterAndWait id k =>
      let '(b, r) := unregister id r in run_client (k b) r t
  | Clear k | ClearAndWait k => run_client k (clear r) t
  | Contains id k => run_client (k (contains id r)) r t
  | HandlerCount k => run_client (k (handler_count r)) r t
  | IsEmpty k => run_client (k (is_empty r)) r t
  | PanicCount k => run_client (k (panic_count r)) r t
  | OnPanic cb k => run_client k (on_panic cb r) t
  | ClearPanicCallback k => run_client k (clear_panic_callback r) t
  | DropGuard g k =>
      run_client k (if guard_registry g then (unregister (guard_id g) r).2 else r) t
  | Notify e k =>
      '(n, t) ← dispatch_local (panic_callback r) e (handlers r) t;
      run_client k (count_panics n r) t
  end.

(** ** The registry computes the same *)

(** The world shows registry [r] and effects [t]; the panic counter is within 64 bits. *)
Record shows w r t : Prop := {
  sh_reg : reg w = r;
  sh_alive : alive w = true;
  sh_out : emits (trace w) = t;
  sh_panics : (0 <= panics r < u64_modulus)%Z;
}.

Lemma shows_new : shows world_new SyncRegistry_new [].
Proof. by split. Qed.

Lemma emits_snoc (tr : list (tev O)) ev :
  emits (tr ++ [ev]) = emits tr ++ match ev with TEmit o => [o] | _ => [] end.
Proof. unfold emits. rewrite omap_app. by destruct ev. Qed.

(** Changes that user code does not see. *)
Lemma shows_log ev w r t :
  shows w r t -> shows (log_ev ev w) r (t ++ match ev with TEmit o => [o] | _ => [] end).
Proof. intros [<- Ha <- Hp]. split; try done. apply emits_snoc. Qed.

Lemma shows_quiet ev w r t :
  shows w r t -> (forall o, ev <> TEmit o) -> shows (log_ev ev w) r t.
Proof.
  intros Hw Hev. apply (shows_log ev) in Hw. destruct ev; rewrite ?app_nil_r in Hw; try done.
  by destruct (Hev o).
Qed.

Lemma shows_set_reg r' w r t :
  shows w r t -> (0 <= panics r' < u64_modulus)%Z -> shows (set_reg r' w) r' t.
Proof. intros [_ Ha Ht _] Hp. by split. Qed.

Lemma shows_depth d w r t : shows w r t -> shows (set_depth d w) r t.
Proof. intros []. by split. Qed.

(** [run_local] is what running the program does. *)
Definition runs_local (run : prog E O -> World -> result) : Prop :=
  forall p w r t fl t', shows w r t -> run_local p t = Some (fl, t') ->
    exists w', run p w = Some (fl, w') /\ shows w' r t' /\ depth w' = depth w.

Lemma exec_prog_local nested : runs_local (exec_prog nested).
Proof.
  intros p. induction p; intros w r t fl t' Hw Hp; simpl in Hp |- *; try done;
    try (simplify_eq; by eexists).
  - apply (shows_log (TEmit o)) in Hw. exact (IHp _ _ _ _ _ Hw Hp).
  - rewrite (sh_out _ _ _ Hw). by eapply H.
Qed.

Lemma exec_local fuel : runs_local (exec fuel).
Proof. destruct fuel; apply exec_prog_local. Qed.

Section Dispatch.
Context (run : prog E O -> World -> result (E := E) (O := O) (St := Vec)).
Hypothesis Hrun : runs_local run.

Lemma handle_panic_local id pl w r t second t' :
  shows w r t -> report_local (panic_callback r) (PanicInfo_new id pl) t = Some (second, t') ->
  exists w', handle_panic run id pl w = Some (drop_both second pl, w') /\
    shows w' (count_panics 1 r) t' /\ depth w' = depth w.
Proof.
  intros Hw Hrep. unfold handle_panic. rewrite (sh_reg _ _ _ Hw). change (count_panic r) with (count_panics 1 r).
  set (w0 := log_ev _ _).
  assert (shows w0 (count_panics 1 r) t) as Hw0.
  { apply shows_quiet; [|done]. eapply shows_set_reg; [done|apply u64_range]. }
  cbn zeta. rewrite (sh_reg _ _ _ Hw0). simpl. unfold report_local in Hrep.
  destruct (panic_callback r) as [cb|]; [|simplify_eq; by exists w0].
  destruct (run_local _ t) as [[fl t1]|] eqn:Hq; [|done].
  destruct (Hrun _ (log_ev (TReport (PanicInfo_new id pl)) w0) _ _ _ _
    (shows_quiet (TReport _) _ _ _ Hw0 ltac:(done)) Hq) as (w1 & Hr1 & Hw1 & Hd1).
  rewrite Hr1. destruct fl; simplify_eq; exists w1; split_and!; try done.
Qed.

Lemma dispatch_local_ok e l w r t n t' :
  shows w r t -> dispatch_local (panic_callback r) e l t = Some (n, t') ->
  exists w', dispatch run e l w = Some (Done, w') /\ shows w' (count_panics n r) t' /\
    depth w' = depth w.
Proof.
  revert w r t n. induction l as [|[id prio [h|]] l IH]; intros w r t n Hw Hd; simpl in Hd; try done.
  { simplify_eq. exists w. split; [done|]. split; [|done]. destruct Hw as [Hr Ha Ht Hp]. split; try done.
    - unfold count_panics. rewrite Z.add_0_r, u64_small by done. by destruct (reg w), r.
    - apply u64_range. }
  cbn [dispatch handler entry_id call].
  destruct (run_local (h e) t) as [[fl t1]|] eqn:Hq; [|done].
  destruct (Hrun _ _ _ _ _ _ (shows_quiet (TCall (depth w) id) _ _ _ Hw ltac:(done)) Hq)
    as (w1 & -> & Hw1 & Hd1).
  destruct fl as [|pl|]; [destruct (IH _ _ _ _ Hw1 Hd) as (w2 & ? & ? & Hd2); exists w2; by rewrite Hd2| |done].
  apply bind_Some in Hd as ([second t2] & Hrep & Hd).
  destruct (handle_panic_local _ _ _ _ _ _ _ Hw1 Hrep) as (w2 & -> & Hw2 & Hd2).
  destruct (drop_both second pl); [|done..].
  apply bind_Some in Hd as ([m t3] & Hd & [= <- <-]).
  destruct (IH w2 (count_panics 1 r) t2 m Hw2 Hd) as (w3 & -> & Hw3 & Hd3).
  exists w3. split; [done|]. split; [|simpl in Hd1; congruence].
  replace (count_panics (S m) r) with (count_panics m (count_panics 1 r)); [done|].
  unfold count_panics. simpl. f_equal. rewrite u64_add_l. f_equal. lia.
Qed.

Lemma notify_local_ok e w r t n t' :
  shows w r t -> dispatch_local (panic_callback r) e (handlers r) t = Some (n, t') ->
  exists w', notify run e w = Some (Done, w') /\ shows w' (count_panics n r) t' /\
    depth w' = depth w.
Proof.
  intros Hw Hd. unfold notify. cbn [store_list vec_store]. rewrite (sh_reg _ _ _ Hw).
  destruct (dispatch_local_ok _ _ _ _ _ _ _ (shows_depth (S (depth w)) _ _ _ Hw) Hd)
    as (w1 & -> & Hw1 & Hd1).
  eexists. split; [done|]. split; [by apply shows_depth|]. simpl. rewrite Hd1. simpl. lia.
Qed.
End Dispatch.

Lemma unregister_panics id r : panics (unregister id r).2 = panics r.
Proof. unfold unregister, remove_id. by destruct (store_remove id (handlers r)). Qed.

Lemma clear_panics r : panics (clear r) = panics r.
Proof. unfold clear, remove_all. by destruct (store_clear (handlers r)). Qed.

(** With at least one level of dispatch, the registry runs a client program as the
    reference evaluator does. *)
Lemma exec_client fuel p w r t fl r' t' :
  shows w r t -> run_client p r t = Some (fl, r', t') ->
  exists w', exec (S fuel) p w = Some (fl, w') /\ shows w' r' t'.
Proof.
  cbn [exec]. revert w r t.
  induction p as [| |o k IHk|prio h _ k IHk|h _ k IHk|id k IHk|id k IHk|k IHk|k IHk|id k IHk|k IHk
    |k IHk|k IHk|cb _ k IHk|k IHk|e k IHk|g k IHk|k IHk]; intros w r t Hw Hp;
    cbn [run_client exec_prog] in Hp |- *; pose proof (sh_reg _ _ _ Hw) as Hr;
    pose proof (sh_panics _ _ _ Hw) as Hpan.
  - simplify_eq. by eexists.
  - simplify_eq. by eexists.
  - eapply IHk; [|done]. by apply (shows_log (TEmit o)).
  - unfold do_register. rewrite Hr. destruct (register_with_priority prio h r) as [id r1] eqn:Hq.
    eapply IHk; [|done]. apply shows_quiet; [|done]. eapply shows_set_reg; [done|].
    unfold register_with_priority in Hq. simpl in Hq. by simplify_eq.
  - done.
  - unfold do_unregister. rewrite Hr. pose proof (unregister_panics id r) as Hu.
    destruct (unregister id r) as [b r1]. eapply IHk; [|done].
    eapply shows_set_reg; [done|]. simpl in Hu. by rewrite Hu.
  - unfold unregister_and_wait, unregister in *. rewrite Hr. pose proof (unregister_panics id r) as Hu.
    unfold unregister in Hu. destruct (remove_id id r) as [b r1]. eapply IHk; [|done].
    simpl in Hu. assert (shows (set_reg r1 w) r1 t) by (eapply shows_set_reg; [done|by rewrite Hu]).
    destruct b; [by apply shows_quiet|done].
  - eapply IHk; [|done]. rewrite Hr. eapply shows_set_reg; [done|by rewrite clear_panics].
  - eapply IHk; [|done]. unfold clear_and_wait. rewrite Hr. pose proof (clear_panics r) as Hu.
    unfold clear in *. destruct (remove_all r) as [b r1]. simpl in *.
    assert (shows (set_reg r1 w) r1 t) by (eapply shows_set_reg; [done|by rewrite Hu]).
    destruct b; [by apply shows_quiet|done].
  - rewrite Hr. by eapply IHk.
  - rewrite Hr. by eapply IHk.
  - rewrite Hr. by eapply IHk.
  - rewrite Hr. by eapply IHk.
  - eapply IHk; [|done]. rewrite Hr. by eapply shows_set_reg.
  - eapply IHk; [|done]. rewrite Hr. by eapply shows_set_reg.
  - apply bind_Some in Hp as ([n t1] & Hd & Hp).
    destruct (notify_local_ok _ (exec_local fuel) _ _ _ _ _ _ Hw Hd) as (w1 & -> & Hw1 & _).
    by eapply IHk.
  - eapply IHk; [|done]. unfold HandlerGuard_drop, unregister_if_alive.
    rewrite (sh_alive _ _ _ Hw), andb_true_r. destruct (guard_registry g); [|done].
    unfold do_unregister. rewrite Hr. pose proof (unregister_panics (guard_id g) r) as Hu.
    destruct (unregister (guard_id g) r) as [b r1]. simpl in *.
    eapply shows_set_reg; [done|by rewrite Hu].
  - rewrite (sh_out _ _ _ Hw). by eapply IHk.
Qed.

(** Registering a handler of the lowest priority so far appends it. *)
Lemma register_last prio h r :
  Forall (fun en => (prio <= priority en)%Z) (handlers r) ->
  register_with_priority prio h r =
    (from_raw (gen_next (id_generator r)),
     mkRegistry (handlers r ++ [Entry (from_raw (gen_next (id_generator r))) prio (SPlain h)])
       (Generator (u64 (gen_next (id_generator r) + 1))) (panic_callback r) (panics r)).
Proof.
  intros Hl. unfold register_with_priority. simpl. unfold insert. simpl.
  by rewrite insert_entry_last.
Qed.

(** ** Handlers that only perform effects *)

(** On event [e] the handler performs the effects [f e]. *)
Definition emitter (h : E -> prog E O) (f : E -> list O) : Prop :=
  forall e t, run_local (h e) t = Some (Done, t ++ f e).

(** A dispatch to such handlers performs their effects in the order of the list. *)
Lemma dispatch_emitters cb e l (fs : list (E -> list O)) t :
  Forall2 (fun en f => exists h, handler en = SPlain h /\ emitter h f) l fs ->
  dispatch_local cb e l t = Some (0, t ++ (fs ≫= fun f => f e)).
Proof.
  intros Hl. revert t. induction Hl as [|[id prio h] f l fs (h' & Hh & Hf) Hl IH]; intros t; simpl in *.
  - by rewrite app_nil_r.
  - subst h. by rewrite Hf, IH, <- app_assoc.
Qed.

(** Registering several handlers, in the order of the list. *)
Fixpoint register_all (hs : list (Z * (E -> prog E O))) (k : prog E O) : prog E O :=
  match hs with
  | [] => k
  | (prio, h) :: hs => Register prio h (fun _ => register_all hs k)
  end.

(** What is registered, without the ids. *)
Definition pairs (l : Vec) : list (Z * stored E O) := (fun en => (priority en, handler en)) <$> l.

Lemma run_register_all hs k r t :
  StronglySorted desc (handlers r) ->
  exists r', run_client (register_all hs k) r t = run_client k r' t /\
    StronglySorted desc (handlers r') /\
    pairs (handlers r') ≡ₚ pairs (handlers r) ++ (prod_map id SPlain <$> hs) /\
    panic_callback r' = panic_callback r /\ panics r' = panics r.
Proof.
  revert r. induction hs as [|[prio h] hs IH]; intros r Hs; simpl.
  { exists r. by rewrite app_nil_r. }
  destruct (register_with_priority prio h r) as [id r1] eqn:Hq.
  unfold register_with_priority in Hq. simpl in Hq. injection Hq as <- <-.
  set (en := Entry _ _ _). destruct (IH (insert en (issue_id r).2)) as (r' & Hrun & Hs' & Hp & Hc & Hn).
  { simpl. rewrite insert_entry_ref by done. by apply insert_ref_sorted. }
  exists r'. split; [done|]. split; [done|]. split; [|done]. rewrite Hp. simpl. unfold pairs.
  rewrite insert_entry_perm by done. simpl. by rewrite Permutation_middle.
Qed.

(** Higher priority first, strictly. *)
Definition above (x y : Z * stored E O) : Prop := (y.1 < x.1)%Z.

#[local] Instance above_antisymm : AntiSymm (=) above.
Proof. intros x y Hx Hy. unfold above in *. lia. Qed.

Lemma pairs_above l :
  StronglySorted desc l -> NoDup (pairs l).*1 -> StronglySorted above (pairs l).
Proof.
  intros Hs. unfold pairs. induction Hs as [|en l Hs IH Hen]; [constructor|]. simpl.
  intros [Hnin Hnd]%NoDup_cons. constructor; [by apply IH|]. apply Forall_forall.
  intros x (y & -> & Hy)%list_elem_of_fmap. eapply Forall_forall in Hen; [|done].
  unfold above, desc in *. simpl. destruct (decide (priority y = priority en)) as [Heq|]; [|lia].
  destruct Hnin. rewrite <- Heq. apply list_elem_of_fmap. exists (priority y, handler y). split; [done|].
  apply list_elem_of_fmap. eauto.
Qed.

(** With distinct priorities the order of registration does not matter. *)
Lemma run_register_perm hs sorted k t :
  hs ≡ₚ sorted -> NoDup sorted.*1 -> StronglySorted above (prod_map id SPlain <$> sorted) ->
  exists r, run_client (register_all hs k) SyncRegistry_new t = run_client k r t /\
    pairs (handlers r) = prod_map id SPlain <$> sorted /\ panic_callback r = None /\ panics r = 0%Z.
Proof.
  intros Hp Hnd Hs. destruct (run_register_all hs k SyncRegistry_new t) as (r & Hrun & Hr & Hpr & Hc & Hn);
    [constructor|]. exists r. split; [done|]. split; [|done]. simpl in Hpr.
  assert (pairs (handlers r) ≡ₚ prod_map id SPlain <$> sorted) as Hps by (by rewrite Hpr, Hp).
  apply (StronglySorted_unique above); [|done|done]. apply pairs_above; [done|].
  rewrite Hps, <- list_fmap_compose. by rewrite (list_fmap_ext _ fst) by (intros ? []; done).
Qed.

(** A dispatch sees the pairs only, if no handler panics. *)
Lemma dispatch_pairs cb e l (hs : list (Z * (E -> prog E O))) (fs : list (E -> list O)) t :
  pairs l = prod_map id SPlain <$> hs -> Forall2 (fun ph f => emitter ph.2 f) hs fs ->
  dispatch_local cb e l t = Some (0, t ++ (fs ≫= fun f => f e)).
Proof.
  intros Hl Hf. apply dispatch_emitters. revert l Hl.
  induction Hf as [|[prio h] f hs fs Hh Hf IH]; intros [|en l] Hl; simplify_eq/=; constructor; [|by apply IH].
  by exists h.
Qed.

(** A run of events without changes of the registry in between. *)
Fixpoint notify_all (es : list E) (k : prog E O) : prog E O :=
  match es with
  | [] => k
  | e :: es => Notify e (notify_all es k)
  end.

(** If each event has the effects [f e] and panics [g e] times, so has the run. *)
Lemma run_notify_all (f : E -> list O) (g : E -> nat) es k r t :
  (0 <= panics r < u64_modulus)%Z ->
  (forall e t, dispatch_local (panic_callback r) e (handlers r) t = Some (g e, t ++ f e)) ->
  run_client (notify_all es k) r t =
    run_client k (count_panics (sum_list (g <$> es)) r) (t ++ (es ≫= f)).
Proof.
  intros Hp Hd. revert r Hp Hd t. induction es as [|e es IH]; intros r Hp Hd t; simpl.
  - rewrite app_nil_r. f_equal. unfold count_panics. rewrite Z.add_0_r, u64_small by done.
    by destruct r.
  - rewrite Hd. simpl. rewrite IH; [|apply u64_range|done]. f_equal.
    + unfold count_panics. simpl. f_equal. rewrite u64_add_l. f_equal. change (list_fmap E nat g es) with (g <$> es). lia.
    + by rewrite <- app_assoc.
Qed.

(** A sequence of effects. *)
Fixpoint emit_all (os : list O) (k : prog E O) : prog E O :=
  match os with
  | [] => k
  | o :: os => Emit o (emit_all os k)
  end.

Lemma run_emit_all os k r t : run_client (emit_all os k) r t = run_client k r (t ++ os).
Proof.
  revert t. induction os as [|o os IH]; intros t; simpl; [by rewrite app_nil_r|].
  by rewrite IH, <- app_assoc.
Qed.

(** [exec_client] from a new registry. *)
Lemma exec_client_new fuel p fl r t :
  run_client p SyncRegistry_new [] = Some (fl, r, t) ->
  exists w, exec (S fuel) p world_new = Some (fl, w) /\ reg w = r /\ emits (trace w) = t.
Proof.
  intros Hp. destruct (exec_client fuel _ _ _ _ _ _ _ shows_new Hp) as (w & Hw & [Hr _ Ht _]). eauto.
Qed.
End Local.
