(* ===== verification/FuzzChurn.v ===== *)
(** The fuzz target src/fuzz/fuzz_targets/handler_churn.rs: random sequences of
    operations on a [SyncRegistry<u32>], checked against bookkeeping of its own.  The
    decoding of the input bytes into operations is the [arbitrary] crate's; here every
    sequence of operations is considered. *)
From S2P Require Import Prelude HandlerId HandlerList HandlerStore PanicInfo SyncRegistry.
From S2P Require Import SyncWf Clients Hazard SnapCell.

(** [enum Op]; the [u8] indices are used modulo the length only. *)
Inductive Op :=
  | Op_Register (panicky : bool)
  | Op_UnregisterIndex (idx : nat)
  | Op_UnregisterStale
  | Op_Clear
  | Op_Notify (value : Z)
  | Op_HandlerCount
  | Op_Contains (idx : nat).

(** The handlers: [counter.fetch_add(1)], then perhaps a panic. *)
Definition counting (panicky : bool) : Z -> prog Z unit := fun _ =>
  Emit tt (if panicky then Panic (PStr "fuzz panic") else Ret).

(** The loop over the operations, with its variables [live_ids] and [stale_id]. *)
Fixpoint fuzz (ops : list Op) (live_ids : list HandlerId) (stale_id : option HandlerId)
    : prog Z unit :=
  match ops with
  | [] => Ret
  | Op_Register panicky :: ops =>
      Register0 (counting panicky) (fun id => fuzz ops (live_ids ++ [id]) stale_id)
  | Op_UnregisterIndex idx :: ops =>
      match live_ids with
      | [] => fuzz ops live_ids stale_id
      | _ =>
          let pos := idx `mod` length live_ids in
          match swap_remove pos live_ids with
          | None => Panic (PString "swap_remove index out of range")
          | Some (id, live_ids) =>
              Unregister id (fun b =>
                assert b "live id must be removable" (fuzz ops live_ids (Some id)))
          end
      end
  | Op_UnregisterStale :: ops =>
      match stale_id with
      | Some id =>
          Unregister id (fun b =>
            assert (negb b) "stale id must return false" (fuzz ops live_ids stale_id))
      | None => fuzz ops live_ids stale_id
      end
  | Op_Clear :: ops => Clear (fuzz ops [] stale_id)
  | Op_Notify value :: ops => Notify value (fuzz ops live_ids stale_id)
  | Op_HandlerCount :: ops =>
      HandlerCount (fun n =>
        if decide (n = length live_ids) then fuzz ops live_ids stale_id
        else Panic (PString "assertion `left == right` failed"))
  | Op_Contains idx :: ops =>
      match live_ids with
      | [] => fuzz ops live_ids stale_id
      | _ =>
          let pos := idx `mod` length live_ids in
          match live_ids !! pos with
          | None => Panic (PString "index out of bounds")
          | Some id =>
              Contains id (fun b =>
                assert b "live id must be contained" (fuzz ops live_ids stale_id))
          end
      end
  end.

(** ** What the run should do, on the number of live handlers alone *)

Definition live_after (op : Op) (n : nat) : nat :=
  match op with
  | Op_Register _ => S n
  | Op_UnregisterIndex _ => n - 1
  | Op_Clear => 0
  | _ => n
  end.

Definition invocations_of (op : Op) (n : nat) : nat :=
  match op with Op_Notify _ => n | _ => 0 end.

Fixpoint expected (ops : list Op) (n : nat) : nat * nat :=
  match ops with
  | [] => (n, 0)
  | op :: ops => let '(m, calls) := expected ops (live_after op n) in (m, invocations_of op n + calls)
  end.

Definition registrations_in (ops : list Op) : nat :=
  cnt (fun op => match op with Op_Register _ => true | _ => false end) ops.

(** ** Proof *)

Section Run.
Abbreviation Vec := (list (HandlerEntry (stored Z unit))).
Implicit Types (r : SyncRegistry Z unit Vec) (t : list unit) (l : Vec).

(** The bookkeeping agrees with the registry. *)
Record agrees r (live_ids : list HandlerId) (stale_id : option HandlerId) : Prop := {
  ag_sorted : StronglySorted desc (handlers r);
  ag_ids : entry_id <$> handlers r ≡ₚ live_ids;
  ag_nodup : NoDup live_ids;
  ag_next : (0 <= gen_next (id_generator r))%Z;
  ag_below id : id ∈ live_ids -> (as_u64 id < gen_next (id_generator r))%Z;
  ag_stale id : stale_id = Some id -> id ∉ live_ids /\ (as_u64 id < gen_next (id_generator r))%Z;
  ag_handlers : Forall (fun en => exists b, handler en = SPlain (counting b)) (handlers r);
  ag_callback : panic_callback r = None;
}.

Lemma agrees_new : agrees SyncRegistry_new [] None.
Proof.
  split; simpl; [constructor|done|constructor|by vm_compute|by intros ? ?%elem_of_nil|done|constructor|done].
Qed.

Lemma agrees_nodup r live stale : agrees r live stale -> NoDup (entry_id <$> handlers r).
Proof. intros Hr. rewrite (ag_ids _ _ _ Hr). apply Hr. Qed.

Lemma agrees_register r live stale b :
  agrees r live stale -> (gen_next (id_generator r) + 1 < u64_modulus)%Z ->
  exists id r', register_with_priority 0 (counting b) r = (id, r') /\
    agrees r' (live ++ [id]) stale /\
    gen_next (id_generator r') = (gen_next (id_generator r) + 1)%Z.
Proof.
  intros [H1 H2 H3 H4 H5 H6 H7 H8] Hlt.
  set (id := from_raw (gen_next (id_generator r))).
  set (en := Entry id 0 (SPlain (counting b))).
  eexists id, _. split; [reflexivity|].
  assert (gen_next (id_generator r) + 1 = u64 (gen_next (id_generator r) + 1))%Z as Hu
    by (symmetry; apply u64_small; lia).
  split; [|exact (eq_sym Hu)]. pose proof (insert_entry_perm en _ H1) as Hp.
  assert (id ∉ live) as Hfresh by (intros Hin%H5; simpl in Hin; lia).
  split; cbn -[insert_entry]; fold id; fold en; rewrite <- ?Hu; try done.
  - rewrite insert_entry_ref by done. by apply insert_ref_sorted.
  - rewrite Hp. simpl. rewrite H2. by rewrite Permutation_app_comm.
  - apply NoDup_app. split; [done|]. split; [|apply NoDup_singleton].
    by intros x Hx ->%list_elem_of_singleton.
  - lia.
  - intros x [Hx|Hx]%elem_of_app; [apply H5 in Hx; lia|].
    apply list_elem_of_singleton in Hx as ->. simpl. lia.
  - intros x Hx. destruct (H6 x Hx) as [Hn Hl]. split; [|lia].
    intros [?|Hx']%elem_of_app; [done|]. apply list_elem_of_singleton in Hx' as ->.
    simpl in Hl. lia.
  - rewrite Hp. constructor; [by exists b|done].
Qed.

Lemma fmap_filter_id id l :
  entry_id <$> filter (fun e => entry_id e <> id) l = filter (fun x => x <> id) (entry_id <$> l).
Proof. induction l as [|e l IH]; [done|]. rewrite fmap_cons, !filter_cons. by case_decide; rewrite <- ?IH. Qed.

Lemma agrees_unregister r id live stale live' :
  agrees r live stale -> live ≡ₚ id :: live' ->
  exists r', unregister id r = (true, r') /\ agrees r' live' (Some id) /\
    id_generator r' = id_generator r.
Proof.
  intros Hr Hp. pose proof (agrees_nodup _ _ _ Hr) as Hnd. pose proof Hr as [H1 H2 H3 H4 H5 H6 H7 H8].
  rewrite unregister_found; [|done|rewrite H2, Hp; left].
  rewrite Hp in H3. apply NoDup_cons in H3 as [Hnin Hnd'].
  eexists. split; [done|]. split; [|done]. split; simpl; try done.
  - by apply StronglySorted_filter.
  - rewrite fmap_filter_id, H2, Hp, filter_cons_False by (intros Hn; by apply Hn).
    by rewrite filter_all_true by (apply Forall_forall; intros x Hx ->; done).
  - intros x Hx. apply H5. rewrite Hp. by right.
  - intros x [= <-]. split; [done|]. apply H5. rewrite Hp. left.
  - apply Forall_forall. intros en [_ Hen]%list_elem_of_filter. by eapply Forall_forall in H7.
Qed.

Lemma agrees_clear r live stale :
  agrees r live stale -> agrees (clear r) [] stale /\ id_generator (clear r) = id_generator r.
Proof.
  intros [H1 H2 H3 H4 H5 H6 H7 H8].
  assert (handlers (clear r) = [] /\ id_generator (clear r) = id_generator r /\
    panic_callback (clear r) = panic_callback r) as (Hh & Hg & Hc).
  { unfold clear, remove_all. simpl. by destruct (handlers r) eqn:El. }
  split; [|done]. split; rewrite ?Hh, ?Hg, ?Hc; try done; try constructor.
  - by intros ? ?%elem_of_nil.
  - by intros ?%elem_of_nil.
  - by apply H6.
Qed.

Lemma churn_dispatch e l t :
  Forall (fun en => exists b, handler en = SPlain (counting b)) l ->
  exists n, dispatch_local None e l t = Some (n, t ++ replicate (length l) tt).
Proof.
  intros Hl. revert t. induction Hl as [|[id prio h] l [b Hh] Hl IH]; intros t; simpl in *.
  { exists 0. by rewrite app_nil_r. }
  subst h. destruct (IH (t ++ [tt])) as [n Hn]. rewrite <- app_assoc in Hn.
  destruct b; simpl; rewrite Hn; by eexists.
Qed.

Lemma agrees_notify r live stale n : agrees r live stale -> agrees (count_panics n r) live stale.
Proof. intros []. by split. Qed.

Lemma fuzz_run ops r live stale t :
  agrees r live stale ->
  (gen_next (id_generator r) + Z.of_nat (registrations_in ops) < u64_modulus)%Z ->
  exists r' t', run_client (fuzz ops live stale) r t = Some (Done, r', t') /\
    length (handlers r') = (expected ops (length live)).1 /\
    length t' = length t + (expected ops (length live)).2.
Proof.
  revert r live stale t. induction ops as [|op ops IH]; intros r live stale t Hr Hlt.
  { exists r, t. split; [done|]. simpl. rewrite <- (ag_ids _ _ _ Hr), length_fmap. split; [done|lia]. }
  assert (forall r1 live1 stale1 t1, agrees r1 live1 stale1 -> length live1 = live_after op (length live) ->
    (gen_next (id_generator r1) + Z.of_nat (registrations_in ops) < u64_modulus)%Z ->
    length t1 = length t + invocations_of op (length live) ->
    exists r' t', run_client (fuzz ops live1 stale1) r1 t1 = Some (Done, r', t') /\
      length (handlers r') = (expected (op :: ops) (length live)).1 /\
      length t' = length t + (expected (op :: ops) (length live)).2) as Hnext.
  { intros r1 live1 stale1 t1 Hr1 Hlive Hlt1 Ht1. destruct (IH r1 live1 stale1 t1 Hr1 Hlt1) as (r' & t' & Hrun & H1 & H2).
    exists r', t'. split; [done|]. cbn [expected]. rewrite <- Hlive.
    destruct (expected ops (length live1)) as [m calls]. simpl in *. split; [done|lia]. }
  assert (registrations_in ops <= registrations_in (op :: ops)) as Hle
    by (unfold registrations_in; simpl; lia).
  destruct op as [b|idx| | |value| |idx]; cbn [fuzz].
  - cbn [run_client Register0].
    destruct (agrees_register r live stale b Hr) as (id & r1 & Hreg & Hr1 & Hg).
    { unfold registrations_in in Hlt. simpl in Hlt. lia. }
    unfold Register0. cbn [run_client]. rewrite Hreg.
    apply Hnext; [done| |unfold registrations_in in *; simpl in Hlt; lia|simpl; lia].
    rewrite length_app. simpl. lia.
  - destruct live as [|id0 live0] eqn:El; [apply Hnext; simpl; try done; lia|]. rewrite <- El in *.
    destruct (lookup_lt_is_Some_2 live (idx `mod` length live)) as [id Hid].
    { apply Nat.mod_upper_bound. by rewrite El. }
    destruct (swap_remove_spec _ _ _ Hid) as (live' & -> & Hp & _).
    cbn [run_client]. destruct (agrees_unregister r id live stale live' Hr Hp) as (r1 & -> & Hr1 & Hg).
    simpl. apply Hnext; [done| |rewrite Hg; lia|simpl; lia]. rewrite Hp. simpl. lia.
  - destruct stale as [id|]; [|apply Hnext; simpl; try done; lia]. cbn [run_client].
    rewrite unregister_missing by (rewrite (ag_ids _ _ _ Hr); by apply (ag_stale _ _ _ Hr)).
    simpl. apply Hnext; simpl; try done; lia.
  - cbn [run_client]. destruct (agrees_clear _ _ _ Hr) as [Hr1 Hg].
    apply Hnext; [done|done|rewrite Hg; lia|simpl; lia].
  - cbn [run_client]. rewrite (ag_callback _ _ _ Hr).
    destruct (churn_dispatch value (handlers r) t (ag_handlers _ _ _ Hr)) as [n ->]. simpl.
    apply Hnext; [by apply agrees_notify|done|simpl; lia|].
    rewrite length_app, length_replicate. simpl. by rewrite <- (ag_ids _ _ _ Hr), length_fmap.
  - cbn [run_client]. rewrite decide_True; [apply Hnext; simpl; try done; lia|].
    unfold handler_count. simpl. by rewrite <- (ag_ids _ _ _ Hr), length_fmap.
  - destruct live as [|id0 live0] eqn:El; [apply Hnext; simpl; try done; lia|]. rewrite <- El in *.
    destruct (lookup_lt_is_Some_2 live (idx `mod` length live)) as [id Hid].
    { apply Nat.mod_upper_bound. by rewrite El. }
    rewrite Hid. cbn [run_client].
    rewrite (proj2 (contains_spec id r)); [|rewrite (ag_ids _ _ _ Hr); by eapply list_elem_of_lookup_2].
    simpl. apply Hnext; simpl; try done; lia.
Qed.

(** (C32) The fuzz target never finds anything: whatever the operations are (fewer than
    [2^64 - 1] registrations), no assertion of [handler_churn] fails and no handler panic
    reaches it; in the end the registry has as many handlers as were registered and
    neither unregistered nor cleared, and each dispatch has called every handler live at
    that moment once. *)
Theorem handler_churn_passes fuel ops :
  (Z.of_nat (registrations_in ops) < u64_modulus - 1)%Z ->
  exists w, exec (S fuel) (fuzz ops [] None) (world_new : world Z unit Vec) = Some (Done, w) /\
    handler_count (reg w) = (expected ops 0).1 /\
    length (emits (trace w)) = (expected ops 0).2.
Proof.
  intros Hlt. destruct (fuzz_run ops SyncRegistry_new [] None [] agrees_new) as (r & t & Hrun & H1 & H2).
  { simpl. lia. }
  destruct (exec_client_new fuel _ _ _ _ Hrun) as (w & Hw & <- & <-). by exists w.
Qed.

Lemma handler_churn_passes_witness :
  exists w, exec 1 (fuzz [Op_Register true; Op_Register false; Op_Register true; Op_Notify 7;
      Op_UnregisterIndex 3; Op_UnregisterStale; Op_HandlerCount; Op_Contains 9; Op_Notify 8;
      Op_Clear; Op_Notify 9] [] None) (world_new : world Z unit Vec) =
      Some (Done, w) /\
    handler_count (reg w) = 0 /\ length (emits (trace w)) = 5.
Proof.
  apply (handler_churn_passes 0 [Op_Register true; Op_Register false; Op_Register true; Op_Notify 7;
    Op_UnregisterIndex 3; Op_UnregisterStale; Op_HandlerCount; Op_Contains 9; Op_Notify 8;
    Op_Clear; Op_Notify 9]). by vm_compute.
Defined.
End Run.
