(* ===== verification/FuzzPayload.v ===== *)
(** The fuzz target src/fuzz/fuzz_targets/event_payload.rs: the input is cut into events
    that are dispatched to three fixed handlers, one of which panics on even tags. *)
From Stdlib Require Import Strings.Byte.
From S2P Require Import Prelude HandlerId HandlerList HandlerStore PanicInfo SyncRegistry Clients.

(** [struct FuzzEvent<'a> { tag: u32, payload: &'a \[u8\] }]. *)
Record FuzzEvent := { evt_tag : Z; evt_payload : list byte }.

(** What the handlers do to the two atomics. *)
Inductive eff := AddBytes (n : Z) | MaxTag (tag : Z).

(** [total_bytes] and [max_tag], two [AtomicUsize], after the effects [t]. *)
Definition total_bytes (t : list eff) : Z :=
  foldl (fun s o => match o with AddBytes n => u64 (s + n) | MaxTag _ => s end) 0%Z t.
Definition max_tag (t : list eff) : Z :=
  foldl (fun s o => match o with MaxTag x => Z.max s x | AddBytes _ => s end) 0%Z t.

(** The three handlers. *)
Definition add_bytes : FuzzEvent -> prog FuzzEvent eff := fun evt =>
  Emit (AddBytes (Z.of_nat (length (evt_payload evt)))) Ret.
Definition keep_max : FuzzEvent -> prog FuzzEvent eff := fun evt => Emit (MaxTag (evt_tag evt)) Ret.
Definition panicky : FuzzEvent -> prog FuzzEvent eff := fun evt =>
  if (evt_tag evt `mod` 2 =? 0)%Z
  then Panic (PString ("fuzz panic on tag " +:+ pretty (evt_tag evt)))
  else Ret.

(** [u32::from_le_bytes]. *)
Definition byte_val (b : byte) : Z := Z.of_N (Byte.to_N b).
Definition from_le_bytes (b0 b1 b2 b3 : Z) : Z :=
  Z.lor b0 (Z.lor (Z.shiftl b1 8) (Z.lor (Z.shiftl b2 16) (Z.shiftl b3 24))).

(** [chunk.get(i).copied().unwrap_or(0)]. *)
Definition byte_or_0 (chunk : list byte) (i : nat) : Z := default 0%Z (byte_val <$> chunk !! i).

(** The event of a chunk; [chunk.get(4..)] is [None] on fewer than four bytes. *)
Definition event_of (chunk : list byte) : FuzzEvent := {|
  evt_tag := from_le_bytes (byte_or_0 chunk 0) (byte_or_0 chunk 1) (byte_or_0 chunk 2) (byte_or_0 chunk 3);
  evt_payload := if decide (4 <= length chunk) then drop 4 chunk else [];
|}.

(** The [while] loop.  The cursor advances in every round, so the length of the data is
    enough fuel. *)
Fixpoint drive (fuel : nat) (data : list byte) (cursor : nat) : prog FuzzEvent eff :=
  match fuel with
  | 0 => Panic (PStr "out of fuel")
  | S fuel =>
      if decide (cursor < length data) then
        let take_ := min 64 (length data - cursor) in
        let chunk := take take_ (drop cursor data) in
        Notify (event_of chunk) (drive fuel data (cursor + take_))
      else Ret
  end.

(** The whole target. *)
Definition fuzz_target (data : list byte) : prog FuzzEvent eff :=
  match data with
  | [] => Ret
  | _ =>
      Register0 add_bytes (fun _ => Register0 keep_max (fun _ => Register0 panicky (fun _ =>
        drive (S (length data)) data 0)))
  end.

(** ** What it should do *)

(** The data in pieces of 64 bytes, the last one perhaps shorter. *)
Definition chunks (data : list byte) : list (list byte) :=
  (fun i => take 64 (drop (64 * i) data)) <$> seq 0 ((length data + 63) / 64).

Definition events (data : list byte) : list FuzzEvent := event_of <$> chunks data.

Definition even_tag (evt : FuzzEvent) : nat := if (evt_tag evt `mod` 2 =? 0)%Z then 1 else 0.

Definition effects (evt : FuzzEvent) : list eff :=
  [AddBytes (Z.of_nat (length (evt_payload evt))); MaxTag (evt_tag evt)].

Lemma chunks_step data : data <> [] -> chunks data = take 64 data :: chunks (drop 64 data).
Proof.
  intros Hne. unfold chunks. rewrite length_drop.
  assert ((length data + 63) / 64 = S ((length data - 64 + 63) / 64)) as ->.
  { destruct (decide (length data <= 64)) as [Hle|Hgt].
    - assert (length data <> 0) by (by intros ?%length_zero_iff_nil).
      replace (length data - 64) with 0 by lia.
      replace (length data + 63) with (1 * 64 + (length data - 1)) by lia.
      rewrite Nat.div_add_l by lia. by rewrite (Nat.div_small (length data - 1)) by lia.
    - replace (length data + 63) with (1 * 64 + (length data - 64 + 63)) by lia.
      by rewrite Nat.div_add_l by lia. }
  cbn [seq fmap list_fmap]. rewrite Nat.mul_0_r, drop_0. f_equal.
  rewrite <- seq_shift, <- list_fmap_compose. apply list_fmap_ext. intros i x _. simpl.
  rewrite drop_drop. do 2 f_equal. lia.
Qed.

(** The pieces are the data. *)
Lemma concat_chunks data : concat (chunks data) = data.
Proof.
  remember (length data) as n eqn:Hn. revert data Hn.
  induction n as [n IH] using lt_wf_ind. intros data ->.
  destruct (decide (data = [])) as [->|Hne]; [done|].
  assert (length data <> 0) by (by intros ?%length_zero_iff_nil).
  rewrite chunks_step by done. simpl. rewrite (IH (length (drop 64 data))); [apply take_drop| |done].
  rewrite length_drop. lia.
Qed.

(** The loop dispatches the events of the rest of the data, in order, and ends. *)
Lemma drive_events fuel data cursor :
  length data - cursor < fuel ->
  drive fuel data cursor = notify_all (events (drop cursor data)) Ret.
Proof.
  revert cursor. induction fuel as [|fuel IH]; intros cursor Hf; [lia|]. cbn [drive].
  destruct (decide (cursor < length data)) as [Hlt|Hge].
  - rewrite IH by lia. unfold events.
    rewrite (chunks_step (drop cursor data)); [|intros E; apply (f_equal length) in E; rewrite length_drop in E; simpl in E; lia].
    cbn [fmap list_fmap notify_all]. rewrite drop_drop.
    assert (take (min 64 (length data - cursor)) (drop cursor data) = take 64 (drop cursor data)) as ->.
    { rewrite <- take_take. f_equal. apply take_ge. rewrite length_drop. lia. }
    f_equal. do 2 f_equal. destruct (decide (64 <= length data - cursor)).
    + by rewrite Nat.min_l by lia.
    + rewrite Nat.min_r by lia. rewrite !drop_ge by lia. done.
  - by rewrite drop_ge by lia.
Qed.

Lemma payload_dispatch n1 n2 n3 evt t :
  dispatch_local None evt [Entry n1 0 (SPlain add_bytes); Entry n2 0 (SPlain keep_max);
    Entry n3 0 (SPlain panicky)] t = Some (even_tag evt, t ++ effects evt).
Proof.
  simpl. unfold panicky, even_tag, effects. rewrite <- app_assoc.
  by destruct (_ =? 0)%Z.
Qed.

Lemma target_run data :
  exists r, run_client (fuzz_target data) SyncRegistry_new [] =
    Some (Done, r, events data ≫= effects) /\
    panics r = u64 (Z.of_nat (sum_list (even_tag <$> events data))).
Proof.
  destruct (decide (data = [])) as [->|Hne]; [by eexists|].
  assert (fuzz_target data = Register0 add_bytes (fun _ => Register0 keep_max (fun _ =>
    Register0 panicky (fun _ => drive (S (length data)) data 0)))) as -> by (by destruct data).
  unfold Register0. cbn [run_client].
  rewrite register_last by constructor. cbn [run_client handlers].
  rewrite register_last by (repeat constructor; done). cbn [run_client handlers].
  rewrite register_last by (repeat constructor; done). cbn [run_client handlers].
  rewrite drive_events by lia. rewrite drop_0.
  rewrite (run_notify_all effects even_tag); [|by vm_compute|intros; apply payload_dispatch].
  by eexists.
Qed.

Lemma total_bytes_effects es s :
  foldl (fun s o => match o with AddBytes n => u64 (s + n) | MaxTag _ => s end) (u64 s) (es ≫= effects) =
  u64 (s + Z.of_nat (sum_list ((fun e => length (evt_payload e)) <$> es))).
Proof.
  revert s. induction es as [|e es IH]; intros s; cbn [fmap list_fmap sum_list]; simpl.
  - by rewrite Z.add_0_r.
  - rewrite u64_add_l, IH. f_equal. lia.
Qed.

(** The largest tag: none is larger, and it is the tag of some event unless all are 0. *)
Lemma max_tag_effects es s m :
  foldl (fun s o => match o with MaxTag x => Z.max s x | AddBytes _ => s end) s (es ≫= effects) = m ->
  (s <= m)%Z /\ Forall (fun e => (evt_tag e <= m)%Z) es /\
  (m = s \/ exists e, e ∈ es /\ evt_tag e = m).
Proof.
  revert s. induction es as [|e es IH]; intros s Hm; simpl in Hm.
  - split; [lia|]. split; [constructor|by left].
  - destruct (IH _ Hm) as (H1 & H2 & H3). split; [lia|]. split; [constructor; [lia|done]|].
    destruct H3 as [H3|(e' & He' & H3)]; [|right; exists e'; split; [by right|done]].
    destruct (Z.max_spec s (evt_tag e)) as [[_ Hx]|[_ Hx]]; rewrite Hx in H3; [|by left].
    right. exists e. split; [left|done].
Qed.

(** The dispatch path on any input.  The target ends without a panic: the data is
    cut into consecutive pieces of 64 bytes, each piece is dispatched once, in order, to
    the handlers in the order of registration; [total_bytes] is the number of bytes
    after the tags, [max_tag] is taken over all tags, and [panic_count] is the number of
    even tags. *)
Theorem event_payload_exact fuel data :
  concat (chunks data) = data /\
  exists w, exec (S fuel) (fuzz_target data)
      (world_new : world FuzzEvent eff (list (HandlerEntry (stored FuzzEvent eff)))) = Some (Done, w) /\
    emits (trace w) = events data ≫= effects /\
    total_bytes (emits (trace w)) =
      u64 (Z.of_nat (sum_list ((fun e => length (evt_payload e)) <$> events data))) /\
    Forall (fun e => (evt_tag e <= max_tag (emits (trace w)))%Z) (events data) /\
    (max_tag (emits (trace w)) = 0%Z \/
     exists e, e ∈ events data /\ evt_tag e = max_tag (emits (trace w))) /\
    panic_count (reg w) = u64 (Z.of_nat (sum_list (even_tag <$> events data))).
Proof.
  split; [apply concat_chunks|]. destruct (target_run data) as (r & Hrun & Hp).
  destruct (exec_client_new fuel _ _ _ _ Hrun) as (w & Hw & <- & Ht). exists w.
  split; [done|]. split; [done|]. rewrite Ht.
  destruct (max_tag_effects (events data) 0 _ eq_refl) as (_ & Hall & Hex).
  split; [exact (total_bytes_effects (events data) 0)|]. by split_and!.
Qed.

(** Seventy zero bytes: a full piece and a short one, both with tag 0. *)
Example event_payload_zeros :
  match exec 1 (fuzz_target (replicate 70 x00)) world_new with
  | Some (fl, w) =>
      (fl, total_bytes (emits (trace (w : world FuzzEvent eff (list (HandlerEntry (stored FuzzEvent eff)))))),
       panic_count (reg w)) = (Done, 62, 2)%Z
  | None => False
  end.
Proof. by vm_compute. Qed.
