(* ===== verification/TransactionHooks.v ===== *)
(** The example src/examples/pattern_transaction_hooks.rs: hooks on transaction state
    changes, ordered by priority. *)
From S2P Require Import Prelude HandlerId HandlerList HandlerStore PanicInfo SyncRegistry Clients.

(** [enum Transition] and [struct TransactionEvent]. *)
Inductive Transition := Begun | Prepared | Committed | TxAborted | RecoveredFromCrash.
Record TransactionEvent := Tx { txid : Z; transition : Transition }.

(** Pushes to [order] and lines printed. *)
Inductive eff := Push (x : Z * string) | Print (line : string).

(** The content of the mutex [order]. *)
Definition order (t : list eff) : list (Z * string) :=
  omap (fun o => match o with Push x => Some x | Print _ => None end) t.
Definition printed (t : list eff) : list string :=
  omap (fun o => match o with Print s => Some s | Push _ => None end) t.

(** The four hooks. *)
Definition wal_flush : TransactionEvent -> prog TransactionEvent eff := fun evt =>
  match transition evt with
  | Committed => Emit (Push (txid evt, "wal:flush")) Ret
  | _ => Ret
  end.

Definition cache_invalidate : TransactionEvent -> prog TransactionEvent eff := fun evt =>
  match transition evt with
  | Committed | TxAborted => Emit (Push (txid evt, "cache:invalidate")) Ret
  | _ => Ret
  end.

Definition replication_send : TransactionEvent -> prog TransactionEvent eff := fun evt =>
  match transition evt with
  | Committed => Emit (Push (txid evt, "replication:send")) Ret
  | _ => Ret
  end.

Definition metrics_tag (tr : Transition) : string :=
  match tr with
  | Begun => "metrics:tx_begun"
  | Prepared => "metrics:tx_prepared"
  | Committed => "metrics:tx_committed"
  | TxAborted => "metrics:tx_aborted"
  | RecoveredFromCrash => "metrics:tx_recovered"
  end.

Definition metrics : TransactionEvent -> prog TransactionEvent eff := fun evt =>
  Emit (Push (txid evt, metrics_tag (transition evt))) Ret.

(** The registrations of [main], with their priorities. *)
Definition hooks : list (Z * (TransactionEvent -> prog TransactionEvent eff)) :=
  [(1000, wal_flush); (500, cache_invalidate); (0, replication_send); (-100, metrics)]%Z.

(** The events of [main]. *)
Definition lifecycle : list TransactionEvent :=
  [Tx 42 Begun; Tx 42 Prepared; Tx 42 Committed; Tx 43 Begun; Tx 43 TxAborted].

(** [{x:>3}]: right-aligned in three columns. *)
Definition right3 (s : string) : string :=
  match 3 - String.length s with 0 => "" | 1 => " " | 2 => "  " | _ => "   " end +:+ s.

Fixpoint print_order (log : list (Z * string)) : prog TransactionEvent eff :=
  match log with
  | [] => Ret
  | (id, tag) :: log =>
      Emit (Print ("  txid=" +:+ right3 (pretty id) +:+ " hook=" +:+ tag)) (print_order log)
  end.

Definition main : prog TransactionEvent eff :=
  register_all hooks (notify_all lifecycle (Observe (fun t =>
    Emit (Print "hook execution order (priority desc, then registration order):")
      (print_order (order t))))).

(** ** The order of the hooks *)

(** What an event must do: the journal before the cache before replication before the
    metrics. *)
Definition hook_order (evt : TransactionEvent) : list (Z * string) :=
  (fun tag => (txid evt, tag)) <$>
  match transition evt with
  | Begun => ["metrics:tx_begun"]
  | Prepared => ["metrics:tx_prepared"]
  | Committed => ["wal:flush"; "cache:invalidate"; "replication:send"; "metrics:tx_committed"]
  | TxAborted => ["cache:invalidate"; "metrics:tx_aborted"]
  | RecoveredFromCrash => ["metrics:tx_recovered"]
  end.

Abbreviation World := (world TransactionEvent eff (list (HandlerEntry (stored TransactionEvent eff)))).

(** The effects of each hook. *)
Definition hook_effects : list (TransactionEvent -> list eff) :=
  [ fun evt => match transition evt with Committed => [Push (txid evt, "wal:flush")] | _ => [] end;
    fun evt => match transition evt with
               | Committed | TxAborted => [Push (txid evt, "cache:invalidate")] | _ => [] end;
    fun evt => match transition evt with Committed => [Push (txid evt, "replication:send")] | _ => [] end;
    fun evt => [Push (txid evt, metrics_tag (transition evt))] ].

Lemma hooks_emit : Forall2 (fun ph f => emitter ph.2 f) hooks hook_effects.
Proof.
  repeat constructor; intros evt t; simpl;
    unfold wal_flush, cache_invalidate, replication_send, metrics;
    destruct (transition evt); simpl; by rewrite ?app_nil_r.
Qed.

Lemma hook_effects_order evt : (hook_effects ≫= fun f => f evt) = Push <$> hook_order evt.
Proof. destruct evt as [x []]; reflexivity. Qed.

Lemma order_push xs : order (Push <$> xs) = xs.
Proof. induction xs as [|x xs IH]; [done|]. unfold order in *. simpl. f_equal. apply IH. Qed.

Lemma order_app t1 t2 : order (t1 ++ t2) = order t1 ++ order t2.
Proof. apply omap_app. Qed.

(** Priorities decide the order.  In whatever order the four hooks are registered, and
    for any sequence of transaction events, each event runs its hooks in the order
    journal, cache, replication, metrics, and events are handled one after the other. *)
Theorem transaction_hooks_order fuel hs es :
  hs ≡ₚ hooks ->
  exists w, exec (S fuel) (register_all hs (notify_all es Ret)) (world_new : World) = Some (Done, w) /\
    order (emits (trace w)) = es ≫= hook_order.
Proof.
  intros Hp.
  destruct (run_register_perm hs hooks (notify_all es Ret) [] Hp) as (r & Hrun & Hpr & Hc & Hn).
  - apply (bool_decide_unpack _). by vm_compute.
  - repeat constructor; unfold above; simpl; lia.
  - rewrite (run_notify_all (fun evt => Push <$> hook_order evt) (fun _ => 0)) in Hrun.
    + destruct (exec_client_new fuel _ _ _ _ Hrun) as (w & Hw & _ & Ht). exists w. split; [done|].
      rewrite Ht, app_nil_l. clear. induction es as [|evt es IH]; [done|].
      rewrite !bind_cons, order_app, order_push. f_equal. exact IH.
    + rewrite Hn. by vm_compute.
    + intros evt t. rewrite <- hook_effects_order. by apply (dispatch_pairs _ _ _ hooks); [|apply hooks_emit].
Qed.

Lemma transaction_hooks_order_witness :
  exists w, exec 1 (register_all (reverse hooks) (notify_all [Tx 7 Committed; Tx 8 TxAborted] Ret))
      (world_new : World) = Some (Done, w) /\
    order (emits (trace w)) = [Tx 7 Committed; Tx 8 TxAborted] ≫= hook_order.
Proof.
  apply (transaction_hooks_order 0 (reverse hooks) [Tx 7 Committed; Tx 8 TxAborted]).
  apply reverse_Permutation.
Defined.

(** What the example prints. *)
Example transaction_hooks_output :
  match exec 1 main (world_new : World) with
  | Some (fl, w) => (fl, printed (emits (trace w)))
  | None => (Done, [])
  end =
  (Done, ["hook execution order (priority desc, then registration order):";
          "  txid= 42 hook=metrics:tx_begun"; "  txid= 42 hook=metrics:tx_prepared";
          "  txid= 42 hook=wal:flush"; "  txid= 42 hook=cache:invalidate";
          "  txid= 42 hook=replication:send"; "  txid= 42 hook=metrics:tx_committed";
          "  txid= 43 hook=metrics:tx_begun"; "  txid= 43 hook=cache:invalidate";
          "  txid= 43 hook=metrics:tx_aborted"]).
Proof. by vm_compute. Qed.
