(* ===== verification/MetricEvent.v ===== *)
(** The example src/examples/pattern_metric_event.rs: an aggregator with atomic counters
    and a batch of raw events on the same bus. *)
From S2P Require Import Prelude HandlerId HandlerList HandlerStore PanicInfo SyncRegistry Clients.

(** [enum MetricEvent]. *)
Inductive MetricEvent :=
  | RequestStarted (route : string)
  | RequestCompleted (route : string) (latency_us : Z)
  | MetricError (route kind : string).

(** The [AtomicU64]s of [struct Counters]. *)
Inductive field := requests_started | requests_completed | total_latency_us | errors.

#[export] Instance field_eq_dec : EqDecision field.
Proof. solve_decision. Defined.

(** [fetch_add] on a counter, a push to and a drain of [EventBatch::pending], a line
    printed. *)
Inductive eff :=
  | FetchAdd (f : field) (n : Z)
  | PushEvent (e : MetricEvent)
  | Drain
  | Print (line : string).

Definition counter (f : field) (t : list eff) : Z :=
  foldl (fun s o => match o with
                    | FetchAdd f' n => if decide (f' = f) then u64 (s + n) else s
                    | _ => s
                    end) 0%Z t.

Definition pending (t : list eff) : list MetricEvent :=
  foldl (fun l o => match o with PushEvent e => l ++ [e] | Drain => [] | _ => l end) [] t.

Definition printed (t : list eff) : list string :=
  omap (fun o => match o with Print s => Some s | _ => None end) t.

(** [Counters::snapshot]. *)
Definition snapshot (t : list eff) : Z * Z * Z * Z :=
  (counter requests_started t, counter requests_completed t, counter total_latency_us t,
   counter errors t).

(** The two handlers. *)
Definition aggregate : MetricEvent -> prog MetricEvent eff := fun evt =>
  match evt with
  | RequestStarted _ => Emit (FetchAdd requests_started 1) Ret
  | RequestCompleted _ latency_us =>
      Emit (FetchAdd requests_completed 1) (Emit (FetchAdd total_latency_us latency_us) Ret)
  | MetricError _ _ => Emit (FetchAdd errors 1) Ret
  end.

Definition collect : MetricEvent -> prog MetricEvent eff := fun evt => Emit (PushEvent evt) Ret.

Definition handlers_ : list (Z * (MetricEvent -> prog MetricEvent eff)) :=
  [(0, aggregate); (0, collect)]%Z.

(** One round of the simulated traffic. *)
Definition round (i : nat) : list MetricEvent :=
  RequestStarted "/api/v1/data" ::
  (if decide (i `mod` 97 = 0) then [MetricError "/api/v1/data" "timeout"] else []) ++
  [RequestCompleted "/api/v1/data" (150 + Z.of_nat (i `mod` 50))].

Definition traffic : list MetricEvent := seq 0 1000 ≫= round.

(** [total_us.checked_div(completed).unwrap_or(0)]. *)
Definition checked_div_or_0 (n d : Z) : Z := if (d =? 0)%Z then 0%Z else (n / d)%Z.

(** The report at the end of [main]; [drain] takes the batch and leaves an empty one. *)
Definition report_metrics : prog MetricEvent eff :=
  Observe (fun t =>
    let '(started, completed, total_us, errs) := snapshot t in
    let avg_us := checked_div_or_0 total_us completed in
    Emit (Print "aggregated metrics:") (
    Emit (Print ("  requests_started   = " +:+ pretty started)) (
    Emit (Print ("  requests_completed = " +:+ pretty completed)) (
    Emit (Print ("  avg_latency_us     = " +:+ pretty avg_us)) (
    Emit (Print ("  errors             = " +:+ pretty errs)) (
    Observe (fun t => Emit Drain (
      Emit (Print (newline +:+ "batched events pending export: " +:+ pretty (length (pending t)))) (
      Emit (Print "  (an out-of-band exporter would ship these now)") Ret))))))))).

(** [main], for any traffic. *)
Definition main (events : list MetricEvent) : prog MetricEvent eff :=
  register_all handlers_ (notify_all events report_metrics).

(** ** What is counted *)

Abbreviation World := (world MetricEvent eff (list (HandlerEntry (stored MetricEvent eff)))).

(** What an event adds to a counter. *)
Definition weight (f : field) (evt : MetricEvent) : Z :=
  match f, evt with
  | requests_started, RequestStarted _ => 1
  | requests_completed, RequestCompleted _ _ => 1
  | total_latency_us, RequestCompleted _ n => n
  | errors, MetricError _ _ => 1
  | _, _ => 0
  end.

Definition total (f : field) (es : list MetricEvent) : Z := foldr (fun e s => weight f e + s)%Z 0%Z es.

Definition effects (evt : MetricEvent) : list eff :=
  match evt with
  | RequestStarted _ => [FetchAdd requests_started 1]
  | RequestCompleted _ n => [FetchAdd requests_completed 1; FetchAdd total_latency_us n]
  | MetricError _ _ => [FetchAdd errors 1]
  end ++ [PushEvent evt].

Lemma metric_dispatch n1 n2 cb evt t :
  dispatch_local cb evt [Entry n1 0 (SPlain aggregate); Entry n2 0 (SPlain collect)] t =
    Some (0, t ++ effects evt).
Proof. destruct evt; simpl; by rewrite <- ?app_assoc. Qed.

Lemma counter_effects f es s :
  foldl (fun s o => match o with
                    | FetchAdd f' n => if decide (f' = f) then u64 (s + n) else s
                    | _ => s
                    end) (u64 s) (es ≫= effects) = u64 (s + total f es).
Proof.
  revert s. induction es as [|e es IH]; intros s; [simpl; by rewrite Z.add_0_r|].
  rewrite bind_cons. destruct e as [r|r n|r k], f; simpl; rewrite ?u64_add_l, IH; f_equal; lia.
Qed.

Lemma pending_effects es l :
  foldl (fun l o => match o with PushEvent e => l ++ [e] | Drain => [] | _ => l end) l (es ≫= effects) =
  l ++ es.
Proof.
  revert l. induction es as [|e es IH]; intros l; [simpl; by rewrite app_nil_r|].
  rewrite bind_cons. destruct e; simpl; rewrite IH; by rewrite <- app_assoc.
Qed.

Lemma counter_exact f es : counter f (es ≫= effects) = u64 (total f es).
Proof. exact (counter_effects f es 0). Qed.

(** The run up to the report. *)
Lemma metric_run events k :
  exists r, run_client (register_all handlers_ (notify_all events k)) SyncRegistry_new [] =
    run_client k r (events ≫= effects).
Proof.
  cbn [register_all handlers_ run_client].
  rewrite register_last by constructor. cbn [run_client handlers].
  rewrite register_last by (repeat constructor; done). cbn [run_client handlers].
  rewrite (run_notify_all effects (fun _ => 0)); [|by vm_compute|intros; apply metric_dispatch].
  by eexists.
Qed.

(** The collected metrics are exact for any traffic: each counter is the number of
    events of its kind (the latency counter the sum of the latencies) modulo [2^64], the
    batch holds every event once, in order, and the report shows these numbers and leaves
    the batch empty. *)
Theorem metrics_exact fuel events :
  exists w, exec (S fuel) (main events) (world_new : World) = Some (Done, w) /\
    snapshot (emits (trace w)) =
      (u64 (total requests_started events), u64 (total requests_completed events),
       u64 (total total_latency_us events), u64 (total errors events)) /\
    pending (emits (trace w)) = [] /\
    printed (emits (trace w)) =
      ["aggregated metrics:";
       "  requests_started   = " +:+ pretty (u64 (total requests_started events));
       "  requests_completed = " +:+ pretty (u64 (total requests_completed events));
       "  avg_latency_us     = " +:+ pretty (checked_div_or_0 (u64 (total total_latency_us events))
                                               (u64 (total requests_completed events)));
       "  errors             = " +:+ pretty (u64 (total errors events));
       newline +:+ "batched events pending export: " +:+ pretty (length events);
       "  (an out-of-band exporter would ship these now)"].
Proof.
  destruct (metric_run events report_metrics) as [r Hrun].
  unfold report_metrics in Hrun. cbn [run_client] in Hrun. unfold snapshot in Hrun.
  rewrite !counter_exact in Hrun. cbn [run_client] in Hrun.
  destruct (exec_client_new fuel _ _ _ _ Hrun) as (w & Hw & _ & Ht). exists w. split; [done|].
  rewrite Ht. unfold snapshot, counter, pending, printed. rewrite !foldl_app, !omap_app.
  cbn [foldl omap list_omap]. rewrite !(counter_effects _ _ 0), pending_effects.
  split_and!; try done.
  assert (omap (fun o => match o with Print s => Some s | _ => None end) (events ≫= effects) = [])
    as Hnone by (clear; induction events as [|[] es IH]; done).
  by rewrite Hnone.
Qed.

(** What the example prints. *)
Example metric_output :
  match run_client (main traffic) SyncRegistry_new [] with
  | Some (fl, _, t) => (fl, printed t)
  | None => (Done, [])
  end =
  (Done, ["aggregated metrics:"; "  requests_started   = 1000"; "  requests_completed = 1000";
          "  avg_latency_us     = 174"; "  errors             = 11";
          newline +:+ "batched events pending export: 2011";
          "  (an out-of-band exporter would ship these now)"]).
Proof. by vm_compute. Qed.
