(* ===== verification/HotReload.v ===== *)
(** The example src/examples/pattern_hot_reload.rs: a configuration value and the
    subscribers that follow it. *)
From S2P Require Import Prelude HandlerId HandlerList HandlerStore PanicInfo SyncRegistry Clients.

(** [struct ConfigSnapshot]. *)
Record ConfigSnapshot := Snapshot {
  generation : Z;
  request_timeout_ms : Z;
  feature_flag_search_v2 : bool;
}.

Definition set_generation (g : Z) (c : ConfigSnapshot) : ConfigSnapshot :=
  Snapshot g (request_timeout_ms c) (feature_flag_search_v2 c).

(** Writes to the fields of [struct Config] (the [RwLock] with the snapshot, the
    generation counter) and to the atomics of [main]; lines printed. *)
Inductive eff :=
  | SetSnapshot (c : ConfigSnapshot)
  | GenerationAdd
  | StoreTimeout (n : Z)
  | SwapLast (b : bool)
  | ToggleAdd
  | Print (line : string).

Record shared := Shared {
  snapshot : ConfigSnapshot;
  generation_counter : Z;
  timeout_observed : Z;
  last_v2 : bool;
  toggle_count : Z;
}.

Definition write (s : shared) (o : eff) : shared :=
  let '(Shared c g tm b n) := s in
  match o with
  | SetSnapshot c => Shared c g tm b n
  | GenerationAdd => Shared c (u64 (g + 1)) tm b n
  | StoreTimeout tm => Shared c g tm b n
  | SwapLast b => Shared c g tm b n
  | ToggleAdd => Shared c g tm b (u64 (n + 1))
  | Print _ => s
  end.

(** [Config::new] and the atomics as [main] creates them. *)
Definition config_new (initial : ConfigSnapshot) : shared := Shared initial 0 0 false 0.

Definition printed (t : list eff) : list string :=
  omap (fun o => match o with Print s => Some s | _ => None end) t.

Abbreviation World := (world ConfigSnapshot eff (list (HandlerEntry (stored ConfigSnapshot eff)))).

Section Config.
Context (initial : ConfigSnapshot).

Definition shared_after (t : list eff) : shared := foldl write (config_new initial) t.

(** [Config::current]. *)
Definition current (t : list eff) : ConfigSnapshot := snapshot (shared_after t).

(** [Config::mutate]: [f] works on a copy, which gets the next generation number and
    replaces the snapshot; subscribers are notified after that.  The addition to the
    number [fetch_add] returned is checked. *)
Definition mutate (f : ConfigSnapshot -> ConfigSnapshot) (k : prog ConfigSnapshot eff)
    : prog ConfigSnapshot eff :=
  Observe (fun t =>
    let next := f (current t) in
    let g := generation_counter (shared_after t) in
    Emit GenerationAdd
      (if (g + 1 <? u64_modulus)%Z then
         let next := set_generation (g + 1) next in
         Emit (SetSnapshot next) (Notify next k)
       else Panic (PStr "attempt to add with overflow"))).

(** The two subscribers. *)
Definition timeout_subscriber : ConfigSnapshot -> prog ConfigSnapshot eff := fun snap =>
  Emit (StoreTimeout (request_timeout_ms snap)) Ret.

Definition toggle_subscriber : ConfigSnapshot -> prog ConfigSnapshot eff := fun snap =>
  Observe (fun t =>
    let prev := last_v2 (shared_after t) in
    Emit (SwapLast (feature_flag_search_v2 snap))
      (if eqb prev (feature_flag_search_v2 snap) then Ret else Emit ToggleAdd Ret)).

Definition subscribe (k : prog ConfigSnapshot eff) : prog ConfigSnapshot eff :=
  register_all [(0, timeout_subscriber); (0, toggle_subscriber)]%Z k.

Fixpoint mutate_all (fs : list (ConfigSnapshot -> ConfigSnapshot)) (k : prog ConfigSnapshot eff)
    : prog ConfigSnapshot eff :=
  match fs with
  | [] => k
  | f :: fs => mutate f (mutate_all fs k)
  end.

Definition show_bool (b : bool) : string := if b then "true" else "false".

Definition print_current (label : string) (k : prog ConfigSnapshot eff) : prog ConfigSnapshot eff :=
  Observe (fun t =>
    let c := current t in
    Emit (Print (label +:+ "gen=" +:+ pretty (generation c) +:+ " timeout=" +:+
      pretty (request_timeout_ms c) +:+ "ms search_v2=" +:+ show_bool (feature_flag_search_v2 c))) k).

Definition report_changes : prog ConfigSnapshot eff :=
  print_current "after mutates:  " (Observe (fun t =>
    Emit (Print ("timeout subscriber latest:    " +:+
      pretty (timeout_observed (shared_after t)) +:+ "ms"))
    (Emit (Print ("toggle subscriber transitions: " +:+ pretty (toggle_count (shared_after t))))
      Ret))).

(** [main] for any mutations. *)
Definition main (fs : list (ConfigSnapshot -> ConfigSnapshot)) : prog ConfigSnapshot eff :=
  subscribe (print_current "initial:        " (mutate_all fs report_changes)).

(** ** What subscribers have seen *)

(** The snapshots after each mutation, from generation [g] and snapshot [c]. *)
Fixpoint history (g : Z) (c : ConfigSnapshot) (fs : list (ConfigSnapshot -> ConfigSnapshot))
    : list ConfigSnapshot :=
  match fs with
  | [] => []
  | f :: fs => let c := set_generation (g + 1) (f c) in c :: history (g + 1) c fs
  end.

(** How often the flag changes along a history, from the value [b]. *)
Fixpoint toggles (b : bool) (cs : list ConfigSnapshot) : nat :=
  match cs with
  | [] => 0
  | c :: cs =>
      (if eqb b (feature_flag_search_v2 c) then 0 else 1) + toggles (feature_flag_search_v2 c) cs
  end.

(** The shared state after a history. *)
Definition followed (s : shared) (cs : list ConfigSnapshot) : shared :=
  let final := List.last cs (snapshot s) in
  Shared final (generation_counter s + Z.of_nat (length cs))
    (match cs with [] => timeout_observed s | _ => request_timeout_ms final end)
    (match cs with [] => last_v2 s | _ => feature_flag_search_v2 final end)
    (u64 (toggle_count s + Z.of_nat (toggles (last_v2 s) cs))).

Abbreviation Reg := (SyncRegistry ConfigSnapshot eff (list (HandlerEntry (stored ConfigSnapshot eff)))).

(** Both subscribers are registered. *)
Definition subscribed (r : Reg) : Prop :=
  exists id1 id2, handlers r =
    [Entry id1 0 (SPlain timeout_subscriber); Entry id2 0 (SPlain toggle_subscriber)] /\
  (0 <= panics r < u64_modulus)%Z.

Lemma shared_after_app t1 t2 : shared_after (t1 ++ t2) = foldl write (shared_after t1) t2.
Proof. unfold shared_after. apply foldl_app. Qed.

Lemma shared_after_print t line : shared_after (t ++ [Print line]) = shared_after t.
Proof. rewrite shared_after_app. simpl. by destruct (shared_after t). Qed.

Lemma print_run label k (r : Reg) t :
  exists line, run_client (print_current label k) r t = run_client k r (t ++ [Print line]).
Proof. by eexists. Qed.

Lemma subscribe_run k :
  exists r, run_client (subscribe k) SyncRegistry_new [] = run_client k r [] /\ subscribed r.
Proof.
  unfold subscribe. cbn [register_all run_client].
  rewrite register_last by constructor. cbn [run_client handlers].
  rewrite register_last by (repeat constructor; done). cbn [run_client handlers].
  eexists. split; [done|]. by eexists _, _.
Qed.

(** The effects of one mutation. *)
Definition mutation_effects (s : shared) (f : ConfigSnapshot -> ConfigSnapshot) : list eff :=
  let next := set_generation (generation_counter s + 1) (f (snapshot s)) in
  [GenerationAdd; SetSnapshot next; StoreTimeout (request_timeout_ms next);
   SwapLast (feature_flag_search_v2 next)] ++
  (if eqb (last_v2 s) (feature_flag_search_v2 next) then [] else [ToggleAdd]).

Lemma mutate_run f k r t :
  subscribed r -> (generation_counter (shared_after t) + 1 < u64_modulus)%Z ->
  exists r', run_client (mutate f k) r t = run_client k r' (t ++ mutation_effects (shared_after t) f) /\
    subscribed r'.
Proof.
  intros (id1 & id2 & Hh & Hp) Hlt. exists (count_panics 0 r).
  split; [|exists id1, id2; split; [done|apply u64_range]].
  unfold mutate, current, mutation_effects. cbn [run_client]. rewrite (proj2 (Z.ltb_lt _ _)) by done.
  cbn [run_client]. rewrite Hh. cbn [dispatch_local run_local timeout_subscriber toggle_subscriber].
  rewrite <- !app_assoc. rewrite shared_after_app.
  destruct (shared_after t) as [c g tm b n]. cbn [foldl write last_v2 app feature_flag_search_v2 snapshot generation_counter].
  destruct (eqb b _); cbn [run_local option_bind mbind]; by rewrite <- ?app_assoc.
Qed.

Lemma last_cons_default {A} (l : list A) x c : List.last (x :: l) c = List.last l x.
Proof.
  revert x c. induction l as [|y l IH]; intros x c; [done|].
  change (List.last (y :: l) c = List.last (y :: l) x). by rewrite !IH.
Qed.

(** A history is followed one step at a time. *)
Lemma followed_cons s f fs :
  (0 <= generation_counter s)%Z -> (generation_counter s + 1 < u64_modulus)%Z ->
  followed (foldl write s (mutation_effects s f))
    (history (generation_counter s + 1) (set_generation (generation_counter s + 1) (f (snapshot s))) fs) =
  followed s (history (generation_counter s) (snapshot s) (f :: fs)).
Proof.
  intros H0 Hlt. destruct s as [c g tm b n]. unfold mutation_effects.
  cbn [generation_counter snapshot last_v2 history toggles] in *.
  set (next := set_generation _ _). assert (u64 (g + 1) = g + 1)%Z as Hg by (apply u64_small; lia).
  unfold followed. rewrite last_cons_default. cbn [toggles length].
  destruct (eqb b (feature_flag_search_v2 next)) eqn:Eb;
    cbn [foldl write app generation_counter snapshot last_v2 timeout_observed toggle_count];
    rewrite Hg, ?u64_add_l; f_equal; try lia; try (by destruct (history (g + 1) next fs)).
  all: rewrite Eb; f_equal; lia.
Qed.

Lemma history_length g c fs : length (history g c fs) = length fs.
Proof. revert g c. induction fs as [|f fs IH]; intros g c; [done|]. simpl. by rewrite IH. Qed.

Lemma mutate_all_run fs k r t :
  subscribed r -> (0 <= generation_counter (shared_after t))%Z ->
  (generation_counter (shared_after t) + Z.of_nat (length fs) < u64_modulus)%Z ->
  u64 (toggle_count (shared_after t)) = toggle_count (shared_after t) ->
  exists r' t', run_client (mutate_all fs k) r t = run_client k r' t' /\
    shared_after t' = followed (shared_after t)
      (history (generation_counter (shared_after t)) (snapshot (shared_after t)) fs) /\
    printed t' = printed t.
Proof.
  revert r t. induction fs as [|f fs IH]; intros r t Hr H0 Hlt Hn.
  { exists r, t. split; [done|]. split; [|done]. unfold followed. simpl. rewrite !Z.add_0_r, Hn.
    by destruct (shared_after t). }
  cbn [mutate_all length] in *. destruct (mutate_run f (mutate_all fs k) r t Hr ltac:(lia)) as (r1 & -> & Hr1).
  set (s := shared_after t) in *. set (t1 := t ++ mutation_effects s f).
  assert (shared_after t1 = foldl write s (mutation_effects s f)) as Hs1 by apply shared_after_app.
  assert (generation_counter (shared_after t1) = (generation_counter s + 1)%Z /\
    snapshot (shared_after t1) = set_generation (generation_counter s + 1) (f (snapshot s)) /\
    u64 (toggle_count (shared_after t1)) = toggle_count (shared_after t1)) as (Hg & Hsnap & Hn1).
  { rewrite Hs1. destruct s as [c g tm b n]. unfold mutation_effects.
    cbn [generation_counter snapshot last_v2 toggle_count] in *.
    destruct (eqb b _); cbn [foldl write app generation_counter snapshot toggle_count];
      rewrite (u64_small (g + 1)) by lia; rewrite ?(u64_small (u64 _)) by apply u64_range; done. }
  destruct (IH r1 t1 Hr1) as (r' & t' & Hrun & Hsh & Hpr); [lia|lia|done|].
  exists r', t'. split; [done|]. split.
  - rewrite Hsh, Hg, Hsnap, Hs1. apply followed_cons; lia.
  - rewrite Hpr. subst t1. unfold printed, mutation_effects. rewrite omap_app.
    destruct (eqb _ _); simpl; by rewrite app_nil_r.
Qed.

(** Subscribers follow the configuration.  For any initial configuration and any
    mutations (fewer than [2^64]), the program ends normally; the snapshot is the
    composition of the mutations, numbered with how many there were; the timeout
    subscriber holds the timeout of the last snapshot; and the other one has counted the
    changes of the flag along the history, starting from [false]. *)
Theorem hot_reload_follows fuel fs :
  (Z.of_nat (length fs) < u64_modulus)%Z ->
  exists w, exec (S fuel) (main fs) (world_new : World) = Some (Done, w) /\
    shared_after (emits (trace w)) = followed (config_new initial) (history 0 initial fs).
Proof.
  intros Hlt. unfold main.
  destruct (subscribe_run (print_current "initial:        " (mutate_all fs (report_changes))))
    as (r & Hrun & Hr).
  destruct (print_run "initial:        " (mutate_all fs report_changes) r []) as [line Hline].
  rewrite Hline in Hrun. cbn [app] in Hrun.
  destruct (mutate_all_run fs report_changes r [Print line] Hr) as (r' & t' & Hrun' & Hsh & _);
    [done|done|done|]. rewrite Hrun' in Hrun. unfold report_changes in Hrun.
  destruct (print_run "after mutates:  " (Observe (fun t =>
    Emit (Print ("timeout subscriber latest:    " +:+
      pretty (timeout_observed (shared_after t)) +:+ "ms"))
    (Emit (Print ("toggle subscriber transitions: " +:+ pretty (toggle_count (shared_after t))))
      Ret))) r' t') as [line' Hline'].
  rewrite Hline' in Hrun. cbn [run_client] in Hrun.
  destruct (exec_client_new fuel _ _ _ _ Hrun) as (w & Hw & _ & Ht). exists w. split; [done|].
  rewrite Ht, !shared_after_print. exact Hsh.
Qed.
End Config.

Definition mut_timeout (n : Z) (c : ConfigSnapshot) : ConfigSnapshot :=
  Snapshot (generation c) n (feature_flag_search_v2 c).
Definition mut_flag (b : bool) (c : ConfigSnapshot) : ConfigSnapshot :=
  Snapshot (generation c) (request_timeout_ms c) b.

(** The mutations of the example. *)
Definition mutations : list (ConfigSnapshot -> ConfigSnapshot) :=
  [mut_timeout 5000; mut_flag true; mut_flag false; mut_flag true].

Definition initial_config : ConfigSnapshot := Snapshot 0 30000 false.

Lemma hot_reload_follows_witness :
  exists w, exec 1 (main initial_config mutations) (world_new : World) = Some (Done, w) /\
    shared_after initial_config (emits (trace w)) =
      followed (config_new initial_config) (history 0 initial_config mutations).
Proof. apply (hot_reload_follows initial_config 0 mutations). by vm_compute. Defined.

(** What the example prints. *)
Example hot_reload_output :
  match exec 1 (main initial_config mutations) (world_new : World) with
  | Some (fl, w) => (fl, printed (emits (trace w)))
  | None => (Done, [])
  end =
  (Done, ["initial:        gen=0 timeout=30000ms search_v2=false";
          "after mutates:  gen=4 timeout=5000ms search_v2=true";
          "timeout subscriber latest:    5000ms"; "toggle subscriber transitions: 3"]).
Proof. by vm_compute. Qed.
