(* ===== verification/AuditFanout.v ===== *)
(** The example src/examples/pattern_audit_fanout.rs: every audit event goes to several
    sinks, each attached to the bus by a guard it owns. *)
From S2P Require Import Prelude HandlerId HandlerList HandlerStore PanicInfo SyncRegistry Clients.

(** [enum Severity], with its derived [Debug], and [struct AuditEvent]. *)
Inductive Severity := Info | Warn | Critical.

Definition severity_debug (s : Severity) : string :=
  match s with Info => "Info" | Warn => "Warn" | Critical => "Critical" end.

Record AuditEvent := Audit {
  actor : string;
  action : string;
  resource : string;
  severity : Severity;
}.

(** A line printed, a line pushed to [FileSink::captured], an increment of
    [CriticalAlertSink::triggered]. *)
Inductive eff := Print (line : string) | Captured (line : string) | Triggered.

(** [FileSink::lines] and [CriticalAlertSink::triggered]. *)
Definition lines (t : list eff) : list string :=
  omap (fun o => match o with Captured s => Some s | _ => None end) t.
Definition triggered (t : list eff) : Z :=
  foldl (fun n o => match o with Triggered => u64 (n + 1) | _ => n end) 0%Z t.
Definition printed (t : list eff) : list string :=
  omap (fun o => match o with Print s => Some s | _ => None end) t.

(** The texts of the two sinks. *)
Definition file_line (evt : AuditEvent) : string :=
  actor evt +:+ " action=" +:+ action evt +:+ " resource=" +:+ resource evt +:+ " severity=" +:+
  severity_debug (severity evt).
Definition stdout_line (evt : AuditEvent) : string :=
  "[stdout] " +:+ actor evt +:+ " " +:+ action evt +:+ " " +:+ resource evt +:+ " (" +:+
  severity_debug (severity evt) +:+ ")".

(** The handlers of the three sinks. *)
Definition file_handler : AuditEvent -> prog AuditEvent eff := fun evt =>
  Emit (Captured (file_line evt)) Ret.
Definition stdout_handler : AuditEvent -> prog AuditEvent eff := fun evt =>
  Emit (Print (stdout_line evt)) Ret.
Definition alert_handler : AuditEvent -> prog AuditEvent eff := fun evt =>
  match severity evt with Critical => Emit Triggered Ret | _ => Ret end.

(** [FileSink::attach], [StdoutSink::attach], [CriticalAlertSink::attach]: a sink is its
    guard (and what it has collected). *)
Definition FileSink_attach (k : HandlerGuard -> prog AuditEvent eff) : prog AuditEvent eff :=
  RegisterGuard file_handler k.
Definition StdoutSink_attach (k : HandlerGuard -> prog AuditEvent eff) : prog AuditEvent eff :=
  RegisterGuard stdout_handler k.
Definition CriticalAlertSink_attach (k : HandlerGuard -> prog AuditEvent eff) : prog AuditEvent eff :=
  RegisterGuard alert_handler k.

(** What [main] prints about the sinks. *)
Definition sink_report (t : list eff) : list string :=
  (newline +:+ "file sink captured " +:+ pretty (length (lines t)) +:+ " lines:") ::
  ((fun line => "  " +:+ line) <$> lines t) ++
  ["critical alerts triggered: " +:+ pretty (triggered t)].

(** The end of [main]: the sinks are dropped, each with its guard. *)
Definition detach (stdout_sink file_sink alert_sink : HandlerGuard) : prog AuditEvent eff :=
  DropGuard file_sink (DropGuard alert_sink (DropGuard stdout_sink (IsEmpty (fun b =>
    assert b "all guards dropped → registry empty"
      (Emit (Print (newline +:+ "all sinks detached cleanly; registry is empty")) Ret))))).

(** [main], for any events. *)
Definition main (events : list AuditEvent) : prog AuditEvent eff :=
  StdoutSink_attach (fun stdout_sink => FileSink_attach (fun file_sink =>
  CriticalAlertSink_attach (fun alert_sink =>
    notify_all events (Observe (fun t =>
      emit_all (Print <$> sink_report t) (detach stdout_sink file_sink alert_sink)))))).

(** ** Fan-out *)

Abbreviation World := (world AuditEvent eff (list (HandlerEntry (stored AuditEvent eff)))).
Abbreviation Reg := (SyncRegistry AuditEvent eff (list (HandlerEntry (stored AuditEvent eff)))).

Definition effects (evt : AuditEvent) : list eff :=
  [Print (stdout_line evt); Captured (file_line evt)] ++
  match severity evt with Critical => [Triggered] | _ => [] end.

Definition criticals (events : list AuditEvent) : nat :=
  cnt (fun evt => match severity evt with Critical => true | _ => false end) events.

Lemma audit_dispatch n1 n2 n3 cb evt t :
  dispatch_local cb evt [Entry n1 0 (SPlain stdout_handler); Entry n2 0 (SPlain file_handler);
    Entry n3 0 (SPlain alert_handler)] t = Some (0, t ++ effects evt).
Proof.
  simpl. unfold alert_handler, effects. destruct (severity evt); simpl; by rewrite <- ?app_assoc.
Qed.

(** The guards unregister their handlers, and nothing is left. *)
Lemma detach_run g cb n (t : list eff) :
  run_client (detach (HandlerGuard_new (from_raw 1)) (HandlerGuard_new (from_raw 2))
      (HandlerGuard_new (from_raw 3)))
    (mkRegistry [Entry (from_raw 1) 0 (SPlain stdout_handler); Entry (from_raw 2) 0 (SPlain file_handler);
       Entry (from_raw 3) 0 (SPlain alert_handler)] g cb n : Reg) t =
  Some (Done, mkRegistry [] g cb n,
    t ++ [Print (newline +:+ "all sinks detached cleanly; registry is empty")]).
Proof. by vm_compute. Qed.

Lemma main_run events :
  exists r, run_client (main events) SyncRegistry_new [] =
    Some (Done, r, (events ≫= effects) ++
      (Print <$> sink_report (events ≫= effects) ++
                 [newline +:+ "all sinks detached cleanly; registry is empty"])) /\
    handlers r = [].
Proof.
  unfold main, StdoutSink_attach, FileSink_attach, CriticalAlertSink_attach, RegisterGuard,
    RegisterGuardWithPriority. cbn [run_client].
  rewrite register_last by constructor. cbn [run_client handlers].
  rewrite register_last by (repeat constructor; done). cbn [run_client handlers].
  rewrite register_last by (repeat constructor; done). cbn [run_client handlers].
  rewrite (run_notify_all effects (fun _ => 0)); [|by vm_compute|intros; apply audit_dispatch].
  cbn [run_client]. rewrite run_emit_all.
  eexists. split; [etransitivity; [apply detach_run|]|].
  - rewrite fmap_app, app_assoc. reflexivity.
  - done.
Qed.

Lemma lines_effects events : lines (events ≫= effects) = file_line <$> events.
Proof.
  induction events as [|evt es IH]; [done|]. rewrite bind_cons. unfold lines in *. rewrite omap_app, IH.
  unfold effects. by destruct (severity evt).
Qed.

Lemma printed_effects events : printed (events ≫= effects) = stdout_line <$> events.
Proof.
  induction events as [|evt es IH]; [done|]. rewrite bind_cons. unfold printed in *. rewrite omap_app, IH.
  unfold effects. by destruct (severity evt).
Qed.

Lemma triggered_effects events n :
  foldl (fun n o => match o with Triggered => u64 (n + 1) | _ => n end) (u64 n) (events ≫= effects) =
  u64 (n + Z.of_nat (criticals events)).
Proof.
  revert n. induction events as [|evt es IH]; intros n; [simpl; by rewrite Z.add_0_r|].
  rewrite bind_cons. unfold effects at 1, criticals. cbn [cnt].
  destruct (severity evt); simpl; rewrite ?u64_add_l, IH; unfold criticals; f_equal; lia.
Qed.

(** What comes after the events changes neither. *)
Lemma print_only ls t :
  lines (t ++ (Print <$> ls)) = lines t /\ triggered (t ++ (Print <$> ls)) = triggered t /\
  printed (t ++ (Print <$> ls)) = printed t ++ ls.
Proof.
  assert (lines (Print <$> ls) = [] /\ printed (Print <$> ls) = ls) as [Hl Hp].
  { induction ls as [|s ls [H1 H2]]; [done|]. unfold lines, printed in *. simpl.
    split; [apply H1|]. f_equal. apply H2. }
  unfold lines, triggered, printed in *. rewrite !omap_app, foldl_app, Hl, Hp, app_nil_r.
  split_and!; try done. generalize (foldl (fun n o => match o with Triggered => u64 (n + 1) | _ => n end) 0%Z t).
  clear. induction ls as [|s ls IH]; intros n; [done|]. apply IH.
Qed.

(** The fan-out reaches every sink.  For any events: standard output and the file sink
    each get one line per event, in order; the alert sink has counted the critical ones;
    the report shows that; and after the three sinks are dropped the registry is empty,
    so that the final assertion holds. *)
Theorem audit_fanout_complete fuel events :
  exists w, exec (S fuel) (main events) (world_new : World) = Some (Done, w) /\
    handlers (reg w) = [] /\
    lines (emits (trace w)) = file_line <$> events /\
    triggered (emits (trace w)) = u64 (Z.of_nat (criticals events)) /\
    printed (emits (trace w)) =
      (stdout_line <$> events) ++
      (newline +:+ "file sink captured " +:+ pretty (length events) +:+ " lines:") ::
      ((fun evt => "  " +:+ file_line evt) <$> events) ++
      ["critical alerts triggered: " +:+ pretty (u64 (Z.of_nat (criticals events)));
       newline +:+ "all sinks detached cleanly; registry is empty"].
Proof.
  destruct (main_run events) as (r & Hrun & Hr).
  destruct (exec_client_new fuel _ _ _ _ Hrun) as (w & Hw & <- & Ht). exists w. split; [done|].
  split; [done|]. rewrite Ht.
  destruct (print_only (sink_report (events ≫= effects) ++
    [newline +:+ "all sinks detached cleanly; registry is empty"]) (events ≫= effects)) as (H1 & H2 & H3).
  assert (triggered (events ≫= effects) = u64 (Z.of_nat (criticals events))) as Htr
    by exact (triggered_effects events 0).
  rewrite H1, H2, H3, lines_effects, Htr, printed_effects. split_and!; try done.
  unfold sink_report. rewrite lines_effects, Htr, length_fmap, <- list_fmap_compose.
  simpl. by rewrite <- app_assoc.
Qed.

(** The events of the example, and what it prints. *)
Definition audit_events : list AuditEvent :=
  [Audit "alice" "login" "session#42" Info; Audit "bob" "delete" "user#17" Warn;
   Audit "system" "key-rotation-failed" "kms#main" Critical].

Example audit_output :
  match exec 1 (main audit_events) (world_new : World) with
  | Some (fl, w) => (fl, printed (emits (trace w)))
  | None => (Done, [])
  end =
  (Done, ["[stdout] alice login session#42 (Info)"; "[stdout] bob delete user#17 (Warn)";
          "[stdout] system key-rotation-failed kms#main (Critical)";
          newline +:+ "file sink captured 3 lines:";
          "  alice action=login resource=session#42 severity=Info";
          "  bob action=delete resource=user#17 severity=Warn";
          "  system action=key-rotation-failed resource=kms#main severity=Critical";
          "critical alerts triggered: 1";
          newline +:+ "all sinks detached cleanly; registry is empty"]).
Proof. by vm_compute. Qed.
