(* ===== verification/Examples.v ===== *)
(** The short example programs of [SyncRegistry] under src/examples/: basic.rs,
    priority.rs, guards.rs and panic_isolation.rs, and what they print; the handlers of
    concurrent.rs, whose threads are in ConcurrentExample. *)
From S2P Require Import Prelude HandlerId HandlerList HandlerStore PanicInfo SyncRegistry Clients.

(** Increments of the counter of the example (an [AtomicU32] or [AtomicU64]), lines pushed
    to its [Vec] and lines printed. *)
Inductive eff := FetchAdd (n : Z) | Push (line : string) | Print (line : string).

(** An atomic of the given width after the effects [t]. *)
Definition atomic (modulus : Z) (t : list eff) : Z :=
  foldl (fun s o => match o with FetchAdd n => (s + n) `mod` modulus | _ => s end)%Z 0%Z t.
Definition pushed (t : list eff) : list string :=
  omap (fun o => match o with Push s => Some s | _ => None end) t.
Definition printed (t : list eff) : list string :=
  omap (fun o => match o with Print s => Some s | _ => None end) t.

Definition u32_modulus : Z := 2 ^ 32.

(** What a program prints when it runs on a new registry. *)
Definition output {E} (p : prog E eff) : option (flow * list string) :=
  '(fl, w) ← exec 1 p (world_new : world E eff (list (HandlerEntry (stored E eff))));
  Some (fl, printed (emits (trace w))).

(** ** basic.rs: register, notify, unregister *)

Definition basic_main : prog Z eff :=
  Register0 (fun tick => Emit (FetchAdd tick) Ret) (fun id_add =>
  Register0 (fun tick => Emit (Print ("observed tick: " +:+ pretty tick)) Ret) (fun _ =>
  Notify 2%Z (Notify 3%Z (
  Observe (fun t =>
    Emit (Print ("total accumulated: " +:+ pretty (atomic u32_modulus t))) (
  Unregister id_add (fun b =>
    assert b "assertion failed: registry.unregister(id_add)" (
  Notify 100%Z (
  Observe (fun t =>
    Emit (Print ("after unregistering the accumulator, total stayed at: " +:+
      pretty (atomic u32_modulus t))) Ret)))))))))).

Example basic_output :
  output basic_main = Some (Done,
    ["observed tick: 2"; "observed tick: 3"; "total accumulated: 5"; "observed tick: 100";
     "after unregistering the accumulator, total stayed at: 5"]).
Proof. by vm_compute. Qed.

(** ** priority.rs *)

Definition priority_main : prog string eff :=
  Register 50 (fun event => Emit (Push ("hi-prio: " +:+ event)) Ret) (fun _ =>
  Register0 (fun event => Emit (Push ("default: " +:+ event)) Ret) (fun _ =>
  Register (-100) (fun event => Emit (Push ("lo-prio: " +:+ event)) Ret) (fun _ =>
  Notify "ping" (Observe (fun t => emit_all (Print <$> pushed t) Ret))))).

Example priority_output :
  output priority_main = Some (Done, ["hi-prio: ping"; "default: ping"; "lo-prio: ping"]).
Proof. by vm_compute. Qed.

(** ** guards.rs: a guard that goes out of scope, and one that is forgotten *)

Definition guards_main : prog Z eff :=
  HandlerCount (fun n => Emit (Print ("initial handler count: " +:+ pretty n)) (
  RegisterGuard (fun n => Emit (Print ("guarded handler saw: " +:+ pretty n)) Ret) (fun guard =>
    HandlerCount (fun n => Emit (Print ("inside scope: handler count = " +:+ pretty n)) (
    Notify 7%Z (
    DropGuard guard (
  HandlerCount (fun n => Emit (Print ("after scope: handler count = " +:+ pretty n)) (
  RegisterGuard (fun n => Emit (Print ("detached handler saw: " +:+ pretty n)) Ret) (fun guard =>
    let detached_id := guard_id guard in
    DropGuard (HandlerGuard_forget guard) (
    HandlerCount (fun n =>
      Emit (Print ("after forget: handler count = " +:+ pretty n +:+ ", detached id = " +:+
        HandlerId_display detached_id)) (
    Notify 42%Z (
    Unregister detached_id (fun b =>
      assert b "assertion failed: registry.unregister(detached_id)" (
    HandlerCount (fun n => Emit (Print ("final handler count: " +:+ pretty n)) Ret))))))))))))))))).

Example guards_output :
  output guards_main = Some (Done,
    ["initial handler count: 0"; "inside scope: handler count = 1"; "guarded handler saw: 7";
     "after scope: handler count = 0"; "after forget: handler count = 1, detached id = 2";
     "detached handler saw: 42"; "final handler count: 0"]).
Proof. by vm_compute. Qed.

(** ** panic_isolation.rs *)

Definition panic_main : prog unit eff :=
  OnPanic (fun info =>
    Emit (FetchAdd 1) (
    Emit (Print ("[panic] handler " +:+ HandlerId_display (handler_id info) +:+ " failed: " +:+
      default "<opaque>" (message info))) Ret)) (
  Register0 (fun _ => Emit (Print "handler 1: fine") Ret) (fun _ =>
  Register0 (fun _ => Panic (PStr "handler 2 is broken")) (fun _ =>
  Register0 (fun _ => Emit (Print "handler 3: still ran") Ret) (fun _ =>
  Register0 (fun _ => Panic (PStr "handler 4 also broken")) (fun _ =>
  HandlerCount (fun n => Emit (Print ("dispatching to " +:+ pretty n +:+ " handlers...")) (
  Notify tt (
  Observe (fun t =>
    Emit (Print ("notify returned cleanly. observed " +:+ pretty (atomic u32_modulus t) +:+
      " panics across handlers.")) Ret))))))))).

Example panic_output :
  output panic_main = Some (Done,
    ["dispatching to 4 handlers..."; "handler 1: fine";
     "[panic] handler 2 failed: handler 2 is broken"; "handler 3: still ran";
     "[panic] handler 4 failed: handler 4 also broken";
     "notify returned cleanly. observed 2 panics across handlers."]).
Proof. by vm_compute. Qed.

(** ** concurrent.rs: many threads on one registry *)

(** The handler that tallies. *)
Definition tally : Z -> prog Z eff := fun value => Emit (FetchAdd value) Ret.

(** The registrations of [main]: the same handler four times. *)
Definition concurrent_register (k : prog Z eff) : prog Z eff :=
  register_all (replicate 4 (0%Z, tally)) k.

(** The counter is the sum of the increments, wrapped once. *)
Lemma atomic_sum m t :
  (0 < m)%Z -> atomic m t = (foldr (fun o s => match o with FetchAdd n => n + s | _ => s end) 0 t `mod` m)%Z.
Proof.
  intros Hm. unfold atomic.
  assert (forall s, (0 <= s < m)%Z ->
    foldl (fun s o => match o with FetchAdd n => (s + n) `mod` m | _ => s end)%Z s t =
    ((s + foldr (fun o s => match o with FetchAdd n => n + s | _ => s end) 0 t) `mod` m)%Z) as Hg.
  { induction t as [|o t IH]; intros s Hs; simpl; [by rewrite Z.add_0_r, Z.mod_small|].
    destruct o as [n| |]; [|by apply IH..].
    rewrite IH by (apply Z.mod_pos_bound; lia). rewrite Z.add_mod_idemp_l by lia. f_equal. lia. }
  rewrite Hg by lia. by rewrite Z.add_0_l.
Qed.
