(* ===== verification/ConcurrentExample.v ===== *)
(** src/examples/concurrent.rs on several threads: [main] registers four handlers that add
    to a counter, then the threads dispatch at the same time, and are joined. *)
From S2P Require Import Prelude HandlerId HandlerList HandlerStore PanicInfo SyncRegistry SyncProofs Clients Examples.
From S2P Require Import SyncThreads SyncThreadsInv.

Abbreviation stack := (list (frame Z eff)).
Abbreviation mach := (machine Z eff).

(** ** The program *)

(** The closure a thread runs: [per_thread] times [r.notify(&1)]. *)
Definition worker (per_thread : nat) : prog Z eff := notify_all (replicate per_thread 1%Z) Ret.

(** The registry when the threads are spawned. *)
Definition registered : world Z eff (list (HandlerEntry (stored Z eff))) :=
  match exec 1 (concurrent_register Ret) world_new with Some (_, w) => w | None => world_new end.

(** The spawned threads. *)
Definition workers (threads per_thread : nat) : gmap nat (prog Z eff) :=
  list_to_map ((fun t => (t, worker per_thread)) <$> seq 0 threads).

Definition spawned (threads per_thread : nat) : mach := start registered (workers threads per_thread).

(** [join] of every handle returns. *)
Definition joined (m : mach) : Prop := forall t th, threads m !! t = Some th -> th = Ended Done.

(** What [main] prints as the total. *)
Definition total (m : mach) : Z := atomic u64_modulus (emits (trace (mw m))).

(** ** What is left to do *)

(** Increments still to come, and steps still to take. *)
Fixpoint prog_adds (p : prog Z eff) : nat :=
  match p with Emit _ k => 1 + prog_adds k | Notify _ k => 4 + prog_adds k | _ => 0 end.
Fixpoint prog_steps (p : prog Z eff) : nat :=
  match p with Emit _ k => 1 + prog_steps k | Notify _ k => 14 + prog_steps k | _ => 1 end.

Definition frame_adds (f : frame Z eff) : nat :=
  match f with FRun p => prog_adds p | FDispatch _ _ _ _ rest k => length rest + prog_adds k | _ => 0 end.
Definition frame_steps (f : frame Z eff) : nat :=
  match f with FRun p => prog_steps p | FDispatch _ _ _ _ rest k => 3 * length rest + 1 + prog_steps k | _ => 0 end.

Definition stack_sum (F : frame Z eff -> nat) (st : stack) : nat := sum_list_with F st.
Definition thread_sum (F : frame Z eff -> nat) (m : mach) : nat :=
  msum (fun th => stack_sum F (stack_of th)) (threads m).

(** The stacks of the threads. *)
Definition tallies (l : list (HandlerEntry (stored Z eff))) : Prop :=
  Forall (fun e => handler e = SPlain tally) l.

Inductive working : stack -> Prop :=
  | W_run k : working [FRun (worker k)]
  | W_dispatch n v fb rest k : tallies rest -> working [FDispatch n v fb 1%Z rest (worker k)]
  | W_handler n v fb rest k id p : tallies rest -> p = tally 1%Z \/ p = Ret ->
      working [FRun p; FHandler id None; FDispatch n v fb 1%Z rest (worker k)].

Lemma worker_S k : worker (S k) = Notify 1%Z (worker k).
Proof. done. Qed.

Record counts (N S : nat) (n : nat) (m : mach) : Prop := {
  ct_handlers : tallies (handlers (reg (mw m))) /\ length (handlers (reg (mw m))) = 4;
  ct_running : halted m = false;
  ct_threads t th : threads m !! t = Some th -> th = Ended Done \/ exists st, th = Running st /\ working st;
  ct_adds : emits (trace (mw m)) = replicate n (FetchAdd 1) /\ n + thread_sum frame_adds m = N;
  ct_steps : thread_sum frame_steps m = S;
}.

Abbreviation reg_world := (world Z eff (list (HandlerEntry (stored Z eff)))).

(** One step of a thread: it adds [d] times 1 and leaves the list alone. *)
Lemma working_step may b ver num st (w : reg_world) a nx :
  working st -> tallies (handlers (reg w)) -> length (handlers (reg w)) = 4 ->
  local_step may b ver num st w = Some (a, nx) ->
  exists d, handlers (reg (apply_action a w)) = handlers (reg w) /\
    emits (trace (apply_action a w)) = emits (trace w) ++ replicate d (FetchAdd 1) /\
    match nx with
    | Goto st' => working st' /\ stack_sum frame_adds st = d + stack_sum frame_adds st' /\
        stack_sum frame_steps st = S (stack_sum frame_steps st')
    | End fl => fl = Done /\ stack_sum frame_adds st = d /\ stack_sum frame_steps st = 1
    | Abort => False
    end.
Proof.
  intros Hw Hh Hlen. unfold stack_sum. destruct Hw as [[|k]|n v fb rest k Hr|n v fb rest k id p Hr [-> | ->]].
  - intros [= <- <-]. exists 0. by rewrite app_nil_r.
  - rewrite worker_S. intros [= <- <-]. exists 0. rewrite app_nil_r. split_and!; try done; [by constructor|..];
      simpl; rewrite Hlen; lia.
  - destruct rest as [|en rest]; cbn [local_step step_dispatch].
    + intros [= <- <-]. exists 0. rewrite app_nil_r. split_and!; try done; [constructor|..]; simpl; lia.
    + apply Forall_cons in Hr as [He Hr]. rewrite He. intros [= <- <-]. exists 0.
      split; [done|]. split; [by rewrite app_nil_r; cbn; unfold emits; rewrite omap_app, app_nil_r|].
      split; [constructor; [done|by left]|]. simpl. lia.
  - intros [= <- <-]. exists 1. split; [done|]. split; [by cbn; unfold emits; rewrite omap_app|].
    split; [constructor; [done|by right]|]. simpl. lia.
  - intros [= <- <-]. exists 0. rewrite app_nil_r. by split_and!; try done; constructor.
Qed.

Lemma counts_step N s n m t b m' :
  counts N s n m -> step t b m = Some m' -> exists s' n', s = S s' /\ counts N s' n' m'.
Proof.
  intros [[Hh Hlen] Hr Hth [Hem Hn] Hs] (st & a & nx & _ & Ht & Hl & ->)%step_Some.
  destruct (Hth _ _ Ht) as [?|(st' & [= <-] & Hw)]; [done|].
  destruct (working_step _ _ _ _ _ _ _ _ Hw Hh Hlen Hl) as (d & Hh' & Hem' & Hnx).
  assert (exists th', threads (move t nx (perform t a m)) = <[t := th']> (threads m) /\
    (th' = Ended Done \/ exists st, th' = Running st /\ working st) /\
    stack_sum frame_adds st = d + stack_sum frame_adds (stack_of th') /\
    stack_sum frame_steps st = S (stack_sum frame_steps (stack_of th')) /\
    halted (move t nx (perform t a m)) = false) as (th' & Hths & Hth' & Ha & Hst & Hh'').
  { destruct nx as [st'|fl|]; [| |done].
    - destruct Hnx as (Hw' & Ha & Hst). exists (Running st'). split_and!; try done. right. eauto.
    - destruct Hnx as (-> & Ha & Hst). exists (Ended Done). split_and!; try done; [by left|simpl; lia]. }
  pose proof (msum_insert (fun th => stack_sum frame_adds (stack_of th)) _ _ _ th' Ht) as HA.
  pose proof (msum_insert (fun th => stack_sum frame_steps (stack_of th)) _ _ _ th' Ht) as HS.
  rewrite <- Hths in HA, HS. simpl in HA, HS. unfold thread_sum in Hn, Hs.
  exists (thread_sum frame_steps (move t nx (perform t a m))), (n + d). split; [unfold thread_sum at 1; lia|].
  split; [|done| | |done]; rewrite ?mw_move.
  - simpl. by rewrite Hh'.
  - intros u th. rewrite Hths. intros [[<- <-]|[_ ?]]%lookup_insert_Some; [done|by eapply Hth].
  - simpl. rewrite Hem', Hem, replicate_add. split; [done|]. unfold thread_sum at 1. lia.
Qed.

Lemma counts_run N l s n m m' :
  counts N s n m -> run l m = Some m' -> exists s' n', s = length l + s' /\ counts N s' n' m'.
Proof.
  revert s n m. induction l as [|[t b] l IH]; intros s n m Hc; simpl; [intros [= <-]; eauto|].
  intros (m1 & Hs & Hr)%bind_Some. destruct (counts_step _ _ _ _ _ _ _ Hc Hs) as (s1 & n1 & -> & Hc1).
  destruct (IH _ _ _ Hc1 Hr) as (s' & n' & -> & Hc'). eauto.
Qed.

(** The start: each thread has all its dispatches before it. *)
Lemma worker_sums k : prog_adds (worker k) = 4 * k /\ prog_steps (worker k) = 14 * k + 1.
Proof. induction k as [|k [IH1 IH2]]; [done|]. rewrite worker_S. simpl in *. lia. Qed.

Lemma spawned_threads ths k t th :
  threads (spawned ths k) !! t = Some th -> th = Running [FRun (worker k)].
Proof.
  simpl. rewrite lookup_fmap. intros (p & Hp & ->)%fmap_Some.
  apply elem_of_list_to_map_2 in Hp. by apply list_elem_of_fmap in Hp as (u & [= -> ->] & _).
Qed.

Lemma spawned_sum F ths k :
  thread_sum F (spawned ths k) = ths * F (FRun (worker k)).
Proof.
  unfold thread_sum, spawned, start, workers. cbn [threads]. generalize 0 as a.
  induction ths as [|n IH]; intros a; [exact (msum_empty _)|]. simpl. rewrite fmap_insert.
  rewrite msum_insert_fresh, IH; [unfold stack_sum; simpl; lia|].
  rewrite lookup_fmap, not_elem_of_list_to_map_1; [done|].
  rewrite <- list_fmap_compose. intros (t & -> & Ht)%list_elem_of_fmap. simpl in Ht.
  apply elem_of_seq in Ht. simpl in Ht. lia.
Qed.

Lemma spawned_counts ths k :
  counts (4 * ths * k) (ths * (14 * k + 1)) 0 (spawned ths k).
Proof.
  destruct (worker_sums k) as [Ha Hs]. split.
  - split; [|by vm_compute]. vm_compute. repeat constructor.
  - done.
  - intros t th ->%spawned_threads. right. eexists. split; [done|constructor].
  - split; [by vm_compute|]. rewrite spawned_sum. simpl. rewrite Ha. lia.
  - rewrite spawned_sum. simpl. by rewrite Hs.
Qed.

(** A thread that has not ended can take a step. *)
Lemma working_enabled m t st :
  halted m = false -> threads m !! t = Some (Running st) -> working st -> forall b, is_Some (step t b m).
Proof.
  intros Hh Ht Hw b. unfold step. rewrite Hh, Ht.
  assert (is_Some (local_step (may_return m t) b (version m) (length (snaps m)) st (mw m))) as [[a nx] ->];
    [|by eexists].
  destruct Hw as [[|k]|n v fb [|en rest] k Hr|n v fb rest k id p Hr [-> | ->]]; try (by eexists).
  apply Forall_cons in Hr as [He _]. cbn [local_step step_dispatch]. rewrite He. by eexists.
Qed.

Lemma adds_total n : atomic u64_modulus (replicate n (FetchAdd 1)) = u64 (Z.of_nat n).
Proof.
  rewrite atomic_sum by done. unfold u64. f_equal. induction n as [|n IH]; [done|].
  rewrite replicate_S. simpl. rewrite IH. lia.
Qed.

(** The example prints the number it should, whatever the schedule.  However the
    threads interleave, no schedule is longer than 14 steps per dispatch and one per thread;
    as long as a thread has not ended, it can go on, so every schedule leads to the joins;
    and when all threads have been joined, none of them has panicked and the total is four
    times the number of dispatches. *)
Theorem concurrent_counts ths per_thread l m :
  run l (spawned ths per_thread) = Some m ->
  length l <= ths * (14 * per_thread + 1) /\
  (forall t th, threads m !! t = Some th -> th = Ended Done \/ forall b, is_Some (step t b m)) /\
  (joined m -> total m = u64 (4 * Z.of_nat ths * Z.of_nat per_thread)).
Proof.
  intros Hr. destruct (counts_run _ _ _ _ _ _ (spawned_counts ths per_thread) Hr) as (s & n & Hs & Hc).
  split; [lia|]. split.
  - intros t th Ht. destruct (ct_threads _ _ _ _ Hc _ _ Ht) as [->|(st & -> & Hw)]; [by left|right].
    eapply working_enabled; [by eapply ct_running|done..].
  - intros Hj. unfold total. destruct (ct_adds _ _ _ _ Hc) as [-> Hn].
    assert (thread_sum frame_adds m = 0) as H0.
    { apply msum_zero. by intros t th ->%Hj. }
    rewrite H0, Nat.add_0_r in Hn. rewrite adds_total. f_equal. lia.
Qed.

(** Two threads with one dispatch each, taking turns. *)
Lemma concurrent_counts_witness :
  exists m, run (concat (replicate 15 [(0, false); (1, false)])) (spawned 2 1) = Some m /\
    joined m /\ total m = 8%Z.
Proof.
  destruct (run (concat (replicate 15 [(0, false); (1, false)])) (spawned 2 1)) as [m|] eqn:Hr;
    [|by vm_compute in Hr].
  exists m. split; [done|]. assert (joined m) as Hj.
  { assert (threads m = <[0 := Ended Done]> (<[1 := Ended Done]> ∅)) as Hth.
    { assert (threads <$> run (concat (replicate 15 [(0, false); (1, false)])) (spawned 2 1) =
        Some (<[0 := Ended Done]> (<[1 := Ended Done]> ∅))) as Hv by (by vm_compute).
      rewrite Hr in Hv. by injection Hv. }
    intros t th. rewrite Hth. intros [[_ <-]|[_ [[_ <-]|[_ ?]]%lookup_insert_Some]]%lookup_insert_Some; done. }
  split; [done|]. destruct (concurrent_counts 2 1 _ _ Hr) as (_ & _ & Ht). by rewrite (Ht Hj).
Defined.
