(* ===== verification/RegistryConc.v ===== *)
(** The registries under concurrency.

    Both registries keep their handler list in one [SnapCell] and change it only
    through the closures of [insert], [remove_id] and [remove_all]
    (src/src/sync/mod.rs, src/src/async_registry/mod.rs); dispatches and queries
    read it.  What they need of the cell is the interface [AtomicCells]; the
    machine of src/src/snapshot.rs and src/src/hazard.rs implements it. *)
From S2P Require Import Prelude HandlerId HandlerList HandlerStore Hazard SnapCell SnapMachine.
From S2P Require Import SnapTraces SnapArcInv SnapSafety SnapSpec.

(** ** The interface *)

(** Executions and the events they perform. *)
Inductive traces {St V} (init : St) (step : St -> event V -> St -> Prop) : list (event V) -> St -> Prop :=
  | traces_nil : traces init step [] init
  | traces_snoc tr s e s' : traces init step tr s -> step s e s' -> traces init step (tr ++ [e]) s'.

(** Cells whose steps are the events of atomic cells. *)
Class AtomicCells (V St : Type) := {
  ac_init : St;
  ac_step : St -> event V -> St -> Prop;
  ac_abs : St -> gmap cid V;
  ac_abs_init : ac_abs ac_init = ∅;
  ac_refines tr s e s' : traces ac_init ac_step tr s -> ac_step s e s' ->
    spec_step (ac_abs s) e (ac_abs s');
}.

(** ** [SnapCell] implements it *)

Section Machine.
Context {V : Type}.

Definition machine_step (s : state V) (e : event V) (s' : state V) : Prop :=
  exists t a, step t a s = Ok s' /\ e = event_of t a s.

Lemma traces_reachable tr s : traces init machine_step tr s -> reachable s.
Proof. induction 1 as [|tr s e s' _ IH (t & a & Hs & _)]; [constructor|by econstructor]. Qed.

#[export] Program Instance snapcells : AtomicCells V (state V) := {
  ac_init := init;
  ac_step := machine_step;
  ac_abs := abs;
}.
Next Obligation. done. Qed.
Next Obligation.
  intros tr s e s' Htr (t & a & Hs & ->). pose proof (traces_reachable _ _ Htr) as Hr.
  by apply step_spec; [apply reachable_inv|apply reachable_upd_inv|].
Qed.

(** The events of a schedule. *)
Fixpoint events (l : list (tid * action V)) (s : state V) : list (event V) :=
  match l with
  | [] => []
  | (t, a) :: l => match step t a s with Ok s' => event_of t a s :: events l s' | _ => [] end
  end.

Lemma run_traces l tr s s' :
  traces init machine_step tr s -> run l s = Ok s' -> traces init machine_step (tr ++ events l s) s'.
Proof.
  revert tr s. induction l as [|[t a] l IH]; intros tr s Htr Hr; simpl in *.
  { simplify_eq. by rewrite app_nil_r. }
  destruct (step t a s) as [s1| |] eqn:Hs; [|done..].
  replace (tr ++ event_of t a s :: events l s1) with ((tr ++ [event_of t a s]) ++ events l s1)
    by (by rewrite <- app_assoc).
  apply IH; [|done]. econstructor; [done|]. by exists t, a.
Qed.
End Machine.

(** ** The registries *)

(** The ways the registries change their list. *)
Inductive reg_op {HT : Type} :=
  | OpInsert (e : HandlerEntry HT)
  | OpRemove (id : HandlerId)
  | OpClear.
Arguments reg_op : clear implicits.

(** The closure passed to [SnapCell::update]. *)
Definition reg_fn {HT} (op : reg_op HT) (l : list (HandlerEntry HT)) : option (list (HandlerEntry HT)) :=
  match op with
  | OpInsert e => Some (insert_entry e l)
  | OpRemove id => remove_id_list id l
  | OpClear => remove_all_list l
  end.

(** The effect on any implementation of the list. *)
Definition store_apply {HT St} `{HandlerStore HT St} (op : reg_op HT) (s : St) : St :=
  match op with
  | OpInsert e => store_insert e s
  | OpRemove id => default s (store_remove id s)
  | OpClear => default s (store_clear s)
  end.

(** The log after a sequence of changes. *)
Definition log_of {HT} (ops : list (reg_op HT)) : log HT :=
  foldl (fun lg op => store_apply op lg) store_new ops.

Definition inserted {HT} (ops : list (reg_op HT)) : list HandlerId :=
  omap (fun op => match op with OpInsert e => Some (entry_id e) | _ => None end) ops.

Section Registry.
Context {HT : Type}.
Implicit Types (op : reg_op HT) (l : list (HandlerEntry HT)).

Lemma apply_related op l lg :
  vec_is_log l lg -> (forall e, op = OpInsert e -> entry_id e ∉ entry_id <$> l) ->
  vec_is_log (default l (reg_fn op l)) (store_apply op lg).
Proof.
  intros Hr Hf. destruct op as [e|id|]; simpl.
  - exact (sr_insert (R := vec_is_log) l lg e Hr (Hf e eq_refl)).
  - pose proof (sr_remove (R := vec_is_log) l lg id Hr) as Hs.
    simpl in Hs. by destruct (remove_id_list id l); inversion Hs.
  - pose proof (sr_clear (R := vec_is_log) l lg Hr) as Hs.
    simpl in Hs. by destruct (remove_all_list l); inversion Hs.
Qed.

(** Only inserted ids are in the list. *)
Lemma apply_ids op l id :
  id ∈ entry_id <$> default l (reg_fn op l) ->
  id ∈ entry_id <$> l \/ exists e, op = OpInsert e /\ id = entry_id e.
Proof.
  destruct op as [e|id0|]; simpl.
  - intros (x & -> & [->|Hx]%insert_entry_elem)%list_elem_of_fmap; [by right; eauto|].
    left. apply list_elem_of_fmap. eauto.
  - destruct (remove_id_list id0 l) as [l'|] eqn:Hr; simpl; [|by left].
    intros (x & -> & Hx)%list_elem_of_fmap. left. apply list_elem_of_fmap.
    exists x. split; [done|]. by eapply remove_id_list_elem.
  - destruct l; simpl; [by left|]. by intros ?%elem_of_nil.
Qed.

Context `{AtomicCells (list (HandlerEntry HT)) St}.
Abbreviation Trace := (list (event (list (HandlerEntry HT)))).

(** The updates of cell [c] in a trace. *)
Definition updates (c : cid) (tr : Trace) : list (list (HandlerEntry HT) -> option (list (HandlerEntry HT))) :=
  omap (fun e => match e with
                 | EUpdate c' f => if decide (c' = c) then Some f else None
                 | _ => None
                 end) tr.

(** Cell [c] belongs to a registry: it is created with an empty list and not
    dropped. *)
Definition registry_cell (c : cid) (tr : Trace) : Prop :=
  (forall v, ENew c v ∈ tr -> v = []) /\ EDrop c ∉ tr.

(** A cell that does not exist has not been updated. *)
Lemma no_updates tr s c :
  traces ac_init ac_step tr s -> registry_cell c tr -> ac_abs s !! c = None -> updates c tr = [].
Proof.
  induction 1 as [|tr s e s' Htr IH Hstep]; intros Hreg Hn; [done|].
  pose proof (ac_refines _ _ _ _ Htr Hstep) as Hspec. destruct Hreg as [Hnew Hdrop].
  unfold updates. rewrite omap_app. fold (updates c tr).
  assert (ac_abs s !! c = None -> updates c tr = []) as IH'.
  { intros E. apply IH; [|done]. split; [intros v Hv; apply Hnew|intros Hv; apply Hdrop]; set_solver. }
  destruct Hspec as [|c0 v Hc|c0 v Hc|c0 f v v' Hc Hf|c0 f v Hc Hf|c0 v Hc]; simpl;
    rewrite ?lookup_insert, ?lookup_delete in Hn; try (rewrite IH' by done; done).
  - destruct (decide (c0 = c)); [done|by rewrite IH'].
  - destruct (decide (c0 = c)); [done|by rewrite IH'].
  - destruct (decide (c0 = c)); [congruence|by rewrite IH'].
  - destruct (decide (c0 = c)); [subst; set_solver|by rewrite IH'].
Qed.

(** The next change, on top of a list that is the sorted log so far. *)
Lemma registry_next ops op l :
  vec_is_log l (log_of ops) -> (forall id, id ∈ entry_id <$> l -> id ∈ inserted ops) ->
  NoDup (inserted (ops ++ [op])) ->
  vec_is_log (default l (reg_fn op l)) (log_of (ops ++ [op])) /\
  (forall id, id ∈ entry_id <$> default l (reg_fn op l) -> id ∈ inserted (ops ++ [op])).
Proof.
  intros Hr Hids Hnd. unfold inserted in *. rewrite omap_app in *. fold (inserted ops) in *.
  apply NoDup_app in Hnd as (_ & Hdisj & _).
  unfold log_of. rewrite foldl_app. simpl. fold (log_of ops). split.
  - apply apply_related; [done|]. intros e -> Hin. apply Hids in Hin.
    apply (Hdisj _ Hin). simpl. left.
  - intros id [Hid|(e & -> & ->)]%apply_ids; apply elem_of_app; [left; by apply Hids|right].
    simpl. left.
Qed.

Lemma registry_inv tr s c ops :
  traces ac_init ac_step tr s -> registry_cell c tr -> updates c tr = reg_fn <$> ops ->
  NoDup (inserted ops) ->
  forall l, ac_abs s !! c = Some l ->
    vec_is_log l (log_of ops) /\ (forall id, id ∈ entry_id <$> l -> id ∈ inserted ops).
Proof.
  intros Htr. revert ops.
  induction Htr as [|tr s e s' Htr IH Hstep]; intros ops Hreg Hup Hnd l Hl.
  { by rewrite ac_abs_init, lookup_empty in Hl. }
  pose proof (ac_refines _ _ _ _ Htr Hstep) as Hspec.
  assert (registry_cell c tr) as Hreg'.
  { destruct Hreg as [Hn Hd]. split; [intros v Hv; apply Hn|intros Hv; apply Hd]; set_solver. }
  unfold updates in Hup. rewrite omap_app in Hup. fold (updates c tr) in Hup.
  assert (forall f l0, omap (A := event (list (HandlerEntry HT))) (fun e => match e with
      | EUpdate c' f => if decide (c' = c) then Some f else None | _ => None end) [e] = [f] ->
    ac_abs s !! c = Some l0 -> l = default l0 (f l0) ->
    vec_is_log l (log_of ops) /\ (forall id, id ∈ entry_id <$> l -> id ∈ inserted ops)) as Hupd.
  { intros f l0 He Hl0 ->. rewrite He in Hup.
    destruct ops as [|op ops _] using rev_ind; [by destruct (updates c tr)|].
    rewrite fmap_app in Hup. simpl in Hup. apply app_inj_tail in Hup as [Hup ->].
    assert (NoDup (inserted ops)) as Hnd'.
    { unfold inserted in *. rewrite omap_app in Hnd. by apply NoDup_app in Hnd as [? _]. }
    destruct (IH _ Hreg' Hup Hnd' _ Hl0) as [Hr Hids]. by apply registry_next. }
  destruct Hspec as [|c0 v Hc|c0 v Hc|c0 f v v' Hc Hf|c0 f v Hc Hf|c0 v Hc]; simpl in *;
    rewrite ?app_nil_r in Hup; rewrite ?lookup_insert, ?lookup_delete in Hl.
  - by apply IH.
  - case_decide; [|by apply IH]. subst c0. simplify_eq.
    assert (l = []) as -> by (apply Hreg; set_solver).
    rewrite (no_updates _ _ _ Htr Hreg' Hc) in Hup. symmetry in Hup.
    apply fmap_nil_inv in Hup as ->. split; [split; [apply dispatch_order_nil|constructor]|].
    by intros ? ?%elem_of_nil.
  - by apply IH.
  - case_decide; [subst c0; simplify_eq|].
    + eapply (Hupd f v); [by rewrite ?decide_True by done|done|by rewrite Hf].
    + rewrite ?decide_False in Hup by done. rewrite ?app_nil_r in Hup. by apply IH.
  - destruct (decide (c0 = c)) as [->|Hne].
    + simplify_eq. eapply (Hupd f l); [by rewrite ?decide_True by done|done|by rewrite Hf].
    + rewrite ?decide_False in Hup by done. rewrite ?app_nil_r in Hup. by apply IH.
  - case_decide; [done|]. by apply IH.
Qed.

(** (C7) The registries are linearizable.  Take any interleaving of any number of
    threads on the cells, in which the list of a registry (cell [c]) is changed only
    by the closures of [insert], [remove_id] and [remove_all], with ids that the
    atomic generator has made distinct.  Then whatever a [read] of that cell
    observes (the list a dispatch walks, or a query answers from) is the log of the
    registrations that are live at that moment, sorted by descending priority,
    ties in registration order, without duplicate ids. *)
Theorem registry_linearizable tr s c ops l s' :
  traces ac_init ac_step tr s -> registry_cell c tr -> updates c tr = reg_fn <$> ops ->
  NoDup (inserted ops) -> ac_step s (ERead c l) s' ->
  dispatch_order (registrations (log_of ops)) l /\ NoDup (entry_id <$> l).
Proof.
  intros Htr Hreg Hup Hnd Hstep. pose proof (ac_refines _ _ _ _ Htr Hstep) as Hspec.
  inversion Hspec; subst. destruct (registry_inv _ _ _ _ Htr Hreg Hup Hnd l) as [Hr _]; done.
Qed.
End Registry.

(** ** Example *)

Section Example.

Definition low : HandlerEntry nat := Entry (from_raw 1) 0 10.
Definition high : HandlerEntry nat := Entry (from_raw 2) 5 20.

(** Thread 1 registers [low]; thread 2, which wants to register [high], waits for
    the lock meanwhile; thread 3 then reads the list, up to its validation. *)
Definition two_writers : list (tid * action (list (HandlerEntry nat))) :=
  [(0, ANew 0 [] 100); (1, ACall (OUpdate 0 (reg_fn (OpInsert low))));
   (2, ACall (OUpdate 0 (reg_fn (OpInsert high)))); (1, ANext); (1, ANext); (1, AAlloc 101)] ++
  replicate 4 (1, ANext) ++ [(2, ANext)] ++ replicate 2 (1, ANext) ++
  [(2, ANext); (2, AAlloc 100)] ++ replicate 6 (2, ANext) ++
  (3, ACall (ORead 0)) :: replicate 7 (3, ANext).

Definition two_writers_state : state (list (HandlerEntry nat)) :=
  match run two_writers init with Ok s => s | _ => init end.

Lemma registry_linearizable_witness :
  ac_step two_writers_state (ERead 0 [high; low])
    (match step 3 ANext two_writers_state with Ok s => s | _ => init end) /\
  dispatch_order (registrations (log_of [OpInsert low; OpInsert high])) [high; low] /\
  NoDup (entry_id <$> [high; low]).
Proof.
  assert (machine_step two_writers_state (ERead 0 [high; low])
    (match step 3 ANext two_writers_state with Ok s => s | _ => init end)) as Hread
    by (exists 3, ANext; by vm_compute).
  split; [exact Hread|].
  apply (registry_linearizable (St := state (list (HandlerEntry nat)))
    (events two_writers init) two_writers_state 0 [OpInsert low; OpInsert high] [high; low]
    (match step 3 ANext two_writers_state with Ok s => s | _ => init end)).
  - apply (run_traces two_writers [] init two_writers_state); [constructor|by vm_compute].
  - split; [|vm_compute; set_solver]. intros v. vm_compute. set_solver.
  - by vm_compute.
  - apply (bool_decide_unpack _). by vm_compute.
  - exact Hread.
Defined.
End Example.
