(* ===== verification/RegistryWait.v ===== *)
(** [unregister_and_wait] and [clear_and_wait] (src/src/sync/mod.rs) under concurrency:
    the removal and [wait_for_retired_readers] (src/src/snapshot.rs) put together. *)
From S2P Require Import Prelude HandlerId HandlerList HandlerStore Hazard SnapCell SnapMachine.
From S2P Require Import SnapTraces SnapHazardInv SnapArcInv SnapLockInv SnapProtect SnapSafety.
From S2P Require Import SnapSpec SnapWait RegistryConc.

(** ** What readers have got *)

Section Readers.
Context {V : Type}.
Implicit Types (s : state V) (f : frame V) (cl : cell V) (Q : V -> Prop).

(** The cell a frame is reading and the allocation it got: on the hazard path, or with
    an [Arc] of its own on the fallback path. *)
Definition reads f : option (cid * ptr) :=
  match f with
  | FFbReading c arc => Some (c, arc)
  | _ => match validated f with Some (c, a, g, _) => Some (c, Ptr a g) | None => None end
  end.

Lemma reads_inv f c p :
  reads f = Some (c, p) ->
  (exists i, validated f = Some (c, p_addr p, p_gen p, i)) \/ f = FFbReading c p.
Proof. destruct f; intros; simplify_eq/=; eauto. Qed.

Lemma reads_arc s t f c p :
  inv s -> f ∈ th_stack (thread_of s t) -> reads f = Some (c, p) -> has_arc s p.
Proof.
  intros Hi Hf [[i Hv]| ->]%reads_inv.
  - destruct p. by eapply validated_arc; [apply (inv_prot _ Hi)|..].
  - eapply has_arc_frame; [done|left].
Qed.

Lemma reads_cell s t f c p :
  inv s -> f ∈ th_stack (thread_of s t) -> reads f = Some (c, p) -> is_Some (cells s !! c).
Proof.
  intros Hi Hf Hr. eapply (li_cells _ (inv_lock _ Hi)); [done|].
  apply reads_inv in Hr as [[i Hv]| ->]; [by eapply validated_cell|done].
Qed.

(** A frame that reads after a step did so before it, or has just got the value that
    is current. *)
Lemma reads_step v a s s' u f c p :
  inv s -> step v a s = Ok s' -> f ∈ th_stack (thread_of s' u) -> reads f = Some (c, p) ->
  (exists f0, f0 ∈ th_stack (thread_of s u) /\ reads f0 = Some (c, p)) \/
  exists cl, cells s !! c = Some cl /\ current cl = p.
Proof.
  intros Hi Hstep Hf Hr.
  destruct (step_frames _ _ _ _ Hstep u f Hf) as [?|[-> Hb]]; [by left; exists f|].
  apply reads_inv in Hr as [[i Hv]| ->].
  - destruct (fb_validated _ _ _ Hb _ _ _ _ Hv) as [(f0 & Hf0 & Hv0)|(cl & Hc & Hcur)].
    + left. exists f0. split; [done|]. unfold reads. rewrite Hv0. destruct p. by destruct f0.
    + right. exists cl. rewrite Hcur. by destruct p.
  - destruct (fb_fallback _ _ _ Hb _ _ eq_refl) as (cl & Hc & Hw). right. exists cl.
    split; [done|]. by destruct (li_holder _ (inv_lock _ Hi) _ _ _ _ Hc Hw) as (k & rest & _ & _ & Hcr).
Qed.

(** What is being read is current or older. *)
Definition reads_past s : Prop :=
  forall u f c p cl, f ∈ th_stack (thread_of s u) -> reads f = Some (c, p) ->
    cells s !! c = Some cl -> p = current cl \/ p_gen p < p_gen (current cl).

Lemma current_past v a s s' c cl cl' :
  gen_inv s -> step v a s = Ok s' -> cells s !! c = Some cl -> cells s' !! c = Some cl' ->
  current cl = current cl' \/ p_gen (current cl) < p_gen (current cl').
Proof.
  intros Hg Hstep Hc Hc'. destruct (step_cell _ _ _ _ _ _ Hstep Hc'); simplify_eq; [by left|right].
  by eapply (gi_store _ Hg).
Qed.

Lemma reachable_reads_past s : reachable s -> reads_past s.
Proof.
  induction 1 as [|s v a s' Hs IH Hstep].
  { intros u f c p cl Hf. by apply elem_of_nil in Hf. }
  intros u f c p cl' Hf Hr Hc'. pose proof (reachable_inv _ Hs) as Hi.
  pose proof (reachable_gen_inv _ Hs) as Hg.
  destruct (reads_step _ _ _ _ _ _ _ _ Hi Hstep Hf Hr) as [(f0 & Hf0 & Hr0)|(cl & Hc & <-)].
  - destruct (reads_cell _ _ _ _ _ Hi Hf0 Hr0) as [cl Hc].
    destruct (IH _ _ _ _ _ Hf0 Hr0 Hc) as [->|Hlt]; [by eapply current_past|].
    destruct (current_past _ _ _ _ _ _ _ Hg Hstep Hc Hc') as [<-|?]; right; lia.
  - by eapply current_past.
Qed.

(** ** Values with a property *)

(** Readers of [c] that got their value at allocation [since] or later have one in [Q]. *)
Definition fresh_reads Q (c : cid) (since : nat) s : Prop :=
  forall u f p, f ∈ th_stack (thread_of s u) -> reads f = Some (c, p) -> since <= p_gen p ->
    exists v, deref p s = Some v /\ Q v.

Lemma fresh_reads_now Q c s cl v :
  reachable s -> cells s !! c = Some cl -> abs s !! c = Some v -> Q v ->
  fresh_reads Q c (p_gen (current cl)) s.
Proof.
  intros Hs Hc Hv HQ u f p Hf Hr Hle. pose proof (reachable_inv _ Hs) as Hi.
  destruct (reachable_reads_past _ Hs _ _ _ _ _ Hf Hr Hc) as [->|?]; [|lia].
  destruct (abs_current _ _ _ Hi Hc) as (v' & Hd & Hv'). exists v'. split; [done|]. congruence.
Qed.

Lemma fresh_reads_step Q c since v a s s' :
  reachable s -> step v a s = Ok s' -> (forall x, abs s !! c = Some x -> Q x) ->
  fresh_reads Q c since s -> fresh_reads Q c since s'.
Proof.
  intros Hs Hstep HQ Hold u f p Hf Hr Hle. pose proof (reachable_inv _ Hs) as Hi.
  pose proof (step_inv _ _ _ _ Hi Hstep) as Hi'.
  pose proof (reads_arc _ _ _ _ _ Hi' Hf Hr) as Harc'.
  assert (has_arc s p /\ exists x, deref p s = Some x /\ Q x) as [Harc (x & Hx & HQx)].
  { destruct (reads_step _ _ _ _ _ _ _ _ Hi Hstep Hf Hr) as [(f0 & Hf0 & Hr0)|(cl & Hc & <-)].
    - split; [by eapply reads_arc|by eapply Hold].
    - split; [eapply has_arc_cell; [done|left]|].
      destruct (abs_current _ _ _ Hi Hc) as (x & Hd & Hx). eauto. }
  exists x. split; [|done]. rewrite <- Hx.
  apply arc_value_stable; try done. by eapply step_evolves.
Qed.

(** Along an execution in which the value of [c] stays in [Q]. *)
Fixpoint always Q (c : cid) (l : list (tid * action V)) s : Prop :=
  (forall x, abs s !! c = Some x -> Q x) /\
  match l with
  | [] => True
  | (t, a) :: l => match step t a s with Ok s' => always Q c l s' | _ => True end
  end.

Lemma fresh_reads_run Q c since l s s' :
  reachable s -> run l s = Ok s' -> always Q c l s -> fresh_reads Q c since s ->
  fresh_reads Q c since s'.
Proof.
  revert s. induction l as [|[t a] l IH]; intros s Hs Hrun [HQ Hal] Hold; simpl in *; [by simplify_eq|].
  destruct (step t a s) as [s1| |] eqn:Hstep; [|done..].
  apply (IH s1); [by econstructor|done|done|]. by eapply fresh_reads_step.
Qed.
End Readers.

(** ** Removed handlers *)

Section Removed.
Context {HT : Type}.
Abbreviation List := (list (HandlerEntry HT)).
Implicit Types (s : state List) (l : list (tid * action List)).

Definition absent (id : HandlerId) (x : List) : Prop := id ∉ entry_id <$> x.

(** The operation an event performs on [c], if any. *)
Definition op_at (c : cid) (e : event List) (op : option (reg_op HT)) : Prop :=
  updates c [e] = option_list (reg_fn <$> op).

Lemma absent_step id c m e m' op :
  spec_step m e m' -> e <> EDrop c -> op_at c e op ->
  (forall en, op = Some (OpInsert en) -> entry_id en <> id) ->
  is_Some (m !! c) -> (forall x, m !! c = Some x -> absent id x) ->
  is_Some (m' !! c) /\ forall x, m' !! c = Some x -> absent id x.
Proof.
  intros Hspec Hd Hop Hins Hex Hab. unfold op_at, updates in Hop.
  assert (forall op0 x, op = Some op0 -> m !! c = Some x -> absent id (default x (reg_fn op0 x)))
    as Happly.
  { intros op0 x -> Hx [Hin|(en & -> & ->)]%apply_ids; [by eapply Hab|]. by apply (Hins en). }
  destruct Hspec as [|c0 v Hc|c0 v Hc|c0 f v v' Hc Hf|c0 f v Hc Hf|c0 v Hc]; try done; simpl in Hop.
  - assert (c0 <> c) by (intros ->; rewrite Hc in Hex; by destruct Hex).
    by rewrite lookup_insert_ne.
  - destruct (decide (c0 = c)) as [->|Hne]; [|by rewrite lookup_insert_ne].
    destruct op as [op0|]; [|done]. simpl in Hop. injection Hop as ->.
    rewrite lookup_insert_eq. split; [by eexists|]. intros x [= <-].
    specialize (Happly op0 v eq_refl Hc). by rewrite Hf in Happly.
  - assert (c0 <> c) by (intros ->; done). by rewrite lookup_delete_ne.
Qed.

Lemma updates_cons c (e : event List) tr ops :
  updates c (e :: tr) = reg_fn <$> ops ->
  exists op ops', op_at c e op /\ updates c tr = reg_fn <$> ops' /\ ops = option_list op ++ ops'.
Proof.
  change (updates c (e :: tr)) with (updates c ([e] ++ tr)). unfold op_at, updates. rewrite omap_app.
  intros Hup. symmetry in Hup. apply fmap_app_inv in Hup as (ops1 & ops' & H1 & H2 & ->).
  destruct ops1 as [|op [|op2 ops1]]; simpl in H1.
  - by exists None, ops'.
  - by exists (Some op), ops'.
  - exfalso. revert H1. simpl. destruct e; simpl; try done. by case_decide.
Qed.

(** An id that is not inserted again stays out of the list. *)
Lemma absent_always id c l s s' ops :
  reachable s -> run l s = Ok s' -> EDrop c ∉ events l s -> updates c (events l s) = reg_fn <$> ops ->
  (forall e, OpInsert e ∈ ops -> entry_id e <> id) ->
  is_Some (abs s !! c) -> (forall x, abs s !! c = Some x -> absent id x) ->
  always (absent id) c l s.
Proof.
  revert s ops. induction l as [|[t a] l IH]; intros s ops Hs Hrun Hd Hup Hins Hex Hab;
    cbn [always events run] in *; (split; [done|]); [done|].
  destruct (step t a s) as [s1| |] eqn:Hstep; [|done..].
  pose proof (step_spec _ _ _ _ (reachable_inv _ Hs) (reachable_upd_inv _ Hs) Hstep) as Hspec.
  apply not_elem_of_cons in Hd as [Hd0 Hd]. apply updates_cons in Hup as (op & ops' & Hop & Hup & ->).
  destruct (absent_step id c _ _ _ op Hspec (not_eq_sym Hd0) Hop) as [Hex1 Hab1]; try done.
  { intros en ->. apply Hins. left. }
  apply (IH s1 ops'); try done; [by econstructor|].
  intros en Hen. apply Hins, elem_of_app. by right.
Qed.

(** [unregister_and_wait] keeps its promise.  Let [s0] be the state in which the wait
    is entered, with handler [id] removed from the list of the registry (cell [c]), and
    let other threads go on registering, unregistering and dispatching in any order.
    When the wait is about to return, no other thread inside a [read] of the list on
    the hazard path (a dispatch in progress) walks a list that contains [id].
    Unless the caller was itself inside a fallback read, the same holds for readers on
    the fallback path. *)
Theorem unregister_and_wait_quiesces s0 s l t c id cl0 x0 ops cof round rest :
  reachable s0 -> cells s0 !! c = Some cl0 -> abs s0 !! c = Some x0 -> absent id x0 ->
  run l s0 = Ok s -> EDrop c ∉ events l s0 -> updates c (events l s0) = reg_fn <$> ops ->
  (forall e, OpInsert e ∈ ops -> entry_id e <> id) ->
  th_stack (thread_of s t) = FWaitHead c cof round (p_gen (current cl0)) [] :: rest ->
  (forall u f a g i, u <> t -> f ∈ th_stack (thread_of s u) -> validated f = Some (c, a, g, i) ->
     exists x, deref (Ptr a g) s = Some x /\ absent id x) /\
  (cof = false -> forall u arc, FFbReading c arc ∈ th_stack (thread_of s u) ->
     exists x, deref arc s = Some x /\ absent id x).
Proof.
  intros Hs0 Hc0 Hx0 Hab Hrun Hd Hup Hins Hst. pose proof (reachable_run _ _ _ Hs0 Hrun) as Hs.
  assert (fresh_reads (absent id) c (p_gen (current cl0)) s) as Hfresh.
  { apply (fresh_reads_run _ _ _ l s0 s); [done|done| |by apply (fresh_reads_now _ c s0 cl0 x0)].
    apply (absent_always id c l s0 s ops); try done; rewrite Hx0; by intros x [= <-]. }
  destruct (wait_inv_done _ _ _ _ _ _ _ Hs Hst) as [Hhz Hfb]. split.
  - intros u f a g i Hu Hf Hv. apply (Hfresh u f (Ptr a g)); [done| |by eapply Hhz].
    unfold reads. rewrite Hv. by destruct f.
  - intros Hcof u arc Hf. apply (Hfresh u _ arc Hf); [done|]. by eapply Hfb.
Qed.
End Removed.

(** ** Example *)

Section Example.
Abbreviation rsched := (list (tid * action (list (HandlerEntry nat)))).

(** One change of the list, with [n] records to scan, and the drop of what it freed. *)
Definition change (t : tid) (op : reg_op nat) (a : addr) (n : nat) : rsched :=
  [(t, ACall (OUpdate 0 (reg_fn op))); (t, ANext); (t, ANext); (t, AAlloc a)] ++
  replicate (4 + SLOTS * n) (t, ANext).

(** [low] and [high] are registered, thread 3 is dispatching to both, and thread 2 has
    removed [high]. *)
Definition removed : rsched :=
  (0, ANew 0 [] 100) :: change 1 (OpInsert low) 101 0 ++ replicate 2 (1, ANext) ++
  change 1 (OpInsert high) 102 0 ++ replicate 2 (1, ANext) ++
  (3, ACall (ORead 0)) :: replicate 8 (3, ANext) ++
  change 2 (OpRemove (from_raw 2)) 103 1 ++ [(2, ANext)].

(** Thread 2 waits; thread 3 ends its dispatch and starts the next one; the wait is over. *)
Definition waited_for : rsched :=
  (2, ACall (OWait 0)) :: replicate 4 (2, ANext) ++ (3, AReturn) :: replicate 16 (3, ANext) ++
  (3, ACall (ORead 0)) :: replicate 3 (3, ANext) ++ replicate 9 (2, ANext).

Definition after (l : rsched) (s : state (list (HandlerEntry nat))) :=
  match run l s with Ok s => s | _ => init end.

Lemma after_removed : reachable (after removed init).
Proof. apply (reachable_run removed init); [constructor|by vm_compute]. Qed.

Lemma unregister_and_wait_quiesces_witness :
  th_stack (thread_of (after waited_for (after removed init)) 3) = [FReading 0 (Ptr 103 3) 3 0] /\
  (forall u f a g i, u <> 2 -> f ∈ th_stack (thread_of (after waited_for (after removed init)) u) ->
     validated f = Some (0, a, g, i) ->
     exists x, deref (Ptr a g) (after waited_for (after removed init)) = Some x /\
       absent (from_raw 2) x).
Proof.
  split; [by vm_compute|].
  destruct (cells (after removed init) !! 0) as [cl0|] eqn:Hc; [|by vm_compute in Hc].
  apply (unregister_and_wait_quiesces (after removed init) (after waited_for (after removed init))
    waited_for 2 0 (from_raw 2) cl0 [low] [] false 0 []).
  - exact after_removed.
  - exact Hc.
  - by vm_compute.
  - apply (bool_decide_unpack _). by vm_compute.
  - by vm_compute.
  - intros Hin. assert (Forall (fun e => match e with EDrop _ => False | _ => True end)
      (events waited_for (after removed init))) as Hall by (vm_compute; repeat constructor).
    by apply (proj1 (Forall_forall _ _) Hall) in Hin.
  - by vm_compute.
  - clear Hc. by intros e ?%elem_of_nil.
  - vm_compute in Hc. injection Hc as <-. by vm_compute.
Defined.
End Example.
