(* ===== verification/CellCalls.v ===== *)
(** What one access inside a call of a cell does, as its caller sees it.

    SnapMachine describes [read], [update] and [wait_for_retired_readers] of
    src/src/snapshot.rs access by access.  A caller needs to know less: whether the call has
    taken effect yet, and what the access that makes it take effect finds. *)
From S2P Require Import Prelude Hazard SnapCell SnapMachine SnapHazardInv SnapArcInv.
From S2P Require Import SnapLockInv SnapProtect SnapSafety SnapSpec SnapWait RegistryWait.

Section Calls.
Context {V : Type}.
Implicit Types (s : state V) (f : frame V) (st rest : list (frame V)) (cl : cell V) (upd : V -> option V).

(** A thread is not inside a function of snapshot.rs: it runs no call, or the closure of a
    [read]. *)
Definition at_rest st : bool :=
  match st with
  | [] | FReading _ _ _ _ :: _ | FFbReading _ _ :: _ => true
  | _ => false
  end.

(** The accesses of code inside snapshot.rs; the other actions are for its callers. *)
Definition is_access (a : action V) : bool :=
  match a with ANext | ASpurious | AAlloc _ => true | _ => false end.

(** The value behind the reference the closure of a [read] got. *)
Definition borrowed (t : tid) s : option V :=
  match th_stack (thread_of s t) with
  | FReading _ p _ _ :: _ | FFbReading _ p :: _ => deref p s
  | _ => None
  end.

(** How far a call is: a [read] before its closure, an [update] before its store (and whether
    its closure has run), a wait, or any of them on its way out. *)
Inductive stage :=
  | SEnter
  | SUpdate upd (decided : bool)
  | SWait (cof : bool) (since : nat)
  | SLeave.

Definition stage_of cl f : option stage :=
  match f with
  | FLoad _ KRead | FPin _ KRead _ | FAcqHead _ KRead _ | FAcqTry _ KRead _ _ | FAcqLoad _ KRead _
  | FAcqCas _ KRead _ _ | FValidate _ KRead _ _ | FProtect _ KRead _ _ _ | FFbInc _
  | FLock _ LkFallback | FCrit _ LkFallback => Some SEnter
  | FLock _ (LkUpdate upd) => Some (SUpdate upd false)
  | FCrit _ (LkUpdate upd) =>
      match writer cl with
      | Some (_, CLoad _) => Some (SUpdate upd false)
      | Some (_, (CNew _ _ | CStore _ _)) => Some (SUpdate upd true)
      | _ => Some SLeave
      end
  | FWaitFb _ cof _ since | FWaitHead _ cof _ since _ | FWaitScan _ cof _ since _ _ _ _ _
  | FLock _ (LkWait cof _ since) | FCrit _ (LkWait cof _ since) => Some (SWait cof since)
  | FUnpin _ _ _ None _ | FCheck _ None | FTryLock _ None | FCrit _ (LkReclaim None)
  | FDrop (DOp _ None) _ | FDrop (DFallback _) _ => Some SLeave
  | _ => None
  end.

(** A thread whose next access belongs to a call of [c] at stage [g]. *)
Record at_stage s (t : tid) (c : cid) cl f rest (g : stage) : Prop := {
  as_stack : th_stack (thread_of s t) = f :: rest;
  as_cell : frame_cell f = Some c;
  as_stage : stage_of cl f = Some g;
}.

(** ** The accesses of the thread itself *)

(** The access ends the call, or the call goes on with its next stage. *)
Inductive stepped s s' (t : tid) (c : cid) cl cl' rest : stage -> Prop :=
  | sp_on f' g (Hat : at_stage s' t c cl' f' rest g) (Hcur : current cl' = current cl)
      (Hg : forall upd, g <> SUpdate upd false) : stepped s s' t c cl cl' rest g
  | sp_borrow f' (Hst : th_stack (thread_of s' t) = f' :: rest) (Hr : reads f' = Some (c, current cl))
      (Hrest : at_rest (f' :: rest) = true) (Hcur : current cl' = current cl) :
      stepped s s' t c cl cl' rest SEnter
  | sp_left (Hst : th_stack (thread_of s' t) = rest) (Hcur : current cl' = current cl) :
      stepped s s' t c cl cl' rest SLeave
  | sp_waited cof round since (Hst0 : th_stack (thread_of s t) = FWaitHead c cof round since [] :: rest)
      (Hst : th_stack (thread_of s' t) = rest) (Hcur : current cl' = current cl) :
      stepped s s' t c cl cl' rest (SWait cof since)
  | sp_lock f' upd (Hw : writer cl = None) (Hat : at_stage s' t c cl' f' rest (SUpdate upd false))
      (Hcur : current cl' = current cl) : stepped s s' t c cl cl' rest (SUpdate upd false)
  | sp_decide f' upd v v' (Hw : writer cl = Some (t, CLoad upd)) (Hv : deref (current cl) s = Some v)
      (Hupd : upd v = Some v') (Hat : at_stage s' t c cl' f' rest (SUpdate upd true))
      (Hcur : current cl' = current cl) : stepped s s' t c cl cl' rest (SUpdate upd false)
  | sp_refuse f' upd v (Hw : writer cl = Some (t, CLoad upd)) (Hv : deref (current cl) s = Some v)
      (Hupd : upd v = None) (Hat : at_stage s' t c cl' f' rest SLeave)
      (Hcur : current cl' = current cl) : stepped s s' t c cl cl' rest (SUpdate upd false)
  | sp_store f' upd v v' (Hv : deref (current cl) s = Some v) (Hupd : upd v = Some v')
      (Hv' : deref (current cl') s' = Some v') (Hat : at_stage s' t c cl' f' rest SLeave)
      (Hgen : p_gen (current cl) < p_gen (current cl')) : stepped s s' t c cl cl' rest (SUpdate upd true).

(** The frames of the thread after a step. *)
Lemma stack_goto t (th : thread V) st s : th_stack (thread_of (goto t th st s) t) = st.
Proof. by rewrite thread_of_goto, decide_True. Qed.

Lemma stack_return t (th : thread V) st ret s : th_stack (thread_of (return_ t th st ret s) t) = st.
Proof. by rewrite thread_of_return, decide_True. Qed.

(** The cell the step has rewritten. *)
Ltac same_cell :=
  simpl in *;
  repeat match goal with H : <[?c := _]> _ !! ?c = Some _ |- _ => rewrite lookup_insert_eq in H end;
  simplify_eq/=.

Ltac at_tac := split; [first [apply stack_goto|eassumption]|done|done].

Lemma protect_stepped sp t f rest s s' c cl cl' g :
  at_stage s t c cl f rest g -> cells s !! c = Some cl -> cells s' !! c = Some cl' ->
  step_protect sp t (thread_of s t) rest f s = Ok s' -> stepped s s' t c cl cl' rest g.
Proof.
  intros [Hst Hcell Hg] Hc Hc' Hs. unfold step_protect in Hs.
  destruct f; try done; destruct k; try done; injection Hcell as ->; injection Hg as <-; step_cases Hs;
    try (by eapply sp_on; [at_tac|..]).
  eapply sp_borrow; [apply stack_goto| |done|done].
  simpl. destruct (current cl) eqn:Hcur; simpl in *. congruence.
Qed.

Lemma release_stepped t f rest s s' c cl cl' g :
  at_stage s t c cl f rest g -> cells s !! c = Some cl -> cells s' !! c = Some cl' ->
  step_release t (thread_of s t) rest f s = Ok s' -> stepped s s' t c cl cl' rest g.
Proof.
  intros [Hst Hcell Hg] Hc Hc' Hs. unfold step_release in Hs.
  destruct f; try done; destruct ret; try done; injection Hcell as ->; injection Hg as <-; step_cases Hs;
    same_cell; first [ by eapply sp_on; [at_tac|..] | by apply sp_left; [apply stack_return|] ].
Qed.

Lemma fallback_stepped t f rest s s' c cl cl' g :
  at_stage s t c cl f rest g -> cells s !! c = Some cl -> cells s' !! c = Some cl' ->
  step_fallback t (thread_of s t) rest f s = Ok s' -> stepped s s' t c cl cl' rest g.
Proof.
  intros [Hst Hcell Hg] Hc Hc' Hs. unfold step_fallback in Hs.
  destruct f as [| | | | | | | | | | | | | |c0|c0 k| | |d l| | |]; try done;
    [injection Hcell as ->|injection Hcell as ->|destruct d as [c0 [?|]|c0|]; try done; injection Hcell as ->].
  - injection Hg as <-. step_cases Hs. same_cell. by eapply sp_on; [at_tac|..].
  - step_cases Hs. same_cell. destruct k; try done; simplify_eq/=.
    + by eapply sp_lock; [|at_tac|].
    + by eapply sp_on; [at_tac|..].
    + by eapply sp_on; [at_tac|..].
  - injection Hg as <-. step_cases Hs; same_cell; [by apply sp_left; [apply stack_return|]|].
    by eapply sp_on; [at_tac|..].
  - injection Hg as <-. step_cases Hs; same_cell; [by apply sp_left; [apply stack_goto|]|].
    by eapply sp_on; [at_tac|..].
Qed.

Lemma wait_next_stage cl c cof round since p ps cursor found :
  stage_of cl (wait_next c cof round since p ps cursor found : frame V) = Some (SWait cof since) /\
  frame_cell (wait_next c cof round since p ps cursor found : frame V) = Some c.
Proof. unfold wait_next. by destruct cursor, found. Qed.

Lemma wait_stepped t f rest s s' c cl cl' g :
  at_stage s t c cl f rest g -> cells s !! c = Some cl -> cells s' !! c = Some cl' ->
  step_wait t (thread_of s t) rest f s = Ok s' -> stepped s s' t c cl cl' rest g.
Proof.
  intros [Hst Hcell Hg] Hc Hc' Hs. unfold step_wait in Hs.
  assert (forall p ps cursor found cof round since, s' = goto t (thread_of s t) (wait_next c cof round since p ps cursor found :: rest) s ->
    stepped s s' t c cl cl' rest (SWait cof since)) as Hnext.
  { intros p ps cursor found cof round since ->. destruct (wait_next_stage cl' c cof round since p ps cursor found).
    eapply sp_on; [split; [apply stack_goto|done..]|by same_cell|done]. }
  destruct f; try done; injection Hcell as ->; injection Hg as <-.
  - step_cases Hs; by eapply sp_on; [at_tac|..].
  - destruct ps as [|p ps]; injection Hs as <-; [|by eapply Hnext].
    eapply sp_waited; [done|apply stack_return|by same_cell].
  - step_cases Hs; try (by eapply Hnext). by eapply sp_on; [at_tac|..].
Qed.

(** A critical section that goes on. *)
Lemma crit_continue s t c k rest cl0 cr :
  th_stack (thread_of s t) = FCrit c k :: rest ->
  th_stack (thread_of (set_cell c (set_writer (Some (t, cr)) cl0) s) t) = FCrit c k :: rest.
Proof. done. Qed.

Lemma crit_stepped oa c k t rest cl cr s s' cl' g :
  inv s -> upd_inv s -> gen_inv s -> at_stage s t c cl (FCrit c k) rest g ->
  cells s !! c = Some cl -> writer cl = Some (t, cr) -> cells s' !! c = Some cl' ->
  step_crit oa c k t (thread_of s t) rest cl cr s = Ok s' -> stepped s s' t c cl cl' rest g.
Proof.
  intros Hi Hup Hgi [Hst _ Hg] Hc Hw Hc' Hs. simpl in Hg.
  destruct (li_holder _ (inv_lock _ Hi) _ _ _ _ Hc Hw) as (k' & rest' & Hst' & Hk & Hcr).
  rewrite Hst in Hst'. injection Hst' as <- <-.
  pose proof (Hup _ _ _ _ _ _ Hc Hw Hst) as Hok. rewrite Hw in Hg.
  unfold step_crit, after_unlock in Hs.
  destruct k as [upd|[?|]| |keep|cof round since]; try done; destruct cr; try done; simpl in Hok, Hcr;
    injection Hg as <-; step_cases Hs; same_cell;
    try (by eapply sp_on; [split; [by first [apply stack_goto|apply crit_continue]|done|done]|..]).
  - eapply sp_decide; [done..|split; [by apply crit_continue|done|done]|done].
  - eapply sp_refuse; [done..|split; [by apply crit_continue|done|done]|done].
  - destruct Hok as (v' & Hf & Hnew). destruct (deref (current cl) s) as [v|] eqn:Hv; [|done].
    eapply sp_store; [done|done| |split; [by apply crit_continue|done|done]|by eapply (gi_store _ Hgi)].
    done.
  - simplify_eq. eapply sp_borrow; [apply stack_goto|done|done|done].
Qed.

(** One access of a thread inside a call. *)
Lemma access_stepped t a s s' c cl f rest g cl' :
  reachable s -> at_stage s t c cl f rest g -> cells s !! c = Some cl -> cells s' !! c = Some cl' ->
  is_access a = true -> step t a s = Ok s' ->
  stepped s s' t c cl cl' rest g.
Proof.
  intros Hr Hat Hc Hc' Ha Hstep. pose proof (as_stack _ _ _ _ _ _ _ Hat) as Hst.
  assert (exists sp oa, step_frame sp oa t (thread_of s t) rest f s = Ok s') as (sp & oa & Hs).
  { unfold step in Hstep. destruct a; try done; rewrite Hst in Hstep; eauto. }
  pose proof (as_cell _ _ _ _ _ _ _ Hat) as Hcell.
  unfold step_frame in Hs. destruct f; try done;
    try (by eapply protect_stepped); try (by eapply release_stepped); try (by eapply fallback_stepped);
    try (by eapply wait_stepped).
  injection Hcell as ->. rewrite Hc in Hs. destruct (writer cl) as [[t' cr]|] eqn:Hw; [|done].
  case_decide; [subst t'|done].
  eapply crit_stepped; [by apply reachable_inv|by apply reachable_upd_inv|by apply reachable_gen_inv|done..].
Qed.

(** ** The accesses of other threads *)

Lemma step_other t a s s' u : step t a s = Ok s' -> u <> t -> thread_of s' u = thread_of s u.
Proof. intros [th Hupd]%step_threads Hne. rewrite Hupd. by case_decide. Qed.

Lemma stage_other t a s s' u c cl cl' f rest g :
  inv s -> inv s' -> step t a s = Ok s' -> u <> t -> at_stage s u c cl f rest g ->
  cells s !! c = Some cl -> cells s' !! c = Some cl' -> at_stage s' u c cl' f rest g.
Proof.
  intros Hi Hi' Hstep Hne [Hst Hcell Hg] Hc Hc'.
  pose proof (step_other _ _ _ _ _ Hstep Hne) as Hu.
  split; [by rewrite Hu|done|].
  destruct f; try done. destruct k; try done. injection Hcell as ->.
  assert (writer cl' = writer cl) as Hw; [|simpl in *; by rewrite Hw].
  destruct (li_crit _ (inv_lock _ Hi') u c (LkUpdate f) rest) as (cl1 & cr & Hc1 & Hw1); [by rewrite Hu|].
  simplify_eq. destruct (step_holder _ _ _ _ _ _ _ _ (inv_lock _ Hi) Hstep Hc' Hw1); simplify_eq; try done.
  congruence.
Qed.

(** A cell exists until it is dropped. *)
Lemma step_keeps_cell t a s s' c :
  step t a s = Ok s' -> a <> ADropCell c -> is_Some (cells s !! c) -> is_Some (cells s' !! c).
Proof.
  intros Hstep Ha Hc. assert (forall c0 cl0, is_Some (<[c0 := cl0]> (cells s) !! c)) as Hins.
  { intros c0 cl0. rewrite lookup_insert. by case_decide. }
  destruct (step_cases_of _ _ _ _ Hstep).
  - unfold step_protect in Hs. destruct f; try done; by step_cases Hs.
  - unfold step_release in Hs. destruct f; try done; by step_cases Hs.
  - unfold step_fallback in Hs. destruct f; try done; by step_cases Hs.
  - unfold step_crit, after_unlock in Hs. destruct cr; try done; by step_cases Hs.
  - unfold step_wait in Hs. destruct f; try done; by step_cases Hs.
  - unfold step_user in Hs. destruct f, a0; try done; by step_cases Hs.
  - by subst s'.
  - unfold step_new in Hs. by step_cases Hs.
  - unfold step_drop_cell in Hs. step_cases Hs. rewrite lookup_delete_ne; [done|]. congruence.
  - by subst s'.
  - by subst s'.
Qed.

(** ** The depth of fallback reads *)

(** The frames between the two updates of [FALLBACK_DEPTH] in [read_fallback]. *)
Definition fb_frame f : bool :=
  match f with
  | FLock _ LkFallback | FCrit _ LkFallback | FFbReading _ _ | FDrop (DFallback _) _ => true
  | _ => false
  end.

Definition depth_ok (th : thread V) : Prop := th_depth th = cnt fb_frame (th_stack th).

Lemma depth_ok_upd s s' t th u :
  (forall u, depth_ok (thread_of s u)) -> threads_upd s s' t th -> depth_ok th -> depth_ok (thread_of s' u).
Proof. intros Hall Hupd Hth. rewrite Hupd. by case_decide. Qed.

Lemma fallback_entry_fb c (k : rkind V) : fb_frame (fallback_entry c k) = false.
Proof. by destruct k. Qed.

Lemma protected_entry_fb c (k : rkind V) p g i : fb_frame (protected_entry c k p g i) = false.
Proof. by destruct k. Qed.

Lemma wait_next_fb c cof round since p ps cursor found :
  fb_frame (wait_next c cof round since p ps cursor found : frame V) = false.
Proof. unfold wait_next. by destruct cursor, found. Qed.

Lemma op_entry_fb o (th : thread V) s f : op_entry o th s = Some f -> fb_frame f = false.
Proof. destruct o; simpl; by intros (cl & _ & [= <-])%bind_Some. Qed.

(** Closes the case of a step that rewrites the stack of its thread. *)
Ltac depth_tac IH Hv Hst :=
  eapply depth_ok_upd;
    [ exact IH
    | first [ by apply threads_upd_goto | by apply threads_upd_return | by apply threads_upd_same ]
    | unfold depth_ok in *; rewrite Hst in Hv; simpl in *;
      rewrite ?fallback_entry_fb, ?protected_entry_fb, ?wait_next_fb in *; try rewrite Hst; simpl; lia ].

Lemma crit_depth oa c k t rest cl cr s s' u :
  lock_inv s -> (forall u, depth_ok (thread_of s u)) -> th_stack (thread_of s t) = FCrit c k :: rest ->
  cells s !! c = Some cl -> writer cl = Some (t, cr) ->
  step_crit oa c k t (thread_of s t) rest cl cr s = Ok s' -> depth_ok (thread_of s' u).
Proof.
  intros Hli IH Hst Hc Hw Hs. pose proof (IH t) as Hv.
  destruct (li_holder _ Hli _ _ _ _ Hc Hw) as (k' & rest' & Hst' & Hk & _).
  rewrite Hst in Hst'. injection Hst' as <- <-. unfold step_crit, after_unlock in Hs.
  destruct cr; try done; destruct k; try done; step_cases Hs; first [ apply IH | depth_tac IH Hv Hst ].
Qed.

(** [FALLBACK_DEPTH] is the number of fallback reads a thread is inside. *)
Lemma reachable_depth s t : reachable s -> depth_ok (thread_of s t).
Proof.
  intros Hr. revert t. induction Hr as [|s v a s' Hs IH Hstep]; [done|]. intros t. pose proof (IH v) as Hv.
  destruct (step_cases_of _ _ _ _ Hstep).
  - unfold step_protect in Hs0. destruct f; try done; step_cases Hs0; depth_tac IH Hv Hst.
  - unfold step_release in Hs0. destruct f; try done; step_cases Hs0; depth_tac IH Hv Hst.
  - unfold step_fallback in Hs0. destruct f; try done; step_cases Hs0; depth_tac IH Hv Hst.
  - by eapply crit_depth; [apply reachable_lock_inv|..].
  - unfold step_wait in Hs0. destruct f; try done; step_cases Hs0; depth_tac IH Hv Hst.
  - unfold step_user in Hs0. destruct f, a0; try done; step_cases Hs0; first [ apply IH | depth_tac IH Hv Hst ].
  - subst s'. apply op_entry_fb in Ho. eapply depth_ok_upd; [exact IH|by apply threads_upd_goto|].
    unfold depth_ok in *. simpl. by rewrite Ho.
  - unfold step_new in Hs0. step_cases Hs0. apply IH.
  - unfold step_drop_cell in Hs0. step_cases Hs0. by eapply depth_ok_upd; [exact IH|by apply threads_upd_goto|].
  - subst s'. by eapply depth_ok_upd; [exact IH|by apply threads_upd_goto|].
  - subst s'. eapply depth_ok_upd; [exact IH|intros u; by rewrite thread_of_set_thread|].
    unfold depth_ok in *. rewrite Hst in Hv. done.
Qed.
End Calls.
