(* ===== verification/CellRegistry.v ===== *)
(** The synchronous registry with its list in memory: src/src/sync/mod.rs over
    src/src/snapshot.rs and src/src/hazard.rs.

    SyncThreads takes an access to the list as one step.  Here it is what the source has:
    the list lives in a [SnapCell], every call of [update], [read] and
    [wait_for_retired_readers] runs through the machine of SnapMachine, interleaved with the
    other threads at each of its accesses, and a dispatch walks the list through the pointer
    it borrowed.  The registry itself holds no list ([world E O unit]). *)
From S2P Require Import Prelude HandlerId HandlerList HandlerStore PanicInfo Hazard SnapCell.
From S2P Require Import SyncRegistry SnapMachine RegistryConc CellCalls.

Section Machine.
Context {E O : Type}.
Abbreviation Vec := (list (HandlerEntry (stored E O))).
Abbreviation World := (world E O unit).
Abbreviation access := (SnapMachine.action Vec).
Implicit Types (w : World) (p k : prog E O) (fl : flow) (s : SnapMachine.state Vec) (l : Vec).

(** ** Threads *)

(** The closures [notify], [contains], [handler_count] and [is_empty] pass to [read], with
    what follows the call. *)
Inductive query :=
  | QNotify (e : E) k
  | QContains (id : HandlerId) (next : bool -> prog E O)
  | QCount (next : nat -> prog E O)
  | QEmpty (next : bool -> prog E O).

(** What follows an [update]: the rest of the method, which waits if it is one of the two
    that do and something was removed, or the end of a once-handler, which returned or panicked
    with [pl]. *)
Inductive follow :=
  | UProg (wait : bool) (next : bool -> prog E O)
  | UOnce (id : HandlerId) (pl : option payload).

(** What a thread is in the middle of, in sync/mod.rs.  [CRun]: user code.  [CInsert]: a
    registration that has its id.  [CUpdate]: a call of [update], whose closure has answered
    [res] once it has run.  [CWait]: [wait_for_retired_readers].  [CRead]: a call of [read]
    until its closure runs.  [CDispatch]: the loop of [notify] at index [i] of the borrowed
    list.  [CHandler], [CCount], [CReport], [CCallback]: a handler call and [handle_panic],
    as in SyncThreads. *)
Inductive cframe :=
  | CRun p
  | CInsert (entry : HandlerEntry (stored E O)) k
  | CUpdate (op : reg_op (stored E O)) (res : option bool) (u : follow)
  | CWait k
  | CRead (q : query)
  | CDispatch (e : E) (i : nat) k
  | CHandler (id : HandlerId) (once : option HandlerId)
  | CCount (id : HandlerId) (pl : payload)
  | CReport (id : HandlerId) (pl : payload)
  | CCallback (pl : payload).
Implicit Types (st : list cframe).

Inductive cthread := CRunning st | CEnded fl.
Inductive cnext := CGoto st | CEnd fl | CAbort.

(** ** The code between the calls of the cell *)

(** The cell with the handler list. *)
Definition handlers_cell : cid := 0.

(** One step of registry code: the new state of the registry, what it asks of the cell, and
    where the thread goes. *)
Definition reply : Type := option (World * option access * cnext).

Definition call_update (op : reg_op (stored E O)) (u : follow) st w : reply :=
  Some (w, Some (SnapMachine.ACall (OUpdate handlers_cell (reg_fn op))), CGoto (CUpdate op None u :: st)).

Definition call_read (q : query) st w : reply :=
  Some (w, Some (SnapMachine.ACall (ORead handlers_cell)), CGoto (CRead q :: st)).

(** The end of a handler call, after [RemoveOnDrop]. *)
Definition handler_end (id : HandlerId) (pl : option payload) st : list cframe :=
  match pl with None => st | Some pl => CCount id pl :: st end.

(** User code above [st] has returned, or panicked with [pl].  A panic of [drop_both] unwinds
    out of the closure of [read]. *)
Definition cresume w (pl : option payload) st : reply :=
  match st with
  | [] => Some (w, None, CEnd (match pl with None => Done | Some pl => Panicked pl end))
  | CHandler id (Some oid) :: st =>
      if alive w then call_update (OpRemove oid) (UOnce id pl) st w
      else Some (w, None, CGoto (handler_end id pl st))
  | CHandler id None :: st => Some (w, None, CGoto (handler_end id pl st))
  | CCallback hpl :: CDispatch e i k :: st =>
      match drop_both pl hpl with
      | Done => Some (w, None, CGoto (CDispatch e i k :: st))
      | Panicked r => Some (w, Some AUnwind, CGoto (CRun (Panic r) :: st))
      | Aborted => Some (w, None, CAbort)
      end
  | _ => None
  end.

(** User code: one method call, up to the call of the cell it makes. *)
Definition cstep_prog p st w : reply :=
  let go w k := Some (w, None, CGoto (CRun k :: st)) in
  match p with
  | Ret => cresume w None st
  | Panic pl => cresume w (Some pl) st
  | Emit o k => go (log_ev (TEmit o) w) k
  | Register priority h k =>
      let '(id, r) := issue_id (reg w) in
      Some (log_ev (TIssue id) (set_reg r w), None,
            CGoto (CInsert (Entry id priority (SPlain h)) (k id) :: st))
  | RegisterOnce h k =>
      let '(id, r) := issue_id (reg w) in
      Some (log_ev (TIssue id) (set_reg r (set_slots (once_slots w ++ [Some h]) w)), None,
            CGoto (CInsert (Entry id 0 (SOnce (length (once_slots w)) id)) (k id) :: st))
  | Unregister id k => call_update (OpRemove id) (UProg false k) st w
  | UnregisterAndWait id k => call_update (OpRemove id) (UProg true k) st w
  | Clear k => call_update OpClear (UProg false (fun _ => k)) st w
  | ClearAndWait k => call_update OpClear (UProg true (fun _ => k)) st w
  | Contains id k => call_read (QContains id k) st w
  | HandlerCount k => call_read (QCount k) st w
  | IsEmpty k => call_read (QEmpty k) st w
  | PanicCount k => go w (k (panic_count (reg w)))
  | OnPanic cb k => go (set_reg (on_panic cb (reg w)) w) k
  | ClearPanicCallback k => go (set_reg (clear_panic_callback (reg w)) w) k
  | Notify e k => call_read (QNotify e k) st w
  | DropGuard g k =>
      if guard_registry g && alive w
      then call_update (OpRemove (guard_id g)) (UProg false (fun _ => k)) st w
      else go w k
  | Observe k => go w (k (emits (trace w)))
  end.

(** What the closures of the queries compute from the list. *)
Definition answer (q : query) l : prog E O :=
  match q with
  | QNotify e k => Notify e k
  | QContains id k => k (existsb (fun e => bool_decide (entry_id e = id)) l)
  | QCount k => k (length l)
  | QEmpty k => k (match l with [] => true | _ => false end)
  end.

(** The closure of a [read] starts: a query computes its answer and returns, [notify] starts
    its loop. *)
Definition cstep_closure (q : query) l st w : reply :=
  match q with
  | QNotify e k => Some (w, None, CGoto (CDispatch e 0 k :: st))
  | _ => Some (w, Some AReturn, CGoto (CRun (answer q l) :: st))
  end.

Definition is_cdispatch (f : cframe) : bool := match f with CDispatch _ _ _ => true | _ => false end.

(** The loop of [notify]: the next entry of the borrowed list, or the end of the closure. *)
Definition cstep_dispatch (e : E) (i : nat) k l st w : reply :=
  match l !! i with
  | None => Some (w, Some AReturn, CGoto (CRun k :: st))
  | Some entry =>
      let w := log_ev (TCall (S (cnt is_cdispatch st)) (entry_id entry)) w in
      let back := CDispatch e (S i) k :: st in
      match handler entry with
      | SPlain h => Some (w, None, CGoto (CRun (h e) :: CHandler (entry_id entry) None :: back))
      | SOnce slot id =>
          match once_slots w !! slot with
          | Some (Some h) =>
              Some (log_ev (TOnce slot) (set_slots (<[slot := None]> (once_slots w)) w), None,
                    CGoto (CRun (h e) :: CHandler (entry_id entry) (Some id) :: back))
          | _ => Some (w, None, CGoto back)
          end
      end
  end.

(** An [update] has returned [b]. *)
Definition cstep_return (b : bool) (u : follow) st w : reply :=
  match u with
  | UProg wait k =>
      if wait && b
      then Some (w, Some (SnapMachine.ACall (OWait handlers_cell)), CGoto (CWait (k true) :: st))
      else Some (w, None, CGoto (CRun (k b) :: st))
  | UOnce id pl => Some (w, None, CGoto (handler_end id pl st))
  end.

(** One step of registry code of thread [t], between its calls of the cell. *)
Definition registry_step (t : tid) s st w : reply :=
  match st with
  | CRun p :: st => cstep_prog p st w
  | CInsert entry k :: st => call_update (OpInsert entry) (UProg false (fun _ => k)) st w
  | CUpdate _ (Some b) u :: st => cstep_return b u st w
  | CRead q :: st => l ← borrowed t s; cstep_closure q l st w
  | CDispatch e i k :: st => l ← borrowed t s; cstep_dispatch e i k l st w
  | CCount id pl :: st =>
      Some (log_ev (TPanic id pl) (set_reg (count_panic (reg w)) w), None, CGoto (CReport id pl :: st))
  | CReport id pl :: st =>
      match panic_callback (reg w) with
      | None => cresume w None (CCallback pl :: st)
      | Some holder =>
          let info := PanicInfo_new id pl in
          Some (log_ev (TReport info) w, None, CGoto (CRun (invoke holder info) :: CCallback pl :: st))
      end
  | _ => None
  end.

(** ** The machine *)

Record full := Full {
  fw : World;
  snap : SnapMachine.state Vec;
  fthreads : gmap tid cthread;
  fhalted : bool;
}.
Implicit Types (F : full).

(** What the closure of an [update] answers in the access that runs it. *)
Definition closure_answer (t : tid) s : option bool :=
  cl ← cells s !! handlers_cell;
  match writer cl with
  | Some (u, CLoad f) =>
      if decide (u = t)
      then l ← deref (current cl) s; Some (match f l with Some _ => true | None => false end)
      else None
  | _ => None
  end.

(** What an access inside a call of the cell, from [s] to [s'], means for the caller: the
    closure of an [update] has run, or a wait has returned. *)
Definition settle (t : tid) s s' st w : World * list cframe :=
  match st with
  | CUpdate op None u :: st => (w, CUpdate op (closure_answer t s) u :: st)
  | CWait k :: st' =>
      if at_rest (th_stack (thread_of s' t)) then (log_ev TWait w, CRun k :: st') else (w, st)
  | _ => (w, st)
  end.

Definition ok_state (o : SnapMachine.outcome Vec) : option (SnapMachine.state Vec) :=
  match o with Ok s => Some s | _ => None end.

Definition cmove (t : tid) w s (nx : cnext) F : full :=
  match nx with
  | CGoto st => Full w s (<[t := CRunning st]> (fthreads F)) (fhalted F)
  | CEnd fl => Full w s (<[t := CEnded fl]> (fthreads F)) (fhalted F)
  | CAbort => Full w s (fthreads F) true
  end.

(** One step of thread [t]: of registry code, or of the call of the cell it is in, whose
    access is [a]. *)
Definition fstep (t : tid) (a : access) F : option full :=
  if fhalted F then None else
  match fthreads F !! t with
  | Some (CRunning st) =>
      if at_rest (th_stack (thread_of (snap F) t)) then
        '(w, oa, nx) ← registry_step t (snap F) st (fw F);
        s ← (match oa with None => Some (snap F) | Some a => ok_state (SnapMachine.step t a (snap F)) end);
        Some (cmove t w s nx F)
      else if is_access a then
        s ← ok_state (SnapMachine.step t a (snap F));
        let '(w, st) := settle t (snap F) s st (fw F) in
        Some (cmove t w s (CGoto st) F)
      else None
  | _ => None
  end.

Fixpoint frun (sched : list (tid * access)) F : option full :=
  match sched with
  | [] => Some F
  | (t, a) :: sched => F ← fstep t a F; frun sched F
  end.

(** [SyncRegistry::new], with the empty list allocated at [x], and threads that are about to
    run their programs. *)
Definition fstart (x : addr) (ps : gmap tid (prog E O)) : full :=
  Full (SyncRegistry.World (mkRegistry tt HandlerIdGenerator_new None 0) true [] 0 [])
    (match SnapMachine.step 0 (ANew handlers_cell [] x) init with Ok s => s | _ => init end)
    ((fun p => CRunning [CRun p]) <$> ps) false.

Inductive freachable (x : addr) (ps : gmap tid (prog E O)) : full -> Prop :=
  | freach_start : freachable x ps (fstart x ps)
  | freach_step t a F F' : freachable x ps F -> fstep t a F = Some F' -> freachable x ps F'.

Lemma freachable_run x ps sched F F' : freachable x ps F -> frun sched F = Some F' -> freachable x ps F'.
Proof.
  revert F. induction sched as [|[t a] sched IH]; intros F HF; simpl; [by intros [= <-]|].
  destruct (fstep t a F) as [F1|] eqn:Hs; [|done]. apply IH. by econstructor.
Qed.
End Machine.
Arguments query : clear implicits.
Arguments follow : clear implicits.
Arguments cframe : clear implicits.
Arguments cthread : clear implicits.
Arguments cnext : clear implicits.
Arguments reply : clear implicits.
Arguments full : clear implicits.
