(* ===== verification/CellSim.v ===== *)
(** The registry over the cell and the registry with atomic list accesses: how their states
    correspond.

    A call of the cell takes effect in one of its accesses (CellCalls): a [read] when its
    announcement is validated or its [Arc] is cloned, an [update] when it stores, or when its
    closure declines, a wait when it returns.  In that access the machine of SyncThreads
    makes its step; in all others it stands still.  Allocations of the cell are numbered;
    [gens] are those that have been current, the position of one being the number SyncThreads
    gives to its list. *)
From S2P Require Import Prelude HandlerId HandlerList HandlerStore PanicInfo Hazard SnapCell.
From S2P Require Import SnapMachine SnapHazardInv SnapArcInv SnapLockInv SnapProtect SnapSafety SnapSpec SnapWait.
From S2P Require Import RegistryConc RegistryWait CellCalls SyncRegistry CellRegistry SyncThreads SyncThreadsExec.

Section Relation.
Context {E O : Type}.
Abbreviation Vec := (list (HandlerEntry (stored E O))).
Abbreviation sframe := (SnapMachine.frame Vec).
Abbreviation aframe := (SyncThreads.frame E O).
Implicit Types (s : SnapMachine.state Vec) (cl : cell Vec) (l : Vec) (w : world E O unit) (gens : list nat).
Implicit Types (cst : list (cframe E O)) (sst : list sframe) (ast : list aframe) (sf : sframe).
Implicit Types (op : reg_op (stored E O)) (u : follow E O) (q : query E O).

(** ** Worlds *)

(** The registry with its list in place. *)
Definition with_list l w : world E O Vec :=
  World (mkRegistry l (id_generator (reg w)) (panic_callback (reg w)) (panics (reg w)))
    (alive w) (once_slots w) (depth w) (trace w).

Definition op_action op : action E O :=
  match op with
  | OpInsert e => AInsert e
  | OpRemove id => ARemove id
  | OpClear => AClear
  end.

Definition is_some {A} (x : option A) : bool := match x with Some _ => true | None => false end.

Lemma apply_op op l w :
  apply_action (op_action op) (with_list l w) = with_list (default l (reg_fn op l)) w.
Proof.
  destruct op as [e|id|]; simpl; [done| |].
  - unfold do_unregister, unregister, remove_id. simpl. by destruct (remove_id_list id l).
  - unfold clear, remove_all. simpl. by destruct (remove_all_list l).
Qed.

Lemma contains_removes id (r : SyncRegistry E O Vec) : contains id r = is_some (remove_id_list id (handlers r)).
Proof.
  rewrite <- contains_removed. unfold remove_id. simpl. by destruct (remove_id_list id (handlers r)).
Qed.

Lemma publishes_op op l w : publishes (op_action op) (with_list l w) = is_some (reg_fn op l).
Proof. destruct op as [e|id|]; simpl; [done|apply contains_removes|]. by destruct l. Qed.

(** ** Stacks *)

(** A frame that reads the list with number [v]. *)
Inductive held gens s : sframe -> nat -> bool -> Vec -> Prop :=
  | held_hazard p g i v l : gens !! v = Some g -> deref p s = Some l ->
      held gens s (FReading handlers_cell p g i) v false l
  | held_arc arc v l : gens !! v = Some (p_gen arc) -> deref arc s = Some l ->
      held gens s (FFbReading handlers_cell arc) v true l.

(** Frames of the registry, the closures of [read] they run in, and frames of SyncThreads. *)
Inductive stack_rel gens s : list (cframe E O) -> list sframe -> list aframe -> Prop :=
  | sr_nil : stack_rel gens s [] [] []
  | sr_run p cst sst ast : stack_rel gens s cst sst ast ->
      stack_rel gens s (CRun p :: cst) sst (FRun p :: ast)
  | sr_insert entry k cst sst ast : stack_rel gens s cst sst ast ->
      stack_rel gens s (CInsert entry k :: cst) sst (FInsert entry k :: ast)
  | sr_handler id once cst sst ast : stack_rel gens s cst sst ast ->
      stack_rel gens s (CHandler id once :: cst) sst (FHandler id once :: ast)
  | sr_count id pl cst sst ast : stack_rel gens s cst sst ast ->
      stack_rel gens s (CCount id pl :: cst) sst (FCount id pl :: ast)
  | sr_report id pl cst sst ast : stack_rel gens s cst sst ast ->
      stack_rel gens s (CReport id pl :: cst) sst (FReport id pl :: ast)
  | sr_callback pl cst sst ast : stack_rel gens s cst sst ast ->
      stack_rel gens s (CCallback pl :: cst) sst (FCallback pl :: ast)
  | sr_dispatch e i k n v fb l sf cst sst ast : held gens s sf v fb l -> stack_rel gens s cst sst ast ->
      stack_rel gens s (CDispatch e i k :: cst) (sf :: sst) (FDispatch n v fb e (drop i l) k :: ast).

(** ** Calls *)

(** Where SyncThreads is after the step of an [update] that answered [b], when [ver] was the
    number of the list it found. *)
Definition follows (ver : nat) u (b : bool) ast : list aframe :=
  match u with
  | UProg wait k => if wait && b then FWait (S ver) (on_fallback ast) (k true) :: ast else FRun (k b) :: ast
  | UOnce id pl => match pl with Some pl => FCount id pl :: ast | None => ast end
  end.

(** The frames of a call lie on top of [ast]; none is a dispatch. *)
Definition above (ast0 ast : list aframe) : Prop :=
  exists top, ast0 = top ++ ast /\ Forall (fun f => is_dispatch f = false) top.

(** SyncThreads is about to do the step of the [update]. *)
Definition before_update op u (ast0 ast : list aframe) : Prop :=
  above ast0 ast /\
  (forall id k, op = OpRemove id -> u = UProg true k -> ast0 = FRun (UnregisterAndWait id k) :: ast) /\
  forall quiet ver n l w, alive w = true ->
    local_step quiet false ver n ast0 (with_list l w) =
      Some (op_action op, Goto (follows ver u (is_some (reg_fn op l)) ast)).

(** The step of a [read]. *)
Definition read_action q : action E O := match q with QNotify _ _ => ASnap | _ => ASkip end.

Definition read_frame (fb : bool) (ver n : nat) q l : aframe :=
  match q with
  | QNotify e k => FDispatch n ver fb e l k
  | _ => FRun (answer q l)
  end.

Definition before_read q (ast0 ast : list aframe) : Prop :=
  above ast0 ast /\
  forall quiet fb ver n l w,
    local_step quiet fb ver n ast0 (with_list l w) = Some (read_action q, Goto (read_frame fb ver n q l :: ast)).

(** The last call has taken effect. *)
Inductive settled gens s : list (cframe E O) -> list sframe -> list aframe -> Prop :=
  | se_stack cst sst ast : stack_rel gens s cst sst ast -> settled gens s cst sst ast
  | se_update op b u ver cst sst ast : stack_rel gens s cst sst ast -> (b = true -> is_Some (gens !! S ver)) ->
      settled gens s (CUpdate op (Some b) u :: cst) sst (follows ver u b ast)
  | se_read q sf v fb l n cst sst ast : held gens s sf v fb l -> stack_rel gens s cst sst ast ->
      settled gens s (CRead q :: cst) (sf :: sst) (read_frame fb v n q l :: ast).

(** A thread of the registry over the cell, and its image. *)
Inductive thread_rel gens s cl (t : nat) : list (cframe E O) -> list aframe -> Prop :=
  | tr_rest cst sst ast : th_stack (thread_of s t) = sst -> settled gens s cst sst ast ->
      thread_rel gens s cl t cst ast
  | tr_leave f cst sst ast : at_stage s t handlers_cell cl f sst SLeave -> settled gens s cst sst ast ->
      thread_rel gens s cl t cst ast
  | tr_read f q cst sst ast0 ast : at_stage s t handlers_cell cl f sst SEnter -> before_read q ast0 ast ->
      stack_rel gens s cst sst ast -> thread_rel gens s cl t (CRead q :: cst) ast0
  | tr_update f op u d cst sst ast0 ast :
      at_stage s t handlers_cell cl f sst (SUpdate (reg_fn op) d) -> before_update op u ast0 ast ->
      stack_rel gens s cst sst ast ->
      thread_rel gens s cl t (CUpdate op (if d then Some true else None) u :: cst) ast0
  | tr_wait f since cof sg g0 k cst sst ast :
      at_stage s t handlers_cell cl f sst (SWait cof sg) -> gens !! since = Some g0 -> g0 <= sg ->
      stack_rel gens s cst sst ast ->
      thread_rel gens s cl t (CWait k :: cst) (FWait since cof k :: ast).

Definition thread_match gens s cl (t : nat) (c : option (cthread E O)) (a : option (thread E O)) : Prop :=
  match c, a with
  | Some (CRunning cst), Some (Running ast) => thread_rel gens s cl t cst ast
  | Some (CEnded fl), Some (Ended fl') => fl = fl'
  | None, None => True
  | _, _ => False
  end.

(** The whole states. *)
Record sim gens (F : full E O) (m : machine E O) : Prop := {
  sm_reach : SnapMachine.reachable (snap F);
  sm_cell : exists cl l, cells (snap F) !! handlers_cell = Some cl /\
    last gens = Some (p_gen (current cl)) /\ deref (current cl) (snap F) = Some l /\
    mw m = with_list l (fw F) /\
    forall t, thread_match gens (snap F) cl t (fthreads F !! t) (threads m !! t);
  sm_sorted : StronglySorted lt gens;
  sm_lists : length (lists m) = length gens;
  sm_alive : alive (fw F) = true;
  sm_halted : fhalted F = halted m;
}.
End Relation.
