(* ===== verification/CellSteps.v ===== *)
(** Steps of the registry over the cell and their images in SyncThreads. *)
From S2P Require Import Prelude HandlerId HandlerList HandlerStore PanicInfo Hazard SnapCell.
From S2P Require Import SnapMachine SnapHazardInv SnapArcInv SnapLockInv SnapProtect SnapSafety SnapSpec SnapWait.
From S2P Require Import RegistryConc RegistryWait CellCalls SyncRegistry CellRegistry SyncThreads SyncThreadsExec CellSim.

Section Steps.
Context {E O : Type}.
Abbreviation Vec := (list (HandlerEntry (stored E O))).
Abbreviation sframe := (SnapMachine.frame Vec).
Abbreviation aframe := (SyncThreads.frame E O).
Implicit Types (s : SnapMachine.state Vec) (cl : cell Vec) (l : Vec) (w : world E O unit) (gens : list nat).
Implicit Types (cst : list (cframe E O)) (sst : list sframe) (ast : list aframe) (sf : sframe).
Implicit Types (F : full E O) (m : machine E O).

(** ** What does not change *)

Lemma held_reads gens s sf v fb l :
  held gens s sf v fb l ->
  exists p, reads sf = Some (handlers_cell, p) /\ gens !! v = Some (p_gen p) /\ deref p s = Some l.
Proof. intros [p g i v' l' Hg Hd|arc v' l' Hg Hd]; [exists (Ptr (p_addr p) g)|exists arc]; done. Qed.

Section Stable.
Context s s' gens gens' (Hi : inv s) (Hi' : inv s') (Hev : heap_evolves s s') (Hgens : gens `prefix_of` gens').

(** The frames [sst] of thread [u] are there before and after. *)
Definition kept (u : nat) sst : Prop :=
  forall sf, sf ∈ sst -> sf ∈ th_stack (thread_of s u) /\ sf ∈ th_stack (thread_of s' u).

Lemma held_stable u sf v fb l :
  sf ∈ th_stack (thread_of s u) -> sf ∈ th_stack (thread_of s' u) ->
  held gens s sf v fb l -> held gens' s' sf v fb l.
Proof.
  intros Hin Hin' Hh. destruct (held_reads _ _ _ _ _ _ Hh) as (p & Hr & Hg & Hd).
  assert (deref p s' = deref p s) as Hsame by (apply arc_value_stable; [done..| |]; by eapply reads_arc).
  destruct Hh as [p0 g i v l Hg0 Hd0|arc v l Hg0 Hd0]; simplify_eq/=; constructor;
    try (by eapply prefix_lookup_Some); by etrans; [exact Hsame|].
Qed.

Lemma stack_rel_stable u cst sst ast :
  kept u sst -> stack_rel gens s cst sst ast -> stack_rel gens' s' cst sst ast.
Proof.
  intros Hk Hr. induction Hr; try (constructor; auto).
  - eapply held_stable; [apply Hk; left|apply Hk; left|done].
  - apply IHHr. intros sf' Hin. apply Hk. by right.
Qed.

Lemma settled_stable u cst sst ast :
  kept u sst -> settled gens s cst sst ast -> settled gens' s' cst sst ast.
Proof.
  intros Hk Hse. destruct Hse as [cst sst ast Hr|op b uu ver cst sst ast Hr Hg|q sf v fb l n cst sst ast Hh Hr].
  - constructor. by eapply stack_rel_stable.
  - constructor; [by eapply stack_rel_stable|]. intros Hb. destruct (Hg Hb) as [g Hg'].
    exists g. by eapply prefix_lookup_Some.
  - constructor; [eapply held_stable; [apply Hk; left|apply Hk; left|done]|].
    eapply stack_rel_stable; [|done]. intros sf' Hin. apply Hk. by right.
Qed.

(** The relation of a thread that does not move. *)
Lemma thread_rel_stable t a u cl cl' cst ast :
  SnapMachine.step t a s = Ok s' -> u <> t ->
  cells s !! handlers_cell = Some cl -> cells s' !! handlers_cell = Some cl' ->
  thread_rel gens s cl u cst ast -> thread_rel gens' s' cl' u cst ast.
Proof.
  intros Hstep Hne Hc Hc' Hr. pose proof (step_other _ _ _ _ _ Hstep Hne) as Hu.
  assert (forall f sst, th_stack (thread_of s u) = f :: sst -> kept u sst) as Hk.
  { intros f sst E1 sf Hin. rewrite Hu, E1. split; by right. }
  destruct Hr as [cst sst ast Hst Hse|f cst sst ast Hat Hse|f q cst sst ast0 ast Hat Hb Hr
    |f op uu d cst sst ast0 ast Hat Hb Hr|f since cof sg g0 k cst sst ast Hat Hg Hle Hr].
  - subst sst. eapply tr_rest; [done|]. rewrite Hu. eapply (settled_stable u); [|done].
    intros sf. by rewrite Hu.
  - eapply tr_leave; [by apply (stage_other t a s s' u handlers_cell cl cl')|]. eapply settled_stable; [|done]. eapply Hk, Hat.
  - eapply tr_read; [by apply (stage_other t a s s' u handlers_cell cl cl')|done|]. eapply stack_rel_stable; [|done]. eapply Hk, Hat.
  - eapply tr_update; [by apply (stage_other t a s s' u handlers_cell cl cl')|done|]. eapply stack_rel_stable; [|done]. eapply Hk, Hat.
  - eapply tr_wait; [by apply (stage_other t a s s' u handlers_cell cl cl')|by eapply prefix_lookup_Some|done|].
    eapply stack_rel_stable; [|done]. eapply Hk, Hat.
Qed.
End Stable.

(** ** The next states *)

Lemma sorted_lt gens i j a b :
  StronglySorted lt gens -> gens !! i = Some a -> gens !! j = Some b -> i < j -> a < b.
Proof.
  intros Hs. revert i j. induction Hs as [|x gens Hs IH Hx]; intros i j Ha Hb Hlt; [done|].
  destruct j as [|j]; [lia|]. destruct i as [|i]; simpl in *; [|by eapply (IH i j); [..|lia]].
  injection Ha as ->. eapply Forall_forall; [exact Hx|]. by eapply list_elem_of_lookup_2.
Qed.

(** Numbers of lists are ordered as the allocations. *)
Lemma sorted_le gens i j a b :
  StronglySorted lt gens -> gens !! i = Some a -> gens !! j = Some b -> a <= b -> i <= j.
Proof. intros Hs Ha Hb Hle. destruct (decide (j < i)) as [Hlt|]; [|lia]. pose proof (sorted_lt _ _ _ _ _ Hs Hb Ha Hlt). lia. Qed.

Lemma sorted_last gens i a b :
  StronglySorted lt gens -> gens !! i = Some a -> last gens = Some b -> a <= b.
Proof.
  intros Hs Ha Hb. rewrite last_lookup in Hb. destruct (decide (i = pred (length gens))) as [->|Hne]; [naive_solver lia|].
  apply lookup_lt_Some in Ha as Hlt. pose proof (sorted_lt _ _ _ _ _ Hs Ha Hb). lia.
Qed.

Lemma sorted_snoc gens a b :
  StronglySorted lt gens -> last gens = Some a -> a < b -> StronglySorted lt (gens ++ [b]).
Proof.
  intros Hs Hl Hlt. apply StronglySorted_app. split_and!; [|done|by repeat constructor].
  intros x y Hx Hy. apply list_elem_of_singleton in Hy as ->. apply list_elem_of_lookup in Hx as [i Hi].
  pose proof (sorted_last _ _ _ _ Hs Hi Hl). lia.
Qed.

(** The numbering after a step: as before, or with a new allocation installed. *)
Definition gens_step gens cl cl' gens' : Prop :=
  (gens' = gens /\ current cl' = current cl) \/
  (gens' = gens ++ [p_gen (current cl')] /\ p_gen (current cl) < p_gen (current cl')).

(** The cell is left alone, or thread [t] makes an access. *)
Definition moves (t : nat) s s' : Prop := s' = s \/ exists a, SnapMachine.step t a s = Ok s'.

Lemma moves_reachable t s s' : SnapMachine.reachable s -> moves t s s' -> SnapMachine.reachable s'.
Proof. intros Hs [->|[a Ha]]; [done|]. by econstructor. Qed.

Lemma gens_step_prefix gens cl cl' gens' : gens_step gens cl cl' gens' -> gens `prefix_of` gens'.
Proof. intros [[-> _]|[-> _]]; [done|]. by eexists. Qed.

Lemma match_others t gens gens' s s' cl cl' u c a :
  SnapMachine.reachable s -> moves t s s' -> gens_step gens cl cl' gens' ->
  cells s !! handlers_cell = Some cl -> cells s' !! handlers_cell = Some cl' -> u <> t ->
  thread_match gens s cl u c a -> thread_match gens' s' cl' u c a.
Proof.
  intros Hs Hm Hg Hc Hc' Hne Ha. pose proof (moves_reachable _ _ _ Hs Hm) as Hs'.
  destruct c as [[cst|]|], a as [[ast|]|]; try done. simpl in *. destruct Hm as [->|[x Hx]].
  - simplify_eq. destruct Hg as [[-> _]|[_ ?]]; [done|lia].
  - eapply (thread_rel_stable s s' gens gens'); try done; [by apply reachable_inv|by apply reachable_inv| |].
    + eapply step_evolves; [|done]. by apply reachable_inv.
    + by eapply gens_step_prefix.
Qed.

Lemma sim_next gens gens' F F' m m' t s' cl cl' l' tc ta :
  sim gens F m -> moves t (snap F) s' -> snap F' = s' ->
  cells (snap F) !! handlers_cell = Some cl -> cells s' !! handlers_cell = Some cl' ->
  deref (current cl') s' = Some l' -> gens_step gens cl cl' gens' ->
  mw m' = with_list l' (fw F') -> length (lists m') = length gens' -> alive (fw F') = true ->
  fhalted F' = halted m' -> fthreads F' = <[t := tc]> (fthreads F) -> threads m' = <[t := ta]> (threads m) ->
  thread_match gens' s' cl' t (Some tc) (Some ta) -> sim gens' F' m'.
Proof.
  intros [Hr (cl0 & l & Hc0 & Hlast & Hl & Hw & Hth) Hsort Hlen Hal Hh] Hm <- Hc Hc' Hl' Hg Hw' Hlen' Hal' Hh' HF Hm' Ht.
  simplify_eq. split; try done.
  - by eapply moves_reachable.
  - exists cl', l'. split_and!; try done.
    + destruct Hg as [[-> ->]|[-> _]]; [done|]. by rewrite last_snoc.
    + intros u. rewrite HF, Hm'. destruct (decide (u = t)) as [->|Hne]; [by rewrite !lookup_insert_eq|].
      rewrite !lookup_insert_ne by done. by eapply match_others.
  - destruct Hg as [[-> _]|[-> Hlt]]; [done|]. by eapply sorted_snoc.
Qed.

(** SyncThreads stands still ([None]), or thread [t] makes a step. *)
Definition image (t : nat) (o : option bool) m m' : Prop :=
  match o with None => m' = m | Some b => step t b m = Some m' end.

Definition simulated (t : nat) (o : option bool) F' m : Prop :=
  exists gens' m', image t o m m' /\ sim gens' F' m'.

(** The thread's own frames below the call it is in. *)
Lemma kept_below t s s' f f' sst :
  th_stack (thread_of s t) = f :: sst ->
  th_stack (thread_of s' t) = sst \/ th_stack (thread_of s' t) = f' :: sst -> kept s s' t sst.
Proof. intros H1 [H2|H2] sf Hin; rewrite H1, H2; split; try done; by right. Qed.

Section Own.
Context gens F m (t : nat) cst ast (Hsim : sim gens F m) (Hh : fhalted F = false).
Context (Hf : fthreads F !! t = Some (CRunning cst)) (Ha : threads m !! t = Some (Running ast)).

(** An access that has no effect above. *)
Lemma sim_tau s' cl cl' cst' :
  moves t (snap F) s' -> cells (snap F) !! handlers_cell = Some cl -> cells s' !! handlers_cell = Some cl' ->
  current cl' = current cl -> thread_rel gens s' cl' t cst' ast ->
  simulated t None (cmove t (fw F) s' (CGoto cst') F) m.
Proof.
  intros Hm Hc Hc' Hcur Hr. exists gens, m. split; [done|].
  pose proof Hsim as [Hre (cl0 & l & Hc0 & Hlast & Hl & Hw & Hth) Hsort Hlen Hal Hhh]. simplify_eq.
  assert (deref (current cl') s' = Some l) as Hl'.
  { destruct Hm as [->|[x Hx]]; [congruence|]. rewrite <- Hl.
    assert (inv (snap F)) by (by apply reachable_inv).
    eapply (current_value_stable (snap F)); try done; [|by eapply step_evolves].
    apply reachable_inv. by econstructor. }
  eapply (sim_next gens gens F _ m m t s' cl cl' l (CRunning cst') (Running ast)); try done; [by left|].
  by rewrite insert_id.
Qed.

(** An access that is a step above. *)
Lemma sim_image s' gens' w' cl cl' l' cst' b a' ast' :
  moves t (snap F) s' -> cells (snap F) !! handlers_cell = Some cl -> cells s' !! handlers_cell = Some cl' ->
  deref (current cl') s' = Some l' -> gens_step gens cl cl' gens' ->
  local_step (may_return m t) b (version m) (length (snaps m)) ast (mw m) = Some (a', Goto ast') ->
  apply_action a' (mw m) = with_list l' w' -> alive w' = true ->
  (publishes a' (mw m) = true <-> gens' <> gens) ->
  thread_rel gens' s' cl' t cst' ast' -> simulated t (Some b) (cmove t w' s' (CGoto cst') F) m.
Proof.
  intros Hm Hc Hc' Hl' Hg Hstep Hw Hal Hp Hr.
  pose proof Hsim as [_ _ _ Hlen _ Hhh]. rewrite Hh in Hhh.
  exists gens', (move t (Goto ast') (perform t a' m)). split.
  { unfold image, step. by rewrite <- Hhh, Ha, Hstep. }
  eapply (sim_next gens gens' F _ m _ t s' cl cl' l' (CRunning cst') (Running ast')); try done; [|simpl; congruence].
  simpl. destruct Hg as [[-> _]|[-> _]], (publishes a' (mw m)); simpl.
  - destruct Hp as [Hp _]. by destruct Hp.
  - done.
  - by rewrite !length_app, Hlen.
  - destruct Hp as [_ Hp]. discriminate Hp. intros E1. apply (f_equal length) in E1.
    rewrite length_app in E1. simpl in E1. lia.
Qed.
End Own.
End Steps.
