(* ===== verification/CellAccess.v ===== *)
(** Accesses inside a call of the cell and their images in SyncThreads. *)
From S2P Require Import Prelude HandlerId HandlerList HandlerStore PanicInfo Hazard SnapCell.
From S2P Require Import SnapMachine SnapHazardInv SnapArcInv SnapLockInv SnapProtect SnapSafety SnapSpec SnapWait.
From S2P Require Import RegistryConc RegistryWait CellCalls SyncRegistry CellRegistry SyncThreads SyncThreadsExec.
From S2P Require Import CellSim CellSteps.

Section Access.
Context {E O : Type}.
Abbreviation Vec := (list (HandlerEntry (stored E O))).
Abbreviation sframe := (SnapMachine.frame Vec).
Abbreviation aframe := (SyncThreads.frame E O).
Implicit Types (s : SnapMachine.state Vec) (cl : cell Vec) (l : Vec) (w : world E O unit) (gens : list nat).
Implicit Types (cst : list (cframe E O)) (sst : list sframe) (ast : list aframe) (sf : sframe).
Implicit Types (F : full E O) (m : machine E O).

(** ** Dispatches on both sides *)

Lemma stack_rel_dispatch gens s cst sst ast n v fb e l k :
  stack_rel gens s cst sst ast -> FDispatch n v fb e l k ∈ ast ->
  exists sf l', sf ∈ sst /\ held gens s sf v fb l'.
Proof.
  induction 1; intros Hin; [by apply elem_of_nil in Hin|..]; apply elem_of_cons in Hin as [Heq|Hin]; try done;
    try (by apply IHstack_rel).
  - injection Heq as -> -> -> -> _ _. eexists _, _. split; [left|done].
  - destruct (IHstack_rel Hin) as (sf' & l' & Hs & Hh). exists sf', l'. split; [by right|done].
Qed.

Lemma settled_dispatch gens s cst sst ast n v fb e l k :
  settled gens s cst sst ast -> FDispatch n v fb e l k ∈ ast ->
  exists sf l', sf ∈ sst /\ held gens s sf v fb l'.
Proof.
  intros Hse Hin. destruct Hse as [cst sst ast Hr|op b u ver cst sst ast Hr Hg|q sf v' fb' l' n' cst sst ast Hh Hr].
  - by eapply stack_rel_dispatch.
  - eapply stack_rel_dispatch; [done|]. unfold follows in Hin. destruct u as [wt k'|id pl].
    + by destruct (wt && b); apply elem_of_cons in Hin as [|Hin].
    + destruct pl; [|done]. by apply elem_of_cons in Hin as [|Hin].
  - apply elem_of_cons in Hin as [Heq|Hin].
    + destruct q; try done. injection Heq as -> -> -> -> _ _. eexists _, _. split; [left|done].
    + eapply stack_rel_dispatch in Hr as (sf0 & l0 & Hs & Hh0); [|done]. exists sf0, l0. split; [by right|done].
Qed.

Lemma above_dispatch ast0 ast f : above ast0 ast -> f ∈ ast0 -> is_dispatch f = true -> f ∈ ast.
Proof.
  intros (top & -> & Htop) [Hf|Hf]%elem_of_app Hd; [|done].
  eapply Forall_forall in Htop; [|done]. congruence.
Qed.

Lemma rel_dispatch gens s cl u cst ast n v fb e l k :
  thread_rel gens s cl u cst ast -> FDispatch n v fb e l k ∈ ast ->
  exists sf l', sf ∈ th_stack (thread_of s u) /\ held gens s sf v fb l'.
Proof.
  intros Hr Hin. assert (forall f sst, th_stack (thread_of s u) = f :: sst ->
    (exists sf l', sf ∈ sst /\ held gens s sf v fb l') ->
    exists sf l', sf ∈ th_stack (thread_of s u) /\ held gens s sf v fb l') as Hup.
  { intros f sst E1 (sf & l' & Hs & Hh). exists sf, l'. rewrite E1. split; [by right|done]. }
  destruct Hr as [cst sst ast Hst Hse|f cst sst ast Hat Hse|f q cst sst ast0 ast Hat [Hb _] Hr
    |f op uu d cst sst ast0 ast Hat [Hb _] Hr|f since cof sg g0 k0 cst sst ast Hat Hg Hle Hr].
  - subst sst. by eapply settled_dispatch.
  - eapply Hup; [apply Hat|]. by eapply settled_dispatch.
  - eapply Hup; [apply Hat|]. eapply stack_rel_dispatch; [done|]. by eapply above_dispatch.
  - eapply Hup; [apply Hat|]. eapply stack_rel_dispatch; [done|]. by eapply above_dispatch.
  - eapply Hup; [apply Hat|]. eapply stack_rel_dispatch; [done|]. by apply elem_of_cons in Hin as [|Hin].
Qed.

(** A wait that returns over the cell may return above. *)
Lemma sim_may_return gens F m t cof round sg sst since g0 :
  sim gens F m -> th_stack (thread_of (snap F) t) = FWaitHead handlers_cell cof round sg [] :: sst ->
  gens !! since = Some g0 -> g0 <= sg -> may_return m t since cof = true.
Proof.
  intros [Hre (cl & l & Hc & Hlast & Hl & Hw & Hth) Hsort Hlen Hal Hh] Hst Hg0 Hle.
  destruct (wait_inv_done _ _ _ _ _ _ _ Hre Hst) as [Hhz Hfb].
  apply forallb_forall. intros [u th] Hin%list_elem_of_In%elem_of_map_to_list. simpl.
  destruct (decide (u = t)) as [->|Hne]; [by rewrite bool_decide_eq_true_2|apply orb_true_iff; right].
  destruct th as [ast|fl]; [simpl|done]. apply forallb_forall. intros f Hf%list_elem_of_In.
  destruct f as [| | |n v fb e rest k| | | |]; try done.
  specialize (Hth u). rewrite Hin in Hth. destruct (fthreads F !! u) as [[cst|]|]; try done. simpl in Hth.
  destruct (rel_dispatch _ _ _ _ _ _ _ _ _ _ _ _ Hth Hf) as (sf & l' & Hsf & Hheld).
  assert (forall g, sg <= g -> gens !! v = Some g -> bool_decide (since <= v) = true) as Hnum.
  { intros g Hg Hv. apply bool_decide_eq_true_2. eapply sorted_le; [done..|lia]. }
  destruct Hheld as [p g i v l0 Hv Hd|arc v l0 Hv Hd]; simpl.
  - eapply Hnum; [|done]. by eapply Hhz.
  - destruct cof; simpl; [done|]. eapply Hnum; [|done]. by eapply Hfb.
Qed.

(** ** The accesses *)

Lemma stack_rel_rest gens s cst sst ast : stack_rel gens s cst sst ast -> at_rest sst = true.
Proof. induction 1 as [| | | | | | |? ? ? ? ? ? ? ? ? ? ? Hh]; try done. by destruct Hh. Qed.

Lemma settled_rest gens s cst sst ast : settled gens s cst sst ast -> at_rest sst = true.
Proof.
  intros [cst' sst' ast' Hr|op b u ver cst' sst' ast' Hr Hg|q sf v fb l n cst' sst' ast' Hh Hr];
    [by eapply stack_rel_rest..|]. by destruct Hh.
Qed.

Lemma stage_not_rest s t c cl f sst g : at_stage s t c cl f sst g -> at_rest (th_stack (thread_of s t)) = false.
Proof. intros [-> _ Hg]. by destruct f. Qed.

(** A thread at rest has no call that is still to take effect. *)
Lemma rest_settled gens s cl t cst ast :
  thread_rel gens s cl t cst ast -> at_rest (th_stack (thread_of s t)) = true ->
  exists sst, th_stack (thread_of s t) = sst /\ settled gens s cst sst ast.
Proof.
  intros Hr Hrest.
  destruct Hr as [? sst ? Hst Hse|? ? ? ? Hat|? ? ? ? ? ? Hat|? ? ? ? ? ? ? ? Hat|? ? ? ? ? ? ? ? ? Hat];
    [by exists sst|by rewrite (stage_not_rest _ _ _ _ _ _ _ Hat) in Hrest..].
Qed.

(** The caller of a call that has taken effect learns nothing more. *)
Lemma settled_settle gens s0 t s s' cst sst ast w :
  settled gens s0 cst sst ast -> settle t s s' cst w = (w, cst).
Proof. intros [? ? ? Hr|op b u ver ? ? ? Hr Hg|q sf v fb l n ? ? ? Hh Hr]; try done. by destruct Hr. Qed.

(** What the closure of an [update] answers. *)
Lemma closure_answer_none t s cl :
  cells s !! handlers_cell = Some cl -> writer cl = None -> closure_answer t s = None.
Proof. intros Hc Hw. unfold closure_answer. by rewrite Hc; simpl; rewrite Hw. Qed.

Lemma closure_answer_load t s cl upd l :
  cells s !! handlers_cell = Some cl -> writer cl = Some (t, CLoad upd) -> deref (current cl) s = Some l ->
  closure_answer t s = Some (is_some (upd l)).
Proof. intros Hc Hw Hl. unfold closure_answer. rewrite Hc. simpl. by rewrite Hw, decide_True, Hl. Qed.

(** The thread is inside an [update] that has not taken effect. *)
Definition update_pending (t : nat) s : bool :=
  match cells s !! handlers_cell, th_stack (thread_of s t) with
  | Some cl, f :: _ => match stage_of cl f with Some (SUpdate _ _) => true | _ => false end
  | _, _ => false
  end.

Lemma leave_not_pending t s cl f sst :
  cells s !! handlers_cell = Some cl -> at_stage s t handlers_cell cl f sst SLeave -> update_pending t s = false.
Proof. intros Hc [Hst _ Hg]. unfold update_pending. by rewrite Hc, Hst, Hg. Qed.

Section Own.
Context gens F m (t : nat) cst ast (Hsim : sim gens F m) (Hh : fhalted F = false).
Context (Hf : fthreads F !! t = Some (CRunning cst)) (Ha : threads m !! t = Some (Running ast)).
Context a s' (Hacc : is_access a = true) (Hstep : SnapMachine.step t a (snap F) = Ok s').
Context cl cl' l (Hc : cells (snap F) !! handlers_cell = Some cl) (Hc' : cells s' !! handlers_cell = Some cl').
Context (Hl : deref (current cl) (snap F) = Some l) (Hw : mw m = with_list l (fw F)).

Lemma own_moves : moves t (snap F) s'.
Proof. right. eauto. Qed.

Lemma own_stepped f sst g :
  at_stage (snap F) t handlers_cell cl f sst g -> stepped (snap F) s' t handlers_cell cl cl' sst g.
Proof.
  intros Hat. by eapply access_stepped; [apply Hsim|..].
Qed.

Lemma own_inv : inv (snap F) /\ inv s' /\ heap_evolves (snap F) s'.
Proof.
  pose proof (reachable_inv _ (sm_reach _ _ _ Hsim)) as Hi. split_and!; [done| |by eapply step_evolves].
  by eapply step_inv.
Qed.

(** The frames below the call, after the access. *)
Lemma own_stack_rel gens' f f' cst0 sst ast0 :
  gens `prefix_of` gens' -> th_stack (thread_of (snap F) t) = f :: sst ->
  th_stack (thread_of s' t) = sst \/ th_stack (thread_of s' t) = f' :: sst ->
  stack_rel gens (snap F) cst0 sst ast0 -> stack_rel gens' s' cst0 sst ast0.
Proof.
  intros Hp H1 H2. destruct own_inv as (Hi & Hi' & Hev).
  by eapply (stack_rel_stable (snap F) s' gens gens'); [..|eapply kept_below].
Qed.

Lemma own_value : current cl' = current cl -> deref (current cl') s' = Some l.
Proof. intros Hcur. rewrite <- Hl. destruct own_inv as (Hi & Hi' & Hev). by eapply current_value_stable. Qed.

Lemma own_version : gens !! version m = Some (p_gen (current cl)) /\ S (version m) = length gens.
Proof.
  pose proof Hsim as [_ (cl0 & _ & Hc0 & Hlast & _) _ Hlen _ _]. rewrite Hc in Hc0. injection Hc0 as <-.
  unfold version. rewrite Hlen. assert (length gens <> 0) by (destruct gens; [done|]; simpl; lia).
  split; [|lia]. rewrite last_lookup in Hlast. by replace (length gens - 1) with (pred (length gens)) by lia.
Qed.

Lemma leave_sim f sst :
  at_stage (snap F) t handlers_cell cl f sst SLeave -> settled gens (snap F) cst sst ast ->
  simulated t None (cmove t (fw F) s' (CGoto cst) F) m.
Proof.
  intros Hat Hse. pose proof (own_stepped _ _ _ Hat) as Hsp. destruct own_inv as (Hi & Hi' & Hev).
  inversion Hsp; subst; (eapply sim_tau; [done..|apply own_moves|done|done|done|]).
  - eapply tr_leave; [done|]. eapply (settled_stable (snap F) s' gens gens); try done.
    eapply kept_below; [apply Hat|right; apply Hat0].
  - eapply tr_rest; [done|]. eapply (settled_stable (snap F) s' gens gens); try done.
    eapply (kept_below _ _ _ _ f); [apply Hat|by left].
Qed.

(** The borrowed frame. *)
Lemma borrow_held f' sst :
  reads f' = Some (handlers_cell, current cl) -> at_rest (f' :: sst) = true -> current cl' = current cl ->
  exists fb, held gens s' f' (version m) fb l.
Proof.
  intros Hr Hrest Hcur. destruct own_version as [Hv _].
  pose proof (own_value Hcur) as Hd. rewrite Hcur in Hd.
  destruct f'; try done; simplify_eq/=.
  - exists false. apply held_hazard; [|rewrite <- H0 in Hd; done]. rewrite Hv. by rewrite <- H0.
  - exists true. by apply held_arc.
Qed.

Lemma read_sim f q cst0 sst ast1 :
  cst = CRead q :: cst0 -> at_stage (snap F) t handlers_cell cl f sst SEnter -> before_read q ast ast1 ->
  stack_rel gens (snap F) cst0 sst ast1 -> exists o, simulated t o (cmove t (fw F) s' (CGoto cst) F) m.
Proof.
  intros -> Hat Hb Hr. pose proof (own_stepped _ _ _ Hat) as Hsp. pose proof (as_stack _ _ _ _ _ _ _ Hat) as Hst.
  inversion Hsp; subst.
  - exists None. eapply sim_tau; [done..|apply own_moves|done|done|done|]. eapply tr_read; [done..|].
    eapply own_stack_rel; [done|done|right; apply Hat0|done].
  - destruct (borrow_held _ _ Hr0 Hrest Hcur) as [fb Hheld]. destruct Hb as [_ Hb].
    exists (Some fb). eapply (sim_image _ _ _ _ _ Hsim Hh Ha s' gens (fw F) cl cl' l _ fb);
      [apply own_moves|done|done|by apply own_value|by left|rewrite Hw; apply Hb|..].
    + rewrite Hw. by destruct q.
    + apply Hsim.
    + split; [by destruct q|done].
    + eapply tr_rest; [done|]. apply se_read; [done|]. eapply own_stack_rel; [done|done|by right|done].
Qed.

(** The access of an [update] that takes effect, with the closure's answer [o]. *)
Lemma update_image gens' f f' op u cst0 sst ast1 l' :
  at_stage (snap F) t handlers_cell cl f sst f' -> before_update op u ast ast1 ->
  stack_rel gens (snap F) cst0 sst ast1 -> l' = default l (reg_fn op l) -> deref (current cl') s' = Some l' ->
  gens_step gens cl cl' gens' -> (is_some (reg_fn op l) = true <-> gens' <> gens) ->
  (exists f1, at_stage s' t handlers_cell cl' f1 sst SLeave) ->
  simulated t (Some false) (cmove t (fw F) s' (CGoto (CUpdate op (Some (is_some (reg_fn op l))) u :: cst0)) F) m.
Proof.
  intros Hat (_ & _ & Hb) Hr -> Hl' Hg Hp [f1 Hat1]. destruct own_version as [_ Hv].
  pose proof (gens_step_prefix _ _ _ _ Hg) as Hpre.
  eapply (sim_image _ _ _ _ _ Hsim Hh Ha s' gens' (fw F) cl cl' _ _ false);
    [apply own_moves|done|done|done|done|rewrite Hw; apply Hb; apply Hsim|..].
  - by rewrite Hw, apply_op.
  - apply Hsim.
  - by rewrite Hw, publishes_op.
  - eapply tr_leave; [done|]. apply se_update; [eapply own_stack_rel; [done|apply Hat|right; apply Hat1|done]|].
    intros Hs%Hp. destruct Hg as [[? _]|[-> _]]; [done|]. rewrite Hv, lookup_app_r, Nat.sub_diag by lia. by eexists.
Qed.

Lemma update_sim f op u (d : bool) cst0 sst ast1 :
  cst = CUpdate op (if d then Some true else None) u :: cst0 ->
  at_stage (snap F) t handlers_cell cl f sst (SUpdate (reg_fn op) d) -> before_update op u ast ast1 ->
  stack_rel gens (snap F) cst0 sst ast1 ->
  exists o, (update_pending t s' = true -> o = None) /\
    simulated t o (cmove t (settle t (snap F) s' cst (fw F)).1 s' (CGoto (settle t (snap F) s' cst (fw F)).2) F) m.
Proof.
  intros -> Hat Hb Hr. pose proof (own_stepped _ _ _ Hat) as Hsp. pose proof (as_stack _ _ _ _ _ _ _ Hat) as Hst.
  assert (forall (f1 : sframe) (d' : bool), at_stage s' t handlers_cell cl' f1 sst (SUpdate (reg_fn op) d') -> current cl' = current cl ->
    exists o, (update_pending t s' = true -> o = None) /\
      simulated t o (cmove t (fw F) s' (CGoto (CUpdate op (if d' then Some true else None) u :: cst0)) F) m) as Htau.
  { intros f1 d' Hat1 Hcur. exists None. split; [done|]. eapply sim_tau; [done..|apply own_moves|done|done|done|]. eapply tr_update; [done..|].
    eapply own_stack_rel; [done|done|right; apply Hat1|done]. }
  inversion Hsp as [f' g Hat' Hcur Hg| | | |f' upd Hwr Hat' Hcur|f' upd v v' Hwr Hv Hup Hat' Hcur
    |f' upd v Hwr Hv Hup Hat' Hcur|f' upd v v' Hv Hup Hv' Hat' Hgen]; subst.
  - destruct d; [by eapply (Htau _ true)|]. by destruct (Hg (reg_fn op)).
  - simpl. rewrite (closure_answer_none t _ cl) by done. by eapply (Htau _ false).
  - simpl. rewrite (closure_answer_load t _ cl _ _ Hc Hwr Hv), Hup. by eapply (Htau _ true).
  - simpl. rewrite (closure_answer_load t _ cl _ _ Hc Hwr Hl). rewrite Hl in Hv. injection Hv as <-.
    exists (Some false). split; [by rewrite (leave_not_pending _ _ _ _ _ Hc' Hat')|].
    eapply (update_image gens); [done..|by rewrite Hup; apply own_value|by left|by rewrite Hup|by eexists].
  - rewrite Hl in Hv. injection Hv as <-. simpl.
    exists (Some false). split; [by rewrite (leave_not_pending _ _ _ _ _ Hc' Hat')|].
    replace true with (is_some (reg_fn op l)) by (by rewrite Hup).
    eapply (update_image (gens ++ [p_gen (current cl')])); [done..|by rewrite Hup|by right| |by eexists].
    rewrite Hup. split; [|done]. intros _ Heq. apply (f_equal length) in Heq. rewrite length_app in Heq. simpl in Heq. lia.
Qed.

Lemma wait_call_sim f since cof sg g0 k cst0 sst ast1 :
  cst = CWait k :: cst0 -> ast = FWait since cof k :: ast1 ->
  at_stage (snap F) t handlers_cell cl f sst (SWait cof sg) -> gens !! since = Some g0 -> g0 <= sg ->
  stack_rel gens (snap F) cst0 sst ast1 ->
  exists o, ((settle t (snap F) s' cst (fw F)).2 = cst -> o = None) /\
    simulated t o (cmove t (settle t (snap F) s' cst (fw F)).1 s' (CGoto (settle t (snap F) s' cst (fw F)).2) F) m.
Proof.
  intros -> -> Hat Hg0 Hle Hr. pose proof (own_stepped _ _ _ Hat) as Hsp. pose proof (as_stack _ _ _ _ _ _ _ Hat) as Hst.
  inversion Hsp as [f' g Hat' Hcur Hg| | |cof' round since' Hst0 Hst' Hcur| | | |]; subst; simpl.
  - rewrite (stage_not_rest _ _ _ _ _ _ _ Hat'). exists None. split; [done|]. eapply sim_tau; [done..|apply own_moves|done|done|done|].
    eapply tr_wait; [done..|]. eapply own_stack_rel; [done|done|right; apply Hat'|done].
  - rewrite (stack_rel_rest _ _ _ _ _ Hr). simpl. exists (Some false). split; [done|].
    eapply (sim_image _ _ _ _ _ Hsim Hh Ha s' gens _ cl cl' l _ false);
      [apply own_moves|done|done|by apply own_value|by left|..].
    + simpl. by rewrite (sim_may_return _ _ _ _ _ _ _ _ _ _ Hsim Hst0 Hg0 Hle).
    + by rewrite Hw.
    + apply Hsim.
    + by split.
    + eapply tr_rest; [done|]. apply se_stack, sr_run. eapply (own_stack_rel _ _ f); [done|done|by left|done].
Qed.
End Own.

(** A step of thread [t] from [cst] to [cst'] is silent above if [t] stays inside its
    [update] or its wait. *)
Definition label_ok (t : nat) s s' cst cst' (o : option bool) : Prop :=
  match cst with
  | CUpdate _ _ _ :: _ => (update_pending t s = false -> o = None) /\ (update_pending t s' = true -> o = None)
  | CWait _ :: _ => cst' = cst -> o = None
  | _ => True
  end.

(** Any access inside a call of the cell. *)
Lemma access_sim gens F m t a s' cst :
  sim gens F m -> fhalted F = false -> fthreads F !! t = Some (CRunning cst) ->
  at_rest (th_stack (thread_of (snap F) t)) = false -> is_access a = true ->
  SnapMachine.step t a (snap F) = Ok s' ->
  exists o, label_ok t (snap F) s' cst (settle t (snap F) s' cst (fw F)).2 o /\
    simulated t o (cmove t (settle t (snap F) s' cst (fw F)).1 s' (CGoto (settle t (snap F) s' cst (fw F)).2) F) m.
Proof.
  intros Hsim Hh Hf Hnr Hacc Hstep. pose proof Hsim as [Hre (cl & l & Hc & Hlast & Hl & Hw & Hth) _ _ _ _].
  destruct (step_keeps_cell _ _ _ _ handlers_cell Hstep) as [cl' Hc']; [by destruct a|by eexists|].
  specialize (Hth t). rewrite Hf in Hth. destruct (threads m !! t) as [[ast|]|] eqn:Ha; try done. simpl in Hth.
  destruct Hth as [cst sst ast Hst Hse|f cst sst ast Hat Hse|f q cst sst ast0 ast Hat Hb Hr
    |f op u d cst sst ast0 ast Hat Hb Hr|f since cof sg g0 k cst sst ast Hat Hg Hle Hr].
  - subst sst. by rewrite (settled_rest _ _ _ _ _ Hse) in Hnr.
  - rewrite (settled_settle _ _ _ _ _ _ _ _ _ Hse). exists None. split; [by destruct cst as [|[] ?]|]. by eapply leave_sim.
  - destruct (read_sim gens F m t (CRead q :: cst) ast0 Hsim Hh Hf Ha a s' Hacc Hstep cl cl' l Hc Hc' Hl Hw f q cst sst ast eq_refl Hat Hb Hr)
      as [o Ho]. by exists o.
  - destruct (update_sim gens F m t _ ast0 Hsim Hh Hf Ha a s' Hacc Hstep cl cl' l Hc Hc' Hl Hw f op u d cst sst ast eq_refl Hat Hb Hr)
      as (o & Hp & Ho). exists o. split; [|done]. split; [|done].
    intros Hnp. exfalso. revert Hnp. unfold update_pending. rewrite Hc, (as_stack _ _ _ _ _ _ _ Hat), (as_stage _ _ _ _ _ _ _ Hat). done.
  - destruct (wait_call_sim gens F m t _ _ Hsim Hh Hf Ha a s' Hacc Hstep cl cl' l Hc Hc' Hl Hw f since cof sg g0 k cst sst ast eq_refl eq_refl Hat Hg Hle Hr)
      as (o & Hp & Ho). by exists o.
Qed.
End Access.
