(* ===== verification/CellCode.v ===== *)
(** Steps of registry code over the cell and their images in SyncThreads; the simulation. *)
From S2P Require Import Prelude HandlerId HandlerList HandlerStore PanicInfo Hazard SnapCell.
From S2P Require Import SnapMachine SnapHazardInv SnapArcInv SnapLockInv SnapProtect SnapSafety SnapSpec SnapWait.
From S2P Require Import RegistryConc RegistryWait CellCalls SyncRegistry CellRegistry SyncThreads SyncThreadsExec.
From S2P Require Import CellSim CellSteps CellAccess.

Section Code.
Context {E O : Type}.
Abbreviation Vec := (list (HandlerEntry (stored E O))).
Abbreviation sframe := (SnapMachine.frame Vec).
Abbreviation aframe := (SyncThreads.frame E O).
Implicit Types (s : SnapMachine.state Vec) (cl : cell Vec) (l : Vec) (w : world E O unit) (gens : list nat).
Implicit Types (cst : list (cframe E O)) (sst : list sframe) (ast : list aframe) (sf : sframe).
Implicit Types (F : full E O) (m : machine E O) (k : prog E O).

(** ** Calls that are about to be made *)

Lemma above_cons (f : aframe) ast : is_dispatch f = false -> above (f :: ast) ast.
Proof. intros Hf. exists [f]. by repeat constructor. Qed.

Lemma before_unregister id (next : bool -> prog E O) ast :
  before_update (OpRemove id) (UProg false next) (FRun (Unregister id next) :: ast) ast.
Proof. split_and!; [by apply above_cons|done|]. intros quiet ver n l w _. simpl. by rewrite contains_removes. Qed.

Lemma before_unregister_wait id (next : bool -> prog E O) ast :
  before_update (OpRemove id) (UProg true next) (FRun (UnregisterAndWait id next) :: ast) ast.
Proof.
  split_and!; [by apply above_cons|by intros ? ? [= ->] [= ->]|].
  intros quiet ver n l w _. simpl. rewrite contains_removes.
  simpl. by destruct (remove_id_list id l).
Qed.

Lemma before_clear k ast : before_update OpClear (UProg false (fun _ => k)) (FRun (Clear k) :: ast) ast.
Proof. split_and!; [by apply above_cons|done..]. Qed.

Lemma before_clear_wait k ast : before_update OpClear (UProg true (fun _ => k)) (FRun (ClearAndWait k) :: ast) ast.
Proof. split_and!; [by apply above_cons|done|]. intros quiet ver n l w _. by destruct l. Qed.

Lemma before_guard g k ast :
  guard_registry g = true ->
  before_update (OpRemove (guard_id g)) (UProg false (fun _ => k)) (FRun (DropGuard g k) :: ast) ast.
Proof.
  intros Hg. split_and!; [by apply above_cons|done|]. intros quiet ver n l w Hal. simpl.
  unfold remove_if. rewrite Hg. simpl. by rewrite Hal.
Qed.

Lemma before_insert entry k ast :
  before_update (OpInsert entry) (UProg false (fun _ => k)) (FInsert entry k :: ast) ast.
Proof. split_and!; [by apply above_cons|done..]. Qed.

(** The program of a handler that is at its end. *)
Definition ended (pl : option payload) : prog E O := match pl with None => Ret | Some pl => Panic pl end.

Lemma before_once id oid pl ast :
  before_update (OpRemove oid) (UOnce id pl) (FRun (ended pl) :: FHandler id (Some oid) :: ast) ast.
Proof.
  split_and!; [|done|].
  - exists [FRun (ended pl); FHandler id (Some oid)]. by repeat constructor.
  - intros quiet ver n l w Hal. destruct pl; simpl; unfold remove_if; simpl; by rewrite Hal.
Qed.

Lemma before_contains id next ast : before_read (QContains id next) (FRun (Contains id next) :: ast) ast.
Proof. split; [by apply above_cons|done]. Qed.
Lemma before_count next ast : before_read (QCount next) (FRun (HandlerCount next) :: ast) ast.
Proof. split; [by apply above_cons|done]. Qed.
Lemma before_empty next ast : before_read (QEmpty next) (FRun (IsEmpty next) :: ast) ast.
Proof. split; [by apply above_cons|done]. Qed.
Lemma before_notify e k ast : before_read (QNotify e k) (FRun (Notify e k) :: ast) ast.
Proof. split; [by apply above_cons|done]. Qed.

Lemma rest_user sst : at_rest sst = true -> in_user_code sst = true.
Proof. by destruct sst as [|[] ?]. Qed.

Lemma stack_rel_level gens s cst sst ast :
  stack_rel gens s cst sst ast -> cnt is_cdispatch cst = level ast.
Proof. unfold level. induction 1; simpl; lia. Qed.

(** Fallback reads on both sides. *)
Lemma stack_rel_fallback gens s cst sst ast :
  stack_rel gens s cst sst ast -> on_fallback ast = bool_decide (0 < cnt fb_frame sst).
Proof.
  unfold on_fallback.
  induction 1 as [| | | | | | |e i k n v fb l sf cst sst ast Hh Hr IH]; simpl; try done.
  rewrite IH. by destruct Hh.
Qed.

(** ** One thread at rest *)

Section Own.
Context gens F m (t : nat) ast (Hsim : sim gens F m) (Hh : fhalted F = false).
Context (Ha : threads m !! t = Some (Running ast)) cl l (Hc : cells (snap F) !! handlers_cell = Some cl).
Context (Hl : deref (current cl) (snap F) = Some l) (Hw : mw m = with_list l (fw F)).
Context sst (Hst : th_stack (thread_of (snap F) t) = sst) (Hrest : at_rest sst = true).

(** A step of SyncThreads without an access to the list. *)
Lemma quiet_image w' cst' a' ast' :
  local_step (may_return m t) false (version m) (length (snaps m)) ast (with_list l (fw F)) = Some (a', Goto ast') ->
  apply_action a' (with_list l (fw F)) = with_list l w' -> alive w' = true ->
  publishes a' (with_list l (fw F)) = false -> settled gens (snap F) cst' sst ast' ->
  simulated t (Some false) (cmove t w' (snap F) (CGoto cst') F) m.
Proof.
  intros Hstep Hw' Hal Hp Hse. rewrite <- Hw in *.
  eapply (sim_image _ _ _ _ _ Hsim Hh Ha (snap F) gens w' cl cl l); try done; [by left|by left|by rewrite Hp|].
  by eapply tr_rest.
Qed.

(** The thread ends. *)
Lemma end_image fl :
  local_step (may_return m t) false (version m) (length (snaps m)) ast (with_list l (fw F)) = Some (ASkip, End fl) ->
  simulated t (Some false) (cmove t (fw F) (snap F) (CEnd fl) F) m.
Proof.
  intros Hstep. pose proof Hsim as [_ _ _ Hlen Hal Hhh]. rewrite Hh in Hhh.
  exists gens, (move t (End fl) (perform t ASkip m)). split.
  { unfold image, step. by rewrite <- Hhh, Ha, Hw, Hstep. }
  eapply (sim_next gens gens F _ m _ t (snap F) cl cl l (CEnded fl) (Ended fl)); try done; [by left|by left|].
  simpl. congruence.
Qed.

(** The process ends. *)
Lemma abort_image cst :
  fthreads F !! t = Some (CRunning cst) ->
  local_step (may_return m t) false (version m) (length (snaps m)) ast (with_list l (fw F)) = Some (ASkip, Abort) ->
  simulated t (Some false) (cmove t (fw F) (snap F) CAbort F) m.
Proof.
  intros Hf Hstep. pose proof Hsim as [_ (cl0 & l0 & Hc0 & _ & _ & _ & Hth) _ Hlen Hal Hhh].
  rewrite Hc in Hc0. injection Hc0 as <-. rewrite Hh in Hhh. specialize (Hth t).
  exists gens, (move t Abort (perform t ASkip m)). split.
  { unfold image, step. by rewrite <- Hhh, Ha, Hw, Hstep. }
  eapply (sim_next gens gens F _ m _ t (snap F) cl cl l (CRunning cst) (Running ast)); try done;
    [by left|by left|by rewrite insert_id|by rewrite insert_id|].
  by rewrite Hf, Ha in Hth.
Qed.

(** A call of the cell. *)
Lemma call_enters o s' :
  SnapMachine.step t (SnapMachine.ACall o) (snap F) = Ok s' ->
  exists f, op_entry o (thread_of (snap F) t) (snap F) = Some f /\ th_stack (thread_of s' t) = f :: sst /\
    cells s' = cells (snap F) /\ kept (snap F) s' t sst.
Proof.
  intros Hs. unfold SnapMachine.step in Hs. rewrite Hst in Hs. rewrite (rest_user _ Hrest) in Hs.
  destruct (op_entry o _ _) as [f|] eqn:Ho; [|done]. injection Hs as <-. exists f.
  split_and!; [done|apply stack_goto|done|]. intros sf Hin. rewrite stack_goto, Hst. split; [done|by right].
Qed.

Lemma own_stack_stable s' a cst0 sst0 ast0 :
  SnapMachine.step t a (snap F) = Ok s' -> kept (snap F) s' t sst0 ->
  stack_rel gens (snap F) cst0 sst0 ast0 -> stack_rel gens s' cst0 sst0 ast0.
Proof.
  intros Hs Hk. pose proof (reachable_inv _ (sm_reach _ _ _ Hsim)) as Hi.
  eapply (stack_rel_stable (snap F) s' gens gens); [done|by eapply step_inv|by eapply step_evolves|done|done].
Qed.

Lemma update_tau op u s' cst0 ast0 :
  SnapMachine.step t (SnapMachine.ACall (OUpdate handlers_cell (reg_fn op))) (snap F) = Ok s' ->
  before_update op u ast ast0 -> stack_rel gens (snap F) cst0 sst ast0 ->
  simulated t None (cmove t (fw F) s' (CGoto (CUpdate op None u :: cst0)) F) m.
Proof.
  intros Hs Hb Hr. destruct (call_enters _ _ Hs) as (f & Ho & Hst' & Hcells & Hk).
  simpl in Ho. rewrite Hc in Ho. injection Ho as <-.
  eapply (sim_tau _ _ _ _ _ Hsim Ha s' cl cl); [by right; eexists|done|by rewrite Hcells|done|].
  eapply (tr_update _ _ _ _ _ op u false); [|done|by eapply own_stack_stable]. by split.
Qed.

Lemma read_tau q s' cst0 ast0 :
  SnapMachine.step t (SnapMachine.ACall (ORead handlers_cell)) (snap F) = Ok s' ->
  before_read q ast ast0 -> stack_rel gens (snap F) cst0 sst ast0 ->
  simulated t None (cmove t (fw F) s' (CGoto (CRead q :: cst0)) F) m.
Proof.
  intros Hs Hb Hr. destruct (call_enters _ _ Hs) as (f & Ho & Hst' & Hcells & Hk).
  simpl in Ho. rewrite Hc in Ho. injection Ho as <-.
  eapply (sim_tau _ _ _ _ _ Hsim Ha s' cl cl); [by right; eexists|done|by rewrite Hcells|done|].
  eapply tr_read; [|done|by eapply own_stack_stable]. by split.
Qed.

Lemma wait_tau s' ver k cst0 ast0 :
  SnapMachine.step t (SnapMachine.ACall (OWait handlers_cell)) (snap F) = Ok s' ->
  ast = FWait (S ver) (on_fallback ast0) k :: ast0 -> is_Some (gens !! S ver) ->
  stack_rel gens (snap F) cst0 sst ast0 -> simulated t None (cmove t (fw F) s' (CGoto (CWait k :: cst0)) F) m.
Proof.
  intros Hs -> [g0 Hg0] Hr. destruct (call_enters _ _ Hs) as (f & Ho & Hst' & Hcells & Hk).
  simpl in Ho. rewrite Hc in Ho. injection Ho as <-.
  pose proof Hsim as [Hre (cl0 & _ & Hc0 & Hlast & _) Hsort _ _ _]. rewrite Hc in Hc0. injection Hc0 as <-.
  eapply (sim_tau _ _ _ _ _ Hsim Ha s' cl cl); [by right; eexists|done|by rewrite Hcells|done|].
  rewrite (stack_rel_fallback _ _ _ _ _ Hr).
  pose proof (reachable_depth _ t Hre) as Hd. unfold depth_ok in Hd. rewrite Hst in Hd. rewrite <- Hd.
  eapply tr_wait; [by split|done|by eapply sorted_last|by eapply own_stack_stable].
Qed.

(** The closure of a [read] ends. *)
Lemma return_leaves a sf sst0 s' v fb l0 :
  sst = sf :: sst0 -> held gens (snap F) sf v fb l0 -> a = AReturn \/ a = AUnwind ->
  SnapMachine.step t a (snap F) = Ok s' ->
  cells s' = cells (snap F) /\ kept (snap F) s' t sst0 /\
  exists f, at_stage s' t handlers_cell cl f sst0 SLeave.
Proof.
  intros E1 Hheld Hor Hs. unfold SnapMachine.step in Hs. rewrite Hst, E1 in Hs.
  assert (exists f, s' = goto t (thread_of (snap F) t) (f :: sst0) (snap F) /\
    frame_cell f = Some handlers_cell /\ stage_of cl f = Some SLeave) as (f & -> & Hcell & Hstage).
  { destruct Hheld, Hor as [->| ->]; simpl in Hs; injection Hs as <-; by eexists. }
  split_and!; [done| |].
  - eapply (kept_below _ _ _ sf f); [congruence|]. right. apply stack_goto.
  - exists f. split; [apply stack_goto|done..].
Qed.

Lemma borrowed_held sf sst0 v fb l0 :
  sst = sf :: sst0 -> held gens (snap F) sf v fb l0 -> borrowed t (snap F) = Some l0.
Proof. intros E1 Hheld. unfold borrowed. rewrite Hst, E1. by destruct Hheld. Qed.

(** A query has its answer. *)
Lemma answer_tau sf sst0 s' v fb l0 p cst0 ast0 :
  sst = sf :: sst0 -> held gens (snap F) sf v fb l0 -> SnapMachine.step t AReturn (snap F) = Ok s' ->
  ast = FRun p :: ast0 -> stack_rel gens (snap F) cst0 sst0 ast0 ->
  simulated t None (cmove t (fw F) s' (CGoto (CRun p :: cst0)) F) m.
Proof.
  intros E1 Hheld Hs -> Hr.
  destruct (return_leaves AReturn _ _ _ _ _ _ E1 Hheld (or_introl eq_refl) Hs) as (Hcells & Hk & f & Hat).
  eapply (sim_tau _ _ _ _ _ Hsim Ha s' cl cl); [by right; eexists|done|by rewrite Hcells|done|].
  eapply tr_leave; [done|]. apply se_stack, sr_run. by eapply own_stack_stable.
Qed.

(** A dispatch ends, by its last handler or by unwinding. *)
Lemma dispatch_leaves a sf sst0 s' v fb l0 p cst0 ast0 :
  sst = sf :: sst0 -> held gens (snap F) sf v fb l0 -> a = AReturn \/ a = AUnwind ->
  SnapMachine.step t a (snap F) = Ok s' ->
  local_step (may_return m t) false (version m) (length (snaps m)) ast (with_list l (fw F)) =
    Some (ASkip, Goto (FRun p :: ast0)) ->
  stack_rel gens (snap F) cst0 sst0 ast0 -> simulated t (Some false) (cmove t (fw F) s' (CGoto (CRun p :: cst0)) F) m.
Proof.
  intros E1 Hheld Hor Hs Hstep Hr.
  destruct (return_leaves a _ _ _ _ _ _ E1 Hheld Hor Hs) as (Hcells & Hk & f & Hat).
  pose proof (reachable_inv _ (sm_reach _ _ _ Hsim)) as Hi.
  eapply (sim_image _ _ _ _ _ Hsim Hh Ha s' gens (fw F) cl cl l);
    [by right; eexists|done|by rewrite Hcells| |by left|by rewrite Hw|done|apply Hsim|by split|].
  - rewrite <- Hl. eapply (current_value_stable (snap F)); try done; [by eapply step_inv|by eapply step_evolves|by rewrite Hcells].
  - eapply tr_leave; [done|]. apply se_stack, sr_run. by eapply own_stack_stable.
Qed.
End Own.

(** ** The steps of registry code *)

Section Registry.
Context gens F m (t : nat) ast (Hsim : sim gens F m) (Hh : fhalted F = false).
Context (Ha : threads m !! t = Some (Running ast)) cl l (Hc : cells (snap F) !! handlers_cell = Some cl).
Context (Hl : deref (current cl) (snap F) = Some l) (Hw : mw m = with_list l (fw F)).

(** What the cell answers to a request. *)
Definition cell_reply (oa : option (SnapMachine.action Vec)) : option (SnapMachine.state Vec) :=
  match oa with None => Some (snap F) | Some a => ok_state (SnapMachine.step t a (snap F)) end.

Lemma ok_state_Some (o : SnapMachine.outcome Vec) s' : ok_state o = Some s' -> o = Ok s'.
Proof. by destruct o; intros; simplify_eq/=. Qed.

Definition flow_of (pl : option payload) : flow := match pl with None => Done | Some pl => Panicked pl end.

(** The step of SyncThreads. *)
Definition image_is (r : option (action E O * next E O)) : Prop :=
  local_step (may_return m t) false (version m) (length (snaps m)) ast (with_list l (fw F)) = r.

(** The callback of [handle_panic] has ended, or there is none. *)
Lemma callback_call_sim sst cst pl hpl cst0 ast0 w' oa nx s' :
  th_stack (thread_of (snap F) t) = sst -> fthreads F !! t = Some (CRunning cst) ->
  stack_rel gens (snap F) cst0 sst ast0 ->
  image_is (resume (with_list l (fw F)) (flow_of pl) (FCallback hpl :: ast0)) ->
  cresume (fw F) pl (CCallback hpl :: cst0) = Some (w', oa, nx) -> cell_reply oa = Some s' ->
  exists o, simulated t o (cmove t w' s' nx F) m.
Proof.
  intros Hst Hf Hr Hstep Hc' Hs'. destruct Hr as [| | | | | | |e i k n v fb l0 sf cst1 sst1 ast1 Hheld Hr]; try done.
  unfold image_is in Hstep. simpl in Hc', Hstep.
  replace (match flow_of pl with Panicked q => Some q | _ => None end) with pl in Hstep by (by destruct pl).
  destruct (drop_both pl hpl) as [|r|] eqn:Hd; injection Hc' as <- <- <-; simpl in Hs'; simplify_eq.
  - eexists; eapply quiet_image; [done..|apply Hsim|done|]. apply se_stack. by constructor.
  - eexists; eapply (dispatch_leaves); [done..|by right|by apply ok_state_Some|done|done].
  - eexists; by eapply abort_image.
Qed.

Lemma resume_sim sst cst pl cst0 ast0 w' oa nx s' :
  th_stack (thread_of (snap F) t) = sst -> fthreads F !! t = Some (CRunning cst) ->
  ast = FRun (ended pl) :: ast0 -> stack_rel gens (snap F) cst0 sst ast0 ->
  cresume (fw F) pl cst0 = Some (w', oa, nx) -> cell_reply oa = Some s' -> exists o, simulated t o (cmove t w' s' nx F) m.
Proof.
  intros Hst Hf E1 Hr Hc' Hs'. pose proof (stack_rel_rest _ _ _ _ _ Hr) as Hrest.
  assert (image_is (resume (with_list l (fw F)) (flow_of pl) ast0)) as Hstep
    by (unfold image_is; rewrite E1; by destruct pl).
  destruct Hr as [| | |id once cst1 sst1 ast1 Hr| | |hpl cst1 sst1 ast1 Hr|]; try done.
  - injection Hc' as <- <- <-. simpl in Hs'. injection Hs' as <-. eexists; by eapply end_image.
  - simpl in Hc'. destruct once as [oid|].
    + rewrite (sm_alive _ _ _ Hsim) in Hc'. injection Hc' as <- <- <-. apply ok_state_Some in Hs'.
      eexists; eapply update_tau; [done..| |done]. rewrite E1. apply before_once.
    + injection Hc' as <- <- <-. simpl in Hs'. injection Hs' as <-. unfold image_is in Hstep.
      destruct pl; simpl in Hstep; (eexists; eapply quiet_image; [done..|apply Hsim|done|]); apply se_stack; [by constructor|done].
  - by eapply callback_call_sim.
Qed.

(** Steps of user code that do not access the list. *)
Lemma go_sim sst w k a' cst0 ast0 :
  th_stack (thread_of (snap F) t) = sst -> stack_rel gens (snap F) cst0 sst ast0 ->
  image_is (Some (a', Goto (FRun k :: ast0))) -> apply_action a' (with_list l (fw F)) = with_list l w ->
  alive w = alive (fw F) -> publishes a' (with_list l (fw F)) = false ->
  simulated t (Some false) (cmove t w (snap F) (CGoto (CRun k :: cst0)) F) m.
Proof.
  intros Hst Hr Hstep Happ Hal Hp. eapply quiet_image; [done..|rewrite Hal; apply Hsim|done|].
  by apply se_stack, sr_run.
Qed.

(** An id is issued. *)
Lemma issue_sim sst a' w entry k cst0 ast0 :
  th_stack (thread_of (snap F) t) = sst -> stack_rel gens (snap F) cst0 sst ast0 ->
  image_is (Some (a', Goto (FInsert entry k :: ast0))) -> apply_action a' (with_list l (fw F)) = with_list l w ->
  alive w = alive (fw F) -> publishes a' (with_list l (fw F)) = false ->
  simulated t (Some false) (cmove t w (snap F) (CGoto (CInsert entry k :: cst0)) F) m.
Proof.
  intros Hst Hr Hstep Happ Hal Hp. eapply quiet_image; [done..|rewrite Hal; apply Hsim|done|].
  by apply se_stack, sr_insert.
Qed.

Lemma prog_sim sst cst p cst0 ast0 w' oa nx s' :
  th_stack (thread_of (snap F) t) = sst -> fthreads F !! t = Some (CRunning cst) ->
  ast = FRun p :: ast0 -> stack_rel gens (snap F) cst0 sst ast0 ->
  cstep_prog p cst0 (fw F) = Some (w', oa, nx) -> cell_reply oa = Some s' -> exists o, simulated t o (cmove t w' s' nx F) m.
Proof.
  intros Hst Hf E1 Hr Hc' Hs'. pose proof (stack_rel_rest _ _ _ _ _ Hr) as Hrest.
  destruct p; simpl in Hc'.
  - by eapply (resume_sim _ _ None).
  - by eapply (resume_sim _ _ (Some p)).
  - injection Hc' as <- <- <-. injection Hs' as <-. eexists; eapply go_sim; [done..|unfold image_is; by rewrite E1|done|done|done].
  - injection Hc' as <- <- <-. injection Hs' as <-.
    eexists; eapply issue_sim; [done..|unfold image_is; by rewrite E1|done|done|done].
  - injection Hc' as <- <- <-. injection Hs' as <-.
    eexists; eapply issue_sim; [done..|unfold image_is; by rewrite E1|done|done|done].
  - injection Hc' as <- <- <-. apply ok_state_Some in Hs'. eexists; eapply update_tau; [done..|rewrite E1; apply before_unregister|done].
  - injection Hc' as <- <- <-. apply ok_state_Some in Hs'. eexists; eapply update_tau; [done..|rewrite E1; apply before_unregister_wait|done].
  - injection Hc' as <- <- <-. apply ok_state_Some in Hs'. eexists; eapply update_tau; [done..|rewrite E1; apply before_clear|done].
  - injection Hc' as <- <- <-. apply ok_state_Some in Hs'. eexists; eapply update_tau; [done..|rewrite E1; apply before_clear_wait|done].
  - injection Hc' as <- <- <-. apply ok_state_Some in Hs'. eexists; eapply read_tau; [done..|rewrite E1; apply before_contains|done].
  - injection Hc' as <- <- <-. apply ok_state_Some in Hs'. eexists; eapply read_tau; [done..|rewrite E1; apply before_count|done].
  - injection Hc' as <- <- <-. apply ok_state_Some in Hs'. eexists; eapply read_tau; [done..|rewrite E1; apply before_empty|done].
  - injection Hc' as <- <- <-. injection Hs' as <-. eexists; eapply go_sim; [done..|unfold image_is; by rewrite E1|done|done|done].
  - injection Hc' as <- <- <-. injection Hs' as <-. eexists; eapply go_sim; [done..|unfold image_is; by rewrite E1|done|done|done].
  - injection Hc' as <- <- <-. injection Hs' as <-. eexists; eapply go_sim; [done..|unfold image_is; by rewrite E1|done|done|done].
  - injection Hc' as <- <- <-. apply ok_state_Some in Hs'. eexists; eapply read_tau; [done..|rewrite E1; apply before_notify|done].
  - rewrite (sm_alive _ _ _ Hsim), andb_true_r in Hc'. destruct (guard_registry g) eqn:Hg.
    + injection Hc' as <- <- <-. apply ok_state_Some in Hs'. eexists; eapply update_tau; [done..|rewrite E1; by apply before_guard|done].
    + injection Hc' as <- <- <-. injection Hs' as <-.
      eexists; eapply go_sim; [done..|unfold image_is; rewrite E1; simpl; unfold remove_if; by rewrite Hg|done|done|done].
  - injection Hc' as <- <- <-. injection Hs' as <-. eexists; eapply go_sim; [done..|unfold image_is; by rewrite E1|done|done|done].
Qed.

(** The loop of [notify]. *)
Lemma dispatch_call_sim sf sst e i k n v fb l0 cst0 ast0 w' oa nx s' :
  th_stack (thread_of (snap F) t) = sf :: sst -> held gens (snap F) sf v fb l0 ->
  ast = FDispatch n v fb e (drop i l0) k :: ast0 -> stack_rel gens (snap F) cst0 sst ast0 ->
  cstep_dispatch e i k l0 cst0 (fw F) = Some (w', oa, nx) -> cell_reply oa = Some s' ->
  exists o, simulated t o (cmove t w' s' nx F) m.
Proof.
  intros Hst Hheld E1 Hr Hc' Hs'. pose proof (stack_rel_level _ _ _ _ _ Hr) as Hlev.
  assert (at_rest (sf :: sst) = true) as Hrest by (by destruct Hheld).
  unfold cstep_dispatch in Hc'. destruct (l0 !! i) as [entry|] eqn:Hi.
  - rewrite (drop_S _ _ _ Hi) in E1.
    assert (stack_rel gens (snap F) (CDispatch e (S i) k :: cst0) (sf :: sst)
      (FDispatch n v fb e (drop (S i) l0) k :: ast0)) as Hback by (by constructor).
    destruct (handler entry) as [h|slot id] eqn:Hhd.
    + injection Hc' as <- <- <-. injection Hs' as <-.
      eexists; eapply quiet_image; [done..|rewrite E1; simpl; by rewrite Hhd|simpl; by rewrite Hlev|apply Hsim|done|].
      by apply se_stack, sr_run, sr_handler.
    + simpl in Hc'. destruct (once_slots (fw F) !! slot) as [[h|]|] eqn:Hslot; injection Hc' as <- <- <-; injection Hs' as <-;
        (eexists; eapply quiet_image; [done..|rewrite E1; simpl; rewrite Hhd, Hslot; done|simpl; by rewrite Hlev|apply Hsim|done|]).
      * by apply se_stack, sr_run, sr_handler.
      * by apply se_stack.
      * by apply se_stack.
  - injection Hc' as <- <- <-. rewrite drop_ge in E1 by (by apply lookup_ge_None).
    eexists; eapply (dispatch_leaves _ _ _ _ _ Hsim Hh Ha _ _ Hc Hl Hw _ Hst AReturn); [done|done|by left|by apply ok_state_Some|by rewrite E1|done].
Qed.

(** Frames whose last call, if any, has taken effect and returned. *)
Lemma frame_sim sst cst ast1 w' oa nx s' :
  th_stack (thread_of (snap F) t) = sst -> fthreads F !! t = Some (CRunning cst) ->
  stack_rel gens (snap F) cst sst ast1 -> ast = ast1 -> registry_step t (snap F) cst (fw F) = Some (w', oa, nx) ->
  cell_reply oa = Some s' -> exists o, simulated t o (cmove t w' s' nx F) m.
Proof.
  intros Hst Hf Hr E1 Hc' Hs'. pose proof (stack_rel_rest _ _ _ _ _ Hr) as Hrest.
  destruct Hr as [|p cst sst ast1 Hr|entry k cst sst ast1 Hr|id once cst sst ast1 Hr|id pl cst sst ast1 Hr
    |id pl cst sst ast1 Hr|pl cst sst ast1 Hr|e i k n v fb l0 sf cst sst ast1 Hheld Hr]; simpl in Hc'; try done.
  - by eapply prog_sim.
  - injection Hc' as <- <- <-. apply ok_state_Some in Hs'. eexists; eapply update_tau; [done..|rewrite E1; apply before_insert|done].
  - injection Hc' as <- <- <-. injection Hs' as <-.
    eexists; eapply quiet_image; [done..|by rewrite E1|done|apply Hsim|done|]. by apply se_stack, sr_report.
  - destruct (panic_callback (reg (fw F))) as [holder|] eqn:Hcb.
    + injection Hc' as <- <- <-. injection Hs' as <-.
      eexists; eapply quiet_image; [done..|rewrite E1; simpl; by rewrite Hcb|done|apply Hsim|done|].
      by apply se_stack, sr_run, sr_callback.
    + eapply (callback_call_sim _ _ None); [done..| |done|done]. unfold image_is. rewrite E1. simpl. by rewrite Hcb.
  - rewrite (borrowed_held _ _ _ _ Hst _ _ _ _ _ eq_refl Hheld) in Hc'. by eapply dispatch_call_sim.
Qed.

(** Any step of registry code. *)
Lemma code_sim sst cst ast1 w' oa nx s' :
  th_stack (thread_of (snap F) t) = sst -> fthreads F !! t = Some (CRunning cst) ->
  settled gens (snap F) cst sst ast1 -> ast = ast1 -> registry_step t (snap F) cst (fw F) = Some (w', oa, nx) ->
  cell_reply oa = Some s' ->
  exists o, match cst with CUpdate _ _ _ :: _ => o = None | _ => True end /\ simulated t o (cmove t w' s' nx F) m.
Proof.
  intros Hst Hf Hse E1 Hc' Hs'. pose proof (settled_rest _ _ _ _ _ Hse) as Hrest.
  destruct Hse as [cst sst ast1 Hr|op b u ver cst sst ast1 Hr Hg|q sf v fb l0 n cst sst ast1 Hheld Hr].
  - destruct (frame_sim sst cst ast1 w' oa nx s') as [o Ho]; try done. exists o. split; [by destruct Hr|done].
  - simpl in Hc'. exists None. split; [done|]. destruct u as [wt next|id pl]; simpl in Hc', E1.
    + destruct (wt && b) eqn:Hwb; injection Hc' as <- <- <-.
      * apply andb_true_iff in Hwb as [_ ->]. apply ok_state_Some in Hs'. by eapply wait_tau; [..|apply Hg|].
      * injection Hs' as <-. eapply sim_tau; [done..|by left|done|done|done|].
        eapply tr_rest; [done|]. rewrite E1. by apply se_stack, sr_run.
    + injection Hc' as <- <- <-. injection Hs' as <-. eapply sim_tau; [done..|by left|done|done|done|].
      eapply tr_rest; [done|]. rewrite E1. apply se_stack. destruct pl; [by constructor|done].
  - simpl in Hc'. rewrite (borrowed_held _ _ _ _ Hst _ _ _ _ _ eq_refl Hheld) in Hc'. simpl in Hc'.
    exists None. split; [done|]. destruct q; simpl in Hc', E1; injection Hc' as <- <- <-;
      try (apply ok_state_Some in Hs'; by eapply answer_tau).
    injection Hs' as <-. eapply sim_tau; [done..|by left|done|done|done|].
    eapply tr_rest; [done|]. rewrite E1. apply se_stack.
    pose proof (sr_dispatch gens (snap F) e 0 k n v fb l0 sf cst sst ast1 Hheld Hr) as Hd. by rewrite drop_0 in Hd.
Qed.
End Registry.

(** ** The simulation *)

(** The stack of a thread. *)
Definition frames_of (t : nat) F : list (cframe E O) :=
  match fthreads F !! t with Some (CRunning cst) => cst | _ => [] end.

(** Every step of the registry over the cell is a step of SyncThreads of the same thread, or
    none. *)
Lemma fstep_simulated gens F m t a F' :
  sim gens F m -> fstep t a F = Some F' ->
  exists o, label_ok t (snap F) (snap F') (frames_of t F) (frames_of t F') o /\ simulated t o F' m.
Proof.
  intros Hsim Hs. unfold fstep in Hs. destruct (fhalted F) eqn:Hh; [done|].
  unfold frames_of. destruct (fthreads F !! t) as [[cst|]|] eqn:Hf; try done.
  destruct (at_rest (th_stack (thread_of (snap F) t))) eqn:Hrest.
  - apply bind_Some in Hs as ([[w oa] nx] & Hc' & Hs). apply bind_Some in Hs as (s' & Hs' & [= <-]).
    pose proof Hsim as [Hre (cl & l & Hc & Hlast & Hl & Hw & Hth) _ _ _ _].
    specialize (Hth t). rewrite Hf in Hth. destruct (threads m !! t) as [[ast|]|] eqn:Ha; try done. simpl in Hth.
    destruct (rest_settled _ _ _ _ _ _ Hth Hrest) as (sst & Hst & Hse).
    destruct (code_sim gens F m t ast Hsim Hh Ha cl l Hc Hl Hw sst cst ast w oa nx s') as (o & Ho & Hsi); try done.
    exists o. split; [|done]. destruct cst as [|[] cst]; try done.
  - destruct (is_access a) eqn:Hacc; [|done]. apply bind_Some in Hs as (s' & Hs' & Hs).
    apply ok_state_Some in Hs'. destruct (access_sim _ _ _ _ _ _ _ Hsim Hh Hf Hrest Hacc Hs') as (o & Ho & Has).
    exists o. destruct (settle t (snap F) s' cst (fw F)) as [w st]. injection Hs as <-. split; [|done].
    simpl. by rewrite lookup_insert_eq.
Qed.

Lemma sim_start x (ps : gmap nat (prog E O)) : sim [0] (fstart x ps) (start world_new ps).
Proof.
  split; [| |repeat constructor|done..].
  - by apply (SnapMachine.reach_step init 0 (ANew handlers_cell [] x)); [constructor|].
  - exists (Cell (Ptr x 0) 0 0 None []), []. split_and!; [done|done| |done|].
    + change (b_val <$> <[x := Block 0 ([] : Vec) 1]> (heap init) !! x = Some []). by rewrite lookup_insert_eq.
    + intros t. simpl. rewrite !lookup_fmap. destruct (ps !! t) as [p|]; [|done]. simpl.
      eapply tr_rest; [done|]. apply se_stack, sr_run, sr_nil.
Qed.

Lemma image_reachable ps t o m m' : reachable ps m -> image t o m m' -> reachable ps m'.
Proof. destruct o; simpl; [by econstructor|by intros ? ->]. Qed.

Lemma freachable_sim x ps F :
  freachable x ps F -> exists gens m, reachable ps m /\ sim gens F m.
Proof.
  induction 1 as [|t a F F' HF (gens & m & Hm & Hsim) Hs].
  - exists [0], (start world_new ps). split; [constructor|apply sim_start].
  - destruct (fstep_simulated _ _ _ _ _ _ Hsim Hs) as (o & _ & gens' & m' & Ho & Hsim').
    exists gens', m'. split; [by eapply image_reachable|done].
Qed.
End Code.
