(* ===== verification/CellTheorems.v ===== *)
(** The synchronous registry over the concurrent cell: the code of src/src/sync/mod.rs,
    src/src/snapshot.rs and src/src/hazard.rs put together. *)
From S2P Require Import Prelude HandlerId HandlerList HandlerStore PanicInfo Hazard SnapCell.
From S2P Require Import SnapMachine SnapHazardInv SnapArcInv SnapLockInv SnapProtect SnapSafety SnapSpec SnapWait.
From S2P Require Import RegistryConc RegistryWait CellCalls SyncRegistry SyncProofs SyncRefine SyncWf CellRegistry.
From S2P Require Import SyncThreads SyncThreadsExec SyncThreadsInv SyncThreadsTheorems CellSim CellSteps CellAccess CellCode.

Section Theorems.
Context {E O : Type}.
Abbreviation Vec := (list (HandlerEntry (stored E O))).
Abbreviation aframe := (SyncThreads.frame E O).
Implicit Types (s : SnapMachine.state Vec) (cl : cell Vec) (l : Vec) (w : world E O unit) (gens : list nat).
Implicit Types (cst : list (cframe E O)) (ast : list aframe) (ps : gmap nat (prog E O)).
Implicit Types (F : full E O) (m : machine E O) (k : bool -> prog E O).

(** ** Handlers on both sides *)

Lemma stack_rel_handler gens s cst sst ast id once :
  stack_rel gens s cst sst ast -> CHandler id once ∈ cst -> FHandler id once ∈ ast.
Proof.
  induction 1; intros Hin; [by apply elem_of_nil in Hin|..]; apply elem_of_cons in Hin as [Heq|Hin];
    simplify_eq; try (right; by auto). left.
Qed.

Lemma settled_handler gens s cst sst ast id once :
  settled gens s cst sst ast -> CHandler id once ∈ cst -> FHandler id once ∈ ast.
Proof.
  intros Hse Hin. destruct Hse as [cst sst ast Hr|op b u ver cst sst ast Hr Hg|q sf v fb l n cst sst ast Hh Hr].
  - by eapply stack_rel_handler.
  - apply elem_of_cons in Hin as [|Hin]; [done|]. pose proof (stack_rel_handler _ _ _ _ _ _ _ Hr Hin) as Ha.
    unfold follows. destruct u as [wt k|id' pl]; [destruct (wt && b); by right|destruct pl; [by right|done]].
  - apply elem_of_cons in Hin as [|Hin]; [done|]. right. by eapply stack_rel_handler.
Qed.

Lemma above_elem ast0 ast (f : aframe) : above ast0 ast -> f ∈ ast -> f ∈ ast0.
Proof. intros (top & -> & _) Hf. apply elem_of_app. by right. Qed.

Lemma rel_handler gens s cl t cst ast id once :
  thread_rel gens s cl t cst ast -> CHandler id once ∈ cst -> FHandler id once ∈ ast.
Proof.
  intros Hr Hin.
  destruct Hr as [cst sst ast Hst Hse|f cst sst ast Hat Hse|f q cst sst ast0 ast Hat [Hb _] Hr
    |f op uu d cst sst ast0 ast Hat [Hb _] Hr|f since cof sg g0 k0 cst sst ast Hat Hg Hle Hr].
  - by eapply settled_handler.
  - by eapply settled_handler.
  - apply elem_of_cons in Hin as [|Hin]; [done|]. eapply above_elem; [done|]. by eapply stack_rel_handler.
  - apply elem_of_cons in Hin as [|Hin]; [done|]. eapply above_elem; [done|]. by eapply stack_rel_handler.
  - apply elem_of_cons in Hin as [|Hin]; [done|]. right. by eapply stack_rel_handler.
Qed.

(** ** Refinement *)

(** What a state of the registry over the cell shows of itself, compared with a state of
    SyncThreads: the registry with the list that is in memory, whether the process runs, how
    the threads have ended, and which handlers they are inside. *)
Record shows F m : Prop := {
  sh_world : exists l, abs (snap F) !! handlers_cell = Some l /\ mw m = with_list l (fw F);
  sh_halted : fhalted F = halted m;
  sh_ended t fl : fthreads F !! t = Some (CEnded fl) <-> threads m !! t = Some (Ended fl);
  sh_inside t cst id once : fthreads F !! t = Some (CRunning cst) -> CHandler id once ∈ cst ->
    exists ast, threads m !! t = Some (Running ast) /\ FHandler id once ∈ ast;
}.

Lemma sim_shows gens F m : sim gens F m -> shows F m.
Proof.
  intros [Hre (cl & l & Hc & Hlast & Hl & Hw & Hth) Hsort Hlen Hal Hh]. split; [|done|..].
  - exists l. split; [|done]. by rewrite abs_lookup, Hc.
  - intros t fl. specialize (Hth t). destruct (fthreads F !! t) as [[]|], (threads m !! t) as [[]|]; naive_solver.
  - intros t cst id once Hf Hin. specialize (Hth t). rewrite Hf in Hth.
    destruct (threads m !! t) as [[ast|]|]; try done. exists ast. split; [done|]. by eapply rel_handler.
Qed.

(** Frames that look at the borrowed list. *)
Definition needs_list (f : cframe E O) : bool :=
  match f with CRead _ | CDispatch _ _ _ => true | _ => false end.

Lemma frames_of_running t F f cst : frames_of t F = f :: cst -> fthreads F !! t = Some (CRunning (f :: cst)).
Proof. unfold frames_of. destruct (fthreads F !! t) as [[]|]; congruence. Qed.

(** The relation of a running thread. *)
Lemma sim_thread gens F m t cst :
  sim gens F m -> fthreads F !! t = Some (CRunning cst) ->
  exists cl ast, cells (snap F) !! handlers_cell = Some cl /\ threads m !! t = Some (Running ast) /\
    thread_rel gens (snap F) cl t cst ast.
Proof.
  intros [_ (cl & l & Hc & _ & _ & _ & Hth) _ _ _ _] Hf. specialize (Hth t). rewrite Hf in Hth.
  destruct (threads m !! t) as [[ast|]|]; try done. by exists cl, ast.
Qed.

Lemma sim_borrowed gens F m t f cst :
  sim gens F m -> frames_of t F = f :: cst -> needs_list f = true ->
  at_rest (th_stack (thread_of (snap F) t)) = true -> is_Some (borrowed t (snap F)).
Proof.
  intros Hsim Hf%frames_of_running Hn Hrest. destruct (sim_thread _ _ _ _ _ Hsim Hf) as (cl & ast & Hc & _ & Hr).
  destruct (rest_settled _ _ _ _ _ _ Hr Hrest) as (sst & Hst & Hse).
  inversion Hse as [? ? ? Hs|op b u ver ? ? ? Hs Hg|q sf v fb l0 n ? sst0 ? Hheld Hs]; subst; try done.
  - inversion Hs; subst; try done. eexists. by eapply borrowed_held.
  - eexists. by eapply borrowed_held.
Qed.

(** (C1) The crate as a whole: [SyncRegistry] with its list in a [SnapCell] over hazard
    pointers behaves as the registry whose list is read and replaced in one step, and whose
    waits return when no other thread dispatches over an older list.  Whatever programs the
    threads run, and however their accesses to memory interleave, every reachable state
    [shows] what some reachable state of SyncThreads does: the same effects, ids, counters
    and callback, the list found in memory, the same ends of threads, and no handler is
    running that is not running there.  No access on the way is undefined behaviour, and
    dispatches and queries always find the list they borrowed. *)
Theorem crate_refines x ps F :
  freachable x ps F ->
  (exists m, reachable ps m /\ shows F m) /\
  (forall t a, SnapMachine.step t a (snap F) <> UB) /\
  (forall t f cst, frames_of t F = f :: cst -> needs_list f = true ->
     at_rest (th_stack (thread_of (snap F) t)) = true -> is_Some (borrowed t (snap F))).
Proof.
  intros (gens & m & Hm & Hsim)%freachable_sim.
  split; [exists m; split; [done|by eapply sim_shows]|].
  split; [intros t a; apply step_safe, reachable_inv, Hsim|].
  intros t f cst Hf Hn Hrest. by eapply sim_borrowed.
Qed.

(** ** A call of [unregister_and_wait] *)

(** Thread [t] is inside [unregister_and_wait(id)]: in [remove_id], which has not answered
    [false], or in the wait. *)
Definition inside (id : HandlerId) k cst (t : nat) F : Prop :=
  frames_of t F = CUpdate (OpRemove id) None (UProg true k) :: cst \/
  frames_of t F = CUpdate (OpRemove id) (Some true) (UProg true k) :: cst \/
  frames_of t F = CWait (k true) :: cst.

(** A property of all states of a run. *)
Fixpoint throughout (Q : full E O -> Prop) (sched : list (nat * SnapMachine.action Vec)) F : Prop :=
  Q F /\
  match sched with
  | [] => True
  | (u, a) :: sched => match fstep u a F with Some F' => throughout Q sched F' | None => True end
  end.

(** Its image: before the removal the state alone says where SyncThreads is; after it, there
    was a removal, and the wait it was made for has not returned. *)
Inductive tracked ps (id : HandlerId) k (t : nat) F m : Prop :=
  | tk_before (Hp : update_pending t (snap F) = true)
  | tk_after m0 m1 b sched ast cof (Hp : update_pending t (snap F) = false) (Hm0 : reachable ps m0)
      (Ht0 : threads m0 !! t = Some (Running (FRun (UnregisterAndWait id k) :: ast)))
      (Hin : contains id (reg (mw m0)) = true) (Hs : step t b m0 = Some m1) (Hr : run sched m1 = Some m)
      (Ht : threads m !! t = Some (Running (FWait (S (version m0)) cof (k true) :: ast))).

(** The stage of a call as the stack shows it. *)
Lemma pending_stage t s cl f sst g :
  cells s !! handlers_cell = Some cl -> at_stage s t handlers_cell cl f sst g ->
  update_pending t s = match g with SUpdate _ _ => true | _ => false end.
Proof. intros Hc [Hst _ Hg]. unfold update_pending. rewrite Hc, Hst, Hg. by destruct g. Qed.

Lemma pending_rest t s : at_rest (th_stack (thread_of s t)) = true -> update_pending t s = false.
Proof.
  unfold update_pending. destruct (cells s !! handlers_cell); [|done].
  by destruct (th_stack (thread_of s t)) as [|[] ?].
Qed.

(** Where the thread is in SyncThreads: before the step of the [update], or waiting. *)
Lemma inside_before gens F m id k cst t :
  sim gens F m -> inside id k cst t F -> update_pending t (snap F) = true ->
  exists ast, threads m !! t = Some (Running (FRun (UnregisterAndWait id k) :: ast)).
Proof.
  intros Hsim Hin Hp.
  assert (exists f, frames_of t F = f :: cst) as [f0 Hf0] by (destruct Hin as [?|[?|?]]; eauto).
  destruct (sim_thread _ _ _ _ _ Hsim (frames_of_running _ _ _ _ Hf0)) as (cl & ast & Hc & Ha & Hr).
  rewrite Ha. inversion Hr as [? sst ? Hst Hse|? ? ? ? Hat|? ? ? ? ? ? Hat|f op uu d ? sst ? ast' Hat (_ & Hb & _) Hs|? ? ? ? ? ? ? ? ? Hat]; subst.
  - rewrite pending_rest in Hp; [done|]. by eapply settled_rest.
  - by rewrite (pending_stage _ _ _ _ _ _ Hc Hat) in Hp.
  - by rewrite (pending_stage _ _ _ _ _ _ Hc Hat) in Hp.
  - exists ast'. unfold inside in Hin. rewrite Hf0 in Hin. rewrite (Hb id k); [done|..]; by destruct d, Hin as [?|[?|?]]; simplify_eq.
  - by rewrite (pending_stage _ _ _ _ _ _ Hc Hat) in Hp.
Qed.

Lemma inside_after gens F m id k cst t :
  sim gens F m -> inside id k cst t F -> update_pending t (snap F) = false ->
  exists since cof ast, threads m !! t = Some (Running (FWait since cof (k true) :: ast)).
Proof.
  intros Hsim Hin Hp.
  assert (exists f, frames_of t F = f :: cst) as [f0 Hf0] by (destruct Hin as [?|[?|?]]; eauto).
  destruct (sim_thread _ _ _ _ _ Hsim (frames_of_running _ _ _ _ Hf0)) as (cl & ast & Hc & Ha & Hr).
  rewrite Ha. unfold inside in Hin. rewrite Hf0 in Hin.
  assert (forall sst, settled gens (snap F) (f0 :: cst) sst ast ->
    exists since cof ast', ast = FWait since cof (k true) :: ast') as Hse.
  { intros sst Hse. inversion Hse as [? ? ? Hs|op b u ver ? ? ? Hs Hg|]; subst;
      [by inversion Hs; subst; destruct Hin as [?|[?|?]]| |by destruct Hin as [?|[?|?]]].
    destruct Hin as [?|[?|?]]; simplify_eq/=. eauto. }
  inversion Hr as [? sst ? Hst Hs|? ? sst ? Hat Hs|? ? ? ? ? ? Hat|f op uu d ? sst ? ast' Hat Hb Hs|? since cof ? ? k0 ? ? ast' Hat]; subst.
  - destruct (Hse _ Hs) as (since & cof & ast' & ->). eauto.
  - destruct (Hse _ Hs) as (since & cof & ast' & ->). eauto.
  - by destruct Hin as [?|[?|?]].
  - by rewrite (pending_stage _ _ _ _ _ _ Hc Hat) in Hp.
  - destruct Hin as [?|[?|?]]; simplify_eq. eauto.
Qed.

Lemma image_other u o m m' t : image u o m m' -> t <> u -> threads m' !! t = threads m !! t.
Proof.
  destruct o as [b|]; simpl; [|by intros ->]. intros (st & a & nx & _ & _ & _ & ->)%step_Some Hne.
  destruct nx; simpl; by rewrite ?lookup_insert_ne.
Qed.

Lemma image_run u o m1 m m' sched :
  run sched m1 = Some m -> image u o m m' -> exists sched', run sched' m1 = Some m'.
Proof.
  intros Hr. destruct o as [b|]; simpl; [|intros ->; eauto]. intros Hs.
  exists (sched ++ [(u, b)]). rewrite sched_app, Hr. simpl. by rewrite Hs.
Qed.

Lemma fstep_moves u a F F' :
  fstep u a F = Some F' ->
  moves u (snap F) (snap F') /\ forall t, t <> u -> fthreads F' !! t = fthreads F !! t.
Proof.
  unfold fstep. destruct (fhalted F); [done|]. destruct (fthreads F !! u) as [[cst|]|] eqn:Hf; try done.
  assert (forall t w s nx, t <> u -> fthreads (cmove u w s nx F) !! t = fthreads F !! t) as Hth
    by (intros t w s nx Hne; destruct nx; simpl; by rewrite ?lookup_insert_ne).
  assert (forall w s nx, snap (cmove u w s nx F) = s) as Hsn by (by intros w s []).
  destruct (at_rest _).
  - intros ([[w oa] nx] & _ & (s' & Hs & [= <-])%bind_Some)%bind_Some. split; [|eauto]. rewrite Hsn.
    destruct oa as [a0|]; [right; exists a0; by apply ok_state_Some|left; congruence].
  - destruct (is_access a); [|done]. intros (s' & Hs & He)%bind_Some.
    destruct (settle _ _ _ _ _) as [w st]. injection He as <-. split; [|intros t Hne; simpl; by rewrite lookup_insert_ne].
    right. exists a. by apply ok_state_Some.
Qed.

Lemma pending_other gens gens' F F' m m' u a t cst :
  sim gens F m -> sim gens' F' m' -> fstep u a F = Some F' -> t <> u -> fthreads F !! t = Some (CRunning cst) ->
  update_pending t (snap F') = update_pending t (snap F).
Proof.
  intros Hsim Hsim' Hs Hne Hf. destruct (fstep_moves _ _ _ _ Hs) as [[->|[x Hx]] _]; [done|].
  destruct (sim_thread _ _ _ _ _ Hsim Hf) as (cl & ast & Hc & _ & Hr).
  pose proof Hsim' as [Hre' (cl' & _ & Hc' & _) _ _ _ _].
  assert (forall f sst g, at_stage (snap F) t handlers_cell cl f sst g ->
    update_pending t (snap F') = update_pending t (snap F)) as Hst.
  { intros f sst g Hat. rewrite (pending_stage _ _ _ _ _ _ Hc Hat).
    eapply pending_stage; [done|]. eapply (stage_other u x (snap F)); try done; apply reachable_inv; [apply Hsim|done]. }
  destruct Hr as [? sst ? Hst' Hse|? ? ? ? Hat|? ? ? ? ? ? Hat|? ? ? ? ? ? ? ? Hat|? ? ? ? ? ? ? ? ? Hat]; eauto.
  subst sst. apply settled_rest in Hse. rewrite !pending_rest; [done..|]. by rewrite (step_other _ _ _ _ _ Hx).
Qed.

Lemma wait_not_pending gens F m t (p : prog E O) cst :
  sim gens F m -> frames_of t F = CWait p :: cst -> update_pending t (snap F) = false.
Proof.
  intros Hsim Hf%frames_of_running. destruct (sim_thread _ _ _ _ _ Hsim Hf) as (cl & ast & Hc & _ & Hr).
  inversion Hr as [? sst ? Hst Hse|? ? ? ? Hat|? ? ? ? ? ? Hat|? ? ? ? ? ? ? ? Hat|? ? ? ? ? ? ? ? ? Hat]; subst;
    [apply pending_rest; by eapply settled_rest|by rewrite (pending_stage _ _ _ _ _ _ Hc Hat)..].
Qed.

Lemma wait_frames t a F F' (p : prog E O) cst :
  fstep t a F = Some F' -> frames_of t F = CWait p :: cst ->
  frames_of t F' = CWait p :: cst \/ frames_of t F' = CRun p :: cst.
Proof.
  intros Hs Hf%frames_of_running. unfold fstep in Hs. destruct (fhalted F); [done|]. rewrite Hf in Hs.
  destruct (at_rest (th_stack (thread_of (snap F) t))); [done|]. destruct (is_access a); [|done].
  apply bind_Some in Hs as (s' & _ & Hs). simpl in Hs. unfold frames_of.
  destruct (at_rest (th_stack (thread_of s' t))); injection Hs as <-; simpl; rewrite lookup_insert_eq; auto.
Qed.

(** A step of [t] itself. *)
Lemma tracked_own ps gens gens' F m a F' m' o t id k cst :
  sim gens F m -> sim gens' F' m' -> reachable ps m -> tracked ps id k t F m ->
  inside id k cst t F -> inside id k cst t F' -> fstep t a F = Some F' -> image t o m m' ->
  label_ok t (snap F) (snap F') (frames_of t F) (frames_of t F') o -> tracked ps id k t F' m'.
Proof.
  intros Hsim Hsim' Hm Htk Hin Hin' Hs Ho Hlab.
  assert ((update_pending t (snap F) = false -> o = None) /\ (update_pending t (snap F) = true ->
    update_pending t (snap F') = true -> o = None)) as [Hnone1 Hnone2].
  { destruct Hin as [E1|[E1|E1]]; pose proof Hlab as Hl; rewrite E1 in Hl; try (split; [|intros _]; apply Hl).
    rewrite (wait_not_pending _ _ _ _ _ _ Hsim E1). split; [|done]. intros _. apply Hl.
    destruct (wait_frames _ _ _ _ _ _ Hs E1) as [?|E2]; [done|exfalso].
    unfold inside in Hin'. rewrite E2 in Hin'. by destruct Hin' as [?|[?|?]]. }
  destruct Htk as [Hp|m0 m1 b sched ast cof Hp Hm0 Ht0 Hc0 Hs0 Hr Ht].
  - destruct (update_pending t (snap F')) eqn:Hp'; [by apply tk_before|].
    destruct (inside_before _ _ _ _ _ _ _ Hsim Hin Hp) as (ast & Ha).
    destruct (inside_after _ _ _ _ _ _ _ Hsim' Hin' Hp') as (since & cof & ast' & Ha').
    destruct o as [b|]; simpl in Ho; [|congruence].
    pose proof Ho as (st & act & nx & _ & Hst & Hl & ->)%step_Some. rewrite Ha in Hst. injection Hst as <-.
    simpl in Hl. injection Hl as <- <-. simpl in Ha'. rewrite lookup_insert_eq in Ha'.
    destruct (contains id (reg (mw m))) eqn:Hc; [|done]. injection Ha' as <- <- <-.
    eapply (tk_after _ _ _ _ _ _ m _ b []); [done..|]. simpl. by rewrite lookup_insert_eq.
  - rewrite (Hnone1 Hp) in Ho. simpl in Ho. subst m'.
    destruct (update_pending t (snap F')) eqn:Hp'; [|by eapply tk_after].
    destruct (inside_before _ _ _ _ _ _ _ Hsim' Hin' Hp') as (ast' & Ha'). congruence.
Qed.

(** One step of any thread while [t] stays inside its call. *)
Lemma tracked_step ps gens F m u a F' t id k cst :
  sim gens F m -> reachable ps m -> tracked ps id k t F m -> inside id k cst t F -> fstep u a F = Some F' ->
  inside id k cst t F' -> exists gens' m', sim gens' F' m' /\ reachable ps m' /\ tracked ps id k t F' m'.
Proof.
  intros Hsim Hm Htk Hin Hs Hin'.
  destruct (fstep_simulated _ _ _ _ _ _ Hsim Hs) as (o & Hlab & gens' & m' & Ho & Hsim').
  exists gens', m'. split; [done|]. split; [by eapply image_reachable|].
  destruct (decide (t = u)) as [<-|Hne]; [by apply (tracked_own ps gens gens' F m a F' m' o t id k cst)|].
  assert (exists f, frames_of t F = f :: cst) as [f0 Hf0] by (destruct Hin as [?|[?|?]]; eauto).
  pose proof (pending_other _ _ _ _ _ _ _ _ _ _ Hsim Hsim' Hs Hne (frames_of_running _ _ _ _ Hf0)) as Hpe.
  destruct Htk as [Hp|m0 m1 b sched ast cof Hp Hm0 Ht0 Hc0 Hs0 Hr Ht].
  - apply tk_before. by rewrite Hpe.
  - destruct (image_run _ _ _ _ _ _ Hr Ho) as [sched' Hr'].
    eapply tk_after; [by rewrite Hpe|exact Hm0|exact Ht0|done|exact Hs0|exact Hr'|].
    rewrite (image_other _ _ _ _ _ Ho Hne). exact Ht.
Qed.

Lemma tracked_run ps gens F m sched F' t id k cst :
  sim gens F m -> reachable ps m -> tracked ps id k t F m -> throughout (inside id k cst t) sched F ->
  frun sched F = Some F' -> exists gens' m', sim gens' F' m' /\ reachable ps m' /\ tracked ps id k t F' m' /\
    inside id k cst t F'.
Proof.
  revert gens F m. induction sched as [|[u a] sched IH]; intros gens F m Hsim Hm Htk [Hin Hth] Hr; simpl in *.
  - injection Hr as <-. by exists gens, m.
  - destruct (fstep u a F) as [F1|] eqn:Hs; [|done].
    assert (inside id k cst t F1) as Hin1 by (by destruct sched, Hth).
    destruct (tracked_step _ _ _ _ _ _ _ _ _ _ _ Hsim Hm Htk Hin Hs Hin1) as (gens1 & m1 & Hsim1 & Hm1 & Htk1).
    by eapply IH.
Qed.

Lemma frun_simulated gens F m sched F' :
  sim gens F m -> frun sched F = Some F' ->
  exists gens' m' sched', run sched' m = Some m' /\ sim gens' F' m'.
Proof.
  revert gens F m. induction sched as [|[u a] sched IH]; intros gens F m Hsim Hr; simpl in Hr.
  - injection Hr as <-. by exists gens, m, [].
  - destruct (fstep u a F) as [F1|] eqn:Hs; [|done].
    destruct (fstep_simulated _ _ _ _ _ _ Hsim Hs) as (o & _ & gens1 & m1 & Ho & Hsim1).
    destruct (IH _ _ _ Hsim1 Hr) as (gens' & m' & sched' & Hr' & Hsim').
    destruct o as [b|]; simpl in Ho; [|subst m1; by exists gens', m', sched'].
    exists gens', m', ((u, b) :: sched'). simpl. by rewrite Ho.
Qed.

(** The access with which a wait returns. *)
Lemma wait_returns gens F m t a F' cof round since sst id k cst :
  sim gens F m -> inside id k cst t F -> fstep t a F = Some F' ->
  th_stack (thread_of (snap F) t) = FWaitHead handlers_cell cof round since [] :: sst ->
  frames_of t F = CWait (k true) :: cst /\ frames_of t F' = CRun (k true) :: cst /\
  (exists n ast, threads m !! t = Some (Running (FWait n cof (k true) :: ast))) /\
  exists gens' m' b, step t b m = Some m' /\ sim gens' F' m'.
Proof.
  intros Hsim Hin Hs Hst.
  assert (exists f, frames_of t F = f :: cst) as [f0 Hf0] by (destruct Hin as [?|[?|?]]; eauto).
  destruct (sim_thread _ _ _ _ _ Hsim (frames_of_running _ _ _ _ Hf0)) as (cl & ast & Hc & Ha & Hr).
  assert (exists n ast' p, f0 = CWait p /\ ast = FWait n cof p :: ast' /\ stack_rel gens (snap F) cst sst ast')
    as (n & ast' & p & -> & -> & Hsr).
  { inversion Hr as [? sst0 ? Hst0 Hse|? ? ? ? Hat|? ? ? ? ? ? Hat|? ? ? ? ? ? ? ? Hat|f n cof0 sg g0 p ? sst0 ast0 Hat Hg Hle Hsr]; subst.
    - rewrite Hst in Hse. by apply settled_rest in Hse.
    - destruct Hat as [Hst0 _ Hg]. rewrite Hst in Hst0. injection Hst0 as <- _. done.
    - destruct Hat as [Hst0 _ Hg]. rewrite Hst in Hst0. injection Hst0 as <- _. done.
    - destruct Hat as [Hst0 _ Hg]. rewrite Hst in Hst0. injection Hst0 as <- _. done.
    - destruct Hat as [Hst0 _ Hg0]. rewrite Hst in Hst0. injection Hst0 as <- <-. simpl in Hg0.
      injection Hg0 as -> _. by exists n, ast0, p. }
  assert (p = k true) as ->
    by (unfold inside in Hin; rewrite Hf0 in Hin; destruct Hin as [?|[?|?]]; congruence).
  assert (frames_of t F' = CRun (k true) :: cst) as Hf'.
  { pose proof (frames_of_running _ _ _ _ Hf0) as Hf. unfold fstep in Hs. destruct (fhalted F); [done|].
    rewrite Hf, Hst in Hs. simpl in Hs. destruct (is_access a) eqn:Hacc; [|done].
    apply bind_Some in Hs as (s' & Hs'%ok_state_Some & Hs).
    assert (th_stack (thread_of s' t) = sst) as Hst'.
    { unfold SnapMachine.step in Hs'. rewrite Hst in Hs'. destruct a; try done; simpl in Hs'; injection Hs' as <-;
        apply stack_return. }
    rewrite Hst', (stack_rel_rest _ _ _ _ _ Hsr) in Hs. injection Hs as <-. unfold frames_of. simpl.
    by rewrite lookup_insert_eq. }
  split_and!; [done|done|by exists n, ast'|].
  destruct (fstep_simulated _ _ _ _ _ _ Hsim Hs) as (o & _ & gens' & m' & Ho & Hsim').
  exists gens', m'. destruct o as [b|]; simpl in Ho; [by exists b|exfalso]. subst m'.
  destruct (sim_thread _ _ _ _ _ Hsim' (frames_of_running _ _ _ _ Hf')) as (cl' & ast2 & _ & Ha' & Hr').
  rewrite Ha in Ha'. injection Ha' as <-.
  inversion Hr' as [? ? ? ? Hse|? ? ? ? ? Hse| | |]; subst; inversion Hse as [? ? ? Hs'| |]; subst; inversion Hs'.
Qed.

Lemma call_pending gens F m t op (u : follow E O) cst :
  sim gens F m -> frames_of t F = CUpdate op None u :: cst -> update_pending t (snap F) = true.
Proof.
  intros Hsim Hf%frames_of_running. destruct (sim_thread _ _ _ _ _ Hsim Hf) as (cl & ast & Hc & _ & Hr).
  inversion Hr as [? ? ? ? Hse|? ? ? ? ? Hse| |? ? ? ? ? ? ? ? Hat|]; subst;
    [inversion Hse as [? ? ? Hs| |]; subst; inversion Hs..|]. by rewrite (pending_stage _ _ _ _ _ _ Hc Hat).
Qed.

(** (C2) The promise of [unregister_and_wait], down to the accesses of memory.  Thread [t] is
    inside the call, [remove_id] finds the handler, and the wait is about to return to a
    caller that is not inside a fallback read.  From then on, whatever the threads do and
    however their accesses interleave, until the id counter wraps: the handler is not in the
    list, and no other thread is inside it. *)
Theorem crate_wait_quiesces x ps t id k cst F0 F1 F2 F3 sched sched' a round since sst :
  freachable x ps F0 -> frames_of t F0 = CUpdate (OpRemove id) None (UProg true k) :: cst ->
  throughout (inside id k cst t) sched F0 -> frun sched F0 = Some F1 ->
  th_stack (thread_of (snap F1) t) = FWaitHead handlers_cell false round since [] :: sst ->
  fstep t a F1 = Some F2 -> frun sched' F2 = Some F3 -> no_wrap (fw F3) ->
  (exists l, abs (snap F3) !! handlers_cell = Some l /\ id ∉ entry_id <$> l) /\
  forall u cst' once, u <> t -> fthreads F3 !! u = Some (CRunning cst') -> CHandler id once ∉ cst'.
Proof.
  intros (gens & m & Hm & Hsim)%freachable_sim Hf Hth Hr Hst Hs Hr' Hw.
  destruct (tracked_run ps gens F0 m sched F1 t id k cst) as (gens1 & m2 & Hsim2 & Hm2 & Htk & Hin); [done..| |done|done|].
  { apply tk_before. by eapply call_pending. }
  destruct (wait_returns _ _ _ _ _ _ _ _ _ _ _ _ _ Hsim2 Hin Hs Hst) as (Hf1 & _ & (n & ast2 & Ha2) & gens3 & m3 & b' & Hs3 & Hsim3).
  destruct Htk as [Hp|m0 m1 b l0 ast cof Hp Hm0 Ht0 Hc0 Hs0 Hr0 Ht];
    [by rewrite (wait_not_pending _ _ _ _ _ _ Hsim2 Hf1) in Hp|].
  rewrite Ha2 in Ht. injection Ht as -> <- ->.
  destruct (frun_simulated _ _ _ _ _ Hsim3 Hr') as (gens4 & m4 & l4 & Hr4 & Hsim4).
  destruct (sh_world _ _ (sim_shows _ _ _ Hsim4)) as (l & Habs & Hw4).
  destruct (waited_quiescent ps t b b' m0 m1 m2 m3 m4 id k ast l0 l4) as (Hgone & Hno & _); try done; [by rewrite Hw4|].
  split.
  - exists l. split; [done|]. rewrite Hw4 in Hgone. apply not_true_iff_false in Hgone. by rewrite contains_spec in Hgone.
  - intros u cst' once Hne Hu Hin'. destruct (sh_inside _ _ (sim_shows _ _ _ Hsim4) _ _ _ _ Hu Hin') as (ast' & Hu' & Hi').
    by eapply Hno.
Qed.
End Theorems.
