(* ===== verification/CellProgress.v ===== *)
(** The registry over the cell never gets stuck: src/src/sync/mod.rs over
    src/src/snapshot.rs and src/src/hazard.rs. *)
From S2P Require Import Prelude HandlerId HandlerList HandlerStore PanicInfo Hazard SnapCell.
From S2P Require Import SnapMachine SnapHazardInv SnapArcInv SnapLockInv SnapProtect SnapSafety SnapSpec SnapWait SnapProgress.
From S2P Require Import RegistryConc RegistryWait CellCalls SyncRegistry CellRegistry.
From S2P Require Import SyncThreads SyncThreadsExec SyncThreadsInv SyncThreadsWait CellSim CellSteps CellAccess CellCode CellTheorems.

(** ** Inside a call *)

Section Calls.
Context {V : Type}.
Implicit Types (s : SnapMachine.state V) (cl : cell V) (f : SnapMachine.frame V).

(** Only accesses run inside a critical section. *)
Lemma crit_access s t c k rest (a : SnapMachine.action V) s' :
  th_stack (thread_of s t) = FCrit c k :: rest -> SnapMachine.step t a s = Ok s' -> is_access a = true.
Proof. intros Hst Hs. unfold SnapMachine.step in Hs. rewrite Hst in Hs. by destruct a. Qed.

(** The next access of a call succeeds, unless it is to take the lock and another thread
    holds it. *)
Lemma call_progress s t c cl f rest g :
  SnapMachine.reachable s -> at_stage s t c cl f rest g -> cells s !! c = Some cl ->
  (exists a s', is_access a = true /\ SnapMachine.step t a s = Ok s') \/
  (exists k u cr, f = FLock c k /\ writer cl = Some (u, cr) /\ u <> t).
Proof.
  intros Hs [Hst Hcell Hg] Hc. pose proof (reachable_inv _ Hs) as Hi.
  pose proof (step_safe t ANext s Hi) as Hsafe.
  assert (f = FCrit c (match f with FCrit _ k => k | _ => LkFallback end) \/ forall c k, f <> FCrit c k) as [Hf|Hn].
  { destruct f; try (by right). simpl in Hcell. left. congruence. }
  { left. rewrite Hf in Hst. destruct (li_crit _ (inv_lock _ Hi) _ _ _ _ Hst) as (cl1 & cr & Hc1 & Hw). simplify_eq.
    destruct (holder_step _ _ _ _ _ Hi Hc Hw) as (a & s' & _ & Hs' & _). exists a, s'. split; [by eapply crit_access|done]. }
  assert (forall s', SnapMachine.step t ANext s = Ok s' -> exists a s', is_access a = true /\ SnapMachine.step t a s = Ok s')
    as Hok by (intros s' ?; by exists ANext, s').
  revert Hok. generalize (exists a s', is_access a = true /\ SnapMachine.step t a s = Ok s'). intros Q Hok.
  unfold SnapMachine.step in Hsafe, Hok. rewrite Hst in Hsafe, Hok.
  destruct f; try done; simpl in Hcell; cbn [step_frame] in Hsafe, Hok;
    unfold step_protect, step_release, step_fallback, step_wait in Hsafe, Hok;
    try (injection Hcell as ->); try (rewrite Hc in Hsafe, Hok);
    try (left; repeat case_match; simplify_eq/=; by eauto).
  - destruct (writer cl) as [[u cr]|] eqn:Hw; [right|left; eauto]. exists k, u, cr. split_and!; [done..|].
    intros ->. destruct (li_holder _ (inv_lock _ Hi) _ _ _ _ Hc Hw) as (k' & rest' & Hst' & _). congruence.
  - by destruct (Hn c k).
Qed.
End Calls.

(** ** Registry code *)

Section Registry.
Context {E O : Type}.
Abbreviation Vec := (list (HandlerEntry (stored E O))).
Abbreviation aframe := (SyncThreads.frame E O).
Implicit Types (s : SnapMachine.state Vec) (cl : cell Vec) (l : Vec) (w : world E O unit) (gens : list nat).
Implicit Types (cst : list (cframe E O)) (ast : list aframe) (ps : gmap nat (prog E O)).
Implicit Types (F : full E O) (m : machine E O).

(** Where SyncThreads can resume, so can the code over the cell. *)
Lemma resume_progress gens s cst sst ast w l pl :
  stack_rel gens s cst sst ast -> is_Some (resume (with_list l w) (flow_of pl) ast) -> is_Some (cresume w pl cst).
Proof.
  intros Hr [x Hx]. destruct Hr as [| | |id once cst sst ast Hr| | |hpl cst sst ast Hr|]; try done.
  - simpl. destruct once; [destruct (alive w)|]; by eexists.
  - destruct Hr; try done. simpl. destruct (drop_both pl hpl); by eexists.
Qed.

Lemma prog_progress gens s cst sst ast w l p quiet ver n :
  stack_rel gens s cst sst ast -> is_Some (local_step quiet false ver n (FRun p :: ast) (with_list l w)) ->
  is_Some (cstep_prog p cst w).
Proof.
  intros Hr Hx. destruct p; simpl in *; try (by eexists).
  - by eapply (resume_progress _ _ _ _ _ _ l None).
  - by eapply (resume_progress _ _ _ _ _ _ l (Some p)).
  - destruct (guard_registry g && alive w); by eexists.
Qed.

(** The code of a thread that is between calls has a next step. *)
Lemma code_progress ps gens F m t cst :
  sim gens F m -> reachable ps m -> fthreads F !! t = Some (CRunning cst) ->
  at_rest (th_stack (thread_of (snap F) t)) = true -> is_Some (registry_step t (snap F) cst (fw F)).
Proof.
  intros Hsim Hm Hf Hrest. destruct (sim_thread _ _ _ _ _ Hsim Hf) as (cl & ast & Hc & Ha & Hr).
  destruct (rest_settled _ _ _ _ _ _ Hr Hrest) as (sst & Hst & Hse).
  destruct Hse as [cst sst ast Hs|op b u ver cst sst ast Hs Hg|q sf v fb l n cst sst ast Hh Hs].
  - destruct (sh_world _ _ (sim_shows _ _ _ Hsim)) as (l & _ & Hw).
    destruct (shaped_progress (may_return m t) false (version m) (length (snaps m)) (with_list l (fw F)) ast) as [x Hx].
    { by eapply reachable_shaped. }
    { intros since cof k st' ->. by inversion Hs. }
    destruct Hs as [|p cst sst ast Hs|entry k cst sst ast Hs|id once cst sst ast Hs|id pl cst sst ast Hs
      |id pl cst sst ast Hs|pl cst sst ast Hs|e i k n v fb l0 sf cst sst ast Hheld Hs]; simpl in *; try done.
    + eapply (prog_progress gens (snap F) cst sst ast (fw F) l p (may_return m t) (version m) (length (snaps m))); [done|].
      by exists x.
    + destruct (panic_callback (reg (fw F))) as [holder|] eqn:Hcb; [by eexists|].
      simpl in Hx. rewrite ?Hcb in Hx. destruct Hs; try done. simpl. destruct (drop_both None pl); by eexists.
    + rewrite (borrowed_held _ _ _ _ Hst _ _ _ _ _ eq_refl Hheld). simpl. unfold cstep_dispatch.
      destruct (l0 !! i) as [entry|]; [|by eexists]. destruct (handler entry); [by eexists|].
      simpl. destruct (once_slots (fw F) !! slot) as [[]|]; by eexists.
  - simpl. destruct u as [wt k|]; simpl; [destruct (wt && b)|]; by eexists.
  - simpl. rewrite (borrowed_held _ _ _ _ Hst _ _ _ _ _ eq_refl Hh). simpl. destruct q; by eexists.
Qed.

(** The cell does what registry code asks of it. *)
Section Requests.
Context F (t : nat) cl gens (Hc : cells (snap F) !! handlers_cell = Some cl).
Context sst (Hst : th_stack (thread_of (snap F) t) = sst) (Hrest : at_rest sst = true).

Lemma cell_call_ok (o : op Vec) :
  (exists upd, o = OUpdate handlers_cell upd) \/ o = ORead handlers_cell \/ o = OWait handlers_cell ->
  is_Some (cell_reply F t (Some (SnapMachine.ACall o))).
Proof.
  intros Ho. unfold cell_reply, SnapMachine.step. rewrite Hst, (rest_user _ Hrest).
  destruct Ho as [[upd ->]|[->| ->]]; simpl; rewrite Hc; by eexists.
Qed.

Lemma leave_ok (a : SnapMachine.action Vec) sf sst0 v fb l0 :
  sst = sf :: sst0 -> held gens (snap F) sf v fb l0 -> a = AReturn \/ a = AUnwind ->
  is_Some (cell_reply F t (Some a)).
Proof.
  intros E1 Hheld Ha. unfold cell_reply, SnapMachine.step. rewrite Hst, E1.
  destruct Ha as [->| ->], Hheld; simpl; by eexists.
Qed.

Lemma cresume_ok cst ast pl w w' oa nx :
  stack_rel gens (snap F) cst sst ast -> cresume w pl cst = Some (w', oa, nx) -> is_Some (cell_reply F t oa).
Proof.
  intros Hr Hx. inversion Hr as [| | |id once cst1 sst1 ast1 Hr1| | |hpl cst1 sst1 ast1 Hr1|]; subst cst; try done; simpl in Hx.
  - injection Hx as <- <- <-. by eexists.
  - destruct once; [destruct (alive w)|]; injection Hx as <- <- <-; [apply cell_call_ok; eauto|by eexists..].
  - inversion Hr1 as [| | | | | | |e i k n v fb l0 sf cst2 sst2 ast2 Hheld Hr2]; subst cst1; try done.
    destruct (drop_both pl hpl); injection Hx as <- <- <-; [by eexists| |by eexists].
    eapply leave_ok; [by symmetry; eassumption|done|by right].
Qed.

Lemma prog_ok cst ast p w w' oa nx :
  stack_rel gens (snap F) cst sst ast -> cstep_prog p cst w = Some (w', oa, nx) -> is_Some (cell_reply F t oa).
Proof.
  intros Hr Hx. destruct p; simpl in Hx; try (by eapply cresume_ok);
    try (injection Hx as <- <- <-; first [by eexists|apply cell_call_ok; eauto]).
  destruct (guard_registry g && alive w); injection Hx as <- <- <-; [apply cell_call_ok; eauto|by eexists].
Qed.

Lemma request_ok cst ast w w' oa nx :
  settled gens (snap F) cst sst ast -> registry_step t (snap F) cst w = Some (w', oa, nx) -> is_Some (cell_reply F t oa).
Proof.
  intros Hse Hx.
  inversion Hse as [cst0 sst0 ast0 Hr|op b u ver cst0 sst0 ast0 Hr Hg|q sf v fb l0 n cst0 sst0 ast0 Hheld Hr]; subst cst.
  - inversion Hr as [|p cst1 sst1 ast1 Hr1|entry k cst1 sst1 ast1 Hr1|id once cst1 sst1 ast1 Hr1|id pl cst1 sst1 ast1 Hr1
      |id pl cst1 sst1 ast1 Hr1|pl cst1 sst1 ast1 Hr1|e i k n v fb l0 sf cst1 sst1 ast1 Hheld Hr1]; subst cst0; simpl in Hx; try done.
    + by eapply prog_ok.
    + injection Hx as <- <- <-. apply cell_call_ok. eauto.
    + injection Hx as <- <- <-. by eexists.
    + destruct (panic_callback (reg w)); [injection Hx as <- <- <-; by eexists|].
      eapply (cresume_ok (CCallback pl :: cst1) (FCallback pl :: ast1) None); [by constructor|done].
    + apply bind_Some in Hx as (l & _ & Hx). unfold cstep_dispatch in Hx.
      destruct (l !! i) as [entry|]; [|injection Hx as <- <- <-; eapply leave_ok; [by symmetry; eassumption|done|by left]].
      destruct (handler entry); [injection Hx as <- <- <-; by eexists|]. simpl in Hx.
      destruct (once_slots w !! slot) as [[]|]; injection Hx as <- <- <-; by eexists.
  - simpl in Hx. destruct u as [wt k|]; simpl in Hx; [destruct (wt && b)|]; injection Hx as <- <- <-; [apply cell_call_ok; eauto|by eexists..].
  - simpl in Hx. apply bind_Some in Hx as (l & _ & Hx).
    destruct q; injection Hx as <- <- <-; [by eexists|eapply leave_ok; [by symmetry; eassumption|done|by left]..].
Qed.
End Requests.

(** ** Threads *)

(** Only threads with one frame left end. *)
Lemma resume_end w pl cst w' oa fl : cresume w pl cst = Some (w', oa, CEnd fl) -> cst = [] /\ oa = None.
Proof.
  destruct cst as [|[] cst]; simpl; try done; [|by destruct once; [destruct (alive w)|]|].
  - by intros [= <- <- <-].
  - destruct cst as [|[] cst]; try done. by destruct (drop_both pl pl0).
Qed.

Lemma registry_end t s cst w w' oa fl :
  registry_step t s cst w = Some (w', oa, CEnd fl) -> exists p, cst = [CRun p] /\ oa = None.
Proof.
  destruct cst as [|f cst]; [done|]. destruct f; simpl; try done.
  - intros Hx. exists p. destruct p; simpl in Hx; try done; try (by apply resume_end in Hx as [-> ->]).
    by destruct (guard_registry g && alive w).
  - destruct res; [|done]. destruct u; simpl; [by destruct (wait && b)|done].
  - intros (l & _ & Hx)%bind_Some. by destruct q.
  - intros (l & _ & Hx)%bind_Some. unfold cstep_dispatch in Hx. destruct (l !! i); [|done].
    destruct (handler h); [done|]. simpl in Hx. by destruct (once_slots w !! slot) as [[]|].
  - destruct (panic_callback (reg w)); [done|]. by intros [? _]%(resume_end w None (CCallback pl :: cst)).
Qed.

(** A thread that is inside a call of the cell, or inside a dispatch, has not ended. *)
Lemma busy_running x ps F t :
  freachable x ps F -> th_stack (thread_of (snap F) t) <> [] -> exists cst, fthreads F !! t = Some (CRunning cst).
Proof.
  intros HF. induction HF as [|u a F F' HF IH Hs]; [done|]. intros Hne.
  destruct (decide (t = u)) as [->|Hut].
  - unfold fstep in Hs. destruct (fhalted F); [done|]. destruct (fthreads F !! u) as [[cst|]|] eqn:Hf; try done.
    destruct (at_rest (th_stack (thread_of (snap F) u))) eqn:Hrest.
    + apply bind_Some in Hs as ([[w oa] nx] & Hx & Hs). apply bind_Some in Hs as (s' & Hs' & [= <-]).
      destruct nx as [st|fl|]; simpl; [rewrite lookup_insert_eq; eauto| |eauto].
      exfalso. apply Hne. apply registry_end in Hx as (p & -> & ->). injection Hs' as <-. simpl.
      destruct (freachable_sim _ _ _ HF) as (gens & m & _ & Hsim).
      destruct (sim_thread _ _ _ _ _ Hsim Hf) as (cl & ast & _ & _ & Hr).
      destruct (rest_settled _ _ _ _ _ _ Hr Hrest) as (sst & -> & Hse).
      inversion Hse as [? ? ? Hs| |]; subst; inversion Hs as [|? ? ? ? Hn| | | | | |]; subst. by inversion Hn.
    + destruct (is_access a); [|done]. apply bind_Some in Hs as (s' & _ & Hs).
      destruct (settle _ _ _ _ _) as [w st]. injection Hs as <-. simpl. rewrite lookup_insert_eq. eauto.
  - destruct (fstep_moves _ _ _ _ Hs) as [Hm Hth]. rewrite Hth by done. apply IH. intros E1. apply Hne.
    destruct Hm as [->|[y Hy]]; [done|]. by rewrite (step_other _ _ _ _ _ Hy).
Qed.

(** A running thread steps, or waits for the lock of another. *)
Lemma thread_progress x ps F t cst :
  freachable x ps F -> fhalted F = false -> fthreads F !! t = Some (CRunning cst) ->
  (exists a F', fstep t a F = Some F') \/
  (exists k rest cl u cr, th_stack (thread_of (snap F) t) = FLock handlers_cell k :: rest /\
     cells (snap F) !! handlers_cell = Some cl /\ writer cl = Some (u, cr) /\ u <> t).
Proof.
  intros HF Hh Hf. destruct (freachable_sim _ _ _ HF) as (gens & m & Hm & Hsim).
  destruct (sim_thread _ _ _ _ _ Hsim Hf) as (cl & ast & Hc & Ha & Hr). unfold fstep. rewrite Hh, Hf.
  destruct (at_rest (th_stack (thread_of (snap F) t))) eqn:Hrest.
  - left. exists ANext. destruct (rest_settled _ _ _ _ _ _ Hr Hrest) as (sst & Hst & Hse).
    destruct (code_progress _ _ _ _ _ _ Hsim Hm Hf Hrest) as [[[w oa] nx] Hx]. rewrite Hx. simpl.
    destruct (request_ok F t cl gens Hc sst Hst) with (2 := Hse) (3 := Hx) as [s' Hs']; [by rewrite <- Hst|].
    unfold cell_reply in Hs'. rewrite Hs'. simpl. eauto.
  - assert (exists f rest g, at_stage (snap F) t handlers_cell cl f rest g) as (f & rest & g & Hat).
    { destruct Hr as [? sst ? Hst Hse|? ? ? ? Hat|? ? ? ? ? ? Hat|? ? ? ? ? ? ? ? Hat|? ? ? ? ? ? ? ? ? Hat]; eauto.
      subst sst. by rewrite (settled_rest _ _ _ _ _ Hse) in Hrest. }
    destruct (call_progress _ _ _ _ _ _ _ (sm_reach _ _ _ Hsim) Hat Hc) as [(a & s' & Hacc & Hs')|(k & u & cr & -> & Hw & Hne)].
    + left. exists a. rewrite Hacc, Hs'. simpl. destruct (settle _ _ _ _ _). eauto.
    + right. exists k, rest, cl, u, cr. split_and!; try done. apply Hat.
Qed.

(** (C3) The crate never deadlocks on its own locks.  In every reachable state each running
    thread can take its next step, whatever the others do, except when that step takes the
    writer lock and another thread holds it; then the holder is a running thread that can
    take its next step.  (A wait is never stuck in this sense: it polls.) *)
Theorem crate_progress x ps F t cst :
  freachable x ps F -> fhalted F = false -> fthreads F !! t = Some (CRunning cst) ->
  (exists a F', fstep t a F = Some F') \/
  (exists k rest u cst' a F', th_stack (thread_of (snap F) t) = FLock handlers_cell k :: rest /\ u <> t /\
     fthreads F !! u = Some (CRunning cst') /\ fstep u a F = Some F').
Proof.
  intros HF Hh Hf. destruct (thread_progress _ _ _ _ _ HF Hh Hf) as [?|(k & rest & cl & u & cr & Hst & Hc & Hw & Hne)]; [by left|right].
  destruct (freachable_sim _ _ _ HF) as (gens & m & Hm & Hsim).
  destruct (li_holder _ (reachable_lock_inv _ (sm_reach _ _ _ Hsim)) _ _ _ _ Hc Hw) as (k' & rest' & Hst' & _).
  destruct (busy_running x ps F u HF) as [cst' Hu]; [by rewrite Hst'|].
  destruct (thread_progress _ _ _ _ _ HF Hh Hu) as [(a & F' & Hs)|(? & ? & ? & ? & ? & Hst2 & _)]; [|congruence].
  by exists k, rest, u, cst', a, F'.
Qed.
End Registry.
