(* ===== verification/StressTest.v ===== *)
(** The stress test of src/src/snapshot.rs,
    [concurrent_readers_and_writers_never_observe_freed_values]: four readers look for torn
    or freed values while the main thread replaces the value again and again.

    The threads run over the machine of SnapMachine, interleaved at every access of the cell
    and of the test's own atomics.  Every assertion of the test holds in every interleaving,
    and the test never hangs. *)
From S2P Require Import Prelude Hazard SnapCell SnapMachine SnapHazardInv SnapArcInv SnapLockInv.
From S2P Require Import SnapProtect SnapSafety SnapSpec SnapProgress SnapWait RegistryWait CellCalls CellProgress.

(** ** The test *)

Abbreviation Vec := (list Z).
Abbreviation access := (SnapMachine.action Vec).

(** [vec![i; 16]]. *)
Definition vec_of (i : Z) : Vec := replicate 16 i.

(** Ways to fail: an index out of range, one of the three assertions, or an overflow of a
    [u64] counter. *)
Inductive failure := OutOfRange | TornSnapshot | NoReads | WrongValue | Overflow.

(** Where a reader is: before the load of [stop], in [cell.read] until its closure has run
    (when the call returns with [first] is the next position), before the update of [started],
    before that of [overlapped], at its end. *)
Inductive rpos := RStop | RRead | RStarted (first : Z) | ROverlapped (first : Z) | RDone.
Record reader := Reader { reads_ : Z; saw_write : bool; rat : rpos }.

(** Where the main thread is: in the loop on [started], in the loop that writes, before the
    store to [stop], joining the readers [ts], in its last [read], at its end. *)
Inductive mpos := MStarted | MWrite | MStop | MJoin (ts : list tid) | MRead | MEnd.

Record test := Test {
  tsnap : SnapMachine.state Vec;
  stop : bool;
  started : nat;
  overlapped : nat;
  treaders : gmap tid reader;
  ti : Z;
  tmain : mpos;
  tfail : option failure;
}.
Implicit Types (T : test) (s : SnapMachine.state Vec) (cl : cell Vec) (r : reader).

Definition READERS : nat := 4.
Definition reader_ids : list tid := seq 1 READERS.
Definition the_cell : cid := 0.

(** [v[0]], and the assertion that all elements are equal to it. *)
Definition check_snapshot (v : Vec) : Z + failure :=
  match v with
  | [] => inr OutOfRange
  | first :: _ => if forallb (Z.eqb first) v then inl first else inr TornSnapshot
  end.

(** [x += 1] on a [u64], with the overflow checks of a test build. *)
Definition u64_inc (x : Z) : Z + failure :=
  if (x + 1 <? u64_modulus)%Z then inl (x + 1)%Z else inr Overflow.

Definition set_reader (t : tid) r T : test :=
  Test (tsnap T) (stop T) (started T) (overlapped T) (<[t := r]> (treaders T)) (ti T) (tmain T) (tfail T).
Definition set_main (i : Z) (p : mpos) T : test :=
  Test (tsnap T) (stop T) (started T) (overlapped T) (treaders T) i p (tfail T).
Definition set_shared (b : bool) (n m : nat) T : test :=
  Test (tsnap T) b n m (treaders T) (ti T) (tmain T) (tfail T).
Definition set_tsnap s T : test :=
  Test s (stop T) (started T) (overlapped T) (treaders T) (ti T) (tmain T) (tfail T).
Definition fail_with (f : failure) T : test :=
  Test (tsnap T) (stop T) (started T) (overlapped T) (treaders T) (ti T) (tmain T) (Some f).

(** One step of a reader between its calls of the cell, with what it asks of the cell. *)
Definition reader_step (t : tid) r T : option (test * option access) :=
  let at_ p := Reader (reads_ r) (saw_write r) p in
  match rat r with
  | RStop =>
      if stop T then Some (set_reader t (at_ RDone) T, None)
      else Some (set_reader t (at_ RRead) T, Some (ACall (ORead the_cell)))
  | RRead =>
      v ← borrowed t (tsnap T);
      match check_snapshot v with
      | inl first => Some (set_reader t (at_ (RStarted first)) T, Some AReturn)
      | inr f => Some (fail_with f T, None)
      end
  | RStarted first =>
      let n := if (reads_ r =? 0)%Z then S (started T) else started T in
      Some (set_shared (stop T) n (overlapped T) (set_reader t (at_ (ROverlapped first)) T), None)
  | ROverlapped first =>
      let new := negb (first =? 0)%Z && negb (saw_write r) in
      let m := if new then S (overlapped T) else overlapped T in
      match u64_inc (reads_ r) with
      | inl n => Some (set_shared (stop T) (started T) m
                         (set_reader t (Reader n (saw_write r || new) RStop) T), None)
      | inr f => Some (fail_with f T, None)
      end
  | RDone => None
  end.

(** One step of the main thread between its calls of the cell. *)
Definition main_step (min_writes : Z) (t : tid) T : option (test * option access) :=
  match tmain T with
  | MStarted => Some (if decide (started T < READERS) then T else set_main (ti T) MWrite T, None)
  | MWrite =>
      if (ti T <? min_writes)%Z || bool_decide (overlapped T < READERS) then
        match u64_inc (ti T) with
        | inl i => Some (set_main i MWrite T, Some (ACall (OUpdate the_cell (fun _ => Some (vec_of i)))))
        | inr f => Some (fail_with f T, None)
        end
      else Some (set_main (ti T) MStop T, None)
  | MStop => Some (set_main (ti T) (MJoin reader_ids) (set_shared true (started T) (overlapped T) T), None)
  | MJoin (u :: ts) =>
      r ← treaders T !! u;
      match rat r with
      | RDone => if (0 <? reads_ r)%Z then Some (set_main (ti T) (MJoin ts) T, None)
                 else Some (fail_with NoReads T, None)
      | _ => None
      end
  | MJoin [] => Some (set_main (ti T) MRead T, Some (ACall (ORead the_cell)))
  | MRead =>
      v ← borrowed t (tsnap T);
      match v with
      | [] => Some (fail_with OutOfRange T, None)
      | x :: _ => if (x =? ti T)%Z then Some (set_main (ti T) MEnd T, Some AReturn)
                  else Some (fail_with WrongValue T, None)
      end
  | MEnd => None
  end.

Definition main_id : tid := 0.

Definition code_step (min_writes : Z) (t : tid) T : option (test * option access) :=
  if decide (t = main_id) then main_step min_writes t T
  else r ← treaders T !! t; reader_step t r T.

(** One step of thread [t]: of its code, or of the call of the cell it is in, whose access
    is [a].  The test stops at its first failure. *)
Definition tstep (min_writes : Z) (t : tid) (a : access) T : option test :=
  match tfail T with
  | Some _ => None
  | None =>
      if at_rest (th_stack (thread_of (tsnap T) t)) then
        '(T', oa) ← code_step min_writes t T;
        match oa with
        | None => Some T'
        | Some a => match SnapMachine.step t a (tsnap T) with Ok s => Some (set_tsnap s T') | _ => None end
        end
      else if is_access a then
        match SnapMachine.step t a (tsnap T) with Ok s => Some (set_tsnap s T) | _ => None end
      else None
  end.

(** The cell with [vec![0; 16]] at address [x], and the threads before their first steps. *)
Definition tstart (x : addr) : test :=
  Test (match SnapMachine.step main_id (ANew the_cell (vec_of 0) x) init with Ok s => s | _ => init end)
    false 0 0 (list_to_map ((fun t => (t, Reader 0 false RStop)) <$> reader_ids)) 0 MStarted None.

Inductive treachable (x : addr) (min_writes : Z) : test -> Prop :=
  | treach_start : treachable x min_writes (tstart x)
  | treach_step t a T T' : treachable x min_writes T -> tstep min_writes t a T = Some T' ->
      treachable x min_writes T'.

(** ** A thread and its calls of the cell *)

Section Calls.
Implicit Types (P : Vec -> Prop).

(** Not in a call, or on its way out of one. *)
Inductive outside s cl (t : tid) : Prop :=
  | out_idle : th_stack (thread_of s t) = [] -> outside s cl t
  | out_leave f : at_stage s t the_cell cl f [] SLeave -> outside s cl t.

(** In a [read], before its closure, or in its closure with a value that satisfies [P]. *)
Inductive reading s cl (t : tid) P : Prop :=
  | rd_enter f : at_stage s t the_cell cl f [] SEnter -> reading s cl t P
  | rd_borrow f p v : th_stack (thread_of s t) = [f] -> reads f = Some (the_cell, p) ->
      at_rest [f] = true -> deref p s = Some v -> P v -> reading s cl t P.

Section Step.
Context s s' (t : tid) (a : access) cl cl' (Hr : SnapMachine.reachable s) (Hs : SnapMachine.step t a s = Ok s').
Context (Hc : cells s !! the_cell = Some cl) (Hc' : cells s' !! the_cell = Some cl').

Lemma step_invs : inv s /\ inv s' /\ heap_evolves s s'.
Proof.
  assert (SnapMachine.reachable s') by (by econstructor).
  split_and!; [by apply reachable_inv..|]. eapply step_evolves; [by apply reachable_inv|done].
Qed.

Lemma value_kept : current cl' = current cl -> deref (current cl') s' = deref (current cl) s.
Proof. destruct step_invs as (? & ? & ?). by eapply current_value_stable. Qed.

Lemma borrowed_kept u f p :
  f ∈ th_stack (thread_of s u) -> f ∈ th_stack (thread_of s' u) -> reads f = Some (the_cell, p) ->
  deref p s' = deref p s.
Proof. intros Hf Hf' Hp. destruct step_invs as (? & ? & ?). apply arc_value_stable; [done..| |]; by eapply reads_arc. Qed.

Lemma outside_other u : u <> t -> outside s cl u -> outside s' cl' u.
Proof.
  intros Hne. destruct step_invs as (? & ? & ?). intros [Hst|f Hat].
  - apply out_idle. by rewrite (step_other _ _ _ _ _ Hs Hne).
  - eapply out_leave. by apply (stage_other t a s s' u the_cell cl cl').
Qed.

Lemma reading_other u P : u <> t -> reading s cl u P -> reading s' cl' u P.
Proof.
  intros Hne. destruct step_invs as (? & ? & ?). intros [f Hat|f p v Hst Hp Hrest Hd HP].
  - eapply rd_enter. by apply (stage_other t a s s' u the_cell cl cl').
  - pose proof (step_other _ _ _ _ _ Hs Hne) as Hu.
    eapply rd_borrow; [by rewrite Hu|done..| |done]. rewrite <- Hd. eapply (borrowed_kept u f); [..|done].
    + rewrite Hst. left.
    + rewrite Hu, Hst. left.
Qed.

(** Accesses inside the thread's own calls. *)
Lemma outside_access :
  is_access a = true -> at_rest (th_stack (thread_of s t)) = false -> outside s cl t ->
  outside s' cl' t /\ current cl' = current cl.
Proof.
  intros Ha Hb [Hst|f Hat]; [by rewrite Hst in Hb|].
  pose proof (access_stepped t a s s' the_cell cl f [] SLeave cl' Hr Hat Hc Hc' Ha Hs) as Hsp.
  inversion Hsp; subst; split; try done; [by eapply out_leave|by apply out_idle].
Qed.

Lemma reading_access P v :
  is_access a = true -> at_rest (th_stack (thread_of s t)) = false -> deref (current cl) s = Some v -> P v ->
  reading s cl t P -> reading s' cl' t P /\ current cl' = current cl.
Proof.
  intros Ha Hb Hv HP [f Hat|f p v' Hst _ Hrest _ _]; [|congruence].
  pose proof (access_stepped t a s s' the_cell cl f [] SEnter cl' Hr Hat Hc Hc' Ha Hs) as Hsp.
  inversion Hsp; subst; (split; [|done]); [by eapply rd_enter|].
  eapply rd_borrow; [done..| |exact HP]. by rewrite <- Hcur, value_kept.
Qed.

Lemma update_access upd d f v v' :
  is_access a = true -> at_stage s t the_cell cl f [] (SUpdate upd d) ->
  deref (current cl) s = Some v -> upd v = Some v' ->
  (exists f' d', at_stage s' t the_cell cl' f' [] (SUpdate upd d') /\ current cl' = current cl) \/
  (outside s' cl' t /\ deref (current cl') s' = Some v').
Proof.
  intros Ha Hat Hv Hupd.
  pose proof (access_stepped t a s s' the_cell cl f [] _ cl' Hr Hat Hc Hc' Ha Hs) as Hsp.
  inversion Hsp; subst; simplify_eq; try (left; by eauto). right. split; [by eapply out_leave|congruence].
Qed.

(** What user code asks of the cell. *)
Lemma call_read_enters P :
  a = ACall (ORead the_cell) -> th_stack (thread_of s t) = [] -> reading s' cl' t P /\ current cl' = current cl.
Proof.
  intros -> Hst. unfold SnapMachine.step in Hs. rewrite Hst in Hs. simpl in Hs. rewrite Hc in Hs.
  injection Hs as <-. simpl in Hc'. simplify_eq. split; [|done]. eapply rd_enter. split; [apply stack_goto|done..].
Qed.

Lemma call_update_enters upd :
  a = ACall (OUpdate the_cell upd) -> th_stack (thread_of s t) = [] ->
  (exists f, at_stage s' t the_cell cl' f [] (SUpdate upd false)) /\ current cl' = current cl.
Proof.
  intros -> Hst. unfold SnapMachine.step in Hs. rewrite Hst in Hs. simpl in Hs. rewrite Hc in Hs.
  injection Hs as <-. simpl in Hc'. simplify_eq. split; [|done]. eexists. split; [apply stack_goto|done..].
Qed.

Lemma closure_returns P :
  a = AReturn -> at_rest (th_stack (thread_of s t)) = true -> reading s cl t P ->
  outside s' cl' t /\ current cl' = current cl.
Proof.
  intros -> Hrest [f Hat|f p v Hst Hp Hf _ _].
  { exfalso. destruct Hat as [E1 E2 E3]. rewrite E1 in Hrest. by destruct f. }
  unfold SnapMachine.step in Hs. rewrite Hst in Hs.
  destruct f; try done; simpl in Hs, Hp; injection Hs as <-; simpl in Hc'; simplify_eq; (split; [|done]);
    eapply out_leave; (split; [apply stack_goto|done..]).
Qed.
End Step.

(** A reader in its closure has its value. *)
Lemma reading_borrowed s cl t P :
  at_rest (th_stack (thread_of s t)) = true -> reading s cl t P -> exists v, borrowed t s = Some v /\ P v.
Proof.
  intros Hrest [f Hat|f p v Hst Hp Hf Hd HP].
  { destruct Hat as [E1 E2 E3]. rewrite E1 in Hrest. by destruct f. }
  exists v. split; [|done]. unfold borrowed. rewrite Hst. by destruct f; simplify_eq/=.
Qed.

Lemma outside_rest s cl t : at_rest (th_stack (thread_of s t)) = true -> outside s cl t -> th_stack (thread_of s t) = [].
Proof. intros Hrest [Hst|f [E1 E2 E3]]; [done|]. rewrite E1 in Hrest. by destruct f. Qed.
End Calls.

(** ** The cell during the test *)

Definition uniform (v : Vec) : Prop := exists i, v = vec_of i.

Lemma check_uniform i : check_snapshot (vec_of i) = inl i.
Proof. unfold check_snapshot, vec_of. simpl. by rewrite !Z.eqb_refl. Qed.

Definition reader_ok s cl (t : tid) r : Prop :=
  match rat r with RRead => reading s cl t uniform | _ => outside s cl t end.

(** The main thread is in its update of the value to [vec_of i]; or the value is [vec_of i]. *)
Inductive main_ok s cl (i : Z) : mpos -> Prop :=
  | mo_update f d v : at_stage s main_id the_cell cl f [] (SUpdate (fun _ => Some (vec_of i)) d) ->
      deref (current cl) s = Some v -> uniform v -> main_ok s cl i MWrite
  | mo_read : reading s cl main_id (eq (vec_of i)) -> deref (current cl) s = Some (vec_of i) -> main_ok s cl i MRead
  | mo_outside p : p <> MRead -> outside s cl main_id -> deref (current cl) s = Some (vec_of i) -> main_ok s cl i p.

Lemma main_uniform s cl i p : main_ok s cl i p -> exists v, deref (current cl) s = Some v /\ uniform v.
Proof. intros [f d v _ Hv Hu|_ Hv|p' _ _ Hv]; [by eauto|exists (vec_of i); split; [done|by eexists]..]. Qed.

(** All threads are where they say. *)
Definition cell_ok s (rs : gmap tid reader) (i : Z) (p : mpos) : Prop :=
  SnapMachine.reachable s /\
  exists cl, cells s !! the_cell = Some cl /\ main_ok s cl i p /\
    forall t r, rs !! t = Some r -> t <> main_id /\ reader_ok s cl t r.

Section Step.
Context s s' (t : tid) (a : access) cl cl' (Hr : SnapMachine.reachable s) (Hs : SnapMachine.step t a s = Ok s').
Context (Hc : cells s !! the_cell = Some cl) (Hc' : cells s' !! the_cell = Some cl').

Lemma reader_other u r : u <> t -> reader_ok s cl u r -> reader_ok s' cl' u r.
Proof.
  unfold reader_ok. intros Hne. destruct (rat r); try (by eapply outside_other). by eapply reading_other.
Qed.

Lemma main_other i p : t <> main_id -> current cl' = current cl -> main_ok s cl i p -> main_ok s' cl' i p.
Proof.
  intros Hne Hcur Hm. pose proof (value_kept _ _ _ _ _ _ Hr Hs Hc Hc' Hcur) as Hv.
  destruct (step_invs _ _ _ _ Hr Hs) as (? & ? & ?). destruct Hm as [f d v Hat Hd Hu|Hrd Hd|p Hp Hout Hd]; rewrite <- Hv in Hd.
  - eapply mo_update; [|done|done]. by apply (stage_other t a s s' main_id the_cell cl cl').
  - apply mo_read; [|done]. by eapply reading_other.
  - apply mo_outside; [done| |done]. by eapply outside_other.
Qed.

(** After a step of a reader, which leaves the value alone. *)
Lemma cell_reader rs i p r :
  (forall t r, rs !! t = Some r -> t <> main_id /\ reader_ok s cl t r) -> t <> main_id ->
  main_ok s cl i p -> current cl' = current cl -> reader_ok s' cl' t r -> cell_ok s' (<[t := r]> rs) i p.
Proof.
  intros Hrs Hne Hm Hcur Hok. split; [by econstructor|]. exists cl'. split_and!; [done|by apply main_other|].
  intros u ru. rewrite lookup_insert_Some. intros [[<- <-]|[Hu Hru]]; [done|].
  split; [by eapply Hrs|]. apply reader_other; [done|]. by eapply Hrs.
Qed.

(** After a step of the main thread. *)
Lemma cell_main rs i p :
  (forall t r, rs !! t = Some r -> t <> main_id /\ reader_ok s cl t r) -> t = main_id ->
  main_ok s' cl' i p -> cell_ok s' rs i p.
Proof.
  intros Hrs Ht Hm. split; [by econstructor|]. exists cl'. split_and!; [done..|].
  intros u r Hu. destruct (Hrs _ _ Hu) as [Hne Hok]. split; [done|]. apply reader_other; [congruence|done].
Qed.

(** The accesses of a call. *)
Lemma reader_access i p r :
  is_access a = true -> at_rest (th_stack (thread_of s t)) = false -> main_ok s cl i p ->
  reader_ok s cl t r -> reader_ok s' cl' t r /\ current cl' = current cl.
Proof.
  intros Ha Hb (v & Hv & Hu)%main_uniform. unfold reader_ok. destruct (rat r); try (by eapply outside_access).
  by eapply reading_access.
Qed.

Lemma main_access i p :
  t = main_id -> is_access a = true -> at_rest (th_stack (thread_of s t)) = false ->
  main_ok s cl i p -> main_ok s' cl' i p.
Proof.
  intros -> Ha Hb Hm. pose proof (value_kept _ _ _ _ _ _ Hr Hs Hc Hc') as Hk. destruct Hm as [f d v Hat Hv Hu|Hrd Hv|p Hp Hout Hv].
  - destruct (update_access _ _ _ _ _ _ Hr Hs Hc Hc' _ _ _ _ (vec_of i) Ha Hat Hv eq_refl) as [(f' & d' & Hat' & Hcur)|[Hout Hv']].
    + eapply mo_update; [done| |done]. by rewrite Hk.
    + by apply mo_outside.
  - destruct (reading_access _ _ _ _ _ _ Hr Hs Hc Hc' _ _ Ha Hb Hv eq_refl Hrd) as [Hrd' Hcur].
    apply mo_read; [done|]. by rewrite Hk.
  - destruct (outside_access _ _ _ _ _ _ Hr Hs Hc Hc' Ha Hb Hout) as [Hout' Hcur]. apply mo_outside; [done..|]. by rewrite Hk.
Qed.
End Step.

(** A step of user code that leaves the cell alone. *)
Lemma cell_quiet_reader s rs i p t r r' :
  rs !! t = Some r -> rat r <> RRead -> rat r' <> RRead -> cell_ok s rs i p -> cell_ok s (<[t := r']> rs) i p.
Proof.
  intros Ht Hn Hn' (Hr & cl & Hc & Hm & Hrs). split; [done|]. exists cl. split_and!; [done..|].
  intros u ru. rewrite lookup_insert_Some. intros [[<- <-]|[_ Hu]]; [|by apply Hrs].
  destruct (Hrs _ _ Ht) as [Hne Hok]. split; [done|]. unfold reader_ok in *. by destruct (rat r), (rat r').
Qed.

(** ** The counters of the test *)

(** The reader has bumped [started]. *)
Definition counted r : bool :=
  (0 <? reads_ r)%Z || match rat r with ROverlapped _ => true | _ => false end.
Definition counted_nat r : nat := Nat.b2n (counted r).

Record counts_ok T : Prop := {
  co_dom : dom (treaders T) = list_to_set reader_ids;
  co_reads t r : treaders T !! t = Some r -> (0 <= reads_ r)%Z;
  co_started : started T = msum counted_nat (treaders T);
  co_stop : stop T = true -> tmain T <> MStarted;
  co_past t r : tmain T <> MStarted -> treaders T !! t = Some r -> counted r = true;
  co_done t r : treaders T !! t = Some r -> rat r = RDone -> (0 < reads_ r)%Z;
  co_join ts u : tmain T = MJoin ts -> u ∈ ts -> u ∈ reader_ids;
  co_fail f : tfail T = Some f -> f = Overflow;
}.

Lemma counted_le (m : gmap tid reader) : msum counted_nat m <= size m.
Proof.
  induction m as [|t r m Hn IH] using map_ind; [by rewrite msum_empty|].
  rewrite msum_insert_fresh, map_size_insert_None by done. unfold counted_nat at 1. destruct (counted r); simpl; lia.
Qed.

(** All have bumped it when it has reached their number. *)
Lemma all_counted (m : gmap tid reader) : size m <= msum counted_nat m -> forall t r, m !! t = Some r -> counted r = true.
Proof.
  intros Hge t r Ht. destruct (counted r) eqn:Hr; [done|exfalso].
  rewrite (msum_delete _ _ _ _ Ht) in Hge. unfold counted_nat at 1 in Hge. rewrite Hr in Hge. simpl in Hge.
  pose proof (counted_le (delete t m)) as Hd.
  rewrite map_size_delete_Some in Hd by (by eexists). assert (size m <> 0) as Hne; [|lia].
  intros E%map_size_empty_inv. by rewrite E in Ht.
Qed.

(** A reader goes on. *)
Lemma counts_reader T t r r' n m :
  counts_ok T -> treaders T !! t = Some r -> (0 <= reads_ r')%Z ->
  n + counted_nat r = started T + counted_nat r' -> (counted r = true -> counted r' = true) ->
  (rat r' = RDone -> (0 < reads_ r')%Z) ->
  counts_ok (set_shared (stop T) n m (set_reader t r' T)).
Proof.
  intros [Hdom Hreads Hst Hstop Hpast Hdone Hjoin Hfail] Ht Hnn Hn Hcnt Hd.
  assert (forall (Q : reader -> Prop), (forall u ru, treaders T !! u = Some ru -> Q ru) -> Q r' ->
    forall u ru, <[t := r']> (treaders T) !! u = Some ru -> Q ru) as Hall.
  { intros Q HQ Hr' u ru. rewrite lookup_insert_Some. intros [[_ <-]|[_ Hu]]; [done|by eapply HQ]. }
  split; simpl; try done.
  - rewrite dom_insert_lookup_L by (by eexists). done.
  - by apply (Hall (fun r => 0 <= reads_ r)%Z).
  - pose proof (msum_insert counted_nat (treaders T) t r r' Ht). lia.
  - intros u ru Hp. apply (Hall (fun r => counted r = true)); [intros; by eapply Hpast|eauto].
  - apply (Hall (fun r => rat r = RDone -> 0 < reads_ r)%Z); [done|done].
Qed.

(** The main thread goes on. *)
Lemma counts_main T i p b :
  counts_ok T -> (b = true -> p <> MStarted) ->
  (p <> MStarted -> forall t r, treaders T !! t = Some r -> counted r = true) ->
  (forall ts u, p = MJoin ts -> u ∈ ts -> u ∈ reader_ids) ->
  counts_ok (set_main i p (set_shared b (started T) (overlapped T) T)).
Proof. intros [Hdom Hreads Hst Hstop Hpast Hdone Hjoin Hfail] Hb Hp Hts. split; simpl; eauto. Qed.

Lemma counts_overflow T : counts_ok T -> counts_ok (fail_with Overflow T).
Proof. intros []. split; simpl; try done. congruence. Qed.

Lemma counts_tsnap T s : counts_ok T -> counts_ok (set_tsnap s T).
Proof. by intros []. Qed.

(** ** Every interleaving *)

Definition tinv T : Prop := cell_ok (tsnap T) (treaders T) (ti T) (tmain T) /\ counts_ok T.

(** A thread's state after its step, with what it has asked of the cell. *)
Definition answered (t : tid) s T' (oa : option access) T'' : Prop :=
  match oa with
  | None => T'' = T'
  | Some a => exists s', SnapMachine.step t a s = Ok s' /\ T'' = set_tsnap s' T'
  end.

Lemma cell_after t (a : access) s s' cl :
  SnapMachine.step t a s = Ok s' -> cells s !! the_cell = Some cl -> a <> ADropCell the_cell ->
  exists cl', cells s' !! the_cell = Some cl'.
Proof. intros Hs Hc Ha. destruct (step_keeps_cell _ _ _ _ the_cell Hs Ha) as [cl' ?]; [by eexists|by exists cl']. Qed.

Lemma counted_done r : counted r = true -> rat r = RStop -> (0 < reads_ r)%Z.
Proof. unfold counted. intros Hc E1. rewrite E1, orb_false_r in Hc. by apply Z.ltb_lt. Qed.

Lemma reader_step_inv T t r T' oa T'' :
  tinv T -> treaders T !! t = Some r -> at_rest (th_stack (thread_of (tsnap T) t)) = true ->
  reader_step t r T = Some (T', oa) -> answered t (tsnap T) T' oa T'' -> tinv T''.
Proof.
  intros [Hcell Hco] Ht Hrest Hx Hans. pose proof Hcell as (Hr & cl & Hc & Hm & Hrs).
  destruct (Hrs _ _ Ht) as [Hne Hok]. pose proof (co_reads _ Hco _ _ Ht) as Hnn.
  unfold reader_step in Hx. unfold reader_ok in Hok. destruct (rat r) eqn:Hat.
  - destruct (stop T) eqn:Hstop; injection Hx as <- <-; cbn [answered] in Hans.
    + subst T''. assert (0 < reads_ r)%Z as Hpos.
      { apply counted_done; [|done]. eapply (co_past _ Hco); [by apply (co_stop _ Hco)|done]. }
      split; [apply (cell_quiet_reader _ _ _ _ t r); [done|by rewrite Hat|done|done]|].
      apply (counts_reader T t r _ (started T) (overlapped T)); unfold counted_nat, counted; rewrite ?Hat; simpl; done.
    + destruct Hans as (s' & Hs & ->). destruct (cell_after _ _ _ _ _ Hs Hc) as [cl' Hc']; [done|].
      destruct (call_read_enters _ _ _ _ _ _ Hs Hc Hc' uniform eq_refl) as [Hrd Hcur]; [by eapply outside_rest|].
      split; [by eapply (cell_reader (tsnap T) s' t _ cl cl')|]. apply counts_tsnap.
      apply (counts_reader T t r _ (started T) (overlapped T)); unfold counted_nat, counted; rewrite ?Hat; simpl; done.
  - destruct (reading_borrowed _ _ _ _ Hrest Hok) as (v & Hv & i & ->). rewrite Hv in Hx. cbn [mbind option_bind] in Hx.
    rewrite check_uniform in Hx. injection Hx as <- <-. destruct Hans as (s' & Hs & ->).
    destruct (cell_after _ _ _ _ _ Hs Hc) as [cl' Hc']; [done|].
    destruct (closure_returns _ _ _ _ _ _ Hs Hc Hc' _ eq_refl Hrest Hok) as [Hout Hcur].
    split; [by eapply (cell_reader (tsnap T) s' t _ cl cl')|]. apply counts_tsnap.
    apply (counts_reader T t r _ (started T) (overlapped T)); unfold counted_nat, counted; rewrite ?Hat; simpl; done.
  - injection Hx as <- <-. cbn [answered] in Hans. subst T''. split; [apply (cell_quiet_reader _ _ _ _ t r); [done|by rewrite Hat|done|done]|].
    apply (counts_reader T t r _ _ (overlapped T)); unfold counted_nat, counted; rewrite ?Hat; simpl; try done.
    + rewrite orb_false_r, orb_true_r. destruct (Z.eqb_spec (reads_ r) 0) as [->|Hz]; simpl; [lia|].
      destruct (Z.ltb_spec 0 (reads_ r)); simpl; lia.
    + intros _. apply orb_true_r.
  - unfold u64_inc in Hx. destruct (reads_ r + 1 <? u64_modulus)%Z; injection Hx as <- <-; cbn [answered] in Hans; subst T''.
    + split; [apply (cell_quiet_reader _ _ _ _ t r); [done|by rewrite Hat|done|done]|].
      apply (counts_reader T t r); unfold counted_nat, counted; rewrite ?Hat; simpl; try done; [lia|..];
        rewrite ?orb_true_r, ?orb_false_r; [|intros _]; (destruct (Z.ltb_spec 0 (reads_ r + 1)); simpl; lia).
    + split; [done|by apply counts_overflow].
  - done.
Qed.

(** Steps of the main thread that do not touch the cell. *)
Lemma main_quiet T T' :
  tinv T -> tmain T <> MRead -> tmain T' <> MRead -> at_rest (th_stack (thread_of (tsnap T) main_id)) = true ->
  tsnap T' = tsnap T -> treaders T' = treaders T -> ti T' = ti T -> counts_ok T' -> tinv T'.
Proof.
  intros [(Hr & cl & Hc & Hm & Hrs) _] Hn Hp Hrest Hs Hrd Hi Hco. split; [|done].
  rewrite Hs, Hrd, Hi. split; [done|]. exists cl. split_and!; [done| |done].
  destruct Hm as [f d v [E1 E2 E3] _ _|_ _|p' _ Hout Hv]; [|done|by apply mo_outside].
  exfalso. rewrite E1 in Hrest. by destruct f.
Qed.

Lemma main_at_rest s cl i p :
  at_rest (th_stack (thread_of s main_id)) = true -> main_ok s cl i p ->
  (p = MRead /\ reading s cl main_id (eq (vec_of i)) \/ p <> MRead /\ th_stack (thread_of s main_id) = []) /\
  deref (current cl) s = Some (vec_of i).
Proof.
  intros Hrest [f d v [E1 E2 E3] _ _|Hrd Hv|p' Hp Hout Hv].
  - exfalso. rewrite E1 in Hrest. by destruct f.
  - split; [by left|done].
  - split; [right; split; [done|by eapply outside_rest]|done].
Qed.

Lemma readers_size T : counts_ok T -> size (treaders T) = READERS.
Proof. intros Hco. rewrite <- size_dom, (co_dom _ Hco). done. Qed.

Lemma past_started T : counts_ok T -> ~ started T < READERS -> forall t r, treaders T !! t = Some r -> counted r = true.
Proof. intros Hco Hge. apply all_counted. rewrite readers_size, <- (co_started _ Hco) by done. lia. Qed.

Section Main.
Context T T' T'' (oa : option access) (min_writes : Z) (Hinv : tinv T) (Hrest : at_rest (th_stack (thread_of (tsnap T) main_id)) = true).
Context (Hx : main_step min_writes main_id T = Some (T', oa)) (Hans : answered main_id (tsnap T) T' oa T'').

Lemma main_write_inv : tmain T = MWrite -> tinv T''.
Proof.
  intros Hp. pose proof Hinv as [(Hr & cl & Hc & Hm & Hrs) Hco]. unfold main_step in Hx. rewrite Hp in Hx.
  assert (forall t r, treaders T !! t = Some r -> counted r = true) as Hpast
    by (intros t r; apply (co_past _ Hco); by rewrite Hp).
  destruct (_ || _); [unfold u64_inc in Hx; destruct (ti T + 1 <? u64_modulus)%Z|];
    injection Hx as <- <-; cbn [answered] in Hans.
  - destruct Hans as (s' & Hs & ->). destruct (cell_after _ _ _ _ _ Hs Hc) as [cl' Hc']; [done|].
    destruct (main_at_rest _ _ _ _ Hrest Hm) as [[[??]|[_ Hst]] Hv]; [congruence|].
    destruct (call_update_enters _ _ _ _ _ _ Hs Hc Hc' _ eq_refl Hst) as [[f Hat] Hcur]. split.
    + eapply (cell_main (tsnap T) s' main_id _ cl cl'); try done. eapply mo_update; [exact Hat| |by exists (ti T)].
      etrans; [by eapply (value_kept (tsnap T) s')|exact Hv].
    + apply counts_tsnap. by apply (counts_main T _ MWrite (stop T)).
  - subst T''. split; [by split; [|exists cl]|by apply counts_overflow].
  - subst T''. apply (main_quiet T); try done; [by rewrite Hp|]. by apply (counts_main T _ MStop (stop T)).
Qed.

Lemma main_join_inv ts : tmain T = MJoin ts -> tinv T''.
Proof.
  intros Hp. pose proof Hinv as [(Hr & cl & Hc & Hm & Hrs) Hco]. unfold main_step in Hx. rewrite Hp in Hx.
  assert (forall t r, treaders T !! t = Some r -> counted r = true) as Hpast
    by (intros t r; apply (co_past _ Hco); by rewrite Hp).
  destruct ts as [|u ts].
  - injection Hx as <- <-. destruct Hans as (s' & Hs & ->). destruct (cell_after _ _ _ _ _ Hs Hc) as [cl' Hc']; [done|].
    destruct (main_at_rest _ _ _ _ Hrest Hm) as [[[??]|[_ Hst]] Hv]; [congruence|].
    destruct (call_read_enters _ _ _ _ _ _ Hs Hc Hc' (eq (vec_of (ti T))) eq_refl Hst) as [Hrd Hcur]. split.
    + eapply (cell_main (tsnap T) s' main_id _ cl cl'); try done. apply mo_read; [done|].
      etrans; [by eapply (value_kept (tsnap T) s')|exact Hv].
    + apply counts_tsnap. by apply (counts_main T _ MRead (stop T)).
  - destruct (treaders T !! u) as [r|] eqn:Hu; [cbn [mbind option_bind] in Hx|done].
    destruct (rat r) eqn:Hat; try done.
    pose proof (co_done _ Hco _ _ Hu Hat) as Hpos. apply Z.ltb_lt in Hpos. rewrite Hpos in Hx.
    injection Hx as <- <-. cbn [answered] in Hans. subst T''. apply (main_quiet T); try done; [by rewrite Hp|].
    apply (counts_main T _ (MJoin ts) (stop T)); try done. intros ts' v [= <-] Hv.
    eapply (co_join _ Hco); [done|by right].
Qed.

Lemma main_read_inv : tmain T = MRead -> tinv T''.
Proof.
  intros Hp. pose proof Hinv as [(Hr & cl & Hc & Hm & Hrs) Hco]. unfold main_step in Hx. rewrite Hp in Hx, Hm.
  assert (forall t r, treaders T !! t = Some r -> counted r = true) as Hpast
    by (intros t r; apply (co_past _ Hco); by rewrite Hp).
  destruct (main_at_rest _ _ _ _ Hrest Hm) as [[[_ Hrd]|[? _]] Hv]; [|done].
  destruct (reading_borrowed _ _ _ _ Hrest Hrd) as (v & Hb & <-). rewrite Hb in Hx. cbn in Hx.
  rewrite Z.eqb_refl in Hx. injection Hx as <- <-. destruct Hans as (s' & Hs & ->).
  destruct (cell_after _ _ _ _ _ Hs Hc) as [cl' Hc']; [done|].
  destruct (closure_returns _ _ _ _ _ _ Hs Hc Hc' _ eq_refl Hrest Hrd) as [Hout Hcur]. split.
  - eapply (cell_main (tsnap T) s' main_id _ cl cl'); try done. apply mo_outside; [done..|].
    etrans; [by eapply (value_kept (tsnap T) s')|exact Hv].
  - apply counts_tsnap. by apply (counts_main T _ MEnd (stop T)).
Qed.

Lemma main_step_inv : tinv T''.
Proof.
  pose proof Hinv as [_ Hco]. destruct (tmain T) eqn:Hp.
  - unfold main_step in Hx. rewrite Hp in Hx. case_decide as Hlt; injection Hx as <- <-; cbn [answered] in Hans; subst T''; [done|].
    apply (main_quiet T); try done; [by rewrite Hp|]. apply (counts_main T _ MWrite (stop T)); try done.
    intros _. by apply past_started.
  - by apply main_write_inv.
  - unfold main_step in Hx. rewrite Hp in Hx. injection Hx as <- <-. cbn [answered] in Hans. subst T''.
    apply (main_quiet T); try done; [by rewrite Hp|]. apply (counts_main T _ (MJoin reader_ids) true); try done.
    + intros _ t r. apply (co_past _ Hco). by rewrite Hp.
    + by intros ts u [= <-].
  - by eapply main_join_inv.
  - by apply main_read_inv.
  - unfold main_step in Hx. by rewrite Hp in Hx.
Qed.
End Main.

(** Other threads do nothing. *)
Definition idle_others T : Prop := forall t, t <> main_id -> treaders T !! t = None -> th_stack (thread_of (tsnap T) t) = [].

Lemma code_answered min_writes t a T T'' :
  tfail T = None -> at_rest (th_stack (thread_of (tsnap T) t)) = true -> tstep min_writes t a T = Some T'' ->
  exists T' oa, code_step min_writes t T = Some (T', oa) /\ answered t (tsnap T) T' oa T''.
Proof.
  intros Hf Hrest Hs. unfold tstep in Hs. rewrite Hf, Hrest in Hs.
  destruct (code_step min_writes t T) as [[T' oa]|]; [cbn [mbind option_bind] in Hs|done]. exists T', oa. split; [done|].
  destruct oa as [a'|]; [|by injection Hs]. destruct (SnapMachine.step t a' (tsnap T)) as [s'| |] eqn:Hstep; [|done..].
  injection Hs as <-. by exists s'.
Qed.

Lemma access_inv t a T s' :
  tinv T -> idle_others T -> at_rest (th_stack (thread_of (tsnap T) t)) = false -> is_access a = true ->
  SnapMachine.step t a (tsnap T) = Ok s' -> tinv (set_tsnap s' T).
Proof.
  intros [(Hr & cl & Hc & Hm & Hrs) Hco] Hidle Hb Ha Hs.
  destruct (cell_after _ _ _ _ _ Hs Hc) as [cl' Hc']; [by intros ->|]. split; [|by apply counts_tsnap].
  destruct (decide (t = main_id)) as [Ht|Hne].
  - eapply (cell_main (tsnap T) s' t a cl cl'); try done. by eapply (main_access (tsnap T) s' t a cl cl').
  - destruct (treaders T !! t) as [r|] eqn:Hu; [|by rewrite (Hidle t Hne Hu) in Hb].
    destruct (reader_access (tsnap T) s' t a cl cl' Hr Hs Hc Hc' _ _ _ Ha Hb Hm (proj2 (Hrs _ _ Hu))) as [Hok Hcur].
    change (cell_ok s' (treaders T) (ti T) (tmain T)). rewrite <- (insert_id (treaders T) t r Hu). by eapply (cell_reader (tsnap T) s' t a cl cl').
Qed.

Lemma tstep_inv min_writes t a T T' :
  tinv T -> idle_others T -> tstep min_writes t a T = Some T' -> tinv T'.
Proof.
  intros Hinv Hidle Hs. assert (tfail T = None) as Hf by (unfold tstep in Hs; by destruct (tfail T)).
  destruct (at_rest (th_stack (thread_of (tsnap T) t))) eqn:Hrest.
  - destruct (code_answered _ _ _ _ _ Hf Hrest Hs) as (T1 & oa & Hx & Hans). unfold code_step in Hx.
    case_decide as Ht; [subst t; by eapply main_step_inv|].
    destruct (treaders T !! t) as [r|] eqn:Hu; [|done]. by eapply reader_step_inv.
  - unfold tstep in Hs. rewrite Hf, Hrest in Hs. destruct (is_access a) eqn:Ha; [|done].
    destruct (SnapMachine.step t a (tsnap T)) as [s'| |] eqn:Hstep; [|done..]. injection Hs as <-. by eapply access_inv.
Qed.

(** The state of the cell after a step, and the readers. *)
Lemma tstep_snap min_writes t a T T' :
  tinv T -> tstep min_writes t a T = Some T' ->
  (tsnap T' = tsnap T \/ exists a', SnapMachine.step t a' (tsnap T) = Ok (tsnap T')) /\
  (t = main_id \/ is_Some (treaders T !! t) \/ at_rest (th_stack (thread_of (tsnap T) t)) = false).
Proof.
  intros Hinv Hs. assert (tfail T = None) as Hf by (unfold tstep in Hs; by destruct (tfail T)).
  destruct (at_rest (th_stack (thread_of (tsnap T) t))) eqn:Hrest.
  - destruct (code_answered _ _ _ _ _ Hf Hrest Hs) as (T1 & oa & Hx & Hans).
    assert (tsnap T1 = tsnap T) as Hsame.
    { unfold code_step, main_step, reader_step in Hx. by repeat (case_match; simplify_option_eq). }
    split.
    + destruct oa as [a'|]; cbn [answered] in Hans; [|left; by subst T'].
      destruct Hans as (s' & Hs' & ->). right. by exists a'.
    + unfold code_step in Hx. case_decide; [by left|]. destruct (treaders T !! t); [|done]. right. left. by eexists.
  - split; [|by right; right]. unfold tstep in Hs. rewrite Hf, Hrest in Hs. destruct (is_access a); [|done].
    destruct (SnapMachine.step t a (tsnap T)) as [s'| |] eqn:Hstep; [|done..]. injection Hs as <-. right. by exists a.
Qed.

Lemma tstep_idle min_writes t a T T' :
  tinv T -> idle_others T -> tstep min_writes t a T = Some T' -> idle_others T'.
Proof.
  intros Hinv Hidle Hs u Hu Hn. pose proof (tstep_inv _ _ _ _ _ Hinv Hidle Hs) as [_ Hco'].
  assert (treaders T !! u = None) as Hn0.
  { apply not_elem_of_dom. rewrite (co_dom _ (proj2 Hinv)), <- (co_dom _ Hco'). by apply not_elem_of_dom. }
  destruct (tstep_snap _ _ _ _ _ Hinv Hs) as [[->|[a' Ha']] Hwho]; [by apply Hidle|].
  assert (u <> t) as Hne.
  { intros ->. destruct Hwho as [->|[[r Hr]|Hb]]; [done|congruence|]. by rewrite (Hidle t Hu Hn0) in Hb. }
  rewrite (step_other _ _ _ _ _ Ha' Hne). by apply Hidle.
Qed.

Lemma start_reader x t r : treaders (tstart x) !! t = Some r -> t <> main_id /\ r = Reader 0 false RStop.
Proof.
  intros Ht%elem_of_list_to_map_2. apply list_elem_of_fmap in Ht as (t' & [= -> ->] & Hin). apply elem_of_seq in Hin.
  unfold main_id. split; [lia|done].
Qed.

Lemma treachable_inv x min_writes T : treachable x min_writes T -> tinv T /\ idle_others T.
Proof.
  induction 1 as [|t a T T' _ [IH1 IH2] Hs]; [|split; [by eapply tstep_inv|by eapply tstep_idle]].
  split; [|done]. split; [split|].
  - eapply (SnapMachine.reach_step init main_id (ANew the_cell (vec_of 0) x)); [constructor|done].
  - exists (Cell (Ptr x 0) 0 0 None []). split_and!; [done| |].
    + apply mo_outside; [done|by apply out_idle|].
      change (b_val <$> <[x := Block 0 (vec_of 0) 1]> (heap (V := Vec) init) !! x = Some (vec_of 0)).
      by rewrite lookup_insert_eq.
    + intros t r [Hne ->]%(start_reader x). split; [done|]. by apply out_idle.
  - split; try done; intros t r; [by intros [_ ->]%(start_reader x)..].
Qed.

(** ** It never hangs *)

Definition can (min_writes : Z) (t : tid) T : Prop := exists a T', tstep min_writes t a T = Some T'.

(** The position of a thread inside a call. *)
Lemma busy_stage T t :
  tinv T -> idle_others T -> at_rest (th_stack (thread_of (tsnap T) t)) = false ->
  exists cl f g, cells (tsnap T) !! the_cell = Some cl /\ at_stage (tsnap T) t the_cell cl f [] g.
Proof.
  intros [(Hr & cl & Hc & Hm & Hrs) Hco] Hidle Hb. exists cl.
  assert (outside (tsnap T) cl t \/ (exists P, reading (tsnap T) cl t P) \/
    exists f g, at_stage (tsnap T) t the_cell cl f [] g) as [[Hst|f Hat]|[(P & [f Hat|f p v Hst _ Hf _ _])|(f & g & Hat)]].
  { destruct (decide (t = main_id)) as [->|Hne]; [destruct Hm; eauto|].
    destruct (treaders T !! t) as [r|] eqn:Hu; [|left; apply out_idle; by apply Hidle].
    destruct (Hrs _ _ Hu) as [_ Hok]. unfold reader_ok in Hok. destruct (rat r); eauto. }
  all: try (by rewrite Hst in Hb); try (by rewrite Hst, Hf in Hb); by eauto.
Qed.

Lemma access_can min_writes T t a s' :
  tfail T = None -> at_rest (th_stack (thread_of (tsnap T) t)) = false -> is_access a = true ->
  SnapMachine.step t a (tsnap T) = Ok s' -> can min_writes t T.
Proof. intros Hf Hb Ha Hs. exists a, (set_tsnap s' T). unfold tstep. by rewrite Hf, Hb, Ha, Hs. Qed.

(** A thread inside a call can go on, or the thread that holds the lock can. *)
Lemma busy_can min_writes T t :
  tinv T -> idle_others T -> tfail T = None -> at_rest (th_stack (thread_of (tsnap T) t)) = false ->
  exists u, can min_writes u T.
Proof.
  intros Hinv Hidle Hf Hb. destruct (busy_stage _ _ Hinv Hidle Hb) as (cl & f & g & Hc & Hat).
  pose proof Hinv as [[Hr _] _].
  destruct (call_progress _ _ _ _ _ _ _ Hr Hat Hc) as [(a & s' & Ha & Hs)|(k & u & cr & -> & Hw & _)].
  { exists t. by eapply access_can. }
  pose proof (reachable_inv _ Hr) as Hi. exists u.
  destruct (holder_step _ _ _ _ _ Hi Hc Hw) as (a & s' & _ & Hs & _).
  destruct (li_holder _ (inv_lock _ Hi) _ _ _ _ Hc Hw) as (k' & rest & Hst & _).
  eapply access_can; [done|by rewrite Hst|by eapply crit_access|done].
Qed.

(** A reader that has not ended can go on. *)
Lemma reader_can min_writes T t r :
  tinv T -> tfail T = None -> treaders T !! t = Some r -> rat r <> RDone ->
  at_rest (th_stack (thread_of (tsnap T) t)) = true -> can min_writes t T.
Proof.
  intros [(Hr & cl & Hc & Hm & Hrs) Hco] Hf Ht Hn Hrest. destruct (Hrs _ _ Ht) as [Hne Hok].
  exists ANext. unfold tstep, code_step. rewrite Hf, Hrest, decide_False, Ht by done. cbn [mbind option_bind].
  unfold reader_step, reader_ok in *. destruct (rat r); [| | | |done].
  - destruct (stop T); [by eexists|]. cbn [mbind option_bind]. unfold SnapMachine.step.
    rewrite (outside_rest _ _ _ Hrest Hok). simpl. rewrite Hc. by eexists.
  - destruct (reading_borrowed _ _ _ _ Hrest Hok) as (v & Hv & i & ->). rewrite Hv. cbn [mbind option_bind].
    rewrite check_uniform. cbn [mbind option_bind]. unfold borrowed in Hv. unfold SnapMachine.step.
    destruct (th_stack (thread_of (tsnap T) t)) as [|[] ?]; try done; by eexists.
  - by eexists.
  - destruct (u64_inc (reads_ r)); by eexists.
Qed.

Lemma main_can min_writes T :
  tinv T -> tfail T = None -> tmain T <> MEnd -> at_rest (th_stack (thread_of (tsnap T) main_id)) = true ->
  can min_writes main_id T \/ exists t r, treaders T !! t = Some r /\ rat r <> RDone.
Proof.
  intros [(Hr & cl & Hc & Hm & Hrs) Hco] Hf Hn Hrest. destruct (main_at_rest _ _ _ _ Hrest Hm) as [Hat Hv].
  unfold can, tstep, code_step. rewrite Hf, Hrest, decide_True by done. unfold main_step.
  destruct (tmain T) as [| | |ts| |] eqn:Hp; [left; exists ANext|left; exists ANext|left; exists ANext| |left; exists ANext|done].
  - by eexists.
  - destruct (_ || _); [|by eexists]. destruct (u64_inc (ti T)); [|by eexists]. cbn [mbind option_bind].
    destruct Hat as [[??]|[_ Hst]]; [done|]. unfold SnapMachine.step. rewrite Hst. simpl. rewrite Hc. by eexists.
  - by eexists.
  - destruct ts as [|u ts].
    + left. exists ANext. cbn [mbind option_bind]. destruct Hat as [[??]|[_ Hst]]; [done|]. unfold SnapMachine.step. rewrite Hst. simpl.
      rewrite Hc. by eexists.
    + assert (u ∈ dom (treaders T)) as [r Hu]%elem_of_dom.
      { rewrite (co_dom _ Hco), elem_of_list_to_set. eapply (co_join _ Hco); [done|left]. }
      rewrite Hu. cbn [mbind option_bind]. destruct (rat r) eqn:Hat'; [right; exists u, r; by rewrite Hat'..|].
      left. exists ANext. destruct (0 <? reads_ r)%Z; by eexists.
  - destruct Hat as [[_ Hrd]|[? _]]; [|done]. destruct (reading_borrowed _ _ _ _ Hrest Hrd) as (v & Hb & <-).
    rewrite Hb. cbn -[SnapMachine.step]. rewrite Z.eqb_refl. cbn [mbind option_bind]. unfold borrowed in Hb. unfold SnapMachine.step.
    destruct (th_stack (thread_of (tsnap T) main_id)) as [|[] ?]; try done; by eexists.
Qed.

(** ** The test passes *)

(** (C33) The stress test, in every interleaving of its threads at every access to memory: readers
    never find a torn or freed value, each reader has read at least once when it is joined,
    the main thread finds the value it wrote last, and no access is undefined; only a 64-bit
    counter could overflow.  And it never hangs: until the main thread has ended, some thread
    can go on. *)
Theorem stress_test_passes x min_writes T :
  treachable x min_writes T ->
  (forall f, tfail T = Some f -> f = Overflow) /\
  (forall t a, SnapMachine.step t a (tsnap T) <> UB) /\
  (tmain T = MEnd -> abs (tsnap T) !! the_cell = Some (vec_of (ti T))) /\
  (tfail T = None -> tmain T <> MEnd -> exists t, can min_writes t T).
Proof.
  intros [Hinv Hidle]%treachable_inv. pose proof Hinv as [(Hr & cl & Hc & Hm & Hrs) Hco].
  split_and!.
  - apply (co_fail _ Hco).
  - intros t a. by apply step_safe, reachable_inv.
  - intros Hp. rewrite Hp in Hm. unfold abs. rewrite lookup_omap, Hc. by inversion Hm.
  - intros Hf Hp. destruct (at_rest (th_stack (thread_of (tsnap T) main_id))) eqn:Hrest; [|by eapply busy_can].
    destruct (main_can min_writes T Hinv Hf Hp Hrest) as [?|(t & r & Ht & Hn)]; [by exists main_id|].
    destruct (at_rest (th_stack (thread_of (tsnap T) t))) eqn:Hrest'; [exists t; by eapply reader_can|by eapply busy_can].
Qed.

(** ** Example *)

(** A schedule; steps that a thread cannot make are left out. *)
Definition tplay (min_writes : Z) (sched : list (tid * access)) T : test :=
  foldl (fun T ta => default T (tstep min_writes ta.1 ta.2 T)) T sched.

Lemma tplay_reachable x min_writes sched T :
  treachable x min_writes T -> treachable x min_writes (tplay min_writes sched T).
Proof.
  revert T. induction sched as [|[t a] sched IH]; intros T HT; [done|]. simpl. apply IH.
  destruct (tstep min_writes t a T) as [T'|] eqn:Hs; [by econstructor|done].
Qed.

(** [n] steps of thread [t]; what it allocates is put at [x] and above. *)
Definition steps_of (t n x : nat) : list (tid * access) := (fun i => (t, AAlloc (x + i))) <$> seq 0 n.

(** Every reader reads; the main thread writes twice while the readers read on; then it stops
    them, joins them and reads. *)
Definition whole_test : list (tid * access) :=
  steps_of 1 14 200 ++ steps_of 2 18 200 ++ steps_of 3 20 200 ++ steps_of 4 26 200 ++ steps_of 0 30 300 ++
  steps_of 1 30 200 ++ steps_of 0 20 400 ++ steps_of 2 40 200 ++ steps_of 3 40 200 ++ steps_of 4 40 200 ++
  steps_of 0 60 500 ++ steps_of 1 120 200 ++ steps_of 2 40 200 ++ steps_of 3 40 200 ++ steps_of 4 40 200 ++
  steps_of 0 40 600.

Lemma stress_test_passes_witness :
  let T := tplay 2 whole_test (tstart 100) in
  (tmain T, ti T, started T, overlapped T) = (MEnd, 2%Z, 4, 4) /\
  (forall f, tfail T = Some f -> f = Overflow) /\
  (forall t a, SnapMachine.step t a (tsnap T) <> UB) /\
  (tmain T = MEnd -> abs (tsnap T) !! the_cell = Some (vec_of (ti T))) /\
  (tfail T = None -> tmain T <> MEnd -> exists t, can 2 t T).
Proof.
  intros T. split; [by vm_compute|]. apply (stress_test_passes 100 2 T). apply tplay_reachable. constructor.
Defined.
