(* ===== verification/CellExamples.v ===== *)
(** Two threads over one registry and its cell, run access by access. *)
From S2P Require Import Prelude HandlerId HandlerList HandlerStore PanicInfo Hazard SnapCell.
From S2P Require Import SnapMachine SnapSpec RegistryConc CellCalls SyncRegistry SyncRefine CellRegistry.
From S2P Require Import SyncThreads CellSim CellCode CellTheorems CellProgress.

Abbreviation fsched := (list (nat * SnapMachine.action (list (HandlerEntry (stored nat nat))))).

(** Thread 1 registers a handler and dispatches twice; thread 2 removes the handler and waits. *)
Definition found (b : bool) : prog nat nat := Emit (if b then 7 else 8) Ret.

Definition two_programs : gmap nat (prog nat nat) :=
  {[1 := Register 0 (fun _ => Emit 1 Ret) (fun _ => Notify 5 (Notify 6 Ret));
    2 := UnregisterAndWait (from_raw 1) found]}.

(** [n] steps of thread [t]; what it allocates is put at [x] and above. *)
Definition by_ (t n x : nat) : fsched := (fun i => (t, AAlloc (x + i))) <$> seq 0 n.

Definition after_f (l : fsched) : full nat nat :=
  default (fstart 100 two_programs) (frun l (fstart 100 two_programs)).

Lemma after_f_reachable l : freachable 100 two_programs (after_f l).
Proof.
  unfold after_f. destruct (frun l (fstart 100 two_programs)) as [F|] eqn:Hr; simpl; [|constructor].
  by eapply freachable_run; [constructor|].
Qed.

(** Thread 1 is inside the handler and thread 2 has just called [update]. *)
Definition called_update : fsched := by_ 1 23 200 ++ by_ 2 1 300.

(** Thread 2 removes the handler and polls once in vain; thread 1 leaves its dispatch, frees
    the old list and starts to read the new one; thread 2 looks again. *)
Definition waiting_f : fsched := by_ 2 24 301 ++ by_ 1 20 400 ++ by_ 2 3 500.

(** The wait returns, thread 2 ends, thread 1 dispatches over the empty list and ends. *)
Definition to_the_end : fsched := by_ 2 2 504 ++ by_ 1 8 600.

Lemma crate_refines_witness :
  trace (fw (after_f (called_update ++ waiting_f ++ by_ 2 1 503 ++ to_the_end))) =
    [TIssue (from_raw 1); TCall 1 (from_raw 1); TEmit 1; TWait; TEmit 7] /\
  exists m, reachable two_programs m /\ shows (after_f (called_update ++ waiting_f)) m.
Proof.
  split; [by vm_compute|].
  apply (crate_refines 100 two_programs (after_f (called_update ++ waiting_f))). apply after_f_reachable.
Defined.

Lemma crate_wait_quiesces_witness :
  fthreads (after_f (called_update ++ waiting_f ++ by_ 2 1 503 ++ to_the_end)) !! 1 = Some (CEnded Done) /\
  frames_of 1 (after_f called_update) = [CRun (Emit 1 Ret); CHandler (from_raw 1) None; CDispatch 5 1 (Notify 6 Ret)] /\
  (exists l, abs (snap (after_f (called_update ++ waiting_f ++ by_ 2 1 503 ++ by_ 1 4 600))) !! handlers_cell = Some l /\
     from_raw 1 ∉ entry_id <$> l) /\
  forall u cst' once, u <> 2 ->
    fthreads (after_f (called_update ++ waiting_f ++ by_ 2 1 503 ++ by_ 1 4 600)) !! u = Some (CRunning cst') ->
    CHandler (from_raw 1) once ∉ cst'.
Proof.
  split; [by vm_compute|]. split; [by vm_compute|].
  apply (crate_wait_quiesces 100 two_programs 2 (from_raw 1) found [] (after_f called_update)
    (after_f (called_update ++ waiting_f)) (after_f (called_update ++ waiting_f ++ by_ 2 1 503)) _
    waiting_f (by_ 1 4 600) (AAlloc 503) 1 2 []).
  - apply after_f_reachable.
  - by vm_compute.
  - vm_compute. repeat (split; [first [by left|by right; left|by right; right]|]). done.
  - by vm_compute.
  - by vm_compute.
  - by vm_compute.
  - by vm_compute.
  - by vm_compute.
Defined.

(** Thread 1 is inside the critical section of its insertion and thread 2 wants the lock. *)
Definition lock_taken : fsched := by_ 1 4 200 ++ by_ 2 1 300.

Lemma crate_progress_witness :
  fstep 2 ANext (after_f lock_taken) = None /\
  ((exists a F', fstep 2 a (after_f lock_taken) = Some F') \/
   (exists k rest u cst' a F', th_stack (thread_of (snap (after_f lock_taken)) 2) = FLock handlers_cell k :: rest /\
      u <> 2 /\ fthreads (after_f lock_taken) !! u = Some (CRunning cst') /\ fstep u a (after_f lock_taken) = Some F')).
Proof.
  split; [by vm_compute|].
  apply (crate_progress 100 two_programs (after_f lock_taken) 2 (frames_of 2 (after_f lock_taken)));
    [apply after_f_reachable|by vm_compute|by vm_compute].
Defined.
