(* ===== verification/Unwind.v ===== *)
(** Code that changes a state, may unwind and may abort the process: the monad the
    asynchronous half of the crate is written in. *)
From S2P Require Import Prelude HandlerId PanicInfo.

(** How a piece of code ends: with a value, unwinding, or by aborting the process
    (a panic in a destructor that runs during unwinding). *)
Inductive ending (A : Type) :=
  | Val (a : A)
  | Unwinding (p : payload)
  | Aborting.
Arguments Val {A}.
Arguments Unwinding {A}.
Arguments Aborting {A}.

(** State passing; [None] stands only for a model that ran out of fuel. *)
Definition M (W A : Type) : Type := W -> option (ending A * W).

#[export] Instance M_ret W : MRet (M W) := fun A a w => Some (Val a, w).

#[export] Instance M_bind W : MBind (M W) := fun A B k m w =>
  match m w with
  | None => None
  | Some (Val a, w) => k a w
  | Some (Unwinding p, w) => Some (Unwinding p, w)
  | Some (Aborting, w) => Some (Aborting, w)
  end.

#[export] Instance M_fmap W : FMap (M W) := fun A B f m => a ← m; mret (f a).

Section Primitives.
Context {W : Type}.

Definition get : M W W := fun w => Some (Val w, w).
Definition modify (f : W -> W) : M W unit := fun w => Some (Val tt, f w).
Definition transact {A} (f : W -> A * W) : M W A := fun w => let '(a, w) := f w in Some (Val a, w).
Definition panic {A} (p : payload) : M W A := fun w => Some (Unwinding p, w).
Definition out_of_fuel {A} : M W A := fun _ => None.

(** [std::panic::catch_unwind]: a panic becomes a value. *)
Definition catch_unwind {A} (m : M W A) : M W (A + payload) := fun w =>
  match m w with
  | None => None
  | Some (Val a, w) => Some (Val (inl a), w)
  | Some (Unwinding p, w) => Some (Val (inr p), w)
  | Some (Aborting, w) => Some (Aborting, w)
  end.

(** The drop of a panic payload. *)
Definition drop_box (p : payload) : M W unit :=
  match drop_payload p with Some q => panic q | None => mret tt end.

(** [m], after which the payloads [ps] are dropped, also when [m] unwinds; a second
    panic on that way out aborts.  (When [m] ends normally they have been moved.) *)
Definition dropping_on_unwind {A} (ps : list payload) (m : M W A) : M W A := fun w =>
  match m w with
  | Some (Unwinding q, w) =>
      if forallb (fun p => bool_decide (drop_payload p = None)) ps
      then Some (Unwinding q, w) else Some (Aborting, w)
  | r => r
  end.

(** ** Inversion *)

(** A sequence ends with a value through the value of its first part. *)
Lemma bind_inv {A B} (m : M W A) (k : A -> M W B) w r w' :
  (m ≫= k) w = Some (r, w') ->
  (exists a w1, m w = Some (Val a, w1) /\ k a w1 = Some (r, w')) \/
  (exists p, m w = Some (Unwinding p, w') /\ r = Unwinding p) \/
  (m w = Some (Aborting, w') /\ r = Aborting).
Proof.
  unfold mbind, M_bind. destruct (m w) as [[[a|p|] w1]|]; intros Hk; simplify_eq; eauto 6.
Qed.

Lemma bind_val_inv {A B} (m : M W A) (k : A -> M W B) w b w' :
  (m ≫= k) w = Some (Val b, w') ->
  exists a w1, m w = Some (Val a, w1) /\ k a w1 = Some (Val b, w').
Proof. intros [?|[(? & ? & ?)|(? & ?)]]%bind_inv; [done|congruence..]. Qed.

Lemma bind_some {A B} (m : M W A) (k : A -> M W B) w a w1 :
  m w = Some (Val a, w1) -> (m ≫= k) w = k a w1.
Proof. unfold mbind, M_bind. by intros ->. Qed.

(** What is caught never unwinds. *)
Lemma catch_unwind_val {A} (m : M W A) w r w' :
  catch_unwind m w = Some (r, w') ->
  (exists a, m w = Some (Val a, w') /\ r = Val (inl a)) \/
  (exists p, m w = Some (Unwinding p, w') /\ r = Val (inr p)) \/
  (m w = Some (Aborting, w') /\ r = Aborting).
Proof.
  unfold catch_unwind. destruct (m w) as [[[a|p|] w1]|]; intros Hk; simplify_eq; eauto 6.
Qed.
End Primitives.

(** Destructs a sequence that ended with a value. *)
Ltac mval H :=
  lazymatch type of H with
  | _ = Some (Val _, _) =>
      let a := fresh "a" in let w := fresh "w" in let H1 := fresh "Hm" in
      apply bind_val_inv in H as (a & w & H1 & H)
  end.

(** ** Predicates on results *)

(** [m], run in any state satisfying [P], ends with a result and a state in [Q]. *)
Definition ends {W A} (P : W -> Prop) (m : M W A) (Q : ending A -> W -> Prop) : Prop :=
  forall w r w', P w -> m w = Some (r, w') -> Q r w'.

Section Ends.
Context {W : Type} (P : W -> Prop).

(** Code that never unwinds nor aborts. *)
Definition calm {A} (m : M W A) (Q : A -> Prop) : Prop :=
  ends P m (fun r w => P w /\ exists a, r = Val a /\ Q a).

Lemma calm_ret {A} (a : A) (Q : A -> Prop) : Q a -> calm (mret a) Q.
Proof. intros Ha w r w' Hw [= <- <-]. eauto. Qed.

Lemma calm_bind {A B} (m : M W A) (k : A -> M W B) (Q : A -> Prop) (R : B -> Prop) :
  calm m Q -> (forall a, Q a -> calm (k a) R) -> calm (m ≫= k) R.
Proof.
  intros Hm Hk w r w' Hw [(a & w1 & H1 & H2)|[(p & H1 & ->)|[H1 ->]]]%bind_inv.
  - destruct (Hm _ _ _ Hw H1) as (Hw1 & b & [= <-] & HQ). by eapply Hk.
  - destruct (Hm _ _ _ Hw H1) as (_ & b & ? & _). done.
  - destruct (Hm _ _ _ Hw H1) as (_ & b & ? & _). done.
Qed.

Lemma calm_impl {A} (m : M W A) (Q R : A -> Prop) :
  calm m Q -> (forall a, Q a -> R a) -> calm m R.
Proof.
  intros Hm HQ w r w' Hw Hr. destruct (Hm _ _ _ Hw Hr) as (? & a & -> & ?). eauto.
Qed.

Lemma calm_modify f : (forall w, P w -> P (f w)) -> calm (modify f) (fun _ => True).
Proof. intros Hf w r w' Hw [= <- <-]. eauto. Qed.

Lemma calm_drop_box p : quiet p -> calm (drop_box p) (fun _ => True).
Proof. unfold quiet, drop_box. intros ->. by apply calm_ret. Qed.

(** Code that may unwind, with payloads in [R], but does not abort. *)
Definition safe {A} (m : M W A) (Q : A -> Prop) (R : payload -> Prop) : Prop :=
  ends P m (fun r w => P w /\ match r with
                              | Val a => Q a
                              | Unwinding p => R p
                              | Aborting => False
                              end).

Lemma calm_catch {A} (m : M W A) (Q : A -> Prop) (R : payload -> Prop) :
  safe m Q R ->
  calm (catch_unwind m) (fun r => match r with inl a => Q a | inr p => R p end).
Proof.
  intros Hm w r w' Hw [(a & H1 & ->)|[(p & H1 & ->)|[H1 ->]]]%catch_unwind_val;
    destruct (Hm _ _ _ Hw H1) as [? ?]; [eauto..|done].
Qed.

Lemma calm_safe {A} (m : M W A) (Q : A -> Prop) R : calm m Q -> safe m Q R.
Proof. intros Hm w r w' Hw Hr. by destruct (Hm _ _ _ Hw Hr) as (? & a & -> & ?). Qed.

Lemma safe_bind {A B} (m : M W A) (k : A -> M W B) (Q : A -> Prop) (Q' : B -> Prop) R :
  safe m Q R -> (forall a, Q a -> safe (k a) Q' R) -> safe (m ≫= k) Q' R.
Proof.
  intros Hm Hk w r w' Hw [(a & w1 & H1 & H2)|[(p & H1 & ->)|[H1 ->]]]%bind_inv;
    destruct (Hm _ _ _ Hw H1) as [? ?]; [by eapply Hk|done..].
Qed.

Lemma safe_ret {A} (a : A) (Q : A -> Prop) R : Q a -> safe (mret a) Q R.
Proof. intros Ha. by apply calm_safe, calm_ret. Qed.
End Ends.
