(* ===== verification/FutureExt.v ===== *)
(** Panic-isolating futures: src/src/future_ext.rs.

    A future is a state with a [poll] function; polling it answers [Ready], or
    [Pending] with the state the future is left in.  Handlers' futures, and how they
    are polled, are parameters here: [AsyncRegistry] supplies them. *)
From S2P Require Import Prelude HandlerId PanicInfo Unwind.

(** [Poll<A>] with the state a pending future is left in. *)
Inductive Poll (A S : Type) :=
  | Ready (a : A)
  | Pending (s : S).
Arguments Ready {A S}.
Arguments Pending {A S}.

(** [enum Slot { Running(BoxFuture), Done, Panicked(Payload) }]. *)
Inductive Slot (F : Type) :=
  | Running (f : F)
  | SlotDone
  | SlotPanicked (p : payload).
Arguments Running {F}.
Arguments SlotDone {F}.
Arguments SlotPanicked {F}.

(** [matches!(slot, Slot::Running(_))]. *)
Definition is_running {F} (s : Slot F) : bool :=
  match s with Running _ => true | _ => false end.

(** [struct CatchUnwind { inner: Option<BoxFuture> }]. *)
Record CatchUnwind (F : Type) := mkCatchUnwind { inner : option F }.
Arguments mkCatchUnwind {F}.
Arguments inner {F}.

Definition CatchUnwind_new {F} (future : F) : CatchUnwind F := mkCatchUnwind (Some future).

(** [Slot::new]. *)
Definition Slot_new {F} (started : F + payload) : Slot F :=
  match started with
  | inl fut => Running fut
  | inr p => SlotPanicked p
  end.

Section Poll.
Context {W F : Type} (poll : F -> M W (Poll unit F)).

(** [start]: the synchronous part of a handler inside an unwind boundary. *)
Definition start (make : M W F) : M W (F + payload) := catch_unwind make.

(** [poll_caught]. *)
Definition poll_caught (fut : F) : M W (Poll (unit + payload) F) :=
  r ← catch_unwind (poll fut);
  match r with
  | inl (Ready _) => mret (Ready (inl tt))
  | inl (Pending fut) => mret (Pending fut)
  | inr p => mret (Ready (inr p))
  end.

(** [<CatchUnwind as Future>::poll]: the answer, and [self] afterwards. *)
Definition CatchUnwind_poll (self : CatchUnwind F)
    : M W (Poll (unit + payload) unit * CatchUnwind F) :=
  match inner self with
  | None => mret (Pending tt, self)
  | Some fut =>
      outcome ← poll_caught fut;
      match outcome with
      | Ready r => mret (Ready r, mkCatchUnwind None)
      | Pending fut => mret (Pending tt, mkCatchUnwind (Some fut))
      end
  end.

(** [Slot::poll]: whether the slot is no longer running, and [self] afterwards. *)
Definition Slot_poll (self : Slot F) : M W (bool * Slot F) :=
  match self with
  | Running fut =>
      r ← poll_caught fut;
      match r with
      | Pending fut => mret (false, Running fut)
      | Ready (inl _) => mret (true, SlotDone)
      | Ready (inr p) => mret (true, SlotPanicked p)
      end
  | _ => mret (true, self)
  end.

(** ** What these promise to the registry *)

(** A slot is polled at most once per call, and answers [true] if and only if it is
    not running afterwards; a slot that is not running does not change. *)
Lemma Slot_poll_val s w b s' w' :
  Slot_poll s w = Some (Val (b, s'), w') ->
  b = negb (is_running s') /\ (is_running s = false -> s' = s /\ w' = w) /\
  (forall f, s = Running f ->
     (exists f', poll f w = Some (Val (Pending f'), w') /\ s' = Running f') \/
     (exists u, poll f w = Some (Val (Ready u), w') /\ s' = SlotDone) \/
     (exists p, poll f w = Some (Unwinding p, w') /\ s' = SlotPanicked p)).
Proof.
  destruct s as [f| |p]; simpl; [|by intros [= <- <- <-]..].
  intros Hp. mval Hp. unfold poll_caught in Hm. mval Hm.
  apply catch_unwind_val in Hm0 as [(x & H1 & [= ->])|[(p & H1 & [= ->])|[_ ?]]]; [..|done].
  - destruct x as [u|f']; simplify_eq/=.
    + injection Hm as <- <-. injection Hp as <- <- <-. split; [done|]. split; [done|].
      intros g [= <-]. eauto.
    + injection Hm as <- <-. injection Hp as <- <- <-. split; [done|]. split; [done|].
      intros g [= <-]. eauto 6.
  - injection Hm as <- <-. injection Hp as <- <- <-. split; [done|]. split; [done|].
    intros g [= <-]. eauto 6.
Qed.

(** A [CatchUnwind] polls its future once and drops it as soon as it is finished. *)
Lemma CatchUnwind_poll_val f w o cu w' :
  CatchUnwind_poll (mkCatchUnwind (Some f)) w = Some (Val (o, cu), w') ->
  (exists f', poll f w = Some (Val (Pending f'), w') /\ o = Pending tt /\ cu = mkCatchUnwind (Some f')) \/
  (exists u, poll f w = Some (Val (Ready u), w') /\ o = Ready (inl tt) /\ cu = mkCatchUnwind None) \/
  (exists p, poll f w = Some (Unwinding p, w') /\ o = Ready (inr p) /\ cu = mkCatchUnwind None).
Proof.
  simpl. intros Hp. mval Hp. unfold poll_caught in Hm. mval Hm.
  apply catch_unwind_val in Hm0 as [(x & H1 & [= ->])|[(p & H1 & [= ->])|[_ ?]]]; [..|done].
  - destruct x as [u|f']; simplify_eq/=; injection Hm as <- <-; injection Hp as <- <- <-; eauto 8.
  - injection Hm as <- <-. injection Hp as <- <- <-. eauto 8.
Qed.

(** Neither unwinds by itself. *)
Lemma poll_caught_no_unwind f w r w' :
  poll_caught f w = Some (r, w') -> forall p, r <> Unwinding p.
Proof.
  unfold poll_caught.
  intros [(a & w1 & H1 & H2)|[(p & H1 & ->)|[H1 ->]]]%bind_inv; [..|done].
  - destruct a as [[]|]; injection H2 as <- <-; done.
  - apply catch_unwind_val in H1 as [(? & _ & ?)|[(? & _ & ?)|[_ ?]]]; done.
Qed.
End Poll.
