(* ===== verification/AsyncRegistry.v ===== *)
(** [AsyncRegistry]: src/src/async_registry/mod.rs and src/src/async_registry/guard.rs.

    Handlers are closures that return futures.  Their code, the code of panic
    callbacks and of callers is arbitrary: it may call the registry, await its
    dispatches, suspend, panic.  A dispatch is itself a future, polled by whoever
    awaits it.  Other threads use the same registry: between two polls, and before every
    access to shared state that a poll makes, they may have changed it ([interfere]). *)
From S2P Require Import Prelude HandlerId HandlerList HandlerStore PanicInfo Unwind FutureExt.

(** ** Guards *)

(** [struct AsyncHandlerGuard { id, registry: Weak<AsyncRegistry> }]: whether the
    [Weak] points to the registry, or to nothing. *)
Record AsyncHandlerGuard := AGuard { aguard_id : HandlerId; aguard_registry : bool }.

(** [AsyncHandlerGuard::new] with [Arc::downgrade(self)], and [forget]. *)
Definition AsyncHandlerGuard_new (id : HandlerId) : AsyncHandlerGuard := AGuard id true.
Definition AsyncHandlerGuard_forget (g : AsyncHandlerGuard) : AsyncHandlerGuard :=
  AGuard (aguard_id g) false.

Section Code.
Context {E O : Type}.

(** User code up to its next suspension point.
    In a handler closure, [Yield k] returns the future whose first poll runs [k] and
    [Finish] returns a future that is ready at once; in a future, [Yield k] suspends
    and [Finish] completes it; a panic callback returns at either.  [Never] is a future
    that is never ready, such as [std::future::pending()].
    [Notify sequential e k] is [notify(e).await] or [notify_sequential(e).await];
    code that is not asynchronous cannot await and drops the future unpolled.
    The state user code shares is given by the effects [O] performed so far: [Emit]
    performs one, [Observe] reads them all. *)
Inductive code :=
  | Finish
  | Yield (k : code)
  | Panic (p : payload)
  | Emit (o : O) (k : code)
  | Register (priority : Z) (h : E -> code) (k : HandlerId -> code)
  | Unregister (id : HandlerId) (k : bool -> code)
  | Clear (k : code)
  | Contains (id : HandlerId) (k : bool -> code)
  | HandlerCount (k : nat -> code)
  | IsEmpty (k : bool -> code)
  | OnPanic (cb : PanicInfo -> code) (k : code)
  | ClearPanicCallback (k : code)
  | DropGuard (g : AsyncHandlerGuard) (k : code)
  | Notify (sequential : bool) (e : E) (k : code)
  | Observe (k : list O -> code)
  | Never.

(** [register]: priority 0; [register_guard] and [register_guard_with_priority]. *)
Definition Register0 (h : E -> code) (k : HandlerId -> code) : code := Register 0 h k.
Definition RegisterGuardWithPriority (priority : Z) (h : E -> code) (k : AsyncHandlerGuard -> code)
    : code := Register priority h (fun id => k (AsyncHandlerGuard_new id)).
Definition RegisterGuard (h : E -> code) (k : AsyncHandlerGuard -> code) : code :=
  RegisterGuardWithPriority 0 h k.

(** [struct AsyncHandlerEntry]. *)
Abbreviation entry := (HandlerEntry (E -> code)).

(** The history of one dispatch, for stating properties; no code reads it. *)
Inductive hev :=
  | HStart (id : HandlerId)
  | HPoll (id : HandlerId)
  | HEnd (id : HandlerId) (r : unit + payload)
  | HHandle (id : HandlerId) (p : payload).

(** A suspended future of user code: about to run [c], or awaiting a dispatch.
    A dispatch: not polled yet (an [async fn] does nothing before that); awaiting its
    only handler; awaiting many; awaiting one of a sequence. *)
Inductive fut :=
  | Run (c : code)
  | Await (n : dispatch) (k : code)
with dispatch :=
  | Fresh (sequential : bool) (e : E)
  | One (only : entry) (cu : CatchUnwind fut) (h : list hev)
  | Many (many : list entry) (slots : list (Slot fut)) (running : nat) (h : list hev)
  | Seq (e : E) (current : entry) (cu : CatchUnwind fut) (rest : list entry) (h : list hev).
End Code.
Arguments code : clear implicits.
Arguments fut : clear implicits.
Arguments dispatch : clear implicits.
Abbreviation entry E O := (HandlerEntry (E -> code E O)).

(** What happened.  The registry reads none of it, user code only the effects of user
    code ([emits]); the rest is for stating properties. *)
Inductive aev {O : Type} :=
  | AEmit (o : O)
  | AIssue (id : HandlerId)
  | AReport (i : PanicInfo).
Arguments aev : clear implicits.

(** The effects of user code in a trace, oldest first. *)
Definition emits {O : Type} (t : list (aev O)) : list O :=
  omap (fun ev => match ev with AEmit o => Some o | _ => None end) t.

Section Registry.
Context {E O St : Type} `{HandlerStore (E -> code E O) St}.

(** [struct AsyncRegistry { handlers, id_generator, panic_callback }]. *)
Record AsyncRegistry := mkAsync {
  handlers : St;
  id_generator : HandlerIdGenerator;
  panic_callback : option (PanicInfo -> code E O);
}.

Definition with_capacity (capacity : nat) : AsyncRegistry :=
  mkAsync store_new HandlerIdGenerator_new None.

Definition AsyncRegistry_new : AsyncRegistry := with_capacity 0.

(** [impl Default]. *)
Definition AsyncRegistry_default : AsyncRegistry := AsyncRegistry_new.

(** The two accesses of [register_with_priority]: [id_generator.next()] and the update of the
    list. *)
Definition take_id (r : AsyncRegistry) : HandlerId * AsyncRegistry :=
  let '(id, g) := next_id (id_generator r) in (id, mkAsync (handlers r) g (panic_callback r)).
Definition insert_handler (en : entry E O) (r : AsyncRegistry) : AsyncRegistry :=
  mkAsync (store_insert en (handlers r)) (id_generator r) (panic_callback r).

Definition register_with_priority (priority : Z) (h : E -> code E O) (r : AsyncRegistry)
    : HandlerId * AsyncRegistry :=
  let '(id, r) := take_id r in (id, insert_handler (Entry id priority h) r).

(** [remove_id], [remove_all]: whether anything was removed. *)
Definition remove_id (id : HandlerId) (r : AsyncRegistry) : bool * AsyncRegistry :=
  match store_remove id (handlers r) with
  | Some s => (true, mkAsync s (id_generator r) (panic_callback r))
  | None => (false, r)
  end.

Definition remove_all (r : AsyncRegistry) : bool * AsyncRegistry :=
  match store_clear (handlers r) with
  | Some s => (true, mkAsync s (id_generator r) (panic_callback r))
  | None => (false, r)
  end.

Definition unregister (id : HandlerId) (r : AsyncRegistry) : bool * AsyncRegistry := remove_id id r.
Definition clear (r : AsyncRegistry) : AsyncRegistry := (remove_all r).2.

Definition handler_count (r : AsyncRegistry) : nat := length (store_list (handlers r)).
Definition is_empty (r : AsyncRegistry) : bool :=
  match store_list (handlers r) with [] => true | _ => false end.
Definition contains (id : HandlerId) (r : AsyncRegistry) : bool :=
  existsb (fun e => bool_decide (entry_id e = id)) (store_list (handlers r)).

Definition on_panic (cb : PanicInfo -> code E O) (r : AsyncRegistry) : AsyncRegistry :=
  mkAsync (handlers r) (id_generator r) (Some (PanicCallbackHolder_new cb)).
Definition clear_panic_callback (r : AsyncRegistry) : AsyncRegistry :=
  mkAsync (handlers r) (id_generator r) None.

(** ** The world *)

(** What another thread does in one access: an effect of its user code; the first half of a
    registration, and the second half of one of those in progress; a removal; a change of
    the callback; the report of a panic. *)
Inductive other_op :=
  | OEmit (o : O)
  | OIssue (priority : Z) (h : E -> code E O)
  | OInsert (i : nat)
  | ORemove (id : HandlerId)
  | OClear
  | OOnPanic (cb : PanicInfo -> code E O)
  | OClearCallback
  | OReport (i : PanicInfo).

(** The registry (alive while some [Arc] to it exists) and the trace; the registrations other
    threads are in the middle of, and what they will do before each access of this one. *)
Record world := World {
  reg : AsyncRegistry;
  alive : bool;
  trace : list (aev O);
  pending : list (entry E O);
  others : list (list other_op);
}.

Definition world_new : world := World AsyncRegistry_new true [] [] [].
Definition set_reg (r : AsyncRegistry) (w : world) : world :=
  World r (alive w) (trace w) (pending w) (others w).
Definition log_ev (ev : aev O) (w : world) : world :=
  World (reg w) (alive w) (trace w ++ [ev]) (pending w) (others w).
Definition set_pending (l : list (entry E O)) (w : world) : world :=
  World (reg w) (alive w) (trace w) l (others w).
Definition set_others (l : list (list other_op)) (w : world) : world :=
  World (reg w) (alive w) (trace w) (pending w) l.

Definition do_issue (w : world) : HandlerId * world :=
  let '(id, r) := take_id (reg w) in (id, log_ev (AIssue id) (set_reg r w)).

Definition do_insert (en : entry E O) (w : world) : world := set_reg (insert_handler en (reg w)) w.

Definition do_unregister (id : HandlerId) (w : world) : bool * world :=
  let '(b, r) := unregister id (reg w) in (b, set_reg r w).

(** [impl Drop for AsyncHandlerGuard]. *)
Definition AsyncHandlerGuard_drop (g : AsyncHandlerGuard) (w : world) : world :=
  if aguard_registry g && alive w then (do_unregister (aguard_id g) w).2 else w.

(** The last [Arc] to the registry goes away. *)
Definition drop_registry (w : world) : world := World (reg w) false (trace w) (pending w) (others w).

(** ** Other threads *)

Definition apply_other (op : other_op) (w : world) : world :=
  match op with
  | OEmit o => log_ev (AEmit o) w
  | OIssue priority h =>
      let '(id, w) := do_issue w in set_pending (pending w ++ [Entry id priority h]) w
  | OInsert i =>
      match pending w !! i with
      | Some en => set_pending (delete i (pending w)) (do_insert en w)
      | None => w
      end
  | ORemove id => (do_unregister id w).2
  | OClear => set_reg (clear (reg w)) w
  | OOnPanic cb => set_reg (on_panic cb (reg w)) w
  | OClearCallback => set_reg (clear_panic_callback (reg w)) w
  | OReport i => log_ev (AReport i) w
  end.

Definition apply_others (ops : list other_op) (w : world) : world :=
  foldl (fun w op => apply_other op w) w ops.

(** What other threads have done before the next access of this one. *)
Definition interfere (w : world) : world :=
  match others w with
  | [] => w
  | ops :: rest => apply_others ops (set_others rest w)
  end.

(** An access to shared state. *)
Definition access {A} (m : M world A) : M world A := modify interfere ;; m.

(** ** Running user code *)

(** Runs [c] to its next suspension point.  [await] polls a dispatch; without it the
    code is not asynchronous. *)
Fixpoint exec_code (await : option (dispatch E O -> M world (Poll (list hev) (dispatch E O))))
    (c : code E O) : M world (Poll unit (fut E O)) :=
  match c with
  | Finish => mret (Ready tt)
  | Yield k => mret (Pending (Run k))
  | Panic p => panic p
  | Emit o k => access (modify (log_ev (AEmit o))) ;; exec_code await k
  | Register priority h k =>
      id ← access (transact do_issue);
      access (modify (do_insert (Entry id priority h))) ;; exec_code await (k id)
  | Unregister id k => b ← access (transact (do_unregister id)); exec_code await (k b)
  | Clear k => access (modify (fun w => set_reg (clear (reg w)) w)) ;; exec_code await k
  | Contains id k => w ← access get; exec_code await (k (contains id (reg w)))
  | HandlerCount k => w ← access get; exec_code await (k (handler_count (reg w)))
  | IsEmpty k => w ← access get; exec_code await (k (is_empty (reg w)))
  | OnPanic cb k => access (modify (fun w => set_reg (on_panic cb (reg w)) w)) ;; exec_code await k
  | ClearPanicCallback k =>
      access (modify (fun w => set_reg (clear_panic_callback (reg w)) w)) ;; exec_code await k
  | DropGuard g k => access (modify (AsyncHandlerGuard_drop g)) ;; exec_code await k
  | Notify sequential e k =>
      match await with
      | None => exec_code await k
      | Some poll =>
          r ← access (poll (Fresh sequential e));
          match r with
          | Ready _ => exec_code await k
          | Pending n => mret (Pending (Await n k))
          end
      end
  | Observe k => w ← access get; exec_code await (k (emits (trace w)))
  | Never => mret (Pending (Run Never))
  end.

(** [(entry.handler)(event)]: the closure runs and returns a future. *)
Definition call_handler (en : entry E O) (e : E) : M world (fut E O) :=
  r ← exec_code None (handler en e);
  match r with
  | Ready _ => mret (Run Finish)
  | Pending f => mret f
  end.

(** The isolated call of the panic callback in [handle_panic]; what [catch_unwind]
    returned is dropped while the handler's payload [p] is alive. *)
Definition invoke_callback (cb : option (PanicInfo -> code E O)) (id : HandlerId) (p : payload)
    : M world unit :=
  match cb with
  | None => mret tt
  | Some holder =>
      let info := PanicInfo_new id p in
      modify (log_ev (AReport info)) ;;
      dropping_on_unwind [p]
        (r ← catch_unwind (exec_code None (invoke holder info));
         match r with inl _ => mret tt | inr q => drop_box q end)
  end.

(** [handle_panic]: the callback, if any, then the drop of the payload. *)
Definition handle_panic (id : HandlerId) (p : payload) : M world unit :=
  w ← access get;
  invoke_callback (panic_callback (reg w)) id p ;;
  drop_box p.

(** ** Dispatch *)

Section Dispatch.
Context (poll : fut E O -> M world (Poll unit (fut E O))).

(** [start(|| (entry.handler)(event))]. *)
Definition start_handler (e : E) (en : entry E O) : M world (fut E O + payload) :=
  start (call_handler en e).

Definition started_ev (id : HandlerId) (r : fut E O + payload) : list hev :=
  HStart id :: match r with inl _ => [] | inr p => [HEnd id (inr p)] end.

(** [if let Err(payload) = outcome { self.handle_panic(id, payload) }]. *)
Definition finish (id : HandlerId) (outcome : unit + payload) : M world (list hev) :=
  match outcome with
  | inl _ => mret [HEnd id (inl tt)]
  | inr p => handle_panic id p ;; mret [HEnd id (inr p); HHandle id p]
  end.

(** The arm [\[only\]] of [notify], from the [.await] of its [CatchUnwind]. *)
Definition one_await (only : entry E O) (cu : CatchUnwind (fut E O)) (h : list hev)
    : M world (Poll (list hev) (dispatch E O)) :=
  '(o, cu) ← CatchUnwind_poll poll cu;
  let h := h ++ [HPoll (entry_id only)] in
  match o with
  | Pending _ => mret (Pending (One only cu h))
  | Ready outcome => h' ← finish (entry_id only) outcome; mret (Ready (h ++ h'))
  end.

Definition one_start (e : E) (only : entry E O) : M world (Poll (list hev) (dispatch E O)) :=
  r ← start_handler e only;
  match r with
  | inl f => one_await only (CatchUnwind_new f) [HStart (entry_id only)]
  | inr p => h' ← finish (entry_id only) (inr p); mret (Ready (HStart (entry_id only) :: h'))
  end.

(** [running -= 1] on a [usize], checked. *)
Definition usize_dec (n : nat) : M world nat :=
  match n with
  | 0 => panic (PStr "attempt to subtract with overflow")
  | S n => mret n
  end.

(** The loop of the [poll_fn] closure: every running slot is polled once. *)
Fixpoint poll_slots (ids : list HandlerId) (slots : list (Slot (fut E O))) (running : nat)
    (h : list hev) : M world (list (Slot (fut E O)) * nat * list hev) :=
  match ids, slots with
  | id :: ids, slot :: slots =>
      '(slot, running, h) ←
        (if is_running slot then
           '(stopped, slot) ← Slot_poll poll slot;
           running ← (if (stopped : bool) then usize_dec running else mret running);
           mret (slot, running,
             h ++ HPoll id :: match slot with
                              | Running _ => []
                              | SlotDone => [HEnd id (inl tt)]
                              | SlotPanicked p => [HEnd id (inr p)]
                              end)
         else mret (slot, running, h));
      '(slots, running, h) ← poll_slots ids slots running h;
      mret (slot :: slots, running, h)
  | _, _ => mret (slots, running, h)
  end.

Definition slot_payload (s : Slot (fut E O)) : list payload :=
  match s with SlotPanicked p => [p] | _ => [] end.

(** [for (entry, slot) in many.iter().zip(slots)]: if reporting one panic unwinds,
    the payloads still in the vector are dropped on the way out. *)
Fixpoint report (many : list (entry E O)) (slots : list (Slot (fut E O))) : M world (list hev) :=
  match many, slots with
  | en :: many, slot :: slots =>
      match slot with
      | SlotPanicked p =>
          dropping_on_unwind (slots ≫= slot_payload) (handle_panic (entry_id en) p) ;;
          h ← report many slots;
          mret (HHandle (entry_id en) p :: h)
      | _ => report many slots
      end
  | _, _ => mret []
  end.

(** The arm [many] of [notify], from the [.await] of its [poll_fn]. *)
Definition many_await (many : list (entry E O)) (slots : list (Slot (fut E O))) (running : nat)
    (h : list hev) : M world (Poll (list hev) (dispatch E O)) :=
  '(slots, running, h) ← poll_slots (entry_id <$> many) slots running h;
  if decide (running = 0) then
    h' ← report many slots;
    mret (Ready (h ++ h'))
  else mret (Pending (Many many slots running h)).

(** [many.iter().map(|entry| Slot::new(start(..))).collect()]. *)
Fixpoint start_all (e : E) (many : list (entry E O))
    : M world (list (Slot (fut E O)) * list hev) :=
  match many with
  | [] => mret ([], [])
  | en :: many =>
      r ← start_handler e en;
      '(slots, h) ← start_all e many;
      mret (Slot_new r :: slots, started_ev (entry_id en) r ++ h)
  end.

(** [slots.iter().filter(|s| matches!(s, Slot::Running(_))).count()]. *)
Definition count_running (slots : list (Slot (fut E O))) : nat :=
  length (filter (fun s => is_running s = true) slots).

Definition many_start (e : E) (many : list (entry E O))
    : M world (Poll (list hev) (dispatch E O)) :=
  '(slots, h) ← start_all e many;
  many_await many slots (count_running slots) h.

(** The loop of [notify_sequential], from the start of its next handler. *)
Fixpoint seq_loop (e : E) (l : list (entry E O)) (h : list hev)
    : M world (Poll (list hev) (dispatch E O)) :=
  match l with
  | [] => mret (Ready h)
  | en :: rest =>
      let h := h ++ [HStart (entry_id en)] in
      r ← start_handler e en;
      match r with
      | inr p => h' ← finish (entry_id en) (inr p); seq_loop e rest (h ++ h')
      | inl f =>
          '(o, cu) ← CatchUnwind_poll poll (CatchUnwind_new f);
          let h := h ++ [HPoll (entry_id en)] in
          match o with
          | Pending _ => mret (Pending (Seq e en cu rest h))
          | Ready outcome => h' ← finish (entry_id en) outcome; seq_loop e rest (h ++ h')
          end
      end
  end.

(** The same from the [.await] of the current handler. *)
Definition seq_await (e : E) (en : entry E O) (cu : CatchUnwind (fut E O))
    (rest : list (entry E O)) (h : list hev) : M world (Poll (list hev) (dispatch E O)) :=
  '(o, cu) ← CatchUnwind_poll poll cu;
  let h := h ++ [HPoll (entry_id en)] in
  match o with
  | Pending _ => mret (Pending (Seq e en cu rest h))
  | Ready outcome => h' ← finish (entry_id en) outcome; seq_loop e rest (h ++ h')
  end.

(** First poll of [notify]: [load_arc_if] takes the snapshot. *)
Definition notify (e : E) : M world (Poll (list hev) (dispatch E O)) :=
  w ← get;
  match store_list (handlers (reg w)) with
  | [] => mret (Ready [])
  | [only] => one_start e only
  | many => many_start e many
  end.

Definition notify_sequential (e : E) : M world (Poll (list hev) (dispatch E O)) :=
  w ← get;
  match store_list (handlers (reg w)) with
  | [] => mret (Ready [])
  | l => seq_loop e l []
  end.

(** One poll of a dispatch. *)
Definition poll_dispatch (n : dispatch E O) : M world (Poll (list hev) (dispatch E O)) :=
  match n with
  | Fresh false e => notify e
  | Fresh true e => notify_sequential e
  | One only cu h => one_await only cu h
  | Many many slots running h => many_await many slots running h
  | Seq e en cu rest h => seq_await e en cu rest h
  end.
End Dispatch.

(** One poll of a future, in which dispatches await each other at most [fuel] deep. *)
Fixpoint poll_fut (fuel : nat) (f : fut E O) : M world (Poll unit (fut E O)) :=
  match fuel with
  | 0 => out_of_fuel
  | S fuel =>
      let await := poll_dispatch (poll_fut fuel) in
      match f with
      | Run c => exec_code (Some await) c
      | Await n k =>
          r ← await n;
          match r with
          | Ready _ => exec_code (Some await) k
          | Pending n => mret (Pending (Await n k))
          end
      end
  end.

(** ** The executor *)

(** Tasks in any state of progress; the executor polls any task that is not finished, and
    may drop one at any time.  [Others l]: in the polls that follow, other threads do [l]. *)
Inductive task := Live (f : fut E O) | Ended.

Inductive exec_action := PollTask (i : nat) | DropTask (i : nat) | Spawn (c : code E O)
  | Others (l : list (list other_op)).

Definition exec_step (fuel : nat) (a : exec_action) (s : list task * world)
    : option (list task * world) :=
  let '(ts, w) := s in
  match a with
  | Spawn c => Some (ts ++ [Live (Run c)], w)
  | Others l => Some (ts, set_others l w)
  | DropTask i => Some (<[i := Ended]> ts, w)
  | PollTask i =>
      match ts !! i with
      | Some (Live f) =>
          match poll_fut fuel f w with
          | Some (Val (Pending f), w) => Some (<[i := Live f]> ts, w)
          | Some (Val (Ready _), w) | Some (Unwinding _, w) => Some (<[i := Ended]> ts, w)
          | Some (Aborting, _) | None => None
          end
      | _ => Some (ts, w)
      end
  end.

Fixpoint exec_run (fuel : nat) (sched : list exec_action) (s : list task * world)
    : option (list task * world) :=
  match sched with
  | [] => Some s
  | a :: sched => s ← exec_step fuel a s; exec_run fuel sched s
  end.
End Registry.
Arguments AsyncRegistry : clear implicits.
Arguments world : clear implicits.
Arguments task : clear implicits.
