(* ===== verification/AsyncHistory.v ===== *)
(** What one asynchronous dispatch does from its first poll to its completion
    (src/src/async_registry/mod.rs, [notify] and [notify_sequential]), whatever the
    handlers' futures do and whatever happens to the registry between polls. *)
From S2P Require Import Prelude HandlerId HandlerList HandlerStore PanicInfo Unwind FutureExt.
From S2P Require Import AsyncRegistry.

(** ** Projections of a history *)

Definition starts (h : list hev) : list HandlerId :=
  omap (fun ev => match ev with HStart id => Some id | _ => None end) h.
Definition polls (h : list hev) : list HandlerId :=
  omap (fun ev => match ev with HPoll id => Some id | _ => None end) h.
Definition hends (h : list hev) : list (HandlerId * (unit + payload)) :=
  omap (fun ev => match ev with HEnd id r => Some (id, r) | _ => None end) h.
Definition handled (h : list hev) : list (HandlerId * payload) :=
  omap (fun ev => match ev with HHandle id p => Some (id, p) | _ => None end) h.

Lemma starts_app h1 h2 : starts (h1 ++ h2) = starts h1 ++ starts h2.
Proof. apply omap_app. Qed.
Lemma polls_app h1 h2 : polls (h1 ++ h2) = polls h1 ++ polls h2.
Proof. apply omap_app. Qed.
Lemma hends_app h1 h2 : hends (h1 ++ h2) = hends h1 ++ hends h2.
Proof. apply omap_app. Qed.
Lemma handled_app h1 h2 : handled (h1 ++ h2) = handled h1 ++ handled h2.
Proof. apply omap_app. Qed.

Section History.
Context {E O St : Type} `{HandlerStore (E -> code E O) St}.
Context (poll : fut E O -> M (world E O St) (Poll unit (fut E O))).
Implicit Types (w : world E O St) (h : list hev) (slots : list (Slot (fut E O))).

(** How a slot ended, and how a list of them did. *)
Definition slot_end (s : Slot (fut E O)) : option (unit + payload) :=
  match s with
  | Running _ => None
  | SlotDone => Some (inl tt)
  | SlotPanicked p => Some (inr p)
  end.

Definition slot_ends (ids : list HandlerId) slots : list (HandlerId * (unit + payload)) :=
  omap (fun '(id, s) => pair id <$> slot_end s) (zip ids slots).

(** The panics, in the order of the list. *)
Definition panics_of (ends : list (HandlerId * (unit + payload))) : list (HandlerId * payload) :=
  omap (fun '(id, r) => match r with inl _ => None | inr p => Some (id, p) end) ends.

(** The ids of the slots that are still running. *)
Definition running_ids (ids : list HandlerId) slots : list HandlerId :=
  omap (fun '(id, s) => if is_running s then Some id else None) (zip ids slots).

Lemma count_running_cons (s : Slot (fut E O)) slots :
  count_running (s :: slots) = (if is_running s then 1 else 0) + count_running slots.
Proof.
  unfold count_running. rewrite filter_cons. destruct (is_running s).
  - by rewrite decide_True.
  - by rewrite decide_False.
Qed.

Lemma slot_ends_cons id ids s slots :
  slot_ends (id :: ids) (s :: slots) =
  option_list (pair id <$> slot_end s) ++ slot_ends ids slots.
Proof. unfold slot_ends. simpl. by destruct (slot_end s). Qed.

Lemma running_ids_cons id ids (s : Slot (fut E O)) slots :
  running_ids (id :: ids) (s :: slots) =
  (if is_running s then [id] else []) ++ running_ids ids slots.
Proof. unfold running_ids. simpl. by destruct (is_running s). Qed.

(** ** One round of polling *)

(** What one slot's turn adds to the history. *)
Definition turn (id : HandlerId) (s : Slot (fut E O)) : list hev :=
  HPoll id :: match s with
              | Running _ => []
              | SlotDone => [HEnd id (inl tt)]
              | SlotPanicked p => [HEnd id (inr p)]
              end.

Lemma turn_spec id s :
  starts (turn id s) = [] /\ handled (turn id s) = [] /\ polls (turn id s) = [id] /\
  hends (turn id s) = option_list (pair id <$> slot_end s).
Proof. by destruct s. Qed.

Lemma poll_slots_val ids slots running h w slots' running' h' w' :
  length ids = length slots ->
  poll_slots poll ids slots running h w = Some (Val (slots', running', h'), w') ->
  length slots' = length slots /\
  running' + count_running slots = running + count_running slots' /\
  exists hp, h' = h ++ hp /\ starts hp = [] /\ handled hp = [] /\
    polls hp = running_ids ids slots /\
    slot_ends ids slots ++ hends hp ≡ₚ slot_ends ids slots'.
Proof.
  revert slots running h w slots' running' h' w'.
  induction ids as [|id ids IH]; intros [|s slots] running h w slots' running' h' w' Hlen Hp;
    simplify_eq/=.
  { injection Hp as <- <- <- <-. split; [done|]. split; [lia|]. exists []. by rewrite app_nil_r. }
  mval Hp. destruct a as [[s1 r1] h1]. mval Hp. destruct a as [[sl2 r2] h2].
  injection Hp as <- <- <- <-.
  destruct (IH _ _ _ _ _ _ _ _ Hlen Hm0) as (Hl & Hc & hp & -> & Hs & Hh & Hpo & Hen).
  rewrite !count_running_cons, !slot_ends_cons, running_ids_cons.
  destruct (is_running s) eqn:Hr.
  - mval Hm. destruct a as [b s2]. mval Hm. injection Hm as <- <- <- <-.
    destruct (Slot_poll_val _ _ _ _ _ _ Hm1) as (-> & _ & _).
    assert (a + 1 = running + if is_running s2 then 1 else 0) as Ha.
    { destruct (is_running s2); simpl in Hm2.
      - injection Hm2 as <- _. lia.
      - destruct running; [done|]. injection Hm2 as <- _. lia. }
    split; [simpl; lia|]. split; [lia|].
    exists (turn id s2 ++ hp).
    destruct (turn_spec id s2) as (Ht1 & Ht2 & Ht3 & Ht4).
    rewrite starts_app, handled_app, polls_app, hends_app, Ht1, Ht2, Ht3, Ht4, Hs, Hh, Hpo.
    split; [by rewrite <- app_assoc|]. split_and!; try done.
    rewrite <- Hen. destruct s as [f| |p]; try done. simpl. solve_Permutation.
  - injection Hm as <- <- <- <-. split; [simpl; lia|]. rewrite Hr. split; [lia|].
    exists hp. split_and!; try done. rewrite <- Hen. by rewrite <- app_assoc.
Qed.

(** The counter never underflows: a round cannot unwind. *)
Lemma poll_slots_no_unwind ids slots running h w p w' :
  count_running slots <= running ->
  poll_slots poll ids slots running h w <> Some (Unwinding p, w').
Proof.
  revert slots running h w. induction ids as [|id ids IH]; intros [|s slots] running h w Hc; try done.
  rewrite count_running_cons in Hc. cbn [poll_slots].
  intros [(x & w1 & H1 & H2)|[(q & H1 & [= <-])|[_ ?]]]%bind_inv; [..|done].
  - destruct x as [[s1 r1] h1].
    apply bind_inv in H2 as [(y & w2 & _ & H3)|[(q & H3 & [= <-])|[_ ?]]]; [..|done].
    + by destruct y as [[]].
    + eapply IH in H3; [done|]. destruct (is_running s).
      * mval H1. destruct a as [b s2]. mval H1. injection H1 as <- <- <- <-.
        destruct b; [|by simplify_eq/=; injection Hm0 as <- _; lia].
        destruct running; [lia|]. injection Hm0 as <- _. lia.
      * injection H1 as <- <- <- <-. lia.
  - destruct (is_running s); [|done].
    apply bind_inv in H1 as [(y & w1 & H1 & H2)|[(q' & H1 & _)|[_ ?]]]; [..|done].
    + destruct y as [b s2].
      apply bind_inv in H2 as [(y & w2 & _ & H3)|[(q' & H3 & _)|[_ ?]]]; [done| |done].
      destruct b; [|done]. destruct running; [lia|done].
    + destruct s as [f| |]; simpl in H1; [|done..].
      apply bind_inv in H1 as [(y & w2 & _ & H3)|[(q2 & H3 & _)|[_ ?]]]; [..|done].
      * by destruct y as [[]|].
      * by eapply poll_caught_no_unwind in H3.
Qed.

(** ** Starting and reporting *)

Lemma start_all_val e l w slots h w' :
  start_all e l w = Some (Val (slots, h), w') ->
  length slots = length l /\ starts h = entry_id <$> l /\ polls h = [] /\ handled h = [] /\
  hends h = slot_ends (entry_id <$> l) slots.
Proof.
  revert w slots h w'. induction l as [|en l IH]; intros w slots h w' Hs.
  { injection Hs as <- <- <-. done. }
  cbn [start_all] in Hs. mval Hs. mval Hs. destruct a0 as [sl h0].
  remember (started_ev (entry_id en) a) as hs eqn:Ehs. injection Hs as <- <- <-.
  destruct (IH _ _ _ _ Hm0) as (Hl & H1 & H2 & H3 & H4).
  rewrite starts_app, polls_app, handled_app, hends_app, H1, H2, H3, H4.
  rewrite fmap_cons, slot_ends_cons. subst hs. destruct a as [f|p]; by split_and!; simpl; rewrite ?Hl.
Qed.

Lemma report_val many slots w h w' :
  length slots = length many ->
  report many slots w = Some (Val h, w') ->
  starts h = [] /\ polls h = [] /\ hends h = [] /\
  handled h = panics_of (slot_ends (entry_id <$> many) slots).
Proof.
  revert slots w h w'. induction many as [|en many IH]; intros [|s slots] w h w' Hl Hr;
    simplify_eq/=; [by injection Hr as <- <-|].
  rewrite slot_ends_cons. destruct s as [f| |p].
  - by eapply IH in Hr.
  - by eapply IH in Hr.
  - mval Hr. mval Hr. injection Hr as <- <-. simpl.
    by apply IH in Hm0 as (H1 & H2 & H3 & ->).
Qed.

Lemma finish_val id outcome w h w' :
  finish id outcome w = Some (Val h, w') ->
  h = HEnd id outcome :: match outcome with inl _ => [] | inr p => [HHandle id p] end.
Proof.
  destruct outcome as [[]|p]; simpl; [by intros [= <- <-]|].
  intros Hf. mval Hf. by injection Hf as <- <-.
Qed.

(** When no slot is running every handler has a result. *)
Lemma slot_ends_results ids slots :
  length ids = length slots -> count_running slots = 0 ->
  exists results, length results = length ids /\ slot_ends ids slots = zip ids results.
Proof.
  revert slots. induction ids as [|id ids IH]; intros [|s slots] Hl Hc; simplify_eq/=.
  { by exists []. }
  rewrite count_running_cons in Hc. destruct (IH slots) as (rs & Hrs & He); [done|lia|].
  rewrite slot_ends_cons, He. destruct s as [f| |p]; simpl in *; [lia|..].
  - exists (inl tt :: rs). by rewrite <- Hrs.
  - exists (inr p :: rs). by rewrite <- Hrs.
Qed.

(** ** The life of a dispatch *)

(** The states a dispatch over the snapshot [l] goes through, polled in any worlds. *)
Inductive life (sequential : bool) (e : E) (l : list (entry E O)) : dispatch E O -> Prop :=
  | life_first w n w' :
      store_list (handlers (reg w)) = l ->
      poll_dispatch poll (Fresh sequential e) w = Some (Val (Pending n), w') ->
      life sequential e l n
  | life_next n w n' w' :
      life sequential e l n -> poll_dispatch poll n w = Some (Val (Pending n'), w') ->
      life sequential e l n'.

(** ... and the histories with which it completes. *)
Inductive completes (sequential : bool) (e : E) (l : list (entry E O)) : list hev -> Prop :=
  | completes_first w h w' :
      store_list (handlers (reg w)) = l ->
      poll_dispatch poll (Fresh sequential e) w = Some (Val (Ready h), w') ->
      completes sequential e l h
  | completes_later n w h w' :
      life sequential e l n -> poll_dispatch poll n w = Some (Val (Ready h), w') ->
      completes sequential e l h.

(** ** Concurrent dispatch *)

(** Every handler was started once, in order, before any was polled. *)
Definition all_started (l : list (entry E O)) h : Prop :=
  exists h1 h2, h = h1 ++ h2 /\ starts h1 = entry_id <$> l /\ polls h1 = [] /\ starts h2 = [].

Definition conc_inv (l : list (entry E O)) (n : dispatch E O) : Prop :=
  match n with
  | Many many slots running h =>
      many = l /\ length slots = length l /\ running = count_running slots /\
      all_started l h /\ handled h = [] /\ hends h ≡ₚ slot_ends (entry_id <$> l) slots
  | One only cu h =>
      l = [only] /\ exists f k, cu = mkCatchUnwind (Some f) /\
        h = HStart (entry_id only) :: replicate k (HPoll (entry_id only))
  | _ => False
  end.

(** A complete concurrent dispatch: the handlers were all started in order before any
    was polled, each ended exactly once with its result, and then the panics were
    handled, in the order of the list. *)
Definition joined (l : list (entry E O)) h : Prop :=
  exists results h1 h2, length results = length l /\ h = h1 ++ h2 /\
    all_started l h1 /\ handled h1 = [] /\ hends h1 ≡ₚ zip (entry_id <$> l) results /\
    starts h2 = [] /\ polls h2 = [] /\ hends h2 = [] /\
    handled h2 = panics_of (zip (entry_id <$> l) results).

Definition conc_result (l : list (entry E O)) (r : Poll (list hev) (dispatch E O)) : Prop :=
  match r with Ready h => joined l h | Pending n => conc_inv l n end.

Lemma replicate_polls id k :
  starts (replicate k (HPoll id)) = [] /\ handled (replicate k (HPoll id)) = [] /\
  hends (replicate k (HPoll id)) = [].
Proof. induction k as [|k (H1 & H2 & H3)]; [done|]. split; [exact H1|]. split; [exact H2|exact H3]. Qed.

Lemma joined_one only k outcome :
  joined [only]
    ((HStart (entry_id only) :: replicate k (HPoll (entry_id only))) ++
     HEnd (entry_id only) outcome ::
       match outcome with inl _ => [] | inr p => [HHandle (entry_id only) p] end).
Proof.
  destruct (replicate_polls (entry_id only) k) as (H1 & H2 & H3).
  set (id := entry_id only) in *.
  exists [outcome], ((HStart id :: replicate k (HPoll id)) ++ [HEnd id outcome]),
    (match outcome with inl _ => [] | inr p => [HHandle id p] end).
  split; [done|]. split; [by rewrite <- app_assoc|]. split.
  { exists [HStart id], (replicate k (HPoll id) ++ [HEnd id outcome]). by rewrite starts_app, H1. }
  rewrite handled_app, hends_app. simpl. rewrite H2, H3. by destruct outcome.
Qed.

Lemma one_await_val only f k w r w' :
  one_await poll only (mkCatchUnwind (Some f))
    (HStart (entry_id only) :: replicate k (HPoll (entry_id only))) w = Some (Val r, w') ->
  conc_result [only] r.
Proof.
  unfold one_await. intros Ho. mval Ho. destruct a as [o cu].
  rewrite <- app_comm_cons, <- replicate_cons_app in Ho.
  destruct (CatchUnwind_poll_val _ _ _ _ _ _ Hm)
    as [(f' & _ & -> & ->)|[(u & _ & -> & ->)|(p & _ & -> & ->)]].
  - injection Ho as <- <-. split; [done|]. by exists f', (S k).
  - mval Ho. injection Ho as <- <-. apply finish_val in Hm0 as ->. apply (joined_one only (S k)).
  - mval Ho. injection Ho as <- <-. apply finish_val in Hm0 as ->. apply (joined_one only (S k)).
Qed.

Lemma many_await_val l slots h w r w' :
  length slots = length l -> all_started l h -> handled h = [] ->
  hends h ≡ₚ slot_ends (entry_id <$> l) slots ->
  many_await poll l slots (count_running slots) h w = Some (Val r, w') ->
  conc_result l r.
Proof.
  intros Hl Hst Hh He Hm. unfold many_await in Hm. mval Hm. destruct a as [[slots1 running] h1].
  destruct (poll_slots_val _ _ _ _ _ _ _ _ _ (eq_trans (length_fmap _ _) (eq_sym Hl)) Hm0)
    as (Hl1 & Hc & hp & -> & Hsp & Hhp & _ & Hep).
  assert (all_started l (h ++ hp)) as Hst1.
  { destruct Hst as (a & b & -> & ? & ? & ?). exists a, (b ++ hp).
    by rewrite <- app_assoc, starts_app, Hsp, app_nil_r. }
  assert (hends (h ++ hp) ≡ₚ slot_ends (entry_id <$> l) slots1) as He1
    by (by rewrite hends_app, He).
  case_decide as Hrun.
  - mval Hm. injection Hm as <- <-. apply report_val in Hm1 as (? & ? & ? & Hha); [|congruence].
    destruct (slot_ends_results (entry_id <$> l) slots1) as (rs & Hrs & Hz);
      [rewrite length_fmap; lia|lia|].
    exists rs, (h ++ hp), a. rewrite Hz in *. rewrite length_fmap in Hrs.
    rewrite handled_app, Hh, Hhp. split_and!; try done.
  - injection Hm as <- <-. split; [done|]. rewrite handled_app, Hh, Hhp.
    split_and!; try done; [congruence|lia].
Qed.

Lemma notify_val e w r w' :
  poll_dispatch poll (Fresh false e) w = Some (Val r, w') ->
  conc_result (store_list (handlers (reg w))) r.
Proof.
  simpl. unfold notify. intros Hn. mval Hn. injection Hm as <- <-.
  destruct (store_list (handlers (reg w))) as [|only [|en2 rest]].
  - injection Hn as <- <-. exists [], [], []. split_and!; try done. by exists [], [].
  - unfold one_start in Hn. mval Hn. destruct a as [f|p].
    + by apply (one_await_val only f 0) in Hn.
    + mval Hn. injection Hn as <- <-. apply finish_val in Hm0 as ->. apply (joined_one only 0).
  - unfold many_start in Hn. mval Hn. destruct a as [slots h].
    apply start_all_val in Hm as (Hl & Hs & Hp & Hh & He).
    eapply many_await_val; [done| |done|by rewrite He|done].
    exists h, []. by rewrite app_nil_r.
Qed.

Lemma conc_step l n w r w' :
  conc_inv l n -> poll_dispatch poll n w = Some (Val r, w') -> conc_result l r.
Proof.
  destruct n as [|only cu h|many slots running h|]; try done; simpl.
  - intros (-> & f & k & -> & ->). apply one_await_val.
  - intros (-> & Hl & -> & Hst & Hh & He). by apply many_await_val.
Qed.

Lemma conc_life e l n : life false e l n -> conc_inv l n.
Proof.
  induction 1 as [w n w' <- Hp|n w n' w' _ IH Hp].
  - by apply notify_val in Hp.
  - by eapply conc_step in Hp.
Qed.

(** ** Sequential dispatch *)

(** One handler's part of a sequential history: started, polled [k] times, ended,
    and handled if it panicked. *)
Definition block (en : entry E O) (b : nat * (unit + payload)) : list hev :=
  (HStart (entry_id en) :: replicate b.1 (HPoll (entry_id en))) ++
  HEnd (entry_id en) b.2 ::
    match b.2 with inl _ => [] | inr p => [HHandle (entry_id en) p] end.

Definition blocks (l : list (entry E O)) (bs : list (nat * (unit + payload))) : list hev :=
  concat (zip_with block l bs).

Lemma blocks_snoc l bs en b :
  length bs = length l -> blocks (l ++ [en]) (bs ++ [b]) = blocks l bs ++ block en b.
Proof.
  intros Hl. unfold blocks. rewrite zip_with_app by done. rewrite concat_app. simpl.
  by rewrite app_nil_r.
Qed.

Definition seq_inv (l : list (entry E O)) (n : dispatch E O) : Prop :=
  match n with
  | Seq e en cu rest h => exists past bs k f,
      l = past ++ en :: rest /\ length bs = length past /\ cu = mkCatchUnwind (Some f) /\
      h = blocks past bs ++ HStart (entry_id en) :: replicate k (HPoll (entry_id en))
  | _ => False
  end.

Definition seq_result (l : list (entry E O)) (r : Poll (list hev) (dispatch E O)) : Prop :=
  match r with
  | Ready h => exists bs, length bs = length l /\ h = blocks l bs
  | Pending n => seq_inv l n
  end.

(** What follows the end of one handler, given what the rest of the loop does. *)
Lemma seq_finish e past en rest bs k outcome w r w' :
  (forall past bs w r w', length bs = length past ->
     seq_loop poll e rest (blocks past bs) w = Some (Val r, w') -> seq_result (past ++ rest) r) ->
  length bs = length past ->
  (h' ← finish (entry_id en) outcome;
   seq_loop poll e rest
     ((blocks past bs ++ HStart (entry_id en) :: replicate k (HPoll (entry_id en))) ++ h')) w
    = Some (Val r, w') ->
  seq_result (past ++ en :: rest) r.
Proof.
  intros IH Hl Hs. mval Hs. apply finish_val in Hm as ->.
  rewrite <- app_assoc in Hs.
  change (blocks past bs ++ _) with (blocks past bs ++ block en (k, outcome)) in Hs.
  rewrite <- blocks_snoc in Hs by done.
  apply IH in Hs; [by rewrite <- app_assoc in Hs|]. rewrite !length_app. simpl. lia.
Qed.

Lemma seq_await_val e past en rest bs k f w r w' :
  (forall past bs w r w', length bs = length past ->
     seq_loop poll e rest (blocks past bs) w = Some (Val r, w') -> seq_result (past ++ rest) r) ->
  length bs = length past ->
  seq_await poll e en (mkCatchUnwind (Some f)) rest
    (blocks past bs ++ HStart (entry_id en) :: replicate k (HPoll (entry_id en))) w
    = Some (Val r, w') ->
  seq_result (past ++ en :: rest) r.
Proof.
  intros IH Hl Ha. unfold seq_await in Ha. mval Ha. destruct a as [o cu].
  rewrite <- app_assoc, <- app_comm_cons, <- replicate_cons_app in Ha.
  destruct (CatchUnwind_poll_val _ _ _ _ _ _ Hm)
    as [(f' & _ & -> & ->)|[(u & _ & -> & ->)|(p & _ & -> & ->)]].
  - injection Ha as <- <-. by exists past, bs, (S k), f'.
  - by eapply (seq_finish e past en rest bs (S k)) in Ha.
  - by eapply (seq_finish e past en rest bs (S k)) in Ha.
Qed.

Lemma seq_loop_val e rest past bs w r w' :
  length bs = length past ->
  seq_loop poll e rest (blocks past bs) w = Some (Val r, w') -> seq_result (past ++ rest) r.
Proof.
  revert past bs w r w'. induction rest as [|en rest IH]; intros past bs w r w' Hl Hs.
  { injection Hs as <- <-. rewrite app_nil_r. by exists bs. }
  cbn [seq_loop] in Hs. mval Hs. destruct a as [f|p].
  - by eapply (seq_await_val e past en rest bs 0) in Hs.
  - by eapply (seq_finish e past en rest bs 0) in Hs.
Qed.

Lemma notify_sequential_val e w r w' :
  poll_dispatch poll (Fresh true e) w = Some (Val r, w') ->
  seq_result (store_list (handlers (reg w))) r.
Proof.
  simpl. unfold notify_sequential. intros Hn. mval Hn. injection Hm as <- <-.
  destruct (store_list (handlers (reg w))) as [|en l].
  - injection Hn as <- <-. by exists [].
  - by apply (seq_loop_val e (en :: l) [] []) in Hn.
Qed.

Lemma seq_step l n w r w' :
  seq_inv l n -> poll_dispatch poll n w = Some (Val r, w') -> seq_result l r.
Proof.
  destruct n as [| | |e en cu rest h]; try done. intros (past & bs & k & f & -> & Hl & -> & ->).
  apply seq_await_val; [|done]. intros. by eapply seq_loop_val.
Qed.

Lemma seq_life e l n : life true e l n -> seq_inv l n.
Proof.
  induction 1 as [w n w' <- Hp|n w n' w' _ IH Hp].
  - by apply notify_sequential_val in Hp.
  - by eapply seq_step in Hp.
Qed.
End History.
