(* ===== verification/AsyncPanics.v ===== *)
(** Panic isolation in [AsyncRegistry] (src/src/async_registry/mod.rs): as long as
    dropping a panic payload does not panic, no dispatch unwinds. *)
From S2P Require Import Prelude HandlerId HandlerList HandlerStore PanicInfo Unwind FutureExt.
From S2P Require Import AsyncRegistry AsyncHistory.

Section Panics.
Context {E O : Type}.
Abbreviation Vec := (list (entry E O)).
Abbreviation World := (world E O Vec).
Implicit Types (w : World) (c : code E O).

(** ** Code whose panic payloads are quiet *)

Fixpoint code_ok c : Prop :=
  match c with
  | Finish | Never => True
  | Panic p => quiet p
  | Register _ h k => (forall e, code_ok (h e)) /\ forall id, code_ok (k id)
  | Unregister _ k | Contains _ k | IsEmpty k => forall b, code_ok (k b)
  | HandlerCount k => forall n, code_ok (k n)
  | Observe k => forall t, code_ok (k t)
  | OnPanic cb k => (forall i, code_ok (cb i)) /\ code_ok k
  | Yield k | Emit _ k | Clear k | ClearPanicCallback k | DropGuard _ k | Notify _ _ k => code_ok k
  end.

Definition entry_ok (en : entry E O) : Prop := forall e, code_ok (handler en e).

(** The code other threads register. *)
Definition other_ok (op : other_op (E := E) (O := O)) : Prop :=
  match op with
  | OIssue _ h => forall e, code_ok (h e)
  | OOnPanic cb => forall i, code_ok (cb i)
  | _ => True
  end.

Record world_ok w : Prop := {
  wo_handlers : Forall entry_ok (handlers (reg w));
  wo_callback cb : panic_callback (reg w) = Some cb -> forall i, code_ok (cb i);
  wo_pending : Forall entry_ok (pending w);
  wo_others : Forall (Forall other_ok) (others w);
}.

Inductive fut_ok : fut E O -> Prop :=
  | fo_run c : code_ok c -> fut_ok (Run c)
  | fo_await n k : dispatch_ok n -> code_ok k -> fut_ok (Await n k)
with dispatch_ok : dispatch E O -> Prop :=
  | do_fresh s e : dispatch_ok (Fresh s e)
  | do_one only cu h : (forall f, inner cu = Some f -> fut_ok f) -> dispatch_ok (One only cu h)
  | do_many many slots running h :
      (forall f, Running f ∈ slots -> fut_ok f) -> (forall p, SlotPanicked p ∈ slots -> quiet p) ->
      length slots = length many -> count_running slots = running ->
      dispatch_ok (Many many slots running h)
  | do_seq e en cu rest h :
      (forall f, inner cu = Some f -> fut_ok f) -> Forall entry_ok rest ->
      dispatch_ok (Seq e en cu rest h).

Definition slot_ok (s : Slot (fut E O)) : Prop :=
  match s with Running f => fut_ok f | SlotDone => True | SlotPanicked p => quiet p end.

Lemma dispatch_ok_many many slots running h :
  Forall slot_ok slots -> length slots = length many -> count_running slots = running ->
  dispatch_ok (Many many slots running h).
Proof.
  intros Hs ? ?. rewrite Forall_forall in Hs. constructor; [..|done|done].
  - intros f Hf. apply (Hs _ Hf).
  - intros p Hp. apply (Hs _ Hp).
Qed.

Lemma dispatch_ok_many_inv many slots running h :
  dispatch_ok (Many many slots running h) ->
  Forall slot_ok slots /\ length slots = length many /\ count_running slots = running.
Proof.
  inversion 1; subst. split_and!; try done. apply Forall_forall.
  intros [f| |p] Hs; simpl; auto.
Qed.

(** ** The world stays quiet *)

Lemma aworld_ok_same w w' :
  world_ok w -> handlers (reg w') = handlers (reg w) ->
  panic_callback (reg w') = panic_callback (reg w) -> pending w' = pending w -> others w' = others w -> world_ok w'.
Proof. intros [] Hh Hc Hp Ho. split; rewrite ?Hh, ?Hc, ?Hp, ?Ho; auto. Qed.

Lemma world_ok_log ev w : world_ok w -> world_ok (log_ev ev w).
Proof. intros Hw. by eapply aworld_ok_same. Qed.

Lemma world_ok_issue w : world_ok w -> world_ok (do_issue w).2.
Proof. intros Hw. by eapply aworld_ok_same. Qed.

Lemma world_ok_insert en w : world_ok w -> entry_ok en -> world_ok (do_insert en w).
Proof.
  intros [] Hen. split; simpl; try done. rewrite Forall_forall in *.
  intros en' [->|Hin]%insert_entry_elem; [done|by auto].
Qed.

Lemma world_ok_unregister id w : world_ok w -> world_ok (do_unregister id w).2.
Proof.
  intros [H1 H2 H3 H4]. unfold do_unregister, unregister, remove_id. simpl.
  destruct (remove_id_list id (handlers (reg w))) as [l|] eqn:Hr; simpl; [|by split].
  split; simpl; try done. rewrite Forall_forall in *. intros en Hen.
  eapply H1, remove_id_list_elem; done.
Qed.

Lemma world_ok_clear w : world_ok w -> world_ok (set_reg (clear (reg w)) w).
Proof.
  intros [H1 H2 H3 H4]. unfold clear, remove_all. simpl.
  destruct (handlers (reg w)) as [|en l] eqn:Hh; simpl; split; simpl; try done. by rewrite Hh.
Qed.

Lemma world_ok_on_panic cb w : (forall i, code_ok (cb i)) -> world_ok w -> world_ok (set_reg (on_panic cb (reg w)) w).
Proof. intros Hcb []. split; try done. by intros cb' [= <-]. Qed.

Lemma world_ok_clear_callback w : world_ok w -> world_ok (set_reg (clear_panic_callback (reg w)) w).
Proof. intros []. by split. Qed.

(** Other threads keep it so. *)
Lemma world_ok_other op w : other_ok op -> world_ok w -> world_ok (apply_other op w).
Proof.
  intros Hop Hw. destruct op as [o|prio h|i|id| |cb| |i]; simpl.
  - by apply world_ok_log.
  - destruct Hw. split; simpl; try done. apply Forall_app. split; [done|]. by constructor.
  - destruct (pending w !! i) as [en|] eqn:Hi; [|done]. pose proof (wo_pending _ Hw) as Hp.
    assert (entry_ok en) as Hen by (by eapply Forall_lookup_1).
    destruct (world_ok_insert en w Hw Hen). split; try done. simpl. by apply Forall_delete.
  - by apply world_ok_unregister.
  - by apply world_ok_clear.
  - by apply world_ok_on_panic.
  - by apply world_ok_clear_callback.
  - by apply world_ok_log.
Qed.

Lemma world_ok_interfere w : world_ok w -> world_ok (interfere w).
Proof.
  intros Hw. unfold interfere. destruct (others w) as [|ops rest] eqn:Ho; [done|].
  pose proof (wo_others _ Hw) as Hoo. rewrite Ho in Hoo. apply Forall_cons in Hoo as [Hops Hrest].
  assert (world_ok (set_others rest w)) as Hw1 by (destruct Hw; by split).
  unfold apply_others. generalize dependent (set_others rest w). clear -Hops.
  induction Hops as [|op ops Hop Hops IH]; intros w Hw; [done|]. simpl. by apply IH, world_ok_other.
Qed.

Lemma world_ok_guard g w : world_ok w -> world_ok (AsyncHandlerGuard_drop g w).
Proof.
  intros Hw. unfold AsyncHandlerGuard_drop. destruct (_ && _); [|done].
  by apply world_ok_unregister.
Qed.

(** ** User code *)

Definition poll_ok (r : Poll unit (fut E O)) : Prop :=
  match r with Ready _ => True | Pending f => fut_ok f end.
Definition dpoll_ok (r : Poll (list hev) (dispatch E O)) : Prop :=
  match r with Ready _ => True | Pending n => dispatch_ok n end.

(** Awaiting a dispatch does not unwind. *)
Definition await_ok (await : option (dispatch E O -> M World (Poll (list hev) (dispatch E O)))) : Prop :=
  forall aw, await = Some aw -> forall n, dispatch_ok n -> calm world_ok (aw n) dpoll_ok.

Abbreviation runs m := (safe world_ok m poll_ok quiet).

(** Accesses, which other threads may precede. *)
Lemma calm_access {A} (m : M World A) (Q : A -> Prop) : calm world_ok m Q -> calm world_ok (access m) Q.
Proof. intros Hm. eapply calm_bind; [apply calm_modify, world_ok_interfere|]. by intros _ _. Qed.

Lemma calm_transact {A} (f : World -> A * World) :
  (forall w, world_ok w -> world_ok (f w).2) -> calm world_ok (transact f) (fun _ => True).
Proof.
  intros Hf w r w' Hw Hr. unfold transact in Hr. specialize (Hf w Hw). destruct (f w) as [a w1].
  injection Hr as <- <-. eauto.
Qed.

Lemma runs_access {A} (m : M World A) (k : A -> M World (Poll unit (fut E O))) :
  calm world_ok m (fun _ => True) -> (forall a, runs (k a)) -> runs (a ← access m; k a).
Proof. intros Hm Hk. eapply safe_bind; [by eapply calm_safe, calm_access|]. by intros a _. Qed.

Lemma calm_read : calm (W := World) world_ok get (fun _ => True).
Proof. intros w r w' Hw [= <- <-]. eauto. Qed.

Lemma exec_code_ok await c : await_ok await -> code_ok c -> runs (exec_code await c).
Proof.
  intros Haw. induction c as [|k IH|p|o k IH|prio h _ k IH|id k IH|k IH|id k IH|k IH|k IH|cb _ k IH
    |k IH|g k IH|s e k IH|k IH|]; intros Hc; cbn [exec_code code_ok] in *.
  - by apply safe_ret.
  - apply safe_ret. by constructor.
  - intros w r w' Hw [= <- <-]. done.
  - apply runs_access; [apply calm_modify, world_ok_log|auto].
  - destruct Hc as [Hh Hk]. apply runs_access; [apply calm_transact, world_ok_issue|]. intros id.
    apply runs_access; [|auto]. apply calm_modify. intros w Hw. by apply world_ok_insert.
  - apply runs_access; [|auto]. apply calm_transact. intros w. apply world_ok_unregister.
  - apply runs_access; [apply calm_modify, world_ok_clear|auto].
  - apply runs_access; [apply calm_read|auto].
  - apply runs_access; [apply calm_read|auto].
  - apply runs_access; [apply calm_read|auto].
  - destruct Hc as [Hcb Hk]. apply runs_access; [apply calm_modify; intros w; by apply world_ok_on_panic|auto].
  - apply runs_access; [apply calm_modify, world_ok_clear_callback|auto].
  - apply runs_access; [apply calm_modify, world_ok_guard|auto].
  - destruct await as [aw|]; [|auto].
    eapply safe_bind; [eapply calm_safe, calm_access, Haw; [done|constructor]|].
    intros [h|n] Hn; [auto|]. apply safe_ret. by constructor.
  - apply runs_access; [apply calm_read|auto].
  - apply safe_ret. by constructor.
Qed.

Lemma exec_sync_ok c : code_ok c -> runs (exec_code None c).
Proof. by apply exec_code_ok. Qed.

Lemma call_handler_ok en e :
  entry_ok en -> safe world_ok (call_handler (St := Vec) en e) fut_ok quiet.
Proof.
  intros Hen. eapply safe_bind; [apply exec_sync_ok, Hen|].
  intros [u|f] Hf; apply safe_ret; [by constructor|done].
Qed.

Lemma calm_get {A} (k : World -> M World A) (Q : A -> Prop) :
  (forall w, world_ok w -> calm world_ok (k w) Q) -> calm world_ok (w ← get; k w) Q.
Proof. intros Hk w r w' Hw Hr. apply bind_inv in Hr as [(x & w1 & [= <- <-] & Hr)|[(? & ? & _)|[? _]]]; [by eapply Hk|done..]. Qed.

Lemma calm_access_get {A} (k : World -> M World A) (Q : A -> Prop) :
  (forall w, world_ok w -> calm world_ok (k w) Q) -> calm world_ok (w ← access get; k w) Q.
Proof.
  intros Hk w r w' Hw Hr. pose proof (world_ok_interfere w Hw) as Hi.
  change ((w ← access get; k w) w) with (k (interfere w) (interfere w)) in Hr. by eapply Hk.
Qed.

Lemma calm_dropping {A} ps (m : M World A) (Q : A -> Prop) :
  calm world_ok m Q -> calm world_ok (dropping_on_unwind ps m) Q.
Proof.
  intros Hm w r w' Hw Hr. unfold dropping_on_unwind in Hr.
  destruct (m w) as [[r1 w1]|] eqn:Hmw; [|done].
  destruct (Hm _ _ _ Hw Hmw) as (Hw1 & a & -> & HQ). injection Hr as <- <-. eauto.
Qed.

Lemma ahandle_panic_ok id p : quiet p -> calm world_ok (handle_panic (St := Vec) id p) (fun _ => True).
Proof.
  intros Hp. apply calm_access_get. intros w Hw. eapply (calm_bind _ _ _ (fun _ => True)); [|intros _ _; by apply calm_drop_box].
  unfold invoke_callback. destruct (panic_callback (reg w)) as [cb|] eqn:Hcb; [|by apply calm_ret].
  eapply calm_bind; [apply calm_modify, world_ok_log|]. intros _ _. apply calm_dropping.
  eapply calm_bind; [eapply calm_catch, exec_sync_ok, wo_callback; done|].
  intros [x|q] Hq; [by apply calm_ret|by apply calm_drop_box].
Qed.

(** ** Dispatches, given that polling a future is safe *)

Section Poll.
Context (poll : fut E O -> M World (Poll unit (fut E O))).
Hypothesis Hpoll : forall f, fut_ok f -> runs (poll f).

Definition outcome_ok (r : unit + payload) : Prop := match r with inl _ => True | inr p => quiet p end.

Lemma poll_caught_ok f :
  fut_ok f -> calm world_ok (poll_caught poll f)
    (fun r => match r with Ready r => outcome_ok r | Pending f => fut_ok f end).
Proof.
  intros Hf. eapply calm_bind; [by eapply calm_catch, Hpoll|].
  intros [[u|f']|p] Hr; by apply calm_ret.
Qed.

Lemma Slot_poll_ok s :
  slot_ok s -> calm world_ok (Slot_poll poll s) (fun '(b, s') => slot_ok s').
Proof.
  destruct s as [f| |p]; intros Hs; simpl; [|by apply calm_ret..].
  eapply calm_bind; [by apply poll_caught_ok|]. intros [[u|p]|f'] Hr; by apply calm_ret.
Qed.

Lemma CatchUnwind_poll_ok cu :
  (forall f, inner cu = Some f -> fut_ok f) ->
  calm world_ok (CatchUnwind_poll poll cu)
    (fun '(o, cu') => (forall f, inner cu' = Some f -> fut_ok f) /\
       match o with Ready r => outcome_ok r | Pending _ => True end).
Proof.
  intros Hcu. unfold CatchUnwind_poll. destruct (inner cu) as [f|] eqn:Hi.
  - eapply calm_bind; [by apply poll_caught_ok, Hcu|].
    intros [r|f'] Hr; apply calm_ret; split; try done; simpl; by intros ? [= <-].
  - apply calm_ret. split; [|done]. intros f Hf. congruence.
Qed.

Lemma start_handler_ok e en :
  entry_ok en -> calm world_ok (start_handler (St := Vec) e en)
    (fun r => match r with inl f => fut_ok f | inr p => quiet p end).
Proof. intros Hen. by apply calm_catch, call_handler_ok. Qed.

Lemma finish_ok id r : outcome_ok r -> calm world_ok (finish (St := Vec) id r) (fun _ => True).
Proof.
  destruct r as [u|p]; intros Hr; [by apply calm_ret|].
  eapply calm_bind; [by apply ahandle_panic_ok|]. intros _ _. by apply calm_ret.
Qed.

Lemma one_await_ok only cu h :
  (forall f, inner cu = Some f -> fut_ok f) -> calm world_ok (one_await poll only cu h) dpoll_ok.
Proof.
  intros Hcu. eapply calm_bind; [by apply CatchUnwind_poll_ok|]. intros [[r|u] cu'] [Hcu' Hr].
  - eapply calm_bind; [by apply finish_ok|]. intros h' _. by apply calm_ret.
  - apply calm_ret. by constructor.
Qed.

Lemma poll_slots_ok ids slots running h :
  Forall slot_ok slots -> count_running slots <= running ->
  calm world_ok (poll_slots poll ids slots running h) (fun '(slots', _, _) => Forall slot_ok slots').
Proof.
  revert slots running h. induction ids as [|id ids IH]; intros [|s slots] running h Hs Hc;
    try by apply calm_ret.
  rewrite count_running_cons in Hc. apply Forall_cons in Hs as [Hs Hss]. cbn [poll_slots].
  eapply (calm_bind _ _ _ (fun '(s', r', _) => slot_ok s' /\ count_running slots <= r')).
  - destruct (is_running s) eqn:Hr; [|by apply calm_ret].
    eapply calm_bind; [by apply Slot_poll_ok|]. intros [b s'] Hs'.
    eapply (calm_bind _ _ _ (fun r' => count_running slots <= r')).
    + destruct b; [|apply calm_ret; lia]. destruct running; [lia|]. apply calm_ret. lia.
    + intros r' Hr'. by apply calm_ret.
  - intros [[s' r'] h'] [Hs' Hr']. eapply calm_bind; [by apply IH|].
    intros [[sl r2] h2] Hsl. apply calm_ret. by constructor.
Qed.

Lemma report_ok many slots :
  Forall slot_ok slots -> calm world_ok (report (St := Vec) many slots) (fun _ => True).
Proof.
  revert slots. induction many as [|en many IH]; intros [|s slots] Hs; try by apply calm_ret.
  apply Forall_cons in Hs as [Hs Hss]. cbn [report].
  destruct s as [f| |p]; [by apply IH..|].
  eapply calm_bind; [by apply calm_dropping, ahandle_panic_ok|]. intros _ _.
  eapply calm_bind; [by apply IH|]. intros h _. by apply calm_ret.
Qed.

(** The outcome of a round keeps the count of running slots. *)
Lemma poll_slots_count ids slots h :
  length ids = length slots -> Forall slot_ok slots ->
  calm world_ok (poll_slots poll ids slots (count_running slots) h)
    (fun '(slots', r', _) =>
       Forall slot_ok slots' /\ length slots' = length slots /\ count_running slots' = r').
Proof.
  intros Hl Hs w r w' Hw Hr.
  destruct (poll_slots_ok ids slots (count_running slots) h Hs (le_n _) w r w' Hw Hr)
    as (Hw' & [[sl r'] h'] & -> & Hsl).
  destruct (poll_slots_val _ _ _ _ _ _ _ _ _ _ Hl Hr) as (Hl' & Hc & _).
  split; [done|]. eexists. split; [done|]. split_and!; [done..|lia].
Qed.

Lemma many_await_ok many slots h :
  length slots = length many -> Forall slot_ok slots ->
  calm world_ok (many_await poll many slots (count_running slots) h) dpoll_ok.
Proof.
  intros Hl Hs. eapply calm_bind; [apply poll_slots_count; [|done]; by rewrite length_fmap|].
  intros [[sl r'] h'] (Hsl & Hl' & Hc). case_decide.
  - eapply calm_bind; [by apply report_ok|]. intros h2 _. by apply calm_ret.
  - apply calm_ret. apply dispatch_ok_many; [done|congruence|done].
Qed.

Lemma start_all_ok e many :
  Forall entry_ok many ->
  calm world_ok (start_all (St := Vec) e many)
    (fun '(slots, _) => length slots = length many /\ Forall slot_ok slots).
Proof.
  induction 1 as [|en many Hen Hm IH]; [by apply calm_ret|]. cbn [start_all].
  eapply calm_bind; [by apply start_handler_ok|]. intros r Hr.
  eapply calm_bind; [apply IH|]. intros [sl h] [Hl Hs]. apply calm_ret.
  split; [simpl; lia|]. constructor; [by destruct r|done].
Qed.

Lemma seq_loop_ok e l h :
  Forall entry_ok l -> calm world_ok (seq_loop poll e l h) dpoll_ok.
Proof.
  intros Hl. revert h. induction Hl as [|en l Hen Hl IH]; intros h; [by apply calm_ret|].
  cbn [seq_loop]. eapply calm_bind; [by apply start_handler_ok|]. intros [f|p] Hr.
  - eapply calm_bind; [apply CatchUnwind_poll_ok; by intros ? [= <-]|].
    intros [[r|u] cu'] [Hcu' Ho].
    + eapply calm_bind; [by apply finish_ok|]. intros h' _. apply IH.
    + apply calm_ret. by constructor.
  - eapply calm_bind; [by apply (finish_ok _ (inr p))|]. intros h' _. apply IH.
Qed.

Lemma poll_dispatch_ok n : dispatch_ok n -> calm world_ok (poll_dispatch poll n) dpoll_ok.
Proof.
  destruct n as [s e|only cu h|many slots running h|e en cu rest h]; intros Hn.
  - destruct s; apply calm_get; intros w [Hw _]; cbn [store_list vec_store].
    + destruct (handlers (reg w)) as [|en l]; [by apply calm_ret|]. by apply (seq_loop_ok e (en :: l)).
    + destruct (handlers (reg w)) as [|en [|en2 l]]; [by apply calm_ret|..].
      * apply Forall_cons in Hw as [Hen _]. eapply calm_bind; [by apply start_handler_ok|].
        intros [f|p] Hr; [apply one_await_ok; by intros ? [= <-]|].
        eapply calm_bind; [by apply (finish_ok _ (inr p))|]. intros h _. by apply calm_ret.
      * eapply calm_bind; [by apply start_all_ok|]. intros [slots h] [Hl Hs].
        by apply many_await_ok.
  - inversion Hn; subst. by apply one_await_ok.
  - apply dispatch_ok_many_inv in Hn as (Hs & Hl & <-). by apply many_await_ok.
  - inversion Hn; subst. eapply calm_bind; [by apply CatchUnwind_poll_ok|].
    intros [[r|u] cu'] [Hcu' Ho].
    + eapply calm_bind; [by apply finish_ok|]. intros h' _. by apply seq_loop_ok.
    + apply calm_ret. by constructor.
Qed.
End Poll.

Lemma poll_fut_ok fuel f : fut_ok f -> runs (poll_fut fuel f).
Proof.
  revert f. induction fuel as [|fuel IH]; intros f Hf; [by intros w r w' _ ?|].
  assert (await_ok (Some (poll_dispatch (poll_fut fuel)))) as Haw.
  { intros aw [= <-] n Hn. by apply poll_dispatch_ok. }
  destruct Hf as [c Hc|n k Hn Hk]; simpl.
  - by apply exec_code_ok.
  - eapply safe_bind; [by eapply calm_safe, Haw|]. intros [h|n'] Hr.
    + by apply exec_code_ok.
    + apply safe_ret. by constructor.
Qed.

Lemma poll_dispatch_fuel_ok fuel n :
  dispatch_ok n -> calm world_ok (poll_dispatch (poll_fut fuel) n) dpoll_ok.
Proof. apply poll_dispatch_ok. intros f. apply poll_fut_ok. Qed.
End Panics.
