(* ===== verification/AsyncTerm.v ===== *)
(** Termination of asynchronous dispatch (src/src/async_registry/mod.rs): if the futures of
    the handlers finish after finitely many polls, so does the dispatch, whatever happens
    between polls, and no poll gets stuck. *)
From S2P Require Import Prelude HandlerId HandlerList HandlerStore PanicInfo Unwind FutureExt.
From S2P Require Import AsyncRegistry AsyncHistory.

(** ** Code that always returns *)

(** [m] returns from every state, with a value (if any) in [Q]. *)
Definition returns {W A} (m : M W A) (Q : A -> Prop) : Prop :=
  forall w, exists r w', m w = Some (r, w') /\ forall a, r = Val a -> Q a.

Section Returns.
Context {W : Type}.

Lemma returns_ret {A} (a : A) (Q : A -> Prop) : Q a -> returns (W := W) (mret a) Q.
Proof. intros Ha w. exists (Val a), w. split; [done|]. by intros ? [= <-]. Qed.

Lemma returns_bind {A B} (m : M W A) (k : A -> M W B) (P : A -> Prop) (Q : B -> Prop) :
  returns m P -> (forall a, P a -> returns (k a) Q) -> returns (m ≫= k) Q.
Proof.
  intros Hm Hk w. unfold mbind, M_bind. destruct (Hm w) as (r & w1 & -> & HP).
  destruct r as [a|p|]; [by apply Hk, HP|eexists; eexists; split; [done|discriminate]..].
Qed.

Lemma returns_impl {A} (m : M W A) (P Q : A -> Prop) :
  returns m P -> (forall a, P a -> Q a) -> returns m Q.
Proof. intros Hm HQ w. destruct (Hm w) as (r & w1 & ? & ?). exists r, w1. eauto. Qed.

Lemma returns_get : returns (W := W) get (fun _ => True).
Proof. intros w. by exists (Val w), w. Qed.

Lemma returns_modify f : returns (W := W) (modify f) (fun _ => True).
Proof. intros w. by exists (Val tt), (f w). Qed.

Lemma returns_transact {A} (f : W -> A * W) : returns (W := W) (transact f) (fun _ => True).
Proof. intros w. unfold transact. destruct (f w) as [a w']. by exists (Val a), w'. Qed.

Lemma returns_panic {A} p (Q : A -> Prop) : returns (W := W) (panic p) Q.
Proof. intros w. by exists (Unwinding p), w. Qed.

Lemma returns_catch {A} (m : M W A) (Q : A -> Prop) :
  returns m Q -> returns (catch_unwind m) (fun r => match r with inl a => Q a | inr _ => True end).
Proof.
  intros Hm w. unfold catch_unwind. destruct (Hm w) as (r & w1 & -> & HQ).
  destruct r as [a|p|]; eexists; eexists; (split; [done|]); intros x [= <-]; auto.
Qed.

Lemma returns_dropping {A} ps (m : M W A) (Q : A -> Prop) :
  returns m Q -> returns (dropping_on_unwind ps m) Q.
Proof.
  intros Hm w. unfold dropping_on_unwind. destruct (Hm w) as (r & w1 & -> & HQ).
  destruct r as [a|p|]; [by exists (Val a), w1| |by exists Aborting, w1].
  destruct (forallb _ ps); eexists; eexists; (split; [done|discriminate]).
Qed.

Lemma returns_drop_box p : returns (W := W) (drop_box p) (fun _ => True).
Proof.
  unfold drop_box. destruct (drop_payload p); [apply returns_panic|by apply returns_ret].
Qed.
End Returns.

#[export] Hint Resolve returns_get returns_modify returns_transact returns_panic returns_catch returns_dropping
  returns_drop_box : registry.

Section Termination.
Context {E O St : Type} `{HandlerStore (E -> code E O) St}.
Abbreviation World := (world E O St).
Implicit Types (c k : code E O) (f : fut E O) (slots : list (Slot (fut E O))) (l : list (entry E O)).

(** ** The code of the registry *)

Lemma returns_access {A} (m : M World A) Q : returns m Q -> returns (access m) Q.
Proof. intros Hm. eapply returns_bind; [apply returns_modify|]. by intros _ _. Qed.

(** Code that is not asynchronous always returns. *)
Lemma exec_sync_returns c : returns (W := World) (exec_code None c) (fun _ => True).
Proof.
  induction c as [|k IH|p|o k IH|prio h _ k IH|id k IH|k IH|id k IH|k IH|k IH|cb _ k IH
    |k IH|g k IH|s e k IH|k IH|]; cbn [exec_code]; try done;
    try (eapply returns_bind; [apply returns_access, returns_modify|intros _ _; by apply IH]);
    try (eapply returns_bind; [apply returns_access, returns_get|intros w _; by apply IH]).
  - by apply returns_ret.
  - by apply returns_ret.
  - apply returns_panic.
  - eapply returns_bind; [apply returns_access, returns_transact|]. intros id _.
    eapply returns_bind; [apply returns_access, returns_modify|]. intros _ _. apply IH.
  - eapply returns_bind; [apply returns_access, returns_transact|]. intros b _. apply IH.
  - by apply returns_ret.
Qed.

Lemma handle_panic_returns id p : returns (W := World) (handle_panic id p) (fun _ => True).
Proof.
  eapply returns_bind; [apply returns_access, returns_get|]. intros w _.
  eapply (returns_bind _ _ (fun _ => True)); [|intros _ _; apply returns_drop_box].
  unfold invoke_callback. destruct (panic_callback (reg w)) as [cb|]; [|by apply returns_ret].
  eapply returns_bind; [apply returns_modify|]. intros _ _. apply returns_dropping.
  eapply returns_bind; [apply returns_catch, exec_sync_returns|].
  intros [x|q] _; [by apply returns_ret|apply returns_drop_box].
Qed.

Lemma finish_returns id o : returns (W := World) (finish id o) (fun _ => True).
Proof.
  destruct o as [u|p]; [by apply returns_ret|].
  eapply returns_bind; [apply handle_panic_returns|]. intros _ _. by apply returns_ret.
Qed.

Lemma report_returns many slots : returns (W := World) (report many slots) (fun _ => True).
Proof.
  revert slots. induction many as [|en many IH]; intros [|s slots]; try by apply returns_ret.
  cbn [report]. destruct s as [f| |p]; [apply IH..|].
  eapply returns_bind; [apply returns_dropping, handle_panic_returns|]. intros _ _.
  eapply returns_bind; [apply IH|]. intros h _. by apply returns_ret.
Qed.

(** ** Dispatches over futures that end *)

Section Poll.
Context (poll : fut E O -> M World (Poll unit (fut E O))).

(** [f], polled in some world, is pending as [f']. *)
Definition follows f f' : Prop := exists w w', poll f w = Some (Val (Pending f'), w').

(** Polled in any worlds, [f] always returns, and is pending only finitely often. *)
Inductive finishes f : Prop :=
  | finishes_intro : (forall w, is_Some (poll f w)) -> (forall f', follows f f' -> finishes f') -> finishes f.

(** The handler's closure returns or panics, and if it returns a future, that finishes. *)
Definition handler_finishes (e : E) (en : entry E O) : Prop := returns (call_handler en e) finishes.

(** The same of a dispatch: polled in any worlds, [n] always returns, and is pending only
    finitely often. *)
Inductive halts (n : dispatch E O) : Prop :=
  | halts_intro : returns (poll_dispatch poll n)
                    (fun r => forall n', r = Pending n' -> halts n') -> halts n.

Definition all_halt (r : Poll (list hev) (dispatch E O)) : Prop :=
  forall n, r = Pending n -> halts n.

Lemma poll_returns f : finishes f -> returns (poll f) (fun r => forall f', r = Pending f' -> follows f f').
Proof.
  intros [Hs _] w. destruct (Hs w) as [[r w'] Hr]. exists r, w'. split; [done|].
  intros a -> f' ->. by exists w, w'.
Qed.

Lemma follows_finishes f f' : finishes f -> follows f f' -> finishes f'.
Proof. intros [_ Hf]. apply Hf. Qed.

Lemma start_handler_returns e en :
  handler_finishes e en ->
  returns (start_handler e en) (fun r => forall f, r = inl f -> finishes f).
Proof.
  intros Hen. eapply returns_impl; [apply (returns_catch _ finishes), Hen|].
  intros [f|p] Hf g [= <-]. done.
Qed.

Definition slot_finishes (s : Slot (fut E O)) : Prop := forall f, s = Running f -> finishes f.

Lemma start_all_returns e l :
  Forall (handler_finishes e) l ->
  returns (start_all e l) (fun '(slots, _) => length slots = length l /\ Forall slot_finishes slots).
Proof.
  induction 1 as [|en l Hen Hl IH]; [by apply returns_ret|]. cbn [start_all].
  eapply returns_bind; [by apply start_handler_returns|]. intros r Hr.
  eapply returns_bind; [apply IH|]. intros [sl h] [Hlen Hs]. apply returns_ret.
  split; [simpl; lia|]. constructor; [|done]. destruct r as [f|p]; intros g [= <-]. auto.
Qed.

Lemma poll_caught_returns f :
  finishes f -> returns (poll_caught poll f) (fun r => forall f', r = Pending f' -> follows f f').
Proof.
  intros Hf. eapply returns_bind; [by apply returns_catch, poll_returns|].
  intros [[u|f1]|p] Hr; apply returns_ret; intros f' Hf'; [done| |done].
  injection Hf' as <-. by apply Hr.
Qed.

Lemma CatchUnwind_poll_returns f :
  finishes f -> returns (CatchUnwind_poll poll (mkCatchUnwind (Some f)))
    (fun '(o, cu) => forall u, o = Pending u -> exists f', cu = mkCatchUnwind (Some f') /\ follows f f').
Proof.
  intros Hc. eapply returns_bind; [by apply poll_caught_returns|].
  intros [r|f'] Hf; apply returns_ret; intros u Hu; [done|]. exists f'. auto.
Qed.

Lemma one_halts only f h : finishes f -> halts (One only (mkCatchUnwind (Some f)) h).
Proof.
  intros Hf. revert h. induction Hf as [f Hs Hnext IH]. intros h. constructor. simpl.
  eapply returns_bind; [by apply CatchUnwind_poll_returns|]. intros [[r|u] cu] Hcu.
  - eapply returns_bind; [apply finish_returns|]. intros h' _. by apply returns_ret.
  - destruct (Hcu u eq_refl) as (f' & -> & Hf'). apply returns_ret. intros n' [= <-]. by apply IH.
Qed.

(** *** Sequences *)

Lemma seq_await_halts e en rest f h :
  (forall h, returns (seq_loop poll e rest h) all_halt) -> finishes f ->
  halts (Seq e en (mkCatchUnwind (Some f)) rest h).
Proof.
  intros Hrest Hf. revert h. induction Hf as [f Hs Hnext IH]. intros h. constructor. simpl.
  eapply returns_bind; [by apply CatchUnwind_poll_returns|]. intros [[r|u] cu] Hcu.
  - eapply returns_bind; [apply finish_returns|]. intros h' _. apply Hrest.
  - destruct (Hcu u eq_refl) as (f' & -> & Hf'). apply returns_ret. intros n' [= <-]. by apply IH.
Qed.

Lemma seq_loop_halts e l h : Forall (handler_finishes e) l -> returns (seq_loop poll e l h) all_halt.
Proof.
  intros Hl. revert h. induction Hl as [|en l Hen Hl IH]; intros h; [by apply returns_ret|].
  cbn [seq_loop]. eapply returns_bind; [by apply start_handler_returns|]. intros [f|p] Hf.
  - specialize (Hf f eq_refl).
    eapply returns_bind; [by apply CatchUnwind_poll_returns|]. intros [[r|u] cu] Hcu.
    + eapply returns_bind; [apply finish_returns|]. intros h' _. apply IH.
    + destruct (Hcu u eq_refl) as (f' & -> & Hf'). apply returns_ret.
      intros n' [= <-]. apply seq_await_halts; [done|]. by eapply follows_finishes.
  - eapply returns_bind; [apply finish_returns|]. intros h' _. apply IH.
Qed.

(** *** Joins *)

(** One round on one slot: a running one advances or stops. *)
Definition slot_step (s s' : Slot (fut E O)) : Prop :=
  (is_running s = false /\ s' = s) \/
  (exists f, s = Running f /\
     (is_running s' = false \/ exists f', s' = Running f' /\ follows f f')).

Lemma Slot_poll_returns f :
  finishes f -> returns (Slot_poll poll (Running f)) (fun '(_, s') => slot_step (Running f) s').
Proof.
  intros Hc. eapply returns_bind; [by apply poll_caught_returns|].
  intros [[u|p]|f'] Hf; apply returns_ret; right; exists f; split; eauto.
Qed.

Lemma poll_slots_returns ids slots running h :
  length ids = length slots -> Forall slot_finishes slots ->
  returns (poll_slots poll ids slots running h) (fun '(slots', _, _) => Forall2 slot_step slots slots').
Proof.
  intros Hl Hs. revert ids running h Hl.
  induction Hs as [|s slots Hf Hs IH]; intros [|id ids] running h Hl; simplify_eq/=;
    [by apply returns_ret|].
  eapply (returns_bind _ _ (fun '(s', _, _) => slot_step s s')).
  - destruct (is_running s) eqn:Hr; [|apply returns_ret; by left].
    destruct s as [f| |]; try done.
    eapply returns_bind; [by apply Slot_poll_returns, Hf|]. intros [b s'] Hs'.
    eapply (returns_bind _ _ (fun _ => True)).
    + destruct b; [|by apply returns_ret]. destruct running; [apply returns_panic|by apply returns_ret].
    + intros r' _. by apply returns_ret.
  - intros [[s' r'] h'] Hst. eapply returns_bind; [by apply IH|]. intros [[sl r2] h2] Hsl.
    apply returns_ret. by constructor.
Qed.

Lemma slot_steps_finish slots slots' :
  Forall slot_finishes slots -> Forall2 slot_step slots slots' -> Forall slot_finishes slots'.
Proof.
  intros Hf Hs. induction Hs as [|s s' slots slots' H1 Hs IH]; [done|].
  apply Forall_cons in Hf as [Hs0 Hf]. constructor; [|by apply IH].
  intros f ->. destruct H1 as [[? <-]|(f0 & -> & [?|(f' & [= ->] & Hf')])]; [done..|].
  eapply follows_finishes; [by apply Hs0|done].
Qed.

(** The running slots only get fewer; if their number does not change, they are the
    same, and each advanced. *)
Lemma slot_steps_count slots slots' :
  Forall2 slot_step slots slots' ->
  count_running slots' <= count_running slots /\
  (count_running slots' = count_running slots -> forall i f, slots !! i = Some (Running f) ->
     exists f', slots' !! i = Some (Running f') /\ follows f f').
Proof.
  induction 1 as [|s s' slots slots' H1 Hs [IH1 IH2]].
  { split; [lia|]. intros _ i f Hi. by rewrite lookup_nil in Hi. }
  rewrite !count_running_cons.
  destruct H1 as [[Hr ->]|(f0 & -> & [Hr|(f' & -> & Hf')])]; simpl is_running in *;
    rewrite ?Hr.
  - split; [lia|]. intros Heq [|i] f Hi; simplify_eq/=. apply IH2; [lia|done].
  - split; [lia|]. lia.
  - split; [lia|]. intros Heq [|i] f Hi; simplify_eq/=; [by exists f'|]. apply IH2; [lia|done].
Qed.

Lemma some_running slots :
  count_running slots <> 0 -> exists i f, slots !! i = Some (Running f).
Proof.
  induction slots as [|s slots IH]; [done|]. rewrite count_running_cons.
  destruct s as [f| |p]; intros Hc; [by exists 0, f|..];
    (destruct IH as (i & f & Hi); [done|]); by exists (S i), f.
Qed.

(** One poll of a join: it returns; if pending, its slots have stepped. *)
Lemma many_await_returns many slots h :
  length slots = length many -> Forall slot_finishes slots ->
  returns (many_await poll many slots (count_running slots) h)
    (fun r => forall n, r = Pending n -> exists slots' h',
       n = Many many slots' (count_running slots') h' /\ count_running slots' <> 0 /\
       length slots' = length many /\ Forall2 slot_step slots slots').
Proof.
  intros Hl Hs.
  eapply (returns_bind _ _ (fun '(slots', r', _) =>
    Forall2 slot_step slots slots' /\ r' = count_running slots')).
  - intros w. destruct (poll_slots_returns (entry_id <$> many) slots (count_running slots) h)
      with (w := w) as (r & w' & Hr & HQ); [by rewrite length_fmap|done|].
    exists r, w'. split; [done|]. intros [[sl r'] h'] ->. split; [by apply (HQ _ eq_refl)|].
    destruct (poll_slots_val _ _ _ _ _ _ _ _ _ _ (eq_trans (length_fmap _ _) (eq_sym Hl)) Hr)
      as (_ & Hc & _). lia.
  - intros [[sl r'] h'] [Hst ->]. case_decide as Hd.
    + eapply returns_bind; [apply report_returns|]. intros h2 _. by apply returns_ret.
    + apply returns_ret. intros n [= <-]. exists sl, h'. split_and!; try done.
      by rewrite <- (Forall2_length _ _ _ Hst).
Qed.

Lemma many_halts many slots h :
  length slots = length many -> Forall slot_finishes slots ->
  halts (Many many slots (count_running slots) h).
Proof.
  remember (count_running slots) as N eqn:HN. revert slots h HN.
  induction (lt_wf N) as [N _ IHN]. intros slots h HN Hl Hs.
  destruct (decide (N = 0)) as [->|HN0].
  { constructor. simpl. rewrite HN. eapply returns_impl; [by apply many_await_returns|].
    intros r Hr n ->. destruct (Hr n eq_refl) as (sl & h' & _ & Hne & _ & Hst).
    apply slot_steps_count in Hst as [? _]. lia. }
  destruct (some_running slots) as (i & f & Hi); [lia|].
  assert (finishes f) as Hf by (eapply Forall_lookup_1 in Hs; [|exact Hi]; by apply Hs).
  revert slots h HN Hl Hs Hi. induction Hf as [f _ _ IHf]. intros slots h HN Hl Hs Hi.
  constructor. simpl. rewrite HN. eapply returns_impl; [by apply many_await_returns|].
  intros r Hr n ->. destruct (Hr n eq_refl) as (sl & h' & -> & Hne & Hl' & Hst).
  pose proof (slot_steps_finish _ _ Hs Hst) as Hs'.
  destruct (slot_steps_count _ _ Hst) as [Hle Hsame].
  destruct (decide (count_running sl = N)) as [Heq|Hlt].
  - destruct (Hsame ltac:(lia) i f Hi) as (f' & Hik & Hnext). rewrite Heq. by eapply IHf.
  - apply IHN; [lia|done..].
Qed.

(** A dispatch over handlers that finish, from its first poll on. *)
Lemma dispatch_halts s e w :
  Forall (handler_finishes e) (store_list (handlers (reg w))) ->
  exists r w', poll_dispatch poll (Fresh s e) w = Some (r, w') /\ forall a, r = Val a -> all_halt a.
Proof.
  intros Hl. destruct s; simpl; unfold notify_sequential, notify;
    rewrite (bind_some get _ w w w eq_refl).
  - destruct (store_list (handlers (reg w))) as [|en l]; [|by apply (seq_loop_halts e (en :: l))].
    by apply returns_ret.
  - destruct (store_list (handlers (reg w))) as [|en [|en2 l]]; [by apply returns_ret|..].
    + apply Forall_cons in Hl as [Hen _]. revert w. change (returns (one_start poll e en) all_halt).
      eapply returns_bind; [by apply start_handler_returns|]. intros [f|p] Hf.
      * pose proof (one_halts en f [HStart (entry_id en)] (Hf f eq_refl)) as [Hh]. exact Hh.
      * eapply returns_bind; [apply finish_returns|]. intros h _. by apply returns_ret.
    + revert w. change (returns (many_start poll e (en :: en2 :: l)) all_halt).
      eapply returns_bind; [by apply start_all_returns|]. intros [slots h] [Hlen Hs].
      by destruct (many_halts (en :: en2 :: l) slots h Hlen Hs) as [Hh].
Qed.
End Poll.

(** ** Code that finishes *)

(** Code that awaits neither a dispatch nor a future that is never ready. *)
Fixpoint flat c : Prop :=
  match c with
  | Finish | Panic _ => True
  | Register _ _ k => forall id, flat (k id)
  | Unregister _ k | Contains _ k | IsEmpty k => forall b, flat (k b)
  | HandlerCount k => forall n, flat (k n)
  | Yield k | Emit _ k | Clear k | ClearPanicCallback k | DropGuard _ k | OnPanic _ k => flat k
  | Notify _ _ _ | Never => False
  | Observe k => forall t, flat (k t)
  end.

Section Flat.
Context (fuel : nat).
Abbreviation poll := (poll_fut (St := St) (S fuel)).

(** What a poll may leave behind. *)
Definition rest_finishes (r : Poll unit (fut E O)) : Prop := forall f, r = Pending f -> finishes poll f.

Lemma returns_finishes f : returns (poll f) rest_finishes -> finishes poll f.
Proof.
  intros Hf. constructor.
  - intros w. destruct (Hf w) as (r & w' & -> & _). by eexists.
  - intros f' (w & w' & Hw). destruct (Hf w) as (r & w1 & Hr & HQ). rewrite Hw in Hr.
    injection Hr as <- <-. by apply (HQ _ eq_refl).
Qed.

(** An access, and going on with what it answers. *)
Lemma returns_access_next {A B} (m : M World A) (g : A -> B) (k : B -> code E O) await :
  returns m (fun _ => True) -> (forall x, returns (W := World) (exec_code await (k x)) rest_finishes) ->
  returns (W := World) (a ← access m; exec_code await (k (g a))) rest_finishes.
Proof. intros Hm Hk. eapply returns_bind; [by apply returns_access|]. by intros a _. Qed.

Lemma flat_returns await c : flat c -> returns (W := World) (exec_code await c) rest_finishes.
Proof.
  revert await. induction c as [|k IH|p|o k IH|prio h _ k IH|id k IH|k IH|id k IH|k IH|k IH|cb _ k IH
    |k IH|g k IH|s e k IH|k IH|]; intros await Hc; cbn [exec_code flat] in *;
    try (eapply returns_bind; [apply returns_access, returns_modify|intros _ _; by apply IH]).
  - by apply returns_ret.
  - apply returns_ret. intros f [= <-]. by apply returns_finishes, IH.
  - apply returns_panic.
  - eapply returns_bind; [apply returns_access, returns_transact|]. intros id _.
    apply (returns_access_next _ (fun _ => id) k); [apply returns_modify|auto].
  - apply (returns_access_next _ (fun b => b) k); [apply returns_transact|auto].
  - apply (returns_access_next _ (fun w => contains id (reg w)) k); [apply returns_get|auto].
  - apply (returns_access_next _ (fun w => handler_count (reg w)) k); [apply returns_get|auto].
  - apply (returns_access_next _ (fun w => is_empty (reg w)) k); [apply returns_get|auto].
  - done.
  - apply (returns_access_next _ (fun w => emits (trace w)) k); [apply returns_get|auto].
  - done.
Qed.

(** Handlers whose code is flat finish. *)
Lemma flat_finishes e en : flat (handler en e) -> handler_finishes poll e en.
Proof.
  intros Hf. eapply returns_bind; [by apply (flat_returns None)|]. intros [u|f] Hr; apply returns_ret.
  - apply returns_finishes. by apply (flat_returns (Some (poll_dispatch (poll_fut fuel))) Finish).
  - by apply Hr.
Qed.
End Flat.

(** A future that is never ready does not finish. *)
Lemma never_finishes fuel (w : World) : ~ finishes (poll_fut (St := St) (S fuel)) (Run Never).
Proof.
  intros Hf. remember (Run Never) as f eqn:He. induction Hf as [f _ _ IH]. subst f.
  apply (IH (Run Never)); [|done]. by exists w, w.
Qed.
End Termination.
