(* ===== verification/AsyncRefine.v ===== *)
(** [AsyncRegistry] implements a log of registrations: executors of any tasks see the
    same with a registry whose handler list is any other implementation of the
    interface [HandlerStore].  Proved once against the interface. *)
From S2P Require Import Prelude HandlerId HandlerList HandlerStore PanicInfo Unwind FutureExt.
From S2P Require Import AsyncRegistry.

Section Simulation.
Context {E O S1 S2 : Type} `{StoreRefines (E -> code E O) S1 S2 R}.
Implicit Types (w : world E O S1) (v : world E O S2) (c : code E O).

Definition is_issue (ev : aev O) : bool := match ev with AIssue _ => true | _ => false end.

(** How many ids have been issued, and that the 64-bit counter has not wrapped. *)
Definition issued {St} (w : world E O St) : Z := Z.of_nat (cnt is_issue (trace w)).
Definition no_wrap {St} (w : world E O St) : Prop := (1 + issued w < u64_modulus)%Z.

(** The ids of registrations in progress: those of this thread and those of others. *)
Definition in_flight {St} (mine : list HandlerId) (w : world E O St) : list HandlerId :=
  mine ++ (entry_id <$> pending w).

(** The two worlds differ in the representation of the handler list only; [mine] are the ids
    this thread has taken and not inserted yet. *)
Record related_with (mine : list HandlerId) w v : Prop := {
  rel_store : R (handlers (reg w)) (handlers (reg v));
  rel_gen : id_generator (reg w) = id_generator (reg v);
  rel_callback : panic_callback (reg w) = panic_callback (reg v);
  rel_alive : alive w = alive v;
  rel_trace : trace w = trace v;
  rel_pending : pending w = pending v;
  rel_others : others w = others v;
  rel_next : gen_next (id_generator (reg w)) = (1 + issued w)%Z;
  rel_ids id : id ∈ store_ids (handlers (reg w)) ++ in_flight mine w ->
    (as_u64 id < gen_next (id_generator (reg w)))%Z;
  rel_fresh : NoDup (in_flight mine w);
  rel_out id : id ∈ in_flight mine w -> id ∉ store_ids (handlers (reg w));
}.
Abbreviation related := (related_with []).

Lemma arelated_new : related world_new world_new.
Proof.
  split; try done; [apply sr_new| |constructor|intros id Hid; by apply elem_of_nil in Hid].
  intros id. simpl. rewrite sr_new_ids. by intros ?%elem_of_nil.
Qed.

Lemma aissued_log {St} ev (w : world E O St) :
  issued (log_ev ev w) = (issued w + if is_issue ev then 1 else 0)%Z.
Proof. unfold issued. simpl. rewrite cnt_snoc. destruct (is_issue ev); lia. Qed.

Lemma arelated_log mine ev w v :
  related_with mine w v -> is_issue ev = false -> related_with mine (log_ev ev w) (log_ev ev v).
Proof.
  intros [] Hev. split; try done; simpl.
  - by rewrite rel_trace0.
  - by rewrite aissued_log, Hev, Z.add_0_r.
Qed.

(** A registration takes its id, which is fresh. *)
Lemma related_issue mine w v :
  related_with mine w v -> no_wrap (do_issue w).2 ->
  (do_issue w).1 = (do_issue v).1 /\
  related_with ((do_issue w).1 :: mine) (do_issue w).2 (do_issue v).2.
Proof.
  intros Hr Hnw. pose proof (rel_next _ _ _ Hr) as Hn. pose proof (rel_gen _ _ _ Hr) as Hg.
  unfold no_wrap in Hnw. simpl in Hnw. rewrite aissued_log in Hnw. simpl in Hnw.
  change (issued (set_reg _ _)) with (issued w) in Hnw.
  assert (0 <= issued w)%Z as Hpos by (unfold issued; lia).
  assert (u64 (gen_next (id_generator (reg w)) + 1) = (gen_next (id_generator (reg w)) + 1)%Z) as Hu
    by (apply u64_small; lia).
  destruct Hr. simpl. rewrite <- Hg. split; [done|]. split; simpl; rewrite <- ?Hg; try done.
  - by rewrite rel_trace0.
  - rewrite Hu, aissued_log. simpl. change (issued (set_reg _ _)) with (issued w). lia.
  - intros id. rewrite Hu. intros [Hid|[->|Hid]%elem_of_cons]%elem_of_app; simpl; [| lia |];
      (assert (as_u64 id < gen_next (id_generator (reg w)))%Z; [apply rel_ids0, elem_of_app; auto|lia]).
  - constructor; [|done]. intros Hin. assert (forall x : Z, ~ (x < x)%Z) as Hirr by (intros; lia).
    eapply Hirr, (rel_ids0 (from_raw _)), elem_of_app. by right.
  - intros id [->|Hid]%elem_of_cons Hin; [|by eapply rel_out0].
    assert (forall x : Z, ~ (x < x)%Z) as Hirr by (intros; lia).
    eapply Hirr, (rel_ids0 (from_raw _)), elem_of_app. by left.
Qed.

(** Its entry is inserted. *)
Lemma arelated_insert mine en w v :
  related_with (entry_id en :: mine) w v -> related_with mine (do_insert en w) (do_insert en v).
Proof.
  intros []. unfold in_flight in *. simpl in *. apply NoDup_cons in rel_fresh0 as [Hnew Hnd].
  split; simpl; try done.
  - apply sr_insert; [done|]. apply rel_out0. left.
  - intros id Hid. apply rel_ids0. apply elem_of_app in Hid as [[->|Hid]%sr_insert_ids|Hid]; set_solver.
  - intros id Hid [->|Hin]%sr_insert_ids; [done|]. eapply rel_out0; [by right|done].
Qed.

(** A registration of this thread, or of another one. *)
Lemma related_hand_over mine en w v :
  related_with (entry_id en :: mine) w v ->
  related_with mine (set_pending (pending w ++ [en]) w) (set_pending (pending v ++ [en]) v).
Proof.
  intros []. assert (in_flight mine (set_pending (pending w ++ [en]) w) ≡ₚ in_flight (entry_id en :: mine) w) as Hp.
  { unfold in_flight. simpl. rewrite fmap_app, app_assoc. simpl. by rewrite Permutation_app_comm. }
  split; simpl; try done.
  - by rewrite rel_pending0.
  - intros id. rewrite Hp. apply rel_ids0.
  - by rewrite Hp.
  - intros id. rewrite Hp. apply rel_out0.
Qed.

Lemma related_take_over mine en i w v :
  related_with mine w v -> pending w !! i = Some en ->
  related_with (entry_id en :: mine) (set_pending (delete i (pending w)) w) (set_pending (delete i (pending v)) v).
Proof.
  intros [] Hi. assert (in_flight (entry_id en :: mine) (set_pending (delete i (pending w)) w) ≡ₚ in_flight mine w) as Hp.
  { unfold in_flight. simpl. rewrite (delete_Permutation _ _ _ Hi) at 2. simpl. by rewrite Permutation_middle. }
  split; simpl; try done.
  - by rewrite rel_pending0.
  - intros id. rewrite Hp. apply rel_ids0.
  - by rewrite Hp.
  - intros id. rewrite Hp. apply rel_out0.
Qed.

(** The list shrinks on both sides. *)
Lemma arelated_shrink mine w v s1 s2 :
  related_with mine w v -> R s1 s2 -> (forall x, x ∈ store_ids s1 -> x ∈ store_ids (handlers (reg w))) ->
  related_with mine
    (set_reg (mkAsync s1 (id_generator (reg w)) (panic_callback (reg w))) w)
    (set_reg (mkAsync s2 (id_generator (reg v)) (panic_callback (reg v))) v).
Proof.
  intros [] HR Hids. split; try done; simpl.
  - intros id [Hid|Hid]%elem_of_app; apply rel_ids0, elem_of_app; [left; by apply Hids|by right].
  - intros id Hid Hin. by eapply rel_out0; [|apply Hids].
Qed.

Lemma arelated_same_reg mine w v : related_with mine w v -> related_with mine (set_reg (reg w) w) (set_reg (reg v) v).
Proof. intros []. by split. Qed.

Lemma related_unregister mine id w v :
  related_with mine w v ->
  (do_unregister id w).1 = (do_unregister id v).1 /\
  related_with mine (do_unregister id w).2 (do_unregister id v).2.
Proof.
  intros Hr. unfold do_unregister, unregister, remove_id.
  pose proof (sr_remove _ _ id (rel_store _ _ _ Hr)) as Hs.
  destruct (store_remove id (handlers (reg w))) as [s1|] eqn:Hq1;
    destruct (store_remove id (handlers (reg v))) as [s2|] eqn:Hq2; inversion Hs; subst; simpl.
  - split; [done|]. apply arelated_shrink; [done..|]. intros x. by eapply sr_remove_ids.
  - split; [done|]. by apply arelated_same_reg.
Qed.

Lemma related_clear mine w v :
  related_with mine w v -> related_with mine (set_reg (clear (reg w)) w) (set_reg (clear (reg v)) v).
Proof.
  intros Hr. unfold clear, remove_all. pose proof (sr_clear _ _ (rel_store _ _ _ Hr)) as Hs.
  destruct (store_clear (handlers (reg w))) as [s1|] eqn:Hq1;
    destruct (store_clear (handlers (reg v))) as [s2|] eqn:Hq2; inversion Hs; subst; simpl.
  - apply arelated_shrink; [done..|]. intros x. rewrite (sr_clear_ids _ _ Hq1).
    by intros ?%elem_of_nil.
  - by apply arelated_same_reg.
Qed.

Lemma arelated_guard mine g w v :
  related_with mine w v -> related_with mine (AsyncHandlerGuard_drop g w) (AsyncHandlerGuard_drop g v).
Proof.
  intros Hr. unfold AsyncHandlerGuard_drop. rewrite (rel_alive _ _ _ Hr).
  destruct (_ && _); [|done]. by apply related_unregister.
Qed.

Lemma related_on_panic mine cb w v :
  related_with mine w v -> related_with mine (set_reg (on_panic cb (reg w)) w) (set_reg (on_panic cb (reg v)) v).
Proof. intros []. by split. Qed.

Lemma arelated_clear_callback mine w v :
  related_with mine w v ->
  related_with mine (set_reg (clear_panic_callback (reg w)) w) (set_reg (clear_panic_callback (reg v)) v).
Proof. intros []. by split. Qed.

Lemma arel_list mine w v : related_with mine w v -> store_list (handlers (reg w)) = store_list (handlers (reg v)).
Proof. intros Hr. apply sr_list, Hr. Qed.

(** ** Other threads *)

Lemma issued_unregister id w : issued (do_unregister id w).2 = issued w.
Proof. unfold do_unregister. by destruct (unregister id (reg w)). Qed.

Lemma issued_guard g w : issued (AsyncHandlerGuard_drop g w) = issued w.
Proof. unfold AsyncHandlerGuard_drop. destruct (_ && _); [apply issued_unregister|done]. Qed.

Lemma issued_issue w : (issued w <= issued (do_issue w).2)%Z.
Proof. simpl. rewrite aissued_log. change (issued (set_reg _ w)) with (issued w). simpl. lia. Qed.

Lemma issued_other op w : (issued w <= issued (apply_other op w))%Z.
Proof.
  destruct op as [o|prio h|i|id| |cb| |i]; simpl; try done.
  - rewrite aissued_log. simpl. lia.
  - apply (issued_issue w).
  - by destruct (pending w !! i).
  - by rewrite issued_unregister.
  - rewrite aissued_log. simpl. lia.
Qed.

Lemma related_other mine op w v :
  related_with mine w v -> no_wrap (apply_other op w) -> related_with mine (apply_other op w) (apply_other op v).
Proof.
  intros Hr Hnw. destruct op as [o|prio h|i|id| |cb| |i]; cbn [apply_other] in *.
  - by apply arelated_log.
  - destruct (related_issue mine w v Hr) as [Hid Hr1]; [exact Hnw|].
    destruct (do_issue w) as [id1 w1], (do_issue v) as [id2 v1]. simpl in *. subst id2.
    by apply (related_hand_over mine (Entry id1 prio h)).
  - rewrite <- (rel_pending _ _ _ Hr) at 1. destruct (pending w !! i) as [en|] eqn:Hi; [|done].
    apply (arelated_insert mine en _ _ (related_take_over mine en i w v Hr Hi)).
  - by apply related_unregister.
  - by apply related_clear.
  - by apply related_on_panic.
  - by apply arelated_clear_callback.
  - by apply arelated_log.
Qed.

Lemma apply_others_sim mine ops w v :
  (issued w <= issued (apply_others ops w))%Z /\
  (related_with mine w v -> no_wrap (apply_others ops w) ->
   related_with mine (apply_others ops w) (apply_others ops v)).
Proof.
  revert w v. induction ops as [|op ops IH]; intros w v; [by split|]. simpl.
  destruct (IH (apply_other op w) (apply_other op v)) as [Hi Hr]. pose proof (issued_other op w). split; [lia|].
  intros Hrel Hnw. apply Hr; [|done]. apply related_other; [done|]. unfold no_wrap in *. lia.
Qed.

Lemma interfere_sim mine w v :
  (issued w <= issued (interfere w))%Z /\
  (related_with mine w v -> no_wrap (interfere w) -> related_with mine (interfere w) (interfere v)).
Proof.
  unfold interfere. split.
  - destruct (others w) as [|ops rest]; [done|]. apply (apply_others_sim mine ops (set_others rest w) (set_others rest v)).
  - intros Hr. rewrite <- (rel_others _ _ _ Hr). destruct (others w) as [|ops rest]; [done|].
    apply apply_others_sim. destruct Hr. by split.
Qed.

(** ** Simulation of computations *)

(** [m1] and [m2] end alike in related worlds, and ids are only ever issued. *)
Definition sims {A} (m1 : M (world E O S1) A) (m2 : M (world E O S2) A) : Prop :=
  forall w r w', m1 w = Some (r, w') ->
    (issued w <= issued w')%Z /\
    forall v, related w v -> no_wrap w' -> exists v', m2 v = Some (r, v') /\ related w' v'.

Lemma sims_ret {A} (a : A) : sims (mret a) (mret a).
Proof. intros w r w' [= <- <-]. split; [lia|]. intros v Hr _. by exists v. Qed.

Lemma sims_panic {A} p : sims (panic p : M _ A) (panic p).
Proof. intros w r w' [= <- <-]. split; [lia|]. intros v Hr _. by exists v. Qed.

Lemma sims_bind {A B} (m1 : M (world E O S1) A) m2 (k1 : A -> M (world E O S1) B) k2 :
  sims m1 m2 -> (forall a, sims (k1 a) (k2 a)) -> sims (m1 ≫= k1) (m2 ≫= k2).
Proof.
  intros Hm Hk w r w' [(a & w1 & Hm1 & Hm2)|[(p & Hm1 & ->)|[Hm1 ->]]]%bind_inv;
    destruct (Hm _ _ _ Hm1) as [Hi1 Hs1].
  - destruct (Hk _ _ _ _ Hm2) as [Hi2 Hs2]. split; [lia|]. intros v Hr Hnw.
    destruct (Hs1 v Hr) as (v1 & Hv1 & Hr1); [unfold no_wrap in *; lia|].
    rewrite (bind_some _ _ _ _ _ Hv1). by apply Hs2.
  - split; [done|]. intros v Hr Hnw. destruct (Hs1 v Hr Hnw) as (v1 & Hv1 & Hr1).
    exists v1. unfold mbind, M_bind. by rewrite Hv1.
  - split; [done|]. intros v Hr Hnw. destruct (Hs1 v Hr Hnw) as (v1 & Hv1 & Hr1).
    exists v1. unfold mbind, M_bind. by rewrite Hv1.
Qed.

Lemma sims_modify f1 f2 :
  (forall w, (issued w <= issued (f1 w))%Z) -> (forall w v, related w v -> related (f1 w) (f2 v)) ->
  sims (modify f1) (modify f2).
Proof. intros Hi Hf w r w' [= <- <-]. split; [done|]. intros v Hr _. exists (f2 v). auto. Qed.

(** Reading the world: what is read must not depend on the representation. *)
Lemma sims_get {A B} (g1 : world E O S1 -> B) (g2 : world E O S2 -> B)
    (k1 : B -> M (world E O S1) A) k2 :
  (forall w v, related w v -> g1 w = g2 v) -> (forall b, sims (k1 b) (k2 b)) ->
  sims (w ← get; k1 (g1 w)) (w ← get; k2 (g2 w)).
Proof.
  intros Hg Hk w r w' Hm. rewrite (bind_some get _ w w w eq_refl) in Hm.
  destruct (Hk _ _ _ _ Hm) as [Hi Hs]. split; [done|]. intros v Hr Hnw.
  rewrite (bind_some get _ v v v eq_refl), <- (Hg w v Hr). by apply Hs.
Qed.

Lemma sims_catch {A} (m1 : M (world E O S1) A) m2 :
  sims m1 m2 -> sims (catch_unwind m1) (catch_unwind m2).
Proof.
  intros Hm w r w' Hc. unfold catch_unwind in *. destruct (m1 w) as [[r1 w1]|] eqn:Hm1; [|done].
  destruct (Hm _ _ _ Hm1) as [Hi Hs].
  assert (w1 = w') as -> by (by destruct r1; simplify_eq).
  split; [done|]. intros v Hr Hnw. destruct (Hs v Hr Hnw) as (v' & -> & Hr'). exists v'.
  by destruct r1; simplify_eq.
Qed.

Lemma sims_dropping {A} ps (m1 : M (world E O S1) A) m2 :
  sims m1 m2 -> sims (dropping_on_unwind ps m1) (dropping_on_unwind ps m2).
Proof.
  intros Hm w r w' Hc. unfold dropping_on_unwind in *. destruct (m1 w) as [[r1 w1]|] eqn:Hm1; [|done].
  destruct (Hm _ _ _ Hm1) as [Hi Hs].
  assert (w1 = w') as -> by (by destruct r1; repeat case_match; simplify_eq).
  split; [done|]. intros v Hr Hnw. destruct (Hs v Hr Hnw) as (v' & -> & Hr'). exists v'.
  by destruct r1; repeat case_match; simplify_eq.
Qed.

Lemma sims_drop_box p : sims (drop_box p) (drop_box p).
Proof. unfold drop_box. destruct (drop_payload p); [apply sims_panic|apply sims_ret]. Qed.

Lemma sims_log ev : is_issue ev = false -> sims (modify (log_ev ev)) (modify (log_ev ev)).
Proof.
  intros Hev. apply sims_modify; [|intros; by apply arelated_log].
  intros w. rewrite aissued_log. destruct (is_issue ev); lia.
Qed.

(** ** User code *)

Abbreviation awaits St := (dispatch E O -> M (world E O St) (Poll (list hev) (dispatch E O))).

(** An access, which other threads may precede. *)
Lemma sims_access {A} (m1 : M (world E O S1) A) m2 : sims m1 m2 -> sims (access m1) (access m2).
Proof.
  intros Hm w r w' Hr. change (m1 (interfere w) = Some (r, w')) in Hr. destruct (Hm _ _ _ Hr) as [Hi Hs].
  split; [pose proof (proj1 (interfere_sim [] w world_new)); lia|]. intros v Hrel Hnw.
  change (access m2 v) with (m2 (interfere v)). apply Hs; [|done]. apply interfere_sim; [done|].
  unfold no_wrap in *. lia.
Qed.

Lemma sims_read {A B} (g1 : world E O S1 -> B) (g2 : world E O S2 -> B) (k1 : B -> M (world E O S1) A) k2 :
  (forall w v, related w v -> g1 w = g2 v) -> (forall b, sims (k1 b) (k2 b)) ->
  sims (w ← access get; k1 (g1 w)) (w ← access get; k2 (g2 w)).
Proof. intros Hg Hk. exact (sims_access (w ← get; k1 (g1 w)) (w ← get; k2 (g2 w)) (sims_get g1 g2 k1 k2 Hg Hk)). Qed.

(** The two accesses of a registration, with whatever happens in between. *)
Lemma sims_register prio h :
  sims (id ← access (transact do_issue); access (modify (do_insert (Entry id prio h))) ;; mret id)
       (id ← access (transact do_issue); access (modify (do_insert (Entry id prio h))) ;; mret id).
Proof.
  intros w r w' Hm. set (u := interfere w).
  assert (r = Val (do_issue u).1 /\ w' = do_insert (Entry (do_issue u).1 prio h) (interfere (do_issue u).2)) as [-> ->]
    by (by injection Hm).
  change (issued (do_insert _ ?x)) with (issued x).
  pose proof (proj1 (interfere_sim [] w world_new)) as Hi1. pose proof (issued_issue u) as Hi2.
  pose proof (proj1 (interfere_sim [] (do_issue u).2 world_new)) as Hi3. fold u in Hi1.
  split; [lia|]. intros v Hr Hnw. change (no_wrap (interfere (do_issue u).2)) in Hnw.
  assert (related u (interfere v)) as Hu by (apply interfere_sim; [done|unfold no_wrap in *; fold u; lia]).
  destruct (related_issue [] u (interfere v) Hu) as [Hid Hr1]; [unfold no_wrap in *; lia|].
  exists (do_insert (Entry (do_issue u).1 prio h) (interfere (do_issue (interfere v)).2)). split.
  - rewrite Hid. done.
  - apply arelated_insert. by apply interfere_sim.
Qed.

Lemma sims_unregister id : sims (transact (do_unregister id)) (transact (do_unregister id)).
Proof.
  intros w r w' Hm. pose proof (issued_unregister id w) as Hi1.
  pose proof (fun v => related_unregister [] id w v) as Hreg. unfold transact in *.
  destruct (do_unregister id w) as [b w1]. cbn [fst snd] in *. injection Hm as <- <-.
  split; [lia|]. intros v Hr Hnw. destruct (Hreg v Hr) as [Hb Hr1].
  destruct (do_unregister id v) as [b2 v1]. cbn [fst snd] in *. subst b2. by exists v1.
Qed.

Definition sims_await (a1 : option (awaits S1)) (a2 : option (awaits S2)) : Prop :=
  option_Forall2 (fun aw1 aw2 => forall n, sims (aw1 n) (aw2 n)) a1 a2.

Lemma exec_code_sim a1 a2 c : sims_await a1 a2 -> sims (exec_code a1 c) (exec_code a2 c).
Proof.
  intros Haw. induction c as [|k IH|p|o k IH|prio h _ k IH|id k IH|k IH|id k IH|k IH|k IH|cb _ k IH
    |k IH|g k IH|s e k IH|k IH|]; cbn [exec_code].
  - apply sims_ret.
  - apply sims_ret.
  - apply sims_panic.
  - apply sims_bind; [by apply sims_access, sims_log|done].
  - apply (sims_bind _ _ (fun id => exec_code a1 (k id)) (fun id => exec_code a2 (k id)) (sims_register prio h)) in IH.
    done.
  - apply sims_bind; [apply sims_access, sims_unregister|done].
  - apply sims_bind; [|done]. apply sims_access, sims_modify; [done|apply related_clear].
  - apply (sims_read (fun w => contains id (reg w)) (fun v => contains id (reg v))
             (fun b => exec_code a1 (k b)) (fun b => exec_code a2 (k b))); [|done].
    intros w v Hr. unfold contains. by rewrite (arel_list _ _ _ Hr).
  - apply (sims_read (fun w => handler_count (reg w)) (fun v => handler_count (reg v))
             (fun b => exec_code a1 (k b)) (fun b => exec_code a2 (k b))); [|done].
    intros w v Hr. unfold handler_count. by rewrite (arel_list _ _ _ Hr).
  - apply (sims_read (fun w => is_empty (reg w)) (fun v => is_empty (reg v))
             (fun b => exec_code a1 (k b)) (fun b => exec_code a2 (k b))); [|done].
    intros w v Hr. unfold is_empty. by rewrite (arel_list _ _ _ Hr).
  - apply sims_bind; [|done]. apply sims_access, sims_modify; [done|apply related_on_panic].
  - apply sims_bind; [|done]. apply sims_access, sims_modify; [done|apply arelated_clear_callback].
  - apply sims_bind; [|done]. apply sims_access, sims_modify; [|apply arelated_guard].
    intros w. by rewrite issued_guard.
  - destruct Haw as [aw1 aw2 Haw|]; [|done].
    apply sims_bind; [apply sims_access, Haw|]. intros [h|n]; [done|apply sims_ret].
  - apply (sims_read (fun w => emits (trace w)) (fun v => emits (trace v))
             (fun b => exec_code a1 (k b)) (fun b => exec_code a2 (k b))); [|done].
    intros w v Hr. by rewrite (rel_trace _ _ _ Hr).
  - apply sims_ret.
Qed.

Lemma exec_sync_sim c : sims (exec_code None c) (exec_code None c).
Proof. apply exec_code_sim. constructor. Qed.

Lemma call_handler_sim en e : sims (call_handler (St := S1) en e) (call_handler (St := S2) en e).
Proof. apply sims_bind; [apply exec_sync_sim|]. intros [u|f]; apply sims_ret. Qed.

Lemma ahandle_panic_sim id p : sims (handle_panic (St := S1) id p) (handle_panic (St := S2) id p).
Proof.
  apply (sims_read (fun w => panic_callback (reg w)) (fun v => panic_callback (reg v))
    (fun cb => invoke_callback cb id p ;; drop_box p) (fun cb => invoke_callback cb id p ;; drop_box p)); [by intros w v []|].
  intros cb. apply sims_bind; [|intros _; apply sims_drop_box].
  destruct cb as [cb|]; [|apply sims_ret].
  apply sims_bind; [by apply sims_log|]. intros _. apply sims_dropping, sims_bind.
  - apply sims_catch, exec_sync_sim.
  - intros [x|q]; [apply sims_ret|apply sims_drop_box].
Qed.

(** ** Dispatches *)

Section Poll.
Context (poll1 : fut E O -> M (world E O S1) (Poll unit (fut E O)))
        (poll2 : fut E O -> M (world E O S2) (Poll unit (fut E O))).
Hypothesis Hpoll : forall f, sims (poll1 f) (poll2 f).

Lemma poll_caught_sim f : sims (poll_caught poll1 f) (poll_caught poll2 f).
Proof. apply sims_bind; [by apply sims_catch|]. intros [[u|f']|p]; apply sims_ret. Qed.

Lemma Slot_poll_sim s : sims (Slot_poll poll1 s) (Slot_poll poll2 s).
Proof.
  destruct s as [f| |p]; simpl; [|apply sims_ret..].
  apply sims_bind; [apply poll_caught_sim|]. intros [[u|p]|f']; apply sims_ret.
Qed.

Lemma CatchUnwind_poll_sim cu : sims (CatchUnwind_poll poll1 cu) (CatchUnwind_poll poll2 cu).
Proof.
  unfold CatchUnwind_poll. destruct (inner cu) as [f|]; [|apply sims_ret].
  apply sims_bind; [apply poll_caught_sim|]. intros [r|f']; apply sims_ret.
Qed.

Lemma start_handler_sim e en : sims (start_handler (St := S1) e en) (start_handler (St := S2) e en).
Proof. apply sims_catch, call_handler_sim. Qed.

Lemma finish_sim id r : sims (finish (St := S1) id r) (finish (St := S2) id r).
Proof.
  destruct r as [u|p]; [apply sims_ret|]. apply sims_bind; [apply ahandle_panic_sim|].
  intros _. apply sims_ret.
Qed.

Lemma one_await_sim only cu h : sims (one_await poll1 only cu h) (one_await poll2 only cu h).
Proof.
  apply sims_bind; [apply CatchUnwind_poll_sim|]. intros [[r|u] cu']; [|apply sims_ret].
  apply sims_bind; [apply finish_sim|]. intros h'. apply sims_ret.
Qed.

Lemma poll_slots_sim ids slots running h :
  sims (poll_slots poll1 ids slots running h) (poll_slots poll2 ids slots running h).
Proof.
  revert slots running h. induction ids as [|id ids IH]; intros [|s slots] running h;
    cbn [poll_slots]; try apply sims_ret.
  apply sims_bind.
  - destruct (is_running s); [|apply sims_ret]. apply sims_bind; [apply Slot_poll_sim|].
    intros [b s']. apply sims_bind; [|intros; apply sims_ret].
    destruct b; [destruct running; [apply sims_panic|]|]; apply sims_ret.
  - intros [[s' r'] h']. apply sims_bind; [apply IH|]. intros [[sl r2] h2]. apply sims_ret.
Qed.

Lemma report_sim many slots : sims (report (St := S1) many slots) (report (St := S2) many slots).
Proof.
  revert slots. induction many as [|en many IH]; intros [|s slots]; cbn [report]; try apply sims_ret.
  destruct s as [f| |p]; [apply IH..|].
  apply sims_bind; [apply sims_dropping, ahandle_panic_sim|]. intros _.
  apply sims_bind; [apply IH|]. intros h. apply sims_ret.
Qed.

Lemma many_await_sim many slots running h :
  sims (many_await poll1 many slots running h) (many_await poll2 many slots running h).
Proof.
  apply sims_bind; [apply poll_slots_sim|]. intros [[sl r'] h'].
  case_decide; [|apply sims_ret]. apply sims_bind; [apply report_sim|]. intros h2. apply sims_ret.
Qed.

Lemma start_all_sim e many : sims (start_all (St := S1) e many) (start_all (St := S2) e many).
Proof.
  induction many as [|en many IH]; cbn [start_all]; [apply sims_ret|].
  apply sims_bind; [apply start_handler_sim|]. intros r.
  apply sims_bind; [apply IH|]. intros [sl h]. apply sims_ret.
Qed.

Lemma seq_loop_sim e l h : sims (seq_loop poll1 e l h) (seq_loop poll2 e l h).
Proof.
  revert h. induction l as [|en l IH]; intros h; cbn [seq_loop]; [apply sims_ret|].
  apply sims_bind; [apply start_handler_sim|]. intros [f|p].
  - apply sims_bind; [apply CatchUnwind_poll_sim|]. intros [[r|u] cu]; [|apply sims_ret].
    apply sims_bind; [apply finish_sim|]. intros h'. apply IH.
  - apply sims_bind; [apply finish_sim|]. intros h'. apply IH.
Qed.

Lemma poll_dispatch_sim n : sims (poll_dispatch poll1 n) (poll_dispatch poll2 n).
Proof.
  destruct n as [s e|only cu h|many slots running h|e en cu rest h]; simpl.
  - destruct s.
    + apply (sims_get (fun w => store_list (handlers (reg w))) (fun v => store_list (handlers (reg v)))
        (fun l => match l with [] => mret (Ready []) | en :: l => seq_loop poll1 e (en :: l) [] end)
        (fun l => match l with [] => mret (Ready []) | en :: l => seq_loop poll2 e (en :: l) [] end)); [apply arel_list|].
      intros [|en l]; [apply sims_ret|apply seq_loop_sim].
    + apply (sims_get (fun w => store_list (handlers (reg w))) (fun v => store_list (handlers (reg v)))
        (fun l => match l with [] => mret (Ready []) | [only] => one_start poll1 e only
                  | en :: en2 :: l => many_start poll1 e (en :: en2 :: l) end)
        (fun l => match l with [] => mret (Ready []) | [only] => one_start poll2 e only
                  | en :: en2 :: l => many_start poll2 e (en :: en2 :: l) end)); [apply arel_list|].
      intros [|en [|en2 l]]; [apply sims_ret|..].
      * apply sims_bind; [apply start_handler_sim|]. intros [f|p]; [apply one_await_sim|].
        apply sims_bind; [apply finish_sim|]. intros h. apply sims_ret.
      * apply sims_bind; [apply start_all_sim|]. intros [slots h]. apply many_await_sim.
  - apply one_await_sim.
  - apply many_await_sim.
  - apply sims_bind; [apply CatchUnwind_poll_sim|]. intros [[r|u] cu']; [|apply sims_ret].
    apply sims_bind; [apply finish_sim|]. intros h'. apply seq_loop_sim.
Qed.
End Poll.

Lemma poll_fut_sim fuel f : sims (poll_fut fuel f) (poll_fut fuel f).
Proof.
  revert f. induction fuel as [|fuel IH]; intros f; [by intros w r w' ?|].
  assert (forall n, sims (poll_dispatch (poll_fut fuel) n) (poll_dispatch (poll_fut fuel) n)) as Hd
    by (intros n; by apply poll_dispatch_sim).
  destruct f as [c|n k]; simpl.
  - apply exec_code_sim. by constructor.
  - apply sims_bind; [apply Hd|]. intros [h|n']; [|apply sims_ret].
    apply exec_code_sim. by constructor.
Qed.

(** ** The executor *)

Lemma exec_step_sim fuel a (ts : list (task E O)) w ts' w' :
  exec_step fuel a (ts, w) = Some (ts', w') ->
  (issued w <= issued w')%Z /\
  forall v, related w v -> no_wrap w' ->
    exists v', exec_step fuel a (ts, v) = Some (ts', v') /\ related w' v'.
Proof.
  destruct a as [i|i|c|l]; simpl.
  - destruct (ts !! i) as [[f|]|].
    + destruct (poll_fut fuel f w) as [[r w1]|] eqn:Hp; [|done]. intros Hs.
      destruct (poll_fut_sim fuel f _ _ _ Hp) as [Hi Hsim].
      assert (w1 = w') as -> by (by destruct r as [[]| |]; simplify_eq).
      split; [done|]. intros v Hr Hnw. destruct (Hsim v Hr Hnw) as (v' & -> & Hr'). exists v'.
      by destruct r as [[]| |]; simplify_eq.
    + intros [= <- <-]. split; [lia|]. intros v Hr _. by exists v.
    + intros [= <- <-]. split; [lia|]. intros v Hr _. by exists v.
  - intros [= <- <-]. split; [lia|]. intros v Hr _. by exists v.
  - intros [= <- <-]. split; [lia|]. intros v Hr _. by exists v.
  - intros [= <- <-]. split; [done|]. intros v [] _. exists (set_others l v). by split.
Qed.

Lemma exec_run_sim fuel sched (ts : list (task E O)) w ts' w' :
  exec_run fuel sched (ts, w) = Some (ts', w') ->
  (issued w <= issued w')%Z /\
  forall v, related w v -> no_wrap w' ->
    exists v', exec_run fuel sched (ts, v) = Some (ts', v') /\ related w' v'.
Proof.
  revert ts w. induction sched as [|a sched IH]; intros ts w Hr.
  { injection Hr as <- <-. split; [lia|]. intros v Hr _. by exists v. }
  cbn [exec_run] in Hr. apply bind_Some in Hr as ([ts1 w1] & Hm1 & Hr).
  destruct (exec_step_sim _ _ _ _ _ _ Hm1) as [Hi1 Hs1].
  destruct (IH _ _ Hr) as [Hi2 Hs2]. split; [lia|]. intros v Hrel Hnw.
  destruct (Hs1 v Hrel) as (v1 & Hv1 & Hr1); [unfold no_wrap in *; lia|].
  cbn [exec_run]. rewrite Hv1. by apply Hs2.
Qed.
End Simulation.
