(* ===== verification/AsyncFuel.v ===== *)
(** The depth given to [poll_fut] only bounds how deep dispatches may await each
    other: once it is enough, more of it changes nothing
    (src/src/async_registry/mod.rs). *)
From S2P Require Import Prelude HandlerId HandlerList HandlerStore PanicInfo Unwind FutureExt.
From S2P Require Import AsyncRegistry.

(** [m2] gives every result that [m1] gives. *)
Definition below {W A} (m1 m2 : M W A) : Prop := forall w x, m1 w = Some x -> m2 w = Some x.

Section Below.
Context {W : Type}.

Lemma below_refl {A} (m : M W A) : below m m.
Proof. by intros w x. Qed.

Lemma below_bind {A B} (m1 m2 : M W A) (k1 k2 : A -> M W B) :
  below m1 m2 -> (forall a, below (k1 a) (k2 a)) -> below (m1 ≫= k1) (m2 ≫= k2).
Proof.
  intros Hm Hk w x. unfold mbind, M_bind. destruct (m1 w) as [[r w1]|] eqn:H1; [|done].
  rewrite (Hm _ _ H1). destruct r; [apply Hk|done..].
Qed.

Lemma below_catch {A} (m1 m2 : M W A) : below m1 m2 -> below (catch_unwind m1) (catch_unwind m2).
Proof.
  intros Hm w x. unfold catch_unwind. destruct (m1 w) as [[r w1]|] eqn:H1; [|done].
  by rewrite (Hm _ _ H1).
Qed.
End Below.

#[export] Hint Resolve below_refl below_bind below_catch : registry.

Section Fuel.
Context {E O St : Type} `{HandlerStore (E -> code E O) St}.

Section Polls.
Context (poll1 poll2 : fut E O -> M (world E O St) (Poll unit (fut E O))).
Hypothesis Hpoll : forall f, below (poll1 f) (poll2 f).

Lemma poll_caught_below f : below (poll_caught poll1 f) (poll_caught poll2 f).
Proof. apply below_bind; [by apply below_catch|]. intros. apply below_refl. Qed.

Lemma CatchUnwind_poll_below cu : below (CatchUnwind_poll poll1 cu) (CatchUnwind_poll poll2 cu).
Proof.
  unfold CatchUnwind_poll. destruct (inner cu); [|apply below_refl].
  apply below_bind; [apply poll_caught_below|]. intros. apply below_refl.
Qed.

Lemma Slot_poll_below s : below (Slot_poll poll1 s) (Slot_poll poll2 s).
Proof.
  destruct s; simpl; [|apply below_refl..].
  apply below_bind; [apply poll_caught_below|]. intros. apply below_refl.
Qed.

Lemma one_await_below only cu h : below (one_await poll1 only cu h) (one_await poll2 only cu h).
Proof. apply below_bind; [apply CatchUnwind_poll_below|]. intros. apply below_refl. Qed.

Lemma poll_slots_below ids slots running h :
  below (poll_slots poll1 ids slots running h) (poll_slots poll2 ids slots running h).
Proof.
  revert slots running h. induction ids as [|id ids IH]; intros [|s slots] running h;
    try apply below_refl. cbn [poll_slots].
  apply below_bind.
  - destruct (is_running s); [|apply below_refl].
    apply below_bind; [apply Slot_poll_below|]. intros. apply below_refl.
  - intros [[s' r'] h']. apply below_bind; [apply IH|]. intros. apply below_refl.
Qed.

Lemma many_await_below many slots running h :
  below (many_await poll1 many slots running h) (many_await poll2 many slots running h).
Proof. apply below_bind; [apply poll_slots_below|]. intros. apply below_refl. Qed.

(** The two ways a sequence goes on after a poll. *)
Lemma seq_next_below e en rest (h : list hev) (cu : CatchUnwind (fut E O))
    (loop1 loop2 : list hev -> M (world E O St) (Poll (list hev) (dispatch E O))) :
  (forall h, below (loop1 h) (loop2 h)) ->
  below ('(o, cu) ← CatchUnwind_poll poll1 cu;
         let h := h ++ [HPoll (entry_id en)] in
         match o with
         | Pending _ => mret (Pending (Seq e en cu rest h))
         | Ready outcome => h' ← finish (entry_id en) outcome; loop1 (h ++ h')
         end)
        ('(o, cu) ← CatchUnwind_poll poll2 cu;
         let h := h ++ [HPoll (entry_id en)] in
         match o with
         | Pending _ => mret (Pending (Seq e en cu rest h))
         | Ready outcome => h' ← finish (entry_id en) outcome; loop2 (h ++ h')
         end).
Proof.
  intros Hl. apply below_bind; [apply CatchUnwind_poll_below|]. intros [[r|u] cu'].
  - apply below_bind; [apply below_refl|]. intros h'. apply Hl.
  - apply below_refl.
Qed.

Lemma seq_loop_below e l h : below (seq_loop poll1 e l h) (seq_loop poll2 e l h).
Proof.
  revert h. induction l as [|en l IH]; intros h; [apply below_refl|]. cbn [seq_loop].
  apply below_bind; [apply below_refl|]. intros [f|p].
  - apply (seq_next_below e en l _ (CatchUnwind_new f) (seq_loop poll1 e l) (seq_loop poll2 e l) IH).
  - apply below_bind; [apply below_refl|]. intros h'. apply IH.
Qed.

Lemma poll_dispatch_below n : below (poll_dispatch poll1 n) (poll_dispatch poll2 n).
Proof.
  destruct n as [s e|only cu h|many slots running h|e en cu rest h]; simpl.
  - destruct s; (apply below_bind; [apply below_refl|]; intros w).
    + destruct (store_list _) as [|en l]; [apply below_refl|apply seq_loop_below].
    + destruct (store_list _) as [|en [|en2 l]]; [apply below_refl|..];
        (apply below_bind; [apply below_refl|]).
      * intros [f|p]; [apply one_await_below|apply below_refl].
      * intros [slots h]. apply many_await_below.
  - apply one_await_below.
  - apply many_await_below.
  - apply (seq_next_below e en rest h cu (seq_loop poll1 e rest) (seq_loop poll2 e rest)).
    intros h'. apply seq_loop_below.
Qed.

Lemma exec_code_below c :
  below (exec_code (Some (poll_dispatch poll1)) c) (exec_code (Some (poll_dispatch poll2)) c).
Proof.
  induction c as [|k IH|p|o k IH|prio h _ k IH|id k IH|k IH|id k IH|k IH|k IH|cb _ k IH
    |k IH|g k IH|s e k IH|k IH|]; cbn [exec_code]; try apply below_refl;
    try (apply below_bind; [apply below_refl|]; intros; apply IH).
  - apply below_bind; [apply below_refl|]. intros id. apply below_bind; [apply below_refl|]. intros _. apply IH.
  - apply below_bind; [apply below_bind; [apply below_refl|intros _; apply poll_dispatch_below]|].
    intros [h|n]; [apply IH|apply below_refl].
Qed.
End Polls.

Lemma poll_fut_S fuel f : below (W := world E O St) (poll_fut fuel f) (poll_fut (S fuel) f).
Proof.
  revert f. induction fuel as [|fuel IH]; intros f; [by intros w x ?|].
  cbn [poll_fut]. destruct f as [c|n k].
  - by apply exec_code_below.
  - apply below_bind; [by apply poll_dispatch_below|].
    intros [h|n']; [by apply exec_code_below|apply below_refl].
Qed.

Lemma poll_fut_mono fuel fuel' f :
  fuel <= fuel' -> below (W := world E O St) (poll_fut fuel f) (poll_fut fuel' f).
Proof. induction 1 as [|m _ IH]; [apply below_refl|]. intros w x Hx. by apply poll_fut_S, IH. Qed.
End Fuel.
