(* ===== verification/AsyncTiming.v ===== *)
(** How long a dispatch of [AsyncRegistry] (src/src/async_registry/mod.rs) takes: handlers
    that need [n1], [n2], ... further polls before they are done keep [notify] pending for
    the largest of these numbers, and [notify_sequential] for their sum. *)
From S2P Require Import Prelude HandlerId HandlerList HandlerStore PanicInfo Unwind FutureExt.
From S2P Require Import AsyncRegistry AsyncHistory.

(** ** Code that always ends with a value *)

Section Yields.
Context {W : Type}.

(** From any state, [m] ends with a value in [Q]. *)
Definition yields {A} (m : M W A) (Q : A -> Prop) : Prop :=
  forall w, exists a w', m w = Some (Val a, w') /\ Q a.

Lemma yields_ret {A} (a : A) (Q : A -> Prop) : Q a -> yields (mret a) Q.
Proof. intros HQ w. by exists a, w. Qed.

Lemma yields_bind {A B} (m : M W A) (k : A -> M W B) (P : A -> Prop) (Q : B -> Prop) :
  yields m P -> (forall a, P a -> yields (k a) Q) -> yields (m ≫= k) Q.
Proof.
  intros Hm Hk w. destruct (Hm w) as (a & w1 & Ha & HP). rewrite (bind_some _ _ _ _ _ Ha). by apply Hk.
Qed.

Lemma yields_impl {A} (m : M W A) (P Q : A -> Prop) :
  yields m P -> (forall a, P a -> Q a) -> yields m Q.
Proof. intros Hm HPQ w. destruct (Hm w) as (a & w1 & Ha & HP). eauto. Qed.

Lemma yields_catch {A} (m : M W A) (Q : A -> Prop) :
  yields m Q -> yields (catch_unwind m) (fun r => exists a, r = inl a /\ Q a).
Proof.
  intros Hm w. destruct (Hm w) as (a & w1 & Ha & HQ). exists (inl a), w1. unfold catch_unwind.
  rewrite Ha. eauto.
Qed.

Lemma yields_modify f : yields (modify f) (fun _ => True).
Proof. intros w. by exists tt, (f w). Qed.
End Yields.

Section Timing.
Context {E O St : Type} `{HandlerStore (E -> code E O) St}.
Abbreviation World := (world E O St).
Context (poll : fut E O -> M World (Poll unit (fut E O))).
Implicit Types (l : list (entry E O)) (slots : list (Slot (fut E O))).

(** A future that is pending for [n] polls and then ready, in any world. *)
Fixpoint sleeps (n : nat) (f : fut E O) : Prop :=
  yields (poll f) (fun r =>
    match n with
    | 0 => r = Ready tt
    | S n => exists f', r = Pending f' /\ sleeps n f'
    end).

(** A handler whose future is one of these. *)
Definition takes (e : E) (n : nat) (en : entry E O) : Prop :=
  yields (W := World) (call_handler en e) (sleeps n).

(** A dispatch that is pending for [n] more polls and then ready. *)
Fixpoint naps (n : nat) (d : dispatch E O) : Prop :=
  yields (poll_dispatch poll d) (fun r =>
    match n with
    | 0 => exists h, r = Ready h
    | S n => exists d', r = Pending d' /\ naps n d'
    end).

(** The answer of a poll after which [n] answers are [Pending], this one included. *)
Definition after (n : nat) (r : Poll (list hev) (dispatch E O)) : Prop :=
  match n with
  | 0 => exists h, r = Ready h
  | S n => exists d, r = Pending d /\ naps n d
  end.

Lemma naps_after n d : yields (poll_dispatch poll d) (after n) -> naps n d.
Proof. by destruct n. Qed.

Lemma start_takes e n en :
  takes e n en -> yields (start_handler e en) (fun r => exists f, r = inl f /\ sleeps n f).
Proof. intros Ht. by apply yields_catch. Qed.

Lemma poll_caught_sleeps n f :
  sleeps n f -> yields (poll_caught poll f) (fun r =>
    match n with
    | 0 => r = Ready (inl tt)
    | S n => exists f', r = Pending f' /\ sleeps n f'
    end).
Proof.
  intros Hf. eapply yields_bind; [apply yields_catch; destruct n; exact Hf|].
  intros r (a & -> & Ha). destruct n as [|n].
  - subst a. by apply yields_ret.
  - destruct Ha as (f' & -> & Hf'). apply yields_ret. eauto.
Qed.

Lemma CatchUnwind_sleeps n f :
  sleeps n f -> yields (CatchUnwind_poll poll (mkCatchUnwind (Some f))) (fun x =>
    match n with
    | 0 => x = (Ready (inl tt), mkCatchUnwind None)
    | S n => exists f', x = (Pending tt, mkCatchUnwind (Some f')) /\ sleeps n f'
    end).
Proof.
  intros Hf. simpl. eapply yields_bind; [by apply poll_caught_sleeps|]. intros r Hr. destruct n as [|n].
  - subst r. by apply yields_ret.
  - destruct Hr as (f' & -> & Hf'). apply yields_ret. eauto.
Qed.

(** ** One handler *)

Lemma one_await_naps only n f h :
  sleeps n f -> yields (one_await poll only (mkCatchUnwind (Some f)) h) (after n).
Proof.
  revert f h. induction n as [|n IH]; intros f h Hf; unfold one_await;
    (eapply yields_bind; [by apply CatchUnwind_sleeps|]); intros x Hx; simpl in Hx.
  - subst x. apply yields_ret. by eexists.
  - destruct Hx as (f' & -> & Hf'). apply yields_ret. eexists. split; [done|].
    apply naps_after. by apply IH.
Qed.

(** ** Many handlers at once *)

(** The polls a slot still needs ([None] when it is done). *)
Definition slot_in (o : option nat) (s : Slot (fut E O)) : Prop :=
  match o with
  | Some n => exists f, s = Running f /\ sleeps n f
  | None => s = SlotDone
  end.

Definition tick (o : option nat) : option nat :=
  match o with Some (S n) => Some n | _ => None end.

Definition in_progress (os : list (option nat)) : nat := length (omap id os).

Lemma in_progress_cons o os :
  in_progress (o :: os) = match o with Some _ => 1 | None => 0 end + in_progress os.
Proof. by destruct o. Qed.

(** The longest of them. *)
Definition longest (os : list (option nat)) : nat := max_list (omap id os).

Lemma longest_cons o os :
  longest (o :: os) = match o with Some n => max n (longest os) | None => longest os end.
Proof. by destruct o. Qed.

Lemma Slot_poll_tick n f :
  sleeps n f -> yields (Slot_poll poll (Running f)) (fun x =>
    exists s, x = (bool_decide (n = 0), s) /\ slot_in (tick (Some n)) s).
Proof.
  intros Hf. simpl. eapply yields_bind; [by apply poll_caught_sleeps|]. intros r Hr. destruct n as [|n].
  - subst r. apply yields_ret. by eexists.
  - destruct Hr as (f' & -> & Hf'). apply yields_ret. eexists. split; [done|]. simpl. eauto.
Qed.

(** One round polls every running slot once. *)
Lemma poll_slots_tick ids os slots k h :
  length ids = length os -> Forall2 slot_in os slots ->
  yields (poll_slots poll ids slots (in_progress os + k) h) (fun x =>
    exists slots' h', x = (slots', in_progress (tick <$> os) + k, h') /\
      Forall2 slot_in (tick <$> os) slots').
Proof.
  intros Hlen Hs. revert ids k h Hlen.
  induction Hs as [|o s os slots Ho Hs IH]; intros [|id ids] k h Hlen; simplify_eq/=.
  { apply yields_ret. by eexists _, _. }
  destruct o as [n|]; simpl in Ho.
  - destruct Ho as (f & -> & Hf). cbn [is_running].
    eapply (yields_bind _ _ (fun x => exists s' h', x = (s', in_progress os + (in_progress [tick (Some n)] + k), h') /\
      slot_in (tick (Some n)) s')).
    + eapply yields_bind; [by apply Slot_poll_tick|]. intros x (s' & -> & Hs').
      eapply (yields_bind _ _ (fun m => m = in_progress os + (in_progress [tick (Some n)] + k))).
      * destruct n as [|n].
        -- rewrite bool_decide_eq_true_2 by done. by apply yields_ret.
        -- rewrite bool_decide_eq_false_2 by done. apply yields_ret. rewrite !in_progress_cons. cbn. lia.
      * intros m ->. apply yields_ret. eauto.
    + intros x (s' & h' & -> & Hs').
      eapply yields_bind; [by apply IH|]. intros x (slots' & h'' & -> & Hsl). apply yields_ret.
      eexists _, _. split; [|by constructor]. f_equal. f_equal. rewrite !in_progress_cons.
      change (in_progress []) with 0. lia.
  - subst s. cbn [is_running].
    eapply (yields_bind _ _ (fun x => x = (SlotDone, in_progress (None :: os) + k, h))); [by apply yields_ret|].
    intros x ->. eapply yields_bind; [by apply IH|]. intros x (slots' & h'' & -> & Hsl).
    apply yields_ret. eexists _, _. split; [done|]. by constructor.
Qed.

Lemma report_done l slots :
  Forall (fun s => s = SlotDone) slots -> yields (W := World) (report l slots) (fun _ => True).
Proof.
  intros Hs. revert l. induction Hs as [|s slots -> Hs IH]; intros [|en l]; simpl; try (by apply yields_ret).
  apply IH.
Qed.

Lemma longest_tick os : longest (tick <$> os) = pred (longest os).
Proof.
  induction os as [|o os IH]; [done|]. rewrite fmap_cons, !longest_cons.
  destruct o as [[|n]|]; cbn [tick]; lia.
Qed.

Lemma longest_0 os : in_progress (tick <$> os) = 0 <-> longest os = 0.
Proof.
  induction os as [|o os IH]; [done|]. rewrite fmap_cons, in_progress_cons, longest_cons.
  destruct o as [[|n]|]; cbn [tick]; lia.
Qed.

Lemma done_slots os slots :
  in_progress os = 0 -> Forall2 slot_in os slots -> Forall (fun s => s = SlotDone) slots.
Proof.
  intros H0 Hs. induction Hs as [|[n|] s os slots Ho Hs IH]; [constructor|done|]. constructor; [done|].
  by apply IH.
Qed.

Lemma many_await_naps l os slots h :
  length l = length os -> Forall2 slot_in os slots ->
  yields (many_await poll l slots (in_progress os) h) (after (longest os)).
Proof.
  intros Hlen. remember (longest os) as m eqn:Hm. symmetry in Hm. revert os slots h Hlen Hm.
  induction m as [|m IH]; intros os slots h Hlen Hm Hs; unfold many_await;
    (eapply yields_bind; [rewrite <- (Nat.add_0_r (in_progress os)); apply poll_slots_tick;
       [by rewrite length_fmap|done]|]); intros x (slots' & h' & -> & Hsl); rewrite Nat.add_0_r.
  - rewrite decide_True by (by apply longest_0).
    eapply yields_bind; [apply (report_done l slots'); by eapply done_slots; [by apply longest_0|]|].
    intros h2 _. apply yields_ret. by eexists.
  - rewrite decide_False by (intros ?%longest_0; lia). apply yields_ret. eexists. split; [done|].
    apply naps_after. apply IH; [by rewrite length_fmap|by rewrite longest_tick, Hm|done].
Qed.

Lemma start_all_takes e ns l :
  Forall2 (takes e) ns l ->
  yields (start_all e l) (fun x => exists slots h, x = (slots, h) /\ Forall2 slot_in (Some <$> ns) slots).
Proof.
  induction 1 as [|n en ns l Hn Hl IH]; simpl; [apply yields_ret; eexists _, _; split; [done|constructor]|].
  eapply yields_bind; [by apply start_takes|]. intros r (f & -> & Hf).
  eapply yields_bind; [exact IH|]. intros x (slots & h & -> & Hs). apply yields_ret.
  eexists _, _. split; [done|]. constructor; [|done]. simpl. eauto.
Qed.

Lemma in_progress_some ns : in_progress (Some <$> ns) = length ns.
Proof. induction ns as [|n ns IH]; [done|]. rewrite fmap_cons, in_progress_cons, IH. done. Qed.

Lemma longest_some ns : longest (Some <$> ns) = max_list ns.
Proof. induction ns as [|n ns IH]; [done|]. rewrite fmap_cons, longest_cons, IH. done. Qed.

Lemma count_running_all ns slots :
  Forall2 slot_in (Some <$> ns) slots -> count_running slots = length ns.
Proof.
  revert slots. induction ns as [|n ns IH]; intros slots Hs.
  - by apply Forall2_nil_inv_l in Hs as ->.
  - apply Forall2_cons_inv_l in Hs as (s & slots' & (f & -> & _) & Hs & ->).
    rewrite count_running_cons, (IH _ Hs). done.
Qed.

Lemma notify_naps e ns w :
  Forall2 (takes e) ns (store_list (handlers (reg w))) ->
  exists r w', notify poll e w = Some (Val r, w') /\ after (max_list ns) r.
Proof.
  intros Hl. unfold notify. rewrite (bind_some _ _ w w w) by done.
  destruct Hl as [|n en ns l Hn Hl]; [eexists _, _; split; [done|by eexists]|].
  destruct Hl as [|n2 en2 ns l Hn2 Hl].
  - simpl. rewrite Nat.max_0_r.
    enough (yields (one_start poll e en) (after n)) as Hy by apply Hy.
    eapply yields_bind; [by apply start_takes|]. intros r (f & -> & Hf). by apply one_await_naps.
  - enough (yields (many_start poll e (en :: en2 :: l)) (after (max_list (n :: n2 :: ns)))) as Hy by apply Hy.
    assert (Forall2 (takes e) (n :: n2 :: ns) (en :: en2 :: l)) as Hall by (by repeat constructor).
    eapply yields_bind; [by apply start_all_takes|]. intros x (slots & h & -> & Hs).
    rewrite (count_running_all _ _ Hs), <- in_progress_some, <- longest_some.
    apply many_await_naps; [|done]. rewrite length_fmap. symmetry. by eapply Forall2_length.
Qed.

(** ** One after the other *)

Lemma seq_await_naps e en n f ns rest h :
  (forall h, yields (seq_loop poll e rest h) (after (sum_list ns))) -> sleeps n f ->
  yields (seq_await poll e en (mkCatchUnwind (Some f)) rest h) (after (n + sum_list ns)).
Proof.
  intros Hrest. revert f h. induction n as [|n IH]; intros f h Hf; unfold seq_await;
    (eapply yields_bind; [by apply CatchUnwind_sleeps|]); intros x Hx; simpl in Hx.
  - subst x. eapply yields_bind; [by apply (yields_ret _ (fun _ => True))|]. intros h' _. apply Hrest.
  - destruct Hx as (f' & -> & Hf'). apply yields_ret. eexists. split; [done|].
    apply naps_after. by apply IH.
Qed.

Lemma seq_loop_naps e ns l h :
  Forall2 (takes e) ns l -> yields (seq_loop poll e l h) (after (sum_list ns)).
Proof.
  intros Hl. revert h. induction Hl as [|n en ns l Hn Hl IH]; intros h.
  { apply yields_ret. by eexists. }
  cbn [seq_loop sum_list]. eapply yields_bind; [by apply start_takes|]. intros r (f & -> & Hf).
  by apply (seq_await_naps e en n f ns l).
Qed.

Lemma notify_sequential_naps e ns w :
  Forall2 (takes e) ns (store_list (handlers (reg w))) ->
  exists r w', notify_sequential poll e w = Some (Val r, w') /\ after (sum_list ns) r.
Proof.
  intros Hl. unfold notify_sequential. rewrite (bind_some _ _ w w w) by done.
  pose proof (seq_loop_naps e ns _ [] Hl w) as Hy.
  destruct Hl as [|n en ns l Hn Hl]; [eexists _, _; split; [done|by eexists]|exact Hy].
Qed.
End Timing.

(** ** Handlers that sleep *)

Section Sleepers.
Context {E O St : Type} `{HandlerStore (E -> code E O) St}.

Fixpoint emit_all (os : list O) : code E O :=
  match os with
  | [] => Finish
  | o :: os => Emit o (emit_all os)
  end.

(** Suspended for [n] polls, then the effects [os], then done. *)
Definition sleep_then (n : nat) (os : list O) : code E O := Nat.iter n Yield (emit_all os).

(** [async move { sleep(..).await; .. }]: the closure returns the future at once. *)
Definition sleeper (n : nat) (os : list O) : E -> code E O := fun _ => Yield (sleep_then n os).

Lemma emit_all_ready await os :
  yields (W := world E O St) (exec_code await (emit_all os)) (fun r => r = Ready tt).
Proof.
  induction os as [|o os IH]; simpl; [by apply yields_ret|].
  eapply yields_bind; [apply yields_modify|]. by intros _ _.
Qed.

Lemma sleep_then_sleeps fuel n os :
  sleeps (poll_fut (St := St) (S fuel)) n (Run (sleep_then n os)).
Proof.
  induction n as [|n IH]; [apply emit_all_ready|].
  simpl. apply yields_ret. eexists. split; [done|]. exact IH.
Qed.

Lemma sleeper_takes fuel e n os id prio :
  takes (poll_fut (St := St) (S fuel)) e n (Entry id prio (sleeper n os)).
Proof. apply (yields_bind _ _ (fun r => r = Pending (Run (sleep_then n os)))); [by apply yields_ret|].
  intros r ->. apply yields_ret, sleep_then_sleeps. Qed.

(** (C20) How long a dispatch takes.  If the handlers need [ns] further polls each (whatever
    the others and the registry do meanwhile) and do not panic, then [notify] is pending
    for exactly as many polls as the slowest of them and then done, and
    [notify_sequential] for exactly as many as all of them together. *)
Theorem dispatch_duration (poll : fut E O -> M (world E O St) (Poll unit (fut E O))) e ns w :
  Forall2 (takes poll e) ns (store_list (handlers (reg w))) ->
  (exists r w', poll_dispatch poll (Fresh false e) w = Some (Val r, w') /\ after poll (max_list ns) r) /\
  (exists r w', poll_dispatch poll (Fresh true e) w = Some (Val r, w') /\ after poll (sum_list ns) r).
Proof. intros Hl. split; [by apply notify_naps|by apply notify_sequential_naps]. Qed.
End Sleepers.

(** ** src/examples/async_basic.rs and src/examples/async_concurrent_vs_sequential.rs *)

Section Programs.

(** Increments of the counter and lines printed. *)
Inductive eff := FetchAdd (n : Z) | Print (line : string).

Definition sum_of (t : list eff) : Z :=
  foldl (fun s o => match o with FetchAdd n => u64 (s + n) | Print _ => s end) 0%Z t.
Definition printed (t : list eff) : list string :=
  omap (fun o => match o with Print s => Some s | FetchAdd _ => None end) t.

(** The handlers of async_basic.rs: [yield_now] is one suspension. *)
Definition labelled (label : string) : Z -> code Z eff := fun v =>
  sleeper 1 [FetchAdd v; Print ("[" +:+ label +:+ "] saw " +:+ pretty v)] v.

Fixpoint register_labels (labels : list string) (k : code Z eff) : code Z eff :=
  match labels with
  | [] => k
  | label :: labels => Register0 (labelled label) (fun _ => register_labels labels k)
  end.

Definition async_basic_main : code Z eff :=
  register_labels ["alpha"; "beta"; "gamma"]
    (Notify false 7%Z (Observe (fun t => Emit (Print ("total: " +:+ pretty (sum_of t))) Finish))).

(** [block_on] of the runtime: the task is polled until it is done, at most [n] times. *)
Definition block_on {E} (n : nat) (c : code E eff) : option (list string) :=
  '(ts, w) ← exec_run 2 (Spawn c :: replicate n (PollTask 0))
     ([], world_new : world E eff (list (HandlerEntry (E -> code E eff))));
  match ts with [Ended] => Some (printed (emits (trace w))) | _ => None end.

Example async_basic_output :
  block_on 2 async_basic_main =
    Some ["[alpha] saw 7"; "[beta] saw 7"; "[gamma] saw 7"; "total: 21"].
Proof. by vm_compute. Qed.

(** async_concurrent_vs_sequential.rs: four handlers that sleep; [naps] stands for the
    polls until the timer of 50 ms has fired. *)
Definition sleepy (naps i : nat) : unit -> code unit eff :=
  sleeper naps [Print ("handler " +:+ pretty i +:+ " done")].

Fixpoint register_sleepy (naps : nat) (is_ : list nat) (k : code unit eff) : code unit eff :=
  match is_ with
  | [] => k
  | i :: is_ => Register0 (sleepy naps i) (fun _ => register_sleepy naps is_ k)
  end.

(** [main] without its clock. *)
Definition compare_main (naps : nat) : code unit eff :=
  register_sleepy naps [0; 1; 2; 3]
    (Notify false tt (Emit (Print "concurrent notify done") (
     Notify true tt (Emit (Print "sequential notify done") Finish)))).

Example compare_output :
  block_on (5 * 3 + 1) (compare_main 3) =
    Some ["handler 0 done"; "handler 1 done"; "handler 2 done"; "handler 3 done";
          "concurrent notify done";
          "handler 0 done"; "handler 1 done"; "handler 2 done"; "handler 3 done";
          "sequential notify done"] /\
  block_on (5 * 3) (compare_main 3) = None.
Proof. split; by vm_compute. Qed.

Abbreviation World := (world unit eff (list (HandlerEntry (unit -> code unit eff)))).

(** The registry of the second example. *)
Definition four_sleepers (naps : nat) : World :=
  match poll_fut 2 (Run (register_sleepy naps [0; 1; 2; 3] Finish)) world_new with
  | Some (_, w) => w
  | None => world_new
  end.

Abbreviation poll1 := (poll_fut (St := list (HandlerEntry (unit -> code unit eff))) 1).

Lemma dispatch_duration_witness :
  (max_list [50; 50; 50; 50], sum_list [50; 50; 50; 50]) = (50, 200) /\
  (exists r w', poll_dispatch poll1 (Fresh false tt) (four_sleepers 50) = Some (Val r, w') /\
     after poll1 (max_list [50; 50; 50; 50]) r) /\
  (exists r w', poll_dispatch poll1 (Fresh true tt) (four_sleepers 50) = Some (Val r, w') /\
     after poll1 (sum_list [50; 50; 50; 50]) r).
Proof.
  split; [reflexivity|].
  apply (dispatch_duration poll1 tt [50; 50; 50; 50] (four_sleepers 50)).
  assert (store_list (handlers (reg (four_sleepers 50))) =
    [Entry (from_raw 1) 0 (sleepy 50 0); Entry (from_raw 2) 0 (sleepy 50 1);
     Entry (from_raw 3) 0 (sleepy 50 2); Entry (from_raw 4) 0 (sleepy 50 3)]) as ->
    by (vm_compute; reflexivity).
  repeat constructor; apply sleeper_takes.
Defined.
End Programs.
