(* ===== verification/AsyncTheorems.v ===== *)
(** The properties of [AsyncRegistry], [AsyncHandlerGuard] and the futures of
    src/src/future_ext.rs, for every program of handlers, callers and executors. *)
From S2P Require Import Prelude HandlerId HandlerList HandlerStore PanicInfo Unwind FutureExt.
From S2P Require Import AsyncRegistry AsyncHistory AsyncPanics AsyncTerm AsyncRefine AsyncFuel.

Section Theorems.
Context {E O : Type}.
Abbreviation Vec := (list (entry E O)).
Abbreviation World := (world E O Vec).
Implicit Types (w : World) (n : dispatch E O).

(** Where no other thread interferes, the two accesses of a registration are one. *)
Lemma register_alone await priority h (k : HandlerId -> code E O) w :
  others w = [] ->
  exec_code await (Register priority h k) w =
    let '(id, r) := register_with_priority priority h (reg w) in
    exec_code await (k id) (log_ev (AIssue id) (set_reg r w)).
Proof. destruct w as [r al tr pe ot]. simpl. by intros ->. Qed.

(** (C23) Whatever tasks an executor spawns, polls and drops, in whatever order, and
    whatever other threads do to the registry between any two accesses of a poll, they
    behave exactly as with a registry that keeps the log of its live registrations
    and, when it dispatches, sorts them by descending priority, ties in registration
    order: the same tasks in the same states, the same trace.  (As long as fewer than
    [2^64 - 1] ids have been issued.) *)
Theorem async_refines_log fuel sched ts w :
  exec_run fuel sched ([], world_new) = Some (ts, w) -> no_wrap w ->
  exists v : world E O (log (E -> code E O)),
    exec_run fuel sched ([], world_new) = Some (ts, v) /\ trace v = trace w /\
    dispatch_order (registrations (handlers (reg v))) (handlers (reg w)) /\
    NoDup (entry_id <$> handlers (reg w)).
Proof.
  intros Hw Hnw. destruct (exec_run_sim (S1 := Vec) fuel sched [] world_new ts w Hw) as [_ Hsim].
  destruct (Hsim _ arelated_new Hnw) as (v & Hv & Hr). exists v.
  destruct (rel_store _ _ _ Hr) as [Hd Hnd]. split_and!; try done. symmetry. apply Hr.
Qed.

(** (C19) A concurrent dispatch joins its handlers.  When [notify] completes, having
    been polled any number of times in any states of the registry, every handler of
    the snapshot it took at its first poll was started exactly once, in the order of
    the list and before any was polled; each ended exactly once, normally or by
    panicking; and after all had ended, the panics were handled, one per panicking
    handler, in the order of the list. *)
Theorem async_notify_joins (poll : fut E O -> M World (Poll unit (fut E O))) e l h :
  completes poll false e l h -> joined l h.
Proof.
  intros [w h' w' <- Hp|n w h' w' Hl Hp].
  - by apply notify_val in Hp.
  - apply conc_life in Hl. by eapply conc_step in Hp.
Qed.

(** The bookkeeping of a join is exact.  At every point of a concurrent dispatch
    the counter [running] is the number of handlers still running; a round polls each
    of them exactly once, in the order of the list, and no other; the decrement of
    [running] never underflows; and the new counter is again exact. *)
Theorem join_round_exact (poll : fut E O -> M World (Poll unit (fut E O)))
    e l many slots running h w :
  life poll false e l (Many many slots running h) ->
  many = l /\ running = count_running slots /\
  (forall p w', poll_slots poll (entry_id <$> many) slots running h w <> Some (Unwinding p, w')) /\
  (forall slots' running' h' w',
     poll_slots poll (entry_id <$> many) slots running h w =
       Some (Val (slots', running', h'), w') ->
     running' = count_running slots' /\
     exists hp, h' = h ++ hp /\ polls hp = running_ids (entry_id <$> many) slots).
Proof.
  intros (-> & Hl & -> & _)%conc_life. split; [done|]. split; [done|]. split.
  - intros p w'. by apply poll_slots_no_unwind.
  - intros slots' running' h' w' Hp.
    apply poll_slots_val in Hp as (_ & Hc & hp & -> & _ & _ & Hpo & _); [|by rewrite length_fmap].
    split; [lia|]. by exists hp.
Qed.

(** (C25) A sequential dispatch runs its handlers one after the other.  When
    [notify_sequential] completes, its history is one block per handler of the
    snapshot, in the order of the list: the handler is started, polled to its end,
    and if it panicked its panic is handled, all before the next one starts. *)
Theorem async_sequential_order (poll : fut E O -> M World (Poll unit (fut E O))) e l h :
  completes poll true e l h -> exists bs, length bs = length l /\ h = blocks l bs.
Proof.
  intros [w h' w' <- Hp|n w h' w' Hl Hp].
  - by apply notify_sequential_val in Hp.
  - apply seq_life in Hl. by eapply seq_step in Hp.
Qed.

(** (C24) Panics are isolated.  If dropping a panic payload never panics, polling a
    dispatch never unwinds and never aborts, whatever the closures and futures of
    its handlers and the panic callback do, nested dispatches included, and whatever
    other threads do to the registry meanwhile. *)
Theorem async_isolates_panics fuel n w r w' :
  world_ok w -> dispatch_ok n ->
  poll_dispatch (poll_fut fuel) n w = Some (r, w') ->
  exists a, r = Val a /\ world_ok w' /\ dpoll_ok a.
Proof.
  intros Hw Hn Hp. destruct (poll_dispatch_fuel_ok fuel n Hn w r w' Hw Hp) as (? & a & -> & ?).
  by exists a.
Qed.

(** (C26) Dispatch terminates if its handlers do, for futures of any kind: [poll] may be any
    function.  Suppose that each handler of the snapshot, called with the event, returns or
    panics, and that the future it returns, polled in whatever states of the world, answers
    every poll and is pending only finitely often.  Then the same is true of [notify] and of
    [notify_sequential]: every poll returns, and only finitely many answer [Pending],
    whatever happens to the registry between them and other threads do during them.  (Panic
    callbacks return: they are finite code.) *)
Theorem async_dispatch_terminates poll s e w :
  Forall (handler_finishes poll e) (handlers (reg w)) ->
  exists r w', poll_dispatch poll (Fresh s e) w = Some (r, w') /\
    forall n, r = Val (Pending n) -> halts (St := Vec) poll n.
Proof.
  intros Hl. destruct (dispatch_halts poll s e w Hl) as (r & w' & Hp & Hr).
  exists r, w'. split; [done|]. intros n ->. by apply (Hr _ eq_refl).
Qed.

(** Dropping a guard unregisters its handler and nothing else, provided the
    registry still exists; after [forget], or when the registry is gone, it does
    nothing.  What [unregister] answers is whether the id was registered. *)
Theorem async_guard_drop_spec g w :
  NoDup (entry_id <$> handlers (reg w)) ->
  handlers (reg (AsyncHandlerGuard_drop g w)) =
    (if aguard_registry g && alive w
     then filter (fun en => entry_id en <> aguard_id g) (handlers (reg w))
     else handlers (reg w)) /\
  AsyncHandlerGuard_drop (AsyncHandlerGuard_forget g) w = w /\
  AsyncHandlerGuard_drop g (drop_registry w) = drop_registry w /\
  ((unregister (aguard_id g) (reg w)).1 = true <-> aguard_id g ∈ entry_id <$> handlers (reg w)).
Proof.
  intros Hnd. unfold AsyncHandlerGuard_drop, do_unregister, unregister, remove_id. simpl.
  destruct (remove_id_list (aguard_id g) (handlers (reg w))) as [l|] eqn:Hr.
  - pose proof (remove_id_list_filter _ _ _ Hnd Hr) as Hl.
    split_and!; [by destruct (_ && _)|done|by rewrite andb_false_r|].
    split; [|done]. intros _.
    destruct (decide (aguard_id g ∈ entry_id <$> handlers (reg w))) as [|Hn]; [done|].
    apply remove_id_list_None in Hn. congruence.
  - apply remove_id_list_None in Hr.
    assert (filter (fun en => entry_id en <> aguard_id g) (handlers (reg w)) = handlers (reg w)) as Hf.
    { apply filter_all_true, Forall_forall. intros en Hen Hid. apply Hr. rewrite <- Hid.
      apply list_elem_of_fmap. eauto. }
    split_and!; [rewrite Hf; by destruct (_ && _)|done|by rewrite andb_false_r|].
    split; [done|]. intros Hin. done.
Qed.
End Theorems.

(** ** Examples *)

Section Examples.

(** Three handlers of mixed priority: one suspends twice, one panics after a
    suspension, one panics before returning its future; and a panicking callback. *)
Definition slow : nat -> code nat nat := fun e => Yield (Emit (10 + e) (Yield (Emit (20 + e) Finish))).
Definition boom : nat -> code nat nat := fun e => Yield (Yield (Emit 99 (Panic (PStr "boom")))).
Definition early : nat -> code nat nat := fun e => Panic (PString "early").

Definition setup : code nat nat :=
  OnPanic (fun i => Emit 7 (Panic (PStr "callback"))) (
  Register 0 slow (fun _ => Register 5 boom (fun _ => Register 5 early (fun _ => Finish)))).

Abbreviation AVec := (list (entry nat nat)).
Abbreviation AWorld := (world nat nat AVec).

(** The world after a schedule; two tasks, the second awaiting a dispatch, during which other
    threads register a handler and remove one. *)
Definition demo_sched : list (exec_action (E := nat) (O := nat)) :=
  [Spawn setup; Spawn (Notify false 1 (Notify true 2 Finish));
   PollTask 0; Others [[]; [OIssue 9 slow; OEmit 50]; [OInsert 0]; [ORemove (from_raw 1)]];
   PollTask 1; PollTask 1; PollTask 1; PollTask 1; PollTask 1; PollTask 1; PollTask 1; PollTask 1].

Definition demo_end : list (task nat nat) * AWorld :=
  default ([], world_new) (exec_run 2 demo_sched ([], world_new)).

Definition demo_world : AWorld :=
  (default ([], world_new) (exec_run 2 (take 3 demo_sched) ([], world_new))).2.

Lemma async_demo_runs : exec_run 2 demo_sched ([], world_new) = Some (demo_end.1, demo_end.2).
Proof. by vm_compute. Qed.

(** The observable effects, in order. *)
Definition emitted (w : AWorld) : list nat :=
  omap (fun ev => match ev with AEmit o => Some o | _ => None end) (trace w).

Lemma async_refines_log_witness :
  demo_end.1 = [Ended; Ended] /\ emitted demo_end.2 = [50; 11; 99; 21; 7; 7; 12; 22; 99; 7; 7] /\
  exists v : world nat nat (log (nat -> code nat nat)),
    exec_run 2 demo_sched ([], world_new) = Some (demo_end.1, v) /\ trace v = trace demo_end.2 /\
    dispatch_order (registrations (handlers (reg v))) (handlers (reg demo_end.2)) /\
    NoDup (entry_id <$> handlers (reg demo_end.2)).
Proof.
  split; [by vm_compute|]. split; [by vm_compute|].
  apply (async_refines_log 2 demo_sched demo_end.1 demo_end.2); [apply async_demo_runs|by vm_compute].
Defined.

(** A dispatch over [demo_world]: its state and the world after [k] pending polls,
    and its history if the next poll completes it. *)
Definition demo_poll : fut nat nat -> M AWorld (Poll unit (fut nat nat)) := poll_fut 1.

Fixpoint after_polls (k : nat) (n : dispatch nat nat) (w : AWorld) : dispatch nat nat * AWorld :=
  match k with
  | 0 => (n, w)
  | S k => match poll_dispatch demo_poll n w with
           | Some (Val (Pending n), w) => after_polls k n w
           | _ => (n, w)
           end
  end.

Definition history (k : nat) (sequential : bool) : list hev :=
  let '(n, w) := after_polls k (Fresh sequential 1) demo_world in
  match poll_dispatch demo_poll n w with
  | Some (Val (Ready h), _) => h
  | _ => []
  end.

(** One more pending poll; the completing poll. *)
Lemma life_more k s (d := after_polls k (Fresh s 1) demo_world)
    (d' := after_polls (S k) (Fresh s 1) demo_world) :
  life demo_poll s 1 (handlers (reg demo_world)) d.1 ->
  poll_dispatch demo_poll d.1 d.2 = Some (Val (Pending d'.1), d'.2) ->
  life demo_poll s 1 (handlers (reg demo_world)) d'.1.
Proof. apply life_next. Qed.

Lemma completes_now k s (d := after_polls k (Fresh s 1) demo_world) :
  life demo_poll s 1 (handlers (reg demo_world)) d.1 ->
  match poll_dispatch demo_poll d.1 d.2 with Some (Val (Ready h), _) => True | _ => False end ->
  completes demo_poll s 1 (handlers (reg demo_world)) (history k s).
Proof.
  intros Hl Hp. unfold history. fold d. destruct d as [n w]. simpl in *.
  destruct (poll_dispatch demo_poll n w) as [[[[h|]| |] w']|] eqn:Hr; try done.
  by eapply completes_later.
Qed.

Lemma first_life s :
  life demo_poll s 1 (handlers (reg demo_world)) (after_polls 1 (Fresh s 1) demo_world).1.
Proof.
  apply (life_first _ _ _ _ demo_world (after_polls 1 (Fresh s 1) demo_world).1
    (after_polls 1 (Fresh s 1) demo_world).2); [exact eq_refl|].
  destruct s; vm_compute; reflexivity.
Qed.

Lemma join_completes :
  completes demo_poll false 1 (handlers (reg demo_world)) (history 1 false).
Proof. apply completes_now; [apply first_life|by vm_compute]. Qed.

Lemma async_notify_joins_witness :
  joined (handlers (reg demo_world)) (history 1 false) /\
  handled (history 1 false) = [(from_raw 2, PStr "boom"); (from_raw 3, PString "early")].
Proof.
  split; [exact (async_notify_joins demo_poll 1 _ _ join_completes)|by vm_compute].
Defined.

(** The slots and the history of that dispatch after its first poll. *)
Definition join_state : list (Slot (fut nat nat)) * list hev :=
  match (after_polls 1 (Fresh false 1) demo_world).1 with
  | Many _ slots _ h => (slots, h)
  | _ => ([], [])
  end.

Lemma join_life :
  life demo_poll false 1 (handlers (reg demo_world))
    (Many (handlers (reg demo_world)) join_state.1 2 join_state.2).
Proof.
  replace (Many _ _ _ _) with (after_polls 1 (Fresh false 1) demo_world).1; [apply first_life|].
  by vm_compute.
Qed.

Lemma join_round_exact_witness :
  2 = count_running join_state.1 /\
  running_ids (entry_id <$> handlers (reg demo_world)) join_state.1 = [from_raw 2; from_raw 1].
Proof.
  split; [|by vm_compute].
  destruct (join_round_exact demo_poll 1 _ _ _ _ _ demo_world join_life) as (_ & Hr & _). exact Hr.
Defined.

Lemma seq_completes :
  completes demo_poll true 1 (handlers (reg demo_world)) (history 2 true).
Proof.
  apply completes_now; [|by vm_compute]. apply life_more; [apply first_life|by vm_compute].
Qed.

Lemma async_sequential_order_witness :
  starts (history 2 true) = [from_raw 2; from_raw 3; from_raw 1] /\
  exists bs, length bs = length (handlers (reg demo_world)) /\
    history 2 true = blocks (handlers (reg demo_world)) bs.
Proof.
  split; [by vm_compute|]. exact (async_sequential_order demo_poll 1 _ _ seq_completes).
Defined.

Lemma async_demo_quiet : world_ok demo_world.
Proof.
  split.
  - repeat constructor.
  - intros cb [= <-] i. done.
  - constructor.
  - constructor.
Qed.

Lemma async_isolates_panics_witness :
  exists r w', poll_dispatch (poll_fut (St := AVec) 1) (Fresh false 1) demo_world = Some (r, w') /\
  exists a, r = Val a /\ world_ok w' /\ dpoll_ok a.
Proof.
  destruct (poll_dispatch (poll_fut (St := AVec) 1) (Fresh false 1) demo_world) as [[r w']|] eqn:Hp;
    [|by vm_compute in Hp].
  exists r, w'. split; [done|].
  exact (async_isolates_panics 1 (Fresh false 1) demo_world r w' async_demo_quiet (do_fresh _ _) Hp).
Defined.

Lemma async_dispatch_terminates_witness :
  exists r w', poll_dispatch (poll_fut (St := AVec) 1) (Fresh false 1) demo_world = Some (r, w') /\
    forall n, r = Val (Pending n) -> halts (poll_fut (St := AVec) 1) n.
Proof.
  apply (async_dispatch_terminates (poll_fut 1) false 1 demo_world).
  repeat (constructor; [by apply flat_finishes; repeat constructor|]). constructor.
Defined.

Lemma async_guard_drop_spec_witness :
  handlers (reg (AsyncHandlerGuard_drop (AsyncHandlerGuard_new (from_raw 3)) demo_world)) =
    filter (fun en => entry_id en <> from_raw 3) (handlers (reg demo_world)) /\
  length (handlers (reg demo_world)) = 3.
Proof.
  split; [|by vm_compute].
  assert (NoDup (entry_id <$> handlers (reg demo_world))) as Hnd
    by (apply (bool_decide_unpack _); by vm_compute).
  destruct (async_guard_drop_spec (AsyncHandlerGuard_new (from_raw 3)) demo_world Hnd) as [Hg _].
  exact Hg.
Defined.
End Examples.

(** ** A panic that escapes *)

Section Escape.

(** A handler whose panic payload panics when dropped, before a harmless one. *)
Definition bad_drop : code nat nat :=
  Register 1 (fun _ => Yield (Panic (POther 0 (Some (PStr "drop"))))) (fun _ =>
  Register 0 (fun _ => Yield (Emit 1 Finish)) (fun _ => Notify true 0 Finish)).

(** [handle_panic] drops the payload outside any unwind boundary: the panic of that
    destructor escapes from [notify_sequential], and the next handler never starts. *)
Lemma async_payload_drop_escapes :
  exists w : world nat nat (list (entry nat nat)),
    poll_fut 2 (Run bad_drop) world_new = Some (Unwinding (PStr "drop"), w) /\ emitted w = [].
Proof. eexists. split; by vm_compute. Qed.
End Escape.
