(* ===== verification/DebugText.v ===== *)
(** The [Debug] texts of the crate's types, in the plain format ([{:?}]):
    src/src/panic.rs, src/src/sync/mod.rs, src/src/sync/guard.rs,
    src/src/async_registry/mod.rs, src/src/async_registry/guard.rs. *)
From S2P Require Import Prelude HandlerId HandlerList HandlerStore PanicInfo.
From S2P Require Import SyncRegistry.
From S2P Require Import Unwind FutureExt AsyncRegistry.

(** ** [core::fmt] *)

(** [Formatter::debug_struct] with its fields, ended by [finish] or by
    [finish_non_exhaustive]. *)
Fixpoint debug_fields (fields : list (string * string)) : string :=
  match fields with
  | [] => ""
  | [(name, value)] => name +:+ ": " +:+ value
  | (name, value) :: fields => name +:+ ": " +:+ value +:+ ", " +:+ debug_fields fields
  end.

Definition debug_finish (name : string) (fields : list (string * string)) : string :=
  match fields with
  | [] => name
  | _ => name +:+ " { " +:+ debug_fields fields +:+ " }"
  end.

Definition debug_finish_non_exhaustive (name : string) (fields : list (string * string)) : string :=
  match fields with
  | [] => name +:+ " { .. }"
  | _ => name +:+ " { " +:+ debug_fields fields +:+ ", .. }"
  end.

Definition bool_debug (b : bool) : string := if b then "true" else "false".

(** A character is a Unicode scalar value, and a [str] the UTF-8 bytes of its characters. *)
Definition is_scalar (c : N) : bool := ((c <? 55296) || ((57344 <=? c) && (c <? 1114112)))%N.

Fixpoint bytes (l : list N) : string :=
  match l with
  | [] => EmptyString
  | b :: l => String (Ascii.ascii_of_N b) (bytes l)
  end.

(** [char::encode_utf8]. *)
Definition encode_char (c : N) : string :=
  (if c <? 128 then bytes [c]
   else if c <? 2048 then bytes [192 + c / 64; 128 + c mod 64]
   else if c <? 65536 then bytes [224 + c / 4096; 128 + c / 64 mod 64; 128 + c mod 64]
   else bytes [240 + c / 262144; 128 + c / 4096 mod 64; 128 + c / 64 mod 64; 128 + c mod 64])%N.

Definition encode (cs : list N) : string := foldr (fun c s => encode_char c +:+ s) EmptyString cs.

(** [str::chars]: the length of a character is given by its first byte; the others carry six
    bits each. *)
Fixpoint chars (s : string) : list N :=
  match s with
  | EmptyString => []
  | String a s1 =>
      let x := Ascii.N_of_ascii a in
      if (x <? 128)%N then x :: chars s1
      else match s1 with
      | EmptyString => []
      | String b s2 =>
          let y := Ascii.N_of_ascii b in
          if (x <? 224)%N then (x mod 32 * 64 + y mod 64)%N :: chars s2
          else match s2 with
          | EmptyString => []
          | String c s3 =>
              let z := Ascii.N_of_ascii c in
              if (x <? 240)%N then (x mod 16 * 4096 + y mod 64 * 64 + z mod 64)%N :: chars s3
              else match s3 with
              | EmptyString => []
              | String d s4 =>
                  let u := Ascii.N_of_ascii d in
                  (x mod 8 * 262144 + y mod 64 * 4096 + z mod 64 * 64 + u mod 64)%N :: chars s4
              end
          end
      end
  end.

(** What the bytes of every [str] satisfy. *)
Definition is_utf8 (s : string) : bool :=
  forallb is_scalar (chars s) && bool_decide (encode (chars s) = s).

(** The digits of a number in base 16, in lower case, without leading zeros; six are enough
    for a character. *)
Definition hex_digit (n : N) : Ascii.ascii :=
  Ascii.ascii_of_N (if (n <? 10)%N then 48 + n else 87 + n).

Fixpoint hex_go (fuel : nat) (n : N) (acc : string) : string :=
  match fuel with
  | 0 => acc
  | S fuel =>
      let acc := String (hex_digit (n mod 16)) acc in
      if (n <? 16)%N then acc else hex_go fuel (n / 16) acc
  end.
Definition hex_text (n : N) : string := hex_go 6 n EmptyString.

Definition backslash : string := bytes [92%N].
Definition quote : string := bytes [34%N].

(** [char::escape_unicode]. *)
Definition escape_unicode (c : N) : string := backslash +:+ "u{" +:+ hex_text c +:+ "}".

Section Strings.

(** The tables of [core] for the characters outside ASCII that [Debug] escapes: those that
    extend a grapheme and those that are not printable. *)
Context (escaped : N -> bool).

(** [char::escape_debug_ext], as the [Debug] of [str] calls it: single quotes are not
    escaped. *)
Definition char_debug (c : N) : string :=
  if decide (c = 0)%N then backslash +:+ "0"
  else if decide (c = 9)%N then backslash +:+ "t"
  else if decide (c = 10)%N then backslash +:+ "n"
  else if decide (c = 13)%N then backslash +:+ "r"
  else if decide (c = 34 \/ c = 92)%N then backslash +:+ encode_char c
  else if (if (c <? 128)%N then (c <? 32)%N || (c =? 127)%N else escaped c) then escape_unicode c
  else encode_char c.

Definition chars_debug (cs : list N) : string := foldr (fun c s => char_debug c +:+ s) EmptyString cs.

Definition str_debug (s : string) : string := quote +:+ chars_debug (chars s) +:+ quote.

Definition option_str_debug (o : option string) : string :=
  match o with
  | Some s => "Some(" +:+ str_debug s +:+ ")"
  | None => "None"
  end.

(** [impl Debug for PanicInfo]. *)
Definition PanicInfo_debug (i : PanicInfo) : string :=
  debug_finish "PanicInfo" [("handler_id", HandlerId_debug (handler_id i));
                      ("message", option_str_debug (message i))].
End Strings.

(** ** The crate's types *)

(** [impl Debug] for the entries of the two registries: the handler is left out. *)
Definition HandlerEntry_debug {HT} (en : HandlerEntry HT) : string :=
  debug_finish_non_exhaustive "HandlerEntry" [("id", HandlerId_debug (entry_id en));
                                        ("priority", pretty (priority en))].

Definition AsyncHandlerEntry_debug {HT} (en : HandlerEntry HT) : string :=
  debug_finish_non_exhaustive "AsyncHandlerEntry" [("id", HandlerId_debug (entry_id en));
                                             ("priority", pretty (priority en))].

Section Registries.
Context {E O St1 St2 : Type}.
Context `{HandlerStore (stored E O) St1, HandlerStore (E -> code E O) St2}.

Definition SyncRegistry_debug (r : SyncRegistry E O St1) : string :=
  debug_finish_non_exhaustive "SyncRegistry"
    [("handler_count", pretty (SyncRegistry.handler_count r));
     ("has_panic_callback", bool_debug (if SyncRegistry.panic_callback r then true else false))].

Definition AsyncRegistry_debug (r : AsyncRegistry E O St2) : string :=
  debug_finish_non_exhaustive "AsyncRegistry"
    [("handler_count", pretty (AsyncRegistry.handler_count r));
     ("has_panic_callback", bool_debug (if AsyncRegistry.panic_callback r then true else false))].

(** [self.registry.strong_count() > 0]: the [Weak] points to a registry that exists. *)
Definition HandlerGuard_debug (g : HandlerGuard) (w : SyncRegistry.world E O St1) : string :=
  debug_finish "HandlerGuard"
    [("id", HandlerId_debug (guard_id g));
     ("registry_alive", bool_debug (guard_registry g && SyncRegistry.alive w))].

Definition AsyncHandlerGuard_debug (g : AsyncHandlerGuard) (w : AsyncRegistry.world E O St2) : string :=
  debug_finish "AsyncHandlerGuard"
    [("id", HandlerId_debug (aguard_id g));
     ("registry_alive", bool_debug (aguard_registry g && AsyncRegistry.alive w))].
End Registries.

(** ** Reading a text back *)

(** A decimal number, from the digits read so far. *)
Fixpoint read_decimal (acc : N) (s : string) : N * string :=
  match s with
  | String c s' =>
      let n := Ascii.N_of_ascii c in
      if ((48 <=? n) && (n <=? 57))%N then read_decimal (10 * acc + (n - 48)) s' else (acc, s)
  | EmptyString => (acc, s)
  end.

Fixpoint strip (p s : string) : option string :=
  match p, s with
  | EmptyString, _ => Some s
  | String c p, String d s => if decide (c = d) then strip p s else None
  | _, _ => None
  end.

Definition hex_value (n : N) : N := if (n <? 58)%N then n - 48 else n - 87.

(** The character an escape of one letter stands for. *)
Definition unescape (n : N) : N :=
  if decide (n = 48)%N then 0
  else if decide (n = 116)%N then 9
  else if decide (n = 110)%N then 10
  else if decide (n = 114)%N then 13
  else n.

Definition read_app (x : string) (o : option (string * string)) : option (string * string) :=
  '(y, rest) ← o; Some (x +:+ y, rest).

(** Where the reader is: between characters, after a backslash, after [\u], or inside the
    braces with the number read so far. *)
Inductive reading := RPlain | REscape | ROpen | RHex (n : N).

(** The bytes up to the closing quote, and what follows it. *)
Fixpoint read_chars (r : reading) (s : string) : option (string * string) :=
  match s with
  | EmptyString => None
  | String b s =>
      let n := Ascii.N_of_ascii b in
      match r with
      | RPlain =>
          if decide (n = 34)%N then Some (EmptyString, s)
          else if decide (n = 92)%N then read_chars REscape s
          else read_app (String b EmptyString) (read_chars RPlain s)
      | REscape =>
          if decide (n = 117)%N then read_chars ROpen s
          else read_app (bytes [unescape n]) (read_chars RPlain s)
      | ROpen => if decide (n = 123)%N then read_chars (RHex 0) s else None
      | RHex x =>
          if decide (n = 125)%N then read_app (encode_char x) (read_chars RPlain s)
          else read_chars (RHex (16 * x + hex_value n)) s
      end
  end.

Definition read_message (s : string) : option (option string) :=
  match strip ("Some(" +:+ quote) s with
  | Some s => '(msg, rest) ← read_chars RPlain s; _ ← strip ") }" rest; Some (Some msg)
  | None => _ ← strip "None }" s; Some None
  end.

Definition read_PanicInfo (s : string) : option (HandlerId * option string) :=
  s ← strip "PanicInfo { handler_id: HandlerId(" s;
  let '(n, s) := read_decimal 0 s in
  s ← strip "), message: " s;
  msg ← read_message s;
  Some (from_raw (Z.of_N n), msg).

Lemma option_bind_Some {A B} (x : A) (f : A -> option B) : Some x ≫= f = f x.
Proof. done. Qed.

Lemma strip_app p s : strip p (p +:+ s) = Some s.
Proof. induction p as [|c p IH]; [done|]. simpl. by rewrite decide_True. Qed.

Lemma pretty_N_char_value d :
  (d < 10)%N -> Ascii.N_of_ascii (pretty_N_char d) = (48 + d)%N.
Proof.
  intros Hd. assert (d ∈ N.of_nat <$> seq 0 10) as Hin.
  { apply list_elem_of_fmap. exists (N.to_nat d). split; [lia|]. apply elem_of_seq. lia. }
  cbn in Hin. repeat (apply elem_of_cons in Hin as [->|Hin]; [reflexivity|]). by apply elem_of_nil in Hin.
Qed.

Lemma read_decimal_go x s rest :
  read_decimal 0 (pretty_N_go x s +:+ rest) = read_decimal x (s +:+ rest).
Proof.
  revert s. induction (N.lt_wf_0 x) as [x _ IH]. intros s.
  destruct (decide (x = 0)%N) as [->|Hx]; [by rewrite pretty_N_go_0|].
  rewrite pretty_N_go_step by lia. rewrite IH by (apply N.div_lt; lia). simpl.
  pose proof (N.mod_lt x 10 ltac:(lia)) as Hlt.
  rewrite pretty_N_char_value by done.
  set (d := (x `mod` 10)%N) in *.
  rewrite (proj2 (N.leb_le 48 (48 + d)) ltac:(lia)), (proj2 (N.leb_le (48 + d) 57) ltac:(lia)). simpl.
  f_equal. pose proof (N.div_mod' x 10). lia.
Qed.

Lemma read_decimal_pretty (x : N) rest : read_decimal 0 (pretty x +:+ rest) = read_decimal x rest.
Proof.
  unfold pretty, pretty_N. case_decide as Hx; [by subst|]. apply (read_decimal_go x "").
Qed.

Lemma read_decimal_end (x : N) s : read_decimal x ("), message: " +:+ s) = (x, "), message: " +:+ s).
Proof. done. Qed.

Lemma string_cons c s t : String c s +:+ t = String c (s +:+ t).
Proof. done. Qed.
Lemma string_nil t : EmptyString +:+ t = t.
Proof. done. Qed.

Lemma read_app_app x y o : read_app x (read_app y o) = read_app (x +:+ y) o.
Proof. destruct o as [[z rest]|]; [|done]. simpl. by rewrite string_app_assoc. Qed.

Lemma read_app_nil o : read_app EmptyString o = o.
Proof. by destruct o as [[]|]. Qed.

Lemma read_plain l s :
  Forall (fun b => b < 256 /\ b <> 34 /\ b <> 92)%N l ->
  read_chars RPlain (bytes l +:+ s) = read_app (bytes l) (read_chars RPlain s).
Proof.
  induction 1 as [|b l (H1 & H2 & H3) _ IH].
  - symmetry. apply read_app_nil.
  - cbn [bytes]. rewrite string_cons. cbn [read_chars]. rewrite Ascii.N_ascii_embedding, !decide_False by done.
    rewrite IH, read_app_app. done.
Qed.

Lemma read_escaped n s :
  (n < 256)%N -> n <> 117%N ->
  read_chars RPlain (backslash +:+ bytes [n] +:+ s) = read_app (bytes [unescape n]) (read_chars RPlain s).
Proof.
  intros H1 H2. unfold backslash. cbn [bytes]. rewrite !string_cons, !string_nil. cbn [read_chars]. rewrite (Ascii.N_ascii_embedding n) by done.
  by rewrite (decide_False (P := n = 117%N)).
Qed.

Lemma hex_digit_value n :
  (n < 16)%N -> Ascii.N_of_ascii (hex_digit n) <> 125%N /\ hex_value (Ascii.N_of_ascii (hex_digit n)) = n.
Proof.
  intros Hn. unfold hex_digit, hex_value.
  destruct (N.ltb_spec n 10); rewrite Ascii.N_ascii_embedding by lia; (split; [lia|]).
  - destruct (N.ltb_spec (48 + n) 58); lia.
  - destruct (N.ltb_spec (87 + n) 58); lia.
Qed.

Lemma read_hex_go fuel x n acc s :
  (n < 16 ^ N.of_nat fuel)%N -> fuel <> 0 ->
  exists y, read_chars (RHex x) (hex_go fuel n acc +:+ s) = read_chars (RHex (y * x + n)) (acc +:+ s) /\ (y <> 0)%N.
Proof.
  revert n acc. induction fuel as [|fuel IH]; intros n acc Hn Hf; [done|]. cbn [hex_go].
  pose proof (N.mod_lt n 16 ltac:(done)) as Hm. destruct (hex_digit_value _ Hm) as [Hd Hv].
  assert (forall x, read_chars (RHex x) (String (hex_digit (n mod 16)) acc +:+ s) =
    read_chars (RHex (16 * x + n mod 16)) (acc +:+ s)) as Hone.
  { intros x0. rewrite string_cons. cbn [read_chars]. rewrite decide_False by done. by rewrite Hv. }
  destruct (N.ltb_spec n 16) as [Hlt|Hge].
  - exists 16%N. split; [|done]. rewrite Hone. by rewrite N.mod_small.
  - assert (fuel <> 0) by (intros ->; simpl in Hn; lia).
    destruct (IH (n / 16)%N (String (hex_digit (n mod 16)) acc)) as (y & Hy & Hne); [|done|].
    { rewrite Nat2N.inj_succ, N.pow_succ_r' in Hn. apply N.Div0.div_lt_upper_bound; lia. }
    exists (16 * y)%N. split; [|lia]. rewrite Hy, Hone. do 2 f_equal.
    pose proof (N.div_mod' n 16). lia.
Qed.

Lemma read_unicode c s :
  (c < 1114112)%N ->
  read_chars RPlain (escape_unicode c +:+ s) = read_app (encode_char c) (read_chars RPlain s).
Proof.
  intros Hc. unfold escape_unicode, hex_text. rewrite !string_app_assoc.
  destruct (read_hex_go 6 0 c EmptyString ("}" +:+ s)) as (y & Hy & _); [simpl; lia|done|].
  transitivity (read_chars (RHex 0) (hex_go 6 c EmptyString +:+ "}" +:+ s)); [done|].
  rewrite Hy, N.mul_0_r. done.
Qed.

Lemma scalar_bound c : is_scalar c = true -> (c < 1114112)%N.
Proof.
  unfold is_scalar. rewrite orb_true_iff, andb_true_iff, N.leb_le, !N.ltb_lt. lia.
Qed.

(** What [lia] has to know of the bits of [c], six at a time. *)
Ltac six_bits c :=
  pose proof (N.mod_lt c 64 ltac:(done)); pose proof (N.mod_lt (c / 64) 64 ltac:(done));
  pose proof (N.mod_lt (c / 4096) 64 ltac:(done)); pose proof (N.le_0_l (c mod 64));
  pose proof (N.le_0_l (c / 64 mod 64)); pose proof (N.le_0_l (c / 4096 mod 64));
  pose proof (N.le_0_l (c / 64)); pose proof (N.le_0_l (c / 4096)); pose proof (N.le_0_l (c / 262144)).

Ltac all_bytes :=
  repeat first [apply Forall_nil_2 | apply Forall_cons_2; [cbn beta; lia|]].

(** The bytes of a character outside ASCII. *)
Lemma encode_high c :
  (128 <= c < 1114112)%N -> exists l, encode_char c = bytes l /\ Forall (fun b => 128 <= b < 256)%N l.
Proof.
  intros Hc. unfold encode_char. destruct (N.ltb_spec c 128); [lia|].
  six_bits c.
  destruct (N.ltb_spec c 2048).
  { eexists. split; [done|]. pose proof (N.Div0.div_lt_upper_bound c 64 32 ltac:(lia)).
    all_bytes. }
  destruct (N.ltb_spec c 65536).
  { eexists. split; [done|]. pose proof (N.Div0.div_lt_upper_bound c 4096 16 ltac:(lia)).
    all_bytes. }
  eexists. split; [done|]. pose proof (N.Div0.div_lt_upper_bound c 262144 5 ltac:(lia)).
  all_bytes.
Qed.

Section Read.
Context (escaped : N -> bool).

Lemma read_char_debug c s :
  is_scalar c = true ->
  read_chars RPlain (char_debug escaped c +:+ s) = read_app (encode_char c) (read_chars RPlain s).
Proof.
  intros Hc%scalar_bound. unfold char_debug.
  case_decide as H0; [subst c; by apply (read_escaped 48 s)|].
  case_decide as H9; [subst c; by apply (read_escaped 116 s)|].
  case_decide as H10; [subst c; by apply (read_escaped 110 s)|].
  case_decide as H13; [subst c; by apply (read_escaped 114 s)|].
  case_decide as Hq; [destruct Hq; subst c; [by apply (read_escaped 34 s)|by apply (read_escaped 92 s)]|].
  destruct (if (c <? 128)%N then _ else _); [by apply read_unicode|].
  destruct (N.ltb_spec c 128) as [Hlt|Hge].
  - unfold encode_char. rewrite (proj2 (N.ltb_lt _ _) Hlt). apply read_plain. all_bytes.
  - destruct (encode_high c) as (l & -> & Hl); [lia|]. apply read_plain.
    eapply Forall_impl; [exact Hl|]. simpl. lia.
Qed.

Lemma read_chars_debug cs rest :
  forallb is_scalar cs = true ->
  read_chars RPlain (chars_debug escaped cs +:+ quote +:+ rest) = Some (encode cs, rest).
Proof.
  induction cs as [|c cs IH]; [done|]. intros [Hc Hcs]%andb_true_iff.
  change (chars_debug escaped (c :: cs)) with (char_debug escaped c +:+ chars_debug escaped cs). rewrite string_app_assoc, read_char_debug by done.
  by rewrite (IH Hcs).
Qed.

(** The bytes of the message are UTF-8, as those of every [&str] and [String]. *)
Definition message_utf8 (i : PanicInfo) : bool :=
  match message i with Some s => is_utf8 s | None => true end.

Lemma read_message_debug i :
  message_utf8 i = true -> read_message (option_str_debug escaped (message i) +:+ " }") = Some (message i).
Proof.
  unfold message_utf8. destruct (message i) as [msg|]; [|done].
  intros [Hsc Heq%bool_decide_eq_true]%andb_true_iff.
  unfold option_str_debug, str_debug, read_message.
  rewrite !string_app_assoc, <- (string_app_assoc "Some(" quote), strip_app.
  rewrite read_chars_debug by done. simpl. by rewrite Heq.
Qed.

Lemma PanicInfo_debug_text i :
  PanicInfo_debug escaped i =
  "PanicInfo { handler_id: HandlerId(" +:+ pretty (Z.to_N (as_u64 (handler_id i))) +:+
  "), message: " +:+ option_str_debug escaped (message i) +:+ " }".
Proof.
  unfold PanicInfo_debug, debug_finish, debug_fields, HandlerId_debug.
  by rewrite !string_app_assoc.
Qed.

(** (C36) The [Debug] text of a [PanicInfo] tells exactly which handler panicked and with what
    message, for every message that is UTF-8 and whichever characters outside ASCII [core]
    takes for unprintable or grapheme-extending: reading the text back, escapes included,
    yields the handler's id and the bytes of the message, and the absence of a message is
    not confused with any message. *)
Theorem panic_info_roundtrip i :
  valid_id (handler_id i) -> message_utf8 i = true ->
  read_PanicInfo (PanicInfo_debug escaped i) = Some (handler_id i, message i).
Proof.
  intros Hid Hmsg. rewrite PanicInfo_debug_text. unfold read_PanicInfo.
  rewrite strip_app, option_bind_Some, read_decimal_pretty, read_decimal_end, strip_app, option_bind_Some.
  rewrite read_message_debug, option_bind_Some by done.
  rewrite Z2N.id by apply Hid. by destruct (handler_id i).
Qed.
End Read.

(** ** UTF-8 *)

(** Decoding what was encoded, so that [is_utf8] holds of the bytes of any characters. *)
Lemma mod_low k b a : (a < b)%N -> ((k * b + a) mod b = a)%N.
Proof. intros Ha. symmetry. by apply (N.mod_unique _ _ k); [|lia]. Qed.

Lemma chars_encode_char c s : is_scalar c = true -> chars (encode_char c +:+ s) = c :: chars s.
Proof.
  intros Hc%scalar_bound. unfold encode_char.
  assert (forall x, (128 + x mod 64) mod 64 = x mod 64)%N as Hlow
    by (intros x; apply (mod_low 2 64); by apply N.mod_lt).
  six_bits c.
  pose proof (N.div_mod' c 64) as E1. pose proof (N.div_mod' (c / 64) 64) as E2.
  pose proof (N.div_mod' (c / 4096) 64) as E3.
  rewrite N.Div0.div_div in E2, E3. change (64 * 64)%N with 4096%N in E2. change (4096 * 64)%N with 262144%N in E3.
  destruct (N.ltb_spec c 128).
  { cbn [bytes]. rewrite string_cons, string_nil. cbn [chars]. rewrite Ascii.N_ascii_embedding by lia.
    by rewrite (proj2 (N.ltb_lt c 128)). }
  destruct (N.ltb_spec c 2048).
  { pose proof (N.Div0.div_lt_upper_bound c 64 32 ltac:(lia)).
    cbn [bytes]. rewrite !string_cons, string_nil. cbn [chars]. rewrite !Ascii.N_ascii_embedding by lia.
    rewrite (proj2 (N.ltb_ge (192 + c / 64) 128)), (proj2 (N.ltb_lt (192 + c / 64) 224)) by lia.
    assert ((192 + c / 64) mod 32 = c / 64)%N as -> by (by apply (mod_low 6 32)). rewrite Hlow. f_equal. lia. }
  destruct (N.ltb_spec c 65536).
  { pose proof (N.Div0.div_lt_upper_bound c 4096 16 ltac:(lia)).
    cbn [bytes]. rewrite !string_cons, string_nil. cbn [chars]. rewrite !Ascii.N_ascii_embedding by lia.
    rewrite (proj2 (N.ltb_ge (224 + c / 4096) 128)), (proj2 (N.ltb_ge (224 + c / 4096) 224)),
      (proj2 (N.ltb_lt (224 + c / 4096) 240)) by lia.
    assert ((224 + c / 4096) mod 16 = c / 4096)%N as -> by (by apply (mod_low 14 16)).
    rewrite !Hlow. f_equal. lia. }
  pose proof (N.Div0.div_lt_upper_bound c 262144 5 ltac:(lia)).
  cbn [bytes]. rewrite !string_cons, string_nil. cbn [chars]. rewrite !Ascii.N_ascii_embedding by lia.
  rewrite (proj2 (N.ltb_ge (240 + c / 262144) 128)), (proj2 (N.ltb_ge (240 + c / 262144) 224)),
    (proj2 (N.ltb_ge (240 + c / 262144) 240)) by lia.
  assert ((240 + c / 262144) mod 8 = c / 262144)%N as -> by (apply (mod_low 30 8); lia).
  rewrite !Hlow. f_equal. lia.
Qed.

Lemma is_utf8_encode cs : forallb is_scalar cs = true -> is_utf8 (encode cs) = true.
Proof.
  intros Hcs. assert (chars (encode cs) = cs) as Heq.
  { induction cs as [|c cs IH]; [done|]. apply andb_true_iff in Hcs as [Hc Hcs].
    change (encode (c :: cs)) with (encode_char c +:+ encode cs).
    rewrite chars_encode_char by done. f_equal. by apply IH. }
  unfold is_utf8. rewrite Heq, Hcs. by apply bool_decide_eq_true.
Qed.

(** ** Examples *)

(** Two characters that [core] escapes: a control character and the zero-width space. *)
Definition some_escaped (c : N) : bool := (c =? 133)%N || (c =? 8203)%N.

(** A quote, a line feed, a control character, a letter with an accent, the zero-width
    space, and a character of four bytes. *)
Definition odd_message : string := encode [116; 34; 10; 27; 233; 8203; 128512]%N.

Lemma panic_info_roundtrip_witness :
  let i := PanicInfo_new (from_raw 7) (PString odd_message) in
  valid_id (handler_id i) /\
  read_PanicInfo (PanicInfo_debug some_escaped i) = Some (from_raw 7, Some odd_message).
Proof.
  split; [by vm_compute|].
  apply (panic_info_roundtrip some_escaped (PanicInfo_new (from_raw 7) (PString odd_message))); by vm_compute.
Defined.

Example char_texts :
  char_debug some_escaped 133 = backslash +:+ "u{85}" /\
  char_debug some_escaped 8203 = backslash +:+ "u{200b}" /\
  char_debug some_escaped 27 = backslash +:+ "u{1b}" /\
  char_debug some_escaped 233 = encode_char 233 /\ char_debug some_escaped 39 = "'".
Proof. by vm_compute. Qed.

Example panic_info_text :
  PanicInfo_debug some_escaped (PanicInfo_new (from_raw 7) (PStr "out of range")) =
  "PanicInfo { handler_id: HandlerId(7), message: Some(" +:+ quote +:+ "out of range" +:+ quote +:+ ") }" /\
  PanicInfo_debug some_escaped (PanicInfo_new (from_raw 8) (POther 0 None)) =
  "PanicInfo { handler_id: HandlerId(8), message: None }".
Proof. split; by vm_compute. Qed.

Example registry_text :
  SyncRegistry_debug (SyncRegistry_new (E := unit) (O := unit) (St := list _)) =
  "SyncRegistry { handler_count: 0, has_panic_callback: false, .. }".
Proof. by vm_compute. Qed.
