(* ===== verification/UnitTests.v ===== *)
(** The unit tests of src/src/handler_id.rs, src/src/sync/mod.rs, src/src/future_ext.rs and
    src/src/async_registry/mod.rs, run on the model. *)
From S2P Require Import Prelude HandlerId HandlerList HandlerStore PanicInfo Clients DebugText.
From S2P Require Import SyncRegistry AsyncRegistry.
From S2P Require Import Unwind FutureExt.

(** [assert_eq!] and [assert_ne!] of a test that returns when all of them hold. *)
Definition all_hold : list bool -> bool := forallb id.

(** ** handler_id.rs *)

Definition debug_format_includes_value : bool :=
  bool_decide (HandlerId_debug (from_raw 42) = "HandlerId(42)").

Definition display_format_is_bare_number : bool :=
  bool_decide (HandlerId_display (from_raw 42) = "42").

Definition ids_are_copy_eq_hash : bool :=
  let a := from_raw 7 in
  let b := a in
  all_hold [bool_decide (a = b); bool_decide (b ∈ ({[ a ]} : gset HandlerId))].

Definition generator_produces_unique_ascending_ids : bool :=
  let '(a, g) := next_id HandlerIdGenerator_new in
  let '(b, g) := next_id g in
  let '(c, _) := next_id g in
  all_hold [as_u64 a =? 1; as_u64 b =? 2; as_u64 c =? 3; negb (bool_decide (a = b));
            negb (bool_decide (b = c))]%Z.

Example id_tests :
  all_hold [debug_format_includes_value; display_format_is_bare_number; ids_are_copy_eq_hash;
            generator_produces_unique_ascending_ids] = true.
Proof. by vm_compute. Qed.

(** [generator_is_thread_safe_and_unique]: threads call [next] on a shared generator, in the
    order [sched]; each collects its ids, and the collections are joined. *)
Definition collected (sched : list nat) (t : nat) : list HandlerId :=
  omap (fun x => if decide (x.1 = t) then Some x.2 else None)
    (zip sched (issue (length sched) HandlerIdGenerator_new).1).

Definition all_collected (sched : list nat) (threads : nat) : list HandlerId :=
  seq 0 threads ≫= collected sched.

Lemma collected_elem sched t id :
  id ∈ collected sched t <->
  exists i, sched !! i = Some t /\ (issue (length sched) HandlerIdGenerator_new).1 !! i = Some id.
Proof.
  unfold collected. rewrite list_elem_of_omap. split.
  - intros ([u id'] & Hin & Hid). simpl in Hid. case_decide; simplify_eq.
    apply list_elem_of_lookup in Hin as [i Hi].
    apply lookup_zip_with_Some in Hi as (? & ? & [= -> ->] & ? & ?). by exists i.
  - intros (i & Ht & Hid). exists (t, id). simpl. rewrite decide_True by done. split; [|done].
    apply list_elem_of_lookup. exists i. apply lookup_zip_with_Some. eauto.
Qed.

Lemma NoDup_omap_zip {B} (l : list nat) (ids : list B) t :
  NoDup ids -> NoDup (omap (fun x => if decide (x.1 = t) then Some x.2 else None) (zip l ids)).
Proof.
  revert ids. induction l as [|u l IH]; intros [|id ids]; [constructor..|].
  intros [Hid Hnd]%NoDup_cons. simpl. case_decide; [|by apply IH].
  apply NoDup_cons. split; [|by apply IH]. intros ([u' id'] & Hin & Hx)%list_elem_of_omap.
  simpl in Hx. case_decide; simplify_eq. apply elem_of_zip_r in Hin. done.
Qed.

(** However the threads interleave, no id is handed out twice. *)
Lemma generator_is_thread_safe_and_unique sched threads :
  (Z.of_nat (length sched) <= u64_modulus)%Z -> NoDup (all_collected sched threads).
Proof.
  intros Hn. pose proof (issue_NoDup _ Hn) as Hnd. apply NoDup_bind.
  - intros t1 t2 id _ _ (i & H1 & Hi)%collected_elem (j & H2 & Hj)%collected_elem.
    assert (i = j) as -> by (eapply NoDup_lookup; [exact Hnd|done..]). congruence.
  - intros t _. by apply NoDup_omap_zip.
  - apply NoDup_seq.
Qed.

(** ** sync/mod.rs *)

Module SyncTests.
Import SyncRegistry.

(** A test passes when it returns; increments of its counter are its only effects. *)
Definition passes (p : prog Z unit) : bool :=
  match exec 1 p (world_new : world Z unit (list (HandlerEntry (stored Z unit)))) with
  | Some (Done, _) => true
  | _ => false
  end.

Definition nothing : Z -> prog Z unit := fun _ => Ret.

Definition empty_registry_has_no_handlers : prog Z unit :=
  HandlerCount (fun n => assert (bool_decide (n = 0)) "handler_count"
  (IsEmpty (fun b => assert b "is_empty" Ret))).

Definition register_increments_count_and_returns_unique_ids : prog Z unit :=
  Register0 nothing (fun a => Register0 nothing (fun b =>
  assert (bool_decide (a <> b)) "a != b"
  (HandlerCount (fun n => assert (bool_decide (n = 2)) "handler_count" Ret)))).

(** [for _ in 0..n { registry.register(h) }] *)
Definition register_n (n : nat) (h : Z -> prog Z unit) (k : prog Z unit) : prog Z unit :=
  register_all (replicate n (0%Z, h)) k.

Definition notify_fires_each_handler_once : prog Z unit :=
  register_n 3 (fun _ => Emit tt Ret)
    (Notify 7%Z (Observe (fun t => assert (bool_decide (length t = 3)) "count" Ret))).

Definition unregister_returns_false_for_unknown_id : prog Z unit :=
  Register0 nothing (fun id => Unregister id (fun b => assert b "first"
  (Unregister id (fun b => assert (negb b) "second" Ret)))).

Definition clear_removes_all_handlers : prog Z unit :=
  register_n 5 nothing (Clear (HandlerCount (fun n => assert (bool_decide (n = 0)) "handler_count" Ret))).

Example sync_tests :
  all_hold (passes <$> [empty_registry_has_no_handlers;
    register_increments_count_and_returns_unique_ids; notify_fires_each_handler_once;
    unregister_returns_false_for_unknown_id; clear_removes_all_handlers]) = true.
Proof. by vm_compute. Qed.

(** The text of a registry with one handler. *)
Definition debug_text : string :=
  SyncRegistry_debug (register_with_priority 0 nothing
    (SyncRegistry_new : SyncRegistry Z unit (list (HandlerEntry (stored Z unit))))).2.

Example debug_does_not_panic_and_omits_handler_internals :
  debug_text = "SyncRegistry { handler_count: 1, has_panic_callback: false, .. }".
Proof. by vm_compute. Qed.
End SyncTests.

(** ** future_ext.rs *)

(** The futures of the tests: an empty [async] block and one that panics. *)
Inductive test_fut := Empty | Boom.

Definition test_poll (f : test_fut) : M unit (Poll unit test_fut) :=
  match f with
  | Empty => mret (Ready tt)
  | Boom => panic (PStr "in poll")
  end.

(** The value a piece of code ends with. *)
Definition value_of {A} (m : M unit A) : option A :=
  match m tt with Some (Val a, _) => Some a | _ => None end.

(** [r.is_err()] of the first call, [ok.is_ok()] of the second. *)
Definition start_isolates_panic_while_building_future : option (bool * bool) :=
  r ← value_of (start (F := test_fut) (panic (PStr "before future")));
  ok ← value_of (start (mret Empty));
  Some (match r with inr _ => true | inl _ => false end, match ok with inl _ => true | inr _ => false end).

Example start_test : start_isolates_panic_while_building_future = Some (true, true).
Proof. by vm_compute. Qed.

Definition slot_after (started : M unit (test_fut + payload)) : option (bool * Slot test_fut) :=
  value_of (s ← started; Slot_poll test_poll (Slot_new s)).

Example slot_reports_completion_and_panics :
  slot_after (mret (inl Empty)) = Some (true, SlotDone) /\
  slot_after (mret (inl Boom)) = Some (true, SlotPanicked (PStr "in poll")) /\
  slot_after (start (panic (PStr "early"))) = Some (true, SlotPanicked (PStr "early")).
Proof. split_and!; by vm_compute. Qed.

(** Two polls of the wrapper. *)
Definition polled_twice : M unit _ :=
  '(first, f) ← CatchUnwind_poll test_poll (CatchUnwind_new Empty);
  '(second, f') ← CatchUnwind_poll test_poll f;
  mret (first, inner f, second).

Example catch_unwind_drops_future_on_completion :
  value_of polled_twice = Some (Ready (inl tt), None, Pending tt).
Proof. by vm_compute. Qed.

(** ** async_registry/mod.rs *)

Module AsyncTests.
Import AsyncRegistry.

(** The task of the test, polled [n] times: whether it has ended, and its increments. *)
Definition runs (n : nat) (c : code Z unit) : option nat :=
  '(ts, w) ← exec_run 2 (Spawn c :: replicate n (PollTask 0))
     ([], world_new : world Z unit (list (HandlerEntry (Z -> code Z unit))));
  match ts with [Ended] => Some (length (emits (trace w))) | _ => None end.

Definition empty_registry_notify_is_noop : code Z unit :=
  Notify false 42%Z (Notify true 42%Z Finish).

(** The handler returns an [async] block that counts. *)
Fixpoint register_counting (n : nat) (k : code Z unit) : code Z unit :=
  match n with
  | 0 => k
  | S n => Register0 (fun _ => Yield (Emit tt Finish)) (fun _ => register_counting n k)
  end.

Definition concurrent_notify_fires_every_handler_once : code Z unit :=
  register_counting 5 (Notify false 0%Z Finish).

Example async_tests :
  runs 1 empty_registry_notify_is_noop = Some 0 /\
  runs 1 concurrent_notify_fires_every_handler_once = Some 5.
Proof. split; by vm_compute. Qed.
End AsyncTests.
