(* ===== verification/DocTests.v ===== *)
(** The examples in the documentation of the crate (src/src/lib.rs, src/src/handler_id.rs,
    src/src/panic.rs, src/src/sync/, src/src/async_registry/), run on the model. *)
From S2P Require Import Prelude HandlerId HandlerList HandlerStore PanicInfo Unwind FutureExt.
From S2P Require Import AsyncRegistry SyncRegistry Clients.

(** ** lib.rs *)

(** [env!("CARGO_PKG_VERSION")]: the version in Cargo.toml. *)
Definition VERSION : string := "1.1.0".

Example version_doctest :
  (bool_decide (VERSION <> "") && (String.prefix "0." VERSION || String.prefix "1." VERSION)) = true.
Proof. by vm_compute. Qed.

(** ** The synchronous registry *)

Module SyncDoc.
Import SyncRegistry Clients.

(** What handlers and callbacks do to the atomics and vectors of an example: [fetch_add] or
    [store] on the one, [push] to the other. *)
Inductive eff := Add (n : Z) | Store (n : Z) | Push (s : string).

Definition atomic (t : list eff) : Z :=
  foldl (fun x o => match o with Add n => x + n | Store n => n | Push _ => x end)%Z 0%Z t.
Definition pushed (t : list eff) : list string :=
  omap (fun o => match o with Push s => Some s | _ => None end) t.

(** The assertions on the shared state and on the registry. *)
Definition assert_atomic {E} (n : Z) (k : prog E eff) : prog E eff :=
  Observe (fun t => assert (bool_decide (atomic t = n)) "atomic" k).
Definition assert_pushed {E} (l : list string) (k : prog E eff) : prog E eff :=
  Observe (fun t => assert (bool_decide (pushed t = l)) "pushed" k).
Definition assert_count {E} (n : nat) (k : prog E eff) : prog E eff :=
  HandlerCount (fun m => assert (bool_decide (m = n)) "handler_count" k).
Definition assert_contains {E} (id : HandlerId) (b : bool) (k : prog E eff) : prog E eff :=
  Contains id (fun c => assert (bool_decide (c = b)) "contains" k).
Definition assert_unregister {E} (id : HandlerId) (b : bool) (k : prog E eff) : prog E eff :=
  Unregister id (fun c => assert (bool_decide (c = b)) "unregister" k).
Definition assert_empty {E} (b : bool) (k : prog E eff) : prog E eff :=
  IsEmpty (fun c => assert (bool_decide (c = b)) "is_empty" k).

Definition nothing {E} : E -> prog E eff := fun _ => Ret.
Definition adding : Z -> prog Z eff := fun n => Emit (Add n) Ret.
Definition pushing {E} (s : string) : E -> prog E eff := fun _ => Emit (Push s) Ret.
Definition panicking {E} (p : payload) : E -> prog E eff := fun _ => Panic p.

(** An example passes if it runs to its end on a new registry. *)
Definition passes {E} (p : prog E eff) : bool :=
  match exec 1 p (world_new : world E eff (list (HandlerEntry (stored E eff)))) with
  | Some (Done, _) => true
  | _ => false
  end.

(** The quick start. *)
Definition quick_start : prog Z eff :=
  Register0 adding (fun id => Notify 5%Z (Notify 7%Z (assert_atomic 12 (assert_unregister id true Ret)))).

Definition HandlerId_doctest : prog Z eff :=
  Register0 nothing (fun id_a => Register0 nothing (fun id_b =>
  assert (bool_decide (id_a <> id_b)) "id_a != id_b" (assert_unregister id_a true (assert_unregister id_b true Ret)))).

Definition as_u64_doctest : prog Z eff :=
  Register0 nothing (fun id => assert (0 <? as_u64 id)%Z "raw > 0" Ret).

Definition PanicInfo_doctest : prog unit eff :=
  OnPanic (fun info => match message info with Some msg => Emit (Push msg) Ret | None => Ret end) (
  Register0 (panicking (PStr "boom")) (fun _ => Notify tt (assert_pushed ["boom"] Ret))).

Definition handler_id_doctest : prog unit eff :=
  OnPanic (fun info => Emit (Store (as_u64 (handler_id info))) Ret) (
  Register0 (panicking (PStr "nope")) (fun id => Notify tt (assert_atomic (as_u64 id) Ret))).

Definition message_doctest : prog unit eff :=
  OnPanic (fun info => Emit (Push (default "<opaque>" (message info))) Ret) (
  Register0 (panicking (PStr "static literal")) (fun _ =>
  Register0 (panicking (PString ("formatted " +:+ pretty 42%Z))) (fun _ =>
  Notify tt (assert_pushed ["static literal"; "formatted 42"] Ret)))).

Definition SyncRegistry_doctest : prog Z eff :=
  Register0 adding (fun id => Notify 2%Z (Notify 3%Z (assert_atomic 5 (
  assert_unregister id true (Notify 100%Z (assert_atomic 5 Ret)))))).

Definition new_doctest : prog Z eff := assert_count 0 (assert_empty true Ret).

Definition register_with_priority_doctest : prog unit eff :=
  Register 0 (pushing "mid") (fun _ => Register 10 (pushing "first") (fun _ =>
  Register (-5) (pushing "last") (fun _ => Notify tt (assert_pushed ["first"; "mid"; "last"] Ret)))).

Definition register_guard_doctest : prog Z eff :=
  RegisterGuard nothing (fun guard => assert_count 1 (DropGuard guard (assert_count 0 Ret))).

Definition unregister_doctest : prog unit eff :=
  Register0 nothing (fun id => assert_unregister id true (assert_unregister id false Ret)).

(** [resource_open] is 1 from the start until the store of 0, here after the first effect. *)
Definition unregister_and_wait_doctest : prog unit eff :=
  Emit (Store 1) (
  Register0 (fun _ => Observe (fun t => assert (bool_decide (atomic t = 1%Z)) "open" Ret)) (fun id =>
  UnregisterAndWait id (fun b => assert b "unregister_and_wait" (
  Emit (Store 0) (Notify tt (PanicCount (fun n => assert (n =? 0)%Z "ran" Ret))))))).

Definition clear_doctest : prog Z eff :=
  Register0 nothing (fun _ => Register0 nothing (fun _ => assert_count 2 (Clear (assert_count 0 Ret)))).

Definition clear_and_wait_doctest : prog Z eff :=
  Register0 nothing (fun _ => ClearAndWait (assert_empty true Ret)).

Definition register_once_doctest : prog Z eff :=
  RegisterOnce adding (fun id => Notify 5%Z (Notify 7%Z (assert_atomic 5 (assert_contains id false Ret)))).

Definition panic_count_doctest : prog unit eff :=
  Register0 (panicking (PStr "boom")) (fun _ => Notify tt (PanicCount (fun n => assert (n =? 1)%Z "panic_count" Ret))).

Definition on_panic_doctest : prog unit eff :=
  OnPanic (fun _ => Emit (Add 1) Ret) (
  Register0 (panicking (PStr "a")) (fun _ => Register0 nothing (fun _ => Register0 (panicking (PStr "b")) (fun _ =>
  Notify tt (assert_atomic 2 Ret))))).

Definition notify_doctest : prog Z eff :=
  register_all (replicate 4 (0%Z, adding)) (Notify 10%Z (assert_atomic 40 Ret)).

Definition HandlerGuard_doctest : prog unit eff :=
  RegisterGuard nothing (fun guard =>
  let id := guard_id guard in
  DropGuard (HandlerGuard_forget guard) (assert_count 1 (assert_unregister id true Ret))).

Definition guard_id_doctest : prog unit eff :=
  RegisterGuard nothing (fun guard =>
  let id := guard_id guard in DropGuard guard (assert_contains id false Ret)).

Example sync_doctests :
  forallb id ((passes <$> [quick_start; HandlerId_doctest; as_u64_doctest; SyncRegistry_doctest; new_doctest;
    register_guard_doctest; clear_doctest; clear_and_wait_doctest; register_once_doctest; notify_doctest]) ++
  (passes <$> [PanicInfo_doctest; handler_id_doctest; message_doctest; register_with_priority_doctest;
    unregister_doctest; unregister_and_wait_doctest; panic_count_doctest; on_panic_doctest;
    HandlerGuard_doctest; guard_id_doctest])) = true.
Proof. by vm_compute. Qed.
End SyncDoc.

(** ** The asynchronous registry *)

Module AsyncDoc.
Import AsyncRegistry.

Inductive eff := Add (n : Z) | Push (s : string).

Definition atomic (t : list eff) : Z :=
  foldl (fun x o => match o with Add n => x + n | Push _ => x end)%Z 0%Z t.
Definition pushed (t : list eff) : list string :=
  omap (fun o => match o with Push s => Some s | _ => None end) t.

Definition assert_that {E} (b : bool) (msg : string) (k : code E eff) : code E eff :=
  if b then k else Panic (PStr msg).
Definition assert_count {E} (n : nat) (k : code E eff) : code E eff :=
  HandlerCount (fun m => assert_that (bool_decide (m = n)) "handler_count" k).
Definition assert_empty {E} (b : bool) (k : code E eff) : code E eff :=
  IsEmpty (fun c => assert_that (bool_decide (c = b)) "is_empty" k).
Definition assert_contains {E} (id : HandlerId) (b : bool) (k : code E eff) : code E eff :=
  Contains id (fun c => assert_that (bool_decide (c = b)) "contains" k).
Definition assert_unregister {E} (id : HandlerId) (b : bool) (k : code E eff) : code E eff :=
  Unregister id (fun c => assert_that (bool_decide (c = b)) "unregister" k).
Definition assert_atomic {E} (n : Z) (k : code E eff) : code E eff :=
  Observe (fun t => assert_that (bool_decide (atomic t = n)) "atomic" k).
Definition assert_pushed {E} (l : list string) (k : code E eff) : code E eff :=
  Observe (fun t => assert_that (bool_decide (pushed t = l)) "pushed" k).

(** [|_| async move {}], and blocks that add, push or panic. *)
Definition nothing {E} : E -> code E eff := fun _ => Finish.
Definition adding : Z -> code Z eff := fun n => Yield (Emit (Add n) Finish).
Definition pushing {E} (s : string) : E -> code E eff := fun _ => Yield (Emit (Push s) Finish).
Definition panicking {E} (p : payload) : E -> code E eff := fun _ => Yield (Panic p).

(** [block_on]: one poll is enough, since nothing in the examples waits. *)
Definition passes {E} (c : code E eff) : bool :=
  match poll_fut 2 (Run c) (world_new : world E eff (list (HandlerEntry (E -> code E eff)))) with
  | Some (Val (Ready _), _) => true
  | _ => false
  end.

Definition AsyncRegistry_doctest : code Z eff :=
  Register0 adding (fun _ => Notify false 7%Z (assert_atomic 7 Finish)).

Definition async_register_with_priority_doctest : code unit eff :=
  Register 100 nothing (fun _ => Register0 nothing (fun _ => Register (-10) nothing (fun _ => assert_count 3 Finish))).

Definition async_register_guard_doctest : code Z eff :=
  RegisterGuard nothing (fun guard => assert_count 1 (DropGuard guard (assert_count 0 Finish))).

Definition async_unregister_doctest : code unit eff :=
  Register0 nothing (fun id => assert_unregister id true (assert_unregister id false Finish)).

Definition async_contains_doctest : code unit eff :=
  Register0 nothing (fun id => assert_contains id true (assert_unregister id true (assert_contains id false Finish))).

Definition async_on_panic_doctest : code unit eff :=
  OnPanic (fun _ => Emit (Add 1) Finish) (
  Register0 (panicking (PStr "oops")) (fun _ => Notify false tt (assert_atomic 1 Finish))).

Fixpoint register_times (n : nat) (h : Z -> code Z eff) (k : code Z eff) : code Z eff :=
  match n with 0 => k | S n => Register0 h (fun _ => register_times n h k) end.

Definition async_clear_doctest : code Z eff := register_times 5 nothing (Clear (assert_count 0 Finish)).

Definition async_notify_doctest : code Z eff :=
  register_times 4 adding (Notify false 10%Z (assert_atomic 40 Finish)).

Definition async_notify_sequential_doctest : code unit eff :=
  Register 10 (pushing "first") (fun _ => Register0 (pushing "second") (fun _ =>
  Notify true tt (assert_pushed ["first"; "second"] Finish))).

Definition AsyncHandlerGuard_doctest : code unit eff :=
  assert_empty true (RegisterGuard nothing (fun guard => assert_count 1 (DropGuard guard (assert_empty true Finish)))).

Definition async_guard_id_doctest : code unit eff :=
  RegisterGuard nothing (fun guard =>
  let id := aguard_id guard in DropGuard guard (assert_contains id false Finish)).

Definition async_forget_doctest : code unit eff :=
  RegisterGuard nothing (fun guard =>
  let id := aguard_id guard in
  DropGuard (AsyncHandlerGuard_forget guard) (assert_contains id true (assert_unregister id true Finish))).

Example async_doctests :
  forallb id ((passes <$> [AsyncRegistry_doctest; async_register_guard_doctest; async_clear_doctest; async_notify_doctest]) ++
  (passes <$> [async_register_with_priority_doctest; async_unregister_doctest; async_contains_doctest; async_on_panic_doctest;
    async_notify_sequential_doctest; AsyncHandlerGuard_doctest; async_guard_id_doctest; async_forget_doctest])) = true.
Proof. by vm_compute. Qed.
End AsyncDoc.
